(* ===== verification/_CoqProject ===== *)
-Q . S2P
Prelude.v
Codec.v
Types.v
LooseCommit.v
Fragment.v
Traversal.v
Sedimentree.v
CommitDag.v
Minimize.v
Minimized.v
Fingerprints.v
Topsort.v
CommitStore.v
FragmentStore.v
Signed.v
Reader.v
Message.v
NonceCache.v
HandshakeWire.v
Authenticated.v
Handshake.v
Tasks.v
ShardedMap.v
BoundedShardedMap.v
Storage.v
MemoryStorage.v
Multiplexer.v
Node.v
Ingest.v
IngestSpec.v
IngestPool.v
Peers.v
PeersSpec.v
SyncHandler.v
ResponderSpec.v
SyncHandlerSpec.v
Registry.v
RegistrySpec.v
Engine.v
EngineSpec.v
SyncSpec.v
Listener.v
NodePool.v
Teardown.v
TwoNodes.v
EphemeralWire.v
EphemeralNonceCache.v
Ownership.v
EphemeralHandler.v
EphemeralSpec.v
EphemeralReplay.v
