(* ===== verification/Prelude.v ===== *)
(** * Subduction: a verification of the sedimentree and of the sync protocol around it

    Subduction synchronises documents between peers. A document is a set of commits;
    old commits are packed into fragments, and the tree of fragments and loose commits
    of a document is its _sedimentree_. Peers open a connection with a signed handshake
    and then exchange what the other one lacks, which they find out by comparing short
    fingerprints of identities.

    The development models the code under [src/] by executable definitions and states
    what the code guarantees as theorems about them. Each file opens with what it holds.

    ** The parts of the program and their files

    [sedimentree_core]
    - [Prelude.v]: Rust's [Result], machine integers, byte arrays, slices, big-endian
      bytes, the orders of [Ord], [BTreeSet] iteration and stable sorting.
    - [Codec.v]: [codec/]: the writers, the bounds-checked readers, the errors and the
      traits [Schema], [EncodeFields] and [DecodeFields] as classes. [CodecLaws] is the
      interface between a payload type and the envelopes around it: encoding appends,
      has the announced size, decodes to the value, and whatever decodes is canonical.
    - [Types.v]: [id.rs], [hex.rs], [crypto/], [blob.rs], [depth.rs].
    - [LooseCommit.v], [Fragment.v]: [loose_commit.rs], [fragment.rs]; both discharge
      [CodecLaws].
    - [Traversal.v]: the work-list loops the crate uses (a stack and a visited set) as
      one function [traverse], with its reachability lemma; hash-map iteration as the
      class [HashIter], an arbitrary but fixed order.
    - [Sedimentree.v]: [sedimentree.rs]: [new], [merge], [add_commit], [add_fragment],
      [diff], [heads_assuming_minimal], [ancestors_of].
    - [CommitDag.v]: [sedimentree/commit_dag.rs]; [Minimize.v]: [minimize],
      [minimize_in_place], [heads], [minimal_hash]; [Minimized.v]: the lazily minimised
      tree of [sedimentree/minimized.rs].
    - [Fingerprints.v]: [fingerprint_summarize], [fingerprint_resolver],
      [diff_remote_fingerprints]; [Topsort.v]: [topsorted_blob_order].
    - [CommitStore.v], [FragmentStore.v]: [commit.rs]: building one fragment and a
      store of fragments, sequentially and in parallel.

    [subduction_crypto]
    - [Signed.v]: [signed.rs], [verified_signature.rs], [verified_meta.rs].

    [subduction_core]
    - [Reader.v], [Message.v]: [connection/message.rs]: the sync messages.
    - [NonceCache.v]: [nonce_cache.rs].
    - [HandshakeWire.v]: [handshake/], [timestamp.rs], the handshake envelope and the
      drift correction; [Authenticated.v]: [authenticated.rs]; [Handshake.v]: the two
      sides of the protocol.
    - [Tasks.v]: asynchronous functions as tasks of critical sections, pools of tasks, and
      the rely-guarantee logic [wp] with its soundness for a pool.
    - [ShardedMap.v], [BoundedShardedMap.v]: [collections/]: the sharded map and the cache
      of bounded size over it.
    - [Storage.v]: [storage/]: the trait as the class [Storage], its contract as the class
      [StorageLaws], the capabilities; [MemoryStorage.v]: [storage/memory.rs], which
      discharges the contract.
    - [Multiplexer.v]: [multiplexer.rs] and the calls of [connection/managed.rs].
    - [Node.v]: the shared state of a node as the record [Node]; [Ingest.v]:
      [subduction/ingest.rs], with its promises in [IngestSpec.v] and its theorems for any
      interleaving in [IngestPool.v].
    - [Peers.v], [PeersSpec.v]: [subduction/peers.rs], [peer/counter.rs],
      [remote_heads.rs]: subscriptions, stamps, pushes, and the filter of stale heads.
    - [SyncHandler.v]: [handler/sync.rs], with the answers to sync requests in
      [ResponderSpec.v] and all messages in [SyncHandlerSpec.v], which also states the
      invariant of a node, [peers_ok].
    - [Registry.v], [RegistrySpec.v]: [subduction.rs]: how connections come and go, and the
      routing of responses; [Teardown.v]: what exactly is left after a disconnection.
    - [Engine.v]: [subduction.rs]: local writes, sync rounds, blob fetches, with their
      promises in [EngineSpec.v] and [SyncSpec.v]; [Listener.v]: the arms of the listener.
    - [NodePool.v]: all activities of a node, in a pool; [TwoNodes.v]: a sync round between
      two of them.

    [subduction_ephemeral]
    - [EphemeralWire.v]: [message.rs], [payload_header.rs]; [EphemeralNonceCache.v]:
      [nonce_cache.rs].
    - [Ownership.v]: the logic [owp] for tasks that own guards.
    - [EphemeralHandler.v]: [handler.rs], [config.rs], [policy.rs]; [EphemeralSpec.v]: its
      theorems for any interleaving; [EphemeralReplay.v]: replays.

    ** How code becomes definitions

    A struct is a [Record], an enum an [Inductive], a pure function a [Definition]; a
    function that mutates its argument returns the new value; [Result] is [result] and
    the [?] operator is [let?]. A value [None] of a model stands for a panic (an
    overflowing index, a division by zero, an [expect]) or for a loop that has run out
    of fuel; theorems show that neither happens. Machine integers are [N] or [Z]; where
    a cast truncates or a sum wraps, the model does ([as_u8], [as_u16], [as_i64], ...),
    as a release build does. [BTreeSet] and [HashMap] are [gset] and [gmap]; the order in
    which a hash map is iterated is that of [HashIter]. The handshake is a tree [proc] of
    send, receive and claim steps.

    The asynchronous functions of a node are [task]s on the record [Node]: trees of critical
    sections, one for each time a lock is held. What the code does under a lock that it keeps
    while it takes others is one section. A [pool] is a state with any number of tasks, which
    interleave at every section, and new ones arrive at any time. A component's promise is a
    [wp] triple: it holds whatever other tasks do that keep the invariant and only let the
    state grow. Components meet in classes: [Storage] and [StorageLaws], [StoragePolicy] and
    [policy_laws], [Connection] and [ConnectionLaws]; the theorems about a node hold for all
    that keep these laws, and the instances of [MemoryStorage.v] and of the examples show
    that they can be kept.

    Four simplifications. Futures that the code joins (pushes to several peers, point reads
    of a chunk, the rounds of [sync_with_all_peers]) run one after another here; their
    sections interleave with those of all other tasks, not with each other. A deadline is a
    number of sections that the call waits for its response. What depends on chance or on
    a lock that is only tried (the seed of a fingerprint, the answer of [try_lock]) is an
    argument, [chance]. What a transport was given to send is a list that only grows.

    Third-party code is a parameter, a class with what the code relies on as its laws:
    Ed25519 ([Ed25519], [HonestSigner]), BLAKE3 ([Blake3]), SipHash ([SipHash24]), the
    variable-length integers of [bijou64] ([Bijou64], [Bijou64Laws]), radix conversion
    ([BigIntRadix]). Each has an instance in the development, so that the theorems are
    evaluated on concrete inputs.

    ** What the theorems show

    - Formats: commits, fragments, signed envelopes, sync messages and handshake messages
      survive the wire whatever follows them, and what decodes is canonical or re-encodes
      to itself; a verified signature binds schema, signer and content.
    - The tree: merging is a semilattice up to digest collisions, the content of a tree
      does not depend on the order of arrival, every item is stored under its identity.
    - Minimisation: it never panics, keeps exactly the fragments that no deeper kept one
      supports and the loose commits no fragment covers, is idempotent on acyclic
      histories, and does not depend on the iteration order of hash maps; the lazy tree
      is always a faithful view of it.
    - Reconciliation: the difference a responder computes is exact, and in one round
      without fingerprint collisions nobody is sent what it has.
    - Orders and fragments: the topological order is complete, sorted, and fails exactly
      on cycles; fragment construction returns on every finite store, loses no commit of
      the history, and never holds a commit twice along a chain of boundaries.
    - Handshake: whatever a transport does, a session that succeeds has authenticated its
      peer; honest sides complete under every interleaving, also when both dial at once;
      the nonce cache refines a map with expiry, and no captured challenge opens a second
      session within nine minutes, over all interleavings of concurrent responders.
    - Collections and storage: the sharded map is a map; the bounded cache keeps its bound
      under every interleaving and evicts what was used longest ago; the memory backend
      refines a map from trees and digests to items and keeps the contract of storage.
    - A node: in any interleaving of messages, connections, writes and sync rounds nothing
      panics, only authentic items are stored or sent, and only to peers that may receive
      them ([node_pool_safe]); a message that was dispatched has been handled, a write that
      returned is stored, a round that succeeded has ingested the response to its request
      and served what it asked for ([node_pool_handles], [node_pool_writes],
      [node_pool_syncs]). That what is stored is also in the resident tree holds while the
      cache evicts nothing, and fails for a bounded one ([bounded_cache_stale_read]).
    - Two nodes: after a round the one has what the other answered ([sync_transfers]).
    - Peers: stamps of heads increase, a response goes to the call that waits for it or to
      none, and a disconnection leaves nothing of a peer but its counters.
    - Ephemeral messages: only genuine messages of authorised senders are delivered and
      relayed, only to authorised subscribers; the budget of sends is neither exceeded nor
      leaked; a message is delivered once if the nonce window is twice the age limit.
    - Defects: truncated counters in two formats, duplicate fragments of the parallel
      builder, loose commits on a cycle that minimisation drops, the minute in which a
      captured challenge is accepted again, stale reads of a bounded cache, stale heads that
      overtake newer ones, commits that are stored under a tree they do not name, and the
      replay of ephemeral messages under the default configuration, as theorems about the
      definitions.

    ** Fuel

    Loops that are not structural take fuel: [traverse] one step per node of a finite
    universe and per edge ([Traversal.v]); [simplify] the pairs of a node and a range
    head; [fragment] and [build_fragment_store] the commits of the store and their
    parents ([fragment_fuel], [build_fuel]); Kahn's loop the number of items; the ring of
    the nonce cache the distance of its head to the oldest valid bucket. Either the
    definition computes the fuel and a theorem shows that the result is that of the loop,
    or the theorem holds for every fuel above a bound. Tasks need no fuel: they are finite
    trees, and a loop over a list is a structural recursion.

    ** What is not modelled

    The file-system and redb backends, transports and their framing, the connection
    manager with its backoff, builders and shutdown, metrics, the command line, the
    JavaScript bindings, key management by Keyhive, and randomness and clocks, which are
    arguments. The executor is the choice of the next task; fairness is not assumed, and
    that a task comes to its end is shown for functions that run alone and for the
    handshake. Futures that are dropped before they complete are not modelled, except that
    a handshake may stop at any step and that a spawned fan-out of ephemeral messages may
    never run. Cryptography is not analysed: the theorems say what has been verified under
    which key, not that signatures cannot be forged. *)

From Stdlib Require Import Strings.Byte NArith Lia.
From stdpp Require Import base gmap sorting strings list.

Open Scope N_scope.

(** ** Results

    Rust's [Result<T, E>] and the [?] operator. *)

Inductive result (E A : Type) : Type :=
| Ok (a : A)
| Err (e : E).
Arguments Ok {E A} _.
Arguments Err {E A} _.

Definition rbind {E A B} (m : result E A) (k : A -> result E B) : result E B :=
  match m with Ok a => k a | Err e => Err e end.

Definition ok_or {E A} (o : option A) (e : E) : result E A :=
  match o with Some a => Ok a | None => Err e end.

Definition map_err {E F A} (f : E -> F) (m : result E A) : result F A :=
  match m with Ok a => Ok a | Err e => Err (f e) end.

Definition is_ok {E A} (m : result E A) : bool :=
  match m with Ok _ => true | Err _ => false end.

(** An early [return Err(e)] guarded by a condition. *)
Definition guard_err {E} (bad : bool) (e : E) : result E unit :=
  if bad then Err e else Ok tt.

Declare Scope result_scope.
Delimit Scope result_scope with res.
Notation "'let?' x := m 'in' k" := (rbind m (fun x => k))
  (at level 10, x pattern, m at level 100, k at level 200)
  : result_scope.
Open Scope result_scope.

(** Left-to-right traversal that stops at the first error, the shape of a
    [for] loop whose body uses [?]. *)
Fixpoint result_fold {E A S} (f : S -> A -> result E S) (s : S) (l : list A) :
  result E S :=
  match l with
  | [] => Ok s
  | x :: l' => let? s' := f s x in result_fold f s' l'
  end.

Lemma rbind_ok {E A B} (m : result E A) (k : A -> result E B) b :
  rbind m k = Ok b <-> exists a, m = Ok a /\ k a = Ok b.
Proof. destruct m; simpl; naive_solver. Qed.

Lemma guard_err_ok {E} bad (e : E) u : guard_err bad e = Ok u <-> bad = false.
Proof. destruct bad, u; simpl; naive_solver. Qed.

Lemma ok_or_ok {E A} (o : option A) (e : E) a : ok_or o e = Ok a <-> o = Some a.
Proof. destruct o; simpl; naive_solver. Qed.

Lemma map_err_ok {E F A} (f : E -> F) (m : result E A) a :
  map_err f m = Ok a <-> m = Ok a.
Proof. destruct m; simpl; naive_solver. Qed.

(** Inversion of a chain of [let?] that succeeded. *)
Ltac inv_ok :=
  repeat match goal with
  | H : rbind _ _ = Ok _ |- _ =>
      apply rbind_ok in H; destruct H as (? & ? & H)
  | H : guard_err _ _ = Ok _ |- _ => apply guard_err_ok in H
  | H : ok_or _ _ = Ok _ |- _ => apply ok_or_ok in H
  | H : map_err _ _ = Ok _ |- _ => apply map_err_ok in H
  | H : Ok _ = Ok _ |- _ => injection H as H
  | H : Err _ = Ok _ |- _ => discriminate H
  | H : (_, _) = (_, _) |- _ => injection H as ? ?
  end.

(** ** Bytes and machine integers

    An [u8] is a [byte]; wider unsigned integers are [N], with the reduction of
    an [as] cast written out. *)

#[export] Instance byte_eq_dec : EqDecision byte := Byte.byte_eq_dec.

#[export] Program Instance byte_countable : Countable byte :=
  inj_countable Byte.to_N Byte.of_N _.
Next Obligation. apply Byte.of_to_N. Qed.

Definition u8_max : N := 255.
Definition u16_max : N := 65535.
Definition u32_max : N := 4294967295.
Definition u64_max : N := 18446744073709551615.

Definition as_u8 (n : N) : N := n mod 256.
Definition as_u16 (n : N) : N := n mod 65536.
Definition as_u32 (n : N) : N := n mod 4294967296.
Definition as_u64 (n : N) : N := n mod 18446744073709551616.

Definition byte_of_N (n : N) : byte := default x00 (Byte.of_N (as_u8 n)).

Lemma byte_of_to_N b : byte_of_N (Byte.to_N b) = b.
Proof.
  unfold byte_of_N, as_u8. rewrite N.mod_small.
  - by rewrite Byte.of_to_N.
  - pose proof (Byte.to_N_bounded b). lia.
Qed.

Lemma to_byte_of_N n : Byte.to_N (byte_of_N n) = n mod 256.
Proof.
  unfold byte_of_N, as_u8.
  pose proof (N.mod_lt n 256 ltac:(lia)) as Hlt.
  pose proof (Byte.to_of_N_option_map (n mod 256)) as Hm.
  destruct (Byte.of_N (n mod 256)) as [b|]; simpl in *.
  - destruct (n mod 256 <=? 255) eqn:E; [congruence|].
    apply N.leb_gt in E. lia.
  - destruct (n mod 256 <=? 255) eqn:E; [congruence|].
    apply N.leb_gt in E. lia.
Qed.

(** [buf.len()] *)
Definition len {A} (l : list A) : N := N.of_nat (length l).

Lemma len_app {A} (l k : list A) : len (l ++ k) = len l + len k.
Proof. unfold len. rewrite length_app. lia. Qed.

Lemma len_nil {A} : len (@nil A) = 0.
Proof. done. Qed.

Lemma len_cons {A} (x : A) l : len (x :: l) = 1 + len l.
Proof. unfold len. simpl. lia. Qed.

Lemma rev_replicate {A} k (x : A) : rev (replicate k x) = replicate k x.
Proof. rewrite rev_alt. apply reverse_replicate. Qed.

(** [&buf[a..b]], through [slice::get]: [None] out of range. The comparisons
    come first, so that a huge offset is refused without being counted to. *)
Definition get_range {A} (buf : list A) (a b : N) : option (list A) :=
  if (a <=? b) && (b <=? len buf)
  then Some (take (N.to_nat (b - a)) (drop (N.to_nat a) buf))
  else None.

(** [buf.get(a..)] *)
Definition get_from {A} (buf : list A) (a : N) : option (list A) :=
  if a <=? len buf then Some (drop (N.to_nat a) buf) else None.

(** [suffix_at buf off rest]: reading [buf] from [off] on gives [rest]. The
    round-trip proofs walk through an encoding with it. *)
Definition suffix_at {A} (buf : list A) (off : N) (rest : list A) : Prop :=
  off <= len buf /\ drop (N.to_nat off) buf = rest.

Lemma suffix_at_start {A} (buf : list A) : suffix_at buf 0 buf.
Proof. split; [lia|done]. Qed.

Lemma suffix_at_len {A} (buf rest : list A) off :
  suffix_at buf off rest -> len buf = off + len rest.
Proof. intros [? <-]. unfold len in *. rewrite length_drop. lia. Qed.

Lemma suffix_at_app {A} (buf x rest : list A) off n :
  suffix_at buf off (x ++ rest) -> len x = n -> suffix_at buf (off + n) rest.
Proof.
  intros Hs <-. pose proof (suffix_at_len _ _ _ Hs) as Hl.
  rewrite len_app in Hl. destruct Hs as [Ho Hd]. split; [lia|].
  replace (N.to_nat (off + len x)) with (N.to_nat off + length x)%nat
    by (unfold len; lia).
  by rewrite <- drop_drop, Hd, drop_app_length.
Qed.

Lemma get_range_suffix {A} (buf x rest : list A) off n :
  suffix_at buf off (x ++ rest) -> len x = n ->
  get_range buf off (off + n) = Some x.
Proof.
  intros Hs <-. pose proof (suffix_at_len _ _ _ Hs) as Hl.
  rewrite len_app in Hl. destruct Hs as [Ho Hd]. unfold get_range.
  rewrite (proj2 (N.leb_le _ _)), (proj2 (N.leb_le _ _)) by lia. simpl.
  rewrite Hd. f_equal. rewrite take_app_le by (unfold len in *; lia).
  apply take_ge. unfold len in *. lia.
Qed.

Lemma get_from_suffix {A} (buf rest : list A) off :
  suffix_at buf off rest -> get_from buf off = Some rest.
Proof.
  intros [Ho Hd]. unfold get_from. by rewrite (proj2 (N.leb_le _ _)), Hd.
Qed.

Lemma get_range_Some {A} (buf x : list A) a b :
  get_range buf a b = Some x <->
  a <= b /\ b <= len buf /\ len x = b - a /\
  exists rest, suffix_at buf a (x ++ rest).
Proof.
  unfold get_range. split.
  - destruct ((a <=? b) && (b <=? len buf)) eqn:E; [|done].
    apply andb_prop in E as [E1%N.leb_le E2%N.leb_le].
    intros [= <-]. split; [done|]. split; [done|]. split.
    + unfold len in *. rewrite length_take, length_drop. lia.
    + eexists (drop (N.to_nat (b - a)) (drop (N.to_nat a) buf)).
      split; [lia|]. by rewrite take_drop.
  - intros (H1 & H2 & H3 & rest & Hs).
    pose proof (get_range_suffix buf x rest a (b - a) Hs H3) as Hg.
    unfold get_range in Hg. replace (a + (b - a)) with b in Hg by lia. done.
Qed.

(** ** Big-endian integers *)

(** [n.to_be_bytes()] of a [k]-byte integer. *)
Fixpoint to_be_bytes (k : nat) (v : N) : list byte :=
  match k with
  | O => []
  | S k' => to_be_bytes k' (v / 256) ++ [byte_of_N v]
  end.

(** [uN::from_be_bytes] *)
Definition from_be_bytes (l : list byte) : N :=
  fold_left (fun acc b => acc * 256 + Byte.to_N b) l 0.

Lemma length_to_be_bytes k v : length (to_be_bytes k v) = k.
Proof.
  revert v. induction k; intros v; simpl; [done|].
  rewrite length_app, IHk. simpl. lia.
Qed.

Lemma from_be_bytes_snoc l b :
  from_be_bytes (l ++ [b]) = from_be_bytes l * 256 + Byte.to_N b.
Proof. unfold from_be_bytes. by rewrite fold_left_app. Qed.

Lemma from_to_be_bytes k v :
  v < 256 ^ N.of_nat k -> from_be_bytes (to_be_bytes k v) = v.
Proof.
  revert v. induction k as [|k IH]; intros v Hv.
  - simpl in *. unfold from_be_bytes. simpl. lia.
  - rewrite Nat2N.inj_succ, N.pow_succ_r' in Hv. simpl.
    rewrite from_be_bytes_snoc, IH, to_byte_of_N.
    + pose proof (N.div_mod v 256). lia.
    + apply N.Div0.div_lt_upper_bound; lia.
Qed.

Lemma byte_of_N_low x b : byte_of_N (x * 256 + Byte.to_N b) = b.
Proof.
  pose proof (Byte.to_N_bounded b). unfold byte_of_N, as_u8.
  rewrite N.add_comm, N.Div0.mod_add, N.mod_small by lia.
  by rewrite Byte.of_to_N.
Qed.

Lemma to_from_be_bytes l : to_be_bytes (length l) (from_be_bytes l) = l.
Proof.
  induction l as [|b l IH] using rev_ind; [done|].
  rewrite length_app, Nat.add_comm, from_be_bytes_snoc. simpl.
  pose proof (Byte.to_N_bounded b) as Hb.
  rewrite byte_of_N_low, N.div_add_l, N.div_small, N.add_0_r by lia.
  by rewrite IH.
Qed.

Lemma from_be_bytes_bound l : from_be_bytes l < 256 ^ len l.
Proof.
  induction l as [|b l IH] using rev_ind; [done|].
  rewrite from_be_bytes_snoc, len_app, N.pow_add_r.
  pose proof (Byte.to_N_bounded b).
  change (256 ^ len [b]) with 256. lia.
Qed.

(** ** Fixed-size arrays: [[u8; n]] *)

Record array (n : nat) : Type := Array {
  arr_list : list byte;
  arr_len : bool_decide (length arr_list = n)
}.
Arguments Array {n} _ _.
Arguments arr_list {n} _.
Arguments arr_len {n} _.

(** [slice.try_into()] *)
Definition array_of_list (n : nat) (l : list byte) : option (array n) :=
  match decide (bool_decide (length l = n)) with
  | left H => Some (Array l H)
  | right _ => None
  end.

Lemma length_array {n} (a : array n) : length (arr_list a) = n.
Proof. destruct a as [l H]. simpl. by apply bool_decide_unpack in H. Qed.

Lemma len_array {n} (a : array n) : len (arr_list a) = N.of_nat n.
Proof. unfold len. by rewrite length_array. Qed.

Lemma array_eq {n} (a b : array n) : arr_list a = arr_list b -> a = b.
Proof.
  destruct a as [l H], b as [l' H']. simpl. intros ->.
  f_equal. apply proof_irrel.
Qed.

Lemma array_of_list_eq {n} (a : array n) : array_of_list n (arr_list a) = Some a.
Proof.
  unfold array_of_list. destruct (decide _) as [H|H].
  - f_equal. by apply array_eq.
  - by destruct H, a.
Qed.

Lemma array_of_list_Some n l a :
  array_of_list n l = Some a <-> arr_list a = l.
Proof.
  split.
  - unfold array_of_list. by destruct (decide _); intros [= <-].
  - intros <-. apply array_of_list_eq.
Qed.

Lemma array_of_list_is_Some n l :
  length l = n -> is_Some (array_of_list n l).
Proof.
  intros Hl. unfold array_of_list. destruct (decide _) as [H|H]; [eauto|].
  destruct H. by apply bool_decide_pack.
Qed.

#[export] Instance array_eq_dec n : EqDecision (array n).
Proof.
  intros a b. destruct (decide (arr_list a = arr_list b)) as [H|H].
  - left. by apply array_eq.
  - right. congruence.
Defined.

#[export] Program Instance array_countable n : Countable (array n) :=
  inj_countable arr_list (array_of_list n) _.
Next Obligation. intros n a. apply array_of_list_eq. Qed.

(** An array from bytes of the right number. The match lets the length proof
    evaluate to its normal form. *)
Definition array_mk {n} (l : list byte) (H : bool_decide (length l = n)) : array n :=
  Array l
    (match bool_decide (length l = n) as b return Is_true b -> Is_true b with
     | true => fun _ => I
     | false => fun F => F
     end H).

(** [[0u8; n]] with the first bytes filled in from [l]. *)
Program Definition array_pad (n : nat) (l : list byte) : array n :=
  array_mk (take n (l ++ replicate n x00)) _.
Next Obligation.
  intros n l. apply bool_decide_pack. rewrite length_take, length_app, length_replicate. lia.
Qed.

(** ** Orders

    [RustOrd A] is what a derived [Ord] gives: a decidable total order. *)

Class RustOrd (A : Type) : Type := {
  ord_le : relation A;
  ord_le_dec :: RelDecision ord_le;
  ord_le_trans :: Transitive ord_le;
  ord_le_total :: Total ord_le;
  ord_le_antisymm :: AntiSymm (=) ord_le
}.

Definition ord_lt {A} `{RustOrd A} (x y : A) : Prop := ord_le x y /\ x <> y.

Arguments ord_le {A _} _ _ : simpl never.
Arguments ord_lt {A _} _ _ : simpl never.

Declare Scope ord_scope.
Infix "≼" := ord_le (at level 70, no associativity) : ord_scope.
Infix "≺" := ord_lt (at level 70, no associativity) : ord_scope.
Open Scope ord_scope.

#[export] Instance ord_lt_dec {A} `{RustOrd A, EqDecision A} :
  RelDecision (@ord_lt A _).
Proof. intros x y. unfold ord_lt. apply _. Defined.

(** [a < b] as a boolean. *)
Definition ord_ltb {A} `{RustOrd A, EqDecision A} (x y : A) : bool :=
  bool_decide (x ≺ y).

Section ord.
Context {A : Type} `{RustOrd A, EqDecision A}.
Implicit Types x y z : A.

Lemma ord_le_refl x : x ≼ x.
Proof. by destruct (ord_le_total x x). Qed.

Lemma ord_lt_irrefl x : ~ x ≺ x.
Proof. intros [_ ?]. done. Qed.

Lemma ord_not_lt x y : ~ x ≺ y <-> y ≼ x.
Proof.
  unfold ord_lt. split.
  - intros Hn. destruct (ord_le_total x y) as [Hxy|]; [|done].
    destruct (decide (x = y)) as [->|]; [done|naive_solver].
  - intros Hyx [Hxy Hne]. apply Hne. by apply (anti_symm ord_le).
Qed.

Lemma ord_lt_trichotomy x y : x ≺ y \/ x = y \/ y ≺ x.
Proof.
  unfold ord_lt. destruct (decide (x = y)); [by right; left|].
  destruct (ord_le_total x y); [by left|]. right. right. naive_solver.
Qed.

Lemma ord_lt_le_trans x y z : x ≺ y -> y ≼ z -> x ≺ z.
Proof.
  intros [Hxy Hne] Hyz. split; [by trans y|]. intros ->.
  apply Hne. by apply (anti_symm ord_le).
Qed.

Lemma ord_le_lt_trans x y z : x ≼ y -> y ≺ z -> x ≺ z.
Proof.
  intros Hxy [Hyz Hne]. split; [by trans y|]. intros ->.
  apply Hne. by apply (anti_symm ord_le).
Qed.

Lemma ord_lt_trans x y z : x ≺ y -> y ≺ z -> x ≺ z.
Proof. intros ? [? _]. by eapply ord_lt_le_trans. Qed.
End ord.

#[export] Instance ord_lt_transitive {A} `{RustOrd A} : Transitive (@ord_lt A _).
Proof.
  intros x y z [Hxy Hne] [Hyz _]. split; [by trans y|]. intros ->.
  apply Hne. by apply (anti_symm ord_le).
Qed.

#[export] Program Instance N_ord : RustOrd N := 
  {| ord_le := N.le; ord_le_dec := N.le_dec |}.

(** Lexicographic order of byte strings: [Ord for [u8]]. *)
Fixpoint lex_leb (a b : list byte) : bool :=
  match a, b with
  | [], _ => true
  | _ :: _, [] => false
  | x :: a', y :: b' =>
      (Byte.to_N x <? Byte.to_N y)
      || ((Byte.to_N x =? Byte.to_N y) && lex_leb a' b')
  end.

Lemma to_N_inj x y : Byte.to_N x = Byte.to_N y -> x = y.
Proof. intros E. by rewrite <- (byte_of_to_N x), E, byte_of_to_N. Qed.

Lemma lex_leb_cons x a y b :
  lex_leb (x :: a) (y :: b) = true <->
  Byte.to_N x < Byte.to_N y \/ (x = y /\ lex_leb a b = true).
Proof.
  simpl. rewrite orb_true_iff, andb_true_iff, N.ltb_lt, N.eqb_eq.
  split; [|intuition congruence]. intros [|[?%to_N_inj ?]]; auto.
Qed.

#[export] Program Instance bytes_ord : RustOrd (list byte) :=
  {| ord_le a b := lex_leb a b = true;
     ord_le_dec a b := bool_eq_dec (lex_leb a b) true |}.
Next Obligation.
  intros a. induction a as [|x a IH]; intros [|y b] [|z c]; try done.
  rewrite !lex_leb_cons. intros [?|[-> ?]] [?|[-> ?]];
    [left; lia|by left|by left|right; eauto].
Qed.
Next Obligation.
  intros a. induction a as [|x a IH]; intros [|y b]; auto.
  rewrite !lex_leb_cons.
  destruct (N.lt_trichotomy (Byte.to_N x) (Byte.to_N y)) as [|[->%to_N_inj|]];
    auto. destruct (IH b); auto.
Qed.
Next Obligation.
  intros a. induction a as [|x a IH]; intros [|y b]; try done.
  rewrite !lex_leb_cons. intros [?|[-> ?]] [?|[? ?]]; subst; try lia.
  f_equal. by apply IH.
Qed.

#[export] Program Instance array_ord n : RustOrd (array n) :=
  {| ord_le a b := arr_list a ≼ arr_list b;
     ord_le_dec a b := ord_le_dec (arr_list a) (arr_list b) |}.
Next Obligation. intros n a b c. apply (ord_le_trans (A:=list byte)). Qed.
Next Obligation. intros n a b. apply (ord_le_total (A:=list byte)). Qed.
Next Obligation.
  intros n a b ??. apply array_eq. by apply (anti_symm ord_le).
Qed.

(** ** [BTreeSet]

    A finite set; [iter()] lists it in ascending order. *)

Section btree.
Context {A : Type} `{RustOrd A, Countable A}.

Definition btree_iter (s : gset A) : list A := merge_sort ord_le (elements s).

Lemma btree_iter_Permutation s : btree_iter s ≡ₚ elements s.
Proof. apply merge_sort_Permutation. Qed.

Lemma elem_of_btree_iter s x : x ∈ btree_iter s <-> x ∈ s.
Proof. by rewrite btree_iter_Permutation, elem_of_elements. Qed.

Lemma NoDup_btree_iter s : NoDup (btree_iter s).
Proof. rewrite btree_iter_Permutation. apply NoDup_elements. Qed.

Lemma length_btree_iter s : length (btree_iter s) = size s.
Proof. by rewrite btree_iter_Permutation. Qed.

Lemma list_to_set_btree_iter s : list_to_set (btree_iter s) = s.
Proof. rewrite btree_iter_Permutation. apply list_to_set_elements_L. Qed.

Lemma StronglySorted_lt_of_le l :
  NoDup l -> StronglySorted ord_le l -> StronglySorted ord_lt l.
Proof.
  induction 2 as [|x l Hs IH Hx]; constructor.
  - apply IH. by inv H1.
  - rewrite Forall_forall in *. intros y Hy. split; [by apply Hx|].
    inv H1. intros ->. done.
Qed.

Lemma btree_iter_sorted s : StronglySorted ord_lt (btree_iter s).
Proof.
  apply StronglySorted_lt_of_le; [apply NoDup_btree_iter|].
  apply (StronglySorted_merge_sort _ _).
Qed.

Lemma StronglySorted_lt_NoDup (l : list A) : StronglySorted ord_lt l -> NoDup l.
Proof.
  induction 1 as [|x l Hs IH Hx]; constructor; [|done].
  rewrite Forall_forall in Hx. intros Hin. by apply (Hx x Hin).
Qed.

Lemma StronglySorted_lt_le (l : list A) :
  StronglySorted ord_lt l -> StronglySorted ord_le l.
Proof.
  induction 1 as [|x l Hs IH Hx]; constructor; [done|].
  eapply Forall_impl; [done|]. by intros y [? _].
Qed.

(** A strictly ascending list is the listing of its own set. *)
Lemma btree_iter_list_to_set l :
  StronglySorted ord_lt l -> btree_iter (list_to_set l) = l.
Proof.
  intros Hs. apply (StronglySorted_unique ord_le).
  - apply (StronglySorted_merge_sort _ _).
  - by apply StronglySorted_lt_le.
  - rewrite btree_iter_Permutation. apply elements_list_to_set.
    by apply StronglySorted_lt_NoDup.
Qed.
End btree.

Lemma size_list_to_set_le {A} `{Countable A} (l : list A) :
  (size (list_to_set l : gset A) <= length l)%nat.
Proof.
  unfold size, set_size. simpl.
  apply submseteq_length, NoDup_submseteq; [apply NoDup_elements|].
  intros x. by rewrite elem_of_elements, elem_of_list_to_set.
Qed.

(** A boolean test that does not hold of a whole list fails somewhere. *)
Lemma not_all_ex_not_list {A} (f : A -> bool) (l : list A) :
  ~ (forall x, In x l -> f x = true) -> exists x, x ∈ l /\ f x <> true.
Proof.
  intros Hn. induction l as [|a l IH]; [by destruct Hn|].
  destruct (f a) eqn:Ha; [|exists a; split; [set_solver|by rewrite Ha]].
  destruct IH as (x & Hx & Hf); [|exists x; set_solver].
  intros Hall. apply Hn. intros x [<-|Hx]; auto.
Qed.

(** ** Sorting by a key: [sort_by_key], a stable sort. *)

Definition key_le {A B} `{RustOrd B} (f : A -> B) (x y : A) : Prop := f x ≼ f y.

#[export] Instance key_le_dec {A B} `{RustOrd B} (f : A -> B) : RelDecision (key_le f) :=
  fun x y => ord_le_dec (f x) (f y).

#[export] Instance key_le_trans {A B} `{RustOrd B} (f : A -> B) : Transitive (key_le f).
Proof. intros x y z. unfold key_le. apply ord_le_trans. Qed.

#[export] Instance key_le_total {A B} `{RustOrd B} (f : A -> B) : Total (key_le f).
Proof. intros x y. unfold key_le. apply ord_le_total. Qed.

Definition sort_by_key {A B} `{RustOrd B} (f : A -> B) (l : list A) : list A :=
  merge_sort (key_le f) l.

Lemma sort_by_key_Permutation {A B} `{RustOrd B} (f : A -> B) l :
  sort_by_key f l ≡ₚ l.
Proof. apply merge_sort_Permutation. Qed.

Lemma sort_by_key_sorted {A B} `{RustOrd B} (f : A -> B) l :
  StronglySorted (key_le f) (sort_by_key f l).
Proof. apply (StronglySorted_merge_sort _ _). Qed.

(** Sorting by a key that is injective on the list gives one result for all the
    orders the list can come in. *)
Lemma sort_by_key_unique {A B} `{RustOrd B} (f : A -> B) l l' :
  l ≡ₚ l' -> (forall x y, x ∈ l -> y ∈ l -> f x = f y -> x = y) ->
  sort_by_key f l = sort_by_key f l'.
Proof.
  intros Hp Hinj.
  assert (Hs : forall k k', StronglySorted (key_le f) k -> StronglySorted (key_le f) k' ->
            k ≡ₚ k' -> (forall x, x ∈ k -> x ∈ l) -> k = k').
  { intros k. induction k as [|x k IH]; intros k' Hk Hk' Hkk Hin.
    - by apply Permutation_nil in Hkk.
    - destruct k' as [|y k']; [by apply Permutation_sym, Permutation_nil in Hkk|].
      apply StronglySorted_inv in Hk as [Hk Hx], Hk' as [Hk' Hy].
      rewrite Forall_forall in Hx, Hy.
      assert (Hyk : y ∈ x :: k) by (rewrite Hkk; set_solver).
      assert (Hxk : x ∈ y :: k') by (rewrite <- Hkk; set_solver).
      assert (x = y) as <-.
      { apply Hinj; [apply Hin; set_solver|by apply Hin|].
        apply elem_of_cons in Hyk as [->|Hyk]; [done|].
        apply elem_of_cons in Hxk as [->|Hxk]; [done|].
        apply (anti_symm ord_le); [by apply Hx|by apply Hy]. }
      f_equal. apply IH; [done|done| |set_solver].
      by apply (Permutation_cons_inv (a:=x)). }
  apply Hs; [apply sort_by_key_sorted..| |].
  - by rewrite !sort_by_key_Permutation.
  - intros x. by rewrite sort_by_key_Permutation.
Qed.
