(* ===== verification/Codec.v ===== *)
(** * The canonical binary codec

    [sedimentree_core/src/codec/]: the error values ([error.rs]), the schema
    header ([schema.rs]), the primitive writers ([encode.rs]) and readers
    ([decode.rs]), and the traits that a payload implements, with the laws the
    signed envelope relies on ([CodecLaws]).

    The variable-length integer format is the third-party crate [bijoux]; it is
    the class [Bijou64] with its documented behaviour in [Bijou64Laws]. *)

From Stdlib Require Import Strings.Byte NArith Lia.
From stdpp Require Import base gmap sorting strings list.
From S2P Require Import Prelude.

Open Scope N_scope.

(** ** The [bijoux] crate *)

Class Bijou64 : Type := {
  bijou_error : Type;
  bijou_encode : N -> list byte;
  bijou_encoded_len : N -> N;
  bijou_decode : list byte -> result bijou_error (N * N)
}.

(** A bijective encoding: every 64-bit value has exactly one encoding, of 1 to 9
    bytes, which the decoder reads off the front of its input. *)
Class Bijou64Laws `{Bijou64} : Prop := {
  bijou_len v : v <= u64_max -> len (bijou_encode v) = bijou_encoded_len v;
  bijou_len_bounds v : v <= u64_max -> 1 <= bijou_encoded_len v <= 9;
  bijou_decode_encode v rest :
    v <= u64_max -> bijou_decode (bijou_encode v ++ rest) = Ok (v, bijou_encoded_len v);
  bijou_decode_canonical buf v n :
    bijou_decode buf = Ok (v, n) ->
    v <= u64_max /\ n = bijou_encoded_len v /\
    exists rest, buf = bijou_encode v ++ rest
}.

(** A fixed-width integer format has these laws; concrete examples use it. *)
Definition bijou_fixed8 : Bijou64 := {|
  bijou_error := unit;
  bijou_encode v := to_be_bytes 8 v;
  bijou_encoded_len _ := 8;
  bijou_decode buf :=
    if len buf <? 8 then Err tt else Ok (from_be_bytes (take 8 buf), 8)
|}.

Lemma bijou_fixed8_laws : @Bijou64Laws bijou_fixed8.
Proof.
  split; cbn [bijou_encode bijou_encoded_len bijou_decode bijou_fixed8].
  - intros v _. unfold len. by rewrite length_to_be_bytes.
  - intros v _. lia.
  - intros v rest Hv. rewrite (proj2 (N.ltb_ge _ _)).
    + rewrite take_app_length' by (by rewrite length_to_be_bytes).
      rewrite from_to_be_bytes; [done|]. unfold u64_max in Hv. simpl. lia.
    + rewrite len_app. unfold len. rewrite length_to_be_bytes. lia.
  - intros buf v n. destruct (N.ltb_spec (len buf) 8) as [|Hl]; [done|].
    intros [= <- <-].
    assert (Ht : length (take 8 buf) = 8%nat) by (rewrite length_take; unfold len in Hl; lia).
    split; [|split; [done|]].
    + pose proof (from_be_bytes_bound (take 8 buf)) as Hb.
      unfold len in Hb. rewrite Ht in Hb. unfold u64_max. simpl in Hb. lia.
    + exists (drop 8 buf). rewrite <- Ht at 1.
      by rewrite to_from_be_bytes, take_drop.
Qed.

(** ** Errors ([error.rs]) *)

Inductive ReadingType : Type :=
| RT_U8
| RT_U16
| RT_U32
| RT_U64
| RT_Array (size : N)
| RT_Slice (len : N).

Record BufferTooShort : Type := {
  bts_reading : ReadingType;
  bts_offset : N;
  bts_need : N;
  bts_have : N
}.

Record UnsortedArray : Type := { ua_index : N }.

Inductive DecodeError `{Bijou64} : Type :=
| E_BufferTooShort (e : BufferTooShort)
| E_MessageTooShort (type_name : string) (need have : N)
| E_InvalidSchema (expected got : array 4)
| E_UnsupportedVersion (v : byte)
| E_InvalidSignature
| E_InvalidVerifyingKey
| E_UnsortedArray (e : UnsortedArray)
| E_InvalidEnumTag (tag : byte) (type_name : string)
| E_InvalidDiscriminant (expected got : byte)
| E_SizeMismatch (declared actual : N)
| E_BlobTooLarge (size max : N)
| E_ArrayTooLarge (count max : N) (field : string)
| E_DuplicateElement (index : N) (field : string)
| E_Bijou64 (offset : N) (kind : bijou_error).

(** The [?] that lifts an underflow into a [DecodeError]. *)
Definition buf_err `{Bijou64} {A} (m : result BufferTooShort A) :
  result DecodeError A :=
  map_err E_BufferTooShort m.

(** ** Schema header ([schema.rs]) *)

Definition SEDIMENTREE_PREFIX : byte * byte := ("S"%byte, "T"%byte).
Definition SUBDUCTION_PREFIX : byte * byte := ("S"%byte, "U"%byte).

(** [type_name] stands for [core::any::type_name::<T>()]. *)
Class Schema (T : Type) : Type := {
  PREFIX : byte * byte;
  TYPE_BYTE : byte;
  VERSION : byte;
  DISCRIMINANT : option byte;
  type_name : string
}.

Definition SCHEMA (T : Type) `{Schema T} : array 4 :=
  Array (n:=4) [PREFIX.1; PREFIX.2; TYPE_BYTE; VERSION] I.

(** ** Writers ([encode.rs]) *)

Module encode.
Definition u8 (value : byte) (buf : list byte) : list byte := buf ++ [value].

Definition u16 (value : N) (buf : list byte) : list byte :=
  buf ++ to_be_bytes 2 value.

Definition u32 (value : N) (buf : list byte) : list byte :=
  buf ++ to_be_bytes 4 value.

Definition u64 (value : N) (buf : list byte) : list byte :=
  buf ++ to_be_bytes 8 value.

Definition bytes (value buf : list byte) : list byte := buf ++ value.

Definition array {n} (value : Prelude.array n) (buf : list byte) : list byte :=
  buf ++ arr_list value.
End encode.

(** ** Readers ([decode.rs]) *)

Module decode.
Definition too_short (reading : ReadingType) (buf : list byte) (offset need : N) :
  BufferTooShort :=
  {| bts_reading := reading; bts_offset := offset; bts_need := need;
     bts_have := len buf - offset |}.

Definition u8 (buf : list byte) (offset : N) : result BufferTooShort byte :=
  ok_or (if offset <? len buf then buf !! N.to_nat offset else None)
    (too_short RT_U8 buf offset 1).

Definition u16 (buf : list byte) (offset : N) : result BufferTooShort N :=
  let? bytes := ok_or (get_range buf offset (offset + 2))
                  (too_short RT_U16 buf offset 2) in
  Ok (from_be_bytes bytes).

Definition u32 (buf : list byte) (offset : N) : result BufferTooShort N :=
  let? bytes := ok_or (get_range buf offset (offset + 4))
                  (too_short RT_U32 buf offset 4) in
  Ok (from_be_bytes bytes).

Definition u64 (buf : list byte) (offset : N) : result BufferTooShort N :=
  let? bytes := ok_or (get_range buf offset (offset + 8))
                  (too_short RT_U64 buf offset 8) in
  Ok (from_be_bytes bytes).

Definition array (n : nat) (buf : list byte) (offset : N) :
  result BufferTooShort (Prelude.array n) :=
  ok_or (get_range buf offset (offset + N.of_nat n) ≫= array_of_list n)
    (too_short (RT_Array (N.of_nat n)) buf offset (N.of_nat n)).

(** [offset.checked_add(len)] first, then the range. *)
Definition slice (buf : list byte) (offset len : N) :
  result BufferTooShort (list byte) :=
  let err := too_short (RT_Slice len) buf offset len in
  let? end_ := ok_or (if offset + len <=? u64_max then Some (offset + len) else None)
                 err in
  ok_or (get_range buf offset end_) err.

(** The loop [for _ in 0..count { decode::array(buf, offset)?; offset += n }]
    of the payload decoders: the arrays read, and the offset after them. *)
Fixpoint arrays (n : nat) (count : nat) (buf : list byte) (offset : N) :
  result BufferTooShort (list (Prelude.array n) * N) :=
  match count with
  | O => Ok ([], offset)
  | S count' =>
      let? a := array n buf offset in
      let? (l, end_) := arrays n count' buf (offset + N.of_nat n) in
      Ok (a :: l, end_)
  end.

(** [elements.windows(2)] *)
Definition windows2 {A} (l : list A) : list (A * A) := zip l (tail l).

Fixpoint verify_windows {n} (i : N) (ws : list (Prelude.array n * Prelude.array n)) :
  result UnsortedArray unit :=
  match ws with
  | [] => Ok tt
  | (prev, curr) :: ws' =>
      if ord_ltb prev curr then verify_windows (i + 1) ws'
      else Err {| ua_index := i + 1 |}
  end.

Definition verify_sorted {n} (elements : list (Prelude.array n)) :
  result UnsortedArray unit :=
  verify_windows 0 (windows2 elements).
End decode.

(** Reading a [bijoux] integer at an offset, with the error it is mapped to:
    [bijoux::u64::decode(buf.get(offset..).unwrap_or_default())]. *)
Definition decode_bijou `{Bijou64} (buf : list byte) (offset : N) :
  result DecodeError (N * N) :=
  map_err (E_Bijou64 offset) (bijou_decode (default [] (get_from buf offset))).

(** ** The codec traits *)

Class EncodeFields (T : Type) : Type := {
  encode_fields : T -> list byte -> list byte;
  fields_size : T -> N
}.

Class DecodeFields (T : Type) `{Bijou64} : Type := {
  MIN_SIGNED_SIZE : N;
  try_decode_fields : list byte -> result DecodeError (T * N)
}.

(** [EncodeFields::signed_size] *)
Definition signed_size {T} `{Schema T, EncodeFields T} (x : T) : N :=
  4 + (if DISCRIMINANT then 1 else 0) + 32 + fields_size x + 64.

(** [impl Encode for T: Schema + EncodeFields] *)
Definition encode {T} `{Schema T, EncodeFields T} (x : T) : list byte :=
  encode_fields x (encode.bytes (arr_list (SCHEMA T)) []).

Definition encoded_size {T} `{EncodeFields T} (x : T) : N := 4 + fields_size x.

(** What the signed envelope needs of a payload. [encodable] holds of the values
    whose element counts fit the width of their count fields. *)
Class CodecLaws (T : Type) `{Bijou64, EncodeFields T, !DecodeFields T}
    (encodable : T -> Prop) : Prop := {
  encode_fields_append x buf : encode_fields x buf = buf ++ encode_fields x [];
  encode_fields_len x : encodable x -> len (encode_fields x []) = fields_size x;
  decode_encode_fields x rest :
    encodable x ->
    try_decode_fields (encode_fields x [] ++ rest) = Ok (x, fields_size x);
  decode_fields_canonical buf x n :
    try_decode_fields buf = Ok (x, n) ->
    encodable x /\ n = fields_size x /\
    exists rest, buf = encode_fields x [] ++ rest
}.

(** ** Reading back what was written

    Forward lemmas: at an offset where an encoding starts, the reader returns the
    value. Backward lemmas ([_inv]): a successful read determines the bytes. *)

Lemma suffix_at_fun {A} (buf x y : list A) off :
  suffix_at buf off x -> suffix_at buf off y -> x = y.
Proof. by intros [_ <-] [_ <-]. Qed.

Lemma decode_u8_at buf off b rest :
  suffix_at buf off ([b] ++ rest) -> decode.u8 buf off = Ok b.
Proof.
  intros Hs. pose proof (suffix_at_len _ _ _ Hs) as Hl.
  rewrite len_app, len_cons in Hl. destruct Hs as [_ Hd].
  unfold decode.u8. rewrite (proj2 (N.ltb_lt _ _)) by lia.
  by rewrite <- (Nat.add_0_r (N.to_nat off)), <- lookup_drop, Hd.
Qed.

Lemma decode_u8_inv buf off b s :
  suffix_at buf off s -> decode.u8 buf off = Ok b ->
  exists rest, s = [b] ++ rest /\ suffix_at buf (off + 1) rest.
Proof.
  unfold decode.u8. intros Hs H. inv_ok.
  destruct (off <? len buf); [|done].
  assert (Hb : s !! 0%nat = Some b).
  { destruct Hs as [_ <-]. by rewrite lookup_drop, Nat.add_0_r. }
  destruct s as [|b' s]; simplify_eq/=. exists s. split; [done|].
  by apply (suffix_at_app buf [b] s off 1).
Qed.

Lemma get_range_inv (buf x s : list byte) off n :
  suffix_at buf off s -> get_range buf off (off + n) = Some x ->
  len x = n /\ exists rest, s = x ++ rest /\ suffix_at buf (off + n) rest.
Proof.
  intros Hs (_ & _ & Hx & rest & Hr)%get_range_Some.
  replace (off + n - off) with n in Hx by lia. split; [done|].
  exists rest. split; [by eapply suffix_at_fun|]. by eapply suffix_at_app.
Qed.

Lemma be_bytes_of_list (k : nat) (x : list byte) :
  len x = N.of_nat k ->
  from_be_bytes x < 256 ^ N.of_nat k /\ x = to_be_bytes k (from_be_bytes x).
Proof.
  intros Hx. split; [rewrite <- Hx; apply from_be_bytes_bound|].
  replace k with (length x) by (unfold len in Hx; lia).
  by rewrite to_from_be_bytes.
Qed.

Lemma len_to_be_bytes k v : len (to_be_bytes k v) = N.of_nat k.
Proof. unfold len. by rewrite length_to_be_bytes. Qed.

Lemma decode_u16_at buf off v rest :
  suffix_at buf off (to_be_bytes 2 v ++ rest) -> v <= u16_max ->
  decode.u16 buf off = Ok v.
Proof.
  intros Hs Hv. unfold decode.u16.
  erewrite (get_range_suffix _ _ _ _ 2) by (done || apply len_to_be_bytes).
  cbn [ok_or rbind]. rewrite from_to_be_bytes; [done|]. unfold u16_max in Hv. lia.
Qed.

Lemma decode_u32_at buf off v rest :
  suffix_at buf off (to_be_bytes 4 v ++ rest) -> v <= u32_max ->
  decode.u32 buf off = Ok v.
Proof.
  intros Hs Hv. unfold decode.u32.
  erewrite (get_range_suffix _ _ _ _ 4) by (done || apply len_to_be_bytes).
  cbn [ok_or rbind]. rewrite from_to_be_bytes; [done|]. unfold u32_max in Hv. lia.
Qed.

Lemma decode_u64_at buf off v rest :
  suffix_at buf off (to_be_bytes 8 v ++ rest) -> v <= u64_max ->
  decode.u64 buf off = Ok v.
Proof.
  intros Hs Hv. unfold decode.u64.
  erewrite (get_range_suffix _ _ _ _ 8) by (done || apply len_to_be_bytes).
  cbn [ok_or rbind]. rewrite from_to_be_bytes; [done|]. unfold u64_max in Hv. lia.
Qed.

Lemma decode_u16_inv buf off v s :
  suffix_at buf off s -> decode.u16 buf off = Ok v ->
  v <= u16_max /\
  exists rest, s = to_be_bytes 2 v ++ rest /\ suffix_at buf (off + 2) rest.
Proof.
  unfold decode.u16. intros Hs H. inv_ok. subst.
  destruct (get_range_inv _ _ _ _ _ Hs H0) as (Hx & rest & -> & Hr).
  destruct (be_bytes_of_list 2 _ Hx) as [Hb Heq].
  split; [unfold u16_max; lia|]. exists rest. by rewrite <- Heq.
Qed.

Lemma decode_u32_inv buf off v s :
  suffix_at buf off s -> decode.u32 buf off = Ok v ->
  v <= u32_max /\
  exists rest, s = to_be_bytes 4 v ++ rest /\ suffix_at buf (off + 4) rest.
Proof.
  unfold decode.u32. intros Hs H. inv_ok. subst.
  destruct (get_range_inv _ _ _ _ _ Hs H0) as (Hx & rest & -> & Hr).
  destruct (be_bytes_of_list 4 _ Hx) as [Hb Heq].
  split; [unfold u32_max; lia|]. exists rest. by rewrite <- Heq.
Qed.

Lemma decode_u64_inv buf off v s :
  suffix_at buf off s -> decode.u64 buf off = Ok v ->
  v <= u64_max /\
  exists rest, s = to_be_bytes 8 v ++ rest /\ suffix_at buf (off + 8) rest.
Proof.
  unfold decode.u64. intros Hs H. inv_ok. subst.
  destruct (get_range_inv _ _ _ _ _ Hs H0) as (Hx & rest & -> & Hr).
  destruct (be_bytes_of_list 8 _ Hx) as [Hb Heq].
  split; [unfold u64_max; lia|]. exists rest. by rewrite <- Heq.
Qed.

Lemma decode_array_at n buf off (a : array n) rest :
  suffix_at buf off (arr_list a ++ rest) -> decode.array n buf off = Ok a.
Proof.
  intros Hs. unfold decode.array.
  rewrite (get_range_suffix _ _ _ _ _ Hs (len_array a)). cbn.
  by rewrite array_of_list_eq.
Qed.

Lemma decode_array_inv n buf off (a : array n) s :
  suffix_at buf off s -> decode.array n buf off = Ok a ->
  exists rest, s = arr_list a ++ rest /\ suffix_at buf (off + N.of_nat n) rest.
Proof.
  unfold decode.array. intros Hs H. inv_ok.
  apply bind_Some in H as (x & Hx & Ha%array_of_list_Some). subst x.
  by apply get_range_inv with (s := s) in Hx as [_ ?].
Qed.

Lemma decode_slice_at buf off x rest :
  suffix_at buf off (x ++ rest) -> len buf <= u64_max ->
  decode.slice buf off (len x) = Ok x.
Proof.
  intros Hs Hb. unfold decode.slice.
  pose proof (suffix_at_len _ _ _ Hs) as Hl. rewrite len_app in Hl.
  rewrite (proj2 (N.leb_le _ _)) by lia. cbn [ok_or rbind].
  by rewrite (get_range_suffix _ _ _ _ _ Hs eq_refl).
Qed.

(** The concatenation that writing a list of arrays one by one leaves. *)
Definition arrays_bytes {n} (l : list (array n)) : list byte := concat (arr_list <$> l).

Lemma arrays_bytes_cons {n} (a : array n) l :
  arrays_bytes (a :: l) = arr_list a ++ arrays_bytes l.
Proof. done. Qed.

Lemma len_arrays_bytes {n} (l : list (array n)) :
  len (arrays_bytes l) = len l * N.of_nat n.
Proof.
  induction l as [|a l IH]; [done|].
  rewrite arrays_bytes_cons, len_app, len_cons, len_array, IH. lia.
Qed.

Lemma foldl_encode_array {n} (l : list (array n)) buf :
  foldl (fun buf a => encode.array a buf) buf l = buf ++ arrays_bytes l.
Proof.
  revert buf. induction l as [|a l IH]; intros buf; simpl.
  - by rewrite app_nil_r.
  - rewrite IH, arrays_bytes_cons. unfold encode.array. by rewrite app_assoc.
Qed.

Lemma decode_arrays_at n buf off (l : list (array n)) rest :
  suffix_at buf off (arrays_bytes l ++ rest) ->
  decode.arrays n (length l) buf off = Ok (l, off + len l * N.of_nat n).
Proof.
  revert off. induction l as [|a l IH]; intros off Hs; simpl.
  - do 2 f_equal. unfold len. simpl. lia.
  - rewrite arrays_bytes_cons, <- app_assoc in Hs.
    rewrite (decode_array_at _ _ _ _ _ Hs). cbn [rbind].
    rewrite (IH (off + N.of_nat n)) by (by eapply suffix_at_app, len_array).
    cbn [rbind]. rewrite len_cons. do 2 f_equal. lia.
Qed.

Lemma decode_arrays_inv n count buf off (l : list (array n)) e s :
  suffix_at buf off s -> decode.arrays n count buf off = Ok (l, e) ->
  length l = count /\ e = off + len l * N.of_nat n /\
  exists rest, s = arrays_bytes l ++ rest /\ suffix_at buf e rest.
Proof.
  revert off l s. induction count as [|count IH]; intros off l s Hs H; simpl in H.
  - injection H as <- <-. split; [done|]. split; [unfold len; simpl; lia|]. by exists s.
  - apply rbind_ok in H as (a & Ha & H). apply rbind_ok in H as ([l' e'] & Hl & H).
    injection H as <- <-.
    destruct (decode_array_inv _ _ _ _ _ Hs Ha) as (r & -> & Hr).
    destruct (IH _ _ _ Hr Hl) as (Hc & -> & rest & -> & Hrest).
    split; [simpl; lia|]. split; [rewrite len_cons; lia|].
    exists rest. split; [|done]. by rewrite arrays_bytes_cons, app_assoc.
Qed.

Lemma decode_bijou_at `{Bijou64Laws} buf off v rest :
  suffix_at buf off (bijou_encode v ++ rest) -> v <= u64_max ->
  decode_bijou buf off = Ok (v, bijou_encoded_len v).
Proof.
  intros Hs Hv. unfold decode_bijou.
  rewrite (get_from_suffix _ _ _ Hs). simpl. by rewrite bijou_decode_encode.
Qed.

Lemma decode_bijou_inv `{Bijou64Laws} buf off v n s :
  suffix_at buf off s -> decode_bijou buf off = Ok (v, n) ->
  v <= u64_max /\ n = bijou_encoded_len v /\
  exists rest, s = bijou_encode v ++ rest /\ suffix_at buf (off + n) rest.
Proof.
  unfold decode_bijou. intros Hs Hd. inv_ok.
  rewrite (get_from_suffix _ _ _ Hs) in Hd. simpl in Hd.
  apply bijou_decode_canonical in Hd as (Hv & -> & rest & ->).
  split; [done|]. split; [done|]. exists rest. split; [done|].
  eapply suffix_at_app; [done|]. by apply bijou_len.
Qed.

(** One step of a canonicity proof: a read that succeeded at the current offset
    splits the remaining bytes. *)
Ltac canon_step :=
  match goal with
  | Hs : suffix_at ?buf ?off _, H : decode.array _ ?buf ?off = Ok _ |- _ =>
      destruct (decode_array_inv _ _ _ _ _ Hs H) as (? & -> & ?); clear Hs H
  | Hs : suffix_at ?buf ?off _, H : decode.u8 ?buf ?off = Ok _ |- _ =>
      destruct (decode_u8_inv _ _ _ _ Hs H) as (? & -> & ?); clear Hs H
  | Hs : suffix_at ?buf ?off _, H : decode.u16 ?buf ?off = Ok _ |- _ =>
      destruct (decode_u16_inv _ _ _ _ Hs H) as (? & ? & -> & ?); clear Hs H
  | Hs : suffix_at ?buf ?off _, H : decode.u32 ?buf ?off = Ok _ |- _ =>
      destruct (decode_u32_inv _ _ _ _ Hs H) as (? & ? & -> & ?); clear Hs H
  | Hs : suffix_at ?buf ?off _, H : decode.u64 ?buf ?off = Ok _ |- _ =>
      destruct (decode_u64_inv _ _ _ _ Hs H) as (? & ? & -> & ?); clear Hs H
  | Hs : suffix_at ?buf ?off _, H : decode.arrays _ _ ?buf ?off = Ok (_, _) |- _ =>
      destruct (decode_arrays_inv _ _ _ _ _ _ _ Hs H) as (? & -> & ? & -> & ?);
      clear Hs H
  | Hs : suffix_at ?buf ?off _, H : decode_bijou ?buf ?off = Ok (_, _) |- _ =>
      destruct (decode_bijou_inv _ _ _ _ _ Hs H) as (? & -> & ? & -> & ?);
      clear Hs H
  end.

(** Moves [suffix_at] past the encoding it starts with. *)
Ltac suffix_step H n :=
  eapply (suffix_at_app _ _ _ _ n) in H;
  [|first [ rewrite len_array; reflexivity | rewrite len_to_be_bytes; reflexivity
          | reflexivity
          | by apply bijou_len | apply len_arrays_bytes ]].

(** ** Sortedness check *)

Lemma windows2_cons {A} (x y : A) l :
  decode.windows2 (x :: y :: l) = (x, y) :: decode.windows2 (y :: l).
Proof. done. Qed.

Lemma Sorted_lt_cons {A} `{RustOrd A} (x y : A) l :
  StronglySorted ord_lt (x :: y :: l) <-> x ≺ y /\ StronglySorted ord_lt (y :: l).
Proof.
  split.
  - intros [Hs Hf]%StronglySorted_inv. split; [|done]. by inv Hf.
  - intros [Hxy Hs]. constructor; [done|]. constructor; [done|].
    apply StronglySorted_inv in Hs as [_ Hf].
    eapply Forall_impl; [done|]. intros z Hz. by trans y.
Qed.

(** What [verify_windows], started at index [i], says of a list. *)
Lemma verify_windows_spec {n} (l : list (array n)) i :
  match decode.verify_windows i (decode.windows2 l) with
  | Ok _ => StronglySorted ord_lt l
  | Err e =>
      exists k x y, ua_index e = i + N.of_nat (S k) /\
        StronglySorted ord_lt (take (S k) l) /\
        l !! k = Some x /\ l !! S k = Some y /\ y ≼ x
  end.
Proof.
  revert i. induction l as [|x [|y l] IH]; intros i.
  - constructor.
  - repeat constructor.
  - rewrite windows2_cons. simpl. unfold ord_ltb. case_bool_decide as Hlt.
    + specialize (IH (i + 1)).
      destruct (decode.verify_windows (i + 1) _) as [|e].
      * by apply Sorted_lt_cons.
      * destruct IH as (k & a & b & He & Hs & Ha & Hb & Hle).
        exists (S k), a, b. split; [lia|]. split; [|done].
        simpl in *. by apply Sorted_lt_cons.
    + exists 0%nat, x, y. split; [simpl; lia|]. simpl.
      split; [repeat constructor|]. split; [done|]. split; [done|].
      by apply ord_not_lt.
Qed.

(** [decode::verify_sorted] accepts exactly the strictly ascending lists (so
    duplicates are refused too), and otherwise reports the first index whose
    element is not above its predecessor. *)
Theorem verify_sorted_spec {n} (l : list (array n)) :
  match decode.verify_sorted l with
  | Ok _ => StronglySorted ord_lt l
  | Err e =>
      exists k x y, ua_index e = N.of_nat (S k) /\
        StronglySorted ord_lt (take (S k) l) /\
        l !! k = Some x /\ l !! S k = Some y /\ y ≼ x
  end.
Proof. exact (verify_windows_spec l 0). Qed.

Lemma verify_sorted_Ok {n} (l : list (array n)) u :
  decode.verify_sorted l = Ok u <-> StronglySorted ord_lt l.
Proof.
  pose proof (verify_windows_spec l 0) as Hv. unfold decode.verify_sorted.
  destruct (decode.verify_windows 0 _) as [[]|e]; destruct u; [done|].
  split; [done|]. intros Hs. exfalso.
  destruct Hv as (k & x & y & _ & _ & Hx & Hy & Hle).
  assert (Hxy : x ≺ y); [|by apply ord_not_lt in Hle].
  revert k Hx Hy. induction Hs as [|a l Hs IH Hf]; intros k Hx Hy; [done|].
  destruct k as [|k]; simpl in *; [|by eauto].
  simplify_eq. rewrite Forall_forall in Hf. apply Hf.
  by eapply list_elem_of_lookup_2.
Qed.

(** A list that passes the check is the listing of the set it is collected in. *)
Lemma verify_sorted_set {n} (l : list (array n)) u :
  decode.verify_sorted l = Ok u ->
  size (list_to_set l : gset (array n)) = length l /\
  btree_iter (list_to_set l : gset (array n)) = l.
Proof.
  intros Hs%verify_sorted_Ok. split.
  - by apply size_list_to_set, StronglySorted_lt_NoDup.
  - by apply btree_iter_list_to_set.
Qed.
