(* ===== verification/Types.v ===== *)
(** * Identifiers, digests, blobs and depths

    [sedimentree_core/src/]: [id.rs], [hex.rs], [loose_commit/id.rs],
    [fragment/checkpoint.rs], [crypto/digest.rs], [crypto/fingerprint.rs],
    [blob.rs], [blob/verified.rs] and [depth.rs].

    The hash functions (BLAKE3, SipHash-2-4) and the big-integer library are
    third-party crates: they are the classes [Blake3], [SipHash24] and
    [BigIntRadix]. *)

From Stdlib Require Import Strings.Byte NArith Lia.
From stdpp Require Import base gmap sorting strings list.
From S2P Require Import Prelude.
From S2P Require Import Codec.

Open Scope N_scope.

(** ** Identifiers *)

Notation SedimentreeId := (array 32) (only parsing).
Notation CommitId := (array 32) (only parsing).
Notation Checkpoint := (array 12) (only parsing).

(** [Checkpoint::new]: the first twelve bytes of the commit's identifier. *)
Program Definition Checkpoint_new (id : CommitId) : Checkpoint :=
  array_mk (take 12 (arr_list id)) _.
Next Obligation.
  intros id. apply bool_decide_pack. rewrite length_take, length_array. done.
Qed.

(** ** Digests *)

(** [blake3::hash] *)
Class Blake3 : Type := blake3_hash : list byte -> array 32.

(** [Digest<T>]: 32 bytes, tagged with the type that was hashed. *)
Notation Digest T := (array 32) (only parsing).

Definition hash_raw `{Blake3} (data : list byte) : array 32 := blake3_hash data.

(** [Digest::<T>::hash] for a payload type. *)
Definition Digest_hash {T} `{Blake3, Schema T, EncodeFields T} (value : T) : Digest T :=
  hash_raw (encode value).

(** ** Blobs *)

Notation Blob := (list byte) (only parsing).

Record BlobMeta : Type := {
  bm_digest : Digest Blob;
  bm_size_bytes : N
}.

#[export] Instance BlobMeta_eq_dec : EqDecision BlobMeta.
Proof. solve_decision. Defined.

(** [BlobMeta::new]; a blob encodes as its own contents. *)
Definition BlobMeta_new `{Blake3} (blob : Blob) : BlobMeta :=
  {| bm_digest := hash_raw blob; bm_size_bytes := as_u64 (len blob) |}.

Definition from_digest_size (digest : Digest Blob) (size_bytes : N) : BlobMeta :=
  {| bm_digest := digest; bm_size_bytes := size_bytes |}.

Record VerifiedBlobMeta : Type := {
  vbm_meta : BlobMeta;
  vbm_blob : Blob
}.

Definition VerifiedBlobMeta_new `{Blake3} (blob : Blob) : VerifiedBlobMeta :=
  {| vbm_meta := BlobMeta_new blob; vbm_blob := blob |}.

(** ** Fingerprints *)

Record FingerprintSeed : Type := {
  key0 : N;
  key1 : N
}.

(** [SipHasher24::new_with_keys(k0, k1)], one [write], [finish]. *)
Class SipHash24 : Type := siphash24 : N -> N -> list byte -> N.

(** [Fingerprint<CommitId>]: a [u64]. *)
Notation Fingerprint := N (only parsing).

Definition Fingerprint_new `{SipHash24} (seed : FingerprintSeed) (id : CommitId) :
  Fingerprint :=
  siphash24 (key0 seed) (key1 seed) (arr_list id).

(** ** Depths *)

(** [Depth(u32)] *)
Notation Depth := N (only parsing).

Definition is_boundary (d : Depth) : bool := 0 <? d.

(** The trait [DepthMetric] has the one method [to_depth]. *)
Definition DepthMetric : Type := CommitId -> Depth.

Fixpoint leading_zeros (l : list byte) (acc : N) : N :=
  match l with
  | [] => acc
  | b :: l' => if bool_decide (b = x00) then leading_zeros l' (acc + 1) else acc
  end.

Definition CountLeadingZeroBytes : DepthMetric :=
  fun id => leading_zeros (arr_list id) 0.

(** [BigInt::from_bytes_be(Plus, arr).to_radix_be(base)], the digits only. The
    library panics for a base outside [2..=256]. *)
Class BigIntRadix : Type := to_radix_be : list byte -> N -> list N.

(** [bytes.into_iter().rev().take_while(|&i| i == 0).count()] *)
Fixpoint take_zeros (l : list N) : N :=
  match l with
  | [] => 0
  | d :: l' => if d =? 0 then 1 + take_zeros l' else 0
  end.

(** [CountTrailingZerosInBase(base)]; [None] where the library call panics. *)
Definition CountTrailingZerosInBase `{BigIntRadix} (base : N) (id : CommitId) :
  option Depth :=
  if (2 <=? base) && (base <=? 256)
  then Some (take_zeros (rev (to_radix_be (arr_list id) base)))
  else None.

(** ** Hexadecimal ([hex.rs] and the [Display]/[FromStr] impls) *)

Definition decode_hex_nibble (b : byte) : option N :=
  let n := Byte.to_N b in
  if (48 <=? n) && (n <=? 57) then Some (n - 48)
  else if (97 <=? n) && (n <=? 102) then Some (n - 97 + 10)
  else if (65 <=? n) && (n <=? 70) then Some (n - 65 + 10)
  else None.

Fixpoint decode_hex_chunks (l : list byte) : option (list byte) :=
  match l with
  | h :: l0 :: l' =>
      hi ← decode_hex_nibble h;
      lo ← decode_hex_nibble l0;
      rest ← decode_hex_chunks l';
      Some (byte_of_N (N.lor (N.shiftl hi 4) lo) :: rest)
  | _ => Some []
  end.

Definition decode_hex (s : list byte) : option (list byte) :=
  if (len s =? 0) || negb (len s mod 2 =? 0) then None else decode_hex_chunks s.

(** The digit of [{:x}]. *)
Definition hex_digit (n : N) : byte :=
  byte_of_N (if n <? 10 then 48 + n else 87 + n).

(** [write!(f, "{byte:02x}")] *)
Definition write_hex (b : byte) : list byte :=
  [hex_digit (Byte.to_N b / 16); hex_digit (Byte.to_N b mod 16)].

(** [Display] of [SedimentreeId] and of [Digest<T>]. *)
Definition display_hex {n} (a : array n) : list byte := arr_list a ≫= write_hex.

Inductive InvalidDigest : Type := InvalidHex | WrongLength.

(** [Digest::from_str] *)
Definition Digest_from_str (s : list byte) : result InvalidDigest (Digest T) :=
  let? bytes := ok_or (decode_hex s) InvalidHex in
  ok_or (array_of_list 32 bytes) WrongLength.

Inductive BadSedimentreeId : Type :=
| BS_LengthNotEven (s : list byte)
| BS_InvalidHex (s : list byte)
| BS_InvalidLength (s : list byte).

(** [u8::from_str_radix(s, 16)] on a two-byte [str]: a leading [+] is skipped. *)
Definition u8_from_str_radix16 (a b : byte) : option byte :=
  if bool_decide (a = "+"%byte) then lo ← decode_hex_nibble b; Some (byte_of_N lo)
  else hi ← decode_hex_nibble a; lo ← decode_hex_nibble b;
       Some (byte_of_N (hi * 16 + lo)).

(** [str::is_char_boundary] at the start of the remaining bytes [l]: the end of
    the string, or a byte that does not continue a character. *)
Definition at_char_boundary (l : list byte) : bool :=
  match l with
  | [] => true
  | b :: _ => (Byte.to_N b <? 128) || (192 <=? Byte.to_N b)
  end.

(** The [map(..).collect::<Result<Vec<u8>, _>>()] of [SedimentreeId::from_str]:
    left to right, stopping at the first error. [None]: the slice [&s[i..i + 2]]
    panics because a bound is inside a character. *)
Fixpoint parse_hex_pairs (s l : list byte) :
  option (result BadSedimentreeId (list byte)) :=
  match l with
  | a :: b :: l' =>
      if at_char_boundary l && at_char_boundary l' then
        match u8_from_str_radix16 a b with
        | None => Some (Err (BS_InvalidHex s))
        | Some v =>
            r ← parse_hex_pairs s l'; Some (let? rest := r in Ok (v :: rest))
        end
      else None
  | _ => Some (Ok [])
  end.

(** [SedimentreeId::from_str]; the outer [None] is a panic. *)
Definition SedimentreeId_from_str (s : list byte) :
  option (result BadSedimentreeId SedimentreeId) :=
  if negb (len s mod 2 =? 0) then Some (Err (BS_LengthNotEven s))
  else
    r ← parse_hex_pairs s s;
    Some (let? bytes := r in ok_or (array_of_list 32 bytes) (BS_InvalidLength s)).

(** ** Hexadecimal round trips *)

Lemma decode_write_hex b l :
  decode_hex_chunks (write_hex b ++ l) = (rest ← decode_hex_chunks l; Some (b :: rest)).
Proof.
  assert (Hn : decode_hex_nibble (hex_digit (Byte.to_N b / 16)) = Some (Byte.to_N b / 16)
            /\ decode_hex_nibble (hex_digit (Byte.to_N b mod 16)) = Some (Byte.to_N b mod 16)
            /\ byte_of_N (N.lor (N.shiftl (Byte.to_N b / 16) 4) (Byte.to_N b mod 16)) = b)
    by (destruct b; vm_compute; done).
  destruct Hn as (H1 & H2 & H3). unfold write_hex. cbn [app decode_hex_chunks].
  rewrite H1, H2. cbn [mbind option_bind]. by rewrite H3.
Qed.

Lemma radix_write_hex b :
  exists h l, write_hex b = [h; l] /\ u8_from_str_radix16 h l = Some b
    /\ Byte.to_N h < 128.
Proof. do 2 eexists. split; [reflexivity|]. destruct b; vm_compute; done. Qed.

Lemma decode_hex_chunks_display l : decode_hex_chunks (l ≫= write_hex) = Some l.
Proof.
  induction l as [|b l IH]; [done|].
  cbn [mbind list_bind]. by rewrite decode_write_hex, IH.
Qed.

Lemma boundary_display l : at_char_boundary (l ≫= write_hex) = true.
Proof.
  destruct l as [|b l]; [done|]. cbn [mbind list_bind].
  destruct (radix_write_hex b) as (h & k & -> & _ & Hh). simpl.
  by rewrite (proj2 (N.ltb_lt _ _)).
Qed.

Lemma parse_hex_pairs_display s l :
  parse_hex_pairs s (l ≫= write_hex) = Some (Ok l).
Proof.
  induction l as [|b l IH]; [done|].
  pose proof (boundary_display (b :: l)) as Hb. cbn [mbind list_bind] in Hb |- *.
  destruct (radix_write_hex b) as (h & k & E & Hr & Hh). rewrite E in *.
  cbn [app parse_hex_pairs] in *.
  rewrite Hb, boundary_display, Hr. simpl. by rewrite IH.
Qed.

Lemma len_display_hex {n} (a : array n) : len (display_hex a) = 2 * N.of_nat n.
Proof.
  unfold display_hex. rewrite <- (len_array a). generalize (arr_list a).
  intros l. induction l as [|b l IH]; [done|].
  cbn [mbind list_bind]. rewrite len_app, IH, len_cons.
  change (len (write_hex b)) with 2. lia.
Qed.

(** Printing a [SedimentreeId] or a [Digest] in hexadecimal and parsing the
    text with [FromStr] gives the identifier back, without a panic. *)
Theorem hex_roundtrip (id : array 32) :
  SedimentreeId_from_str (display_hex id) = Some (Ok id) /\
  Digest_from_str (display_hex id) = Ok id.
Proof.
  pose proof (len_display_hex id) as Hl. change (2 * N.of_nat 32) with 64 in Hl. split.
  - unfold SedimentreeId_from_str. rewrite Hl.
    change (negb (64 mod 2 =? 0)) with false. cbv iota.
    rewrite (parse_hex_pairs_display _ (arr_list id)). cbn.
    by rewrite array_of_list_eq.
  - unfold Digest_from_str, decode_hex. rewrite Hl.
    change ((64 =? 0) || negb (64 mod 2 =? 0)) with false. cbv iota.
    unfold display_hex. rewrite decode_hex_chunks_display. cbn.
    by rewrite array_of_list_eq.
Qed.

(** ** Depth metrics *)

Lemma leading_zeros_spec l acc :
  exists k, leading_zeros l acc = acc + N.of_nat k /\ (k <= length l)%nat /\
    take k l = replicate k x00 /\
    (forall b, l !! k = Some b -> b <> x00).
Proof.
  revert acc. induction l as [|b l IH]; intros acc; simpl.
  - exists 0%nat. split; [lia|]. done.
  - case_bool_decide as Hb.
    + destruct (IH (acc + 1)) as (k & -> & Hk & Ht & Hn).
      exists (S k). split; [lia|]. split; [lia|]. simpl. by rewrite Ht, Hb.
    + exists 0%nat. split; [lia|]. split; [lia|]. split; [done|]. by intros ? [= <-].
Qed.

(** [CountLeadingZeroBytes] is the length of the longest all-zero prefix of
    the identifier: at most 32, and the byte after the prefix is not zero. *)
Theorem CountLeadingZeroBytes_spec (id : CommitId) :
  exists k, CountLeadingZeroBytes id = N.of_nat k /\ (k <= 32)%nat /\
    take k (arr_list id) = replicate k x00 /\
    (forall b, arr_list id !! k = Some b -> b <> x00).
Proof.
  destruct (leading_zeros_spec (arr_list id) 0) as (k & Hk & Hle & ?).
  rewrite length_array in Hle. by exists k.
Qed.

(** The documented behaviour of [to_radix_be]: the digits of the number in the
    given base, most significant first, without leading zeros ([0] alone for 0). *)
Class BigIntRadixLaws `{BigIntRadix} : Prop := {
  radix_value bytes base : 2 <= base <= 256 ->
    foldl (fun acc d => acc * base + d) 0 (to_radix_be bytes base) = from_be_bytes bytes;
  radix_digit bytes base d : 2 <= base <= 256 ->
    d ∈ to_radix_be bytes base -> d < base
}.

Lemma take_zeros_spec l :
  exists k r, take_zeros l = N.of_nat k /\ l = replicate k 0 ++ r /\
    (forall d r', r = d :: r' -> d <> 0).
Proof.
  induction l as [|d l (k & r & Hk & Hl & Hr)]; simpl.
  - by exists 0%nat, [].
  - destruct (N.eqb_spec d 0) as [->|Hd].
    + exists (S k), r. split; [lia|]. split; [|done]. simpl. by rewrite <- Hl.
    + exists 0%nat, (d :: l). split; [done|]. split; [done|]. by intros ?? [= <- <-].
Qed.

Lemma radix_snoc_zeros base l k :
  foldl (fun acc d => acc * base + d) 0 (l ++ replicate k 0) =
  foldl (fun acc d => acc * base + d) 0 l * base ^ N.of_nat k.
Proof.
  rewrite foldl_app. generalize (foldl (fun acc d => acc * base + d) 0 l).
  induction k as [|k IH]; intros v; [simpl; lia|].
  cbn [replicate foldl]. rewrite IH, Nat2N.inj_succ, N.pow_succ_r'. lia.
Qed.

(** [CountTrailingZerosInBase] gives the exponent of the base in the
    identifier read as a big-endian number: the base to that power divides a
    non-zero identifier, the next power does not. *)
Theorem CountTrailingZerosInBase_spec `{BigIntRadixLaws} base (id : CommitId) d :
  CountTrailingZerosInBase base id = Some d -> from_be_bytes (arr_list id) <> 0 ->
  (base ^ d | from_be_bytes (arr_list id)) /\
  ~ (base ^ (d + 1) | from_be_bytes (arr_list id)).
Proof.
  unfold CountTrailingZerosInBase. intros Hd Hnz.
  destruct ((2 <=? base) && (base <=? 256)) eqn:Hb; [|done].
  apply andb_prop in Hb as [Hlo%N.leb_le Hhi%N.leb_le]. simplify_eq.
  pose proof (radix_value (arr_list id) base (conj Hlo Hhi)) as Hv.
  pose proof (radix_digit (arr_list id) base) as Hdig.
  destruct (take_zeros_spec (rev (to_radix_be (arr_list id) base)))
    as (k & r & -> & Hr & Hhd).
  apply (f_equal (@rev N)) in Hr. rewrite rev_involutive, rev_app_distr, rev_replicate in Hr.
  rewrite Hr, radix_snoc_zeros in Hv. rewrite <- Hv in *. clear Hv.
  split; [by apply N.divide_factor_r|].
  destruct r as [|x r]; [simpl in Hnz; lia|]. simpl rev in *.
  rewrite foldl_app. simpl. rewrite foldl_app in Hnz. simpl in Hnz.
  assert (Hx : 0 < x < base).
  { split; [pose proof (Hhd x r eq_refl); lia|]. apply Hdig; [done|].
    rewrite Hr. set_solver. }
  rewrite N.pow_add_r, N.pow_1_r, (N.mul_comm (base ^ _) base).
  intros Hdiv%N.mul_divide_cancel_r; [|apply N.pow_nonzero; lia].
  apply N.divide_add_cancel_r in Hdiv; [|by apply N.divide_factor_r].
  apply N.divide_pos_le in Hdiv; lia.
Qed.

(** Repeated division gives such a library function. *)
Fixpoint digits_le (fuel : nat) (n base : N) : list N :=
  match fuel with
  | O => []
  | S f => n mod base :: (if n / base =? 0 then [] else digits_le f (n / base) base)
  end.

Definition radix_by_division : BigIntRadix :=
  fun bytes base => rev (digits_le (S (8 * length bytes)) (from_be_bytes bytes) base).

Lemma foldl_rev_cons base d l :
  foldl (fun acc d => acc * base + d) 0 (rev (d :: l)) =
  foldl (fun acc d => acc * base + d) 0 (rev l) * base + d.
Proof. simpl. by rewrite foldl_app. Qed.

Lemma digits_le_value fuel n base :
  2 <= base -> n < 2 ^ N.of_nat fuel ->
  foldl (fun acc d => acc * base + d) 0 (rev (digits_le fuel n base)) = n.
Proof.
  intros Hb. revert n. induction fuel as [|f IH]; intros n Hn.
  - simpl in *. lia.
  - rewrite Nat2N.inj_succ, N.pow_succ_r' in Hn. cbn [digits_le].
    rewrite foldl_rev_cons. pose proof (N.div_mod n base ltac:(lia)) as Hd.
    destruct (N.eqb_spec (n / base) 0) as [E|E].
    + simpl. rewrite E in Hd. lia.
    + rewrite IH; [lia|].
      apply N.Div0.div_lt_upper_bound. nia.
Qed.

Lemma digits_le_bound fuel n base d :
  base <> 0 -> d ∈ digits_le fuel n base -> d < base.
Proof.
  intros Hb. revert n. induction fuel as [|f IH]; intros n; simpl; [set_solver|].
  rewrite elem_of_cons. intros [->|Hd]; [by apply N.mod_lt|].
  destruct (n / base =? 0); [set_solver|eauto].
Qed.

Lemma radix_by_division_laws : @BigIntRadixLaws radix_by_division.
Proof.
  split; intros bytes base.
  - intros [Hb _]. unfold to_radix_be, radix_by_division.
    apply digits_le_value; [done|].
    pose proof (from_be_bytes_bound bytes) as Hn.
    replace (256 ^ len bytes) with (2 ^ (8 * len bytes)) in Hn
      by (rewrite N.pow_mul_r; done).
    eapply N.lt_le_trans; [exact Hn|]. apply N.pow_le_mono_r; [lia|].
    unfold len. lia.
  - intros d [Hb _]. unfold to_radix_be, radix_by_division.
    rewrite list_elem_of_In, <- in_rev, <- list_elem_of_In.
    apply digits_le_bound. lia.
Qed.

Lemma CountTrailingZerosInBase_spec_witness :
  let id := array_pad 32 (replicate 31 x00 ++ [x18]) : CommitId in
  @CountTrailingZerosInBase radix_by_division 2 id = Some 3 /\
  (2 ^ 3 | from_be_bytes (arr_list id)) /\ ~ (2 ^ (3 + 1) | from_be_bytes (arr_list id)).
Proof.
  split; [vm_compute; reflexivity|].
  apply (@CountTrailingZerosInBase_spec _ radix_by_division_laws 2
           (array_pad 32 (replicate 31 x00 ++ [x18])) 3).
  - vm_compute. reflexivity.
  - vm_compute. discriminate.
Defined.
