(* ===== verification/LooseCommit.v ===== *)
(** * Loose commits

    [sedimentree_core/src/loose_commit.rs]: the commit record and its wire
    format, with the laws of the codec. *)

From Stdlib Require Import Strings.Byte NArith Lia.
From stdpp Require Import base gmap sorting strings list.
From S2P Require Import Prelude.
From S2P Require Import Codec.
From S2P Require Import Types.

Open Scope N_scope.

Record LooseCommit : Type := LooseCommit_new {
  lc_sedimentree_id : SedimentreeId;
  lc_head : CommitId;
  lc_parents : gset CommitId;
  lc_blob_meta : BlobMeta
}.

#[export] Instance LooseCommit_eq_dec : EqDecision LooseCommit.
Proof. solve_decision. Defined.

Module LooseCommitCodec.
Definition CODEC_FIXED_FIELDS_SIZE : N := 32 + 32 + 32 + 1.
Definition CODEC_MIN_FIELDS_SIZE : N := CODEC_FIXED_FIELDS_SIZE + 1.
Definition CODEC_MIN_SIZE : N := 4 + 32 + CODEC_MIN_FIELDS_SIZE + 64.

#[global] Instance schema : Schema LooseCommit := {|
  PREFIX := SEDIMENTREE_PREFIX;
  TYPE_BYTE := "C"%byte;
  VERSION := x00;
  DISCRIMINANT := None;
  type_name := "sedimentree_core::loose_commit::LooseCommit"
|}.

Section codec.
Context `{Bijou64}.

Definition encode_fields (c : LooseCommit) (buf : list byte) : list byte :=
  let buf := encode.array (lc_sedimentree_id c) buf in
  let buf := encode.array (lc_head c) buf in
  let buf := encode.array (bm_digest (lc_blob_meta c)) buf in
  let buf := encode.u8 (byte_of_N (N.of_nat (size (lc_parents c)))) buf in
  let buf := encode.bytes (bijou_encode (bm_size_bytes (lc_blob_meta c))) buf in
  foldl (fun buf parent => encode.array parent buf) buf
    (btree_iter (lc_parents c)).

Definition fields_size (c : LooseCommit) : N :=
  CODEC_FIXED_FIELDS_SIZE
  + bijou_encoded_len (bm_size_bytes (lc_blob_meta c))
  + N.of_nat (size (lc_parents c)) * 32.

Definition try_decode_fields (buf : list byte) :
  result DecodeError (LooseCommit * N) :=
  let? _ := guard_err (len buf <? CODEC_MIN_FIELDS_SIZE)
              (E_MessageTooShort "LooseCommit" CODEC_MIN_FIELDS_SIZE (len buf)) in
  let offset := 0 in
  let? sedimentree_id := buf_err (decode.array 32 buf offset) in
  let offset := offset + 32 in
  let? head := buf_err (decode.array 32 buf offset) in
  let offset := offset + 32 in
  let? blob_digest := buf_err (decode.array 32 buf offset) in
  let offset := offset + 32 in
  let? parent_count := buf_err (decode.u8 buf offset) in
  let offset := offset + 1 in
  let? (blob_size, consumed) := decode_bijou buf offset in
  let offset := offset + consumed in
  let parents_size := Byte.to_N parent_count * 32 in
  let? _ := guard_err (len buf <? offset + parents_size)
              (E_BufferTooShort
                 (decode.too_short (RT_Slice parents_size) buf offset parents_size)) in
  let? (parent_arrays, offset) :=
    buf_err (decode.arrays 32 (Byte.to_nat parent_count) buf offset) in
  let? _ := map_err E_UnsortedArray (decode.verify_sorted parent_arrays) in
  Ok (LooseCommit_new sedimentree_id head (list_to_set parent_arrays)
        (from_digest_size blob_digest blob_size), offset).

#[global] Instance encode_instance : EncodeFields LooseCommit := {|
  Codec.encode_fields := encode_fields;
  Codec.fields_size := fields_size
|}.

#[global] Instance decode_instance : DecodeFields LooseCommit := {|
  MIN_SIGNED_SIZE := CODEC_MIN_SIZE;
  Codec.try_decode_fields := try_decode_fields
|}.
End codec.

(** The values the format can carry: at most 255 parents and a [u64] size. *)
Definition encodable (c : LooseCommit) : Prop :=
  N.of_nat (size (lc_parents c)) <= u8_max /\
  bm_size_bytes (lc_blob_meta c) <= u64_max.

(** The encoding as one concatenation. *)
Definition wire `{Bijou64} (c : LooseCommit) : list byte :=
  arr_list (lc_sedimentree_id c) ++ arr_list (lc_head c)
  ++ arr_list (bm_digest (lc_blob_meta c))
  ++ [byte_of_N (N.of_nat (size (lc_parents c)))]
  ++ bijou_encode (bm_size_bytes (lc_blob_meta c))
  ++ arrays_bytes (btree_iter (lc_parents c)).

Lemma commit_encode_fields_wire `{Bijou64} c buf : encode_fields c buf = buf ++ wire c.
Proof.
  unfold encode_fields, wire. rewrite foldl_encode_array.
  unfold encode.array, encode.u8, encode.bytes. by rewrite <- !app_assoc.
Qed.

Section laws.
Context `{Bijou64Laws}.

Lemma commit_wire_len c : encodable c -> len (wire c) = fields_size c.
Proof.
  intros [_ Hsz]. unfold wire, fields_size, CODEC_FIXED_FIELDS_SIZE.
  rewrite !len_app, !len_array, len_arrays_bytes, bijou_len by done.
  unfold len. rewrite length_btree_iter. simpl. lia.
Qed.

Lemma commit_decode_wire c rest :
  encodable c -> try_decode_fields (wire c ++ rest) = Ok (c, fields_size c).
Proof.
  intros Henc. pose proof (commit_wire_len c Henc) as Hlen. destruct Henc as [Hp Hsz].
  pose proof (bijou_len_bounds _ Hsz) as Hbl.
  unfold try_decode_fields. set (buf := wire c ++ rest).
  assert (Hbuf : len buf = fields_size c + len rest)
    by (unfold buf; rewrite len_app; lia).
  assert (Hs : suffix_at buf 0 buf) by apply suffix_at_start.
  unfold buf at 2, wire in Hs. rewrite <- !app_assoc in Hs.
  unfold fields_size, CODEC_FIXED_FIELDS_SIZE in *.
  rewrite (proj2 (N.ltb_ge _ _)) by (rewrite Hbuf; unfold CODEC_MIN_FIELDS_SIZE,
    CODEC_FIXED_FIELDS_SIZE; lia).
  do 3 (cbn [guard_err rbind]; rewrite (decode_array_at _ _ _ _ _ Hs);
    suffix_step Hs 32; cbn [buf_err map_err rbind]).
  rewrite (decode_u8_at _ _ _ _ Hs). suffix_step Hs 1. cbn [buf_err map_err rbind].
  rewrite (decode_bijou_at _ _ _ _ Hs Hsz). cbn [rbind].
  eapply (suffix_at_app _ _ _ _ (bijou_encoded_len _)) in Hs; [|by apply bijou_len].
  rewrite to_byte_of_N, N.mod_small by (unfold u8_max in Hp; lia).
  rewrite (proj2 (N.ltb_ge _ _)) by (rewrite Hbuf; lia). cbn [guard_err rbind].
  rewrite Byte.to_nat_via_N, to_byte_of_N, N.mod_small by (unfold u8_max in Hp; lia).
  rewrite Nat2N.id, <- (length_btree_iter (lc_parents c)).
  rewrite (decode_arrays_at _ _ _ _ _ Hs). cbn [buf_err map_err rbind].
  rewrite (proj2 (verify_sorted_Ok _ tt)) by apply btree_iter_sorted.
  cbn [map_err rbind]. rewrite list_to_set_btree_iter.
  unfold len. rewrite length_btree_iter.
  by destruct c as [??? []].
Qed.

Lemma commit_decode_canonical buf c n :
  try_decode_fields buf = Ok (c, n) ->
  encodable c /\ n = fields_size c /\ exists rest, buf = wire c ++ rest.
Proof.
  unfold try_decode_fields, buf_err. intros Hd.
  assert (exists b0, b0 = buf /\ suffix_at buf 0 b0) as (b0 & Hb0 & Hs)
    by (exists buf; split; [done|apply suffix_at_start]).
  repeat (inv_ok; match goal with x : _ * _ |- _ => destruct x end); inv_ok.
  repeat canon_step. subst c n.
  match goal with H : decode.verify_sorted _ = Ok _ |- _ =>
    destruct (verify_sorted_set _ _ H) as [Hsize Hiter] end.
  match goal with H : length l = _ |- _ =>
    rewrite Byte.to_nat_via_N in H; rename H into Hcount end.
  pose proof (Byte.to_N_bounded x3) as Hx3.
  unfold encodable, fields_size, wire, CODEC_FIXED_FIELDS_SIZE. simpl.
  rewrite Hsize, Hiter. unfold u8_max, len.
  split; [split; [lia|done]|]. split; [lia|].
  exists x7. rewrite <- Hb0, Hcount, N2Nat.id, byte_of_to_N.
  rewrite <- !app_assoc. simpl. by rewrite <- !app_assoc.
Qed.

#[global] Instance laws : CodecLaws LooseCommit encodable.
Proof.
  split.
  - intros x buf. cbn. by rewrite !commit_encode_fields_wire.
  - intros x Hx. cbn. rewrite commit_encode_fields_wire. by apply commit_wire_len.
  - intros x rest Hx. cbn. rewrite commit_encode_fields_wire. by apply commit_decode_wire.
  - intros buf x n Hd. cbn. rewrite commit_encode_fields_wire. by apply commit_decode_canonical.
Qed.
End laws.
End LooseCommitCodec.

(** A commit with at most 255 parents survives the wire: whatever bytes
    follow, decoding its encoding returns the commit itself and reports exactly
    the bytes the encoder wrote, which [fields_size] predicts. *)
Theorem LooseCommit_roundtrip `{Bijou64Laws} (c : LooseCommit) (rest : list byte) :
  LooseCommitCodec.encodable c ->
  len (LooseCommitCodec.encode_fields c []) = LooseCommitCodec.fields_size c /\
  LooseCommitCodec.try_decode_fields (LooseCommitCodec.encode_fields c [] ++ rest) =
    Ok (c, LooseCommitCodec.fields_size c).
Proof.
  intros Hc. rewrite LooseCommitCodec.commit_encode_fields_wire. simpl.
  split; [by apply LooseCommitCodec.commit_wire_len|by apply LooseCommitCodec.commit_decode_wire].
Qed.

(** An example commit: two parents, a blob of 300 bytes. *)
Definition example_commit : LooseCommit :=
  LooseCommit_new (array_pad 32 [x01]) (array_pad 32 [x02])
    {[ array_pad 32 [x03]; array_pad 32 [x04] ]}
    (from_digest_size (array_pad 32 [x05]) 300).

Lemma LooseCommit_roundtrip_witness :
  @LooseCommitCodec.try_decode_fields bijou_fixed8
    (@LooseCommitCodec.encode_fields bijou_fixed8 example_commit [] ++ [xff]) =
    Ok (example_commit, 169).
Proof.
  apply (@LooseCommit_roundtrip _ bijou_fixed8_laws example_commit [xff]).
  split; vm_compute; discriminate.
Defined.

(** The commit format is canonical: whatever bytes the decoder accepts, the
    part it consumed is the encoding of the value it returned, so no commit has
    two encodings. *)
Theorem LooseCommit_canonical `{Bijou64Laws} (buf : list byte) (c : LooseCommit) n :
  LooseCommitCodec.try_decode_fields buf = Ok (c, n) ->
  LooseCommitCodec.encodable c /\
  take (N.to_nat n) buf = LooseCommitCodec.encode_fields c [].
Proof.
  intros Hd. destruct (LooseCommitCodec.commit_decode_canonical _ _ _ Hd) as (He & -> & rest & ->).
  split; [done|]. rewrite LooseCommitCodec.commit_encode_fields_wire. simpl.
  rewrite <- LooseCommitCodec.commit_wire_len by done. unfold len.
  by rewrite Nat2N.id, take_app_length.
Qed.

Lemma LooseCommit_canonical_witness :
  LooseCommitCodec.encodable example_commit /\
  take 169 (@LooseCommitCodec.encode_fields bijou_fixed8 example_commit [] ++ [xff]) =
    @LooseCommitCodec.encode_fields bijou_fixed8 example_commit [].
Proof.
  apply (@LooseCommit_canonical _ bijou_fixed8_laws
           (@LooseCommitCodec.encode_fields bijou_fixed8 example_commit [] ++ [xff])
           example_commit 169).
  vm_compute. reflexivity.
Defined.

(** The parent count is written [as u8]: a commit whose number of parents is a
    multiple of 256 is encoded with count zero, and decodes to the same commit
    without any parent, the parents being left over as trailing bytes. *)
Theorem LooseCommit_parent_count_truncates `{Bijou64Laws} (c : LooseCommit) :
  N.of_nat (size (lc_parents c)) mod 256 = 0 ->
  bm_size_bytes (lc_blob_meta c) <= u64_max ->
  exists n,
    LooseCommitCodec.try_decode_fields (LooseCommitCodec.encode_fields c []) =
      Ok (LooseCommit_new (lc_sedimentree_id c) (lc_head c) ∅ (lc_blob_meta c), n).
Proof.
  intros Hz Hsz. rewrite LooseCommitCodec.commit_encode_fields_wire. simpl.
  set (c0 := LooseCommit_new (lc_sedimentree_id c) (lc_head c) ∅ (lc_blob_meta c)).
  assert (LooseCommitCodec.encodable c0) as Hc0
    by (split; [done|exact Hsz]).
  exists (LooseCommitCodec.fields_size c0).
  rewrite <- (LooseCommitCodec.commit_decode_wire c0
                (arrays_bytes (btree_iter (lc_parents c))) Hc0).
  f_equal. unfold LooseCommitCodec.wire, byte_of_N, as_u8. simpl.
  rewrite Hz. rewrite <- !app_assoc. simpl. by rewrite <- !app_assoc.
Qed.

(** 256 different parents. *)
Definition many_parents : gset CommitId :=
  list_to_set ((fun n => array_pad 32 [byte_of_N (N.of_nat n)]) <$> seq 0 256).

Lemma LooseCommit_parent_count_truncates_witness :
  size many_parents = 256%nat /\
  exists n,
    @LooseCommitCodec.try_decode_fields bijou_fixed8
      (@LooseCommitCodec.encode_fields bijou_fixed8
         (LooseCommit_new (array_pad 32 []) (array_pad 32 []) many_parents
            (from_digest_size (array_pad 32 []) 0)) []) =
    Ok (LooseCommit_new (array_pad 32 []) (array_pad 32 []) ∅
          (from_digest_size (array_pad 32 []) 0), n).
Proof.
  split; [vm_compute; reflexivity|].
  apply (@LooseCommit_parent_count_truncates _ bijou_fixed8_laws
           (LooseCommit_new (array_pad 32 []) (array_pad 32 []) many_parents
              (from_digest_size (array_pad 32 []) 0))).
  - vm_compute. reflexivity.
  - vm_compute. discriminate.
Defined.
