(* ===== verification/Fragment.v ===== *)
(** * Fragments

    [sedimentree_core/src/fragment.rs]: a fragment's summary, the coverage tests
    [supports] and [supports_block], and the wire format with its laws. *)

From Stdlib Require Import Strings.Byte NArith Lia.
From stdpp Require Import base gmap sorting strings list.
From S2P Require Import Prelude.
From S2P Require Import Codec.
From S2P Require Import Types.

Open Scope N_scope.

Record FragmentSummary : Type := FragmentSummary_new {
  fs_head : CommitId;
  fs_boundary : gset CommitId;
  fs_blob_meta : BlobMeta
}.

#[export] Instance FragmentSummary_eq_dec : EqDecision FragmentSummary.
Proof. solve_decision. Defined.

Record Fragment : Type := MkFragment {
  fr_sedimentree_id : SedimentreeId;
  fr_summary : FragmentSummary;
  fr_checkpoints : gset Checkpoint
}.

#[export] Instance Fragment_eq_dec : EqDecision Fragment.
Proof. solve_decision. Defined.

Definition fr_head (f : Fragment) : CommitId := fs_head (fr_summary f).
Definition fr_boundary (f : Fragment) : gset CommitId := fs_boundary (fr_summary f).
Definition fr_blob_meta (f : Fragment) : BlobMeta := fs_blob_meta (fr_summary f).

(** [Fragment::from_parts] *)
Definition Fragment_from_parts (sedimentree_id : SedimentreeId) (head : CommitId)
    (boundary : gset CommitId) (checkpoints : gset Checkpoint) (blob_meta : BlobMeta) :
  Fragment :=
  MkFragment sedimentree_id (FragmentSummary_new head boundary blob_meta) checkpoints.

(** [Fragment::new]: the checkpoints are truncated. *)
Definition Fragment_new (sedimentree_id : SedimentreeId) (head : CommitId)
    (boundary : gset CommitId) (checkpoints : list CommitId) (blob_meta : BlobMeta) :
  Fragment :=
  Fragment_from_parts sedimentree_id head boundary
    (list_to_set (Checkpoint_new <$> checkpoints)) blob_meta.

(** [FragmentSummary::depth], [Fragment::depth] *)
Definition summary_depth (m : DepthMetric) (s : FragmentSummary) : Depth := m (fs_head s).
Definition fragment_depth (m : DepthMetric) (f : Fragment) : Depth :=
  summary_depth m (fr_summary f).

Definition supports_block (f : Fragment) (id : CommitId) : bool :=
  bool_decide (fr_head f = id)
  || bool_decide (Checkpoint_new id ∈ fr_checkpoints f)
  || bool_decide (id ∈ fr_boundary f).

Definition supports (m : DepthMetric) (f : Fragment) (other : FragmentSummary) : bool :=
  if bool_decide (fr_summary f = other) then true
  else if fragment_depth m f <? summary_depth m other then false
  else if negb (supports_block f (fs_head other)) then false
  else forallb (supports_block f) (btree_iter (fs_boundary other))
       || bool_decide (fs_boundary other ⊆ fr_boundary f).

Module FragmentCodec.
Definition CODEC_FIXED_FIELDS_SIZE : N := 32 + 32 + 32 + 1 + 2.
Definition CODEC_MIN_FIELDS_SIZE : N := CODEC_FIXED_FIELDS_SIZE + 1.
Definition CODEC_MIN_SIZE : N := 4 + 32 + CODEC_MIN_FIELDS_SIZE + 64.
Definition CHECKPOINT_BYTES : nat := 12.

#[global] Instance schema : Schema Fragment := {|
  PREFIX := SEDIMENTREE_PREFIX;
  TYPE_BYTE := "F"%byte;
  VERSION := x00;
  DISCRIMINANT := None;
  type_name := "sedimentree_core::fragment::Fragment"
|}.

Section codec.
Context `{Bijou64}.

Definition encode_fields (f : Fragment) (buf : list byte) : list byte :=
  let buf := encode.array (fr_sedimentree_id f) buf in
  let buf := encode.array (fr_head f) buf in
  let buf := encode.array (bm_digest (fr_blob_meta f)) buf in
  let buf := encode.u8 (byte_of_N (N.of_nat (size (fr_boundary f)))) buf in
  let buf := encode.u16 (as_u16 (N.of_nat (size (fr_checkpoints f)))) buf in
  let buf := encode.bytes (bijou_encode (bm_size_bytes (fr_blob_meta f))) buf in
  let buf := foldl (fun buf b => encode.array b buf) buf
               (btree_iter (fr_boundary f)) in
  foldl (fun buf c => encode.array c buf) buf (btree_iter (fr_checkpoints f)).

Definition fields_size (f : Fragment) : N :=
  CODEC_FIXED_FIELDS_SIZE
  + bijou_encoded_len (bm_size_bytes (fr_blob_meta f))
  + N.of_nat (size (fr_boundary f)) * 32
  + N.of_nat (size (fr_checkpoints f)) * N.of_nat CHECKPOINT_BYTES.

Definition try_decode_fields (buf : list byte) :
  result DecodeError (Fragment * N) :=
  let? _ := guard_err (len buf <? CODEC_MIN_FIELDS_SIZE)
              (E_MessageTooShort "Fragment" CODEC_MIN_FIELDS_SIZE (len buf)) in
  let offset := 0 in
  let? sedimentree_id := buf_err (decode.array 32 buf offset) in
  let offset := offset + 32 in
  let? head := buf_err (decode.array 32 buf offset) in
  let offset := offset + 32 in
  let? blob_digest := buf_err (decode.array 32 buf offset) in
  let offset := offset + 32 in
  let? boundary_count := buf_err (decode.u8 buf offset) in
  let offset := offset + 1 in
  let? checkpoint_count := buf_err (decode.u16 buf offset) in
  let offset := offset + 2 in
  let? (blob_size, consumed) := decode_bijou buf offset in
  let offset := offset + consumed in
  let boundary_size := Byte.to_N boundary_count * 32 in
  let checkpoints_size := checkpoint_count * N.of_nat CHECKPOINT_BYTES in
  let total_variable_size := boundary_size + checkpoints_size in
  let? _ := guard_err (len buf <? offset + total_variable_size)
              (E_BufferTooShort
                 (decode.too_short (RT_Slice total_variable_size) buf offset
                    total_variable_size)) in
  let? (boundary_arrays, offset) :=
    buf_err (decode.arrays 32 (Byte.to_nat boundary_count) buf offset) in
  let? _ := map_err E_UnsortedArray (decode.verify_sorted boundary_arrays) in
  let? (checkpoint_arrays, offset) :=
    buf_err (decode.arrays CHECKPOINT_BYTES (N.to_nat checkpoint_count) buf offset) in
  let? _ := map_err E_UnsortedArray (decode.verify_sorted checkpoint_arrays) in
  Ok (Fragment_from_parts sedimentree_id head (list_to_set boundary_arrays)
        (list_to_set checkpoint_arrays)
        (from_digest_size blob_digest blob_size), offset).

#[global] Instance encode_instance : EncodeFields Fragment := {|
  Codec.encode_fields := encode_fields;
  Codec.fields_size := fields_size
|}.

#[global] Instance decode_instance : DecodeFields Fragment := {|
  MIN_SIGNED_SIZE := CODEC_MIN_SIZE;
  Codec.try_decode_fields := try_decode_fields
|}.
End codec.

(** At most 255 boundary commits, 65535 checkpoints and a [u64] size. *)
Definition encodable (f : Fragment) : Prop :=
  N.of_nat (size (fr_boundary f)) <= u8_max /\
  N.of_nat (size (fr_checkpoints f)) <= u16_max /\
  bm_size_bytes (fr_blob_meta f) <= u64_max.

Definition wire `{Bijou64} (f : Fragment) : list byte :=
  arr_list (fr_sedimentree_id f) ++ arr_list (fr_head f)
  ++ arr_list (bm_digest (fr_blob_meta f))
  ++ [byte_of_N (N.of_nat (size (fr_boundary f)))]
  ++ to_be_bytes 2 (as_u16 (N.of_nat (size (fr_checkpoints f))))
  ++ bijou_encode (bm_size_bytes (fr_blob_meta f))
  ++ arrays_bytes (btree_iter (fr_boundary f))
  ++ arrays_bytes (btree_iter (fr_checkpoints f)).

Lemma fragment_encode_fields_wire `{Bijou64} f buf : encode_fields f buf = buf ++ wire f.
Proof.
  unfold encode_fields, wire. rewrite !foldl_encode_array.
  unfold encode.array, encode.u8, encode.u16, encode.bytes.
  by rewrite <- !app_assoc.
Qed.

Section laws.
Context `{Bijou64Laws}.

Lemma fragment_wire_len f : encodable f -> len (wire f) = fields_size f.
Proof.
  intros (_ & _ & Hsz). unfold wire, fields_size, CODEC_FIXED_FIELDS_SIZE.
  rewrite !len_app, !len_array, len_to_be_bytes, !len_arrays_bytes, bijou_len by done.
  unfold len. rewrite !length_btree_iter. unfold CHECKPOINT_BYTES. simpl. lia.
Qed.

Lemma fragment_decode_wire f rest :
  encodable f -> try_decode_fields (wire f ++ rest) = Ok (f, fields_size f).
Proof.
  intros Henc. pose proof (fragment_wire_len f Henc) as Hlen. destruct Henc as (Hp & Hc & Hsz).
  pose proof (bijou_len_bounds _ Hsz) as Hbl.
  unfold try_decode_fields. set (buf := wire f ++ rest).
  assert (Hbuf : len buf = fields_size f + len rest)
    by (unfold buf; rewrite len_app; lia).
  assert (Hs : suffix_at buf 0 buf) by apply suffix_at_start.
  unfold buf at 2, wire in Hs. rewrite <- !app_assoc in Hs.
  unfold fields_size, CODEC_FIXED_FIELDS_SIZE in *.
  rewrite (proj2 (N.ltb_ge _ _)) by (rewrite Hbuf; unfold CODEC_MIN_FIELDS_SIZE,
    CODEC_FIXED_FIELDS_SIZE; lia).
  do 3 (cbn [guard_err rbind]; rewrite (decode_array_at _ _ _ _ _ Hs);
    suffix_step Hs 32; cbn [buf_err map_err rbind]).
  rewrite (decode_u8_at _ _ _ _ Hs). suffix_step Hs 1. cbn [buf_err map_err rbind].
  assert (Has : as_u16 (N.of_nat (size (fr_checkpoints f)))
                = N.of_nat (size (fr_checkpoints f)))
    by (unfold as_u16, u16_max in *; rewrite N.mod_small; lia).
  rewrite Has in Hs. rewrite (decode_u16_at _ _ _ _ Hs Hc). suffix_step Hs 2.
  cbn [buf_err map_err rbind].
  rewrite (decode_bijou_at _ _ _ _ Hs Hsz). cbn [rbind].
  eapply (suffix_at_app _ _ _ _ (bijou_encoded_len _)) in Hs; [|by apply bijou_len].
  rewrite to_byte_of_N, N.mod_small by (unfold u8_max in Hp; lia).
  rewrite (proj2 (N.ltb_ge _ _)) by (rewrite Hbuf; lia). cbn [guard_err rbind].
  rewrite Byte.to_nat_via_N, to_byte_of_N, N.mod_small by (unfold u8_max in Hp; lia).
  rewrite !Nat2N.id, <- (length_btree_iter (fr_boundary f)).
  rewrite (decode_arrays_at _ _ _ _ _ Hs). cbn [buf_err map_err rbind].
  rewrite (proj2 (verify_sorted_Ok _ tt)) by apply btree_iter_sorted.
  cbn [map_err rbind].
  eapply (suffix_at_app _ _ _ _ _) in Hs; [|by apply len_arrays_bytes].
  rewrite <- (length_btree_iter (fr_checkpoints f)).
  unfold CHECKPOINT_BYTES.
  rewrite (decode_arrays_at _ _ _ _ _ Hs). cbn [buf_err map_err rbind].
  rewrite (proj2 (verify_sorted_Ok _ tt)) by apply btree_iter_sorted.
  cbn [map_err rbind]. rewrite !list_to_set_btree_iter.
  unfold len. rewrite !length_btree_iter.
  by destruct f as [? [?? []] ?].
Qed.

Lemma fragment_decode_canonical buf f n :
  try_decode_fields buf = Ok (f, n) ->
  encodable f /\ n = fields_size f /\ exists rest, buf = wire f ++ rest.
Proof.
  unfold try_decode_fields, buf_err. intros Hd.
  assert (exists b0, b0 = buf /\ suffix_at buf 0 b0) as (b0 & Hb0 & Hs)
    by (exists buf; split; [done|apply suffix_at_start]).
  repeat (inv_ok; match goal with x : _ * _ |- _ => destruct x end); inv_ok.
  repeat canon_step. subst f n.
  repeat match goal with H : decode.verify_sorted _ = Ok _ |- _ =>
    destruct (verify_sorted_set _ _ H) as [? ?]; clear H end.
  match goal with H : length l = _ |- _ =>
    rewrite Byte.to_nat_via_N in H; rename H into Hcount end.
  pose proof (Byte.to_N_bounded x3) as Hx3.
  unfold CHECKPOINT_BYTES in *.
  assert (Hx4 : as_u16 (N.of_nat (length l0)) = x4)
    by (unfold as_u16, u16_max in *; rewrite N.mod_small; lia).
  match goal with H : length l0 = _ |- _ => rewrite H, N2Nat.id in Hx4 end.
  unfold encodable, fields_size, wire, CODEC_FIXED_FIELDS_SIZE.
  unfold fr_boundary, fr_head, fr_blob_meta, Fragment_from_parts.
  cbn [fr_sedimentree_id fr_summary fr_checkpoints fs_head fs_boundary fs_blob_meta
       from_digest_size bm_digest bm_size_bytes].
  repeat match goal with H : _ = _ :> nat |- _ => rewrite H
         | H : btree_iter _ = _ |- _ => rewrite H end.
  unfold u8_max, CHECKPOINT_BYTES, len.
  split; [split; [lia|split; [lia|done]]|]. split; [lia|].
  exists x9. rewrite <- Hb0, !N2Nat.id, byte_of_to_N, Hx4.
  by rewrite <- !app_assoc.
Qed.

#[global] Instance laws : CodecLaws Fragment encodable.
Proof.
  split.
  - intros x buf. cbn. by rewrite !fragment_encode_fields_wire.
  - intros x Hx. cbn. rewrite fragment_encode_fields_wire. by apply fragment_wire_len.
  - intros x rest Hx. cbn. rewrite fragment_encode_fields_wire. by apply fragment_decode_wire.
  - intros buf x n Hd. cbn. rewrite fragment_encode_fields_wire. by apply fragment_decode_canonical.
Qed.
End laws.
End FragmentCodec.

(** A fragment with at most 255 boundary commits and 65535 checkpoints
    survives the wire, whatever bytes follow, and [fields_size] is the length of
    its encoding. *)
Theorem Fragment_roundtrip `{Bijou64Laws} (f : Fragment) (rest : list byte) :
  FragmentCodec.encodable f ->
  len (FragmentCodec.encode_fields f []) = FragmentCodec.fields_size f /\
  FragmentCodec.try_decode_fields (FragmentCodec.encode_fields f [] ++ rest) =
    Ok (f, FragmentCodec.fields_size f).
Proof.
  intros Hf. rewrite FragmentCodec.fragment_encode_fields_wire. simpl.
  split; [by apply FragmentCodec.fragment_wire_len|by apply FragmentCodec.fragment_decode_wire].
Qed.

Definition example_fragment : Fragment :=
  Fragment_new (array_pad 32 [x01]) (array_pad 32 [x00; x02])
    {[ array_pad 32 [x00; x03]; array_pad 32 [x00; x04] ]}
    [array_pad 32 [x07]; array_pad 32 [x06]; array_pad 32 [x08]]
    (from_digest_size (array_pad 32 [x05]) 300).

Lemma Fragment_roundtrip_witness :
  @FragmentCodec.try_decode_fields bijou_fixed8
    (@FragmentCodec.encode_fields bijou_fixed8 example_fragment [] ++ [xff]) =
    Ok (example_fragment, 207).
Proof.
  apply (@Fragment_roundtrip _ bijou_fixed8_laws example_fragment [xff]).
  split; [|split]; vm_compute; discriminate.
Defined.

(** The fragment format is canonical: the bytes the decoder consumed are the
    encoding of the fragment it returned. *)
Theorem Fragment_canonical `{Bijou64Laws} (buf : list byte) (f : Fragment) n :
  FragmentCodec.try_decode_fields buf = Ok (f, n) ->
  FragmentCodec.encodable f /\
  take (N.to_nat n) buf = FragmentCodec.encode_fields f [].
Proof.
  intros Hd. destruct (FragmentCodec.fragment_decode_canonical _ _ _ Hd) as (He & -> & rest & ->).
  split; [done|]. rewrite FragmentCodec.fragment_encode_fields_wire. simpl.
  rewrite <- FragmentCodec.fragment_wire_len by done. unfold len.
  by rewrite Nat2N.id, take_app_length.
Qed.

Lemma Fragment_canonical_witness :
  FragmentCodec.encodable example_fragment /\
  take 207 (@FragmentCodec.encode_fields bijou_fixed8 example_fragment [] ++ [xff]) =
    @FragmentCodec.encode_fields bijou_fixed8 example_fragment [].
Proof.
  apply (@Fragment_canonical _ bijou_fixed8_laws
           (@FragmentCodec.encode_fields bijou_fixed8 example_fragment [] ++ [xff])
           example_fragment 207).
  vm_compute. reflexivity.
Defined.
