(* ===== verification/Traversal.v ===== *)
(** * Hash collections and worklist loops

    With the [std] feature the code's [Map] and [Set] are [HashMap] and [HashSet]
    ([sedimentree_core/src/collections.rs]), whose iteration order is unspecified.
    [HashIter] is one such order; a definition that iterates takes it as an
    argument, and what must not depend on the order is stated for two of them.

    [worklist] is the shape of the graph loops of the crate: pop an element,
    skip it if it was visited, else visit it and push its successors. *)

From Stdlib Require Import NArith Lia.
From stdpp Require Import base gmap sorting list relations.
From S2P Require Import Prelude.

(** ** Iteration order *)

Class HashIter : Type := {
  hash_iter : forall {K V} `{Countable K}, gmap K V -> list (K * V);
  hash_iter_perm : forall {K V} `{Countable K} (m : gmap K V),
    hash_iter m ≡ₚ map_to_list m;
  hashset_iter : forall {K} `{Countable K}, gset K -> list K;
  hashset_iter_perm : forall {K} `{Countable K} (s : gset K),
    hashset_iter s ≡ₚ elements s
}.

(** One such order, for examples. *)
Definition hash_iter_by_encoding : HashIter := {|
  hash_iter K V _ _ m := map_to_list m;
  hash_iter_perm K V _ _ m := reflexivity _;
  hashset_iter K _ _ s := elements s;
  hashset_iter_perm K _ _ s := reflexivity _
|}.

(** Another, to compare with: the reverse. *)
Definition hash_iter_reversed : HashIter := {|
  hash_iter K V _ _ m := reverse (map_to_list m);
  hash_iter_perm K V _ _ m := reverse_Permutation _;
  hashset_iter K _ _ s := reverse (elements s);
  hashset_iter_perm K _ _ s := reverse_Permutation _
|}.

(** [map.keys()] and [map.values()] *)
Definition hash_keys `{HashIter} {K V} `{Countable K} (m : gmap K V) : list K :=
  (hash_iter m).*1.
Definition hash_values `{HashIter} {K V} `{Countable K} (m : gmap K V) : list V :=
  (hash_iter m).*2.

Section hash_iter.
Context `{HashIter} {K V : Type} `{Countable K}.
Implicit Types m : gmap K V.

Lemma elem_of_hash_iter m k v : (k, v) ∈ hash_iter m <-> m !! k = Some v.
Proof. by rewrite hash_iter_perm, elem_of_map_to_list. Qed.

Lemma elem_of_hash_keys m k : k ∈ hash_keys m <-> is_Some (m !! k).
Proof.
  unfold hash_keys. rewrite list_elem_of_fmap. split.
  - intros ([k' v] & -> & Hin%elem_of_hash_iter). by exists v.
  - intros [v Hv]. exists (k, v). by rewrite elem_of_hash_iter.
Qed.

Lemma elem_of_hash_values m v : v ∈ hash_values m <-> exists k, m !! k = Some v.
Proof.
  unfold hash_values. rewrite list_elem_of_fmap. split.
  - intros ([k v'] & -> & Hin%elem_of_hash_iter). by exists k.
  - intros [k Hv]. exists (k, v). by rewrite elem_of_hash_iter.
Qed.

Lemma NoDup_hash_keys m : NoDup (hash_keys m).
Proof. unfold hash_keys. rewrite hash_iter_perm. apply NoDup_fst_map_to_list. Qed.

Lemma NoDup_hashset_iter (s : gset K) : NoDup (hashset_iter s).
Proof. rewrite hashset_iter_perm. apply NoDup_elements. Qed.

Lemma elem_of_hashset_iter (s : gset K) k : k ∈ hashset_iter s <-> k ∈ s.
Proof. by rewrite hashset_iter_perm, elem_of_elements. Qed.

(** Values stored under their own keys have distinct keys. *)
Lemma hash_values_keys (f : V -> K) m :
  (forall k v, m !! k = Some v -> f v = k) -> f <$> hash_values m = hash_keys m.
Proof.
  intros Hk. unfold hash_values, hash_keys. rewrite <- list_fmap_compose.
  apply list_fmap_ext. intros i [k v] Hi. simpl. apply Hk, elem_of_hash_iter.
  by eapply list_elem_of_lookup_2.
Qed.

Lemma NoDup_hash_values_keys (f : V -> K) m :
  (forall k v, m !! k = Some v -> f v = k) -> NoDup (f <$> hash_values m).
Proof. intros Hk. rewrite hash_values_keys by done. apply NoDup_hash_keys. Qed.

Lemma length_hash_values m : length (hash_values m) = size m.
Proof.
  unfold hash_values. rewrite length_fmap, hash_iter_perm.
  by rewrite length_map_to_list.
Qed.
End hash_iter.

(** ** Worklists *)

Section worklist.
Context {A S : Type} `{Countable A}.

(** [norm] is what the loop does to a popped element before it looks it up,
    [visit] the state update at a new element, [succ] what is then pushed. The
    head of the list is the top of the stack, so [extend] pushes reversed. *)
Fixpoint worklist (norm : A -> A) (visit : A -> S -> S) (succ : A -> list A)
    (fuel : nat) (stack : list A) (visited : gset A) (s : S) : option (gset A * S) :=
  match fuel with
  | O => None
  | Datatypes.S fuel' =>
      match stack with
      | [] => Some (visited, s)
      | x :: stack' =>
          let y := norm x in
          if decide (y ∈ visited) then worklist norm visit succ fuel' stack' visited s
          else worklist norm visit succ fuel' (rev (succ y) ++ stack')
                 ({[ y ]} ∪ visited) (visit y s)
      end
  end.

Context (norm : A -> A) (visit : A -> S -> S) (succ : A -> list A).

(** One visited element leads to another. *)
Definition leads (x y : A) : Prop := exists z, z ∈ succ x /\ y = norm z.

Definition reached (roots : list A) (y : A) : Prop :=
  exists r, r ∈ roots /\ rtc leads (norm r) y.

(** The number of pushes that the elements of [u] can cause. *)
Definition pushes (u : gset A) : nat := sum_list ((length ∘ succ) <$> elements u).

Lemma pushes_visit u visited y :
  (y ∉ u -> succ y = []) -> y ∉ visited ->
  (pushes (u ∖ visited) =
   length (succ y) + pushes (u ∖ ({[ y ]} ∪ visited)))%nat.
Proof using Type.
  clear norm visit S. intros Hu Hy. destruct (decide (y ∈ u)) as [Hin|Hin].
  - replace (u ∖ visited) with ({[ y ]} ∪ (u ∖ ({[ y ]} ∪ visited))).
    + unfold pushes. rewrite elements_union_singleton by set_solver.
      done.
    + apply set_eq. intros x. destruct (decide (x = y)); set_solver.
  - rewrite (Hu Hin). simpl. f_equal. set_solver.
Qed.

Lemma reached_cons x stack y : reached stack y -> reached (x :: stack) y.
Proof. intros (r & Hr & Hp). exists r. set_solver. Qed.

Lemma reached_push x stack y :
  reached (rev (succ (norm x)) ++ stack) y -> reached (x :: stack) y.
Proof.
  intros (r & [Hr|Hr]%elem_of_app & Hp); [|by apply reached_cons; exists r].
  exists x. split; [set_solver|]. eapply rtc_l; [|done].
  exists r. split; [|done]. by apply list_elem_of_In, in_rev, list_elem_of_In.
Qed.

(** The loop ends, has visited exactly what the stack leads to without going
    through what was visited before, and has applied [visit] once to each. *)
Lemma worklist_run u fuel stack visited s :
  (forall y, reached stack y -> y ∉ u -> succ y = []) ->
  (length stack + pushes (u ∖ visited) < fuel)%nat ->
  exists order,
    worklist norm visit succ fuel stack visited s =
      Some (list_to_set order ∪ visited, foldl (fun s y => visit y s) s order) /\
    NoDup order /\
    (forall y, y ∈ order -> y ∉ visited /\ reached stack y) /\
    (forall x, x ∈ stack -> norm x ∈ order \/ norm x ∈ visited) /\
    (forall x y, x ∈ order -> leads x y -> y ∈ order \/ y ∈ visited).
Proof.
  revert stack visited s.
  induction fuel as [|fuel IH]; intros stack visited s Hu Hf; [lia|].
  destruct stack as [|x stack]; simpl.
  { exists []. simpl. rewrite union_empty_l_L. repeat split; try set_solver.
    constructor. }
  case_decide as Hv.
  - destruct (IH stack visited s) as (order & -> & Hnd & Ho & Hs & Hl);
      [by eauto using reached_cons|simpl in Hf; lia|].
    exists order. split; [done|]. split; [done|]. split; [|split; [|done]].
    + intros y Hy. destruct (Ho y Hy). eauto using reached_cons.
    + intros z [->|Hz]%elem_of_cons; auto.
  - rewrite (pushes_visit u visited (norm x)) in Hf;
      [|apply Hu; exists x; split; [set_solver|done]|done].
    destruct (IH (rev (succ (norm x)) ++ stack) ({[ norm x ]} ∪ visited)
                (visit (norm x) s)) as (order & -> & Hnd & Ho & Hs & Hl);
      [by eauto using reached_push|rewrite length_app, length_rev; simpl in Hf; lia|].
    exists (norm x :: order). split; [|split; [|split; [|split]]].
    + simpl. do 2 f_equal. set_solver.
    + constructor; [|done]. intros Hin. destruct (Ho _ Hin). set_solver.
    + intros y [->|Hy]%elem_of_cons.
      { split; [done|]. exists x. split; [set_solver|done]. }
      destruct (Ho y Hy) as (Hny & Hr). split; [set_solver|]. by apply reached_push.
    + intros z [->|Hz]%elem_of_cons; [set_solver|].
      destruct (Hs z); set_solver.
    + intros a b [->|Ha]%elem_of_cons Hab.
      * destruct Hab as (z & Hz & ->).
        destruct (Hs z); [|set_solver|set_solver].
        apply elem_of_app. left.
        by apply list_elem_of_In, in_rev; rewrite rev_involutive; apply list_elem_of_In.
      * destruct (Hl a b Ha Hab); set_solver.
Qed.

(** From an empty visited set: exactly what the roots lead to. *)
Lemma worklist_spec u fuel roots s :
  (forall y, reached roots y -> y ∉ u -> succ y = []) ->
  (length roots + pushes u < fuel)%nat ->
  exists order,
    worklist norm visit succ fuel roots ∅ s =
      Some (list_to_set order, foldl (fun s y => visit y s) s order) /\
    NoDup order /\ (forall y, y ∈ order <-> reached roots y).
Proof.
  intros Hu Hf. destruct (worklist_run u fuel roots ∅ s Hu) as
    (order & Hw & Hnd & Ho & Hs & Hl).
  { by rewrite difference_empty_L. }
  exists order. rewrite union_empty_r_L in Hw. split; [done|]. split; [done|].
  intros y. split; [intros Hy; by apply Ho|].
  intros (r & Hr & Hp). assert (Hin : norm r ∈ order) by (destruct (Hs r Hr); set_solver).
  clear Hr. revert Hin. induction Hp as [|a b c Hab _ IH]; intros Hin; [done|].
  apply IH. destruct (Hl _ _ Hin Hab); set_solver.
Qed.
End worklist.

(** A bound on [pushes] that needs no sum. *)
Lemma pushes_le {A} `{Countable A} (succ : A -> list A) (u : gset A) b :
  (forall x, length (succ x) <= b)%nat -> (pushes succ u <= size u * b)%nat.
Proof.
  intros Hb. unfold pushes, size, set_size. simpl.
  generalize (elements u). intros l. induction l as [|x l IH]; csimpl; [lia|].
  pose proof (Hb x). lia.
Qed.

(** ** Numbering: [iter().enumerate().map(|(i, x)| (key(x), i)).collect::<Map<_, _>>()]

    With distinct keys the map inverts the list. *)
Lemma enumerate_map_spec {V K} `{Countable K} (f : V -> K) (l : list V) :
  NoDup (f <$> l) ->
  forall x i,
    foldl (fun m '(idx, v) => <[f v := idx]> m) (∅ : gmap K nat) (imap pair l) !! x = Some i <->
    (f <$> l) !! i = Some x.
Proof.
  induction l as [|v l IH] using rev_ind; intros Hnd x i.
  - simpl. by rewrite lookup_empty.
  - rewrite fmap_app in Hnd. apply NoDup_app in Hnd as (Hnd & Hdis & _).
    rewrite imap_app, foldl_app. csimpl. rewrite Nat.add_0_r, fmap_app. csimpl.
    destruct (decide (x = f v)) as [->|Hx].
    + rewrite lookup_insert_eq. split.
      * intros [= <-]. rewrite lookup_app_r; rewrite length_fmap; [|lia].
        by rewrite Nat.sub_diag.
      * intros [Hl|[Hge Hl]]%lookup_app_Some.
        -- exfalso. apply (Hdis (f v)); [by eapply list_elem_of_lookup_2|set_solver].
        -- rewrite length_fmap in *.
           destruct (i - length l)%nat eqn:Hi; [|done]. f_equal. lia.
    + rewrite lookup_insert_ne by done. rewrite IH by done. split.
      * intros Hl. by apply lookup_app_l_Some.
      * intros [Hl|[Hge Hl]]%lookup_app_Some; [done|].
        apply list_lookup_singleton_Some in Hl as [_ ?]. done.
Qed.
