(* ===== verification/Sedimentree.v ===== *)
(** * The sedimentree

    [sedimentree_core/src/sedimentree.rs], the data structure itself: two maps
    from causal identities to fragments and loose commits, the tie-break on the
    digest when an identity is inserted twice, construction, merging, the raw
    difference of two trees, heads and ancestry. Minimisation, fingerprints and
    the topological order build on it in their own files. *)

From Stdlib Require Import Strings.Byte NArith Lia.
From stdpp Require Import base gmap sorting strings list relations.
From S2P Require Import Prelude.
From S2P Require Import Codec.
From S2P Require Import Types.
From S2P Require Import LooseCommit.
From S2P Require Import Fragment.
From S2P Require Import Traversal.

Open Scope N_scope.

Record Sedimentree : Type := MkSedimentree {
  st_fragments : gmap CommitId Fragment;
  st_commits : gmap CommitId LooseCommit
}.

#[export] Instance Sedimentree_eq_dec : EqDecision Sedimentree.
Proof. solve_decision. Defined.

(** [Sedimentree::default] *)
Definition Sedimentree_empty : Sedimentree := MkSedimentree ∅ ∅.

(** Insert under a key; of two values for one key the one with the lower digest
    stays, the one already present if they are equal. *)
Definition insert_or_tiebreak {V} `{Blake3, Schema V, EncodeFields V}
    (map : gmap CommitId V) (key : CommitId) (value : V) : gmap CommitId V :=
  match map !! key with
  | None => <[key := value]> map
  | Some e =>
      if ord_ltb (Digest_hash value) (Digest_hash e) then <[key := value]> map
      else map
  end.

Section tree.
Context `{HashIter, Blake3, Bijou64}.

(** [Sedimentree::new] *)
Definition Sedimentree_new (fragments : list Fragment) (commits : list LooseCommit) :
  Sedimentree :=
  MkSedimentree
    (foldl (fun map f => insert_or_tiebreak map (fr_head f) f) ∅ fragments)
    (foldl (fun map c => insert_or_tiebreak map (lc_head c) c) ∅ commits).

Definition merge (self other : Sedimentree) : Sedimentree :=
  MkSedimentree
    (foldl (fun map '(id, f) => insert_or_tiebreak map id f)
       (st_fragments self) (hash_iter (st_fragments other)))
    (foldl (fun map '(id, c) => insert_or_tiebreak map id c)
       (st_commits self) (hash_iter (st_commits other))).

(** The new tree and whether the identity was new. *)
Definition add_commit (self : Sedimentree) (commit : LooseCommit) : Sedimentree * bool :=
  let id := lc_head commit in
  match st_commits self !! id with
  | None => (MkSedimentree (st_fragments self) (<[id := commit]> (st_commits self)), true)
  | Some e =>
      (if ord_ltb (Digest_hash commit) (Digest_hash e)
       then MkSedimentree (st_fragments self) (<[id := commit]> (st_commits self))
       else self, false)
  end.

Definition add_fragment (self : Sedimentree) (fragment : Fragment) : Sedimentree * bool :=
  let id := fr_head fragment in
  match st_fragments self !! id with
  | None => (MkSedimentree (<[id := fragment]> (st_fragments self)) (st_commits self), true)
  | Some e =>
      (if ord_ltb (Digest_hash fragment) (Digest_hash e)
       then MkSedimentree (<[id := fragment]> (st_fragments self)) (st_commits self)
       else self, false)
  end.

Record Diff : Type := {
  left_missing_fragments : list Fragment;
  left_missing_commits : list LooseCommit;
  right_missing_fragments : list Fragment;
  right_missing_commits : list LooseCommit
}.

(** [keys.difference(&other_keys).filter_map(|k| map.get(k)).collect()] *)
Definition missing_values {V} (map : gmap CommitId V) (keys other_keys : gset CommitId) :
  list V :=
  omap (fun k => map !! k)
    (filter (fun k => k ∉ other_keys) (hashset_iter keys)).

Definition diff (self other : Sedimentree) : Diff :=
  let self_commit_keys := list_to_set (hash_keys (st_commits self)) in
  let other_commit_keys := list_to_set (hash_keys (st_commits other)) in
  let self_fragment_keys := list_to_set (hash_keys (st_fragments self)) in
  let other_fragment_keys := list_to_set (hash_keys (st_fragments other)) in
  {| left_missing_fragments :=
       missing_values (st_fragments other) other_fragment_keys self_fragment_keys;
     left_missing_commits :=
       missing_values (st_commits other) other_commit_keys self_commit_keys;
     right_missing_fragments :=
       missing_values (st_fragments self) self_fragment_keys other_fragment_keys;
     right_missing_commits :=
       missing_values (st_commits self) self_commit_keys other_commit_keys |}.

Definition has_loose_commit (self : Sedimentree) (id : CommitId) : bool :=
  bool_decide (is_Some (st_commits self !! id)).

Definition has_fragment (self : Sedimentree) (id : CommitId) : bool :=
  bool_decide (is_Some (st_fragments self !! id)).

(** The walk backward through the parents present in the tree. *)
Definition ancestors_succ (self : Sedimentree) (id : CommitId) : list CommitId :=
  match st_commits self !! id with
  | Some commit => btree_iter (lc_parents commit)
  | None => []
  end.

(** Enough iterations: one per root, one per parent pointer, one to stop. *)
Definition ancestors_fuel (self : Sedimentree) (n_roots : nat) : nat :=
  S (n_roots + pushes (ancestors_succ self) (dom (st_commits self))).

Definition ancestors_of (self : Sedimentree) (roots : gset CommitId) :
  option (gset CommitId) :=
  let queue := rev (hashset_iter roots) in
  fst <$> worklist id (fun _ u => u) (ancestors_succ self)
            (ancestors_fuel self (length queue)) queue ∅ tt.

Definition heads_assuming_minimal (self : Sedimentree) : list CommitId :=
  let referenced_ids : gset CommitId :=
    list_to_set (hash_values (st_commits self) ≫= fun c => btree_iter (lc_parents c)) in
  let '(referenced_ids, referenced_checkpoints) :=
    foldl (fun '(ids, cps) f => (ids ∪ fr_boundary f, cps ∪ fr_checkpoints f))
      (referenced_ids, ∅ : gset Checkpoint) (hash_values (st_fragments self)) in
  let heads : gset CommitId :=
    list_to_set
      (filter (fun id => id ∉ referenced_ids /\ Checkpoint_new id ∉ referenced_checkpoints)
         (hash_keys (st_fragments self) ++ hash_keys (st_commits self))) in
  hashset_iter heads.

Inductive CommitOrFragment : Type :=
| COF_Commit (c : LooseCommit)
| COF_Fragment (f : Fragment).

Definition into_items (self : Sedimentree) : list CommitOrFragment :=
  (COF_Fragment <$> hash_values (st_fragments self))
  ++ (COF_Commit <$> hash_values (st_commits self)).
End tree.

(** ** Invariant: the maps are keyed by causal identity *)

Record keyed (t : Sedimentree) : Prop := {
  keyed_fragments k f : st_fragments t !! k = Some f -> fr_head f = k;
  keyed_commits k c : st_commits t !! k = Some c -> lc_head c = k
}.

(** ** The tie-break as a join *)

Section tiebreak.
Context {V : Type} `{Blake3, Schema V, EncodeFields V}.
Implicit Types (e v w : V) (m : gmap CommitId V).

(** Of two values the one with the lower digest, the first on equality. *)
Definition tie e v : V :=
  if ord_ltb (Digest_hash v) (Digest_hash e) then v else e.

Definition tie_maps m1 m2 : gmap CommitId V :=
  union_with (fun e v => Some (tie e v)) m1 m2.

Lemma tie_idemp v : tie v v = v.
Proof. unfold tie. by destruct (ord_ltb _ _). Qed.

Lemma tie_assoc e v w : tie (tie e v) w = tie e (tie v w).
Proof.
  unfold tie, ord_ltb.
  destruct (decide (Digest_hash v ≺ Digest_hash e)) as [Hve|Hve],
    (decide (Digest_hash w ≺ Digest_hash v)) as [Hwv|Hwv].
  - rewrite (bool_decide_true _ Hve), !(bool_decide_true _ Hwv).
    rewrite bool_decide_true; [done|]. by trans (Digest_hash v).
  - by rewrite (bool_decide_true _ Hve), !(bool_decide_false _ Hwv),
      (bool_decide_true _ Hve).
  - by rewrite (bool_decide_false _ Hve), !(bool_decide_true _ Hwv).
  - rewrite (bool_decide_false _ Hve), !(bool_decide_false _ Hwv),
      (bool_decide_false _ Hve).
    rewrite bool_decide_false; [done|]. intros Hwe. apply Hwv.
    eapply ord_lt_le_trans; [done|]. by apply ord_not_lt.
Qed.

Lemma tie_comm e v :
  (Digest_hash e = Digest_hash v -> e = v) -> tie e v = tie v e.
Proof.
  intros Hinj. unfold tie, ord_ltb. repeat case_bool_decide; try done.
  - exfalso. apply (ord_lt_irrefl (Digest_hash e)). by trans (Digest_hash v).
  - apply Hinj. destruct (ord_lt_trichotomy (Digest_hash e) (Digest_hash v))
      as [|[|]]; naive_solver.
Qed.

Lemma tie_cases e v : tie e v = e \/ tie e v = v.
Proof. unfold tie. destruct (ord_ltb _ _); auto. Qed.

Lemma tie_le e v :
  Digest_hash (tie e v) ≼ Digest_hash e /\ Digest_hash (tie e v) ≼ Digest_hash v.
Proof.
  unfold tie, ord_ltb. case_bool_decide as Hlt.
  - split; [by destruct Hlt|apply ord_le_refl].
  - split; [apply ord_le_refl|by apply ord_not_lt].
Qed.

Lemma lookup_tie_maps m1 m2 k :
  tie_maps m1 m2 !! k =
  match m1 !! k, m2 !! k with
  | Some e, Some v => Some (tie e v)
  | Some e, None => Some e
  | None, o => o
  end.
Proof. unfold tie_maps. rewrite lookup_union_with. by destruct (m1 !! k), (m2 !! k). Qed.

Lemma insert_or_tiebreak_lookup m k v j :
  insert_or_tiebreak m k v !! j =
  if decide (j = k) then Some (match m !! k with Some e => tie e v | None => v end)
  else m !! j.
Proof.
  unfold insert_or_tiebreak, tie.
  case_decide as Hjk; [subst j|]; destruct (m !! k) as [e|] eqn:He;
    try destruct (ord_ltb _ _); by simplify_map_eq.
Qed.

(** Inserting after a join is joining after inserting. *)
Lemma insert_or_tiebreak_tie_maps m1 m2 k v :
  insert_or_tiebreak (tie_maps m1 m2) k v = tie_maps m1 (insert_or_tiebreak m2 k v).
Proof.
  apply map_eq. intros j.
  rewrite insert_or_tiebreak_lookup, !lookup_tie_maps, insert_or_tiebreak_lookup.
  case_decide as Hjk; [subst j|done].
  destruct (m1 !! k), (m2 !! k); try done. by rewrite tie_assoc.
Qed.

Lemma tie_maps_empty_r m : tie_maps m ∅ = m.
Proof.
  apply map_eq. intros k. rewrite lookup_tie_maps, lookup_empty. by destruct (m !! k).
Qed.

Lemma tie_maps_empty_l m : tie_maps ∅ m = m.
Proof. apply map_eq. intros k. by rewrite lookup_tie_maps, lookup_empty. Qed.

Lemma tie_maps_idemp m : tie_maps m m = m.
Proof.
  apply map_eq. intros k. rewrite lookup_tie_maps.
  destruct (m !! k); [by rewrite tie_idemp|done].
Qed.

Lemma tie_maps_assoc m1 m2 m3 :
  tie_maps (tie_maps m1 m2) m3 = tie_maps m1 (tie_maps m2 m3).
Proof.
  apply map_eq. intros k. rewrite !lookup_tie_maps.
  destruct (m1 !! k), (m2 !! k), (m3 !! k); try done. by rewrite tie_assoc.
Qed.

(** No two different values of [m1] and [m2] under one key share a digest. *)
Definition no_collision m1 m2 : Prop :=
  forall k e v, m1 !! k = Some e -> m2 !! k = Some v ->
    Digest_hash e = Digest_hash v -> e = v.

Lemma tie_maps_comm m1 m2 : no_collision m1 m2 -> tie_maps m1 m2 = tie_maps m2 m1.
Proof.
  intros Hc. apply map_eq. intros k. rewrite !lookup_tie_maps.
  destruct (m1 !! k) eqn:H1k, (m2 !! k) eqn:H2k; try done.
  f_equal. apply tie_comm. by apply (Hc k).
Qed.

(** Folding insertions over a list of items, each under the key [f] gives it. *)
Lemma foldl_insert_tie (f : V -> CommitId) m l :
  foldl (fun m v => insert_or_tiebreak m (f v) v) m l =
  tie_maps m (foldl (fun m v => insert_or_tiebreak m (f v) v) ∅ l).
Proof.
  induction l as [|v l IH] using rev_ind; [by rewrite tie_maps_empty_r|].
  by rewrite !foldl_app, IH; simpl; rewrite insert_or_tiebreak_tie_maps.
Qed.

(** Folding over the entries of a map, in any order, is the join with the map. *)
Lemma foldl_entries_tie m (l : list (CommitId * V)) :
  NoDup l.*1 ->
  foldl (fun m '(k, v) => insert_or_tiebreak m k v) m l = tie_maps m (list_to_map l).
Proof.
  revert m. induction l as [|[k v] l IH]; intros m Hnd; simpl.
  - by rewrite tie_maps_empty_r.
  - csimpl in Hnd. apply NoDup_cons in Hnd as [Hk Hnd]. rewrite IH by done.
    apply map_eq. intros j.
    rewrite !lookup_tie_maps, insert_or_tiebreak_lookup.
    destruct (decide (j = k)) as [->|Hjk].
    + rewrite lookup_insert_eq, (not_elem_of_list_to_map_1 l k Hk).
      by destruct (m !! k).
    + by rewrite lookup_insert_ne.
Qed.

Lemma foldl_hash_iter_tie `{HashIter} m1 m2 :
  foldl (fun m '(k, v) => insert_or_tiebreak m k v) m1 (hash_iter m2) = tie_maps m1 m2.
Proof.
  rewrite foldl_entries_tie by apply NoDup_hash_keys. f_equal.
  rewrite (list_to_map_proper _ (map_to_list m2)).
  - apply list_to_map_to_list.
  - apply NoDup_hash_keys.
  - apply hash_iter_perm.
Qed.

(** What a list of items leaves under a key: the first of the items for that key
    whose digest is least. *)
Lemma foldl_insert_lookup (f : V -> CommitId) l k :
  match foldl (fun m v => insert_or_tiebreak m (f v) v) ∅ l !! k with
  | Some v => v ∈ l /\ f v = k /\
      forall w, w ∈ l -> f w = k -> Digest_hash v ≼ Digest_hash w
  | None => forall w, w ∈ l -> f w <> k
  end.
Proof.
  induction l as [|x l IH] using rev_ind; [set_solver|].
  rewrite foldl_app. simpl. rewrite insert_or_tiebreak_lookup.
  destruct (decide (k = f x)) as [->|Hk].
  - destruct (_ !! f x) as [e|]; [|set_solver by eauto using ord_le_refl].
    destruct IH as (He & Hf & Hmin). pose proof (tie_le e x) as [Hle1 Hle2].
    split; [destruct (tie_cases e x) as [E|E]; rewrite E; set_solver|].
    split; [by destruct (tie_cases e x) as [E|E]; rewrite E|].
    intros w [Hw|Hw%list_elem_of_singleton]%elem_of_app Hfw; [|by subst w].
    trans (Digest_hash e); [done|]. by apply Hmin.
  - destruct (_ !! k) as [e|]; [|set_solver].
    destruct IH as (He & Hf & Hmin). set_solver.
Qed.
End tiebreak.

(** ** Construction and merging *)

Section trees.
Context `{HashIter, Blake3, Bijou64}.
Implicit Types t a b : Sedimentree.

Lemma Sedimentree_eq t t' :
  st_fragments t = st_fragments t' -> st_commits t = st_commits t' -> t = t'.
Proof. destruct t, t'. simpl. by intros -> ->. Qed.

(** The order in which [merge] visits the other tree does not matter. *)
Lemma merge_tie_maps a b :
  merge a b = MkSedimentree (tie_maps (st_fragments a) (st_fragments b))
                (tie_maps (st_commits a) (st_commits b)).
Proof. unfold merge. by rewrite !foldl_hash_iter_tie. Qed.

Definition trees_no_collision a b : Prop :=
  no_collision (st_fragments a) (st_fragments b) /\
  no_collision (st_commits a) (st_commits b).

(** C1: [merge] is a join: associative and idempotent always, and commutative
    when no two different items under one identity have the same digest. So
    replicas that merge the same trees in any order and grouping agree. *)
Theorem merge_semilattice (a b c : Sedimentree) :
  merge (merge a b) c = merge a (merge b c) /\
  merge a a = a /\
  (trees_no_collision a b -> merge a b = merge b a).
Proof.
  rewrite !merge_tie_maps. simpl. rewrite !tie_maps_assoc, !tie_maps_idemp.
  split; [done|]. split; [by destruct a|]. intros [Hf Hc].
  by rewrite (tie_maps_comm _ _ Hf), (tie_maps_comm _ _ Hc).
Qed.

(** Merging two trees built from items is building one tree from all the
    items. *)
Theorem merge_new (fs fs' : list Fragment) (cs cs' : list LooseCommit) :
  merge (Sedimentree_new fs cs) (Sedimentree_new fs' cs') =
  Sedimentree_new (fs ++ fs') (cs ++ cs').
Proof.
  rewrite merge_tie_maps. unfold Sedimentree_new. simpl.
  by rewrite !foldl_app, <- !foldl_insert_tie.
Qed.

(** [Sedimentree::new] keeps, for every identity, an item of the input with
    the least digest among those for that identity, and has no other entry. *)
Theorem Sedimentree_new_lookup (fs : list Fragment) (cs : list LooseCommit) k :
  match st_fragments (Sedimentree_new fs cs) !! k with
  | Some f => f ∈ fs /\ fr_head f = k /\
      forall g, g ∈ fs -> fr_head g = k -> Digest_hash f ≼ Digest_hash g
  | None => forall g, g ∈ fs -> fr_head g <> k
  end /\
  match st_commits (Sedimentree_new fs cs) !! k with
  | Some c => c ∈ cs /\ lc_head c = k /\
      forall d, d ∈ cs -> lc_head d = k -> Digest_hash c ≼ Digest_hash d
  | None => forall d, d ∈ cs -> lc_head d <> k
  end.
Proof. split; apply foldl_insert_lookup. Qed.

(** A list of items in which an identity and a digest determine the item. *)
Definition collision_free {V} `{Schema V, EncodeFields V} (f : V -> CommitId)
    (l : list V) : Prop :=
  forall x y, x ∈ l -> y ∈ l -> f x = f y -> Digest_hash x = Digest_hash y -> x = y.

Lemma foldl_insert_same_items {V} `{Schema V, EncodeFields V} (f : V -> CommitId) l l' :
  (forall x, x ∈ l <-> x ∈ l') -> collision_free f l ->
  foldl (fun m v => insert_or_tiebreak m (f v) v) ∅ l =
  foldl (fun m v => insert_or_tiebreak m (f v) v) ∅ l'.
Proof.
  intros Hl Hc. apply map_eq. intros k.
  pose proof (foldl_insert_lookup f l k) as Hl1.
  pose proof (foldl_insert_lookup f l' k) as Hl2.
  destruct (foldl _ ∅ l !! k) as [v|], (foldl _ ∅ l' !! k) as [w|]; try done.
  - destruct Hl1 as (Hv & <- & Hvmin), Hl2 as (Hw & Hwk & Hwmin).
    f_equal. apply Hc; [done|by apply Hl|done|].
    apply (anti_symm ord_le); [apply Hvmin|apply Hwmin]; try done; by apply Hl.
  - destruct Hl1 as (Hv & Hvk & _). exfalso. apply (Hl2 v); [by apply Hl|done].
  - destruct Hl2 as (Hw & Hwk & _). exfalso. apply (Hl1 w); [by apply Hl|done].
Qed.

(** A tree is determined by its content: the order and the multiplicity of
    the items given to [Sedimentree::new] do not matter, digest collisions on one
    identity apart. *)
Theorem Sedimentree_new_content (fs fs' : list Fragment) (cs cs' : list LooseCommit) :
  (forall f, f ∈ fs <-> f ∈ fs') -> (forall c, c ∈ cs <-> c ∈ cs') ->
  collision_free fr_head fs -> collision_free lc_head cs ->
  Sedimentree_new fs cs = Sedimentree_new fs' cs'.
Proof.
  intros Hf Hc Hcf Hcc. unfold Sedimentree_new.
  by rewrite (foldl_insert_same_items fr_head fs fs' Hf Hcf),
    (foldl_insert_same_items lc_head cs cs' Hc Hcc).
Qed.

Lemma insert_or_tiebreak_keyed {V} `{Schema V, EncodeFields V} (f : V -> CommitId) m k v :
  (forall j w, m !! j = Some w -> f w = j) -> f v = k ->
  forall j w, insert_or_tiebreak m k v !! j = Some w -> f w = j.
Proof.
  intros Hm Hv j w. rewrite insert_or_tiebreak_lookup. case_decide as Hjk; [|apply Hm].
  subst j. intros [= <-]. destruct (m !! k) as [e|] eqn:He; [|done].
  destruct (tie_cases e v) as [E|E]; rewrite E; [by apply Hm|done].
Qed.

Lemma tie_maps_keyed {V} `{Schema V, EncodeFields V} (f : V -> CommitId) m1 m2 :
  (forall j w, m1 !! j = Some w -> f w = j) -> (forall j w, m2 !! j = Some w -> f w = j) ->
  forall j w, tie_maps m1 m2 !! j = Some w -> f w = j.
Proof.
  intros Hm1 Hm2 j w. rewrite lookup_tie_maps.
  destruct (m1 !! j) as [e|] eqn:E1, (m2 !! j) as [v|] eqn:E2; intros [= <-]; auto.
  destruct (tie_cases e v) as [E|E]; rewrite E; auto.
Qed.

(** [add_commit] and [add_fragment] insert with the same tie-break. *)
Lemma add_commit_eq t c :
  add_commit t c =
  (MkSedimentree (st_fragments t) (insert_or_tiebreak (st_commits t) (lc_head c) c),
   bool_decide (st_commits t !! lc_head c = None)).
Proof.
  unfold add_commit, insert_or_tiebreak.
  destruct (st_commits t !! lc_head c); [|done]. destruct (ord_ltb _ _); by destruct t.
Qed.

Lemma add_fragment_eq t f :
  add_fragment t f =
  (MkSedimentree (insert_or_tiebreak (st_fragments t) (fr_head f) f) (st_commits t),
   bool_decide (st_fragments t !! fr_head f = None)).
Proof.
  unfold add_fragment, insert_or_tiebreak.
  destruct (st_fragments t !! fr_head f); [|done]. destruct (ord_ltb _ _); by destruct t.
Qed.

Lemma keyed_empty : keyed Sedimentree_empty.
Proof. split; intros k x; simpl; by rewrite lookup_empty. Qed.

Lemma keyed_new fs cs : keyed (Sedimentree_new fs cs).
Proof.
  split; intros k x Hx; unfold Sedimentree_new in Hx; simpl in Hx.
  - pose proof (foldl_insert_lookup fr_head fs k) as Hl. rewrite Hx in Hl. by apply Hl.
  - pose proof (foldl_insert_lookup lc_head cs k) as Hl. rewrite Hx in Hl. by apply Hl.
Qed.

Lemma keyed_merge a b : keyed a -> keyed b -> keyed (merge a b).
Proof.
  intros [] []. rewrite merge_tie_maps. split; simpl; by apply tie_maps_keyed.
Qed.

Lemma keyed_add_commit a c : keyed a -> keyed (add_commit a c).1.
Proof.
  intros []. rewrite add_commit_eq. split; simpl; [done|].
  by apply insert_or_tiebreak_keyed.
Qed.

Lemma keyed_add_fragment a f : keyed a -> keyed (add_fragment a f).1.
Proof.
  intros []. rewrite add_fragment_eq. split; simpl; [|done].
  by apply insert_or_tiebreak_keyed.
Qed.

(** C34: Every map entry is stored under its own head: [new] establishes this, and
    [merge], [add_commit] and [add_fragment] preserve it. *)
Theorem keyed_preserved fs cs a b c f :
  keyed (Sedimentree_new fs cs) /\
  (keyed a -> keyed b -> keyed (merge a b)) /\
  (keyed a -> keyed (add_commit a c).1) /\
  (keyed a -> keyed (add_fragment a f).1).
Proof.
  split; [apply keyed_new|]. split; [apply keyed_merge|].
  split; [apply keyed_add_commit|apply keyed_add_fragment].
Qed.
End trees.

(** ** Differences, heads and ancestry *)

Section queries.
Context `{HashIter}.
Implicit Types t : Sedimentree.

Lemma elem_of_hash_keys_set {V} (m : gmap CommitId V) k :
  k ∈ (list_to_set (hash_keys m) : gset CommitId) <-> is_Some (m !! k).
Proof. by rewrite elem_of_list_to_set, elem_of_hash_keys. Qed.

Lemma elem_of_missing_values {V} (m m' : gmap CommitId V) v :
  v ∈ missing_values m (list_to_set (hash_keys m)) (list_to_set (hash_keys m')) <->
  exists k, m !! k = Some v /\ m' !! k = None.
Proof.
  unfold missing_values. rewrite list_elem_of_omap. split.
  - intros (k & [Hk Hin]%list_elem_of_filter & Hv). exists k. split; [done|].
    rewrite elem_of_hash_keys_set in Hk. by apply eq_None_not_Some.
  - intros (k & Hv & Hn). exists k. split; [|done].
    rewrite list_elem_of_filter, elem_of_hash_keys_set, elem_of_hashset_iter,
      elem_of_hash_keys_set, Hn. split; [by intros []|by exists v].
Qed.

Context `{Blake3, Bijou64}.

Lemma dom_tie_maps {V} `{Schema V, EncodeFields V} (m1 m2 : gmap CommitId V) :
  dom (tie_maps m1 m2) = dom m1 ∪ dom m2.
Proof.
  apply set_eq. intros k. rewrite elem_of_union, !elem_of_dom, lookup_tie_maps.
  destruct (m1 !! k), (m2 !! k); split; intros ?; eauto; try naive_solver.
Qed.

Lemma dom_foldl_insert {V} `{Schema V, EncodeFields V} (f : V -> CommitId) l :
  dom (foldl (fun m v => insert_or_tiebreak m (f v) v) ∅ l) =
  (list_to_set (f <$> l) : gset CommitId).
Proof.
  apply set_eq. intros k. rewrite elem_of_dom, elem_of_list_to_set, list_elem_of_fmap.
  pose proof (foldl_insert_lookup f l k) as Hl.
  destruct (foldl _ ∅ l !! k) as [v|].
  - destruct Hl as (Hv & Hk & _). split; eauto.
  - split; [by intros []|]. intros (w & -> & Hw). by destruct (Hl w).
Qed.

(** Both maps' identities, whichever side misses them. *)
Lemma dom_add_missing {V} `{Schema V, EncodeFields V} (f : V -> CommitId) m m' :
  (forall k v, m' !! k = Some v -> f v = k) ->
  dom (tie_maps m (foldl (fun m v => insert_or_tiebreak m (f v) v) ∅
         (missing_values m' (list_to_set (hash_keys m')) (list_to_set (hash_keys m))))) =
  dom m ∪ dom m'.
Proof.
  intros Hk. rewrite dom_tie_maps, dom_foldl_insert. apply set_eq. intros k.
  rewrite !elem_of_union, elem_of_list_to_set, list_elem_of_fmap, !elem_of_dom.
  split.
  - intros [|(v & -> & (j & Hj & Hn)%elem_of_missing_values)]; [by left|].
    right. rewrite (Hk _ _ Hj). by exists v.
  - intros [|[v Hv]]; [by left|]. destruct (m !! k) eqn:Hm; [left; by eexists|].
    right. exists v. split; [by rewrite (Hk _ _ Hv)|].
    apply elem_of_missing_values. by exists k.
Qed.

(** [diff] lists for each side exactly the items whose identity it lacks, and
    adding them to each side gives both the same identities, the union of the two. *)
Theorem diff_reconciles a b :
  keyed a -> keyed b ->
  let d := diff a b in
  let a' := merge a (Sedimentree_new (left_missing_fragments d) (left_missing_commits d)) in
  let b' := merge b (Sedimentree_new (right_missing_fragments d) (right_missing_commits d)) in
  (forall f, f ∈ left_missing_fragments d <->
     exists k, st_fragments b !! k = Some f /\ st_fragments a !! k = None) /\
  (forall c, c ∈ left_missing_commits d <->
     exists k, st_commits b !! k = Some c /\ st_commits a !! k = None) /\
  dom (st_fragments a') = dom (st_fragments a) ∪ dom (st_fragments b) /\
  dom (st_commits a') = dom (st_commits a) ∪ dom (st_commits b) /\
  dom (st_fragments a') = dom (st_fragments b') /\
  dom (st_commits a') = dom (st_commits b').
Proof.
  intros [Haf Hac] [Hbf Hbc] d a' b'.
  assert (Ha' : dom (st_fragments a') = dom (st_fragments a) ∪ dom (st_fragments b) /\
                dom (st_commits a') = dom (st_commits a) ∪ dom (st_commits b)).
  { unfold a'. rewrite merge_tie_maps. split; by apply dom_add_missing. }
  assert (Hb' : dom (st_fragments b') = dom (st_fragments b) ∪ dom (st_fragments a) /\
                dom (st_commits b') = dom (st_commits b) ∪ dom (st_commits a)).
  { unfold b'. rewrite merge_tie_maps. split; by apply dom_add_missing. }
  split; [intros; apply elem_of_missing_values|].
  split; [intros; apply elem_of_missing_values|].
  destruct Ha' as [-> ->], Hb' as [-> ->]. set_solver.
Qed.

(** An identity another item refers to: as a parent, in a boundary, or by its
    checkpoint. *)
Definition references t (id : CommitId) : Prop :=
  (exists k c, st_commits t !! k = Some c /\ id ∈ lc_parents c) \/
  (exists k f, st_fragments t !! k = Some f /\
     (id ∈ fr_boundary f \/ Checkpoint_new id ∈ fr_checkpoints f)).

Lemma foldl_references (l : list Fragment) ids cps ids' cps' :
  foldl (fun '(ids, cps) f => (ids ∪ fr_boundary f, cps ∪ fr_checkpoints f))
    (ids, cps) l = (ids', cps') ->
  (forall i, i ∈ ids' <-> i ∈ ids \/ exists f, f ∈ l /\ i ∈ fr_boundary f) /\
  (forall c, c ∈ cps' <-> c ∈ cps \/ exists f, f ∈ l /\ c ∈ fr_checkpoints f).
Proof.
  revert ids cps. induction l as [|f l IH]; intros ids cps Hl; simpl in Hl.
  - simplify_eq. set_solver.
  - destruct (IH _ _ Hl) as [Hi Hc]. split; intros x; rewrite ?Hi, ?Hc, elem_of_union;
      setoid_rewrite elem_of_cons; clear; naive_solver.
Qed.

(** The heads of a minimal tree are, each once, exactly the identities of its
    fragments and commits that nothing in the tree refers to. *)
Theorem heads_assuming_minimal_spec t :
  NoDup (heads_assuming_minimal t) /\
  forall id, id ∈ heads_assuming_minimal t <->
    (is_Some (st_fragments t !! id) \/ is_Some (st_commits t !! id)) /\
    ~ references t id.
Proof.
  unfold heads_assuming_minimal.
  destruct (foldl _ _ _) as [ids cps] eqn:Hf.
  apply foldl_references in Hf as [Hids Hcps].
  split; [rewrite hashset_iter_perm; apply NoDup_elements|].
  intros id. rewrite elem_of_hashset_iter, elem_of_list_to_set, list_elem_of_filter,
    elem_of_app, !elem_of_hash_keys, Hids, Hcps, elem_of_list_to_set, list_elem_of_bind.
  unfold references. setoid_rewrite elem_of_hash_values.
  setoid_rewrite elem_of_btree_iter. set_solver.
Qed.

(** The edge that [ancestors_of] follows. *)
Definition parent_edge t (x y : CommitId) : Prop :=
  exists c, st_commits t !! x = Some c /\ y ∈ lc_parents c.

Lemma elem_of_ancestors_succ t x y : y ∈ ancestors_succ t x <-> parent_edge t x y.
Proof.
  unfold ancestors_succ, parent_edge. destruct (st_commits t !! x) as [c|].
  - rewrite elem_of_btree_iter. naive_solver.
  - set_solver.
Qed.

Lemma leads_ancestors_succ t x y :
  leads id (ancestors_succ t) x y <-> parent_edge t x y.
Proof.
  unfold leads. setoid_rewrite elem_of_ancestors_succ. unfold Datatypes.id. naive_solver.
Qed.

Lemma rtc_iff {A} (R R' : relation A) x y :
  (forall a b, R a b <-> R' a b) -> rtc R x y <-> rtc R' x y.
Proof.
  intros HR. split; induction 1; [done|eapply rtc_l; [by apply HR|done]
    |done|eapply rtc_l; [by apply HR|done]].
Qed.

(** [ancestors_of] always ends, and its result is exactly the identities
    reachable from the roots through the parents recorded in the tree, whatever the
    order in which the roots are visited, also when the commits form a cycle. *)
Theorem ancestors_of_spec t (roots : gset CommitId) :
  exists s, ancestors_of t roots = Some s /\
    forall x, x ∈ s <-> exists r, r ∈ roots /\ rtc (parent_edge t) r x.
Proof.
  unfold ancestors_of.
  destruct (worklist_spec id (fun _ (u : unit) => u) (ancestors_succ t)
    (dom (st_commits t)) (ancestors_fuel t (length (rev (hashset_iter roots))))
    (rev (hashset_iter roots)) tt) as (order & -> & _ & Horder).
  - intros x _ Hx%not_elem_of_dom. unfold ancestors_succ. by rewrite Hx.
  - unfold ancestors_fuel. lia.
  - eexists. split; [reflexivity|]. intros x. simpl.
    rewrite elem_of_list_to_set, Horder.
    unfold reached. apply exist_proper. intros r.
    rewrite list_elem_of_In, <- in_rev, <- list_elem_of_In, elem_of_hashset_iter.
    by rewrite (rtc_iff _ _ _ _ (leads_ancestors_succ t)).
Qed.
End queries.

(** ** Concrete trees

    A checksum stands in for the hash function. *)

Definition blake3_sum : Blake3 := fun data =>
  array_pad 32 (to_be_bytes 8 (foldl (fun acc b => acc * 31 + Byte.to_N b + 1) 7 data)).

Definition sample_commit (head : byte) (parents : list byte) (blob : byte) : LooseCommit :=
  LooseCommit_new (array_pad 32 [x01]) (array_pad 32 [head])
    (list_to_set ((fun p => array_pad 32 [p]) <$> parents))
    (from_digest_size (array_pad 32 [blob]) 1).

Definition sample_fragment (head : byte) (boundary checkpoints : list byte) : Fragment :=
  Fragment_new (array_pad 32 [x01]) (array_pad 32 [x00; head])
    (list_to_set ((fun p => array_pad 32 [x00; p]) <$> boundary))
    ((fun p => array_pad 32 [p]) <$> checkpoints)
    (from_digest_size (array_pad 32 [head]) 1).

#[local] Existing Instance blake3_sum.
#[local] Existing Instance bijou_fixed8.
#[local] Existing Instance hash_iter_by_encoding.

Definition sample_left : Sedimentree :=
  Sedimentree_new [sample_fragment x09 [] [x0a]]
    [sample_commit x02 [x01] x05; sample_commit x03 [x02] x06].

Definition sample_right : Sedimentree :=
  Sedimentree_new [sample_fragment x08 [x09] []]
    [sample_commit x02 [x01] x07; sample_commit x04 [x02] x06].

(** The collision hypotheses are decidable. *)
Lemma no_collision_check {V} `{EqDecision V, Schema V, EncodeFields V}
    (m1 m2 : gmap CommitId V) :
  forallb (fun '(k, e) =>
    match m2 !! k with
    | Some v => negb (bool_decide (Digest_hash e = Digest_hash v)) || bool_decide (e = v)
    | None => true
    end) (map_to_list m1) = true ->
  no_collision m1 m2.
Proof.
  rewrite forallb_forall. intros Hall k e v He Hv Hd.
  specialize (Hall (k, e)). cbv beta iota in Hall. rewrite Hv in Hall.
  rewrite (bool_decide_true _ Hd) in Hall. simpl in Hall.
  eapply bool_decide_eq_true, Hall, list_elem_of_In. by apply elem_of_map_to_list.
Qed.

Lemma collision_free_check {V} `{EqDecision V, Schema V, EncodeFields V}
    (f : V -> CommitId) (l : list V) :
  forallb (fun x => forallb (fun y =>
    negb (bool_decide (f x = f y)) || negb (bool_decide (Digest_hash x = Digest_hash y))
    || bool_decide (x = y)) l) l = true ->
  collision_free f l.
Proof.
  rewrite forallb_forall. intros Hall x y Hx Hy Hf Hd.
  apply list_elem_of_In in Hx, Hy. specialize (Hall x Hx).
  rewrite forallb_forall in Hall. specialize (Hall y Hy).
  rewrite (bool_decide_true _ Hf), (bool_decide_true _ Hd) in Hall.
  by eapply bool_decide_eq_true.
Qed.

Lemma merge_semilattice_witness :
  trees_no_collision sample_left sample_right /\
  merge sample_left sample_right = merge sample_right sample_left.
Proof.
  assert (Hc : trees_no_collision sample_left sample_right).
  { split; apply no_collision_check; vm_compute; reflexivity. }
  split; [exact Hc|].
  exact (proj2 (proj2 (merge_semilattice sample_left sample_right sample_left)) Hc).
Defined.

Lemma Sedimentree_new_content_witness :
  Sedimentree_new [] [sample_commit x02 [x01] x05; sample_commit x02 [x01] x07] =
  Sedimentree_new [] [sample_commit x02 [x01] x07; sample_commit x02 [x01] x05;
                      sample_commit x02 [x01] x07].
Proof.
  apply Sedimentree_new_content; [set_solver|set_solver| |];
    apply collision_free_check; vm_compute; reflexivity.
Defined.

Lemma keyed_preserved_witness :
  keyed (merge (Sedimentree_new [] [sample_commit x02 [x01] x05]) Sedimentree_empty).
Proof.
  apply (keyed_preserved [] [] (Sedimentree_new [] [sample_commit x02 [x01] x05])
           Sedimentree_empty (sample_commit x02 [] x05) (sample_fragment x02 [] [])).
  - apply keyed_new.
  - apply keyed_empty.
Defined.

Lemma diff_reconciles_witness :
  dom (st_commits (merge sample_left
    (Sedimentree_new (left_missing_fragments (diff sample_left sample_right))
       (left_missing_commits (diff sample_left sample_right))))) =
  dom (st_commits sample_left) ∪ dom (st_commits sample_right).
Proof.
  apply (diff_reconciles sample_left sample_right); apply keyed_new.
Defined.
