(* ===== verification/CommitDag.v ===== *)
(** * The commit DAG behind minimisation

    [sedimentree_core/src/sedimentree/commit_dag.rs]: nodes and edges in vectors,
    the adjacency lists chained through edge indices, and [simplify], which
    decides which loose commits survive next to a set of fragments.

    An index out of range is a panic in the code ([expect]); here it is [None].
    [simplify_spec] shows that no panic happens and says which commits survive. *)

From Stdlib Require Import Strings.Byte NArith Lia.
From stdpp Require Import base gmap sorting strings list relations.
From S2P Require Import Prelude.
From S2P Require Import Codec.
From S2P Require Import Types.
From S2P Require Import LooseCommit.
From S2P Require Import Fragment.
From S2P Require Import Traversal.

(** [NodeIdx] and [EdgeIdx] are indices into the vectors. *)
Record Node : Type := MkNode {
  nd_id : CommitId;
  nd_parents : option nat;
  nd_children : option nat
}.

Record Edge : Type := MkEdge {
  ed_source : nat;
  ed_next : option nat
}.

Record CommitDag : Type := MkCommitDag {
  dag_nodes : list Node;
  dag_node_map : gmap CommitId nat;
  dag_edges : list Edge
}.

Definition set_parents (n : Node) (e : option nat) : Node :=
  MkNode (nd_id n) e (nd_children n).
Definition set_children (n : Node) (e : option nat) : Node :=
  MkNode (nd_id n) (nd_parents n) e.

Definition add_edge (dag : CommitDag) (source target : nat) : option CommitDag :=
  let parent_edge_idx := length (dag_edges dag) in
  target_node ← dag_nodes dag !! target;
  let prev_parent_head := nd_parents target_node in
  let nodes := <[target := set_parents target_node (Some parent_edge_idx)]> (dag_nodes dag) in
  let edges := dag_edges dag ++ [MkEdge source prev_parent_head] in
  let child_edge_idx := length edges in
  source_node ← nodes !! source;
  let prev_child_head := nd_children source_node in
  let nodes := <[source := set_children source_node (Some child_edge_idx)]> nodes in
  let edges := edges ++ [MkEdge target prev_child_head] in
  Some (MkCommitDag nodes (dag_node_map dag) edges).

(** The inner loop of [from_commits]: one edge per parent that is a node. *)
Definition add_parent_edges (dag : CommitDag) (child_idx : nat) (parents : list CommitId) :
  option CommitDag :=
  foldl (fun acc parent =>
      dag ← acc;
      match dag_node_map dag !! parent with
      | Some parent_idx => add_edge dag parent_idx child_idx
      | None => Some dag
      end) (Some dag) parents.

Definition from_commits (commits : list LooseCommit) : option CommitDag :=
  let nodes := (fun c => MkNode (lc_head c) None None) <$> commits in
  let node_map :=
    foldl (fun m '(idx, node) => <[nd_id node := idx]> m) (∅ : gmap CommitId nat)
      (imap pair nodes) in
  foldl (fun acc commit =>
      dag ← acc;
      child_idx ← dag_node_map dag !! lc_head commit;
      add_parent_edges dag child_idx (btree_iter (lc_parents commit)))
    (Some (MkCommitDag nodes node_map [])) commits.

(** [ParentsIter]: the chain from an edge on. Chains run towards smaller edge
    indices, so as many steps as there are edges suffice. *)
Fixpoint parents_iter (edges : list Edge) (fuel : nat) (edge : option nat) : list nat :=
  match fuel, edge with
  | S fuel', Some e =>
      match edges !! e with
      | Some ed => ed_source ed :: parents_iter edges fuel' (ed_next ed)
      | None => []
      end
  | _, _ => []
  end.

Definition parents (dag : CommitDag) (node : nat) : list nat :=
  parents_iter (dag_edges dag) (length (dag_edges dag))
    (dag_nodes dag !! node ≫= nd_parents).

Definition tips (dag : CommitDag) : list nat :=
  omap (fun '(idx, node) => match nd_children node with None => Some idx | Some _ => None end)
    (imap pair (dag_nodes dag)).

Definition node_id (dag : CommitDag) (idx : nat) : option CommitId :=
  nd_id <$> dag_nodes dag !! idx.

(** [tips.sort_by_key(|idx| nodes[idx].id)] *)
Definition sort_tips (dag : CommitDag) (ts : list nat) : option (list nat) :=
  keyed ← mapM (fun idx => i ← node_id dag idx; Some (i, idx)) ts;
  Some (sort_by_key fst keyed).*2.

Section simplify.
Context `{HashIter} (strategy : DepthMetric).

(** A commit at a boundary depth starts a range of its own. *)
Definition range_head (i : CommitId) (inherited : option CommitId) : option CommitId :=
  if is_boundary (strategy i) then Some i else inherited.

(** The state of the walk: the ranges of each commit, and the commits met outside
    any range. [None] after a panic. *)
Definition walk_state : Type := option (gmap CommitId (list CommitId) * gset CommitId).

Definition walk_norm (dag : CommitDag) (x : nat * option CommitId) : nat * option CommitId :=
  match node_id dag x.1 with
  | Some i => (x.1, range_head i x.2)
  | None => x
  end.

Definition walk_visit (dag : CommitDag) (x : nat * option CommitId) (s : walk_state) :
  walk_state :=
  i ← node_id dag x.1;
  '(commits_to_ranges, rangeless_commits) ← s;
  match x.2 with
  | Some head =>
      Some (<[i := default [] (commits_to_ranges !! i) ++ [head]]> commits_to_ranges,
            rangeless_commits)
  | None => Some (commits_to_ranges, {[ i ]} ∪ rangeless_commits)
  end.

Definition walk_succ (dag : CommitDag) (x : nat * option CommitId) :
  list (nat * option CommitId) :=
  (fun p => (p, x.2)) <$> parents dag x.1.

(** Enough steps: every tip, and every node once per range, each with at most as
    many pushes as there are edges. *)
Definition simplify_fuel (dag : CommitDag) : nat :=
  let n := length (dag_nodes dag) in
  S (n + (n * S n) * length (dag_edges dag)).

Definition simplify (dag : CommitDag) (fragments : list Fragment) :
  option (gset CommitId) :=
  sorted_tips ← sort_tips dag (tips dag);
  let stack := rev ((fun tip => (tip, None)) <$> sorted_tips) in
  '(_, s) ← worklist (walk_norm dag) (walk_visit dag) (walk_succ dag)
              (simplify_fuel dag) stack ∅ (Some (∅, ∅));
  '(commits_to_ranges, rangeless_commits) ← s;
  let '(covered_range_heads, covered_checkpoints) :=
    foldl (fun '(heads, cps) f => ({[ fr_head f ]} ∪ heads, cps ∪ fr_checkpoints f))
      (∅ : gset CommitId, ∅ : gset Checkpoint) fragments in
  Some (list_to_set
    (omap (fun '(commit, ranges) =>
        if forallb (fun r => bool_decide (r ∈ covered_range_heads)
                             || bool_decide (Checkpoint_new r ∈ covered_checkpoints)) ranges
        then None else Some commit) (hash_iter commits_to_ranges)
     ++ hashset_iter rangeless_commits)).
End simplify.

(** ** What survives, stated on the commits themselves *)

Section declarative.
Context (strategy : DepthMetric) (commits : list LooseCommit).

Definition present (x : CommitId) : Prop := exists c, c ∈ commits /\ lc_head c = x.

(** [p] is a parent of [x], and both are among the commits. *)
Definition commit_edge (x p : CommitId) : Prop :=
  exists c, c ∈ commits /\ lc_head c = x /\ p ∈ lc_parents c /\ present p.

Definition is_tip (x : CommitId) : Prop :=
  present x /\ forall y, ~ commit_edge y x.

(** [x] belongs to the range headed by [rh], or, for [None], is reached from a tip
    without meeting a boundary. *)
Inductive in_range : CommitId -> option CommitId -> Prop :=
| in_range_tip x : is_tip x -> in_range x (if is_boundary (strategy x) then Some x else None)
| in_range_parent x rh p :
    in_range x rh -> commit_edge x p ->
    in_range p (if is_boundary (strategy p) then Some p else rh).

(** A range whose commits are in some fragment's payload. *)
Definition covered (fragments : list Fragment) (h : CommitId) : Prop :=
  exists f, f ∈ fragments /\ (h = fr_head f \/ Checkpoint_new h ∈ fr_checkpoints f).

Definition survives (fragments : list Fragment) (x : CommitId) : Prop :=
  exists rh, in_range x rh /\
    match rh with Some h => ~ covered fragments h | None => True end.
End declarative.

(** ** Edge chains *)

(** [chain edges o l]: following [next] from [o] lists the sources [l], always
    towards smaller indices. *)
Inductive chain (edges : list Edge) : option nat -> list nat -> Prop :=
| chain_nil : chain edges None []
| chain_cons e ed l :
    edges !! e = Some ed -> (forall n, ed_next ed = Some n -> (n < e)%nat) ->
    chain edges (ed_next ed) l -> chain edges (Some e) (ed_source ed :: l).

Lemma chain_app edges k o l : chain edges o l -> chain (edges ++ k) o l.
Proof.
  induction 1 as [|e ed l He Hn _ IH]; constructor; auto.
  by apply lookup_app_l_Some.
Qed.

Lemma chain_length edges o l :
  chain edges o l -> forall b, (forall e, o = Some e -> (e < b)%nat) -> (length l <= b)%nat.
Proof.
  induction 1 as [|e ed l He Hn _ IH]; intros b Hb; simpl; [lia|].
  specialize (Hb e eq_refl). specialize (IH e Hn). lia.
Qed.

Lemma chain_bound edges e l : chain edges (Some e) l -> (e < length edges)%nat.
Proof. inversion 1; subst. by eapply lookup_lt_Some. Qed.

Lemma parents_iter_chain edges o l fuel :
  chain edges o l -> (length l <= fuel)%nat -> parents_iter edges fuel o = l.
Proof.
  intros Hc. revert fuel. induction Hc as [|e ed l He Hn _ IH]; intros fuel Hf.
  - by destruct fuel.
  - destruct fuel as [|fuel]; simpl in *; [lia|]. rewrite He. f_equal. apply IH. lia.
Qed.

(** ** The graph a [CommitDag] represents *)

(** Nodes carry the identities [ids]; [E p c] says [p] is a parent of [c]. *)
Record represents (ids : list CommitId) (nm : gmap CommitId nat)
    (E : nat -> nat -> Prop) (dag : CommitDag) : Prop := {
  rep_ids : nd_id <$> dag_nodes dag = ids;
  rep_map : dag_node_map dag = nm;
  rep_parents idx node : dag_nodes dag !! idx = Some node ->
    exists l, chain (dag_edges dag) (nd_parents node) l /\ forall p, p ∈ l <-> E p idx;
  rep_children idx node : dag_nodes dag !! idx = Some node ->
    nd_children node = None <-> forall c, ~ E idx c
}.

Lemma represents_proper ids nm (E E' : nat -> nat -> Prop) dag :
  (forall p c, E p c <-> E' p c) -> represents ids nm E dag -> represents ids nm E' dag.
Proof.
  intros HE [Hi Hm Hp Hc]. split; [done|done| |].
  - intros idx node Hn. destruct (Hp _ _ Hn) as (l & Hl & Hin).
    exists l. split; [done|]. intros p. by rewrite Hin.
  - intros idx node Hn. rewrite (Hc _ _ Hn). by setoid_rewrite HE.
Qed.

(** What [add_edge] does to the vectors. *)
Lemma add_edge_spec dag s t :
  (s < length (dag_nodes dag))%nat -> (t < length (dag_nodes dag))%nat ->
  exists dag' sn tn, add_edge dag s t = Some dag' /\
    dag_nodes dag !! s = Some sn /\ dag_nodes dag !! t = Some tn /\
    dag_node_map dag' = dag_node_map dag /\
    dag_edges dag' = dag_edges dag ++ [MkEdge s (nd_parents tn); MkEdge t (nd_children sn)] /\
    forall idx, dag_nodes dag' !! idx =
      (fun n => MkNode (nd_id n)
         (if decide (idx = t) then Some (length (dag_edges dag)) else nd_parents n)
         (if decide (idx = s) then Some (S (length (dag_edges dag))) else nd_children n))
      <$> dag_nodes dag !! idx.
Proof.
  intros Hs Ht. unfold add_edge.
  destruct (lookup_lt_is_Some_2 _ _ Ht) as [tn Htn], (lookup_lt_is_Some_2 _ _ Hs) as [sn Hsn].
  rewrite Htn. cbn [mbind option_bind].
  set (tn' := set_parents tn (Some (length (dag_edges dag)))).
  assert (Hsn' : exists sn', <[t := tn']> (dag_nodes dag) !! s = Some sn' /\
            nd_children sn' = nd_children sn /\ nd_id sn' = nd_id sn /\
            nd_parents sn' = (if decide (s = t) then Some (length (dag_edges dag))
                              else nd_parents sn)).
  { destruct (decide (s = t)) as [->|Hst].
    - rewrite list_lookup_insert_eq by done. simplify_eq. by eexists.
    - rewrite list_lookup_insert_ne by done. by eexists. }
  destruct Hsn' as (sn' & -> & Hch & Hid & Hpa). cbn [mbind option_bind].
  eexists _, sn, tn. split; [reflexivity|]. split; [done|]. split; [done|].
  split; [done|]. cbn [dag_edges dag_nodes]. split.
  { rewrite Hch, <- app_assoc. done. }
  intros idx. rewrite length_app. simpl. rewrite Nat.add_1_r.
  destruct (decide (idx = s)) as [->|His].
  - rewrite list_lookup_insert_eq by (rewrite length_insert; done).
    rewrite Hsn. simpl. unfold set_children. by rewrite Hid, Hpa.
  - rewrite list_lookup_insert_ne by done. destruct (decide (idx = t)) as [->|Hit].
    + rewrite list_lookup_insert_eq, Htn by done. done.
    + rewrite list_lookup_insert_ne by done. by destruct (dag_nodes dag !! idx) as [[]|].
Qed.

Lemma add_edge_represents ids nm E dag s t :
  represents ids nm E dag -> (s < length ids)%nat -> (t < length ids)%nat ->
  exists dag', add_edge dag s t = Some dag' /\
    represents ids nm (fun p c => (p = s /\ c = t) \/ E p c) dag'.
Proof.
  intros [Hi Hm Hp Hc] Hs Ht.
  assert (Hlen : length (dag_nodes dag) = length ids) by (by rewrite <- Hi, length_fmap).
  destruct (add_edge_spec dag s t) as (dag' & sn & tn & Hadd & Hsn & Htn & Hnm & He & Hn);
    [lia|lia|].
  exists dag'. split; [done|]. split; [| |intros idx node|intros idx node].
  - rewrite <- Hi. apply list_eq. intros idx. rewrite !list_lookup_fmap, Hn.
    by destruct (dag_nodes dag !! idx).
  - by rewrite Hnm.
  - rewrite Hn, He. intros (n & Hnode & ->)%fmap_Some. simpl.
    destruct (Hp _ _ Hnode) as (l & Hl & Hin). case_decide as Hit.
    + subst idx. simplify_eq. exists (s :: l). split.
      * eapply (chain_cons _ _ (MkEdge s (nd_parents tn))).
        -- by rewrite list_lookup_middle.
        -- intros e He'. simpl in He'. rewrite He' in Hl. by apply chain_bound in Hl.
        -- by apply chain_app.
      * intros p. rewrite elem_of_cons, Hin. naive_solver.
    + exists l. split; [by apply chain_app|]. intros p. rewrite Hin. naive_solver.
  - rewrite Hn. intros (n & Hnode & ->)%fmap_Some. simpl. case_decide as His.
    + subst idx. split; [done|]. intros Hno. destruct (Hno t). by left.
    + rewrite (Hc _ _ Hnode). naive_solver.
Qed.

Lemma add_parent_edges_represents ids nm E dag c ps :
  represents ids nm E dag -> (c < length ids)%nat ->
  (forall x i, nm !! x = Some i -> (i < length ids)%nat) ->
  exists dag', add_parent_edges dag c ps = Some dag' /\
    represents ids nm
      (fun p c' => E p c' \/ (c' = c /\ exists x, x ∈ ps /\ nm !! x = Some p)) dag'.
Proof.
  intros Hr Hc Hnm. unfold add_parent_edges. revert E dag Hr.
  induction ps as [|x ps IH]; intros E dag Hr; simpl.
  - exists dag. split; [done|]. eapply represents_proper; [|done]. set_solver.
  - rewrite (rep_map _ _ _ _ Hr). destruct (nm !! x) as [i|] eqn:Hx.
    + destruct (add_edge_represents _ _ _ _ i c Hr (Hnm _ _ Hx) Hc) as (dag1 & -> & Hr1).
      destruct (IH _ _ Hr1) as (dag' & -> & Hr'). exists dag'. split; [done|].
      eapply represents_proper; [|exact Hr']. intros p c'. simpl. set_solver.
    + destruct (IH _ _ Hr) as (dag' & -> & Hr'). exists dag'. split; [done|].
      eapply represents_proper; [|exact Hr']. intros p c'. simpl. set_solver.
Qed.

(** The index of each identity, when no identity comes twice. *)
Lemma node_map_spec (cs : list LooseCommit) :
  NoDup (lc_head <$> cs) ->
  forall x i,
    foldl (fun m '(idx, node) => <[nd_id node := idx]> m) (∅ : gmap CommitId nat)
      (imap pair ((fun c => MkNode (lc_head c) None None) <$> cs)) !! x = Some i <->
    (lc_head <$> cs) !! i = Some x.
Proof.
  intros Hnd x i. set (nodes := _ <$> cs).
  assert (Hids : nd_id <$> nodes = lc_head <$> cs)
    by (unfold nodes; by rewrite <- list_fmap_compose).
  rewrite <- Hids in *. by apply enumerate_map_spec.
Qed.

(** The edges that the commits describe, on indices. *)
Definition index_edge (cs : list LooseCommit) (p c : nat) : Prop :=
  exists cm x, cs !! c = Some cm /\ x ∈ lc_parents cm /\ (lc_head <$> cs) !! p = Some x.

Lemma foldl_commits_represents ids nm (l : list LooseCommit) E dag :
  represents ids nm E dag ->
  (forall x i, nm !! x = Some i -> (i < length ids)%nat) ->
  (forall cm, cm ∈ l -> is_Some (nm !! lc_head cm)) ->
  exists dag',
    foldl (fun acc commit =>
      dag ← acc;
      child_idx ← dag_node_map dag !! lc_head commit;
      add_parent_edges dag child_idx (btree_iter (lc_parents commit))) (Some dag) l
      = Some dag' /\
    represents ids nm
      (fun p c => E p c \/ exists cm x, cm ∈ l /\ nm !! lc_head cm = Some c /\
                    x ∈ lc_parents cm /\ nm !! x = Some p) dag'.
Proof.
  intros Hr Hnm Hl. revert E dag Hr Hl.
  induction l as [|cm l IH]; intros E dag Hr Hl.
  - exists dag. split; [done|]. eapply represents_proper; [|done]. set_solver.
  - destruct (Hl cm ltac:(set_solver)) as [c Hc].
    destruct (add_parent_edges_represents _ _ _ _ c (btree_iter (lc_parents cm)) Hr
                (Hnm _ _ Hc) Hnm) as (dag1 & Hd1 & Hr1).
    destruct (IH _ _ Hr1 ltac:(set_solver)) as (dag' & Hd' & Hr').
    exists dag'. split.
    + simpl. rewrite (rep_map _ _ _ _ Hr), Hc. simpl. by rewrite Hd1.
    + eapply represents_proper; [|exact Hr']. intros p c'. simpl.
      setoid_rewrite elem_of_btree_iter. setoid_rewrite elem_of_cons. naive_solver.
Qed.

Lemma from_commits_represents cs :
  NoDup (lc_head <$> cs) ->
  exists dag nm, from_commits cs = Some dag /\
    represents (lc_head <$> cs) nm (index_edge cs) dag.
Proof.
  intros Hnd. unfold from_commits.
  pose proof (node_map_spec cs Hnd) as Hspec.
  set (nm := foldl _ ∅ _) in *.
  set (dag0 := MkCommitDag _ nm []).
  assert (Hr0 : represents (lc_head <$> cs) nm (fun _ _ => False) dag0).
  { split; simpl.
    - by rewrite <- list_fmap_compose.
    - done.
    - intros idx node Hn. rewrite list_lookup_fmap in Hn.
      apply fmap_Some in Hn as (cm & _ & ->). exists []. split; [constructor|set_solver].
    - intros idx node Hn. rewrite list_lookup_fmap in Hn.
      apply fmap_Some in Hn as (cm & _ & ->). simpl. naive_solver. }
  destruct (foldl_commits_represents _ _ cs _ _ Hr0) as (dag & Hd & Hr).
  - intros x i Hx%Hspec. by apply lookup_lt_Some in Hx.
  - intros cm (i & Hi)%list_elem_of_lookup. exists i. apply Hspec.
    by rewrite list_lookup_fmap, Hi.
  - exists dag, nm. split; [done|]. eapply represents_proper; [|exact Hr].
    intros p c. unfold index_edge. split.
    + intros [[]|(cm & x & Hcm & Hc%Hspec & Hx & Hp%Hspec)]. exists cm, x.
      split; [|done]. apply list_elem_of_lookup in Hcm as [i Hi].
      assert (i = c) as ->; [|done].
      eapply (NoDup_lookup _ _ _ (lc_head cm) Hnd); [by rewrite list_lookup_fmap, Hi|done].
    + intros (cm & x & Hcm & Hx & Hp). right. exists cm, x.
      split; [by eapply list_elem_of_lookup_2|]. split; [|split; [done|by apply Hspec]].
      apply Hspec. by rewrite list_lookup_fmap, Hcm.
Qed.

(** ** Reading the graph back *)

Section reading.
Context (ids : list CommitId) (nm : gmap CommitId nat) (E : nat -> nat -> Prop).
Context (dag : CommitDag) (Hr : represents ids nm E dag).

Lemma rep_node_id idx : node_id dag idx = ids !! idx.
Proof. unfold node_id. by rewrite <- (rep_ids _ _ _ _ Hr), list_lookup_fmap. Qed.

Lemma rep_length : length (dag_nodes dag) = length ids.
Proof. by rewrite <- (rep_ids _ _ _ _ Hr), length_fmap. Qed.

Lemma elem_of_parents idx p :
  (idx < length ids)%nat -> p ∈ parents dag idx <-> E p idx.
Proof.
  intros Hi. rewrite <- rep_length in Hi.
  destruct (lookup_lt_is_Some_2 _ _ Hi) as [node Hn].
  destruct (rep_parents _ _ _ _ Hr _ _ Hn) as (l & Hl & Hin).
  unfold parents. rewrite Hn. simpl. rewrite (parents_iter_chain _ _ l); [apply Hin|done|].
  eapply chain_length; [done|]. intros e He. rewrite He in Hl. by eapply chain_bound.
Qed.

Lemma elem_of_tips idx :
  idx ∈ tips dag <-> (idx < length ids)%nat /\ forall c, ~ E idx c.
Proof.
  unfold tips. rewrite list_elem_of_omap, <- rep_length. split.
  - intros ([i node] & Hin & Hm).
    apply list_elem_of_lookup in Hin as (k & Hk).
    rewrite list_lookup_imap in Hk. apply fmap_Some in Hk as (n & Hn & [= -> ->]).
    destruct (nd_children n) eqn:Hc; [done|]. injection Hm as ->.
    split; [by eapply lookup_lt_Some|]. by eapply (rep_children _ _ _ _ Hr).
  - intros [Hi Hno]. destruct (lookup_lt_is_Some_2 _ _ Hi) as [node Hn].
    exists (idx, node). split.
    + apply list_elem_of_lookup. exists idx. by rewrite list_lookup_imap, Hn.
    + by rewrite (proj2 (rep_children _ _ _ _ Hr _ _ Hn) Hno).
Qed.
End reading.

Lemma length_parents_iter edges fuel o : (length (parents_iter edges fuel o) <= fuel)%nat.
Proof.
  revert o. induction fuel as [|f IH]; intros [e|]; simpl; try lia.
  destruct (edges !! e) as [ed|]; simpl; [|lia]. specialize (IH (ed_next ed)). lia.
Qed.

(** ** The walk of [simplify] *)

Section walk.
Context `{HashIter} (strategy : DepthMetric).
Context (cs : list LooseCommit) (Hnd : NoDup (lc_head <$> cs)).
Context (nm : gmap CommitId nat) (dag : CommitDag).
Context (Hr : represents (lc_head <$> cs) nm (index_edge cs) dag).
Notation ids := (lc_head <$> cs).

Lemma index_commit_edge p c xp xc :
  ids !! p = Some xp -> ids !! c = Some xc ->
  index_edge cs p c <-> commit_edge cs xc xp.
Proof.
  intros Hp Hc. pose proof Hc as Hc0. rewrite list_lookup_fmap in Hc0.
  apply fmap_Some in Hc0 as (cm & Hcm & ->). split.
  - intros (cm' & x & Hcm' & Hx & Hp'). simplify_eq. exists cm.
    split; [by eapply list_elem_of_lookup_2|]. split; [done|]. split; [done|].
    rewrite list_lookup_fmap in Hp. apply fmap_Some in Hp as (d & Hd & ->).
    exists d. split; [by eapply list_elem_of_lookup_2|done].
  - intros (cm' & Hcm' & Heq & Hx & _). exists cm, xp. split; [done|]. split; [|done].
    apply list_elem_of_lookup in Hcm' as [c' Hc'].
    assert (c' = c) as ->; [|by simplify_eq].
    eapply (NoDup_lookup _ _ _ (lc_head cm) Hnd); [|done].
    by rewrite list_lookup_fmap, Hc'; simpl; rewrite Heq.
Qed.

Lemma present_index x : present cs x <-> exists i, ids !! i = Some x.
Proof.
  unfold present. split.
  - intros (c & (i & Hi)%list_elem_of_lookup & <-). exists i. by rewrite list_lookup_fmap, Hi.
  - intros (i & Hi). rewrite list_lookup_fmap in Hi. apply fmap_Some in Hi as (c & Hc & ->).
    exists c. split; [by eapply list_elem_of_lookup_2|done].
Qed.

Lemma tip_index i x : ids !! i = Some x -> i ∈ tips dag <-> is_tip cs x.
Proof.
  intros Hi. rewrite (elem_of_tips _ _ _ _ Hr). unfold is_tip. split.
  - intros [_ Hno]. split; [apply present_index; eauto|].
    intros y Hy. pose proof Hy as (c & Hc & Hcy & _).
    destruct (proj1 (present_index y)) as [j Hj]; [by exists c|].
    apply (Hno j). by apply (index_commit_edge _ _ _ _ Hi Hj).
  - intros [_ Hno]. split; [by eapply lookup_lt_Some|].
    intros c Hc. pose proof Hc as (cm & z & Hcm & _).
    assert (Hj : ids !! c = Some (lc_head cm)) by (by rewrite list_lookup_fmap, Hcm).
    apply (Hno (lc_head cm)). by apply (index_commit_edge _ _ _ _ Hi Hj).
Qed.

Lemma walk_norm_at i x rh :
  ids !! i = Some x -> walk_norm strategy dag (i, rh) = (i, range_head strategy x rh).
Proof. intros Hi. unfold walk_norm. simpl. by rewrite (rep_node_id _ _ _ _ Hr), Hi. Qed.

Definition walk_inv (y : nat * option CommitId) : Prop :=
  exists x, ids !! y.1 = Some x /\ in_range strategy cs x y.2.

Lemma walk_inv_leads y z :
  walk_inv y -> leads (walk_norm strategy dag) (walk_succ dag) y z -> walk_inv z.
Proof.
  destruct y as [i rh]. intros (x & Hi & Hx) ([p rh'] & Hz & ->). simpl in *.
  apply list_elem_of_fmap in Hz as (p' & [= -> ->] & Hp).
  apply (elem_of_parents _ _ _ _ Hr) in Hp; [|by eapply lookup_lt_Some].
  pose proof Hp as (_ & xp & _ & _ & Hxp).
  rewrite (walk_norm_at _ _ _ Hxp). exists xp. split; [done|]. simpl.
  eapply in_range_parent; [done|]. by eapply index_commit_edge.
Qed.

(** The walk reaches a node with a range head exactly when the commit is in that
    range. *)
Lemma walk_reached stack y :
  (forall z, z ∈ stack <-> exists t, z = (t, None) /\ t ∈ tips dag) ->
  reached (walk_norm strategy dag) (walk_succ dag) stack y <-> walk_inv y.
Proof.
  intros Hst. split.
  - intros (r & (t & -> & Ht)%Hst & Hp).
    pose proof Ht as [Hlt _]%(elem_of_tips _ _ _ _ Hr).
    destruct (lookup_lt_is_Some_2 _ _ Hlt) as [x Hx].
    assert (Hinv : walk_inv (walk_norm strategy dag (t, None))).
    { rewrite (walk_norm_at _ _ _ Hx). exists x. split; [done|]. simpl.
      apply in_range_tip. by apply (tip_index t). }
    clear Ht. revert Hinv. induction Hp as [|a b c Hab _ IH]; intros Hinv; [done|].
    apply IH. by eapply walk_inv_leads.
  - destruct y as [i rh]. intros (x & Hi & Hx). simpl in *. revert i Hi.
    induction Hx as [x Htip|x rh p Hx IH Hedge]; intros i Hi.
    + exists (i, None). split; [apply Hst; exists i; split; [done|by apply (tip_index i x)]|].
      by rewrite (walk_norm_at _ _ _ Hi).
    + pose proof Hedge as (c & Hc & Hcx & _).
      destruct (proj1 (present_index x)) as [j Hj]; [by exists c|].
      destruct (IH j Hj) as (r & Hrs & Hp). exists r. split; [done|].
      eapply rtc_r; [exact Hp|]. exists (i, rh). split; [|by rewrite (walk_norm_at _ _ _ Hi)].
      apply list_elem_of_fmap. exists i. split; [done|].
      apply (elem_of_parents _ _ _ _ Hr); [by eapply lookup_lt_Some|].
      by apply (index_commit_edge _ _ _ _ Hi Hj).
Qed.

(** What the walk has recorded after visiting [order]. *)
Lemma walk_fold (order : list (nat * option CommitId)) :
  (forall y, y ∈ order -> walk_inv y) ->
  exists m s, foldl (fun s y => walk_visit dag y s) (Some (∅, ∅)) order = Some (m, s) /\
    (forall x h, h ∈ default [] (m !! x) <->
       exists i, (i, Some h) ∈ order /\ ids !! i = Some x) /\
    (forall x, m !! x <> Some []) /\
    (forall x, x ∈ s <-> exists i, (i, None) ∈ order /\ ids !! i = Some x).
Proof.
  induction order as [|[i rh] order IH] using rev_ind; intros Hinv.
  - exists ∅, ∅. split; [done|]. split; [set_solver|]. split; [|set_solver].
    intros x. by rewrite lookup_empty.
  - destruct IH as (m & s & Hf & Hm & Hne & Hs); [set_solver|].
    destruct (Hinv (i, rh)) as (x & Hi & _); [set_solver|]. simpl in Hi.
    rewrite foldl_app, Hf. simpl. unfold walk_visit. simpl.
    rewrite (rep_node_id _ _ _ _ Hr), Hi. simpl. destruct rh as [h|].
    + eexists _, _. split; [done|]. split; [|split; [|set_solver]].
      * intros z h'. destruct (decide (z = x)) as [->|Hzx].
        -- rewrite lookup_insert_eq. simpl. rewrite elem_of_app, Hm. set_solver.
        -- rewrite lookup_insert_ne by done. rewrite Hm. set_solver.
      * intros z. destruct (decide (z = x)) as [->|Hzx].
        -- rewrite lookup_insert_eq. intros [= Heq]. by destruct (default [] (m !! x)).
        -- by rewrite lookup_insert_ne.
    + eexists _, _. split; [done|]. split; [set_solver|]. split; [done|].
      intros z. rewrite elem_of_union, Hs. set_solver.
Qed.

Lemma sort_tips_spec (ts : list nat) :
  (forall i, i ∈ ts -> (i < length ids)%nat) ->
  exists ts', sort_tips dag ts = Some ts' /\ ts' ≡ₚ ts.
Proof.
  intros Hts. unfold sort_tips.
  assert (Hk : exists ks, mapM (fun idx => i ← node_id dag idx; Some (i, idx)) ts = Some ks
            /\ ks.*2 = ts).
  { clear -Hts Hr. induction ts as [|t ts IH]; [by exists []|]. simpl.
    destruct (lookup_lt_is_Some_2 ids t) as [x Hx]; [apply Hts; set_solver|].
    rewrite (rep_node_id _ _ _ _ Hr), Hx. simpl.
    destruct IH as (ks & -> & Hks); [set_solver|]. exists ((x, t) :: ks). csimpl.
    by rewrite Hks. }
  destruct Hk as (ks & -> & Hks). eexists. split; [reflexivity|].
  by rewrite sort_by_key_Permutation, Hks.
Qed.

(** The states the walk can be in: no more than the fuel allows for. *)
Definition walk_universe : gset (nat * option CommitId) :=
  list_to_set (list_prod (seq 0 (length ids)) (None :: (Some <$> ids))).

Lemma size_walk_universe : (size walk_universe <= length ids * S (length ids))%nat.
Proof.
  unfold walk_universe. etrans; [apply size_list_to_set_le|].
  rewrite length_prod, length_seq. cbn [length]. rewrite !length_fmap. lia.
Qed.

Lemma in_range_present x rh :
  in_range strategy cs x rh -> present cs x /\ forall h, rh = Some h -> present cs h.
Proof.
  induction 1 as [x [Hx _]|x rh p _ IH (c & _ & _ & _ & Hp)];
    destruct (is_boundary _); naive_solver.
Qed.

Lemma walk_inv_universe y : walk_inv y -> y ∈ walk_universe.
Proof.
  destruct y as [i rh]. intros (x & Hi & Hx). simpl in *.
  apply elem_of_list_to_set, list_elem_of_In, in_prod_iff. split.
  - apply in_seq. apply lookup_lt_Some in Hi. lia.
  - apply list_elem_of_In. destruct rh as [h|]; [|set_solver].
    apply in_range_present in Hx as [_ Hh].
    destruct (proj1 (present_index h) (Hh h eq_refl)) as [j Hj].
    right. apply list_elem_of_fmap. exists h. split; [done|].
    by eapply list_elem_of_lookup_2.
Qed.

Lemma length_tips : (length (tips dag) <= length ids)%nat.
Proof.
  unfold tips. rewrite <- (rep_length _ _ _ _ Hr), <- (length_imap pair (dag_nodes dag)).
  generalize (imap pair (dag_nodes dag)). intros l.
  induction l as [|[i n] l IH]; csimpl; [lia|]. destruct (nd_children n); simpl; lia.
Qed.

Lemma foldl_covered (fragments : list Fragment) (heads heads' : gset CommitId)
    (cps cps' : gset Checkpoint) :
  foldl (fun '(heads, cps) f => ({[ fr_head f ]} ∪ heads, cps ∪ fr_checkpoints f))
    (heads, cps) fragments = (heads', cps') ->
  (forall h, h ∈ heads' <-> h ∈ heads \/ exists f, f ∈ fragments /\ h = fr_head f) /\
  (forall c, c ∈ cps' <-> c ∈ cps \/ exists f, f ∈ fragments /\ c ∈ fr_checkpoints f).
Proof.
  revert heads cps. induction fragments as [|f l IH]; intros hs cps Hl; simpl in Hl.
  - simplify_eq. set_solver.
  - destruct (IH _ _ Hl) as [Hh Hc]. clear IH Hl. split; [clear Hc|clear Hh]; set_solver.
Qed.

Lemma elem_of_uncovered (m : gmap CommitId (list CommitId)) (cov : CommitId -> bool) x :
  (exists e, e ∈ hash_iter m /\
     (let '(c, ranges) := e in if forallb cov ranges then None else Some c) = Some x) <->
  exists h, h ∈ default [] (m !! x) /\ cov h = false.
Proof.
  split.
  - intros ([c ranges] & Hin%elem_of_hash_iter & Hc).
    destruct (forallb cov ranges) eqn:Hall; [done|]. simplify_eq. rewrite Hin. simpl.
    apply not_true_iff_false in Hall. rewrite forallb_forall in Hall.
    apply not_all_ex_not_list in Hall as (h & Hh & Hn). exists h.
    split; [done|by apply not_true_iff_false].
  - intros (h & Hh & Hn). destruct (m !! x) as [ranges|] eqn:Hm; [|set_solver].
    exists (x, ranges). split; [by apply elem_of_hash_iter|].
    destruct (forallb cov ranges) eqn:Hall; [|done].
    rewrite forallb_forall in Hall. rewrite Hall in Hn; [done|].
    by apply list_elem_of_In.
Qed.

Lemma order_in_range (order stack : list (nat * option CommitId)) x rh :
  (forall z, z ∈ stack <-> exists t, z = (t, None) /\ t ∈ tips dag) ->
  (forall y, y ∈ order <-> reached (walk_norm strategy dag) (walk_succ dag) stack y) ->
  (exists i, (i, rh) ∈ order /\ ids !! i = Some x) <-> in_range strategy cs x rh.
Proof.
  intros Hst Ho. split.
  - intros (i & Hi%Ho & Hx). apply (walk_reached stack) in Hi as (x' & Hx' & Hin); [|done].
    simpl in *. by simplify_eq.
  - intros Hx. destruct (in_range_present _ _ Hx) as [(i & Hi)%present_index _].
    exists i. split; [|done]. apply Ho, (walk_reached stack); [done|]. by exists x.
Qed.

Lemma simplify_run fragments :
  exists s, simplify strategy dag fragments = Some s /\
    forall x, x ∈ s <-> survives strategy cs fragments x.
Proof.
  unfold simplify.
  destruct (sort_tips_spec (tips dag)) as (ts & -> & Hts).
  { intros i Hi. by apply (elem_of_tips _ _ _ _ Hr) in Hi as [? _]. }
  cbn [mbind option_bind].
  set (stack := rev ((fun tip => (tip, None)) <$> ts)).
  assert (Hst : forall z, z ∈ stack <-> exists t, z = (t, None) /\ t ∈ tips dag).
  { intros z. unfold stack. rewrite list_elem_of_In, <- in_rev, <- list_elem_of_In,
      list_elem_of_fmap. by setoid_rewrite Hts. }
  destruct (worklist_spec (walk_norm strategy dag) (walk_visit dag) (walk_succ dag)
    walk_universe (simplify_fuel dag) stack (Some (∅, ∅))) as (order & -> & _ & Ho).
  { intros y Hy Hny. destruct Hny. apply walk_inv_universe. by apply (walk_reached stack). }
  { unfold stack, simplify_fuel. rewrite length_rev, length_fmap, Hts.
    pose proof length_tips as Ht. pose proof size_walk_universe as Hu.
    assert (Hb : forall y, (length (walk_succ dag y) <= length (dag_edges dag))%nat).
    { intros y. unfold walk_succ. rewrite length_fmap. apply length_parents_iter. }
    pose proof (pushes_le (walk_succ dag) walk_universe _ Hb) as Hp.
    rewrite (rep_length _ _ _ _ Hr). nia. }
  destruct (walk_fold order) as (m & rl & Hf & Hm & Hne & Hrl).
  { intros y Hy. apply (walk_reached stack); [done|]. by apply Ho. }
  cbn [mbind option_bind]. rewrite Hf. cbn [mbind option_bind].
  destruct (foldl _ _ fragments) as [heads cps] eqn:Hcov.
  apply foldl_covered in Hcov as [Hheads Hcps].
  eexists. split; [reflexivity|]. intros x.
  rewrite elem_of_list_to_set, elem_of_app, elem_of_hashset_iter, Hrl, list_elem_of_omap,
    elem_of_uncovered. setoid_rewrite Hm.
  setoid_rewrite (order_in_range order stack _ _ Hst Ho).
  assert (Hcov : forall h, bool_decide (h ∈ heads) || bool_decide (Checkpoint_new h ∈ cps)
                  = false <-> ~ covered fragments h).
  { intros h. rewrite orb_false_iff, !bool_decide_eq_false, Hheads, Hcps.
    unfold covered. set_solver. }
  setoid_rewrite Hcov. unfold survives. split.
  - intros [(h & Hin & Hn)|Hin]; [by exists (Some h)|by exists None].
  - intros ([h|] & Hin & Hn); [left; by exists h|by right].
Qed.
End walk.

(** C26: Building the commit graph and simplifying it never panics and always ends;
    a commit survives exactly when, on some path of parents from a tip, it is met
    before any boundary commit or below a boundary commit that no fragment covers
    by its head or a checkpoint. *)
Theorem simplify_spec `{HashIter} (strategy : DepthMetric) (cs : list LooseCommit)
    (fragments : list Fragment) :
  NoDup (lc_head <$> cs) ->
  exists dag s, from_commits cs = Some dag /\
    simplify strategy dag fragments = Some s /\
    forall x, x ∈ s <-> survives strategy cs fragments x.
Proof.
  intros Hnd. destruct (from_commits_represents cs Hnd) as (dag & nm & Hd & Hr).
  destruct (simplify_run strategy cs Hnd nm dag Hr fragments) as (s & Hs & Hx).
  exists dag, s. split; [done|]. by split.
Qed.

(** ** Properties of survival *)

Lemma in_range_mono m cs cs' x rh :
  (forall c, c ∈ cs <-> c ∈ cs') -> in_range m cs x rh -> in_range m cs' x rh.
Proof.
  intros Hcs.
  assert (Hp : forall y, present cs y <-> present cs' y) by (unfold present; set_solver).
  assert (He : forall y p, commit_edge cs y p <-> commit_edge cs' y p)
    by (intros y p; unfold commit_edge; setoid_rewrite Hcs; by setoid_rewrite Hp).
  induction 1 as [x Ht|x rh p _ IH Hxp].
  - apply in_range_tip. unfold is_tip in *. setoid_rewrite <- He. by rewrite <- Hp.
  - eapply in_range_parent; [done|]. by apply He.
Qed.

(** Survival depends on which commits and fragments there are, not on their order. *)
Lemma survives_proper m cs cs' fs fs' x :
  (forall c, c ∈ cs <-> c ∈ cs') -> (forall f, f ∈ fs <-> f ∈ fs') ->
  survives m cs fs x <-> survives m cs' fs' x.
Proof.
  intros Hcs Hfs.
  assert (Hc : forall h, covered fs h <-> covered fs' h)
    by (intros h; unfold covered; by setoid_rewrite Hfs).
  split; intros (rh & Hin & Hrh); exists rh.
  - split; [by eapply in_range_mono|]. destruct rh; [by rewrite <- Hc|done].
  - split; [by eapply in_range_mono; [intros c; symmetry; apply Hcs|]|].
    destruct rh; [by rewrite Hc|done].
Qed.

Lemma survives_present m cs fs x : survives m cs fs x -> present cs x.
Proof. intros (rh & Hin & _). by apply in_range_present in Hin as [? _]. Qed.

Section idempotent.
Context (m : DepthMetric) (cs cs' : list LooseCommit) (fs : list Fragment).
Context (rank : CommitId -> nat).
(** [cs'] are the survivors of [cs]. *)
Context (Hcs' : forall c, c ∈ cs' <-> c ∈ cs /\ survives m cs fs (lc_head c)).
(** No cycles among the survivors: a parent ranks below its child. *)
Context (Hrank : forall c p, c ∈ cs' -> p ∈ lc_parents c -> present cs' p ->
                   (rank p < rank (lc_head c))%nat).

Lemma survivor_present x : present cs' x <-> survives m cs fs x.
Proof.
  unfold present. split.
  - by intros (c & [_ Hs]%Hcs' & <-).
  - intros Hs. destruct (survives_present _ _ _ _ Hs) as (c & Hc & <-).
    exists c. split; [by apply Hcs'|done].
Qed.

Lemma survivor_edge x p :
  commit_edge cs x p -> survives m cs fs x -> survives m cs fs p -> commit_edge cs' x p.
Proof.
  intros (c & Hc & <- & Hp & _) Hx Hps. exists c.
  split; [by apply Hcs'|]. split; [done|]. split; [done|]. by apply survivor_present.
Qed.

Lemma survivor_edge_inv x p : commit_edge cs' x p -> commit_edge cs x p.
Proof.
  intros (c & [Hc _]%Hcs' & <- & Hp & Hpp). exists c. split; [done|]. split; [done|].
  split; [done|]. apply survivor_present in Hpp. by eapply survives_present.
Qed.

Lemma survivor_tip x : is_tip cs x -> survives m cs fs x -> is_tip cs' x.
Proof.
  intros [_ Hno] Hs. split; [by apply survivor_present|].
  intros y Hy%survivor_edge_inv. by apply (Hno y).
Qed.

(** Going up from a survivor ends at a tip of the survivors. *)
Lemma survivor_in_range x : present cs' x -> exists rh, in_range m cs' x rh.
Proof.
  set (top := S (max_list (rank ∘ lc_head <$> cs))).
  assert (Hind : forall n y, (top - rank y < n)%nat -> present cs' y ->
            exists rh, in_range m cs' y rh).
  { intros n. induction n as [|n IH]; intros y Hn Hy; [lia|].
    destruct (decide (Exists (fun c => y ∈ lc_parents c) cs')) as [Hex|Hno].
    - apply Exists_exists in Hex as (c & Hc & Hyc). pose proof Hc as [Hc0 _]%Hcs'.
      assert (Hedge : commit_edge cs' (lc_head c) y) by (by exists c).
      destruct (IH (lc_head c)) as [rh Hrh].
      + assert (rank y < rank (lc_head c))%nat by (by apply Hrank).
        assert (rank (lc_head c) <= max_list (rank ∘ lc_head <$> cs))%nat.
        { apply max_list_elem_of_le, list_elem_of_fmap. by exists c. }
        lia.
      + by exists c.
      + eexists. by eapply in_range_parent.
    - eexists. apply in_range_tip. split; [done|].
      intros z (c & Hc & _ & Hyc & _). apply Hno, Exists_exists. by exists c. }
  intros Hx. by apply (Hind (S (top - rank x))); [lia|].
Qed.

Lemma in_range_boundary cs0 x rh :
  in_range m cs0 x rh -> is_boundary (m x) = true -> rh = Some x.
Proof. intros Hx Hb. destruct Hx; by rewrite Hb. Qed.

Lemma survivor_in_range_same x rh :
  in_range m cs x rh -> (match rh with Some h => ~ covered fs h | None => True end) ->
  in_range m cs' x rh.
Proof.
  induction 1 as [x Htip|x rh p Hx IH Hedge]; intros Hgood.
  - apply in_range_tip, survivor_tip; [done|]. eexists. split; [by apply in_range_tip|done].
  - assert (Hp : survives m cs fs p) by (eexists; split; [by eapply in_range_parent|done]).
    destruct (is_boundary (m p)) eqn:Hb.
    + destruct (survivor_in_range p) as [rh' Hrh']; [by apply survivor_present|].
      by rewrite <- (in_range_boundary _ _ _ Hrh' Hb).
    + specialize (IH Hgood).
      replace rh with (if is_boundary (m p) then Some p else rh) by (by rewrite Hb).
      eapply in_range_parent; [done|]. apply survivor_edge; [done| |done]. by exists rh.
Qed.

(** Every survivor survives again among the survivors. *)
Lemma survives_again x : survives m cs fs x -> survives m cs' fs x.
Proof.
  intros (rh & Hx & Hgood). exists rh. split; [|done]. by apply survivor_in_range_same.
Qed.
End idempotent.

(** ** A small graph *)

(** A merge commit above a boundary commit, with one loose commit below. *)
Definition dag_commit (head : list byte) (parents : list (list byte)) : LooseCommit :=
  LooseCommit_new (array_pad 32 [x01]) (array_pad 32 head)
    (list_to_set ((fun p => array_pad 32 p) <$> parents))
    (from_digest_size (array_pad 32 head) 1).

Definition dag_commits : list LooseCommit :=
  [dag_commit [x05] [[x00; x04]; [x03]]; dag_commit [x00; x04] [[x03]]; dag_commit [x03] []].

Lemma simplify_spec_witness :
  let I := hash_iter_by_encoding in
  exists dag s, from_commits dag_commits = Some dag /\
    simplify CountLeadingZeroBytes dag [] = Some s /\
    survives CountLeadingZeroBytes dag_commits [] (array_pad 32 [x05]).
Proof.
  intros I.
  destruct (simplify_spec CountLeadingZeroBytes dag_commits []) as (dag & s & Hd & Hs & Hx).
  { apply (bool_decide_eq_true_1 (NoDup (lc_head <$> dag_commits))).
    vm_compute. reflexivity. }
  exists dag, s. split; [exact Hd|]. split; [exact Hs|]. apply Hx.
  assert (Hc : match from_commits dag_commits with
               | Some dag => match simplify CountLeadingZeroBytes dag [] with
                             | Some s => bool_decide (array_pad 32 [x05] ∈ s)
                             | None => false end
               | None => false end = true) by (vm_compute; reflexivity).
  rewrite Hd, Hs in Hc. exact (bool_decide_eq_true_1 _ Hc).
Defined.
