(* ===== verification/Minimize.v ===== *)
(** * Minimisation

    [sedimentree_core/src/sedimentree.rs]: [keep_sets] decides which fragments and
    loose commits survive, [minimize] rebuilds a tree from them and
    [minimize_in_place] drops the others; [heads] and [minimal_hash] work on the
    minimal tree. *)

From Stdlib Require Import Strings.Byte NArith Lia.
From stdpp Require Import base gmap sorting strings list relations.
From S2P Require Import Prelude.
From S2P Require Import Codec.
From S2P Require Import Types.
From S2P Require Import LooseCommit.
From S2P Require Import Fragment.
From S2P Require Import Traversal.
From S2P Require Import Sedimentree.
From S2P Require Import CommitDag.

Open Scope N_scope.

Record KeepSets : Type := {
  fragment_heads : gset CommitId;
  commit_heads : gset CommitId
}.

(** [b.cmp(a)]: the descending order of depths. *)
Definition depth_desc (a b : Depth) : Prop := b <= a.

#[export] Instance depth_desc_dec : RelDecision depth_desc := fun a b => N.le_dec b a.
#[export] Instance depth_desc_trans : Transitive depth_desc.
Proof. intros a b c. unfold depth_desc. lia. Qed.
#[export] Instance depth_desc_total : Total depth_desc.
Proof. intros a b. unfold depth_desc. lia. Qed.

Section minimize.
Context `{HashIter} (depth_metric : DepthMetric).

(** [by_depth.entry(fragment.depth(m)).or_default().push(fragment)] *)
Definition push_by_depth (by_depth : gmap Depth (list Fragment)) (fragment : Fragment) :
  gmap Depth (list Fragment) :=
  let d := fragment_depth depth_metric fragment in
  <[d := default [] (by_depth !! d) ++ [fragment]]> by_depth.

(** Is the fragment supported by one already kept at a strictly deeper level? *)
Definition dominated_by_deeper (kept : gmap Depth (list Fragment)) (depth : Depth)
    (fragment : Fragment) : bool :=
  existsb (fun '(d, peers) =>
      (depth <? d)
      && existsb (fun deeper => supports depth_metric deeper (fr_summary fragment)) peers)
    (hash_iter kept).

(** The inner loop: the fragments of one depth. *)
Definition keep_group (depth : Depth)
    (st : list Fragment * gmap Depth (list Fragment)) (group : list Fragment) :
  list Fragment * gmap Depth (list Fragment) :=
  foldl (fun '(minimized, kept) fragment =>
      if dominated_by_deeper kept depth fragment then (minimized, kept)
      else (minimized ++ [fragment],
            <[depth := default [] (kept !! depth) ++ [fragment]]> kept)) st group.

(** The body of the outer loop: one depth. *)
Definition keep_step (st : gmap Depth (list Fragment) * list Fragment
                           * gmap Depth (list Fragment)) (depth : Depth) :=
  let '(by_depth, minimized, kept) := st in
  match by_depth !! depth with
  | None => (by_depth, minimized, kept)
  | Some group =>
      let '(minimized, kept) := keep_group depth (minimized, kept) group in
      (delete depth by_depth, minimized, kept)
  end.

(** The outer loop: the depths, deepest first. *)
Definition keep_depths (depths : list Depth) (by_depth : gmap Depth (list Fragment)) :
  list Fragment :=
  let '(_, minimized, _) := foldl keep_step (by_depth, [], ∅) depths in minimized.

Definition minimized_fragments (self : Sedimentree) : list Fragment :=
  let sorted_frags := sort_by_key fr_head (hash_values (st_fragments self)) in
  let by_depth := foldl push_by_depth ∅ sorted_frags in
  let depths := merge_sort depth_desc (hash_keys by_depth) in
  keep_depths depths by_depth.

Definition keep_sets (self : Sedimentree) : option KeepSets :=
  let minimized := minimized_fragments self in
  dag ← from_commits (hash_values (st_commits self));
  commits ← simplify depth_metric dag minimized;
  Some {| fragment_heads := list_to_set (fr_head <$> minimized);
          commit_heads := commits |}.

Context `{Blake3, Bijou64}.

Definition minimize (self : Sedimentree) : option Sedimentree :=
  k ← keep_sets self;
  Some (Sedimentree_new
    (filter (fun f => fr_head f ∈ fragment_heads k) (hash_values (st_fragments self)))
    (filter (fun c => lc_head c ∈ commit_heads k) (hash_values (st_commits self)))).

Definition minimize_in_place (self : Sedimentree) : option Sedimentree :=
  k ← keep_sets self;
  Some (MkSedimentree
    (filter (fun '(head, _) => head ∈ fragment_heads k) (st_fragments self))
    (filter (fun '(head, _) => head ∈ commit_heads k) (st_commits self))).

Definition heads (self : Sedimentree) : option (list CommitId) :=
  heads_assuming_minimal <$> minimize self.

Definition has_fragment_starting_with (self : Sedimentree) (id : CommitId) : option bool :=
  hs ← heads self; Some (bool_decide (id ∈ hs)).

(** [h.update] several times and [finalize] hashes the concatenation. *)
Definition minimal_hash (self : Sedimentree) : option (array 32) :=
  minimal ← minimize self;
  let ids := sort_by_key (fun i : CommitId => i)
    ((hash_values (st_fragments minimal) ≫= fun s => fr_head s :: btree_iter (fr_boundary s))
     ++ (lc_head <$> hash_values (st_commits minimal))) in
  let checkpoints := sort_by_key (fun c : Checkpoint => c)
    (hash_values (st_fragments minimal) ≫= fun s => btree_iter (fr_checkpoints s)) in
  Some (blake3_hash (arrays_bytes ids ++ arrays_bytes checkpoints)).
End minimize.

(** ** What is kept *)

(** [K] is the set of fragments that survive among [fs]: those no strictly deeper
    survivor supports. *)
Definition keeps (m : DepthMetric) (fs K : Fragment -> Prop) : Prop :=
  forall f, K f <-> fs f /\
    ~ exists g, K g /\ fragment_depth m f < fragment_depth m g /\
        supports m g (fr_summary f) = true.

(** The equation has at most one solution when depths are bounded. *)
Lemma keeps_unique m fs K K' b :
  (forall f, fs f -> fragment_depth m f <= b) ->
  keeps m fs K -> keeps m fs K' -> forall f, K f <-> K' f.
Proof.
  intros Hb HK HK'.
  assert (Hind : forall (n : nat) f, b - fragment_depth m f < N.of_nat n -> fs f ->
            K f <-> K' f).
  { intros n. induction n as [|n IH]; intros f Hn Hf; [lia|].
    rewrite (HK f), (HK' f). apply and_iff_compat_l.
    assert (Hg : forall g, fs g -> fragment_depth m f < fragment_depth m g -> K g <-> K' g).
    { intros g Hg Hlt. apply IH; [|done]. pose proof (Hb g Hg). lia. }
    split; intros Hno (g & Hgk & Hlt & Hs); apply Hno; exists g; (split; [|done]).
    - apply (Hg g); [by apply HK'|done|done].
    - apply (Hg g); [by apply HK|done|done]. }
  intros f. split; intros Hk.
  - pose proof (proj1 (proj1 (HK f) Hk)) as Hf.
    apply (Hind (S (N.to_nat (b - fragment_depth m f))) f); [lia|done|done].
  - pose proof (proj1 (proj1 (HK' f) Hk)) as Hf.
    apply (Hind (S (N.to_nat (b - fragment_depth m f))) f); [lia|done|done].
Qed.

Section keep.
Context `{HashIter} (m : DepthMetric).
Notation depth := (fragment_depth m).

(** The map of kept fragments mirrors the list. *)
Definition kept_inv (minimized : list Fragment) (kept : gmap Depth (list Fragment)) : Prop :=
  forall d f, f ∈ default [] (kept !! d) <-> f ∈ minimized /\ depth f = d.

Definition dominated_in (K : list Fragment) (f : Fragment) : Prop :=
  exists g, g ∈ K /\ depth f < depth g /\ supports m g (fr_summary f) = true.

Lemma dominated_by_deeper_spec minimized kept f :
  kept_inv minimized kept ->
  dominated_by_deeper m kept (depth f) f = true <-> dominated_in minimized f.
Proof.
  intros Hinv. unfold dominated_by_deeper, dominated_in. rewrite existsb_exists. split.
  - intros ([d peers] & Hin & [Hd%N.ltb_lt Hex]%andb_prop).
    apply list_elem_of_In, elem_of_hash_iter in Hin.
    apply existsb_exists in Hex as (g & Hg & Hs). apply list_elem_of_In in Hg.
    destruct (proj1 (Hinv d g)) as [Hgm <-]; [by rewrite Hin|]. by exists g.
  - intros (g & Hg & Hlt & Hs).
    assert (Hgk : g ∈ default [] (kept !! depth g)) by (by apply Hinv).
    destruct (kept !! depth g) as [peers|] eqn:Hk; [|set_solver].
    exists (depth g, peers). split; [by apply list_elem_of_In, elem_of_hash_iter|].
    rewrite (proj2 (N.ltb_lt _ _) Hlt). simpl. apply existsb_exists.
    exists g. split; [by apply list_elem_of_In|done].
Qed.

(** One depth: the group's members that the list so far does not dominate are
    added; same-depth members do not affect one another. *)
Lemma keep_group_spec d group minimized kept :
  kept_inv minimized kept -> (forall f, f ∈ group -> depth f = d) ->
  exists minimized' kept', keep_group m d (minimized, kept) group = (minimized', kept') /\
    kept_inv minimized' kept' /\
    forall f, f ∈ minimized' <-> f ∈ minimized \/ (f ∈ group /\ ~ dominated_in minimized f).
Proof.
  intros Hinv Hd. unfold keep_group.
  assert (Hgen : forall min1 kept1, kept_inv min1 kept1 ->
    (forall f, depth f = d -> dominated_in min1 f <-> dominated_in minimized f) ->
    exists minimized' kept', foldl (fun '(minimized, kept) fragment =>
        if dominated_by_deeper m kept d fragment then (minimized, kept)
        else (minimized ++ [fragment],
              <[d := default [] (kept !! d) ++ [fragment]]> kept)) (min1, kept1) group
        = (minimized', kept') /\
      kept_inv minimized' kept' /\
      forall f, f ∈ minimized' <-> f ∈ min1 \/ (f ∈ group /\ ~ dominated_in minimized f)).
  { induction group as [|f group IH]; intros min1 kept1 Hinv1 Hdom.
    - exists min1, kept1. set_solver.
    - assert (Hf : depth f = d) by (apply Hd; set_solver). cbn [foldl].
      pose proof (dominated_by_deeper_spec min1 kept1 f Hinv1) as Hspec.
      rewrite Hf, (Hdom f Hf) in Hspec.
      destruct (dominated_by_deeper m kept1 d f) eqn:Hdf.
      + destruct (IH ltac:(set_solver) min1 kept1 Hinv1 Hdom) as (m' & k' & Hm & Hi & Hin).
        exists m', k'. split; [done|]. split; [done|]. intros g. rewrite Hin.
        assert (dominated_in minimized f) by (by apply Hspec). set_solver.
      + assert (Hnd : ~ dominated_in minimized f) by (intros ?%Hspec; done).
        destruct (IH ltac:(set_solver) (min1 ++ [f])
                    (<[d := default [] (kept1 !! d) ++ [f]]> kept1)) as (m' & k' & Hm & Hi & Hin).
        * intros d' g. destruct (decide (d' = d)) as [->|Hne].
          -- rewrite lookup_insert_eq. simpl. rewrite !elem_of_app, (Hinv1 d g). set_solver.
          -- rewrite lookup_insert_ne by done. rewrite (Hinv1 d' g), elem_of_app.
             set_solver.
        * intros g Hg. rewrite <- (Hdom g Hg). unfold dominated_in. split.
          -- intros (h & [Hh|Hh%list_elem_of_singleton]%elem_of_app & Hlt & Hs);
               [by exists h|subst h; lia].
          -- intros (h & Hh & ?). exists h. set_solver.
        * exists m', k'. split; [done|]. split; [done|]. intros g. rewrite Hin. set_solver. }
  apply Hgen; [done|]. intros f _. done.
Qed.

Lemma keep_depths_spec ds by_depth minimized kept :
  kept_inv minimized kept ->
  StronglySorted (fun a b => b < a) ds ->
  (forall f d, f ∈ minimized -> d ∈ ds -> d < depth f) ->
  (forall d f, d ∈ ds -> f ∈ default [] (by_depth !! d) -> depth f = d) ->
  exists by_depth' minimized' kept',
    foldl (keep_step m) (by_depth, minimized, kept) ds = (by_depth', minimized', kept') /\
    forall f, f ∈ minimized' <-> f ∈ minimized \/
      ((exists d, d ∈ ds /\ f ∈ default [] (by_depth !! d)) /\ ~ dominated_in minimized' f).
Proof.
  intros Hinv Hs. revert by_depth minimized kept Hinv.
  induction Hs as [|d ds Hs IH Hlt]; intros bd min kept Hinv Hmin Hbd.
  { exists bd, min, kept. set_solver. }
  rewrite Forall_forall in Hlt. cbn [foldl].
  set (group := default [] (bd !! d)).
  assert (Hstep : exists bd1 min1 kept1,
    keep_step m (bd, min, kept) d = (bd1, min1, kept1) /\ kept_inv min1 kept1 /\
    (forall d', d' ∈ ds -> bd1 !! d' = bd !! d') /\
    (forall f, f ∈ min1 <-> f ∈ min \/ (f ∈ group /\ ~ dominated_in min f))).
  { unfold keep_step, group. destruct (bd !! d) as [g|] eqn:Hg.
    - destruct (keep_group_spec d g min kept Hinv) as (min1 & kept1 & -> & Hi & Hin).
      { intros f Hf. apply (Hbd d f); [set_solver|]. by rewrite Hg. }
      exists (delete d bd), min1, kept1. split; [done|]. split; [done|]. split; [|done].
      intros d' Hd'. rewrite lookup_delete_ne; [done|]. intros <-.
      specialize (Hlt d Hd'). lia.
    - exists bd, min, kept. set_solver. }
  destruct Hstep as (bd1 & min1 & kept1 & -> & Hinv1 & Hbd1 & Hmin1).
  assert (Hgd : forall f, f ∈ group -> depth f = d) by (intros f Hf; apply (Hbd d f); set_solver).
  destruct (IH bd1 min1 kept1 Hinv1) as (bd' & min' & kept' & Hf & Hin).
  { intros f d' [Hf|[Hf _]]%Hmin1 Hd'; [apply Hmin; set_solver|].
    rewrite (Hgd f Hf). by apply Hlt. }
  { intros d' f Hd'. rewrite (Hbd1 d' Hd'). apply Hbd. set_solver. }
  exists bd', min', kept'. split; [exact Hf|].
  assert (Hdom : forall f, depth f = d -> dominated_in min f <-> dominated_in min' f).
  { intros f Hfd. unfold dominated_in. split.
    - intros (g & Hg & ?). exists g. split; [|done]. apply Hin. left. apply Hmin1. by left.
    - intros (g & [Hg1|[(d' & Hd' & Hgd') _]]%Hin & Hgt & Hgs).
      + apply Hmin1 in Hg1 as [Hg1|[Hg1 _]]; [by exists g|].
        rewrite (Hgd g Hg1) in Hgt. lia.
      + rewrite (Hbd1 d' Hd') in Hgd'. specialize (Hlt d' Hd').
        rewrite (Hbd d' g) in Hgt; [lia|set_solver|done]. }
  intros f. rewrite Hin, Hmin1. split.
  - intros [[Hf0|[Hf0 Hn]]|[(d' & Hd' & Hfd) Hn]].
    + by left.
    + right. split; [exists d; set_solver|]. by rewrite <- (Hdom f (Hgd f Hf0)).
    + right. split; [|done]. exists d'. rewrite <- (Hbd1 d' Hd'). set_solver.
  - intros [Hf0|[(d' & [->|Hd']%elem_of_cons & Hfd) Hn]]; [by left; left| |].
    + left. right. split; [done|]. by rewrite (Hdom f (Hgd f Hfd)).
    + right. split; [|done]. exists d'. by rewrite (Hbd1 d' Hd').
Qed.

Lemma push_by_depth_spec (l : list Fragment) d f :
  f ∈ default [] (foldl (push_by_depth m) ∅ l !! d) <-> f ∈ l /\ depth f = d.
Proof.
  induction l as [|g l IH] using rev_ind; [set_solver|].
  rewrite foldl_app. simpl. unfold push_by_depth at 1.
  destruct (decide (d = depth g)) as [->|Hne].
  - rewrite lookup_insert_eq. simpl. rewrite elem_of_app, IH, elem_of_app. set_solver.
  - rewrite lookup_insert_ne by done. rewrite IH, elem_of_app. set_solver.
Qed.

(** The fragments kept: the solution of the equation [keeps]. *)
Lemma minimized_fragments_keeps t :
  keeps m (fun f => exists k, st_fragments t !! k = Some f)
    (fun f => f ∈ minimized_fragments m t).
Proof.
  unfold minimized_fragments.
  set (l := sort_by_key fr_head (hash_values (st_fragments t))).
  set (bd := foldl (push_by_depth m) ∅ l).
  set (ds := merge_sort depth_desc (hash_keys bd)).
  assert (Hvalues : forall f, f ∈ l <-> exists k, st_fragments t !! k = Some f).
  { intros f. unfold l. by rewrite sort_by_key_Permutation, elem_of_hash_values. }
  assert (Hds : ds ≡ₚ hash_keys bd) by apply merge_sort_Permutation.
  assert (Hsorted : StronglySorted (fun a b => b < a) ds).
  { assert (Hnd : NoDup ds) by (rewrite Hds; apply NoDup_hash_keys).
    assert (Hss : StronglySorted depth_desc ds) by apply (StronglySorted_merge_sort _ _).
    clear -Hnd Hss. induction Hss as [|d ds Hss IH Hle]; constructor.
    - apply IH. by apply NoDup_cons in Hnd as [_ ?].
    - rewrite Forall_forall in *. intros d' Hd'. specialize (Hle d' Hd').
      apply NoDup_cons in Hnd as [Hd _]. unfold depth_desc in Hle.
      destruct (decide (d = d')) as [->|]; [done|lia]. }
  destruct (keep_depths_spec ds bd [] ∅) as (bd' & min & kept & Hf & Hin).
  - intros d f. rewrite lookup_empty. set_solver.
  - done.
  - set_solver.
  - intros d f _ [_ Hd]%push_by_depth_spec. done.
  - unfold keep_depths. rewrite Hf. intros f. rewrite Hin.
    assert (Hval : (exists d, d ∈ ds /\ f ∈ default [] (bd !! d)) <->
                   exists k, st_fragments t !! k = Some f).
    { unfold bd. setoid_rewrite push_by_depth_spec. split.
      - intros (d & _ & Hl & _). by apply Hvalues.
      - intros Hl%Hvalues. exists (depth f). split; [|done]. rewrite Hds.
        apply elem_of_hash_keys.
        assert (Hfd : f ∈ default [] (bd !! depth f)) by (by apply push_by_depth_spec).
        destruct (bd !! depth f); [eauto|set_solver]. }
    rewrite Hval. unfold dominated_in. set_solver.
Qed.
End keep.

(** ** The minimal tree *)

Section minimal.
Context `{HashIter}.
Implicit Types (m : DepthMetric) (t : Sedimentree).

Definition in_fragments t (f : Fragment) : Prop := exists k, st_fragments t !! k = Some f.

Lemma NoDup_commit_heads t : keyed t -> NoDup (lc_head <$> hash_values (st_commits t)).
Proof. intros [_ Hk]. by apply NoDup_hash_values_keys. Qed.

(** Minimisation neither panics nor runs forever, and computes the two sets. *)
Lemma keep_sets_spec m t :
  keyed t ->
  exists k, keep_sets m t = Some k /\
    fragment_heads k = list_to_set (fr_head <$> minimized_fragments m t) /\
    forall x, x ∈ commit_heads k <->
      survives m (hash_values (st_commits t)) (minimized_fragments m t) x.
Proof.
  intros Ht. unfold keep_sets.
  destruct (from_commits_represents _ (NoDup_commit_heads t Ht)) as (dag & nm & -> & Hr).
  cbn [mbind option_bind].
  destruct (simplify_run m _ (NoDup_commit_heads t Ht) nm dag Hr (minimized_fragments m t))
    as (s & -> & Hs). cbn [mbind option_bind]. eexists. split; [reflexivity|]. done.
Qed.

Context `{Blake3, Bijou64}.

(** Rebuilding a map from some of its own values, each under its own key. *)
Lemma rebuild_filter {V} `{Schema V, EncodeFields V} (f : V -> CommitId)
    (mp : gmap CommitId V) (P : CommitId -> Prop)
    `{forall v, Decision (P (f v))} `{forall kv : CommitId * V, Decision (let '(k, _) := kv in P k)} :
  (forall k v, mp !! k = Some v -> f v = k) ->
  foldl (fun mp v => insert_or_tiebreak mp (f v) v) ∅
    (filter (fun v => P (f v)) (hash_values mp)) =
  filter (fun '(k, _) => P k) mp.
Proof.
  intros Hk. apply map_eq. intros k.
  pose proof (foldl_insert_lookup f (filter (fun v => P (f v)) (hash_values mp)) k) as Hl.
  destruct (foldl _ ∅ _ !! k) as [v|].
  - destruct Hl as ([HP (k' & Hv)%elem_of_hash_values]%list_elem_of_filter & <- & _).
    symmetry. apply map_lookup_filter_Some. split; [|done].
    by rewrite (Hk _ _ Hv).
  - symmetry. apply map_lookup_filter_None. destruct (mp !! k) as [v|] eqn:Hv; [|by left].
    right. intros w [= <-] HP. apply (Hl v); [|by apply Hk].
    apply list_elem_of_filter. rewrite (Hk _ _ Hv). split; [done|].
    apply elem_of_hash_values. by exists k.
Qed.

Lemma minimize_filter m t k :
  keyed t -> keep_sets m t = Some k ->
  minimize m t = minimize_in_place m t.
Proof.
  intros [Hf Hc] Hk. unfold minimize, minimize_in_place. rewrite Hk.
  cbn [mbind option_bind]. unfold Sedimentree_new. do 2 f_equal.
  - by apply (rebuild_filter fr_head (st_fragments t) (fun h => h ∈ fragment_heads k)).
  - by apply (rebuild_filter lc_head (st_commits t) (fun h => h ∈ commit_heads k)).
Qed.

Lemma elem_of_fragment_heads m t k f :
  keyed t -> st_fragments t !! k = Some f ->
  k ∈ (list_to_set (fr_head <$> minimized_fragments m t) : gset CommitId) <->
  f ∈ minimized_fragments m t.
Proof.
  intros [Hkf _] Hf. rewrite elem_of_list_to_set, list_elem_of_fmap. split.
  - intros (g & -> & Hg). pose proof (proj1 (minimized_fragments_keeps m t g) Hg) as [[k Hk] _].
    pose proof (Hkf _ _ Hk) as <-. by simplify_eq.
  - intros Hin. exists f. split; [|done]. symmetry. by apply Hkf.
Qed.

(** The minimal tree, entry by entry. *)
Lemma minimize_entries m t :
  keyed t ->
  exists t', minimize m t = Some t' /\ minimize_in_place m t = Some t' /\
    (forall k f, st_fragments t' !! k = Some f <->
       st_fragments t !! k = Some f /\ f ∈ minimized_fragments m t) /\
    (forall k c, st_commits t' !! k = Some c <->
       st_commits t !! k = Some c /\
       survives m (hash_values (st_commits t)) (minimized_fragments m t) k).
Proof.
  intros Ht. destruct (keep_sets_spec m t Ht) as (k & Hk & Hfh & Hch).
  rewrite (minimize_filter m t k Ht Hk). unfold minimize_in_place. rewrite Hk.
  cbn [mbind option_bind]. eexists. split; [reflexivity|]. split; [reflexivity|]. split.
  - intros j f. cbn [st_fragments]. rewrite map_lookup_filter_Some, Hfh. split.
    + intros [Hj Hin]. split; [done|]. by apply (elem_of_fragment_heads m t j f Ht Hj).
    + intros [Hj Hin]. split; [done|]. by apply (elem_of_fragment_heads m t j f Ht Hj).
  - intros j c. cbn [st_commits]. by rewrite map_lookup_filter_Some, Hch.
Qed.

(** The list of kept fragments holds exactly the fragments of the minimal tree. *)
Lemma minimized_in_fragments m t t' :
  (forall k f, st_fragments t' !! k = Some f <->
     st_fragments t !! k = Some f /\ f ∈ minimized_fragments m t) ->
  forall f, f ∈ hash_values (st_fragments t') <-> f ∈ minimized_fragments m t.
Proof.
  intros Hf f. rewrite elem_of_hash_values. setoid_rewrite Hf. split; [naive_solver|].
  intros Hin. destruct (proj1 (minimized_fragments_keeps m t f) Hin) as [[k Hk] _].
  by exists k.
Qed.

(** C2: Minimisation always succeeds on a tree keyed by identity and drops entries
    only: a fragment is kept exactly when no strictly deeper kept fragment supports
    it, a commit exactly when it survives next to the kept fragments. *)
Theorem minimize_spec m t :
  keyed t ->
  exists t', minimize m t = Some t' /\ keyed t' /\
    (forall k f, st_fragments t' !! k = Some f -> st_fragments t !! k = Some f) /\
    keeps m (in_fragments t) (in_fragments t') /\
    (forall k c, st_commits t' !! k = Some c <->
       st_commits t !! k = Some c /\
       survives m (hash_values (st_commits t)) (hash_values (st_fragments t')) k).
Proof.
  intros Ht. destruct (minimize_entries m t Ht) as (t' & Hm & _ & Hf & Hc).
  pose proof (minimized_in_fragments m t t' Hf) as Hmf.
  exists t'. split; [done|]. split; [|split; [|split]].
  - destruct Ht as [Hkf Hkc]. split; intros k x Hx.
    + apply Hkf. by apply Hf in Hx as [? _].
    + apply Hkc. by apply Hc in Hx as [? _].
  - intros k f Hx. by apply Hf in Hx as [? _].
  - pose proof (minimized_fragments_keeps m t) as Hk.
    intros f. unfold in_fragments. setoid_rewrite <- elem_of_hash_values.
    setoid_rewrite Hmf. specialize (Hk f).
    rewrite Hk. setoid_rewrite elem_of_hash_values. done.
  - intros k c. rewrite Hc. apply and_iff_compat_l, survives_proper; [done|].
    intros f. symmetry. apply Hmf.
Qed.

(** [minimize_in_place] leaves exactly the tree [minimize] returns, as its
    documentation promises. *)
Theorem minimize_in_place_agrees m t :
  keyed t -> exists t', minimize m t = Some t' /\ minimize_in_place m t = Some t'.
Proof. intros Ht. destruct (minimize_entries m t Ht) as (t' & ? & ? & _). by exists t'. Qed.
End minimal.

(** ** Independence of the iteration order *)

Lemma depth_bound (m : DepthMetric) (t : Sedimentree) :
  exists b, forall f, in_fragments t f -> fragment_depth m f <= b.
Proof.
  set (ds := fragment_depth m <$> (map_to_list (st_fragments t)).*2).
  exists (foldr N.max 0 ds). intros f (k & Hk).
  assert (Hf : fragment_depth m f ∈ ds).
  { apply list_elem_of_fmap. exists f. split; [done|]. apply list_elem_of_fmap.
    exists (k, f). split; [done|]. by apply elem_of_map_to_list. }
  clear Hk. induction ds as [|d ds IH]; [set_solver|]. simpl.
  apply elem_of_cons in Hf as [->|Hf]; [lia|]. specialize (IH Hf). lia.
Qed.

Section order.
Context (o1 o2 : HashIter) `{Blake3, Bijou64}.
Implicit Types (m : DepthMetric) (t : Sedimentree).

Lemma hash_values_perm {V} (mp : gmap CommitId V) :
  @hash_values o1 _ _ _ _ mp ≡ₚ @hash_values o2 _ _ _ _ mp.
Proof. unfold hash_values. by rewrite !hash_iter_perm. Qed.

Lemma minimized_fragments_order m t f :
  f ∈ @minimized_fragments o1 m t <-> f ∈ @minimized_fragments o2 m t.
Proof.
  destruct (depth_bound m t) as [b Hb].
  by apply (keeps_unique m (in_fragments t)
    (fun f => f ∈ @minimized_fragments o1 m t) (fun f => f ∈ @minimized_fragments o2 m t) b);
    [|apply (@minimized_fragments_keeps o1)|apply (@minimized_fragments_keeps o2)].
Qed.

Lemma map_eq_Some {V} (m1 m2 : gmap CommitId V) :
  (forall k v, m1 !! k = Some v <-> m2 !! k = Some v) -> m1 = m2.
Proof. intros Hm. apply map_eq. intros k. apply option_eq. intros v. apply Hm. Qed.

Lemma minimize_order m t : keyed t -> @minimize o1 m _ _ t = @minimize o2 m _ _ t.
Proof.
  intros Ht.
  destruct (@minimize_entries o1 _ _ m t Ht) as (t1 & -> & _ & Hf1 & Hc1).
  destruct (@minimize_entries o2 _ _ m t Ht) as (t2 & -> & _ & Hf2 & Hc2).
  f_equal. apply Sedimentree_eq; apply map_eq_Some; intros k v.
  - by rewrite Hf1, Hf2, minimized_fragments_order.
  - rewrite Hc1, Hc2. apply and_iff_compat_l, survives_proper.
    + intros c. by rewrite hash_values_perm.
    + apply minimized_fragments_order.
Qed.

(** Two processes whose hash maps iterate in different orders compute the same
    minimal tree and the same [MinimalTreeHash] from equal trees. *)
Theorem minimize_deterministic m t :
  keyed t ->
  @minimize o1 m _ _ t = @minimize o2 m _ _ t /\
  @minimal_hash o1 m _ _ t = @minimal_hash o2 m _ _ t.
Proof.
  intros Ht. split; [by apply minimize_order|].
  unfold minimal_hash. rewrite (minimize_order m t Ht).
  destruct (@minimize o2 m _ _ t) as [t'|]; [|done]. cbn [mbind option_bind].
  do 3 f_equal; f_equal; apply sort_by_key_unique; try done.
  - by rewrite !hash_values_perm.
  - by rewrite hash_values_perm.
Qed.
End order.

(** ** Idempotence *)

(** The commits of the tree have no cycle. *)
Definition acyclic (t : Sedimentree) : Prop :=
  exists rank : CommitId -> nat, forall k c p,
    st_commits t !! k = Some c -> p ∈ lc_parents c -> is_Some (st_commits t !! p) ->
    (rank p < rank k)%nat.

Section idempotence.
Context `{HashIter, Blake3, Bijou64}.
Implicit Types (m : DepthMetric) (t : Sedimentree).

Lemma keeps_again m fs K : keeps m fs K -> keeps m K K.
Proof.
  intros HK f. split; [|by intros [? _]]. intros Hf. split; [done|].
  by apply HK in Hf as [_ ?].
Qed.

Lemma present_lookup t x :
  keyed t -> present (hash_values (st_commits t)) x <-> is_Some (st_commits t !! x).
Proof.
  intros [_ Hk]. unfold present. setoid_rewrite elem_of_hash_values. split.
  - intros (c & (k & Hc) & <-). rewrite (Hk _ _ Hc). by exists c.
  - intros [c Hc]. exists c. split; [by exists x|by apply Hk].
Qed.

Lemma minimize_keyed m t t' : keyed t -> minimize m t = Some t' -> keyed t'.
Proof.
  intros Ht Hm. destruct (minimize_entries m t Ht) as (t1 & Hm1 & _ & Hf & Hc).
  simplify_eq. destruct Ht as [Hkf Hkc]. split; intros k x Hx.
  - apply Hkf. by apply Hf in Hx as [? _].
  - apply Hkc. by apply Hc in Hx as [? _].
Qed.

Lemma minimize_acyclic m t t' : keyed t -> minimize m t = Some t' -> acyclic t -> acyclic t'.
Proof.
  intros Ht Hm [rank Hr]. destruct (minimize_entries m t Ht) as (t1 & Hm1 & _ & _ & Hc).
  simplify_eq. exists rank. intros k c p [Hk _]%Hc Hp [d [Hd _]%Hc]. by eapply Hr.
Qed.

(** The image of minimisation is minimal, if it has no cycle. *)
Lemma minimize_again m t t' :
  keyed t -> minimize m t = Some t' -> acyclic t' -> minimize m t' = Some t'.
Proof.
  intros Ht Hmt [rank Hrank]. pose proof (minimize_keyed _ _ _ Ht Hmt) as Ht'.
  destruct (minimize_entries m t Ht) as (t1 & Hm & _ & Hf & Hc). simplify_eq.
  pose proof (minimized_in_fragments m t t' Hf) as Hmf.
  destruct (minimize_entries m t' Ht') as (t2 & Hm' & _ & Hf' & Hc').
  rewrite Hm'. f_equal. destruct (depth_bound m t') as [b Hb].
  assert (HF : forall f, f ∈ minimized_fragments m t' <-> f ∈ minimized_fragments m t).
  { intros f. rewrite <- Hmf, elem_of_hash_values.
    apply (keeps_unique m (in_fragments t') (fun f => f ∈ minimized_fragments m t')
             (in_fragments t') b Hb); [apply minimized_fragments_keeps|].
    apply (keeps_again m (in_fragments t)). intros g. unfold in_fragments.
    setoid_rewrite <- elem_of_hash_values. setoid_rewrite Hmf.
    rewrite (minimized_fragments_keeps m t g). by setoid_rewrite elem_of_hash_values. }
  apply Sedimentree_eq; apply map_eq_Some; intros k v.
  - rewrite Hf', HF, Hf. naive_solver.
  - rewrite Hc'. split; [by intros [? _]|]. intros Hv. split; [done|].
    apply Hc in Hv as [Hv Hs].
    apply (survives_proper m (hash_values (st_commits t')) (hash_values (st_commits t'))
             (minimized_fragments m t) (minimized_fragments m t')); [done|by symmetry|].
    eapply (survives_again m (hash_values (st_commits t)) (hash_values (st_commits t'))
              _ rank); [| |done].
    + intros c. rewrite !elem_of_hash_values. setoid_rewrite Hc. split.
      * intros (j & Hj & Hsj). split; [by exists j|]. by rewrite (keyed_commits t Ht _ _ Hj).
      * intros [(j & Hj) Hsj]. exists j. split; [done|].
        by rewrite <- (keyed_commits t Ht _ _ Hj).
    + intros c p (j & Hj)%elem_of_hash_values Hp Hpp%present_lookup; [|done].
      rewrite (keyed_commits t' Ht' _ _ Hj). by eapply Hrank.
Qed.

(** Minimising a minimal tree changes nothing, when its commits have no
    cycle. *)
Theorem minimize_idempotent m t :
  keyed t -> acyclic t ->
  exists t', minimize m t = Some t' /\ minimize m t' = Some t'.
Proof.
  intros Ht Ha. destruct (minimize_entries m t Ht) as (t' & Hm & _).
  exists t'. split; [done|]. eapply minimize_again; [done|done|].
  by eapply minimize_acyclic.
Qed.
End idempotence.

(** ** Cycles *)

Lemma no_tip_no_range m cs x rh :
  (forall y, ~ is_tip cs y) -> ~ in_range m cs x rh.
Proof. intros Hno Hx. induction Hx as [x Ht|]; [by apply (Hno x)|done]. Qed.

(** Commits that form a cycle without a tip are dropped by minimisation even
    when there is no fragment at all: every path of the walk starts at a tip. *)
Theorem minimize_drops_tipless `{HashIter, Blake3, Bijou64} (m : DepthMetric)
    (t : Sedimentree) :
  keyed t -> (forall y, ~ is_tip (hash_values (st_commits t)) y) ->
  exists t', minimize m t = Some t' /\ st_commits t' = ∅.
Proof.
  intros Ht Hno. destruct (minimize_entries m t Ht) as (t' & Hm & _ & _ & Hc).
  exists t'. split; [done|]. apply map_eq_Some. intros k c. rewrite Hc, lookup_empty.
  split; [|done]. intros [_ (rh & Hin & _)]. by apply no_tip_no_range in Hin.
Qed.

(** ** Examples *)

#[local] Existing Instance blake3_sum.
#[local] Existing Instance bijou_fixed8.
#[local] Existing Instance hash_iter_by_encoding.

(** A deep fragment whose checkpoint covers a shallower one, a boundary commit and
    its parent inside the deep fragment, and a commit on top. *)
Definition sample_tree : Sedimentree :=
  Sedimentree_new
    [Fragment_new (array_pad 32 [x01]) (array_pad 32 [x00; x00; x05]) ∅
       [array_pad 32 [x00; x07]; array_pad 32 [x08]]
       (from_digest_size (array_pad 32 [x01]) 1);
     sample_fragment x07 [] []]
    [sample_commit x09 [x00] x05;
     LooseCommit_new (array_pad 32 [x01]) (array_pad 32 [x00; x07])
       {[ array_pad 32 [x08] ]} (from_digest_size (array_pad 32 [x06]) 1);
     sample_commit x08 [] x07].

Definition sample_minimal : option Sedimentree := minimize CountLeadingZeroBytes sample_tree.

Lemma sample_keyed : keyed sample_tree.
Proof. apply keyed_new. Qed.

Lemma minimize_spec_witness :
  (size (st_fragments sample_tree) = 2%nat /\ size (st_commits sample_tree) = 3%nat) /\
  (size ∘ st_fragments <$> sample_minimal = Some 1%nat /\
   size ∘ st_commits <$> sample_minimal = Some 1%nat) /\
  exists t', sample_minimal = Some t' /\ keyed t' /\
    keeps CountLeadingZeroBytes (in_fragments sample_tree) (in_fragments t').
Proof.
  split; [split; vm_compute; reflexivity|]. split; [split; vm_compute; reflexivity|].
  destruct (minimize_spec CountLeadingZeroBytes sample_tree sample_keyed)
    as (t' & Hm & Hk & _ & Hkeeps & _).
  exists t'. split; [exact Hm|]. split; [exact Hk|exact Hkeeps].
Defined.

Lemma minimize_in_place_agrees_witness :
  exists t', minimize CountLeadingZeroBytes sample_tree = Some t' /\
    minimize_in_place CountLeadingZeroBytes sample_tree = Some t'.
Proof. exact (minimize_in_place_agrees CountLeadingZeroBytes sample_tree sample_keyed). Defined.

Lemma minimize_deterministic_witness :
  @minimal_hash hash_iter_by_encoding CountLeadingZeroBytes _ _ sample_tree =
  @minimal_hash hash_iter_reversed CountLeadingZeroBytes _ _ sample_tree.
Proof.
  exact (proj2 (minimize_deterministic hash_iter_by_encoding hash_iter_reversed
                  CountLeadingZeroBytes sample_tree sample_keyed)).
Defined.

(** The first two bytes rank the example's commits. *)
Lemma sample_acyclic : acyclic sample_tree.
Proof.
  exists (fun i => match arr_list i with
                   | [] => 0%nat
                   | b :: _ => if bool_decide (b = x09) then 2%nat
                               else if bool_decide (b = x00) then 1%nat else 0%nat
                   end).
  intros k c p Hc Hp [d Hd].
  apply elem_of_map_to_list in Hc, Hd.
  assert (Hall : forallb (fun '(k, c) => forallb (fun '(p, _) =>
      negb (bool_decide (p ∈ lc_parents c)) ||
      ((match arr_list p with
        | [] => 0%nat
        | b :: _ => if bool_decide (b = x09) then 2%nat
                    else if bool_decide (b = x00) then 1%nat else 0%nat
        end) <? (match arr_list k with
        | [] => 0%nat
        | b :: _ => if bool_decide (b = x09) then 2%nat
                    else if bool_decide (b = x00) then 1%nat else 0%nat
        end))%nat) (map_to_list (st_commits sample_tree)))
      (map_to_list (st_commits sample_tree)) = true) by (vm_compute; reflexivity).
  rewrite forallb_forall in Hall. specialize (Hall (k, c)). simpl in Hall.
  rewrite forallb_forall in Hall.
  specialize (Hall (proj1 (list_elem_of_In _ _) Hc) (p, d)). simpl in Hall.
  specialize (Hall (proj1 (list_elem_of_In _ _) Hd)).
  rewrite (bool_decide_true _ Hp) in Hall. simpl in Hall. by apply Nat.ltb_lt in Hall.
Qed.

Lemma minimize_idempotent_witness :
  exists t', minimize CountLeadingZeroBytes sample_tree = Some t' /\
    minimize CountLeadingZeroBytes t' = Some t'.
Proof.
  exact (minimize_idempotent CountLeadingZeroBytes sample_tree sample_keyed sample_acyclic).
Defined.

(** Two commits that are each other's parent. *)
Definition cyclic_tree : Sedimentree :=
  Sedimentree_new [] [sample_commit x02 [x03] x05; sample_commit x03 [x02] x05].

Lemma cyclic_no_tip : forall y, ~ is_tip (hash_values (st_commits cyclic_tree)) y.
Proof.
  set (a := sample_commit x02 [x03] x05). set (b := sample_commit x03 [x02] x05).
  assert (Hab : lc_head a ∈ lc_parents b /\ lc_head b ∈ lc_parents a)
    by (split; eapply bool_decide_eq_true_1; vm_compute; reflexivity).
  assert (Hl : hash_values (st_commits cyclic_tree) = [a; b] \/
               hash_values (st_commits cyclic_tree) = [b; a])
    by (first [left; vm_compute; reflexivity|right; vm_compute; reflexivity]).
  generalize dependent (hash_values (st_commits cyclic_tree)). intros l Hl.
  clearbody a b. destruct Hab as [Hab Hba].
  assert (a ∈ l /\ b ∈ l /\ forall c, c ∈ l -> c = a \/ c = b) as (Ha & Hb & Hc)
    by (destruct Hl; subst l; set_solver).
  intros y [(c & Hcl & <-) Hno]. destruct (Hc c Hcl); subst c.
  - apply (Hno (lc_head b)). exists b. repeat split; [done|done|by exists a].
  - apply (Hno (lc_head a)). exists a. repeat split; [done|done|by exists b].
Qed.

Lemma minimize_drops_tipless_witness :
  size (st_commits cyclic_tree) = 2%nat /\
  exists t', minimize CountLeadingZeroBytes cyclic_tree = Some t' /\ st_commits t' = ∅.
Proof.
  split; [vm_compute; reflexivity|].
  exact (minimize_drops_tipless CountLeadingZeroBytes cyclic_tree
           (keyed_new _ _) cyclic_no_tip).
Defined.
