(* ===== verification/Minimized.v ===== *)
(** * The lazily minimised tree

    [sedimentree_core/src/sedimentree/minimized.rs]: a tree with a dirty flag.
    Mutations set the flag, [ensure_minimized] minimises at most once per batch of
    mutations. The theorem says the cache is transparent. *)

From Stdlib Require Import Strings.Byte NArith Lia.
From stdpp Require Import base gmap list relations.
From S2P Require Import Prelude.
From S2P Require Import Codec.
From S2P Require Import Types.
From S2P Require Import LooseCommit.
From S2P Require Import Fragment.
From S2P Require Import Traversal.
From S2P Require Import Sedimentree.
From S2P Require Import Minimize.

Record MinimizedSedimentree : Type := MkMinimized {
  ms_tree : Sedimentree;
  ms_dirty : bool
}.

Module Minimized.
Section ops.
Context `{HashIter, Blake3, Bijou64}.

Definition new (tree : Sedimentree) : MinimizedSedimentree := MkMinimized tree true.

Definition already_minimal (tree : Sedimentree) : MinimizedSedimentree :=
  MkMinimized tree false.

(** [Default::default] *)
Definition default : MinimizedSedimentree := MkMinimized Sedimentree_empty false.

Definition add_commit (self : MinimizedSedimentree) (commit : LooseCommit) :
  MinimizedSedimentree * bool :=
  let '(tree, added) := Sedimentree.add_commit (ms_tree self) commit in
  (MkMinimized tree true, added).

Definition add_fragment (self : MinimizedSedimentree) (fragment : Fragment) :
  MinimizedSedimentree * bool :=
  let '(tree, added) := Sedimentree.add_fragment (ms_tree self) fragment in
  (MkMinimized tree true, added).

Definition merge (self : MinimizedSedimentree) (other : Sedimentree) :
  MinimizedSedimentree :=
  MkMinimized (Sedimentree.merge (ms_tree self) other) true.

Definition ensure_minimized (depth_metric : DepthMetric) (self : MinimizedSedimentree) :
  option MinimizedSedimentree :=
  if ms_dirty self then
    tree ← minimize_in_place depth_metric (ms_tree self);
    Some (MkMinimized tree false)
  else Some self.

(** The new state and the tree the reference points to. *)
Definition minimized (depth_metric : DepthMetric) (self : MinimizedSedimentree) :
  option (MinimizedSedimentree * Sedimentree) :=
  self ← ensure_minimized depth_metric self;
  Some (self, ms_tree self).

Definition heads (depth_metric : DepthMetric) (self : MinimizedSedimentree) :
  option (MinimizedSedimentree * list CommitId) :=
  self ← ensure_minimized depth_metric self;
  Some (self, heads_assuming_minimal (ms_tree self)).
End ops.

Section transparency.
Context `{HashIter, Blake3, Bijou64} (m : DepthMetric).

(** How a value comes about ([already_minimal] is for trees that are minimal) and
    what its methods do to it. *)
Inductive init : MinimizedSedimentree -> Prop :=
| init_new t : keyed t -> init (new t)
| init_default : init default
| init_already t0 t :
    keyed t0 -> minimize m t0 = Some t -> init (already_minimal t).

Inductive step : MinimizedSedimentree -> MinimizedSedimentree -> Prop :=
| step_add_commit s c : step s (add_commit s c).1
| step_add_fragment s f : step s (add_fragment s f).1
| step_merge s o : keyed o -> step s (merge s o)
| step_ensure s s' : ensure_minimized m s = Some s' -> step s s'.

Definition reachable (s : MinimizedSedimentree) : Prop :=
  exists s0, init s0 /\ rtc step s0 s.

(** A clean tree is the result of a minimisation. *)
Record valid (s : MinimizedSedimentree) : Prop := {
  valid_keyed : keyed (ms_tree s);
  valid_clean : ms_dirty s = false ->
    exists t0, keyed t0 /\ minimize m t0 = Some (ms_tree s)
}.

Lemma minimize_empty : minimize m Sedimentree_empty = Some Sedimentree_empty.
Proof.
  destruct (minimize_entries m _ keyed_empty) as (t' & -> & _ & Hf & Hc). f_equal.
  apply Sedimentree_eq; apply map_eq_Some; intros k v; [rewrite Hf|rewrite Hc];
    simpl; rewrite lookup_empty; naive_solver.
Qed.

Lemma init_valid s : init s -> valid s.
Proof.
  intros [t Ht| |t0 t Ht Hm].
  - by split.
  - split; simpl; [apply keyed_empty|]. intros _. exists Sedimentree_empty.
    split; [apply keyed_empty|apply minimize_empty].
  - split; simpl; [by eapply minimize_keyed|]. intros _. by exists t0.
Qed.

Lemma ensure_minimized_spec s :
  keyed (ms_tree s) ->
  if ms_dirty s then
    exists t', minimize m (ms_tree s) = Some t' /\
      ensure_minimized m s = Some (MkMinimized t' false)
  else ensure_minimized m s = Some s.
Proof.
  intros Hk. unfold ensure_minimized. destruct (ms_dirty s); [|done].
  destruct (minimize_entries m _ Hk) as (t' & -> & -> & _). by exists t'.
Qed.

Lemma step_valid s s' : step s s' -> valid s -> valid s'.
Proof.
  intros [s0 c|s0 f|s0 o Ho|s0 s1 He] [Hk Hc].
  - unfold add_commit. pose proof (keyed_add_commit (ms_tree s0) c Hk) as Hk'.
    destruct (Sedimentree.add_commit (ms_tree s0) c). by split.
  - unfold add_fragment. pose proof (keyed_add_fragment (ms_tree s0) f Hk) as Hk'.
    destruct (Sedimentree.add_fragment (ms_tree s0) f). by split.
  - split; [by apply keyed_merge|done].
  - pose proof (ensure_minimized_spec s0 Hk) as Hs. destruct (ms_dirty s0) eqn:Hd.
    + destruct Hs as (t' & Hm & He'). simplify_eq. split; simpl.
      * by eapply minimize_keyed.
      * intros _. by exists (ms_tree s0).
    + simplify_eq. split; [done|]. intros _. by apply Hc.
Qed.

Lemma reachable_valid s : reachable s -> valid s.
Proof.
  intros (s0 & Hi%init_valid & Hs). induction Hs; [done|]. eauto using step_valid.
Qed.

(** C25: The dirty flag is transparent: after any history of additions, merges and
    queries, [minimized] and [heads] answer what minimising the current tree from
    scratch gives, provided its commits have no cycle. *)
Theorem lazy_minimization_transparent s :
  reachable s -> acyclic (ms_tree s) ->
  exists t', minimize m (ms_tree s) = Some t' /\
    minimized m s = Some (MkMinimized t' false, t') /\
    heads m s = Some (MkMinimized t' false, heads_assuming_minimal t').
Proof.
  intros [Hk Hc]%reachable_valid Ha. unfold minimized, heads.
  pose proof (ensure_minimized_spec s Hk) as Hs. destruct (ms_dirty s) eqn:Hd.
  - destruct Hs as (t' & Hm & ->). by exists t'.
  - rewrite Hs. destruct (Hc eq_refl) as (t0 & Hk0 & Hm0).
    exists (ms_tree s). split; [by eapply minimize_again|].
    destruct s as [t d]. simpl in *. by subst d.
Qed.
End transparency.

#[local] Existing Instance blake3_sum.
#[local] Existing Instance bijou_fixed8.
#[local] Existing Instance hash_iter_by_encoding.

Lemma lazy_minimization_transparent_witness :
  exists t', minimize CountLeadingZeroBytes sample_tree = Some t' /\
    minimized CountLeadingZeroBytes (new sample_tree) = Some (MkMinimized t' false, t').
Proof.
  destruct (lazy_minimization_transparent CountLeadingZeroBytes (new sample_tree))
    as (t' & Hm & Hmin & _).
  - exists (new sample_tree). split; [apply init_new, sample_keyed|reflexivity].
  - exact sample_acyclic.
  - exists t'. split; [exact Hm|exact Hmin].
Defined.
End Minimized.
