(* ===== verification/Fingerprints.v ===== *)
(** * Fingerprint reconciliation

    [sedimentree_core/src/sedimentree.rs]: the requestor of a sync sends keyed
    64-bit fingerprints of the identities it knows ([fingerprint_summarize],
    [fingerprint_resolver]); the responder compares them with its own tree
    ([diff_remote_fingerprints]), answers with the items the requestor lacks and
    echoes the fingerprints it lacks itself. *)

From Stdlib Require Import Strings.Byte NArith Lia.
From stdpp Require Import base gmap sorting strings list relations.
From S2P Require Import Prelude.
From S2P Require Import Codec.
From S2P Require Import Types.
From S2P Require Import LooseCommit.
From S2P Require Import Fragment.
From S2P Require Import Traversal.
From S2P Require Import Sedimentree.

Open Scope N_scope.

Record FingerprintSummary : Type := FingerprintSummary_new {
  fps_seed : FingerprintSeed;
  commit_fingerprints : gset Fingerprint;
  fragment_fingerprints : gset Fingerprint
}.

Record FingerprintDiff : Type := {
  local_only_fragments : list (CommitId * Fragment);
  local_only_commits : list (CommitId * LooseCommit);
  remote_only_commit_fingerprints : list Fingerprint;
  remote_only_fragment_fingerprints : list Fingerprint
}.

Record FingerprintResolver : Type := {
  fr_summary_of : FingerprintSummary;
  commit_fp_to_id : gmap Fingerprint CommitId;
  fragment_fp_to_id : gmap Fingerprint CommitId
}.

Definition resolve_commit (r : FingerprintResolver) (fp : Fingerprint) : option CommitId :=
  commit_fp_to_id r !! fp.

Definition resolve_fragment (r : FingerprintResolver) (fp : Fingerprint) : option CommitId :=
  fragment_fp_to_id r !! fp.

Section fingerprints.
Context `{HashIter, SipHash24}.

(** The loop that adds the heads and boundaries of the fragments, which appears in
    all three functions. *)
Definition add_fragment_coverage (seed : FingerprintSeed) (fps : gset Fingerprint)
    (fragments : list Fragment) : gset Fingerprint :=
  foldl (fun fps fragment =>
      foldl (fun fps boundary => {[ Fingerprint_new seed boundary ]} ∪ fps)
        ({[ Fingerprint_new seed (fr_head fragment) ]} ∪ fps)
        (btree_iter (fr_boundary fragment))) fps fragments.

Definition fingerprint_summarize (self : Sedimentree) (seed : FingerprintSeed) :
  FingerprintSummary :=
  let commit_fps : gset Fingerprint :=
    list_to_set ((fun c => Fingerprint_new seed (lc_head c)) <$> hash_values (st_commits self)) in
  let commit_fps := add_fragment_coverage seed commit_fps (hash_values (st_fragments self)) in
  let fragment_fps : gset Fingerprint :=
    list_to_set (Fingerprint_new seed <$> hash_keys (st_fragments self)) in
  FingerprintSummary_new seed commit_fps fragment_fps.

(** [iter.collect::<Map<_, _>>()]: a later entry replaces an earlier one. *)
Definition collect_map (l : list (Fingerprint * CommitId)) : gmap Fingerprint CommitId :=
  foldl (fun m '(fp, id) => <[fp := id]> m) ∅ l.

Definition fingerprint_resolver (self : Sedimentree) (seed : FingerprintSeed) :
  FingerprintResolver :=
  let commit_map := collect_map
    ((fun '(id, c) => (Fingerprint_new seed (lc_head c), id)) <$> hash_iter (st_commits self)) in
  let fragment_map := collect_map
    ((fun id => (Fingerprint_new seed id, id)) <$> hash_keys (st_fragments self)) in
  let commit_fps : gset Fingerprint := list_to_set (hash_keys commit_map) in
  let commit_fps := add_fragment_coverage seed commit_fps (hash_values (st_fragments self)) in
  let fragment_fps : gset Fingerprint := list_to_set (hash_keys fragment_map) in
  {| fr_summary_of := FingerprintSummary_new seed commit_fps fragment_fps;
     commit_fp_to_id := commit_map;
     fragment_fp_to_id := fragment_map |}.

(** Does the remote list the identity among its commit fingerprints? *)
Definition remote_knows (remote : FingerprintSummary) (i : CommitId) : bool :=
  bool_decide (Fingerprint_new (fps_seed remote) i ∈ commit_fingerprints remote).

(** What the coverage walk pushes at an identity: nothing at the horizon. *)
Definition coverage_succ (self : Sedimentree) (remote : FingerprintSummary)
    (fragment_roots : gset CommitId) (i : CommitId) : list CommitId :=
  let is_horizon := negb (bool_decide (i ∈ fragment_roots)) && remote_knows remote i in
  if is_horizon then []
  else match st_commits self !! i with
       | Some commit => btree_iter (lc_parents commit)
       | None => []
       end.

Definition coverage_fuel (self : Sedimentree) (n_roots : nat) : nat :=
  S (n_roots + pushes (ancestors_succ self) (dom (st_commits self))).

Definition fragment_roots_of (self : Sedimentree) (remote : FingerprintSummary) :
  gset CommitId :=
  list_to_set
    (filter (fun h => Fingerprint_new (fps_seed remote) h ∈ fragment_fingerprints remote)
      ((lc_head <$> hash_values (st_commits self))
       ++ (fr_head <$> hash_values (st_fragments self)))).

(** Fragment-aware ancestry pruning of the raw difference. *)
Definition prune_covered (self : Sedimentree) (remote : FingerprintSummary)
    (raw_only_commits : list (CommitId * LooseCommit)) :
  option (list (CommitId * LooseCommit)) :=
  let fragment_roots := fragment_roots_of self remote in
  if bool_decide (fragment_roots = ∅) then Some raw_only_commits
  else
    let stack := rev (hashset_iter fragment_roots) in
    '(covered, _) ← worklist id (fun _ u => u)
                      (coverage_succ self remote fragment_roots)
                      (coverage_fuel self (length stack)) stack ∅ tt;
    Some (filter (fun '(i, _) => i ∉ covered) raw_only_commits).

Definition diff_remote_fingerprints (self : Sedimentree) (remote : FingerprintSummary) :
  option FingerprintDiff :=
  let seed := fps_seed remote in
  let raw_only_commits :=
    filter (fun '(_, c) => Fingerprint_new seed (lc_head c) ∉ commit_fingerprints remote)
      (hash_iter (st_commits self)) in
  only_commits ← prune_covered self remote raw_only_commits;
  let only_fragments :=
    filter (fun '(i, _) => Fingerprint_new seed i ∉ fragment_fingerprints remote)
      (hash_iter (st_fragments self)) in
  let local_commit_fps : gset Fingerprint :=
    list_to_set ((fun c => Fingerprint_new seed (lc_head c)) <$> hash_values (st_commits self)) in
  let local_commit_fps :=
    add_fragment_coverage seed local_commit_fps (hash_values (st_fragments self)) in
  let local_fragment_fps : gset Fingerprint :=
    list_to_set (Fingerprint_new seed <$> hash_keys (st_fragments self)) in
  Some {| local_only_fragments := only_fragments;
          local_only_commits := only_commits;
          remote_only_commit_fingerprints :=
            filter (fun fp => fp ∉ local_commit_fps) (btree_iter (commit_fingerprints remote));
          remote_only_fragment_fingerprints :=
            filter (fun fp => fp ∉ local_fragment_fps)
              (btree_iter (fragment_fingerprints remote)) |}.
End fingerprints.

(** ** What is summarised *)

(** The identities a tree tells its peer it knows: its commits, and the heads and
    boundaries of its fragments. *)
Definition known (t : Sedimentree) (i : CommitId) : Prop :=
  (exists k c, st_commits t !! k = Some c /\ lc_head c = i) \/
  (exists k f, st_fragments t !! k = Some f /\ (fr_head f = i \/ i ∈ fr_boundary f)).

Section summaries.
Context `{HashIter, SipHash24}.
Implicit Types (t : Sedimentree) (seed : FingerprintSeed).

Lemma elem_of_add_boundary seed (l : list CommitId) (s : gset Fingerprint) fp :
  fp ∈ foldl (fun fps b => {[ Fingerprint_new seed b ]} ∪ fps) s l <->
  fp ∈ s \/ exists b, b ∈ l /\ fp = Fingerprint_new seed b.
Proof.
  revert s. induction l as [|b l IH]; intros s; simpl; [set_solver|].
  rewrite IH. set_solver.
Qed.

Lemma elem_of_add_fragment_coverage seed s (l : list Fragment) fp :
  fp ∈ add_fragment_coverage seed s l <->
  fp ∈ s \/ exists f i, f ∈ l /\ (fr_head f = i \/ i ∈ fr_boundary f) /\
              fp = Fingerprint_new seed i.
Proof.
  unfold add_fragment_coverage. revert s.
  induction l as [|f l IH]; intros s; simpl; [set_solver|].
  rewrite IH, elem_of_add_boundary. setoid_rewrite elem_of_btree_iter.
  rewrite elem_of_union, elem_of_singleton. setoid_rewrite elem_of_cons. naive_solver.
Qed.

Lemma elem_of_commit_fps seed t fp :
  fp ∈ add_fragment_coverage seed
         (list_to_set ((fun c => Fingerprint_new seed (lc_head c)) <$>
                         hash_values (st_commits t)))
         (hash_values (st_fragments t)) <->
  exists i, known t i /\ fp = Fingerprint_new seed i.
Proof.
  rewrite elem_of_add_fragment_coverage, elem_of_list_to_set, list_elem_of_fmap.
  setoid_rewrite elem_of_hash_values. unfold known. naive_solver.
Qed.

Lemma elem_of_fragment_fps seed t fp :
  fp ∈ (list_to_set (Fingerprint_new seed <$> hash_keys (st_fragments t)) : gset Fingerprint)
  <-> exists i, is_Some (st_fragments t !! i) /\ fp = Fingerprint_new seed i.
Proof.
  rewrite elem_of_list_to_set, list_elem_of_fmap. setoid_rewrite elem_of_hash_keys.
  naive_solver.
Qed.

Lemma collect_map_Some l fp i : collect_map l !! fp = Some i -> (fp, i) ∈ l.
Proof.
  unfold collect_map. induction l as [|[fp' i'] l IH] using rev_ind; [done|].
  rewrite foldl_app. simpl. destruct (decide (fp = fp')) as [->|Hne].
  - rewrite lookup_insert_eq. intros [= ->]. set_solver.
  - rewrite lookup_insert_ne by done. set_solver.
Qed.

Lemma collect_map_is_Some l fp :
  is_Some (collect_map l !! fp) <-> exists i, (fp, i) ∈ l.
Proof.
  split; [intros [i Hi]; exists i; by apply collect_map_Some|].
  unfold collect_map. induction l as [|[fp' i'] l IH] using rev_ind; [set_solver|].
  rewrite foldl_app. simpl. intros (i & [Hi|Hi]%elem_of_app).
  - destruct (decide (fp = fp')) as [->|Hne]; [rewrite lookup_insert_eq; eauto|].
    rewrite lookup_insert_ne by done. apply IH. by exists i.
  - apply list_elem_of_singleton in Hi. simplify_eq. rewrite lookup_insert_eq. eauto.
Qed.

(** The summary inside a resolver is the summary [fingerprint_summarize] computes,
    collisions of fingerprints included. *)
Lemma resolver_summary t seed :
  fr_summary_of (fingerprint_resolver t seed) = fingerprint_summarize t seed.
Proof.
  unfold fingerprint_resolver, fingerprint_summarize. simpl.
  assert (Hc : list_to_set (hash_keys (collect_map
      ((fun '(i, c) => (Fingerprint_new seed (lc_head c), i)) <$> hash_iter (st_commits t))))
    =@{gset Fingerprint}
    list_to_set ((fun c => Fingerprint_new seed (lc_head c)) <$> hash_values (st_commits t))).
  { apply set_eq. intros fp. rewrite !elem_of_list_to_set, elem_of_hash_keys,
      collect_map_is_Some. split.
    - intros (i & ([k c] & [= -> ->] & Hin%elem_of_hash_iter)%list_elem_of_fmap).
      apply list_elem_of_fmap. exists c. split; [done|]. apply elem_of_hash_values. eauto.
    - intros (c & -> & (k & Hk)%elem_of_hash_values)%list_elem_of_fmap.
      exists k. apply list_elem_of_fmap. exists (k, c). by rewrite elem_of_hash_iter. }
  assert (Hf : list_to_set (hash_keys (collect_map
      ((fun i => (Fingerprint_new seed i, i)) <$> hash_keys (st_fragments t))))
    =@{gset Fingerprint}
    list_to_set (Fingerprint_new seed <$> hash_keys (st_fragments t))).
  { apply set_eq. intros fp. rewrite !elem_of_list_to_set, elem_of_hash_keys,
      collect_map_is_Some. split.
    - intros (i & (j & [= -> ->] & Hj)%list_elem_of_fmap). apply list_elem_of_fmap. eauto.
    - intros (j & -> & Hj)%list_elem_of_fmap. exists j. apply list_elem_of_fmap. eauto. }
  by rewrite Hc, Hf.
Qed.

(** ** What the responder sends *)

Section diff.
Context (t : Sedimentree) (remote : FingerprintSummary).
Notation fp i := (Fingerprint_new (fps_seed remote) i).

(** Local heads that the remote has as the head of a fragment. *)
Definition coverage_root (i : CommitId) : Prop :=
  ((exists k c, st_commits t !! k = Some c /\ lc_head c = i) \/
   (exists k f, st_fragments t !! k = Some f /\ fr_head f = i)) /\
  fp i ∈ fragment_fingerprints remote.

(** The walk goes on to the parents except from an identity, other than a root, that
    the remote already lists. *)
Definition coverage_edge (x p : CommitId) : Prop :=
  (coverage_root x \/ fp x ∉ commit_fingerprints remote) /\ parent_edge t x p.

(** The ancestry the remote's fragments stand for. *)
Definition remote_covers (x : CommitId) : Prop :=
  exists r, coverage_root r /\ rtc coverage_edge r x.

Lemma elem_of_fragment_roots i : i ∈ fragment_roots_of t remote <-> coverage_root i.
Proof.
  unfold fragment_roots_of, coverage_root.
  rewrite elem_of_list_to_set, list_elem_of_filter, elem_of_app, !list_elem_of_fmap.
  setoid_rewrite elem_of_hash_values. naive_solver.
Qed.

Lemma leads_coverage_succ x y :
  leads id (coverage_succ t remote (fragment_roots_of t remote)) x y <-> coverage_edge x y.
Proof.
  unfold leads, coverage_edge, coverage_succ, Datatypes.id, parent_edge, remote_knows.
  rewrite <- elem_of_fragment_roots.
  destruct (bool_decide_reflect (x ∈ fragment_roots_of t remote)) as [Hr|Hr]; simpl.
  - destruct (st_commits t !! x) as [c|]; [|set_solver].
    setoid_rewrite elem_of_btree_iter. naive_solver.
  - case_bool_decide as Hk; [set_solver|]. destruct (st_commits t !! x) as [c|]; [|set_solver].
    setoid_rewrite elem_of_btree_iter. naive_solver.
Qed.

Lemma coverage_succ_le x :
  coverage_succ t remote (fragment_roots_of t remote) x = [] \/
  coverage_succ t remote (fragment_roots_of t remote) x = ancestors_succ t x.
Proof. unfold coverage_succ. destruct (_ && _); auto. Qed.

Lemma pushes_mono {A} `{Countable A} (s1 s2 : A -> list A) (u : gset A) :
  (forall x, s1 x = [] \/ s1 x = s2 x) -> (pushes s1 u <= pushes s2 u)%nat.
Proof.
  intros Hs. unfold pushes. generalize (elements u). intros l.
  induction l as [|x l IH]; csimpl; [lia|]. destruct (Hs x) as [-> | ->]; simpl; lia.
Qed.

Lemma coverage_walk :
  exists covered, worklist id (fun _ (u : unit) => u)
      (coverage_succ t remote (fragment_roots_of t remote))
      (coverage_fuel t (length (rev (hashset_iter (fragment_roots_of t remote)))))
      (rev (hashset_iter (fragment_roots_of t remote))) ∅ tt = Some (covered, tt) /\
    forall x, x ∈ covered <-> remote_covers x.
Proof.
  set (roots := fragment_roots_of t remote).
  destruct (worklist_spec id (fun _ (u : unit) => u) (coverage_succ t remote roots)
    (dom (st_commits t)) (coverage_fuel t (length (rev (hashset_iter roots))))
    (rev (hashset_iter roots)) tt) as (order & Hw & _ & Ho).
  - intros x _ Hx%not_elem_of_dom. unfold coverage_succ. rewrite Hx. by destruct (_ && _).
  - unfold coverage_fuel.
    pose proof (pushes_mono _ _ (dom (st_commits t)) coverage_succ_le) as Hp.
    fold roots in Hp. lia.
  - exists (list_to_set order). split.
    + rewrite Hw. do 2 f_equal. clear. by destruct (foldl _ tt order).
    + intros x. rewrite elem_of_list_to_set, Ho. unfold reached, remote_covers.
      apply exist_proper. intros r.
      rewrite list_elem_of_In, <- in_rev, <- list_elem_of_In, elem_of_hashset_iter.
      unfold roots. rewrite elem_of_fragment_roots.
      by rewrite (rtc_iff _ _ _ _ leads_coverage_succ).
Qed.
End diff.
End summaries.

Section reconcile.
Context `{HashIter, SipHash24}.
Implicit Types (t a b : Sedimentree) (seed : FingerprintSeed).

Lemma prune_covered_spec t remote raw :
  exists l, prune_covered t remote raw = Some l /\
    forall k c, (k, c) ∈ l <-> (k, c) ∈ raw /\ ~ remote_covers t remote k.
Proof.
  unfold prune_covered. case_bool_decide as Hroots.
  - exists raw. split; [done|]. intros k c. split; [|by intros [? _]]. intros Hk.
    split; [done|]. intros (r & Hr%elem_of_fragment_roots & _). set_solver.
  - destruct (coverage_walk t remote) as (cov & Hw & Hcov). cbv zeta. rewrite Hw.
    eexists. split; [reflexivity|]. intros k c.
    rewrite list_elem_of_filter, Hcov. naive_solver.
Qed.

(** The difference, entry by entry. *)
Lemma diff_remote_entries t remote :
  exists d, diff_remote_fingerprints t remote = Some d /\
    (forall k c, (k, c) ∈ local_only_commits d <->
       st_commits t !! k = Some c /\
       Fingerprint_new (fps_seed remote) (lc_head c) ∉ commit_fingerprints remote /\
       ~ remote_covers t remote k) /\
    (forall k f, (k, f) ∈ local_only_fragments d <->
       st_fragments t !! k = Some f /\
       Fingerprint_new (fps_seed remote) k ∉ fragment_fingerprints remote) /\
    (forall x, x ∈ remote_only_commit_fingerprints d <->
       x ∈ commit_fingerprints remote /\
       ~ exists i, known t i /\ x = Fingerprint_new (fps_seed remote) i) /\
    (forall x, x ∈ remote_only_fragment_fingerprints d <->
       x ∈ fragment_fingerprints remote /\
       ~ exists i, is_Some (st_fragments t !! i) /\ x = Fingerprint_new (fps_seed remote) i).
Proof.
  unfold diff_remote_fingerprints.
  set (raw := filter _ (hash_iter (st_commits t))).
  assert (Hraw : forall k c, (k, c) ∈ raw <-> st_commits t !! k = Some c /\
    Fingerprint_new (fps_seed remote) (lc_head c) ∉ commit_fingerprints remote).
  { intros k c. unfold raw. rewrite list_elem_of_filter, elem_of_hash_iter. naive_solver. }
  destruct (prune_covered_spec t remote raw) as (l & -> & Hl).
  cbn [mbind option_bind]. eexists. split; [reflexivity|].
  cbn [local_only_commits local_only_fragments remote_only_commit_fingerprints
       remote_only_fragment_fingerprints].
  split; [intros k c; rewrite Hl, Hraw; naive_solver|].
  split; [intros k f; rewrite list_elem_of_filter, elem_of_hash_iter; naive_solver|].
  split; intros x; rewrite list_elem_of_filter, elem_of_btree_iter.
  - rewrite elem_of_commit_fps. naive_solver.
  - rewrite elem_of_fragment_fps. naive_solver.
Qed.

(** C10: The responder's difference, for any summary, always computed: it sends the
    commits the remote does not list and that no fragment of the remote covers, and
    the fragments whose heads the remote does not list; it echoes the fingerprints
    that match nothing it knows. *)
Theorem diff_remote_spec t remote :
  exists d, diff_remote_fingerprints t remote = Some d /\
    (forall k c, (k, c) ∈ local_only_commits d <->
       st_commits t !! k = Some c /\
       Fingerprint_new (fps_seed remote) (lc_head c) ∉ commit_fingerprints remote /\
       ~ remote_covers t remote k) /\
    (forall k f, (k, f) ∈ local_only_fragments d <->
       st_fragments t !! k = Some f /\
       Fingerprint_new (fps_seed remote) k ∉ fragment_fingerprints remote) /\
    (forall x, x ∈ remote_only_commit_fingerprints d <->
       x ∈ commit_fingerprints remote /\
       ~ exists i, known t i /\ x = Fingerprint_new (fps_seed remote) i) /\
    (forall x, x ∈ remote_only_fragment_fingerprints d <->
       x ∈ fragment_fingerprints remote /\
       ~ exists i, is_Some (st_fragments t !! i) /\ x = Fingerprint_new (fps_seed remote) i).
Proof. apply diff_remote_entries. Qed.

(** Under this seed, the identities the two trees know have different
    fingerprints. *)
Definition fingerprints_distinct seed a b : Prop :=
  forall x y, known a x \/ known b x -> known a y \/ known b y ->
    Fingerprint_new seed x = Fingerprint_new seed y -> x = y.

Lemma known_fragment t i : keyed t -> is_Some (st_fragments t !! i) -> known t i.
Proof. intros [Hk _] [f Hf]. right. exists i, f. split; [done|]. left. by apply Hk. Qed.

Lemma known_commit t i : keyed t -> is_Some (st_commits t !! i) -> known t i.
Proof. intros [_ Hk] [c Hc]. left. exists i, c. split; [done|]. by apply Hk. Qed.

Lemma summarize_seed a seed : fps_seed (fingerprint_summarize a seed) = seed.
Proof. done. Qed.

Lemma known_fp seed a b x :
  fingerprints_distinct seed a b -> known b x ->
  Fingerprint_new seed x ∈ commit_fingerprints (fingerprint_summarize a seed) <-> known a x.
Proof.
  intros Hd Hx. unfold fingerprint_summarize. cbn [commit_fingerprints].
  rewrite elem_of_commit_fps. split; [|eauto].
  intros (i & Hi & Heq). by rewrite (Hd x i); [|right|left|].
Qed.

Lemma fragment_fp seed a b x :
  fingerprints_distinct seed a b -> keyed a -> known b x ->
  Fingerprint_new seed x ∈ fragment_fingerprints (fingerprint_summarize a seed) <->
  is_Some (st_fragments a !! x).
Proof.
  intros Hd Ha Hx. unfold fingerprint_summarize. cbn [fragment_fingerprints].
  rewrite elem_of_fragment_fps. split; [|eauto].
  intros (i & Hi & Heq). rewrite (Hd x i); [done|by right| |done].
  left. by apply known_fragment.
Qed.

Lemma elem_of_commit_entries seed a x j :
  keyed a ->
  (x, j) ∈ ((fun '(i, c) => (Fingerprint_new seed (lc_head c), i)) <$> hash_iter (st_commits a))
  <-> is_Some (st_commits a !! j) /\ x = Fingerprint_new seed j.
Proof.
  intros Ha. rewrite list_elem_of_fmap. split.
  - intros ([k c] & [= -> ->] & Hk%elem_of_hash_iter).
    rewrite (keyed_commits a Ha _ _ Hk). eauto.
  - intros [[c Hc] ->]. exists (j, c). rewrite (keyed_commits a Ha _ _ Hc).
    by rewrite elem_of_hash_iter.
Qed.

Lemma elem_of_fragment_entries seed a x j :
  (x, j) ∈ ((fun i => (Fingerprint_new seed i, i)) <$> hash_keys (st_fragments a))
  <-> is_Some (st_fragments a !! j) /\ x = Fingerprint_new seed j.
Proof.
  rewrite list_elem_of_fmap. setoid_rewrite elem_of_hash_keys. naive_solver.
Qed.

Lemma resolve_commit_inv seed a x i :
  keyed a -> resolve_commit (fingerprint_resolver a seed) x = Some i ->
  is_Some (st_commits a !! i) /\ x = Fingerprint_new seed i.
Proof. intros Ha Hx%collect_map_Some. by apply elem_of_commit_entries in Hx. Qed.

Lemma resolve_fragment_inv seed a x i :
  resolve_fragment (fingerprint_resolver a seed) x = Some i ->
  is_Some (st_fragments a !! i) /\ x = Fingerprint_new seed i.
Proof. intros Hx%collect_map_Some. by apply elem_of_fragment_entries in Hx. Qed.

Lemma resolve_commit_fp seed a b i :
  fingerprints_distinct seed a b -> keyed a -> is_Some (st_commits a !! i) ->
  resolve_commit (fingerprint_resolver a seed) (Fingerprint_new seed i) = Some i.
Proof.
  intros Hd Ha Hi.
  assert (is_Some (resolve_commit (fingerprint_resolver a seed) (Fingerprint_new seed i)))
    as [j Hj] by (apply collect_map_is_Some; exists i; by apply elem_of_commit_entries).
  rewrite Hj. apply resolve_commit_inv in Hj as [Hjs Heq]; [|done].
  f_equal. symmetry. apply Hd; [left; by apply known_commit..|done].
Qed.

Lemma resolve_fragment_fp seed a b i :
  fingerprints_distinct seed a b -> keyed a -> is_Some (st_fragments a !! i) ->
  resolve_fragment (fingerprint_resolver a seed) (Fingerprint_new seed i) = Some i.
Proof.
  intros Hd Ha Hi.
  assert (is_Some (resolve_fragment (fingerprint_resolver a seed) (Fingerprint_new seed i)))
    as [j Hj] by (apply collect_map_is_Some; exists i; by apply elem_of_fragment_entries).
  rewrite Hj. apply resolve_fragment_inv in Hj as [Hjs Heq].
  f_equal. symmetry. apply Hd; [left; by apply known_fragment..|done].
Qed.

(** One sync round, entry by entry. *)
Lemma sync_round_entries a b seed :
  keyed a -> keyed b -> fingerprints_distinct seed a b ->
  let r := fingerprint_resolver a seed in
  exists d, diff_remote_fingerprints b (fr_summary_of r) = Some d /\
    (forall k f, (k, f) ∈ local_only_fragments d <->
       st_fragments b !! k = Some f /\ st_fragments a !! k = None) /\
    (forall i, (exists x, x ∈ remote_only_fragment_fingerprints d /\
                  resolve_fragment r x = Some i) <->
       is_Some (st_fragments a !! i) /\ st_fragments b !! i = None) /\
    (forall k c, (k, c) ∈ local_only_commits d <->
       st_commits b !! k = Some c /\ ~ known a k /\
       ~ remote_covers b (fingerprint_summarize a seed) k) /\
    (forall i, (exists x, x ∈ remote_only_commit_fingerprints d /\
                  resolve_commit r x = Some i) <->
       is_Some (st_commits a !! i) /\ ~ known b i).
Proof.
  intros Ha Hb Hd r. unfold r. rewrite resolver_summary.
  destruct (diff_remote_entries b (fingerprint_summarize a seed))
    as (d & Hdiff & Hc & Hf & Hrc & Hrf).
  exists d. split; [done|]. rewrite summarize_seed in *. split; [|split; [|split]].
  - intros k f. rewrite Hf. split.
    + intros [Hk Hn]. split; [done|]. apply eq_None_not_Some. intros Hs. apply Hn.
      by apply (fragment_fp seed a b k Hd Ha); [apply known_fragment; eauto|].
    + intros [Hk Hn]. split; [done|].
      rewrite (fragment_fp seed a b k Hd Ha) by (apply known_fragment; eauto).
      rewrite Hn. by intros [].
  - intros i. split.
    + intros (x & [Hx Hno]%Hrf & [Hi ->]%resolve_fragment_inv).
      split; [done|]. apply eq_None_not_Some. intros Hs. apply Hno. eauto.
    + intros [Hi Hn]. exists (Fingerprint_new seed i).
      split; [|by eapply resolve_fragment_fp]. apply Hrf. split.
      * apply elem_of_fragment_fps. eauto.
      * intros (j & Hj & Heq). assert (i = j) as <-; [|rewrite Hn in Hj; by destruct Hj].
        apply Hd; [left; by apply known_fragment|right; by apply known_fragment|done].
  - intros k c. rewrite Hc. split.
    + intros (Hk & Hn & Hcov). split; [done|]. split; [|done].
      rewrite (keyed_commits b Hb _ _ Hk) in Hn. by rewrite <- (known_fp seed a b k Hd)
        by (apply known_commit; eauto).
    + intros (Hk & Hn & Hcov). split; [done|]. split; [|done].
      rewrite (keyed_commits b Hb _ _ Hk). by rewrite (known_fp seed a b k Hd)
        by (apply known_commit; eauto).
  - intros i. split.
    + intros (x & [Hx Hno]%Hrc & [Hi ->]%resolve_commit_inv); [|done].
      split; [done|]. intros Hs. apply Hno. eauto.
    + intros [Hi Hn]. exists (Fingerprint_new seed i).
      split; [|by eapply resolve_commit_fp]. apply Hrc. split.
      * apply elem_of_commit_fps. eexists. split; [by apply known_commit|done].
      * intros (j & Hj & Heq). assert (i = j) as <-; [|done].
        apply Hd; [left; by apply known_commit|by right|done].
Qed.
(** C3: One sync round between a requestor [a] and a responder [b], when no two
    identities they know share a fingerprint: the requestor receives exactly the
    fragments it lacks, the echoed fingerprints resolve at the requestor to exactly
    the fragments the responder lacks; the requestor receives the responder's
    commits that it neither knows nor covers with its fragments, and is asked for
    exactly its commits that the responder does not know. *)
Theorem sync_round_exact a b seed :
  keyed a -> keyed b -> fingerprints_distinct seed a b ->
  let r := fingerprint_resolver a seed in
  exists d, diff_remote_fingerprints b (fr_summary_of r) = Some d /\
    (forall k f, (k, f) ∈ local_only_fragments d <->
       st_fragments b !! k = Some f /\ st_fragments a !! k = None) /\
    (forall i, (exists x, x ∈ remote_only_fragment_fingerprints d /\
                  resolve_fragment r x = Some i) <->
       is_Some (st_fragments a !! i) /\ st_fragments b !! i = None) /\
    (forall k c, (k, c) ∈ local_only_commits d <->
       st_commits b !! k = Some c /\ ~ known a k /\
       ~ remote_covers b (fingerprint_summarize a seed) k) /\
    (forall i, (exists x, x ∈ remote_only_commit_fingerprints d /\
                  resolve_commit r x = Some i) <->
       is_Some (st_commits a !! i) /\ ~ known b i).
Proof. apply sync_round_entries. Qed.
End reconcile.

(** ** Example *)

(** All identities a tree knows, as a list, to decide the hypothesis. *)
Definition known_ids (t : Sedimentree) : list CommitId :=
  ((map_to_list (st_commits t)).*2 ≫= fun c => [lc_head c])
  ++ ((map_to_list (st_fragments t)).*2 ≫= fun f => fr_head f :: elements (fr_boundary f)).

Lemma elem_of_known_ids t i : known t i -> i ∈ known_ids t.
Proof.
  unfold known_ids. rewrite elem_of_app, !list_elem_of_bind.
  intros [(k & c & Hk & <-)|(k & f & Hk & Hi)].
  - left. exists c. split; [set_solver|]. apply list_elem_of_fmap. exists (k, c).
    split; [done|]. by apply elem_of_map_to_list.
  - right. exists f. split; [set_solver|]. apply list_elem_of_fmap. exists (k, f).
    split; [done|]. by apply elem_of_map_to_list.
Qed.

Lemma fingerprints_distinct_check `{SipHash24} seed a b :
  forallb (fun x => forallb (fun y =>
    negb (Fingerprint_new seed x =? Fingerprint_new seed y) || bool_decide (x = y))
    (known_ids a ++ known_ids b)) (known_ids a ++ known_ids b) = true ->
  fingerprints_distinct seed a b.
Proof.
  rewrite forallb_forall. intros Hall x y Hx Hy Heq.
  assert (Hin : forall z, known a z \/ known b z -> In z (known_ids a ++ known_ids b)).
  { intros z Hz. apply list_elem_of_In, elem_of_app.
    destruct Hz; [left|right]; by apply elem_of_known_ids. }
  specialize (Hall x (Hin x Hx)). rewrite forallb_forall in Hall.
  specialize (Hall y (Hin y Hy)). rewrite Heq, N.eqb_refl in Hall. simpl in Hall.
  by eapply bool_decide_eq_true_1.
Qed.

(** The first eight bytes stand in for the keyed hash. *)
Definition siphash_prefix : SipHash24 := fun k0 k1 l =>
  (from_be_bytes (take 8 l) + k0 + k1) mod 2 ^ 64.

#[local] Existing Instance siphash_prefix.
#[local] Existing Instance hash_iter_by_encoding.
#[local] Existing Instance blake3_sum.
#[local] Existing Instance bijou_fixed8.

Lemma sync_round_exact_witness :
  exists d, diff_remote_fingerprints sample_right
      (fr_summary_of (fingerprint_resolver sample_left {| key0 := 1; key1 := 2 |})) = Some d /\
    (forall k f, (k, f) ∈ local_only_fragments d <->
       st_fragments sample_right !! k = Some f /\ st_fragments sample_left !! k = None).
Proof.
  destruct (sync_round_exact sample_left sample_right {| key0 := 1; key1 := 2 |})
    as (d & Hd & Hf & _).
  - apply keyed_new.
  - apply keyed_new.
  - apply fingerprints_distinct_check. vm_compute. reflexivity.
  - exists d. split; [exact Hd|exact Hf].
Defined.
