(* ===== verification/Topsort.v ===== *)
(** * Topological order of a tree's items

    [sedimentree_core/src/sedimentree.rs], [topsorted_blob_order]: Kahn's algorithm
    over fragments and loose commits. Items are numbered, fragments first; vector
    indices never leave the range ([item_graph_spec] carries the bounds), so the
    in-range updates of [alter] are the code's indexed updates. The fuel of the
    queue loop is one step per item and one to stop. *)

From Stdlib Require Import Strings.Byte NArith Lia.
From stdpp Require Import base gmap sorting strings list relations.
From S2P Require Import Prelude.
From S2P Require Import Codec.
From S2P Require Import Types.
From S2P Require Import LooseCommit.
From S2P Require Import Fragment.
From S2P Require Import Traversal.
From S2P Require Import Sedimentree.

Inductive SedimentreeItem : Type :=
| SI_Fragment (i : nat)
| SI_LooseCommit (i : nat).

Record CycleError : Type := {
  ce_total : nat;
  ce_sorted : nat
}.

(** [in_degree] and [dependents] *)
Definition graph_state : Type := list nat * list (list nat).

(** [in_degree[i] += 1; dependents[p].push(i);] *)
Definition add_dependency (g : graph_state) (p i : nat) : graph_state :=
  (alter S i g.1, alter (fun l => l ++ [i]) p g.2).

(** [iter().enumerate().map(|(i, x)| (x.head(), i)).collect::<Map<_, _>>()] *)
Definition index_map {V} (head : V -> CommitId) (l : list V) : gmap CommitId nat :=
  foldl (fun m '(i, x) => <[head x := i]> m) ∅ (imap pair l).

(** Fragment to fragment edges. *)
Definition add_fragment_edges (head_to_frag : gmap CommitId nat)
    (fragments : list Fragment) (g : graph_state) : graph_state :=
  foldl (fun g '(i, frag) =>
      foldl (fun g boundary_digest =>
          match head_to_frag !! boundary_digest with
          | Some j => add_dependency g j i
          | None => g
          end) g (btree_iter (fr_boundary frag))) g (imap pair fragments).

(** One parent of the loose commit at [idx]: a fragment it heads, then a commit. *)
Definition add_parent_deps (head_to_frag id_to_loose : gmap CommitId nat) (n_frags idx : nat)
    (st : graph_state * gset nat) (parent : CommitId) : graph_state * gset nat :=
  let '(g, seen_deps) := st in
  let '(g, seen_deps) :=
    match head_to_frag !! parent with
    | Some fi =>
        if decide (fi ∈ seen_deps) then (g, seen_deps)
        else (add_dependency g fi idx, {[ fi ]} ∪ seen_deps)
    | None => (g, seen_deps)
    end in
  match id_to_loose !! parent with
  | Some pli =>
      let parent_idx := (n_frags + pli)%nat in
      if decide (parent_idx ∈ seen_deps) then (g, seen_deps)
      else (add_dependency g parent_idx idx, {[ parent_idx ]} ∪ seen_deps)
  | None => (g, seen_deps)
  end.

Definition add_loose_edges (head_to_frag id_to_loose : gmap CommitId nat) (n_frags : nat)
    (loose : list LooseCommit) (g : graph_state) : graph_state :=
  foldl (fun g '(li, commit) =>
      (foldl (add_parent_deps head_to_frag id_to_loose n_frags (n_frags + li))
         (g, ∅) (btree_iter (lc_parents commit))).1) g (imap pair loose).

Definition item_graph (fragments : list Fragment) (loose : list LooseCommit) : graph_state :=
  let n_frags := length fragments in
  let n_total := (n_frags + length loose)%nat in
  let head_to_frag := index_map fr_head fragments in
  let g := (replicate n_total 0%nat, replicate n_total []) in
  let g := add_fragment_edges head_to_frag fragments g in
  let id_to_loose := index_map lc_head loose in
  add_loose_edges head_to_frag id_to_loose n_frags loose g.

(** The [for &dep in &dependents[i]] loop. *)
Definition release (deps : list nat) (st : list nat * list nat) : list nat * list nat :=
  foldl (fun '(queue, in_degree) dep =>
      let in_degree := alter Nat.pred dep in_degree in
      if decide (in_degree !! dep = Some 0%nat) then (queue ++ [dep], in_degree)
      else (queue, in_degree)) st deps.

Definition item_of (n_frags i : nat) : SedimentreeItem :=
  if decide (i < n_frags)%nat then SI_Fragment i else SI_LooseCommit (i - n_frags).

Fixpoint kahn (fuel n_frags : nat) (queue in_degree : list nat)
    (dependents : list (list nat)) (order : list SedimentreeItem) :
  option (list SedimentreeItem) :=
  match fuel with
  | O => None
  | S fuel' =>
      match queue with
      | [] => Some order
      | i :: queue' =>
          let order := order ++ [item_of n_frags i] in
          let '(queue, in_degree) :=
            release (default [] (dependents !! i)) (queue', in_degree) in
          kahn fuel' n_frags queue in_degree dependents order
      end
  end.

Definition initial_queue (in_degree : list nat) : list nat :=
  omap (fun '(i, deg) => if decide (deg = 0%nat) then Some i else None) (imap pair in_degree).

Definition topsorted_blob_order `{HashIter} (self : Sedimentree) :
  option (result CycleError (list SedimentreeItem)) :=
  let fragments := hash_values (st_fragments self) in
  let loose := hash_values (st_commits self) in
  let n_frags := length fragments in
  let n_total := (n_frags + length loose)%nat in
  if decide (n_total = 0%nat) then Some (Ok [])
  else
    let '(in_degree, dependents) := item_graph fragments loose in
    order ← kahn (S n_total) n_frags (initial_queue in_degree) in_degree dependents [];
    Some (if decide (length order <> n_total)
          then Err {| ce_total := n_total; ce_sorted := length order |}
          else Ok order).

(** ** Kahn's algorithm on an edge list *)

Section kahn.
Context (n : nat) (E : list (nat * nat)).
(** [(p, i)] in [E]: item [i] depends on item [p]. *)
Context (HE : forall p i, (p, i) ∈ E -> (p < n)%nat /\ (i < n)%nat).

(** How many edges into [i] come from outside [done]. *)
Definition pending (done : list nat) (i : nat) : nat :=
  length (filter (fun e => e.2 = i /\ e.1 ∉ done) E).

Definition targets (p : nat) : list nat := snd <$> filter (fun e => e.1 = p) E.

Definition occ (x : nat) (l : list nat) : nat := length (filter (fun y => y = x) l).

Lemma pending_done done i x :
  i ∉ done -> pending done x = (pending (done ++ [i]) x + occ x (targets i))%nat.
Proof.
  intros Hi. unfold pending, occ, targets. clear HE.
  induction E as [|[p y] E' IH]; [done|]. rewrite !filter_cons.
  destruct (decide (p = i)) as [->|Hpi].
  - rewrite (decide_True (P := (i, y).1 = i)) by done. csimpl. rewrite filter_cons.
    rewrite (decide_False (P := (i, y).2 = x /\ (i, y).1 ∉ done ++ [i])) by set_solver.
    destruct (decide (y = x)) as [->|Hyx].
    + rewrite (decide_True (P := (i, x).2 = x /\ (i, x).1 ∉ done)) by done.
      rewrite ?decide_True by done. simpl. lia.
    + rewrite (decide_False (P := (i, y).2 = x /\ (i, y).1 ∉ done)) by naive_solver.
      by rewrite ?decide_False by done.
  - rewrite (decide_False (P := (p, y).1 = i)) by done.
    destruct (decide ((p, y).2 = x /\ (p, y).1 ∉ done)) as [Hd|Hd].
    + rewrite (decide_True (P := (p, y).2 = x /\ (p, y).1 ∉ done ++ [i])) by set_solver.
      simpl. lia.
    + rewrite (decide_False (P := (p, y).2 = x /\ (p, y).1 ∉ done ++ [i])) by set_solver.
      done.
Qed.

Lemma pending_zero done i :
  pending done i = 0%nat <-> forall p, (p, i) ∈ E -> p ∈ done.
Proof.
  unfold pending. rewrite length_zero_iff_nil. split.
  - intros Hf p Hp. destruct (decide (p ∈ done)) as [|Hn]; [done|].
    assert (Hin : (p, i) ∈ filter (fun e => e.2 = i /\ e.1 ∉ done) E)
      by (by apply list_elem_of_filter).
    rewrite Hf in Hin. set_solver.
  - intros Hall. destruct (filter _ E) as [|[p j] l] eqn:Hf; [done|].
    assert (Hin : (p, j) ∈ filter (fun e => e.2 = i /\ e.1 ∉ done) E)
      by (rewrite Hf; set_solver).
    apply list_elem_of_filter in Hin as [[Hj Hp] Hin]. simpl in *. subst j.
    by destruct Hp; apply Hall.
Qed.

Lemma occ_zero x l : occ x l = 0%nat <-> x ∉ l.
Proof.
  unfold occ. induction l as [|y l IH]; [set_solver|]. rewrite filter_cons.
  case_decide; simpl; [set_solver|]. rewrite IH. set_solver.
Qed.

Lemma occ_cons x y l : occ x (y :: l) = ((if decide (y = x) then 1 else 0) + occ x l)%nat.
Proof. unfold occ. rewrite filter_cons. by case_decide. Qed.

(** [release] takes one off for each occurrence, and queues what reaches zero. *)
Lemma release_spec (base : nat -> nat) (ds q d : list nat) :
  (forall x, x ∈ ds -> (x < n)%nat) ->
  (forall x, (x < n)%nat -> d !! x = Some (base x + occ x ds)%nat) ->
  exists new d', release ds (q, d) = (q ++ new, d') /\ NoDup new /\
    length d' = length d /\
    (forall x, (x < n)%nat -> d' !! x = Some (base x)) /\
    (forall x, x ∈ new <-> x ∈ ds /\ base x = 0%nat).
Proof.
  revert q d. induction ds as [|y ds IH]; intros q d Hds Hd.
  { exists [], d. rewrite app_nil_r. split; [done|]. split; [constructor|].
    split; [done|]. split; [|set_solver]. intros x Hx. rewrite (Hd x Hx).
    f_equal. unfold occ. simpl. lia. }
  assert (Hy : (y < n)%nat) by (apply Hds; set_solver).
  unfold release. cbn [foldl]. fold (release ds).
  set (d1 := alter Nat.pred y d).
  assert (Hd1 : forall x, (x < n)%nat -> d1 !! x = Some (base x + occ x ds)%nat).
  { intros x Hx. unfold d1. specialize (Hd x Hx). rewrite occ_cons in Hd.
    destruct (decide (y = x)) as [->|Hne].
    - rewrite list_lookup_alter_eq, Hd. simpl. f_equal. lia.
    - rewrite list_lookup_alter_ne by done. rewrite Hd. done. }
  assert (Hlen : length d1 = length d) by apply length_alter.
  case_decide as Hz.
  - rewrite (Hd1 y Hy) in Hz. injection Hz as Hz.
    destruct (IH (q ++ [y]) d1) as (new & d' & Hr & Hnd & Hl & Hd' & Hnew);
      [set_solver|done|].
    assert (Hyd : y ∉ ds) by (apply occ_zero; lia).
    exists (y :: new), d'. rewrite <- app_assoc in Hr. split; [exact Hr|].
    split; [constructor; set_solver|]. split; [lia|]. split; [done|].
    intros x. rewrite !elem_of_cons, Hnew. split; [|set_solver].
    intros [->|[? ?]]; [|auto]. split; [auto|lia].
  - rewrite (Hd1 y Hy) in Hz.
    destruct (IH q d1) as (new & d' & Hr & Hnd & Hl & Hd' & Hnew); [set_solver|done|].
    exists new, d'. split; [exact Hr|]. split; [done|]. split; [lia|]. split; [done|].
    intros x. rewrite elem_of_cons, Hnew. split; [naive_solver|].
    intros [[->|Hx] Hb]; [|done]. split; [|done].
    destruct (decide (y ∈ ds)) as [|Hn]; [done|]. apply occ_zero in Hn.
    exfalso. apply Hz. f_equal. lia.
Qed.

(** Every item of the list comes after what it depends on. *)
Definition ordered (done : list nat) : Prop :=
  forall l1 x l2, done = l1 ++ x :: l2 -> forall p, (p, x) ∈ E -> p ∈ l1.

Record kahn_inv (done queue d : list nat) : Prop := {
  ki_nodup : NoDup (done ++ queue);
  ki_bound x : x ∈ done ++ queue -> (x < n)%nat;
  ki_degree x : (x < n)%nat -> d !! x = Some (pending done x);
  ki_ready x : (x < n)%nat -> pending done x = 0%nat <-> x ∈ done ++ queue;
  ki_ordered : ordered done
}.

Lemma ordered_snoc done i :
  ordered done -> pending done i = 0%nat -> ordered (done ++ [i]).
Proof.
  intros Ho Hi l1 x l2 Heq p Hp.
  destruct l2 as [|y l2 _] using rev_ind.
  - apply app_inj_tail in Heq as [<- <-]. by eapply pending_zero.
  - rewrite app_comm_cons, app_assoc in Heq. apply app_inj_tail in Heq as [Heq _].
    by eapply Ho.
Qed.

Lemma elem_of_targets p x : x ∈ targets p <-> (p, x) ∈ E.
Proof.
  unfold targets. rewrite list_elem_of_fmap. setoid_rewrite list_elem_of_filter. split.
  - by intros ([p' x'] & -> & <- & Hin).
  - intros Hin. by exists (p, x).
Qed.

Lemma kahn_step done i queue d :
  kahn_inv done (i :: queue) d ->
  exists queue' d', release (targets i) (queue, d) = (queue', d') /\
    kahn_inv (done ++ [i]) queue' d'.
Proof.
  intros [Hnd Hb Hd Hr Ho].
  assert (Hin : i ∈ done ++ i :: queue) by set_solver.
  assert (Hi : i ∉ done) by (apply NoDup_app in Hnd; set_solver).
  assert (Hpi : pending done i = 0%nat) by (apply Hr; [by apply Hb|done]).
  destruct (release_spec (pending (done ++ [i])) (targets i) queue d)
    as (new & d' & -> & Hnnew & _ & Hd' & Hnew).
  { intros x Hx%elem_of_targets. by apply HE in Hx as [_ ?]. }
  { intros x Hx. rewrite (Hd x Hx). f_equal. by apply pending_done. }
  eexists _, d'. split; [reflexivity|].
  assert (Hsplit : forall x, pending done x = (pending (done ++ [i]) x + occ x (targets i))%nat)
    by (intros x; by apply pending_done).
  assert (Hfresh : forall x, x ∈ new -> x ∉ done ++ i :: queue).
  { intros x [Hx Hz]%Hnew Hold.
    assert (Hxn : (x < n)%nat) by (apply elem_of_targets, HE in Hx; tauto).
    apply (Hr x Hxn) in Hold. specialize (Hsplit x).
    assert (occ x (targets i) = 0%nat) as Ho0 by lia. by apply occ_zero in Ho0. }
  replace ((done ++ [i]) ++ queue ++ new) with ((done ++ i :: queue) ++ new) in *
    by (by rewrite <- !app_assoc).
  split.
  - rewrite <- app_assoc. simpl. rewrite app_comm_cons, app_assoc.
    apply NoDup_app. split; [done|]. split; [|done]. intros x Hx Hx'. by apply (Hfresh x).
  - intros x. rewrite <- app_assoc. simpl. rewrite app_comm_cons, app_assoc, elem_of_app.
    intros [Hx|Hx]; [by apply Hb|]. apply Hnew in Hx as [Hx _].
    apply elem_of_targets, HE in Hx. tauto.
  - done.
  - intros x Hx. rewrite <- app_assoc. simpl. rewrite app_comm_cons, app_assoc, elem_of_app.
    rewrite <- (Hr x Hx), Hnew. specialize (Hsplit x). split.
    + intros Hz. destruct (decide (x ∈ targets i)) as [Ht|Ht]; [by right|].
      left. apply occ_zero in Ht. lia.
    + intros [Hz|[_ Hz]]; lia.
  - by apply ordered_snoc.
Qed.

(** [dependents] lists the targets of every item. *)
Definition lists_targets (dependents : list (list nat)) : Prop :=
  forall p, (p < n)%nat -> dependents !! p = Some (targets p).

Lemma kahn_run n_frags dependents fuel done queue d :
  lists_targets dependents -> kahn_inv done queue d ->
  (S n <= fuel + length done)%nat ->
  exists final d',
    kahn fuel n_frags queue d dependents (item_of n_frags <$> done) =
      Some (item_of n_frags <$> final) /\ kahn_inv final [] d'.
Proof.
  intros Hdep. revert done queue d.
  induction fuel as [|fuel IH]; intros done queue d Hinv Hf.
  - exfalso. pose proof (ki_nodup _ _ _ Hinv) as Hnd. pose proof (ki_bound _ _ _ Hinv) as Hb.
    assert (length (done ++ queue) <= length (seq 0 n))%nat as Hle.
    { apply submseteq_length, NoDup_submseteq; [done|]. intros x Hx.
      apply elem_of_seq. specialize (Hb x Hx). lia. }
    rewrite length_app, length_seq in Hle. lia.
  - simpl. destruct queue as [|i queue]; [by exists done, d|].
    destruct (kahn_step done i queue d Hinv) as (queue' & d' & Hrel & Hinv').
    assert (Hi : (i < n)%nat) by (apply (ki_bound _ _ _ Hinv); set_solver).
    rewrite (Hdep i Hi). simpl. rewrite Hrel.
    destruct (IH (done ++ [i]) queue' d' Hinv') as (final & d'' & Hk & Hfin).
    { rewrite length_app. simpl. lia. }
    exists final, d''. rewrite fmap_app in Hk. by split.
Qed.

Lemma kahn_init d :
  length d = n -> (forall x, (x < n)%nat -> d !! x = Some (pending [] x)) ->
  kahn_inv [] (initial_queue d) d.
Proof.
  intros Hlen Hd.
  assert (Hq : forall x, x ∈ initial_queue d <-> d !! x = Some 0%nat).
  { intros x. unfold initial_queue. rewrite list_elem_of_omap. split.
    - intros ([i deg] & (k & Hk)%list_elem_of_lookup & Hx).
      rewrite list_lookup_imap in Hk. apply fmap_Some in Hk as (v & Hv & [= -> ->]).
      case_decide; [|done]. by simplify_eq.
    - intros Hx. exists (x, 0%nat). split; [|done].
      apply list_elem_of_lookup. exists x. by rewrite list_lookup_imap, Hx. }
  split; simpl.
  - unfold initial_queue. clear.
    assert (Hgen : forall (l : list nat) (f : nat -> nat), (forall a b, f a = f b -> a = b) ->
      NoDup (omap (fun '(i, deg) => if decide (deg = 0%nat) then Some i else None)
               (imap (fun i (x : nat) => (f i, x)) l)) /\
      forall j, j ∈ omap (fun '(i, deg) => if decide (deg = 0%nat) then Some i else None)
               (imap (fun i (x : nat) => (f i, x)) l) -> exists i, j = f i).
    { induction l as [|x l IH]; intros f Hf; [split; [constructor|set_solver]|].
      rewrite imap_cons. destruct (IH (f ∘ S)) as [Hnd Hin]; [intros a b Hab; apply Hf in Hab; lia|].
      csimpl. case_decide; simpl.
      - split.
        + constructor; [|done]. intros (i & Hi)%Hin. apply Hf in Hi. lia.
        + intros j [->|Hj]%elem_of_cons; [eauto|]. destruct (Hin j Hj). eauto.
      - split; [done|]. intros j Hj. destruct (Hin j Hj). eauto. }
    by apply (Hgen d (fun i => i)).
  - intros x Hx%Hq. apply lookup_lt_Some in Hx. lia.
  - done.
  - intros x Hx. rewrite Hq, (Hd x Hx). naive_solver.
  - intros l1 x l2 Heq. by destruct l1.
Qed.

(** What is left when Kahn's algorithm stops: an order that respects the edges, and
    it is complete exactly when the edges have no cycle. *)
Lemma kahn_final final d :
  kahn_inv final [] d ->
  NoDup final /\ (forall x, x ∈ final -> (x < n)%nat) /\ ordered final /\
  (forall x, (x < n)%nat -> (forall p, (p, x) ∈ E -> p ∈ final) -> x ∈ final) /\
  (length final = n <-> exists rank : nat -> nat, forall p i, (p, i) ∈ E -> (rank p < rank i)%nat).
Proof.
  intros [Hnd Hb _ Hr Ho]. rewrite app_nil_r in *.
  split; [done|]. split; [done|]. split; [done|].
  split; [intros x Hx Hp; by apply (Hr x Hx), pending_zero|]. split.
  - intros Hlen.
    assert (Hall : forall x, (x < n)%nat -> x ∈ final).
    { intros x Hx. assert (Hp : final ≡ₚ seq 0 n).
      { apply submseteq_length_Permutation; [|by rewrite length_seq, Hlen].
        apply NoDup_submseteq; [done|]. intros y Hy. apply elem_of_seq.
        specialize (Hb y Hy). lia. }
      rewrite Hp. apply elem_of_seq. lia. }
    exists (fun x => match list_find (fun y => y = x) final with
                     | Some (k, _) => k | None => 0%nat end).
    intros p i Hpi. destruct (HE p i Hpi) as [Hpn Hin].
    destruct (list_elem_of_split_l final i (Hall i Hin)) as (l1 & l2 & Heq & Hil1).
    assert (Hpl1 : p ∈ l1) by (by eapply Ho).
    destruct (list_find (fun y => y = i) final) as [[k y]|] eqn:Hk.
    + apply list_find_Some in Hk as (Hk & -> & _).
      assert (Hki : (length l1 <= k)%nat).
      { destruct (decide (length l1 <= k)%nat) as [|Hlt]; [done|].
        rewrite Heq, lookup_app_l in Hk by lia. by apply list_elem_of_lookup_2 in Hk. }
      destruct (list_find (fun y => y = p) final) as [[kp y]|] eqn:Hkp.
      * apply list_find_Some in Hkp as (Hkp & -> & Hmin).
        apply list_elem_of_lookup in Hpl1 as [j Hj].
        pose proof (lookup_lt_Some _ _ _ Hj).
        destruct (decide (kp < length l1)%nat); [lia|]. exfalso.
        apply (Hmin j p); [rewrite Heq; by apply lookup_app_l_Some|lia|done].
      * apply list_find_None in Hkp. rewrite Forall_forall in Hkp.
        exfalso. apply (Hkp p); [|done]. rewrite Heq. set_solver.
    + apply list_find_None in Hk. rewrite Forall_forall in Hk.
      exfalso. apply (Hk i); [by apply Hall|done].
  - intros [rank Hrank].
    assert (Hall : forall m x, (rank x < m)%nat -> (x < n)%nat -> x ∈ final).
    { induction m as [|m IHm]; intros x Hm Hx; [lia|].
      apply (Hr x Hx), pending_zero. intros p Hp.
      apply IHm; [specialize (Hrank p x Hp); lia|by apply HE in Hp as [? _]]. }
    assert (Hp : final ≡ₚ seq 0 n).
    { apply NoDup_Permutation; [done|apply NoDup_seq|]. intros x. rewrite elem_of_seq.
      split; [intros Hx; specialize (Hb x Hx); lia|]. intros [_ Hx].
      by eapply (Hall (S (rank x))); [lia|]. }
    by rewrite Hp, length_seq.
Qed.
End kahn.

(** ** Building the graph *)

(** [g] holds the in-degrees and the dependents of the edge list [E]. *)
Record holds_edges (n : nat) (E : list (nat * nat)) (g : graph_state) : Prop := {
  he_len : length g.1 = n;
  he_len' : length g.2 = n;
  he_degree x : (x < n)%nat -> g.1 !! x = Some (pending E [] x);
  he_targets : lists_targets n E g.2;
  he_bound p i : (p, i) ∈ E -> (p < n)%nat /\ (i < n)%nat
}.

Lemma pending_snoc E p i x :
  pending (E ++ [(p, i)]) [] x = (pending E [] x + if decide (i = x) then 1 else 0)%nat.
Proof.
  unfold pending. rewrite filter_app, length_app. f_equal.
  rewrite filter_cons. destruct (decide (i = x)) as [->|Hne].
  - rewrite decide_True by (split; [done|set_solver]). done.
  - rewrite decide_False by naive_solver. done.
Qed.

Lemma targets_snoc E p i q :
  targets (E ++ [(p, i)]) q = targets E q ++ (if decide (p = q) then [i] else []).
Proof.
  unfold targets. rewrite filter_app, fmap_app. f_equal.
  rewrite filter_cons. simpl. destruct (decide (p = q)); done.
Qed.

Lemma add_dependency_edges n E g p i :
  holds_edges n E g -> (p < n)%nat -> (i < n)%nat ->
  holds_edges n (E ++ [(p, i)]) (add_dependency g p i).
Proof.
  intros [H1 H2 Hd Ht Hb] Hp Hi. unfold add_dependency. split; simpl.
  - by rewrite length_alter.
  - by rewrite length_alter.
  - intros x Hx. rewrite pending_snoc. destruct (decide (i = x)) as [->|Hne].
    + rewrite list_lookup_alter_eq, (Hd x Hx). simpl. f_equal. lia.
    + rewrite list_lookup_alter_ne by done. rewrite (Hd x Hx). f_equal. lia.
  - intros q Hq. rewrite targets_snoc. destruct (decide (p = q)) as [->|Hne].
    + by rewrite list_lookup_alter_eq, (Ht q Hq).
    + rewrite list_lookup_alter_ne by done. by rewrite (Ht q Hq), app_nil_r.
  - intros q j [Hin|Heq%list_elem_of_singleton]%elem_of_app; [by apply Hb|].
    by simplify_eq.
Qed.

Lemma empty_edges n : holds_edges n [] (replicate n 0%nat, replicate n []).
Proof.
  split; simpl; try (by rewrite length_replicate).
  - intros x Hx. by apply lookup_replicate_2.
  - intros p Hp. by apply lookup_replicate_2.
  - set_solver.
Qed.

Section building.
Context (n : nat) (hm lm : gmap CommitId nat) (nf : nat).
Context (Hhm : forall x j, hm !! x = Some j -> (j < n)%nat).
Context (Hlm : forall x j, lm !! x = Some j -> (nf + j < n)%nat).

Lemma boundary_edges E g i (bs : list CommitId) :
  holds_edges n E g -> (i < n)%nat ->
  exists E', holds_edges n E'
      (foldl (fun g b => match hm !! b with Some j => add_dependency g j i | None => g end)
         g bs) /\
    forall p i', (p, i') ∈ E' <-> (p, i') ∈ E \/
      (i' = i /\ exists b, b ∈ bs /\ hm !! b = Some p).
Proof.
  intros Hg Hi. revert E g Hg. induction bs as [|b bs IH]; intros E g Hg; simpl.
  - exists E. set_solver.
  - destruct (hm !! b) as [j|] eqn:Hb.
    + destruct (IH _ _ (add_dependency_edges n E g j i Hg (Hhm _ _ Hb) Hi)) as (E' & Hg' & HE').
      exists E'. split; [done|]. intros p i'. rewrite HE'. set_solver.
    + destruct (IH _ _ Hg) as (E' & Hg' & HE'). exists E'. split; [done|].
      intros p i'. rewrite HE'. set_solver.
Qed.

Lemma fragment_edges E g (l : list (nat * Fragment)) :
  holds_edges n E g -> (forall i f, (i, f) ∈ l -> (i < n)%nat) ->
  exists E', holds_edges n E'
      (foldl (fun g '(i, frag) =>
         foldl (fun g b => match hm !! b with Some j => add_dependency g j i | None => g end)
           g (btree_iter (fr_boundary frag))) g l) /\
    forall p i, (p, i) ∈ E' <-> (p, i) ∈ E \/
      exists f b, (i, f) ∈ l /\ b ∈ fr_boundary f /\ hm !! b = Some p.
Proof.
  revert E g. induction l as [|[i f] l IH]; intros E g Hg Hl; simpl.
  - exists E. set_solver.
  - destruct (boundary_edges E g i (btree_iter (fr_boundary f)) Hg) as (E1 & Hg1 & HE1);
      [apply (Hl i f); set_solver|].
    destruct (IH _ _ Hg1) as (E' & Hg' & HE'); [set_solver|].
    exists E'. split; [done|]. intros p j. rewrite HE', HE1.
    setoid_rewrite elem_of_btree_iter. setoid_rewrite elem_of_cons. clear. naive_solver.
Qed.

(** What a parent of a loose commit makes it depend on. *)
Definition parent_dep (parent : CommitId) (p : nat) : Prop :=
  hm !! parent = Some p \/ exists j, lm !! parent = Some j /\ p = (nf + j)%nat.

(** One dependency, skipped if it was seen. *)
Lemma add_unseen E g (seen : gset nat) p idx :
  holds_edges n E g -> (p < n)%nat -> (idx < n)%nat ->
  exists E' g' seen',
    (if decide (p ∈ seen) then (g, seen) else (add_dependency g p idx, {[ p ]} ∪ seen))
      = (g', seen') /\ holds_edges n E' g' /\
    (forall q, q ∈ seen' <-> q ∈ seen \/ q = p) /\
    (forall q i, (q, i) ∈ E' <-> (q, i) ∈ E \/ (i = idx /\ q ∈ seen' /\ q ∉ seen)).
Proof.
  intros Hg Hp Hi. case_decide as Hs.
  - exists E, g, seen. set_solver.
  - exists (E ++ [(p, idx)]), (add_dependency g p idx), ({[ p ]} ∪ seen).
    split; [done|]. split; [by apply add_dependency_edges|]. set_solver.
Qed.

Lemma parents_edges E g seen idx (ps : list CommitId) :
  holds_edges n E g -> (idx < n)%nat ->
  exists E' g' seen', foldl (add_parent_deps hm lm nf idx) (g, seen) ps = (g', seen') /\
    holds_edges n E' g' /\
    (forall q, q ∈ seen' <-> q ∈ seen \/ exists x, x ∈ ps /\ parent_dep x q) /\
    (forall q i, (q, i) ∈ E' <-> (q, i) ∈ E \/ (i = idx /\ q ∈ seen' /\ q ∉ seen)).
Proof.
  intros Hg Hi. revert E g seen Hg. induction ps as [|x ps IH]; intros E g seen Hg.
  { exists E, g, seen. set_solver. }
  cbn [foldl].
  assert (Hstep : exists E1 g1 seen1, add_parent_deps hm lm nf idx (g, seen) x = (g1, seen1) /\
    holds_edges n E1 g1 /\ (forall q, q ∈ seen1 <-> q ∈ seen \/ parent_dep x q) /\
    (forall q i, (q, i) ∈ E1 <-> (q, i) ∈ E \/ (i = idx /\ q ∈ seen1 /\ q ∉ seen))).
  { unfold add_parent_deps, parent_dep. destruct (hm !! x) as [fi|] eqn:Hfi.
    - destruct (add_unseen E g seen fi idx Hg (Hhm _ _ Hfi) Hi)
        as (E1 & g1 & s1 & -> & Hg1 & Hs1 & HE1).
      destruct (lm !! x) as [pli|] eqn:Hpl.
      + destruct (add_unseen E1 g1 s1 (nf + pli) idx Hg1 (Hlm _ _ Hpl) Hi)
          as (E2 & g2 & s2 & -> & Hg2 & Hs2 & HE2).
        exists E2, g2, s2. split; [done|]. split; [done|]. split.
        * intros q. rewrite Hs2, Hs1. naive_solver.
        * intros q i. rewrite HE2, HE1. rewrite Hs2, Hs1.
          destruct (decide (q ∈ s1)) as [Hq|Hq]; rewrite Hs1 in Hq; naive_solver.
      + exists E1, g1, s1. split; [done|]. split; [done|]. split; [|done].
        intros q. rewrite Hs1. naive_solver.
    - destruct (lm !! x) as [pli|] eqn:Hpl.
      + destruct (add_unseen E g seen (nf + pli) idx Hg (Hlm _ _ Hpl) Hi)
          as (E2 & g2 & s2 & -> & Hg2 & Hs2 & HE2).
        exists E2, g2, s2. split; [done|]. split; [done|]. split; [|done].
        intros q. rewrite Hs2. naive_solver.
      + exists E, g, seen. split; [done|]. split; [done|]. split; naive_solver. }
  destruct Hstep as (E1 & g1 & s1 & -> & Hg1 & Hs1 & HE1).
  destruct (IH E1 g1 s1 Hg1) as (E' & g' & s' & Hf & Hg' & Hs' & HE').
  exists E', g', s'. split; [done|]. split; [done|]. split.
  - intros q. rewrite Hs', Hs1. setoid_rewrite elem_of_cons. naive_solver.
  - intros q i. rewrite HE', HE1. rewrite Hs', Hs1.
    destruct (decide (q ∈ s1)) as [Hq|Hq]; rewrite Hs1 in Hq; naive_solver.
Qed.

Lemma loose_edges E g (l : list (nat * LooseCommit)) :
  holds_edges n E g -> (forall li c, (li, c) ∈ l -> (nf + li < n)%nat) ->
  exists E', holds_edges n E'
      (foldl (fun g '(li, commit) =>
        (foldl (add_parent_deps hm lm nf (nf + li)) (g, ∅)
           (btree_iter (lc_parents commit))).1) g l) /\
    forall p i, (p, i) ∈ E' <-> (p, i) ∈ E \/
      exists li c x, (li, c) ∈ l /\ i = (nf + li)%nat /\ x ∈ lc_parents c /\ parent_dep x p.
Proof.
  revert E g. induction l as [|[li c] l IH]; intros E g Hg Hl; cbn [foldl].
  - exists E. set_solver.
  - destruct (parents_edges E g ∅ (nf + li) (btree_iter (lc_parents c)) Hg)
      as (E1 & g1 & s1 & -> & Hg1 & Hs1 & HE1); [apply (Hl li c); set_solver|].
    destruct (IH _ _ Hg1) as (E' & Hg' & HE'); [set_solver|].
    exists E'. split; [done|]. intros p i. rewrite HE', HE1, Hs1.
    setoid_rewrite elem_of_btree_iter. setoid_rewrite elem_of_cons. clear. set_solver.
Qed.
End building.

(** ** The order of the items *)

(** [x] depends on [y]: a fragment on those whose heads are in its boundary, a loose
    commit on the fragments and commits whose heads are among its parents. *)
Definition item_depends (fs : list Fragment) (cs : list LooseCommit)
    (x y : SedimentreeItem) : Prop :=
  match x, y with
  | SI_Fragment i, SI_Fragment j =>
      exists f g, fs !! i = Some f /\ fs !! j = Some g /\ fr_head g ∈ fr_boundary f
  | SI_LooseCommit i, SI_Fragment j =>
      exists c g, cs !! i = Some c /\ fs !! j = Some g /\ fr_head g ∈ lc_parents c
  | SI_LooseCommit i, SI_LooseCommit j =>
      exists c d, cs !! i = Some c /\ cs !! j = Some d /\ lc_head d ∈ lc_parents c
  | SI_Fragment _, SI_LooseCommit _ => False
  end.

Definition valid_item (fs : list Fragment) (cs : list LooseCommit) (x : SedimentreeItem) :
  Prop :=
  match x with
  | SI_Fragment i => (i < length fs)%nat
  | SI_LooseCommit i => (i < length cs)%nat
  end.

Definition index_of (nf : nat) (x : SedimentreeItem) : nat :=
  match x with SI_Fragment i => i | SI_LooseCommit i => (nf + i)%nat end.

Section items.
Context (fs : list Fragment) (cs : list LooseCommit).
Context (Hfs : NoDup (fr_head <$> fs)) (Hcs : NoDup (lc_head <$> cs)).
Notation nf := (length fs).
Notation n := (length fs + length cs)%nat.

Lemma item_of_index x : valid_item fs cs x -> item_of nf (index_of nf x) = x.
Proof.
  destruct x as [i|i]; unfold item_of; simpl; intros Hi; case_decide; try lia; [done|].
  f_equal. lia.
Qed.

Lemma index_of_item i : index_of nf (item_of nf i) = i.
Proof. unfold item_of. case_decide; simpl; lia. Qed.

Lemma valid_item_of i : (i < n)%nat <-> valid_item fs cs (item_of nf i).
Proof. unfold item_of. case_decide; simpl; lia. Qed.

Lemma imap_pair_elem {V} (l : list V) i v : (i, v) ∈ imap pair l <-> l !! i = Some v.
Proof.
  rewrite list_elem_of_lookup. setoid_rewrite list_lookup_imap. split.
  - intros (k & (w & Hw & [= -> ->])%fmap_Some). done.
  - intros Hv. exists i. by rewrite Hv.
Qed.

Lemma head_lookup {V} (f : V -> CommitId) (l : list V) i x :
  (f <$> l) !! i = Some x <-> exists v, l !! i = Some v /\ f v = x.
Proof. rewrite list_lookup_fmap, fmap_Some. naive_solver. Qed.

(** The graph the code builds has exactly the dependencies as edges. *)
Lemma item_graph_spec :
  exists E, holds_edges n E (item_graph fs cs) /\
    forall p i, (p, i) ∈ E <-> item_depends fs cs (item_of nf i) (item_of nf p) /\
                               (p < n)%nat /\ (i < n)%nat.
Proof.
  unfold item_graph, add_fragment_edges, add_loose_edges.
  pose proof (enumerate_map_spec fr_head fs Hfs) as Hhm.
  pose proof (enumerate_map_spec lc_head cs Hcs) as Hlm.
  fold (index_map fr_head fs) in Hhm. fold (index_map lc_head cs) in Hlm.
  set (hm := index_map fr_head fs) in *. set (lm := index_map lc_head cs) in *.
  assert (Hhb : forall x j, hm !! x = Some j -> (j < nf)%nat).
  { intros x j Hj%Hhm. apply lookup_lt_Some in Hj. by rewrite length_fmap in Hj. }
  assert (Hlb : forall x j, lm !! x = Some j -> (j < length cs)%nat).
  { intros x j Hj%Hlm. apply lookup_lt_Some in Hj. by rewrite length_fmap in Hj. }
  destruct (fragment_edges n hm lm nf) with (E := @nil (nat * nat))
      (g := (replicate n 0%nat, replicate n (@nil nat))) (l := imap pair fs)
    as (E1 & Hg1 & HE1).
  { intros x j Hj%Hhb. lia. }
  { intros x j Hj%Hlb. lia. }
  { apply empty_edges. }
  { intros i f Hi%imap_pair_elem. apply lookup_lt_Some in Hi. lia. }
  destruct (loose_edges n hm lm nf) with (E := E1)
      (g := foldl (fun g '(i, frag) => foldl (fun g b =>
              match hm !! b with Some j => add_dependency g j i | None => g end)
              g (btree_iter (fr_boundary frag)))
            (replicate n 0%nat, replicate n (@nil nat)) (imap pair fs))
      (l := imap pair cs) as (E & Hg & HE).
  { intros x j Hj%Hhb. lia. }
  { intros x j Hj%Hlb. lia. }
  { done. }
  { intros li c Hi%imap_pair_elem. apply lookup_lt_Some in Hi. lia. }
  exists E. split; [exact Hg|]. intros p i. split.
  - intros Hpi. pose proof (he_bound _ _ _ Hg _ _ Hpi) as Hb. split; [|done].
    apply HE in Hpi as [Hpi|(li & c & x & Hli%imap_pair_elem & -> & Hx & Hd)].
    + apply HE1 in Hpi as [Hpi|(f & b & Hf%imap_pair_elem & Hbd & Hp)]; [set_solver|].
      pose proof (lookup_lt_Some _ _ _ Hf). pose proof (Hhb _ _ Hp).
      unfold item_of. rewrite !decide_True by done.
      apply Hhm, head_lookup in Hp as (g & Hg' & <-). by exists f, g.
    + unfold item_of. rewrite (decide_False (P := (nf + li < nf)%nat)) by lia.
      replace (nf + li - nf)%nat with li by lia. destruct Hd as [Hp|(j & Hj & ->)].
      * rewrite decide_True by (by eapply Hhb).
        apply Hhm, head_lookup in Hp as (g & Hg' & <-). by exists c, g.
      * rewrite decide_False by lia. replace (nf + j - nf)%nat with j by lia.
        apply Hlm, head_lookup in Hj as (d & Hd' & <-). by exists c, d.
  - intros (Hdep & Hp & Hi). apply HE. unfold item_of in Hdep.
    destruct (decide (i < nf)%nat), (decide (p < nf)%nat); simpl in Hdep; [|done| |].
    + left. apply HE1. right. destruct Hdep as (f & g & Hf & Hg' & Hin).
      exists f, (fr_head g). rewrite imap_pair_elem. split; [done|]. split; [done|].
      apply Hhm, head_lookup. by exists g.
    + right. destruct Hdep as (c & g & Hc & Hg' & Hin). exists (i - nf)%nat, c, (fr_head g).
      rewrite imap_pair_elem. split; [done|]. split; [lia|]. split; [done|]. left.
      apply Hhm, head_lookup. by exists g.
    + right. destruct Hdep as (c & d & Hc & Hd & Hin). exists (i - nf)%nat, c, (lc_head d).
      rewrite imap_pair_elem. split; [done|]. split; [lia|]. split; [done|]. right.
      exists (p - nf)%nat. split; [|lia]. apply Hlm, head_lookup. by exists d.
Qed.

Lemma item_depends_valid x y : item_depends fs cs x y -> valid_item fs cs x /\ valid_item fs cs y.
Proof.
  destruct x as [i|i], y as [j|j]; simpl; [|done| |];
    intros (a & b & Ha%lookup_lt_Some & Hb%lookup_lt_Some & _); done.
Qed.

Lemma item_of_inj i j : item_of nf i = item_of nf j -> i = j.
Proof. intros Heq. by rewrite <- (index_of_item i), Heq, index_of_item. Qed.

(** What the sorted indices say of the items. *)
Lemma items_ordered E final :
  (forall p i, (p, i) ∈ E <-> item_depends fs cs (item_of nf i) (item_of nf p) /\
                              (p < n)%nat /\ (i < n)%nat) ->
  ordered E final ->
  forall l1 x l2, item_of nf <$> final = l1 ++ x :: l2 ->
    forall y, item_depends fs cs x y -> y ∈ l1.
Proof.
  intros HE Ho l1 x l2 Heq y Hxy.
  apply fmap_app_inv in Heq as (k1 & k2 & -> & Hk2 & ->).
  symmetry in Hk2. apply fmap_cons_inv in Hk2 as (i & k2' & -> & -> & ->).
  destruct (item_depends_valid _ _ Hxy) as [Hvx Hvy].
  apply list_elem_of_fmap. exists (index_of nf y). rewrite item_of_index by done.
  split; [done|]. eapply (Ho k1 i k2'); [done|]. apply HE.
  rewrite item_of_index by done. split; [done|]. split.
  - apply valid_item_of. by rewrite item_of_index.
  - by apply valid_item_of.
Qed.

(** What no chain of dependencies without an end starts from: it is on no cycle, and depends
    on none. *)
Definition sortable (x : SedimentreeItem) : Prop := Acc (fun y x => item_depends fs cs x y) x.

(** A list in order, which has all the items it has the dependencies of. *)
Lemma ordered_sortable order :
  (forall x, x ∈ order -> valid_item fs cs x) ->
  (forall l1 x l2, order = l1 ++ x :: l2 -> forall y, item_depends fs cs x y -> y ∈ l1) ->
  (forall x, valid_item fs cs x -> (forall y, item_depends fs cs x y -> y ∈ order) -> x ∈ order) ->
  forall x, x ∈ order <-> valid_item fs cs x /\ sortable x.
Proof.
  intros Hv Ho Hc x.
  assert (Hacc : forall l1 l2, order = l1 ++ l2 -> forall y, y ∈ l1 -> sortable y).
  { induction l1 as [|z l1 IH] using rev_ind; intros l2 Heq y Hy; [by apply not_elem_of_nil in Hy|].
    rewrite <- app_assoc in Heq. apply elem_of_app in Hy as [Hy| ->%list_elem_of_singleton]; [by eapply IH|].
    constructor. intros w Hw. eapply IH; [exact Heq|]. by eapply Ho. }
  split.
  - intros Hx. split; [by apply Hv|]. by apply (Hacc order []); [rewrite app_nil_r|].
  - intros [Hx Hs]. revert Hx. induction Hs as [x _ IH]. intros Hx. apply Hc; [done|].
    intros y Hy. apply IH; [done|]. by apply item_depends_valid in Hy as [_ ?].
Qed.

(** The queue loop on the graph of the items. *)
Lemma sort_items :
  exists final,
    kahn (S n) nf (initial_queue (item_graph fs cs).1) (item_graph fs cs).1
      (item_graph fs cs).2 [] = Some (item_of nf <$> final) /\
    NoDup final /\ (forall i, i ∈ final -> (i < n)%nat) /\
    (forall l1 x l2, item_of nf <$> final = l1 ++ x :: l2 ->
       forall y, item_depends fs cs x y -> y ∈ l1) /\
    (forall x, x ∈ (item_of nf <$> final) <-> valid_item fs cs x /\ sortable x) /\
    (length final = n <-> exists rank : SedimentreeItem -> nat,
       forall x y, item_depends fs cs x y -> (rank y < rank x)%nat).
Proof.
  destruct item_graph_spec as (E & [Hl _ Hd Ht Hb] & HE).
  destruct (kahn_run n E Hb nf (item_graph fs cs).2 (S n) [] (initial_queue (item_graph fs cs).1)
    (item_graph fs cs).1 Ht) as (final & d & Hk & Hinv).
  { by apply kahn_init. }
  { simpl. lia. }
  destruct (kahn_final n E Hb final d Hinv) as (Hnd & Hbf & Ho & Hcl & Hlen).
  exists final. split; [exact Hk|]. split; [done|]. split; [done|].
  split; [by eapply items_ordered|]. split; [apply ordered_sortable|rewrite Hlen; split].
  - intros x (i & -> & Hi%Hbf)%list_elem_of_fmap. by apply valid_item_of.
  - by eapply items_ordered.
  - intros x Hx Hy. apply list_elem_of_fmap. exists (index_of nf x). rewrite item_of_index by done.
    split; [done|]. apply Hcl; [by apply valid_item_of; rewrite item_of_index|].
    intros p (Hdep & Hp & _)%HE. rewrite item_of_index in Hdep by done.
    apply Hy, list_elem_of_fmap in Hdep as (q & Heq & Hq). by apply item_of_inj in Heq as ->.
  - intros [rank Hr]. exists (fun x => rank (index_of nf x)). intros x y Hxy.
    destruct (item_depends_valid _ _ Hxy) as [Hvx Hvy]. apply Hr, HE.
    rewrite !item_of_index by done. split; [done|].
    by rewrite !valid_item_of, !item_of_index.
  - intros [rank Hr]. exists (fun i => rank (item_of nf i)). intros p i (Hdep & _)%HE.
    by apply Hr.
Qed.

(** Complete: every valid item is listed. *)
Lemma sorted_complete final x :
  NoDup final -> (forall i, i ∈ final -> (i < n)%nat) -> length final = n ->
  x ∈ (item_of nf <$> final) <-> valid_item fs cs x.
Proof.
  intros Hnd Hb Hlen. rewrite list_elem_of_fmap. split.
  - intros (i & -> & Hi%Hb). by apply valid_item_of.
  - intros Hx. exists (index_of nf x). rewrite item_of_index by done. split; [done|].
    assert (Hp : final ≡ₚ seq 0 n).
    { apply submseteq_length_Permutation; [|by rewrite length_seq, Hlen].
      apply NoDup_submseteq; [done|]. intros i Hi. apply elem_of_seq.
      specialize (Hb i Hi). lia. }
    rewrite Hp. apply elem_of_seq. split; [lia|]. apply valid_item_of.
    by rewrite item_of_index.
Qed.
End items.

(** C13: The topological sort always ends. If the dependencies of the fragments and
    commits have no cycle it lists every item once, each after all items it depends
    on; otherwise it reports how many items there are, and how many of them could be
    sorted: exactly those that are on no cycle and depend on none. *)
Theorem topsorted_blob_order_spec `{HashIter} t :
  keyed t ->
  let fs := hash_values (st_fragments t) in
  let cs := hash_values (st_commits t) in
  exists r, topsorted_blob_order t = Some r /\
    (is_ok r = true <-> exists rank : SedimentreeItem -> nat,
       forall x y, item_depends fs cs x y -> (rank y < rank x)%nat) /\
    match r with
    | Ok order =>
        NoDup order /\ (forall x, x ∈ order <-> valid_item fs cs x) /\
        forall l1 x l2, order = l1 ++ x :: l2 -> forall y, item_depends fs cs x y -> y ∈ l1
    | Err e =>
        ce_total e = (length fs + length cs)%nat /\ (ce_sorted e < ce_total e)%nat /\
        exists sorted, ce_sorted e = length sorted /\ NoDup sorted /\
          forall x, x ∈ sorted <-> valid_item fs cs x /\ sortable fs cs x
    end.
Proof.
  intros [Hkf Hkc] fs cs. unfold topsorted_blob_order. fold fs cs.
  assert (Hfs : NoDup (fr_head <$> fs)) by (by apply NoDup_hash_values_keys).
  assert (Hcs : NoDup (lc_head <$> cs)) by (by apply NoDup_hash_values_keys).
  case_decide as Hz.
  - exists (Ok []). split; [done|].
    assert (Hno : forall x, ~ valid_item fs cs x) by (intros [i|i]; simpl; lia).
    split; [split; [|done]|].
    + intros _. exists (fun _ => 0%nat). intros x y [Hx _]%item_depends_valid.
      by apply Hno in Hx.
    + split; [constructor|]. split; [set_solver|]. intros l1 x l2 Heq. by destruct l1.
  - destruct (sort_items fs cs Hfs Hcs) as (final & Hk & Hnd & Hb & Ho & Hsort & Hlen).
    destruct (item_graph fs cs) as [deg deps]. cbn [fst snd] in Hk. rewrite Hk.
    assert (Hnd' : NoDup (item_of (length fs) <$> final)).
    { apply NoDup_fmap_2_strong; [|done]. intros i j _ _. apply item_of_inj. }
    cbn [mbind option_bind]. eexists. split; [reflexivity|]. rewrite length_fmap.
    case_decide as Hn; simpl; rewrite <- Hlen.
    + split; [done|]. split; [done|].
      assert (length final <= length (seq 0 (length fs + length cs)))%nat as Hle.
      { apply submseteq_length, NoDup_submseteq; [done|]. intros i Hi. apply elem_of_seq.
        specialize (Hb i Hi). lia. }
      rewrite length_seq in Hle. split; [lia|]. exists (item_of (length fs) <$> final).
      by rewrite length_fmap.
    + split; [done|]. split; [|split; [|done]].
      * done.
      * intros x. by apply sorted_complete.
Qed.

#[local] Existing Instance blake3_sum.
#[local] Existing Instance bijou_fixed8.
#[local] Existing Instance hash_iter_by_encoding.

(** A commit on top of a fragment, and a commit on top of that. *)
Definition sortable_tree : Sedimentree :=
  Sedimentree_new [sample_fragment x09 [] [x0a]]
    [sample_commit x03 [x02] x06;
     LooseCommit_new (array_pad 32 [x01]) (array_pad 32 [x02])
       {[ array_pad 32 [x00; x09] ]} (from_digest_size (array_pad 32 [x06]) 1)].

Lemma topsorted_blob_order_spec_witness :
  (option_map is_ok (topsorted_blob_order sortable_tree) = Some true) /\
  exists r, topsorted_blob_order sortable_tree = Some r /\
    (is_ok r = true <-> exists rank : SedimentreeItem -> nat,
       forall x y, item_depends (hash_values (st_fragments sortable_tree))
                     (hash_values (st_commits sortable_tree)) x y -> (rank y < rank x)%nat).
Proof.
  split; [vm_compute; reflexivity|].
  destruct (topsorted_blob_order_spec sortable_tree (keyed_new _ _)) as (r & Hr & Hok & _).
  exists r. split; [exact Hr|exact Hok].
Defined.
