(* ===== verification/CommitStore.v ===== *)
(** * Building fragments from a commit store

    [sedimentree_core/src/commit.rs]: the trait [CommitStore] with [fragment], the
    walk that collects one fragment, and [build_fragment_store], which builds all
    fragments from the document heads down and then removes from each the members
    its ancestor fragments already have.

    The store is whatever implements the trait: [lookup] and [node_parents] are
    parameters. A store can be infinite, so the loops take their fuel as an
    argument; the theorems give fuel that is enough for a store with finitely many
    commits. *)

From Stdlib Require Import Strings.Byte NArith Lia.
From stdpp Require Import base gmap sorting strings list relations.
From S2P Require Import Prelude.
From S2P Require Import Codec.
From S2P Require Import Types.
From S2P Require Import Fragment.
From S2P Require Import Traversal.

Open Scope N_scope.

Record FragmentState (Node : Type) : Type := FragmentState_new {
  fst_head_id : CommitId;
  fst_members : gset CommitId;
  fst_checkpoints : gset CommitId;
  fst_boundary : gmap CommitId Node
}.
Arguments FragmentState_new {Node}.
Arguments fst_head_id {Node}.
Arguments fst_members {Node}.
Arguments fst_checkpoints {Node}.
Arguments fst_boundary {Node}.

Inductive FragmentError (LookupError : Type) : Type :=
| FE_LookupError (e : LookupError)
| FE_MissingCommit (id : CommitId)
| FE_DepthZeroHead (id : CommitId).
Arguments FE_LookupError {LookupError}.
Arguments FE_MissingCommit {LookupError}.
Arguments FE_DepthZeroHead {LookupError}.

(** [FragmentState::to_fragment] *)
Definition to_fragment `{HashIter} {Node} (self : FragmentState Node)
    (sedimentree_id : SedimentreeId) (blob_meta : BlobMeta) : Fragment :=
  Fragment_new sedimentree_id (fst_head_id self)
    (list_to_set (hash_keys (fst_boundary self)))
    (hashset_iter (fst_checkpoints self)) blob_meta.

(** [FragmentState::retain_members] *)
Definition retain_members {Node} (predicate : CommitId -> bool) (self : FragmentState Node) :
  FragmentState Node :=
  FragmentState_new (fst_head_id self)
    (filter (fun c => predicate c = true) (fst_members self))
    (filter (fun c => predicate c = true) (fst_checkpoints self))
    (fst_boundary self).

Section ancestors.
Context `{HashIter} {Node : Type}.
Implicit Types known : gmap CommitId (FragmentState Node).

Definition boundary_succ known (b : CommitId) : list CommitId :=
  match known !! b with
  | Some anc => hash_keys (fst_boundary anc)
  | None => []
  end.

Definition collect_members known (b : CommitId) (acc : gset CommitId) : gset CommitId :=
  match known !! b with
  | Some anc => acc ∪ fst_members anc
  | None => acc
  end.

(** One iteration per boundary entry of the known fragments suffices. *)
Definition ancestor_fuel known (n_roots : nat) : nat :=
  S (n_roots + pushes (boundary_succ known) (dom known)).

(** [FragmentState::transitive_ancestor_members] *)
Definition transitive_ancestor_members (self : FragmentState Node) known :
  option (gset CommitId) :=
  let to_visit := rev (hash_keys (fst_boundary self)) in
  snd <$> worklist id (collect_members known) (boundary_succ known)
            (ancestor_fuel known (length to_visit)) to_visit ∅ ∅.
End ancestors.

Section store.
Context `{HashIter} {Node LookupError : Type}.
Context (node_parents : Node -> gset CommitId).
Context (lookup : CommitId -> result LookupError (option Node)).
Context (strategy : DepthMetric).

(** The loop of [fragment]; the head of [queue] is the top of the stack. *)
Fixpoint fragment_loop (fuel : nat) (head_depth : Depth) (queue : list CommitId)
    (visited members : gset CommitId) (boundary : gmap CommitId Node)
    (checkpoints : gset CommitId) :
  option (result (FragmentError LookupError)
            (gset CommitId * gmap CommitId Node * gset CommitId)) :=
  match fuel with
  | O => None
  | S fuel' =>
      match queue with
      | [] => Some (Ok (members, boundary, checkpoints))
      | id :: queue' =>
          if decide (id ∈ visited) then
            fragment_loop fuel' head_depth queue' visited members boundary checkpoints
          else
            let visited := {[ id ]} ∪ visited in
            match lookup id with
            | Err e => Some (Err (FE_LookupError e))
            | Ok None => Some (Err (FE_MissingCommit id))
            | Ok (Some node) =>
                let depth := strategy id in
                if head_depth <=? depth then
                  fragment_loop fuel' head_depth queue' visited members
                    (<[id := node]> boundary) checkpoints
                else
                  fragment_loop fuel' head_depth
                    (rev (filter (fun p => p ∉ visited) (hashset_iter (node_parents node)))
                       ++ queue')
                    visited ({[ id ]} ∪ members) boundary
                    (if is_boundary depth && (depth <? head_depth)
                     then {[ id ]} ∪ checkpoints else checkpoints)
            end
      end
  end.

(** "Strip overlap with already-known deeper fragments." *)
Definition strip_known (known : gmap CommitId (FragmentState Node))
    (boundary : gmap CommitId Node) (st : gset CommitId * gset CommitId) :
  gset CommitId * gset CommitId :=
  foldl (fun '(members, checkpoints) boundary_hash =>
      match known !! boundary_hash with
      | Some k => (members ∖ fst_members k, checkpoints ∖ fst_members k)
      | None => (members, checkpoints)
      end) st (hash_keys boundary).

(** [CommitStore::fragment] *)
Definition fragment (fuel : nat) (head_id : CommitId)
    (known : gmap CommitId (FragmentState Node)) :
  option (result (FragmentError LookupError) (FragmentState Node)) :=
  let head_depth := strategy head_id in
  if negb (is_boundary head_depth) then Some (Err (FE_DepthZeroHead head_id))
  else
    match lookup head_id with
    | Err e => Some (Err (FE_LookupError e))
    | Ok None => Some (Err (FE_MissingCommit head_id))
    | Ok (Some head_node) =>
        let queue := rev (hashset_iter (node_parents head_node)) in
        r ← fragment_loop fuel head_depth queue {[ head_id ]} {[ head_id ]} ∅ ∅;
        Some (let? (members, boundary, checkpoints) := r in
              let '(members, checkpoints) := strip_known known boundary (members, checkpoints) in
              Ok (FragmentState_new head_id members checkpoints boundary))
    end.

(** The main loop of [build_fragment_store]: the known states and the fresh heads. *)
Fixpoint build_loop (fuel inner : nat) (queue : list CommitId) (visited : gset CommitId)
    (known : gmap CommitId (FragmentState Node)) (fresh_heads : list CommitId) :
  option (result (FragmentError LookupError)
            (gmap CommitId (FragmentState Node) * list CommitId)) :=
  match fuel with
  | O => None
  | S fuel' =>
      match queue with
      | [] => Some (Ok (known, fresh_heads))
      | head :: queue' =>
          if decide (head ∈ visited) then build_loop fuel' inner queue' visited known fresh_heads
          else
            let visited := {[ head ]} ∪ visited in
            match known !! head with
            | Some state =>
                build_loop fuel' inner (rev (hash_keys (fst_boundary state)) ++ queue')
                  visited known fresh_heads
            | None =>
                if negb (is_boundary (strategy head)) then
                  match lookup head with
                  | Err e => Some (Err (FE_LookupError e))
                  | Ok (Some node) =>
                      build_loop fuel' inner (rev (hashset_iter (node_parents node)) ++ queue')
                        visited known fresh_heads
                  | Ok None => build_loop fuel' inner queue' visited known fresh_heads
                  end
                else
                  r ← fragment inner head known;
                  match r with
                  | Ok state =>
                      build_loop fuel' inner (rev (hash_keys (fst_boundary state)) ++ queue')
                        visited (<[head := state]> known) (fresh_heads ++ [head])
                  | Err (FE_MissingCommit _) =>
                      build_loop fuel' inner queue' visited known fresh_heads
                  | Err e => Some (Err e)
                  end
            end
      end
  end.

(** [for result in level_results { successes.push(result?) }] *)
Fixpoint mapM_ok {A E} (l : list (result E A)) : result E (list A) :=
  match l with
  | [] => Ok []
  | r :: l => let? x := r in let? xs := mapM_ok l in Ok (x :: xs)
  end.

(** The post-pass at one head. *)
Definition dedupe_head (known : gmap CommitId (FragmentState Node)) (head : CommitId) :
  option (gmap CommitId (FragmentState Node)) :=
  ancestor_members ←
    match known !! head with
    | Some state => transitive_ancestor_members state known
    | None => Some ∅
    end;
  Some (if decide (ancestor_members = ∅) then known
        else alter (retain_members (fun c => bool_decide (c ∉ ancestor_members))) head known).

Definition dedupe (known : gmap CommitId (FragmentState Node)) (heads : list CommitId) :
  option (gmap CommitId (FragmentState Node)) :=
  foldl (fun acc head => known ← acc; dedupe_head known head) (Some known) heads.

(** [CommitStore::build_fragment_store]: the updated known states and the fresh
    ones; the last loop's [expect] is a [None]. *)
Definition build_fragment_store (fuel inner : nat) (head_ids : list CommitId)
    (known : gmap CommitId (FragmentState Node)) :
  option (result (FragmentError LookupError)
            (gmap CommitId (FragmentState Node) * list (FragmentState Node))) :=
  r ← build_loop fuel inner (rev head_ids) ∅ known [];
  match r with
  | Err e => Some (Err e)
  | Ok (known, fresh_heads) =>
      known ← dedupe known fresh_heads;
      fresh ← mapM (fun h => known !! h) fresh_heads;
      Some (Ok (known, fresh))
  end.

(** "Walk past depth-0 commits": the stack of depth-0 commits still to expand and
    the heads found so far. *)
Fixpoint par_walk_d0 (fuel : nat) (known : gmap CommitId (FragmentState Node))
    (pending : list CommitId) (visited_d0 : gset CommitId) (horizon : list CommitId) :
  option (result (FragmentError LookupError) (list CommitId)) :=
  match fuel with
  | O => None
  | S fuel' =>
      match pending with
      | [] => Some (Ok horizon)
      | d :: pending' =>
          match lookup d with
          | Err e => Some (Err (FE_LookupError e))
          | Ok None => par_walk_d0 fuel' known pending' visited_d0 horizon
          | Ok (Some node) =>
              let '(pending'', visited_d0, horizon) :=
                foldl (fun '(pending, visited_d0, horizon) p =>
                    match known !! p with
                    | Some _ => (pending, visited_d0, horizon)
                    | None =>
                        if is_boundary (strategy p) then (pending, visited_d0, horizon ++ [p])
                        else if decide (p ∈ visited_d0) then (pending, visited_d0, horizon)
                        else (p :: pending, {[ p ]} ∪ visited_d0, horizon)
                    end)
                  (pending', visited_d0, horizon) (hashset_iter (node_parents node)) in
              par_walk_d0 fuel' known pending'' visited_d0 horizon
          end
      end
  end.

(** The first [retain] with its side effect: the heads kept, the depth-0 commits
    to expand and the set of them. *)
Definition par_split_d0 (horizon : list CommitId) :
  list CommitId * list CommitId * gset CommitId :=
  foldl (fun '(kept, pending, visited_d0) h =>
      if is_boundary (strategy h) then (kept ++ [h], pending, visited_d0)
      else if decide (h ∈ visited_d0) then (kept, pending, visited_d0)
      else (kept, h :: pending, {[ h ]} ∪ visited_d0))
    ([], [], ∅) horizon.

(** The parallel phase: one result per head whose history is complete, in the order
    of the horizon, which [rayon]'s indexed [collect] keeps. *)
Definition par_level (inner : nat) (snapshot : gmap CommitId (FragmentState Node))
    (horizon : list CommitId) :
  option (list (result (FragmentError LookupError) (CommitId * FragmentState Node))) :=
  omap id <$> mapM (fun head =>
      r ← fragment inner head snapshot;
      Some (match r with
            | Ok state => Some (Ok (head, state))
            | Err (FE_MissingCommit _) => None
            | Err e => Some (Err e)
            end)) horizon.

(** The level loop of [build_fragment_store_par]. *)
Fixpoint par_levels (fuel inner : nat) (horizon : list CommitId)
    (known : gmap CommitId (FragmentState Node)) (all_heads : list CommitId) :
  option (result (FragmentError LookupError)
            (gmap CommitId (FragmentState Node) * list CommitId)) :=
  match fuel with
  | O => None
  | S fuel' =>
      let unknown := filter (fun h => known !! h = None) in
      let horizon := unknown horizon in
      if decide (horizon = []) then Some (Ok (known, all_heads)) else
      let '(kept, pending, visited_d0) := par_split_d0 horizon in
      r ← par_walk_d0 inner known pending visited_d0 kept;
      match r with
      | Err e => Some (Err e)
      | Ok horizon =>
          let horizon := unknown horizon in
          if decide (horizon = []) then Some (Ok (known, all_heads)) else
          level_results ← par_level inner known horizon;
          match mapM_ok level_results with
          | Err e => Some (Err e)
          | Ok successes =>
              let '(next_horizon, all_heads, known) :=
                foldl (fun '(next, heads, known) '(head, state) =>
                    (next ++ hash_keys (fst_boundary state), heads ++ [head],
                     <[head := state]> known))
                  ([], all_heads, known) successes in
              par_levels fuel' inner next_horizon known all_heads
          end
      end
  end.

(** [CommitStore::build_fragment_store_par] *)
Definition build_fragment_store_par (fuel inner : nat) (head_ids : list CommitId)
    (known : gmap CommitId (FragmentState Node)) :
  option (result (FragmentError LookupError)
            (gmap CommitId (FragmentState Node) * list (FragmentState Node))) :=
  r ← par_levels fuel inner head_ids known [];
  match r with
  | Err e => Some (Err e)
  | Ok (known, all_heads) =>
      known ← dedupe known all_heads;
      fresh ← mapM (fun h => known !! h) all_heads;
      Some (Ok (known, fresh))
  end.
End store.

(** ** What one fragment contains *)

Section fragment_spec.
Context `{HashIter} {Node LookupError : Type}.
Context (node_parents : Node -> gset CommitId).
Context (lookup : CommitId -> result LookupError (option Node)).
Context (strategy : DepthMetric).
Context (head : CommitId).

(** The commits a fragment expands: its head and what is shallower. *)
Definition absorbed (x : CommitId) : Prop := x = head \/ strategy x < strategy head.

Definition fragment_edge (x p : CommitId) : Prop :=
  absorbed x /\ exists node, lookup x = Ok (Some node) /\ p ∈ node_parents node.

Definition fragment_reaches (x : CommitId) : Prop := rtc fragment_edge head x.

(** The fragment of [head] before the overlap with known fragments is removed. *)
Definition fragment_content (members : gset CommitId) (boundary : gmap CommitId Node)
    (checkpoints : gset CommitId) : Prop :=
  (forall x, x ∈ members <-> fragment_reaches x /\ absorbed x) /\
  (forall x node, boundary !! x = Some node <->
     fragment_reaches x /\ ~ absorbed x /\ lookup x = Ok (Some node)) /\
  (forall x, x ∈ checkpoints <->
     fragment_reaches x /\ x <> head /\ 0 < strategy x /\ strategy x < strategy head) /\
  (forall x, fragment_reaches x -> exists node, lookup x = Ok (Some node)).

(** An error names a commit the walk reached. *)
Definition fragment_failure (e : FragmentError LookupError) : Prop :=
  match e with
  | FE_LookupError e => exists x, fragment_reaches x /\ lookup x = Err e
  | FE_MissingCommit x => fragment_reaches x /\ lookup x = Ok None
  | FE_DepthZeroHead x => x = head /\ strategy head = 0
  end.

Definition walk_invariant (queue : list CommitId) (visited members : gset CommitId)
    (boundary : gmap CommitId Node) (checkpoints : gset CommitId) : Prop :=
  head ∈ visited /\
  (forall x, x ∈ queue \/ x ∈ visited -> fragment_reaches x) /\
  (forall x p, x ∈ visited -> fragment_edge x p -> p ∈ visited \/ p ∈ queue) /\
  (forall x, x ∈ members <-> x ∈ visited /\ absorbed x) /\
  (forall x node, boundary !! x = Some node <->
     x ∈ visited /\ ~ absorbed x /\ lookup x = Ok (Some node)) /\
  (forall x, x ∈ checkpoints <->
     x ∈ visited /\ x <> head /\ 0 < strategy x /\ strategy x < strategy head) /\
  (forall x, x ∈ visited -> exists node, lookup x = Ok (Some node)).

Lemma walk_invariant_done visited members boundary checkpoints :
  walk_invariant [] visited members boundary checkpoints ->
  fragment_content members boundary checkpoints.
Proof.
  intros (Hh & Hr & Hc & Hm & Hb & Hk & Hl).
  assert (Hv : forall x, x ∈ visited <-> fragment_reaches x).
  { intros x. split; [by eauto|]. unfold fragment_reaches. intros Hx.
    revert x Hx. apply rtc_ind_r; [done|]. intros y z _ Hst IH.
    destruct (Hc _ _ IH Hst) as [|[]%not_elem_of_nil]; done. }
  split; [|split; [|split]]; setoid_rewrite <- Hv; auto.
Qed.

Lemma walk_invariant_skip id queue visited members boundary checkpoints :
  id ∈ visited -> walk_invariant (id :: queue) visited members boundary checkpoints ->
  walk_invariant queue visited members boundary checkpoints.
Proof.
  intros Hv (Hh & Hr & Hc & Hrest). split; [done|]. split; [|split; [|done]].
  - intros x Hx. apply Hr. rewrite elem_of_cons. tauto.
  - intros x p Hx He. destruct (Hc x p Hx He) as [|[->|]%elem_of_cons]; auto.
Qed.

(** Marking the popped commit visited. *)
Lemma walk_invariant_pop id queue visited members boundary checkpoints :
  walk_invariant (id :: queue) visited members boundary checkpoints ->
  head ∈ {[ id ]} ∪ visited /\
  (forall x, x ∈ queue \/ x ∈ {[ id ]} ∪ visited -> fragment_reaches x) /\
  (forall x p, x ∈ visited -> fragment_edge x p -> p ∈ {[ id ]} ∪ visited \/ p ∈ queue).
Proof.
  intros (Hh & Hr & Hc & _). split; [|split].
  - by apply elem_of_union_r.
  - intros x Hx. apply Hr. rewrite elem_of_cons.
    rewrite elem_of_union, elem_of_singleton in Hx. tauto.
  - intros x p Hx He. rewrite elem_of_union, elem_of_singleton.
    destruct (Hc x p Hx He) as [|[->|]%elem_of_cons]; auto.
Qed.

Lemma walk_invariant_boundary id node queue visited members boundary checkpoints :
  id ∉ visited -> lookup id = Ok (Some node) -> strategy head <= strategy id ->
  walk_invariant (id :: queue) visited members boundary checkpoints ->
  walk_invariant queue ({[ id ]} ∪ visited) members (<[id := node]> boundary) checkpoints.
Proof.
  intros Hv Hl Hd Hi. destruct (walk_invariant_pop _ _ _ _ _ _ Hi) as (Hh & Hr & Hc).
  destruct Hi as (Hhead & _ & _ & Hm & Hb & Hk & Hp).
  assert (Hid : ~ absorbed id) by (intros [->|]; [done|lia]).
  assert (Hw : forall x, x ∈ {[ id ]} ∪ visited <-> x = id \/ x ∈ visited)
    by set_solver +.
  split; [done|]. split; [done|]. split; [|split; [|split; [|split]]].
  - intros x p [->|Hx]%Hw He; [by destruct He|by eapply Hc].
  - intros x. rewrite Hm, Hw. split; [tauto|]. intros ([->|] & ?); tauto.
  - intros x n. rewrite Hw. destruct (decide (x = id)) as [->|Hne].
    + rewrite lookup_insert_eq, Hl. split; [intros [= <-]; tauto|by intros (_ & _ & [= <-])].
    + rewrite lookup_insert_ne, Hb by done. tauto.
  - intros x. rewrite Hk, Hw. split; [tauto|]. intros ([->|?] & ? & ? & ?); [lia|done].
  - intros x [->|Hx]%Hw; [by eexists|auto].
Qed.

Lemma walk_invariant_absorb id node queue visited members boundary checkpoints :
  id ∉ visited -> lookup id = Ok (Some node) -> strategy id < strategy head ->
  walk_invariant (id :: queue) visited members boundary checkpoints ->
  walk_invariant
    (rev (filter (fun p => p ∉ ({[ id ]} ∪ visited)) (hashset_iter (node_parents node))) ++ queue)
    ({[ id ]} ∪ visited) ({[ id ]} ∪ members) boundary
    (if is_boundary (strategy id) && (strategy id <? strategy head)
     then {[ id ]} ∪ checkpoints else checkpoints).
Proof.
  intros Hv Hl Hd Hi. destruct (walk_invariant_pop _ _ _ _ _ _ Hi) as (Hh & Hr & Hc).
  destruct Hi as (Hhead & _ & _ & Hm & Hb & Hk & Hp).
  assert (Hid : absorbed id) by by right.
  assert (Hne : id <> head) by (intros ->; done).
  assert (Hw : forall x, x ∈ {[ id ]} ∪ visited <-> x = id \/ x ∈ visited)
    by set_solver +.
  assert (Hq : forall p, p ∈ rev (filter (fun p => p ∉ ({[ id ]} ∪ visited))
                              (hashset_iter (node_parents node))) <->
                         p ∉ ({[ id ]} ∪ visited) /\ p ∈ node_parents node).
  { intros p. rewrite list_elem_of_In, <- in_rev, <- list_elem_of_In, list_elem_of_filter.
    by rewrite elem_of_hashset_iter. }
  split; [done|]. split; [|split; [|split; [|split; [|split]]]].
  - intros x [[Hx|Hx]%elem_of_app|Hx]; [|by auto..].
    apply Hq in Hx as [_ Hx]. unfold fragment_reaches.
    eapply rtc_r; [apply (Hr id); rewrite Hw; auto|]. split; [done|]. eauto.
  - intros x p Hx He. rewrite elem_of_app, Hq.
    destruct (decide (p ∈ {[ id ]} ∪ visited)) as [|Hpv]; [by left|right].
    apply Hw in Hx as [->|Hx].
    + destruct He as (_ & n & Hn & Hpn). rewrite Hl in Hn. simplify_eq. auto.
    + destruct (Hc x p Hx He); [done|auto].
  - intros x. rewrite elem_of_union, elem_of_singleton, Hm, Hw. split; [intros [->|]|]; tauto.
  - intros x n. rewrite Hb, Hw. split; [tauto|]. intros ([->|] & ?); tauto.
  - intros x. assert (strategy id <? strategy head = true) as -> by (by apply N.ltb_lt).
    rewrite andb_true_r, Hw. unfold is_boundary.
    destruct (0 <? strategy id) eqn:Hz; [apply N.ltb_lt in Hz|apply N.ltb_ge in Hz];
      rewrite ?elem_of_union, Hk, ?elem_of_singleton.
    + split; [intros [->|]; tauto|]. intros ([->|?] & ?); auto.
    + split; [tauto|]. intros ([->|?] & ?); [lia|auto].
  - intros x [->|Hx]%Hw; [by eexists|auto].
Qed.

(** What the walk can push at a commit. *)
Definition store_succ (x : CommitId) : list CommitId :=
  match lookup x with
  | Ok (Some node) => hashset_iter (node_parents node)
  | _ => []
  end.

Lemma walk_pushes u visited id node :
  (forall x n, lookup x = Ok (Some n) -> x ∈ u) -> id ∉ visited ->
  lookup id = Ok (Some node) ->
  pushes store_succ (u ∖ visited) =
    (length (hashset_iter (node_parents node)) +
     pushes store_succ (u ∖ ({[ id ]} ∪ visited)))%nat.
Proof.
  intros Hu Hv Hl. rewrite (pushes_visit store_succ u visited id); [|by apply Hu in Hl|done].
  unfold store_succ at 1. by rewrite Hl.
Qed.

(** The walk ends, with the fragment or with an error at a commit it reached. *)
Lemma fragment_loop_spec u fuel queue visited members boundary checkpoints :
  (forall x n, lookup x = Ok (Some n) -> x ∈ u) ->
  (length queue + pushes store_succ (u ∖ visited) < fuel)%nat ->
  walk_invariant queue visited members boundary checkpoints ->
  exists r, fragment_loop node_parents lookup strategy fuel (strategy head)
              queue visited members boundary checkpoints = Some r /\
    match r with
    | Ok (members, boundary, checkpoints) => fragment_content members boundary checkpoints
    | Err e => fragment_failure e /\ forall x, e <> FE_DepthZeroHead x
    end.
Proof.
  intros Hu. revert queue visited members boundary checkpoints.
  induction fuel as [|fuel IH]; intros queue visited members boundary checkpoints Hf Hi; [lia|].
  destruct queue as [|id queue]; simpl.
  { eexists. split; [done|]. by eapply walk_invariant_done. }
  simpl in Hf. case_decide as Hv.
  { apply IH; [lia|]. by eapply walk_invariant_skip. }
  assert (Hr : fragment_reaches id) by (apply Hi; left; by constructor).
  destruct (lookup id) as [[node|]|e] eqn:Hl; [|eexists; split; [done|]; naive_solver..].
  rewrite (walk_pushes u visited id node) in Hf by done.
  destruct (N.leb_spec (strategy head) (strategy id)).
  - apply IH; [lia|]. by apply walk_invariant_boundary.
  - apply IH; [|by apply walk_invariant_absorb].
    rewrite length_app, length_rev.
    pose proof (length_filter (fun p => p ∉ {[ id ]} ∪ visited)
                  (hashset_iter (node_parents node))). lia.
Qed.

Lemma walk_invariant_init node :
  lookup head = Ok (Some node) ->
  walk_invariant (rev (hashset_iter (node_parents node))) {[ head ]} {[ head ]} ∅ ∅.
Proof.
  intros Hl.
  assert (Hq : forall p, p ∈ rev (hashset_iter (node_parents node)) <-> p ∈ node_parents node).
  { intros p. by rewrite list_elem_of_In, <- in_rev, <- list_elem_of_In, elem_of_hashset_iter. }
  assert (Hh : absorbed head) by by left.
  split; [set_solver|]. split; [|split; [|split; [|split; [|split]]]].
  - intros x [Hx | ->%elem_of_singleton]; [|apply rtc_refl].
    apply rtc_once. split; [done|]. exists node. by rewrite <- Hq.
  - intros x p ->%elem_of_singleton (_ & n & Hn & Hp). rewrite Hl in Hn. simplify_eq. right. by apply Hq.
  - intros x. set_solver.
  - intros x n. rewrite lookup_empty. set_solver.
  - set_solver.
  - intros x ->%elem_of_singleton. eauto.
Qed.
End fragment_spec.

Section strip.
Context `{HashIter} {Node : Type}.
Implicit Types known : gmap CommitId (FragmentState Node).

(** A commit that a known fragment at the boundary has as a member. *)
Definition known_at_boundary known (boundary : gmap CommitId Node) (x : CommitId) : Prop :=
  exists b k, is_Some (boundary !! b) /\ known !! b = Some k /\ x ∈ fst_members k.

Lemma strip_known_spec known boundary members checkpoints x :
  let r := strip_known known boundary (members, checkpoints) in
  (x ∈ r.1 <-> x ∈ members /\ ~ known_at_boundary known boundary x) /\
  (x ∈ r.2 <-> x ∈ checkpoints /\ ~ known_at_boundary known boundary x).
Proof.
  assert (Hg : forall keys members checkpoints,
    let r := foldl (fun '(members, checkpoints) b =>
        match known !! b with
        | Some k => (members ∖ fst_members k, checkpoints ∖ fst_members k)
        | None => (members, checkpoints)
        end) (members, checkpoints) keys in
    let hit := exists b k, b ∈ keys /\ known !! b = Some k /\ x ∈ fst_members k in
    (x ∈ r.1 <-> x ∈ members /\ ~ hit) /\ (x ∈ r.2 <-> x ∈ checkpoints /\ ~ hit)).
  { induction keys as [|b keys IH]; intros ms cs; simpl; [set_solver|].
    assert (Hc : (exists b' k, b' ∈ b :: keys /\ known !! b' = Some k /\ x ∈ fst_members k) <->
      match known !! b with Some k => x ∈ fst_members k | None => False end \/
      (exists b' k, b' ∈ keys /\ known !! b' = Some k /\ x ∈ fst_members k)).
    { split.
      - intros (b' & k & [->|Hb]%elem_of_cons & Hk & Hx); [left; by rewrite Hk|right; eauto].
      - intros [Hx|(b' & k & Hb & Hk & Hx)].
        + destruct (known !! b) as [k|] eqn:Hk; [|done]. exists b, k. by split; [constructor|].
        + exists b', k. by split; [constructor|]. }
    destruct (known !! b) as [k|]; rewrite !(proj1 (IH _ _)), !(proj2 (IH _ _)), Hc;
      rewrite ?elem_of_difference; tauto. }
  simpl. destruct (Hg (hash_keys boundary) members checkpoints) as [H1 H2].
  unfold strip_known. rewrite H1, H2. unfold known_at_boundary.
  by setoid_rewrite elem_of_hash_keys.
Qed.
End strip.

Section fragment_claim.
Context `{HashIter} {Node LookupError : Type}.
Context (node_parents : Node -> gset CommitId).
Context (lookup : CommitId -> result LookupError (option Node)).
Context (strategy : DepthMetric).

(** One more step than the parents of all commits of the store. *)
Definition fragment_fuel (u : gset CommitId) : nat :=
  S (pushes (store_succ node_parents lookup) u).

Lemma fragment_returns u fuel head known :
  (forall x n, lookup x = Ok (Some n) -> x ∈ u) ->
  (fragment_fuel u <= fuel)%nat ->
  exists r, fragment node_parents lookup strategy fuel head known = Some r /\
    match r with
    | Err e => fragment_failure node_parents lookup strategy head e
    | Ok st =>
        exists members boundary checkpoints,
          fragment_content node_parents lookup strategy head members boundary checkpoints /\
          0 < strategy head /\
          fst_head_id st = head /\ fst_boundary st = boundary /\
          (forall x, x ∈ fst_members st <->
             x ∈ members /\ ~ known_at_boundary known boundary x) /\
          (forall x, x ∈ fst_checkpoints st <->
             x ∈ checkpoints /\ ~ known_at_boundary known boundary x)
    end.
Proof.
  intros Hu Hf. unfold fragment, is_boundary.
  destruct (N.ltb_spec 0 (strategy head)); simpl;
    [|eexists; split; [done|]; simpl; split; [done|lia]].
  destruct (lookup head) as [[node|]|e] eqn:Hl.
  2-3: eexists; split; [done|]; simpl; repeat eexists; try done; apply rtc_refl.
  destruct (fragment_loop_spec node_parents lookup strategy head u fuel
    (rev (hashset_iter (node_parents node))) {[ head ]} {[ head ]} ∅ ∅ Hu) as (r & -> & Hr).
  { unfold fragment_fuel in Hf. rewrite <- (difference_empty_L u) in Hf.
    rewrite (walk_pushes _ _ u ∅ head node), union_empty_r_L in Hf by set_solver.
    rewrite length_rev. lia. }
  { by apply walk_invariant_init. }
  simpl. eexists. split; [done|]. destruct r as [[[ms b] cs]|e]; simpl; [|by destruct Hr].
  pose proof (strip_known_spec known b ms cs) as Hs.
  destruct (strip_known known b (ms, cs)) as [ms' cs'] eqn:Hst. simpl in *.
  exists ms, b, cs. split_and!; try done; intros x; apply (Hs x).
Qed.

(** C28: [fragment] on a store of finitely many commits always returns. It succeeds
    exactly when the head has depth above 0 and every commit the walk reaches is in
    the store; an error names a reached commit and says what was wrong with it. The
    members are the commits reached from the head through shallower commits only,
    the boundary the first commits of the same or a larger depth on every such
    path, the checkpoints the shallower members of depth above 0, and members and
    checkpoints leave out what a known fragment at the boundary has already. *)
Theorem fragment_spec u fuel head known :
  (forall x n, lookup x = Ok (Some n) -> x ∈ u) ->
  (fragment_fuel u <= fuel)%nat ->
  let reaches := fragment_reaches node_parents lookup strategy head in
  exists r, fragment node_parents lookup strategy fuel head known = Some r /\
    ((exists st, r = Ok st) <->
       0 < strategy head /\ forall x, reaches x -> exists node, lookup x = Ok (Some node)) /\
    (forall e, r = Err e -> fragment_failure node_parents lookup strategy head e) /\
    (forall st, r = Ok st ->
       let overlap := known_at_boundary known (fst_boundary st) in
       fst_head_id st = head /\
       (forall x, x ∈ fst_members st <->
          reaches x /\ (x = head \/ strategy x < strategy head) /\ ~ overlap x) /\
       (forall x node, fst_boundary st !! x = Some node <->
          reaches x /\ x <> head /\ strategy head <= strategy x /\ lookup x = Ok (Some node)) /\
       (forall x, x ∈ fst_checkpoints st <->
          reaches x /\ x <> head /\ 0 < strategy x < strategy head /\ ~ overlap x)).
Proof.
  intros Hu Hf reaches.
  destruct (fragment_returns u fuel head known Hu Hf) as (r & Hr & Hs).
  exists r. split; [done|]. destruct r as [st|e].
  - destruct Hs as (ms & b & cs & (Hm & Hb & Hc & Hl) & Hd & Hh & <- & Hms & Hcs).
    split; [|split; [done|]].
    + split; [|by eauto]. intros _. split; [done|]. exact Hl.
    + intros st' [= <-]. split; [done|]. unfold absorbed in *. split; [|split].
      * intros x. rewrite Hms, Hm. tauto.
      * intros x n. rewrite Hb. unfold reaches. intuition lia.
      * intros x. rewrite Hcs, Hc. tauto.
  - split; [|split; [by intros ? [= <-]|done]].
    split; [intros (? & ?); done|]. intros [Hd Hl].
    destruct e as [e|x|x]; simpl in Hs.
    + destruct Hs as (x & Hx & Hlx). destruct (Hl x Hx). congruence.
    + destruct Hs as [Hx Hlx]. destruct (Hl x Hx). congruence.
    + lia.
Qed.
End fragment_claim.

(** ** A small store *)

(** A store backed by a map: [lookup] never fails. *)
Definition map_lookup_store (m : gmap CommitId (gset CommitId)) (id : CommitId) :
  result Empty_set (option (gset CommitId)) := Ok (m !! id).

Lemma map_lookup_store_dom m x n : map_lookup_store m x = Ok (Some n) -> x ∈ dom m.
Proof. unfold map_lookup_store. intros [= E]. by apply elem_of_dom_2 in E. Qed.

(** Two concurrent heads [h1] and [h2] of depth 1 over a chain of loose commits down
    to a commit of depth 2. *)
Definition store_id (depth tag : N) : CommitId :=
  array_pad 32 (replicate (N.to_nat depth) x00 ++ [byte_of_N tag]).

Definition sample_store : gmap CommitId (gset CommitId) :=
  list_to_map
    [(store_id 1 1, {[ store_id 0 3 ]});
     (store_id 1 2, {[ store_id 0 3; store_id 0 4 ]});
     (store_id 0 3, {[ store_id 0 4 ]});
     (store_id 0 4, {[ store_id 2 5 ]});
     (store_id 2 5, {[ store_id 0 6 ]});
     (store_id 0 6, ∅)].

Lemma fragment_spec_witness :
  let I := hash_iter_by_encoding in
  exists st,
    fragment id (map_lookup_store sample_store) CountLeadingZeroBytes 20 (store_id 1 1) ∅ =
      Some (Ok st) /\
    fst_head_id st = store_id 1 1 /\ bool_decide (store_id 0 3 ∈ fst_members st) = true.
Proof.
  intros I.
  assert (Hc : match fragment id (map_lookup_store sample_store) CountLeadingZeroBytes 20
                       (store_id 1 1) ∅ with
               | Some (Ok st) => bool_decide (store_id 0 3 ∈ fst_members st)
               | _ => false
               end = true) by (vm_compute; reflexivity).
  destruct (fragment_spec id (map_lookup_store sample_store) CountLeadingZeroBytes
              (dom sample_store) 20 (store_id 1 1) ∅ (map_lookup_store_dom sample_store))
    as (r & Hr & _ & _ & Hst).
  { apply Nat.leb_le. vm_compute. reflexivity. }
  rewrite Hr in Hc |- *. destruct r as [st|]; [|discriminate Hc].
  exists st. split; [reflexivity|]. split; [exact (proj1 (Hst st eq_refl))|exact Hc].
Defined.
