(* ===== verification/FragmentStore.v ===== *)
(** * Building all fragments of a document

    The theorems on [build_fragment_store] of [CommitStore.v]: it always ends on a
    finite store, the fragments it returns do not share a member with a fragment
    further down their boundary chain, and no commit of the document is lost. *)

From Stdlib Require Import Strings.Byte NArith Lia.
From stdpp Require Import base gmap sorting strings list relations.
From S2P Require Import Prelude.
From S2P Require Import Codec.
From S2P Require Import Types.
From S2P Require Import Fragment.
From S2P Require Import Traversal.
From S2P Require Import CommitStore.

Open Scope N_scope.

(** ** The chain of boundaries *)

Section ancestors.
Context `{HashIter} {Node : Type}.
Implicit Types known : gmap CommitId (FragmentState Node).
Implicit Types st : FragmentState Node.

Definition boundary_edge known (x y : CommitId) : Prop :=
  exists anc, known !! x = Some anc /\ is_Some (fst_boundary anc !! y).

(** [b] is the head of a fragment further down from [st]. *)
Definition ancestor known st (b : CommitId) : Prop :=
  exists r, is_Some (fst_boundary st !! r) /\ rtc (boundary_edge known) r b.

(** A commit that some ancestor fragment has as a member. *)
Definition ancestor_has known st (x : CommitId) : Prop :=
  exists b anc, ancestor known st b /\ known !! b = Some anc /\ x ∈ fst_members anc.

Lemma elem_of_boundary_succ known x y : y ∈ boundary_succ known x <-> boundary_edge known x y.
Proof.
  unfold boundary_succ, boundary_edge. destruct (known !! x) as [anc|].
  - rewrite elem_of_hash_keys. split; [by eauto|by intros (? & [= <-] & ?)].
  - split; [by intros ?%not_elem_of_nil|by intros (? & ? & _)].
Qed.

Lemma reached_ancestor known st b :
  reached id (boundary_succ known) (rev (hash_keys (fst_boundary st))) b <-> ancestor known st b.
Proof.
  unfold reached, ancestor, id.
  assert (Hl : forall x y, leads (fun x => x) (boundary_succ known) x y <-> boundary_edge known x y).
  { intros x y. rewrite <- elem_of_boundary_succ. unfold leads.
    split; [by intros (? & ? & ->)|by eauto]. }
  assert (Hr : forall x y, rtc (leads (fun x => x) (boundary_succ known)) x y <->
                           rtc (boundary_edge known) x y).
  { intros x y. split; apply rtc_subrel; intros ? ?; apply Hl. }
  setoid_rewrite Hr. setoid_rewrite list_elem_of_In. setoid_rewrite <- in_rev.
  setoid_rewrite <- list_elem_of_In. by setoid_rewrite elem_of_hash_keys.
Qed.

Lemma elem_of_foldl_collect known order acc x :
  x ∈ foldl (fun s y => collect_members known y s) acc order <->
  x ∈ acc \/ exists b anc, b ∈ order /\ known !! b = Some anc /\ x ∈ fst_members anc.
Proof.
  revert acc. induction order as [|b order IH]; intros acc; simpl.
  - split; [by left|]. intros [?|(? & ? & ?%not_elem_of_nil & _)]; done.
  - rewrite IH. unfold collect_members. setoid_rewrite elem_of_cons.
    destruct (known !! b) as [anc|] eqn:Hb; [rewrite elem_of_union|]; naive_solver.
Qed.

Lemma transitive_ancestor_members_spec known st :
  exists acc, transitive_ancestor_members st known = Some acc /\
    forall x, x ∈ acc <-> ancestor_has known st x.
Proof.
  unfold transitive_ancestor_members, ancestor_fuel.
  destruct (worklist_spec id (collect_members known) (boundary_succ known) (dom known)
    (S (length (rev (hash_keys (fst_boundary st))) + pushes (boundary_succ known) (dom known)))
    (rev (hash_keys (fst_boundary st))) ∅) as (order & -> & _ & Ho).
  { intros y _ Hy%not_elem_of_dom. unfold boundary_succ. by rewrite Hy. }
  { lia. }
  simpl. eexists. split; [done|]. intros x. rewrite elem_of_foldl_collect.
  unfold ancestor_has. setoid_rewrite Ho. setoid_rewrite reached_ancestor.
  rewrite elem_of_empty. tauto.
Qed.

(** ** The post-pass *)

(** [known'] has the fragments of [known], with the same heads and boundaries and
    with fewer members. *)
Definition shrinks known known' : Prop :=
  forall h, match known !! h, known' !! h with
            | Some st, Some st' =>
                fst_head_id st' = fst_head_id st /\ fst_boundary st' = fst_boundary st /\
                fst_members st' ⊆ fst_members st /\ fst_checkpoints st' ⊆ fst_checkpoints st
            | None, None => True
            | _, _ => False
            end.

#[export] Instance shrinks_refl : Reflexive shrinks.
Proof. intros known h. by destruct (known !! h). Qed.

#[export] Instance shrinks_trans : Transitive shrinks.
Proof.
  intros k1 k2 k3 H12 H23 h. specialize (H12 h). specialize (H23 h).
  destruct (k1 !! h), (k2 !! h), (k3 !! h); try done.
  destruct H12 as (? & ? & ? & ?), H23 as (? & ? & ? & ?).
  split_and!; [congruence..|by etrans|by etrans].
Qed.

Lemma shrinks_edge known known' x y :
  shrinks known known' -> boundary_edge known x y <-> boundary_edge known' x y.
Proof.
  intros Hs. specialize (Hs x). unfold boundary_edge.
  destruct (known !! x), (known' !! x); try done.
  destruct Hs as (_ & Hb & _). split; intros (anc & [= <-] & Hy); eexists; (split; [done|]).
  - by rewrite Hb.
  - by rewrite <- Hb.
Qed.

Lemma shrinks_ancestor known known' st st' b :
  shrinks known known' -> fst_boundary st' = fst_boundary st ->
  ancestor known st b <-> ancestor known' st' b.
Proof.
  intros Hs Hb. unfold ancestor. rewrite Hb.
  assert (Hr : forall x y, rtc (boundary_edge known) x y <-> rtc (boundary_edge known') x y).
  { intros x y. split; apply rtc_subrel; intros ? ? ?; by apply (shrinks_edge known known'). }
  by setoid_rewrite Hr.
Qed.

Lemma shrinks_ancestor_has known known' st st' x :
  shrinks known known' -> fst_boundary st' = fst_boundary st ->
  ancestor_has known' st' x -> ancestor_has known st x.
Proof.
  intros Hs Hb (b & anc & Ha & Hk & Hx). apply (shrinks_ancestor _ _ _ _ _ Hs Hb) in Ha.
  specialize (Hs b). rewrite Hk in Hs. destruct (known !! b) as [anc'|] eqn:Hk'; [|done].
  exists b, anc'. split; [done|]. split; [done|]. set_solver.
Qed.
End ancestors.

Section dedupe.
Context `{HashIter} {Node : Type}.
Implicit Types known : gmap CommitId (FragmentState Node).
Implicit Types st : FragmentState Node.

(** One head of the post-pass: exactly the members that an ancestor fragment has
    leave its fragment. *)
Lemma dedupe_head_spec known head :
  exists known', dedupe_head known head = Some known' /\ shrinks known known' /\
    (forall h, h <> head -> known' !! h = known !! h) /\
    (forall st, known !! head = Some st ->
       exists st', known' !! head = Some st' /\
         (forall x, x ∈ fst_members st' <-> x ∈ fst_members st /\ ~ ancestor_has known st x) /\
         (forall x, x ∈ fst_checkpoints st' <->
                      x ∈ fst_checkpoints st /\ ~ ancestor_has known st x)).
Proof.
  unfold dedupe_head. destruct (known !! head) as [st|] eqn:Hst; simpl.
  2: { eexists. split; [done|]. split; [reflexivity|]. done. }
  destruct (transitive_ancestor_members_spec known st) as (acc & -> & Ha). simpl.
  case_decide as He.
  { eexists. split; [done|]. split; [reflexivity|]. split; [done|].
    intros ? [= <-]. exists st. split; [done|]. split; intros x; rewrite <- Ha, He; set_solver +. }
  eexists. split; [done|]. split; [|split].
  - intros h. destruct (decide (h = head)) as [->|Hne].
    + rewrite lookup_alter_eq, Hst. simpl. split_and!; [done..|set_solver +|set_solver +].
    + rewrite lookup_alter_ne by done. by destruct (known !! h).
  - intros h Hne. by rewrite lookup_alter_ne.
  - intros ? [= <-]. rewrite lookup_alter_eq, Hst. eexists. split; [done|]. simpl.
    split; intros x; rewrite elem_of_filter, bool_decide_eq_true, Ha; tauto.
Qed.

(** No member of [st] is a member of an ancestor fragment. *)
Definition disjoint_from_ancestors known st : Prop :=
  forall x, x ∈ fst_members st \/ x ∈ fst_checkpoints st -> ~ ancestor_has known st x.

Lemma dedupe_disjoint known heads :
  exists known', dedupe known heads = Some known' /\ shrinks known known' /\
    (forall h, h ∉ heads -> known' !! h = known !! h) /\
    (forall h st, h ∈ heads -> known' !! h = Some st -> disjoint_from_ancestors known' st).
Proof.
  unfold dedupe. revert known. induction heads as [|head heads IH] using rev_ind; intros known.
  { exists known. split; [done|]. split; [reflexivity|]. split; [done|].
    by intros ? ? ?%not_elem_of_nil. }
  rewrite foldl_snoc. destruct (IH known) as (k1 & -> & Hs1 & Hk1 & Hd1). simpl.
  destruct (dedupe_head_spec k1 head) as (k2 & -> & Hs2 & Hk2 & Hh2).
  exists k2. split; [done|]. split; [by etrans|]. split.
  { intros h Hh. rewrite elem_of_app, list_elem_of_singleton in Hh.
    rewrite Hk2, Hk1 by tauto. done. }
  intros h st Hh Hst x Hx Hax. pose proof (Hs2 h) as Hsh. rewrite Hst in Hsh.
  destruct (k1 !! h) as [st1|] eqn:Hst1; [|done]. destruct Hsh as (_ & Hb & Hm & Hc).
  apply (shrinks_ancestor_has _ _ st1 _ _ Hs2 Hb) in Hax as Hax1.
  destruct (decide (h = head)) as [->|Hne].
  - destruct (Hh2 _ Hst1) as (st' & Hst' & Hm' & Hc'). simplify_eq.
    rewrite Hm', Hc' in Hx. tauto.
  - apply elem_of_app in Hh as [Hh|Hh%list_elem_of_singleton]; [|done].
    rewrite Hk2 in Hst by done. simplify_eq. by eapply Hd1.
Qed.

(** A member that no ancestor has is never removed. *)
Lemma dedupe_keeps known heads known' h st x :
  dedupe known heads = Some known' -> known !! h = Some st -> x ∈ fst_members st ->
  ~ ancestor_has known st x ->
  exists st', known' !! h = Some st' /\ x ∈ fst_members st'.
Proof.
  unfold dedupe. revert known'. induction heads as [|head heads IH] using rev_ind;
    intros known' Hd Hst Hx Hna.
  { injection Hd as <-. eauto. }
  rewrite foldl_snoc in Hd. destruct (dedupe_disjoint known heads) as (k1 & Hk1 & Hs1 & _).
  unfold dedupe in Hk1. rewrite Hk1 in Hd. simpl in Hd.
  destruct (IH _ Hk1 Hst Hx Hna) as (st1 & Hst1 & Hx1).
  destruct (dedupe_head_spec k1 head) as (k2 & Hk2 & _ & Hne & Hh). rewrite Hk2 in Hd.
  injection Hd as <-. destruct (decide (h = head)) as [->|]; [|rewrite Hne by done; eauto].
  destruct (Hh _ Hst1) as (st2 & Hst2 & Hm & _). exists st2. split; [done|].
  apply Hm. split; [done|]. intros Ha. apply Hna.
  pose proof (Hs1 head) as Hsh. rewrite Hst, Hst1 in Hsh.
  eapply shrinks_ancestor_has; [done| |done]. apply Hsh.
Qed.

(** Boundaries lead down: the condition under which no member is lost. *)
Definition ranked (rank : CommitId -> nat) known : Prop :=
  forall x y, boundary_edge known x y -> (rank y < rank x)%nat.

Lemma ancestor_rank rank known h st b :
  ranked rank known -> known !! h = Some st -> ancestor known st b -> (rank b < rank h)%nat.
Proof.
  intros Hr Hst (r & Hb & Hp).
  assert (rank r < rank h)%nat by (apply Hr; exists st; done).
  assert (rank b <= rank r)%nat; [|lia].
  clear -Hr Hp. induction Hp as [|a c b Hac _ IH]; [done|]. pose proof (Hr _ _ Hac). lia.
Qed.

Lemma dedupe_covers rank known heads known' h st x :
  ranked rank known -> dedupe known heads = Some known' ->
  known !! h = Some st -> x ∈ fst_members st ->
  exists h' st', known' !! h' = Some st' /\ x ∈ fst_members st'.
Proof.
  intros Hr Hd. revert h st.
  assert (Hi : forall n h st, (rank h < n)%nat -> known !! h = Some st -> x ∈ fst_members st ->
    exists h' st', known' !! h' = Some st' /\ x ∈ fst_members st'); [|by eauto].
  induction n as [|n IH]; intros h st Hn Hst Hx; [lia|].
  destruct (transitive_ancestor_members_spec known st) as (acc & _ & Ha).
  destruct (decide (x ∈ acc)) as [Hin|Hout].
  - apply Ha in Hin as (b & anc & Hanc & Hb & Hxb). apply (IH b anc); [|done..].
    pose proof (ancestor_rank _ _ _ _ _ Hr Hst Hanc). lia.
  - destruct (dedupe_keeps known heads known' h st x) as (st' & ? & ?); [done..|by rewrite <- Ha|].
    eauto.
Qed.
End dedupe.

(** ** The main loop *)

Section build.
Context `{HashIter} {Node LookupError : Type}.
Context (node_parents : Node -> gset CommitId).
Context (lookup : CommitId -> result LookupError (option Node)).
Context (strategy : DepthMetric).
Implicit Types known : gmap CommitId (FragmentState Node).
Implicit Types st : FragmentState Node.

#[local] Notation reaches := (fragment_reaches node_parents lookup strategy).

(** [st] is the fragment of [h], and all it spans is in some known fragment. *)
Record built known (h : CommitId) st : Prop := {
  built_depth : 0 < strategy h;
  built_head : fst_head_id st = h;
  built_boundary x : is_Some (fst_boundary st !! x) <-> reaches h x /\ ~ absorbed strategy h x;
  built_complete x : reaches h x -> exists node, lookup x = Ok (Some node);
  built_members x : x ∈ fst_members st -> reaches h x /\ absorbed strategy h x;
  built_covered x : reaches h x -> absorbed strategy h x ->
    exists h' st', known !! h' = Some st' /\ x ∈ fst_members st'
}.

(** What the loop has pushed when it is done with [x]; [pool] are the commits
    visited or still queued. *)
Definition closed_at known (pool : CommitId -> Prop) (x : CommitId) : Prop :=
  (forall y, boundary_edge known x y -> pool y) /\
  (known !! x = None ->
     (strategy x = 0 /\ forall node p, lookup x = Ok (Some node) -> p ∈ node_parents node -> pool p)
     \/ (0 < strategy x /\ exists y, reaches x y /\ lookup y = Ok None)).

Context (head_ids : list CommitId) (known0 : gmap CommitId (FragmentState Node)).

Record build_inv (queue : list CommitId) (visited : gset CommitId) known
    (fresh : list CommitId) : Prop := {
  inv_old h st : known0 !! h = Some st -> known !! h = Some st;
  inv_dom h : is_Some (known !! h) -> is_Some (known0 !! h) \/ h ∈ fresh;
  inv_fresh h : h ∈ fresh ->
    known0 !! h = None /\ exists st, known !! h = Some st /\ built known h st;
  inv_nodup : NoDup fresh;
  inv_pool h : h ∈ fresh -> h ∈ visited \/ h ∈ queue;
  inv_heads h : h ∈ head_ids -> h ∈ visited \/ h ∈ queue;
  inv_closed x : x ∈ visited -> closed_at known (fun y => y ∈ visited \/ y ∈ queue) x
}.

Lemma build_inv_init : build_inv (rev head_ids) ∅ known0 [].
Proof.
  split; try done.
  - by left.
  - by intros h ?%not_elem_of_nil.
  - constructor.
  - by intros h ?%not_elem_of_nil.
  - intros h Hh. right. by rewrite list_elem_of_In, <- in_rev, <- list_elem_of_In.
Qed.

Lemma closed_at_mono known (P Q : CommitId -> Prop) x :
  (forall y, P y -> Q y) -> closed_at known P x -> closed_at known Q x.
Proof.
  intros HPQ [Hb Hn]. split; [by eauto|]. intros Hx.
  destruct (Hn Hx) as [[? Hp]|]; [left|by right]. eauto 6.
Qed.

Lemma build_inv_skip x queue visited known fresh :
  x ∈ visited -> build_inv (x :: queue) visited known fresh ->
  build_inv queue visited known fresh.
Proof.
  intros Hx [? ? ? ? ? Hh Hc].
  assert (Hp : forall y, y ∈ visited \/ y ∈ x :: queue -> y ∈ visited \/ y ∈ queue)
    by (intros y; rewrite elem_of_cons; intros [|[->|]]; auto).
  split; try done; [by eauto..|]. intros y Hy. eapply closed_at_mono; [|by apply Hc]. done.
Qed.

(** Visiting [x] and pushing what [closed_at] asks for. *)
Lemma build_inv_visit x pushed queue visited known fresh :
  build_inv (x :: queue) visited known fresh ->
  closed_at known (fun y => y ∈ pushed) x ->
  build_inv (rev pushed ++ queue) ({[ x ]} ∪ visited) known fresh.
Proof.
  intros [? ? ? ? ? Hh Hc] Hx.
  assert (Hp : forall y, y ∈ visited \/ y ∈ x :: queue ->
                 y ∈ {[ x ]} ∪ visited \/ y ∈ rev pushed ++ queue).
  { intros y. rewrite elem_of_cons, elem_of_union, elem_of_singleton, elem_of_app. tauto. }
  split; try done; [by eauto..|].
  intros y [->%elem_of_singleton|Hy]%elem_of_union.
  - eapply closed_at_mono; [|done]. intros z Hz. right. apply elem_of_app. left.
    by rewrite list_elem_of_In, <- in_rev, <- list_elem_of_In.
  - eapply closed_at_mono; [|by apply Hc]. done.
Qed.

Lemma built_mono known known' h st :
  (forall h st, known !! h = Some st -> known' !! h = Some st) ->
  built known h st -> built known' h st.
Proof.
  intros Hk [? ? ? ? ? Hc]. split; try done. intros x Hx Ha.
  destruct (Hc x Hx Ha) as (h' & st' & ? & ?). eauto.
Qed.

(** Recording a new fragment. *)
Lemma build_inv_insert head st queue visited known fresh :
  head ∉ visited -> head ∈ queue -> known !! head = None ->
  built (<[head := st]> known) head st ->
  build_inv queue visited known fresh ->
  build_inv queue visited (<[head := st]> known) (fresh ++ [head]).
Proof.
  intros Hv Hq Hn Hb [Ho Hd Hf Hnd Hp Hh Hc].
  assert (Hk : forall h st', known !! h = Some st' -> <[head := st]> known !! h = Some st').
  { intros h st' Hs. rewrite lookup_insert_ne; [done|]. congruence. }
  assert (Hk0 : known0 !! head = None).
  { destruct (known0 !! head) eqn:E; [|done]. apply Ho in E. congruence. }
  split; [by eauto| | | | |done|].
  - intros h Hs. rewrite elem_of_app, list_elem_of_singleton.
    destruct (decide (h = head)) as [->|Hne]; [by auto|].
    rewrite lookup_insert_ne in Hs by done. destruct (Hd h Hs); auto.
  - intros h [Hh' | ->%list_elem_of_singleton]%elem_of_app.
    + destruct (Hf h Hh') as (? & st' & Hst' & Hbt). split; [done|].
      exists st'. split; [by eauto|]. by eapply built_mono.
    + split; [done|]. exists st. by rewrite lookup_insert_eq.
  - apply NoDup_app. split; [done|]. split; [|by apply NoDup_singleton].
    intros h Hh' ->%list_elem_of_singleton. destruct (Hf _ Hh') as (_ & ? & ? & _). congruence.
  - intros h [Hh' | ->%list_elem_of_singleton]%elem_of_app; auto.
  - intros x Hx. assert (x <> head) by (intros ->; done).
    destruct (Hc x Hx) as [Hc1 Hc2]. split; unfold boundary_edge in *;
      by rewrite lookup_insert_ne.
Qed.

(** What [fragment] returns is a built fragment. *)
Lemma fragment_built u inner head known st :
  (forall x n, lookup x = Ok (Some n) -> x ∈ u) ->
  (fragment_fuel node_parents lookup u <= inner)%nat ->
  known !! head = None ->
  fragment node_parents lookup strategy inner head known = Some (Ok st) ->
  built (<[head := st]> known) head st.
Proof.
  intros Hu Hf Hn Hfr.
  destruct (fragment_returns node_parents lookup strategy u inner head known Hu Hf)
    as (r & Hr & Hs). rewrite Hfr in Hr. injection Hr as <-.
  destruct Hs as (ms & b & cs & (Hm & Hb & Hc & Hl) & Hd & Hh & <- & Hms & _).
  split; try done.
  - intros x. split; [intros [n Hx]; by apply Hb in Hx as (? & ? & _)|].
    intros [Hx Ha]. destruct (Hl x Hx) as [n Hln]. exists n. by apply Hb.
  - intros x Hx. apply Hm. by apply Hms.
  - intros x Hx Ha. destruct (decide (x ∈ fst_members st)) as [Hin|Hout].
    { exists head, st. by rewrite lookup_insert_eq. }
    destruct (existsb (fun h => match known !! h with
                                | Some k => bool_decide (x ∈ fst_members k)
                                | None => false end) (hash_keys (fst_boundary st))) eqn:He.
    + apply existsb_exists in He as (h & _ & Hk). destruct (known !! h) as [k|] eqn:E; [|done].
      apply bool_decide_eq_true in Hk. exists h, k. split; [|done].
      rewrite lookup_insert_ne; [done|]. congruence.
    + exfalso. apply Hout, Hms. split; [by apply Hm|].
      intros (h & k & Hbh & Hk & Hxk). apply not_true_iff_false in He. apply He, existsb_exists.
      exists h. rewrite <- list_elem_of_In, elem_of_hash_keys, Hk, bool_decide_eq_true. done.
Qed.
End build.

(** ** Termination of the main loop *)

Section loop.
Context `{HashIter} {Node LookupError : Type}.
Context (node_parents : Node -> gset CommitId).
Context (lookup : CommitId -> result LookupError (option Node)).
Context (strategy : DepthMetric).
Implicit Types known : gmap CommitId (FragmentState Node).

(** The commits the loop can queue: the document heads, the commits of the store
    [u] and their parents, and the boundaries of the fragments known before. *)
Definition build_universe (u : gset CommitId) (head_ids : list CommitId) known :
  gset CommitId :=
  list_to_set head_ids ∪ u
  ∪ list_to_set (elements u ≫= store_succ node_parents lookup)
  ∪ list_to_set ((map_to_list known).*2 ≫= fun st => hash_keys (fst_boundary st)).

(** Each of the commits is expanded once and pushes each of them at most once. *)
Definition build_fuel (u : gset CommitId) (head_ids : list CommitId) known : nat :=
  let v := build_universe u head_ids known in
  S (length head_ids + size v * size v).

Lemma length_pushed (l : list CommitId) (v : gset CommitId) :
  NoDup l -> (forall x, x ∈ l -> x ∈ v) -> (length l <= size v)%nat.
Proof.
  intros Hnd Hv. rewrite <- (size_list_to_set (C := gset CommitId) l) by done.
  apply subseteq_size. intros x Hx%elem_of_list_to_set. auto.
Qed.

Lemma visit_measure (x : CommitId) (pushed queue : list CommitId) (visited v : gset CommitId) fuel :
  x ∉ visited -> x ∈ v -> (length pushed <= size v)%nat ->
  (length (x :: queue) + size (v ∖ visited) * size v < S fuel)%nat ->
  (length (rev pushed ++ queue) + size (v ∖ ({[ x ]} ∪ visited)) * size v < fuel)%nat.
Proof.
  intros Hx Hv Hp Hf. rewrite length_app, length_rev. simpl in Hf.
  assert (Hs : size (v ∖ visited) = S (size (v ∖ ({[ x ]} ∪ visited))));
    [|rewrite Hs in Hf; lia].
  replace (v ∖ visited) with ({[ x ]} ∪ (v ∖ ({[ x ]} ∪ visited))).
  - rewrite size_union, size_singleton by set_solver +. done.
  - apply set_eq. intros y. destruct (decide (y = x)); set_solver.
Qed.

Context (head_ids : list CommitId) (known0 : gmap CommitId (FragmentState Node)).
Context (u : gset CommitId) (inner : nat).
Context (Hu : forall x n, lookup x = Ok (Some n) -> x ∈ u).
Context (Hinner : (fragment_fuel node_parents lookup u <= inner)%nat).

#[local] Notation inv := (build_inv node_parents lookup strategy head_ids known0).
#[local] Notation v := (build_universe u head_ids known0).

Lemma universe_parent x node p : lookup x = Ok (Some node) -> p ∈ node_parents node -> p ∈ v.
Proof.
  intros Hl Hp. apply elem_of_union_l, elem_of_union_r, elem_of_list_to_set, list_elem_of_bind.
  exists x. unfold store_succ. rewrite Hl, elem_of_hashset_iter, elem_of_elements. eauto.
Qed.

Lemma universe_boundary queue visited known fresh x y :
  inv queue visited known fresh -> boundary_edge known x y -> y ∈ v.
Proof.
  intros Hi (st & Hst & Hy). destruct (inv_dom _ _ _ _ _ _ _ _ _ Hi x) as [[st0 Hst0]|Hf]; [by eauto|..].
  - pose proof (inv_old _ _ _ _ _ _ _ _ _ Hi _ _ Hst0). simplify_eq.
    apply elem_of_union_r, elem_of_list_to_set, list_elem_of_bind. exists st.
    rewrite elem_of_hash_keys. split; [done|]. apply list_elem_of_fmap. exists (x, st).
    by rewrite elem_of_map_to_list.
  - destruct (inv_fresh _ _ _ _ _ _ _ _ _ Hi _ Hf) as (_ & st' & Hst' & Hb). simplify_eq.
    apply (built_boundary _ _ _ _ _ _ Hb) in Hy as [Hr _].
    destruct (built_complete _ _ _ _ _ _ Hb _ Hr) as [node Hn].
    apply elem_of_union_l, elem_of_union_l, elem_of_union_r. by eapply Hu.
Qed.

Lemma build_loop_spec fuel queue visited known fresh :
  (forall x, x ∈ queue -> x ∈ v) ->
  (length queue + size (v ∖ visited) * size v < fuel)%nat ->
  inv queue visited known fresh ->
  exists r, build_loop node_parents lookup strategy fuel inner queue visited known fresh = Some r /\
    match r with
    | Ok (known', fresh') => exists visited', inv [] visited' known' fresh'
    | Err e => exists x err, e = FE_LookupError err /\ lookup x = Err err
    end.
Proof using Hu Hinner.
  revert queue visited known fresh.
  induction fuel as [|fuel IH]; intros queue visited known fresh Hv Hf Hi; [lia|].
  destruct queue as [|x queue]; simpl.
  { eexists. split; [done|]. by exists visited. }
  assert (Hxv : x ∈ v) by (apply Hv; by constructor).
  assert (Hqv : forall y, y ∈ queue -> y ∈ v) by (intros y Hy; apply Hv; by constructor).
  case_decide as Hx.
  { apply IH; [done|simpl in Hf; lia|by eapply build_inv_skip]. }
  assert (Hgo : forall pushed known fresh, NoDup pushed -> (forall y, y ∈ pushed -> y ∈ v) ->
    inv (x :: queue) visited known fresh ->
    closed_at node_parents lookup strategy known (fun y => y ∈ pushed) x ->
    exists r, build_loop node_parents lookup strategy fuel inner (rev pushed ++ queue)
                ({[ x ]} ∪ visited) known fresh = Some r /\
      match r with
      | Ok (known', fresh') => exists visited', inv [] visited' known' fresh'
      | Err e => exists x err, e = FE_LookupError err /\ lookup x = Err err
      end).
  { intros pushed k f Hnd Hpv Hik Hc. apply IH; [|by apply visit_measure, Hf; auto using length_pushed|].
    - intros y [Hy|]%elem_of_app; [|auto]. apply Hpv.
      by rewrite list_elem_of_In, in_rev, <- list_elem_of_In.
    - by apply build_inv_visit. }
  clear IH. destruct (known !! x) as [st|] eqn:Hk.
  { apply Hgo; [by apply NoDup_hash_keys| |done|].
    - intros y Hy%elem_of_hash_keys. eapply universe_boundary; [done|]. by exists st.
    - split; [|congruence]. intros y (st' & Hst' & Hy). simplify_eq. by apply elem_of_hash_keys. }
  assert (Hnb : forall P : CommitId -> Prop, forall y, boundary_edge known x y -> P y)
    by (intros P y (? & ? & _); congruence).
  unfold is_boundary. destruct (N.ltb_spec 0 (strategy x)) as [Hd|Hd]; simpl.
  - destruct (fragment_returns node_parents lookup strategy u inner x known Hu Hinner)
      as (r & Hr & Hs). rewrite Hr. simpl. destruct r as [st|[e|y|y]]; simpl in Hs.
    + pose proof (fragment_built _ _ _ u inner x known st Hu Hinner Hk Hr) as Hb.
      assert (Hi' : inv (x :: queue) visited (<[x := st]> known) (fresh ++ [x]))
        by (apply build_inv_insert; [done|by constructor|done..]).
      apply Hgo; [by apply NoDup_hash_keys| |done|].
      * intros y Hy%elem_of_hash_keys. eapply universe_boundary; [done|].
        exists st. by rewrite lookup_insert_eq.
      * split; [|by rewrite lookup_insert_eq]. intros y (st' & Hst' & Hy).
        rewrite lookup_insert_eq in Hst'. simplify_eq. by apply elem_of_hash_keys.
    + destruct Hs as (y & _ & Hy). eexists. split; [done|]. by exists y, e.
    + apply (Hgo []); [by constructor|by intros ? ?%not_elem_of_nil|done|].
      split; [by apply Hnb|]. intros _. right. eauto.
    + lia.
  - destruct (lookup x) as [[node|]|e] eqn:Hl;
      [| |by eexists; split; [done|]; exists x, e].
    + apply Hgo; [by apply NoDup_hashset_iter| |done|].
      * intros y Hy%elem_of_hashset_iter. by eapply universe_parent.
      * split; [by apply Hnb|]. intros _. left. split; [lia|].
        intros n p Hn Hp. rewrite Hl in Hn. simplify_eq. by apply elem_of_hashset_iter.
    + apply (Hgo []); [by constructor|by intros ? ?%not_elem_of_nil|done|].
      split; [by apply Hnb|]. intros _. left. split; [lia|]. intros n p Hn. congruence.
Qed.
End loop.

(** ** The claims *)

Section claims.
Context `{HashIter} {Node LookupError : Type}.
Context (node_parents : Node -> gset CommitId).
Context (lookup : CommitId -> result LookupError (option Node)).
Context (strategy : DepthMetric).
Implicit Types known : gmap CommitId (FragmentState Node).
Implicit Types st : FragmentState Node.

Lemma mapM_lookup known (heads : list CommitId) :
  (forall h, h ∈ heads -> is_Some (known !! h)) ->
  exists sts, mapM (fun h => known !! h) heads = Some sts /\
    Forall2 (fun h st => known !! h = Some st) heads sts.
Proof.
  intros Hs. destruct (mapM (fun h => known !! h) heads) as [sts|] eqn:E.
  - exists sts. split; [done|]. by apply mapM_Some.
  - apply mapM_None, Exists_exists in E as (h & Hh & Hn). destruct (Hs h Hh). congruence.
Qed.

(** What the two passes together leave behind. *)
Lemma build_run u fuel inner head_ids known :
  (forall x n, lookup x = Ok (Some n) -> x ∈ u) ->
  (fragment_fuel node_parents lookup u <= inner)%nat ->
  (build_fuel node_parents lookup u head_ids known <= fuel)%nat ->
  exists r, build_fragment_store node_parents lookup strategy fuel inner head_ids known = Some r /\
    match r with
    | Err e => exists x err, e = FE_LookupError err /\ lookup x = Err err
    | Ok (known', fresh) =>
        exists visited k heads,
          build_inv node_parents lookup strategy head_ids known [] visited k heads /\
          dedupe k heads = Some known' /\
          Forall2 (fun h st => known' !! h = Some st) heads fresh
    end.
Proof.
  intros Hu Hi Hf. unfold build_fragment_store.
  destruct (build_loop_spec node_parents lookup strategy head_ids known u inner Hu Hi
              fuel (rev head_ids) ∅ known []) as (r & -> & Hr).
  - intros x Hx. rewrite list_elem_of_In, <- in_rev, <- list_elem_of_In in Hx.
    do 3 apply elem_of_union_l. by apply elem_of_list_to_set.
  - unfold build_fuel in Hf. rewrite difference_empty_L, length_rev. lia.
  - apply build_inv_init.
  - simpl. destruct r as [[k heads]|e]; [|by eauto]. destruct Hr as [visited Hinv].
    destruct (dedupe_disjoint k heads) as (known' & Hd & Hs & _). rewrite Hd. simpl.
    destruct (mapM_lookup known' heads) as (sts & -> & Hall).
    { intros h Hh. destruct (inv_fresh _ _ _ _ _ _ _ _ _ Hinv h Hh) as (_ & st & Hst & _).
      specialize (Hs h). rewrite Hst in Hs. destruct (known' !! h); [by eauto|done]. }
    simpl. eexists. split; [done|]. by exists visited, k, heads.
Qed.

Lemma fresh_state head_ids known visited k heads known' h st :
  build_inv node_parents lookup strategy head_ids known [] visited k heads ->
  dedupe k heads = Some known' -> h ∈ heads -> known' !! h = Some st ->
  exists st0, k !! h = Some st0 /\ built node_parents lookup strategy k h st0 /\
    fst_head_id st = h /\ fst_boundary st = fst_boundary st0 /\
    fst_members st ⊆ fst_members st0 /\ disjoint_from_ancestors known' st.
Proof.
  intros Hinv Hd Hh Hst.
  destruct (dedupe_disjoint k heads) as (k' & Hd' & Hs & _ & Hdis). simplify_eq.
  destruct (inv_fresh _ _ _ _ _ _ _ _ _ Hinv h Hh) as (_ & st0 & Hst0 & Hb).
  pose proof (Hs h) as Hsh. rewrite Hst0, Hst in Hsh. destruct Hsh as (Hh0 & Hb0 & Hm0 & _).
  exists st0. split_and!; try done; [|by eauto].
  rewrite Hh0. by apply (built_head _ _ _ _ _ _ Hb).
Qed.

Lemma fresh_elem known' heads (fresh : list (FragmentState Node)) st :
  Forall2 (fun h st => known' !! h = Some st) heads fresh ->
  st ∈ fresh <-> exists h, h ∈ heads /\ known' !! h = Some st.
Proof.
  intros Hall. split.
  - intros [i Hi]%list_elem_of_lookup.
    destruct (Forall2_lookup_r _ _ _ _ _ Hall Hi) as (h & Hh & Hk). exists h.
    split; [by eapply list_elem_of_lookup_2|done].
  - intros (h & [i Hi]%list_elem_of_lookup & Hk).
    destruct (Forall2_lookup_l _ _ _ _ _ Hall Hi) as (st' & Hst' & Hk'). simplify_eq.
    by eapply list_elem_of_lookup_2.
Qed.

Lemma fresh_heads known' heads (fresh : list (FragmentState Node)) :
  Forall2 (fun h st => known' !! h = Some st) heads fresh ->
  (forall h st, h ∈ heads -> known' !! h = Some st -> fst_head_id st = h) ->
  fst_head_id <$> fresh = heads.
Proof.
  induction 1 as [|h st heads fresh Hk _ IH]; intros Hids; [done|].
  csimpl. rewrite IH; [|intros; apply Hids; [by constructor|done]].
  f_equal. apply Hids; [by constructor|done].
Qed.

(** C12: [build_fragment_store] on a finite store always returns, and fails only when
    a lookup fails: an incomplete history is skipped. The fragments known before
    are left as they were. The fragments returned are exactly the new ones, each
    under its head, of positive depth, once. Their boundaries are those of
    [fragment], their members are commits their head spans, and no member or
    checkpoint is a member of a fragment further down the chain of boundaries. *)
Theorem build_fragment_store_spec u fuel inner head_ids known :
  (forall x n, lookup x = Ok (Some n) -> x ∈ u) ->
  (fragment_fuel node_parents lookup u <= inner)%nat ->
  (build_fuel node_parents lookup u head_ids known <= fuel)%nat ->
  exists r, build_fragment_store node_parents lookup strategy fuel inner head_ids known = Some r /\
    match r with
    | Err e => exists x err, e = FE_LookupError err /\ lookup x = Err err
    | Ok (known', fresh) =>
        (forall h st, known !! h = Some st -> known' !! h = Some st) /\
        NoDup (fst_head_id <$> fresh) /\
        (forall st, st ∈ fresh <-> exists h, known' !! h = Some st /\ known !! h = None) /\
        (forall st, st ∈ fresh ->
           let head := fst_head_id st in
           let spans := fragment_reaches node_parents lookup strategy head in
           known' !! head = Some st /\ 0 < strategy head /\
           (forall x, is_Some (fst_boundary st !! x) <->
              spans x /\ x <> head /\ strategy head <= strategy x) /\
           (forall x, x ∈ fst_members st ->
              spans x /\ (x = head \/ strategy x < strategy head)) /\
           disjoint_from_ancestors known' st)
    end.
Proof.
  intros Hu Hi Hf. destruct (build_run u fuel inner head_ids known Hu Hi Hf) as (r & Hr & Hs).
  exists r. split; [done|]. destruct r as [[known' fresh]|e]; [|done].
  destruct Hs as (visited & k & heads & Hinv & Hd & Hall).
  pose proof (fun h st => fresh_state _ _ _ _ _ _ h st Hinv Hd) as Hfs.
  destruct (dedupe_disjoint k heads) as (k' & Hd' & Hsh & Hsame & _).
  rewrite Hd in Hd'. injection Hd' as <-.
  split_and!.
  - intros h st Hk. rewrite Hsame; [by apply (inv_old _ _ _ _ _ _ _ _ _ Hinv)|].
    intros Hin. destruct (inv_fresh _ _ _ _ _ _ _ _ _ Hinv h Hin) as [Hn _]. congruence.
  - rewrite (fresh_heads _ _ _ Hall); [apply (inv_nodup _ _ _ _ _ _ _ _ _ Hinv)|].
    intros h st Hh Hst. by destruct (Hfs h st Hh Hst) as (? & _ & _ & ? & _).
  - intros st. rewrite (fresh_elem _ _ _ _ Hall). split.
    + intros (h & Hin & Hk). exists h. split; [done|].
      by destruct (inv_fresh _ _ _ _ _ _ _ _ _ Hinv h Hin) as [? _].
    + intros (h & Hk & Hn). exists h. split; [|done]. specialize (Hsh h). rewrite Hk in Hsh.
      destruct (inv_dom _ _ _ _ _ _ _ _ _ Hinv h) as [[? ?]|]; [|congruence|done].
      destruct (k !! h); [by eauto|done].
  - intros st Hin head spans. apply (fresh_elem _ _ _ _ Hall) in Hin as (h & Hin & Hk).
    destruct (Hfs h st Hin Hk) as (st0 & Hk0 & Hb & Hid & Hbd & Hm & Hdis).
    subst head spans. rewrite Hid. split_and!; [done|apply Hb| | |done].
    + intros x. rewrite Hbd, (built_boundary _ _ _ _ _ _ Hb). unfold absorbed. intuition lia.
    + intros x Hx. apply (built_members _ _ _ _ _ _ Hb). by apply Hm.
Qed.

(** The history of a document: a commit, its parents, their parents. *)
Definition commit_edge (x p : CommitId) : Prop :=
  exists node, lookup x = Ok (Some node) /\ p ∈ node_parents node.

(** The part of the history above every boundary commit. *)
Definition loose_edge (x p : CommitId) : Prop := strategy x = 0 /\ commit_edge x p.

Lemma reaches_history h x :
  fragment_reaches node_parents lookup strategy h x -> rtc commit_edge h x.
Proof. apply rtc_subrel. intros ? ? (_ & ?). done. Qed.

Section covers.
Context (head_ids : list CommitId) (visited : gset CommitId).
Context (k : gmap CommitId (FragmentState Node)) (heads : list CommitId).
Context (Hinv : build_inv node_parents lookup strategy head_ids ∅ [] visited k heads).
Context (Hall : forall h x, h ∈ head_ids -> rtc commit_edge h x ->
                  exists node, lookup x = Ok (Some node)).

Definition in_history (x : CommitId) : Prop := exists h, h ∈ head_ids /\ rtc commit_edge h x.
Definition is_loose (x : CommitId) : Prop :=
  strategy x = 0 /\ exists h, h ∈ head_ids /\ rtc loose_edge h x.
Definition spanned (x : CommitId) : Prop :=
  exists h, h ∈ heads /\ fragment_reaches node_parents lookup strategy h x /\
    absorbed strategy h x.

Lemma visited_spanned x : x ∈ visited -> in_history x -> 0 < strategy x -> spanned x.
Proof using Hinv Hall.
  intros Hv (h & Hh & Hp) Hd. destruct (inv_closed _ _ _ _ _ _ _ _ _ Hinv x Hv) as [_ Hn].
  destruct (k !! x) as [st|] eqn:Hk.
  - destruct (inv_dom _ _ _ _ _ _ _ _ _ Hinv x) as [[? ?]|Hf]; [by eauto|done|].
    exists x. split; [done|]. split; [apply rtc_refl|by left].
  - destruct (Hn eq_refl) as [[? _]|(_ & y & Hy & Hl)]; [lia|].
    destruct (Hall h y) as [node Hnode]; [done| |congruence].
    etrans; [done|]. by apply reaches_history.
Qed.

Lemma loose_unknown x : strategy x = 0 -> k !! x = None.
Proof using Hinv.
  intros Hd. destruct (k !! x) as [st|] eqn:Hk; [|done].
  destruct (inv_dom _ _ _ _ _ _ _ _ _ Hinv x) as [[? ?]|Hf]; [by eauto|done|].
  destruct (inv_fresh _ _ _ _ _ _ _ _ _ Hinv x Hf) as (_ & ? & _ & Hb).
  pose proof (built_depth _ _ _ _ _ _ Hb). lia.
Qed.

(** Every commit of the history is loose or spanned by a fragment. *)
Lemma history_spanned x : in_history x -> (x ∈ visited /\ is_loose x) \/ spanned x.
Proof using Hinv Hall.
  assert (Hmk : forall x, x ∈ visited -> in_history x -> (strategy x = 0 -> is_loose x) ->
            (x ∈ visited /\ is_loose x) \/ spanned x).
  { intros y Hv Hy Hl. destruct (decide (strategy y = 0)); [by auto|].
    right. apply visited_spanned; [done..|lia]. }
  intros (h & Hh & Hp). revert x Hp. apply rtc_ind_r.
  - apply Hmk; [|by exists h|].
    + destruct (inv_heads _ _ _ _ _ _ _ _ _ Hinv h Hh) as [|?%not_elem_of_nil]; done.
    + intros Hd. split; [done|]. by exists h.
  - intros x p Hx Hxp IH. assert (Hip : in_history p) by (exists h; split; [done|by eapply rtc_r]).
    destruct IH as [(Hv & Hd & h' & Hh' & Hlx)|(h' & Hh' & Hr & Ha)].
    + destruct (inv_closed _ _ _ _ _ _ _ _ _ Hinv x Hv) as [_ Hn].
      destruct (Hn (loose_unknown x Hd)) as [[_ Hpar]|[? _]]; [|lia].
      destruct Hxp as (node & Hnode & Hpn).
      destruct (Hpar node p Hnode Hpn) as [Hpv|?%not_elem_of_nil]; [|done].
      apply Hmk; [done..|]. intros Hd'. split; [done|]. exists h'. split; [done|].
      eapply rtc_r; [done|]. split; [done|]. by exists node.
    + assert (Hrp : fragment_reaches node_parents lookup strategy h' p)
        by (eapply rtc_r; [done|]; by split).
      destruct (decide (p = h' \/ strategy p < strategy h')) as [Hap|Hnap]; [right; by exists h'|].
      destruct (inv_fresh _ _ _ _ _ _ _ _ _ Hinv h' Hh') as (_ & st & Hst & Hb).
      destruct (inv_pool _ _ _ _ _ _ _ _ _ Hinv h' Hh') as [Hv'|?%not_elem_of_nil]; [|done].
      destruct (inv_closed _ _ _ _ _ _ _ _ _ Hinv h' Hv') as [Hbe _].
      destruct (Hbe p) as [Hpv|?%not_elem_of_nil]; [|..|done].
      { exists st. split; [done|]. by apply (built_boundary _ _ _ _ _ _ Hb). }
      pose proof (built_depth _ _ _ _ _ _ Hb).
      assert (strategy h' <= strategy p)%N by lia.
      apply Hmk; [done..|]. lia.
Qed.

(** A rank of the commits is a rank of the fragments. *)
Lemma built_ranked rank :
  (forall x p, commit_edge x p -> (rank p < rank x)%nat) -> ranked rank k.
Proof using Hinv.
  intros Hr x y (st & Hst & Hy).
  destruct (inv_dom _ _ _ _ _ _ _ _ _ Hinv x) as [[? ?]|Hf]; [by eauto|done|].
  destruct (inv_fresh _ _ _ _ _ _ _ _ _ Hinv x Hf) as (_ & ? & ? & Hb). simplify_eq.
  apply (built_boundary _ _ _ _ _ _ Hb) in Hy as [Hre Hna]. apply reaches_history in Hre.
  inversion Hre as [|? z ? Hxz Hzy]; subst; [exfalso; apply Hna; by left|].
  assert (rank y <= rank z)%nat; [|pose proof (Hr _ _ Hxz); lia].
  clear -Hr Hzy. induction Hzy as [|a b c Hab _ IH]; [done|]. pose proof (Hr _ _ Hab). lia.
Qed.
End covers.

(** C29: Nothing is lost: starting from no known fragments, on a finite store without
    cycles that has the whole history of the document heads, every commit of that
    history is a member of a fragment returned or a loose commit, one of depth 0
    that is reached from a head through commits of depth 0 only. *)
Theorem build_fragment_store_covers u fuel inner head_ids (rank : CommitId -> nat) :
  (forall x n, lookup x = Ok (Some n) -> x ∈ u) ->
  (fragment_fuel node_parents lookup u <= inner)%nat ->
  (build_fuel node_parents lookup u head_ids ∅ <= fuel)%nat ->
  (forall x err, lookup x <> Err err) ->
  (forall x p, commit_edge x p -> (rank p < rank x)%nat) ->
  (forall h x, h ∈ head_ids -> rtc commit_edge h x -> exists node, lookup x = Ok (Some node)) ->
  exists known' fresh,
    build_fragment_store node_parents lookup strategy fuel inner head_ids ∅ =
      Some (Ok (known', fresh)) /\
    forall h x, h ∈ head_ids -> rtc commit_edge h x ->
      (exists st, st ∈ fresh /\ x ∈ fst_members st) \/
      (strategy x = 0 /\ exists h', h' ∈ head_ids /\ rtc loose_edge h' x).
Proof.
  intros Hu Hi Hf Herr Hrank Hhist.
  destruct (build_run u fuel inner head_ids ∅ Hu Hi Hf) as (r & Hr & Hs).
  destruct r as [[known' fresh]|e]; [|destruct Hs as (x & err & _ & Hx); by apply Herr in Hx].
  exists known', fresh. split; [done|]. intros h x Hh Hx.
  destruct Hs as (visited & k & heads & Hinv & Hd & Hall).
  destruct (history_spanned _ _ _ _ Hinv Hhist x) as [[_ Hl]|(h' & Hh' & Hre & Ha)];
    [by exists h|by right|left].
  destruct (inv_fresh _ _ _ _ _ _ _ _ _ Hinv h' Hh') as (_ & st & Hst & Hb).
  destruct (built_covered _ _ _ _ _ _ Hb x Hre Ha) as (h1 & st1 & Hst1 & Hx1).
  destruct (dedupe_covers rank k heads known' h1 st1 x) as (h2 & st2 & Hst2 & Hx2);
    [by eapply built_ranked|done..|].
  exists st2. split; [|done]. apply (fresh_elem _ _ _ _ Hall). exists h2. split; [|done].
  destruct (dedupe_disjoint k heads) as (k' & Hd' & Hsh & _). simplify_eq.
  specialize (Hsh h2). rewrite Hst2 in Hsh.
  destruct (inv_dom _ _ _ _ _ _ _ _ _ Hinv h2) as [[? ?]|]; [|done|done].
  destruct (k !! h2); [by eauto|done].
Qed.
End claims.

(** ** The sample store *)

Section check.
Context (m : gmap CommitId (gset CommitId)) (rank : CommitId -> nat).

(** Every parent is stored and ranks below its child. *)
Definition store_closed : bool :=
  forallb (fun '(x, ps) => forallb (fun p => bool_decide (is_Some (m !! p)) && (rank p <? rank x)%nat)
                             (elements ps)) (map_to_list m).

Lemma store_closed_edge x p :
  store_closed = true -> commit_edge id (map_lookup_store m) x p ->
  is_Some (m !! p) /\ (rank p < rank x)%nat.
Proof.
  unfold store_closed. rewrite forallb_forall. intros Hc (ps & [= Hx] & Hp).
  specialize (Hc (x, ps)). simpl in Hc. rewrite forallb_forall in Hc.
  destruct (andb_prop _ _ (Hc (proj1 (list_elem_of_In _ _) (proj2 (elem_of_map_to_list m x ps) Hx))
    p (proj1 (list_elem_of_In _ _) (proj2 (elem_of_elements ps p) Hp)))) as [H1 H2].
  split; [by eapply bool_decide_eq_true_1|by apply Nat.ltb_lt].
Qed.

Lemma store_closed_history h x :
  store_closed = true -> is_Some (m !! h) -> rtc (commit_edge id (map_lookup_store m)) h x ->
  exists node, map_lookup_store m x = Ok (Some node).
Proof.
  intros Hc Hh Hp. assert (Hx : is_Some (m !! x)).
  { revert Hh. induction Hp as [|a b c Hab _ IH]; [done|]. intros _. apply IH.
    by apply (store_closed_edge a b Hc). }
  destruct Hx as [ps Hps]. exists ps. unfold map_lookup_store. by rewrite Hps.
Qed.
End check.

(** Parents have larger tags in [sample_store]. *)
Definition sample_rank (x : CommitId) : nat :=
  default O (N.to_nat ∘ N.sub 10 ∘ Byte.to_N <$> last (filter (fun b => b <> x00) (arr_list x))).

Definition sample_heads : list CommitId := [store_id 1 1; store_id 1 2].

Lemma build_fragment_store_spec_witness :
  let I := hash_iter_by_encoding in
  exists known' fresh,
    build_fragment_store id (map_lookup_store sample_store) CountLeadingZeroBytes 100 20
      sample_heads ∅ = Some (Ok (known', fresh)) /\
    NoDup (fst_head_id <$> fresh).
Proof.
  intros I.
  destruct (build_fragment_store_spec id (map_lookup_store sample_store) CountLeadingZeroBytes
              (dom sample_store) 100 20 sample_heads ∅ (map_lookup_store_dom sample_store))
    as (r & Hr & Hs).
  { apply Nat.leb_le. vm_compute. reflexivity. }
  { apply Nat.leb_le. vm_compute. reflexivity. }
  destruct r as [[known' fresh]|e]; [|destruct Hs as (x & err & _); destruct err].
  exists known', fresh. split; [exact Hr|]. exact (proj1 (proj2 Hs)).
Defined.

Lemma build_fragment_store_covers_witness :
  let I := hash_iter_by_encoding in
  exists known' fresh,
    build_fragment_store id (map_lookup_store sample_store) CountLeadingZeroBytes 100 20
      sample_heads ∅ = Some (Ok (known', fresh)) /\
    exists st, st ∈ fresh /\ store_id 1 1 ∈ fst_members st.
Proof.
  intros I.
  assert (Hc : store_closed sample_store sample_rank = true) by (vm_compute; reflexivity).
  assert (Hh : forallb (fun h => bool_decide (is_Some (sample_store !! h))) sample_heads = true)
    by (vm_compute; reflexivity).
  rewrite forallb_forall in Hh.
  destruct (build_fragment_store_covers id (map_lookup_store sample_store) CountLeadingZeroBytes
              (dom sample_store) 100 20 sample_heads sample_rank
              (map_lookup_store_dom sample_store)) as (known' & fresh & Hr & Hs).
  - apply Nat.leb_le. vm_compute. reflexivity.
  - apply Nat.leb_le. vm_compute. reflexivity.
  - intros x [].
  - intros x p Hxp. exact (proj2 (store_closed_edge _ _ x p Hc Hxp)).
  - intros h x Hin Hp. apply (store_closed_history _ _ h x Hc); [|exact Hp].
    exact (bool_decide_eq_true_1 _ (Hh h (proj1 (list_elem_of_In _ _) Hin))).
  - exists known', fresh. split; [exact Hr|].
    destruct (Hs (store_id 1 1) (store_id 1 1)) as [Hst|[Hd _]].
    + constructor.
    + apply rtc_refl.
    + exact Hst.
    + vm_compute in Hd. discriminate Hd.
Defined.

(** The heads of the fragments a builder returned. *)
Definition returned_heads {Node E} (r : option (result E (gmap CommitId (FragmentState Node) *
    list (FragmentState Node)))) : option (list CommitId) :=
  match r with
  | Some (Ok (_, fresh)) => Some (fst_head_id <$> fresh)
  | _ => None
  end.

(** The parallel builder can return a fragment twice: two fragments of one level
    with a common boundary commit queue it twice, it is built twice, and both
    copies are in the list returned. The sequential builder returns it once. *)
Theorem build_fragment_store_par_duplicates :
  let I := hash_iter_by_encoding in
  returned_heads (build_fragment_store_par id (map_lookup_store sample_store)
    CountLeadingZeroBytes 100 20 sample_heads ∅) =
    Some [store_id 1 1; store_id 1 2; store_id 2 5; store_id 2 5] /\
  returned_heads (build_fragment_store id (map_lookup_store sample_store)
    CountLeadingZeroBytes 100 20 sample_heads ∅) =
    Some [store_id 1 2; store_id 2 5; store_id 1 1].
Proof. split; vm_compute; reflexivity. Qed.
