(* ===== verification/Signed.v ===== *)
(** * Signed payloads

    [subduction_crypto/src/]: the signed envelope ([signed.rs]), the witnesses of a
    checked signature ([verified_signature.rs], [verified_author.rs]) and of a
    checked blob ([verified_meta.rs]).

    Ed25519 is the third-party crate [ed25519_dalek]; it is the class [Ed25519],
    and a signer whose signatures verify has [HonestSigner]. A payload type enters
    through the codec classes of [Codec.v], and [SignedLaws] adds what the header
    check relies on. *)

From Stdlib Require Import Strings.Byte NArith Lia.
From stdpp Require Import base gmap sorting strings list.
From S2P Require Import Prelude.
From S2P Require Import Codec.
From S2P Require Import Types.
From S2P Require Import LooseCommit.
From S2P Require Import Fragment.

Open Scope N_scope.

(** ** Keys and signatures

    A [VerifyingKey] is the 32 bytes it is parsed from, which [as_bytes] returns;
    a [Signature] is its 64 bytes. *)

Notation VerifyingKey := (array 32) (only parsing).
Notation Signature := (array 64) (only parsing).

Class Ed25519 : Type := {
  vk_from_bytes_ok : array 32 -> bool;
  verify_strict : VerifyingKey -> list byte -> Signature -> bool
}.

(** The trait [Signer]. *)
Record Signer : Type := {
  verifying_key : VerifyingKey;
  sign : list byte -> Signature
}.

(** The key of a signer is a valid key, under which its signatures verify. *)
Class HonestSigner `{Ed25519} (s : Signer) : Prop := {
  signer_key_ok : vk_from_bytes_ok (verifying_key s) = true;
  signer_verifies msg : verify_strict (verifying_key s) msg (sign s msg) = true
}.

Definition SCHEMA_SIZE : N := 4.
Definition VERIFYING_KEY_SIZE : N := 32.
Definition SIGNATURE_SIZE : N := 64.

Record Signed (T : Type) : Type := MkSigned {
  sg_issuer : VerifyingKey;
  sg_signature : Signature;
  sg_bytes : list byte
}.
Arguments MkSigned {T}.
Arguments sg_issuer {T}.
Arguments sg_signature {T}.
Arguments sg_bytes {T}.

#[export] Instance Signed_eq_dec T : EqDecision (Signed T).
Proof. solve_decision. Defined.

Record VerifiedSignature (T : Type) : Type := VerifiedSignature_from_parts {
  vs_signed : Signed T;
  vs_payload : T
}.
Arguments VerifiedSignature_from_parts {T}.
Arguments vs_signed {T}.
Arguments vs_payload {T}.

Inductive VerificationError `{Bijou64} : Type :=
| VE_InvalidSignature
| VE_Codec (e : DecodeError).

Section signed.
Context `{Ed25519, Bijou64} {T : Type} `{!Schema T, !EncodeFields T, !DecodeFields T}.

Definition disc_size : N := if @DISCRIMINANT T _ then 1 else 0.

Definition disc_bytes : list byte :=
  match @DISCRIMINANT T _ with Some d => [d] | None => [] end.

(** [Signed::payload_bytes]: everything before the signature. *)
Definition payload_bytes (self : Signed T) : list byte :=
  default [] (get_range (sg_bytes self) 0 (len (sg_bytes self) - SIGNATURE_SIZE)).

(** [Signed::fields_bytes] *)
Definition fields_bytes (self : Signed T) : list byte :=
  let start := SCHEMA_SIZE + disc_size + VERIFYING_KEY_SIZE in
  let end_ := len (sg_bytes self) - SIGNATURE_SIZE in
  default [] (get_range (sg_bytes self) start end_).

(** [Signed::decode_header] *)
Definition decode_header (bytes : list byte) :
  result DecodeError (VerifyingKey * Signature * N) :=
  let too_short need have := E_MessageTooShort (@type_name T _) need have in
  let? _ := guard_err (len bytes <? @MIN_SIGNED_SIZE T _ _)
              (too_short (@MIN_SIGNED_SIZE T _ _) (len bytes)) in
  let? schema := ok_or (get_range bytes 0 SCHEMA_SIZE ≫= array_of_list 4)
                   (too_short SCHEMA_SIZE (len bytes)) in
  let? _ := guard_err (negb (bool_decide (schema = SCHEMA T)))
              (E_InvalidSchema (SCHEMA T) schema) in
  let? _ :=
    match @DISCRIMINANT T _ with
    | Some expected_disc =>
        let? got_disc := ok_or (bytes !! N.to_nat SCHEMA_SIZE)
                           (too_short (SCHEMA_SIZE + 1) (len bytes)) in
        guard_err (negb (bool_decide (got_disc = expected_disc)))
          (E_InvalidDiscriminant expected_disc got_disc)
    | None => Ok tt
    end in
  let issuer_start := SCHEMA_SIZE + disc_size in
  let? issuer := ok_or (get_range bytes issuer_start (issuer_start + VERIFYING_KEY_SIZE)
                          ≫= array_of_list 32)
                   (too_short (issuer_start + VERIFYING_KEY_SIZE) (len bytes)) in
  let? _ := guard_err (negb (vk_from_bytes_ok issuer)) E_InvalidVerifyingKey in
  let fields_start := issuer_start + VERIFYING_KEY_SIZE in
  let? fields := ok_or (get_from bytes fields_start)
                   (too_short (fields_start + 1) (len bytes)) in
  let? (_, fields_size) := @try_decode_fields T _ _ fields in
  let actual_size :=
    SCHEMA_SIZE + disc_size + VERIFYING_KEY_SIZE + fields_size + SIGNATURE_SIZE in
  let? _ := guard_err (len bytes <? actual_size) (too_short actual_size (len bytes)) in
  let sig_start := fields_start + fields_size in
  let? signature := ok_or (get_range bytes sig_start (sig_start + SIGNATURE_SIZE)
                             ≫= array_of_list 64)
                      (too_short SIGNATURE_SIZE (len bytes - sig_start)) in
  Ok (issuer, signature, actual_size).

(** [Signed::try_decode_prefix] *)
Definition try_decode_prefix (bytes : list byte) : result DecodeError (Signed T * N) :=
  let? (issuer, signature, actual_size) := decode_header bytes in
  let? message := ok_or (get_range bytes 0 actual_size)
                    (E_MessageTooShort (@type_name T _) actual_size (len bytes)) in
  Ok (MkSigned issuer signature message, actual_size).

(** [Signed::try_decode] *)
Definition try_decode (bytes : list byte) : result DecodeError (Signed T) :=
  let? (signed, _) := try_decode_prefix bytes in Ok signed.

(** [Signed::try_decode_trusted_payload] *)
Definition try_decode_trusted_payload (self : Signed T) : result DecodeError T :=
  let? (payload, _) := try_decode_fields (fields_bytes self) in Ok payload.

(** [VerifiedSignature::try_from_signed], which is [Signed::try_verify] *)
Definition try_from_signed (signed : Signed T) :
  result VerificationError (VerifiedSignature T) :=
  let? _ := guard_err (negb (verify_strict (sg_issuer signed) (payload_bytes signed)
                               (sg_signature signed))) VE_InvalidSignature in
  let? (payload, _) := map_err VE_Codec (try_decode_fields (fields_bytes signed)) in
  Ok (VerifiedSignature_from_parts signed payload).

(** [VerifiedSignature::try_from_trusted] *)
Definition try_from_trusted (signed : Signed T) : result DecodeError (VerifiedSignature T) :=
  let? payload := try_decode_trusted_payload signed in
  Ok (VerifiedSignature_from_parts signed payload).

(** [Signed::seal] *)
Definition seal (signer : Signer) (payload : T) : VerifiedSignature T :=
  let issuer := verifying_key signer in
  let bytes := arr_list (SCHEMA T) in
  let bytes := match @DISCRIMINANT T _ with Some disc => bytes ++ [disc] | None => bytes end in
  let bytes := bytes ++ arr_list issuer in
  let bytes := encode_fields payload bytes in
  let signature := sign signer bytes in
  let bytes := bytes ++ arr_list signature in
  VerifiedSignature_from_parts (MkSigned issuer signature bytes) payload.

(** [Signed::from_parts] *)
Definition from_parts (issuer : VerifyingKey) (signature : Signature) (payload : T) : Signed T :=
  let bytes := arr_list (SCHEMA T) in
  let bytes := bytes ++ arr_list issuer in
  let bytes := encode_fields payload bytes in
  let bytes := bytes ++ arr_list signature in
  MkSigned issuer signature bytes.
End signed.
Arguments disc_size T {_}.
Arguments disc_bytes T {_}.

(** ** Blobs beside signed metadata *)

(** The trait [HasBlobMeta]. *)
Class HasBlobMeta (T : Type) : Type := {
  Args : Type;
  blob_meta : T -> BlobMeta;
  from_args : Args -> BlobMeta -> T
}.

#[export] Instance LooseCommit_has_blob_meta : HasBlobMeta LooseCommit := {|
  Args := SedimentreeId * CommitId * gset CommitId;
  blob_meta := lc_blob_meta;
  from_args '(sedimentree_id, head, parents) meta :=
    LooseCommit_new sedimentree_id head parents meta
|}.

#[export] Instance Fragment_has_blob_meta : HasBlobMeta Fragment := {|
  Args := SedimentreeId * CommitId * gset CommitId * list CommitId;
  blob_meta f := fs_blob_meta (fr_summary f);
  from_args '(sedimentree_id, head, boundary, checkpoints) meta :=
    Fragment_new sedimentree_id head boundary checkpoints meta
|}.

Record VerifiedMeta (T : Type) : Type := MkVerifiedMeta {
  vm_verified : VerifiedSignature T;
  vm_blob : Blob
}.
Arguments MkVerifiedMeta {T}.
Arguments vm_verified {T}.
Arguments vm_blob {T}.

Record BlobMismatch : Type := {
  bmm_claimed : BlobMeta;
  bmm_actual : BlobMeta
}.

Section meta.
Context `{Ed25519, Blake3, Bijou64} {T : Type}.
Context `{!Schema T, !EncodeFields T, !DecodeFields T, !HasBlobMeta T}.

(** [VerifiedMeta::new] *)
Definition VerifiedMeta_new (verified : VerifiedSignature T) (blob : Blob) :
  result BlobMismatch (VerifiedMeta T) :=
  let actual := BlobMeta_new blob in
  let claimed := blob_meta (vs_payload verified) in
  if bool_decide (actual = claimed) then Ok (MkVerifiedMeta verified blob)
  else Err {| bmm_claimed := claimed; bmm_actual := actual |}.

(** [VerifiedMeta::seal] *)
Definition VerifiedMeta_seal (signer : Signer) (args : Args) (verified_blob : VerifiedBlobMeta) :
  VerifiedMeta T :=
  let meta := from_args args (vbm_meta verified_blob) in
  MkVerifiedMeta (seal signer meta) (vbm_blob verified_blob).

(** [VerifiedMeta::try_from_trusted] *)
Definition VerifiedMeta_try_from_trusted (signed : Signed T) (blob : Blob) :
  result DecodeError (VerifiedMeta T) :=
  let? verified := try_from_trusted signed in
  Ok (MkVerifiedMeta verified blob).
End meta.

(** ** The wire form *)

(** What the header check needs beyond the codec laws. *)
Class SignedLaws (T : Type) `{Bijou64, !Schema T, !EncodeFields T, !DecodeFields T}
    (encodable : T -> Prop) : Prop := {
  signed_codec :: CodecLaws T encodable;
  signed_min (x : T) : encodable x -> @MIN_SIGNED_SIZE T _ _ <= signed_size x
}.

#[export] Instance LooseCommit_signed `{Bijou64Laws} :
  SignedLaws LooseCommit LooseCommitCodec.encodable.
Proof.
  split; [apply _|]. intros x [_ Hx]. pose proof (bijou_len_bounds _ Hx).
  unfold MIN_SIGNED_SIZE, signed_size. cbn.
  unfold LooseCommitCodec.fields_size, LooseCommitCodec.CODEC_MIN_SIZE,
    LooseCommitCodec.CODEC_MIN_FIELDS_SIZE, LooseCommitCodec.CODEC_FIXED_FIELDS_SIZE. lia.
Qed.

#[export] Instance Fragment_signed `{Bijou64Laws} : SignedLaws Fragment FragmentCodec.encodable.
Proof.
  split; [apply _|]. intros x Hx.
  assert (Hs : bm_size_bytes (fr_blob_meta x) <= u64_max) by apply Hx.
  pose proof (bijou_len_bounds _ Hs).
  unfold MIN_SIGNED_SIZE, signed_size. cbn.
  unfold FragmentCodec.fields_size, FragmentCodec.CODEC_MIN_SIZE,
    FragmentCodec.CODEC_MIN_FIELDS_SIZE, FragmentCodec.CODEC_FIXED_FIELDS_SIZE. lia.
Qed.

Section wire.
Context `{Ed25519, Bijou64} {T : Type} `{!Schema T, !EncodeFields T, !DecodeFields T}.
Context {encodable : T -> Prop} `{!SignedLaws T encodable}.

(** The bytes that are signed. *)
Definition signed_message (issuer : VerifyingKey) (payload : T) : list byte :=
  arr_list (SCHEMA T) ++ disc_bytes T ++ arr_list issuer ++ encode_fields payload [].

Lemma len_disc_bytes : len (disc_bytes T) = disc_size T.
Proof. unfold disc_bytes, disc_size. by destruct DISCRIMINANT. Qed.

Lemma len_signed_message issuer payload :
  encodable payload -> len (signed_message issuer payload) + 64 = signed_size payload.
Proof using SignedLaws0.
  intros Hp. unfold signed_message, signed_size.
  rewrite !len_app, !len_array, len_disc_bytes, (encode_fields_len payload Hp).
  unfold disc_size. lia.
Qed.

(** A decoded value: its cached fields are those of its bytes. *)
Record signed_wf (s : Signed T) (payload : T) : Prop := {
  wf_bytes : sg_bytes s = signed_message (sg_issuer s) payload ++ arr_list (sg_signature s);
  wf_encodable : encodable payload;
  wf_key : vk_from_bytes_ok (sg_issuer s) = true
}.

Lemma seal_wf signer `{!HonestSigner signer} payload :
  encodable payload -> signed_wf (vs_signed (seal signer payload)) payload.
Proof using SignedLaws0.
  intros Hp. split; [|done|apply signer_key_ok]. unfold seal, signed_message, disc_bytes. simpl.
  rewrite (encode_fields_append payload). destruct DISCRIMINANT; by rewrite <- ?app_assoc.
Qed.

Lemma seal_message signer payload :
  sg_signature (vs_signed (seal signer payload)) =
  sign signer (signed_message (verifying_key signer) payload).
Proof using SignedLaws0.
  unfold seal, signed_message, disc_bytes. simpl. f_equal.
  rewrite (encode_fields_append payload). destruct DISCRIMINANT; by rewrite <- ?app_assoc.
Qed.

Lemma wf_payload_bytes s payload :
  signed_wf s payload -> payload_bytes s = signed_message (sg_issuer s) payload.
Proof.
  intros [Hb _ _]. unfold payload_bytes, SIGNATURE_SIZE. rewrite Hb, len_app, len_array.
  assert (Hs : suffix_at (signed_message (sg_issuer s) payload ++ arr_list (sg_signature s)) 0
                 (signed_message (sg_issuer s) payload ++ arr_list (sg_signature s)))
    by apply suffix_at_start.
  replace (_ + N.of_nat 64 - 64) with (0 + len (signed_message (sg_issuer s) payload)) by lia.
  by rewrite (get_range_suffix _ _ _ _ _ Hs eq_refl).
Qed.

Lemma message_suffixes (buf rest : list byte) issuer payload :
  buf = signed_message issuer payload ++ rest ->
  suffix_at buf 0 (arr_list (SCHEMA T) ++ disc_bytes T ++ arr_list issuer
                     ++ encode_fields payload [] ++ rest) /\
  suffix_at buf SCHEMA_SIZE (disc_bytes T ++ arr_list issuer ++ encode_fields payload [] ++ rest) /\
  suffix_at buf (SCHEMA_SIZE + disc_size T) (arr_list issuer ++ encode_fields payload [] ++ rest) /\
  suffix_at buf (SCHEMA_SIZE + disc_size T + VERIFYING_KEY_SIZE) (encode_fields payload [] ++ rest).
Proof.
  intros ->. unfold signed_message. rewrite <- !app_assoc.
  pose proof (suffix_at_start (arr_list (SCHEMA T) ++ disc_bytes T ++ arr_list issuer
    ++ encode_fields payload [] ++ rest)) as Hs0. split; [done|].
  pose proof (suffix_at_app _ _ _ _ SCHEMA_SIZE Hs0 (len_array _)) as Hs1. simpl in Hs1.
  pose proof (suffix_at_app _ _ _ _ _ Hs1 len_disc_bytes) as Hs2.
  pose proof (suffix_at_app _ _ _ _ VERIFYING_KEY_SIZE Hs2 (len_array _)) as Hs3. done.
Qed.

Lemma wf_fields_bytes s payload :
  signed_wf s payload -> fields_bytes s = encode_fields payload [].
Proof.
  intros [Hb _ _]. destruct (message_suffixes _ _ _ _ Hb) as (_ & _ & _ & Hs).
  pose proof (suffix_at_len _ _ _ Hs) as Hl. rewrite len_app, len_array in Hl.
  unfold fields_bytes, SIGNATURE_SIZE.
  replace (len (sg_bytes s) - 64)
    with (SCHEMA_SIZE + disc_size T + VERIFYING_KEY_SIZE + len (encode_fields payload [])) by lia.
  by rewrite (get_range_suffix _ _ _ _ _ Hs eq_refl).
Qed.
End wire.

Section decoding.
Context `{Ed25519, Bijou64} {T : Type} `{!Schema T, !EncodeFields T, !DecodeFields T}.
Context {encodable : T -> Prop} `{!SignedLaws T encodable}.

(** The array at an offset where it was written. *)
Lemma get_array_at (buf rest : list byte) off n (a : array n) :
  suffix_at buf off (arr_list a ++ rest) ->
  get_range buf off (off + N.of_nat n) ≫= array_of_list n = Some a.
Proof.
  intros Hs. rewrite (get_range_suffix _ _ _ _ _ Hs (len_array a)). simpl.
  apply array_of_list_eq.
Qed.

Lemma get_array_inv (buf s : list byte) off n (a : array n) :
  suffix_at buf off s -> get_range buf off (off + N.of_nat n) ≫= array_of_list n = Some a ->
  exists rest, s = arr_list a ++ rest /\ suffix_at buf (off + N.of_nat n) rest.
Proof.
  intros Hs (x & Hx & <-%array_of_list_Some)%bind_Some.
  by apply get_range_inv with (s := s) in Hx as [_ ?].
Qed.

Lemma lookup_at (buf rest : list byte) off b :
  suffix_at buf off ([b] ++ rest) -> buf !! N.to_nat off = Some b.
Proof.
  intros [_ Hd]. by rewrite <- (Nat.add_0_r (N.to_nat off)), <- lookup_drop, Hd.
Qed.

Lemma decode_header_at issuer payload (sig : Signature) rest :
  encodable payload -> vk_from_bytes_ok issuer = true ->
  decode_header (T := T) (signed_message issuer payload ++ arr_list sig ++ rest) =
    Ok (issuer, sig, signed_size payload).
Proof using SignedLaws0.
  intros Hp Hk. set (buf := _ ++ _).
  destruct (message_suffixes buf (arr_list sig ++ rest) issuer payload eq_refl)
    as (Hs0 & Hs1 & Hs2 & Hs3).
  pose proof (len_signed_message issuer payload Hp) as Hlm.
  assert (Hlen : len buf = signed_size payload + len rest)
    by (unfold buf; rewrite !len_app, len_array; lia).
  pose proof (signed_min payload Hp) as Hmin.
  unfold decode_header.
  rewrite (proj2 (N.ltb_ge _ _)) by lia. cbn [guard_err rbind].
  change SCHEMA_SIZE with (0 + N.of_nat 4) at 1. rewrite (get_array_at _ _ _ _ _ Hs0).
  cbn [ok_or rbind]. rewrite bool_decide_true by done. cbn [guard_err negb rbind].
  assert (Hdisc : forall e,
    match @DISCRIMINANT T _ with
    | Some d => let? g := ok_or (buf !! N.to_nat SCHEMA_SIZE) e in
        guard_err (negb (bool_decide (g = d))) (E_InvalidDiscriminant d g)
    | None => Ok tt
    end = Ok tt).
  { intros e. clear - Hs1. unfold disc_bytes in Hs1. destruct DISCRIMINANT as [d|]; [|done].
    rewrite (lookup_at _ _ _ _ Hs1). cbn [ok_or rbind]. by rewrite bool_decide_true. }
  rewrite Hdisc. cbn [rbind].
  change VERIFYING_KEY_SIZE with (N.of_nat 32) at 1. rewrite (get_array_at _ _ _ _ _ Hs2).
  cbn [ok_or rbind]. rewrite Hk. cbn [guard_err negb rbind].
  rewrite (get_from_suffix _ _ _ Hs3). cbn [ok_or rbind].
  rewrite (decode_encode_fields payload) by done. cbn [rbind].
  assert (Hsz : SCHEMA_SIZE + disc_size T + VERIFYING_KEY_SIZE + fields_size payload
                + SIGNATURE_SIZE = signed_size payload) by (unfold signed_size, disc_size; done).
  rewrite Hsz. rewrite (proj2 (N.ltb_ge _ _)) by lia. cbn [guard_err rbind].
  pose proof (suffix_at_app _ _ _ _ _ Hs3 (encode_fields_len payload Hp)) as Hs4.
  pose proof (get_array_at _ _ _ 64 _ Hs4 : get_range _ _ (_ + SIGNATURE_SIZE) ≫= _ = _) as Hg.
  rewrite Hsz in Hg. by rewrite Hg.
Qed.

Lemma decode_header_inv buf issuer (sig : Signature) n :
  decode_header (T := T) buf = Ok (issuer, sig, n) ->
  exists payload rest, encodable payload /\ vk_from_bytes_ok issuer = true /\
    n = signed_size payload /\ buf = signed_message issuer payload ++ arr_list sig ++ rest.
Proof using SignedLaws0.
  unfold decode_header. intros Hd.
  apply rbind_ok in Hd as ([] & _ & Hd).
  apply rbind_ok in Hd as (schema & Hschema & Hd). apply ok_or_ok in Hschema.
  apply rbind_ok in Hd as ([] & Hsc & Hd). apply guard_err_ok in Hsc.
  apply negb_false_iff, bool_decide_eq_true in Hsc. subst schema.
  apply rbind_ok in Hd as ([] & Hdisc & Hd).
  apply rbind_ok in Hd as (iss & Hiss & Hd). apply ok_or_ok in Hiss.
  apply rbind_ok in Hd as ([] & Hkey & Hd). apply guard_err_ok, negb_false_iff in Hkey.
  apply rbind_ok in Hd as (fields & Hfields & Hd). apply ok_or_ok in Hfields.
  apply rbind_ok in Hd as ([payload fsz] & Hpay & Hd).
  apply rbind_ok in Hd as ([] & _ & Hd).
  apply rbind_ok in Hd as (sg & Hsig & Hd). apply ok_or_ok in Hsig.
  injection Hd as <- <- <-.
  destruct (get_array_inv buf buf 0 4 _ (suffix_at_start buf) Hschema) as (r0 & Hb & Hs0).
  assert (Hs1 : exists r1, r0 = disc_bytes T ++ r1 /\ suffix_at buf (SCHEMA_SIZE + disc_size T) r1).
  { unfold disc_bytes, disc_size. destruct DISCRIMINANT as [d|].
    - apply rbind_ok in Hdisc as (g & Hg & Hdisc). apply ok_or_ok in Hg.
      apply guard_err_ok, negb_false_iff, bool_decide_eq_true in Hdisc. subst g.
      destruct r0 as [|b r1].
      { exfalso. apply suffix_at_len in Hs0. pose proof (lookup_lt_Some _ _ _ Hg).
        unfold len, SCHEMA_SIZE in *. simpl in Hs0. lia. }
      pose proof (lookup_at buf r1 SCHEMA_SIZE b Hs0) as Hb0.
      rewrite Hb0 in Hg. injection Hg as ->.
      exists r1. split; [done|]. by apply (suffix_at_app buf [d] r1 4 1).
    - exists r0. by rewrite N.add_0_r. }
  destruct Hs1 as (r1 & -> & Hs1).
  destruct (get_array_inv buf r1 _ 32 _ Hs1 Hiss) as (r2 & -> & Hs2).
  change (N.of_nat 32) with VERIFYING_KEY_SIZE in Hs2. rewrite (get_from_suffix _ _ _ Hs2) in Hfields. injection Hfields as <-.
  destruct (decode_fields_canonical _ _ _ Hpay) as (He & -> & r3 & ->).
  pose proof (suffix_at_app _ _ _ _ _ Hs2 (encode_fields_len payload He)) as Hs3.
  destruct (get_array_inv buf r3 _ 64 _ Hs3 Hsig) as (r4 & -> & _).
  exists payload, r4. split; [done|]. split; [done|]. split; [done|].
  rewrite Hb. unfold signed_message. by rewrite <- !app_assoc.
Qed.

Lemma try_decode_prefix_at s payload rest :
  signed_wf (encodable := encodable) s payload ->
  try_decode_prefix (sg_bytes s ++ rest) = Ok (s, len (sg_bytes s)).
Proof using SignedLaws0.
  intros [Hb He Hk]. unfold try_decode_prefix. rewrite Hb at 1. rewrite <- app_assoc.
  rewrite decode_header_at by done. cbn [rbind].
  assert (Hl : len (sg_bytes s) = signed_size payload)
    by (rewrite Hb, len_app, len_array, <- (len_signed_message (sg_issuer s)) by done; lia).
  replace (signed_size payload) with (0 + len (sg_bytes s)) at 1 by lia.
  rewrite (get_range_suffix _ (sg_bytes s) rest 0 (len (sg_bytes s)));
    [|apply suffix_at_start|done].
  cbn [ok_or rbind]. rewrite Hl. by destruct s.
Qed.

Lemma try_decode_prefix_inv buf s n :
  try_decode_prefix (T := T) buf = Ok (s, n) ->
  exists payload rest, signed_wf (encodable := encodable) s payload /\
    buf = sg_bytes s ++ rest /\ n = len (sg_bytes s).
Proof using SignedLaws0.
  unfold try_decode_prefix. intros Hd.
  apply rbind_ok in Hd as ([[issuer sig] sz] & Hh & Hd).
  destruct (decode_header_inv _ _ _ _ Hh) as (payload & rest & He & Hk & -> & ->).
  apply rbind_ok in Hd as (msg & Hmsg & Hd). apply ok_or_ok in Hmsg. injection Hd as <- <-.
  assert (Hl : len (signed_message issuer payload ++ arr_list sig) = signed_size payload)
    by (rewrite len_app, len_array, <- (len_signed_message issuer) by done; lia).
  rewrite app_assoc in Hmsg.
  assert (msg = signed_message issuer payload ++ arr_list sig) as ->.
  { pose proof (get_range_suffix _ _ rest 0 _ (suffix_at_start _) Hl) as Hg.
    rewrite N.add_0_l in Hg. congruence. }
  exists payload, rest. split; [by split|]. cbn [sg_bytes].
  split; [by rewrite <- app_assoc|exact (eq_sym Hl)].
Qed.

(** The decoders behind the envelope never fail on a well-formed value. *)
Lemma wf_decode_fields s payload :
  signed_wf (encodable := encodable) s payload ->
  try_decode_fields (fields_bytes s) = Ok (payload, fields_size payload).
Proof using SignedLaws0.
  intros Hw. rewrite (wf_fields_bytes s payload Hw), <- (app_nil_r (encode_fields _ _)).
  apply (decode_encode_fields payload). apply Hw.
Qed.
End decoding.

(** ** The claims *)

Section claims.
Context `{Ed25519, Bijou64} {T : Type} `{!Schema T, !EncodeFields T, !DecodeFields T}.
Context {encodable : T -> Prop} `{!SignedLaws T encodable}.

(** What an honest signer seals survives the wire: with any bytes behind it, the
    sealed value is decoded back and exactly its bytes are consumed, as many as
    [signed_size] says; its signature verifies, and verification and the trusted
    path both return the payload that was sealed. *)
Theorem Signed_roundtrip signer `{!HonestSigner signer} (payload : T) rest :
  encodable payload ->
  let v := seal signer payload in
  let bytes := sg_bytes (vs_signed v) in
  len bytes = signed_size payload /\
  try_decode_prefix (bytes ++ rest) = Ok (vs_signed v, len bytes) /\
  try_from_signed (vs_signed v) = Ok v /\
  try_from_trusted (vs_signed v) = Ok v.
Proof.
  intros Hp v bytes. pose proof (seal_wf signer payload Hp) as Hw.
  pose proof (wf_decode_fields _ _ Hw) as Hf. split; [|split; [|split]].
  - unfold bytes, v. rewrite (wf_bytes _ _ Hw), len_app, len_array.
    apply (len_signed_message (verifying_key signer)). done.
  - by eapply try_decode_prefix_at.
  - unfold v, try_from_signed. rewrite (wf_payload_bytes _ _ Hw), seal_message.
    change (sg_issuer (vs_signed (seal signer payload))) with (verifying_key signer).
    rewrite signer_verifies. cbn [guard_err negb rbind]. by rewrite Hf.
  - unfold try_from_trusted, try_decode_trusted_payload, v. by rewrite Hf.
Qed.

(** C24: Whatever decodes is canonical and carries its own proof obligation: the
    bytes consumed are the schema, the discriminant, the issuer, the encoding of
    one payload and the signature. Verification succeeds exactly when the
    signature holds for these bytes under that issuer, then with that payload,
    and fails with no other error; the trusted path returns the same payload. *)
Theorem Signed_decode_sound buf (s : Signed T) n :
  try_decode_prefix buf = Ok (s, n) ->
  exists payload rest,
    buf = sg_bytes s ++ rest /\ n = len (sg_bytes s) /\ encodable payload /\
    sg_bytes s = arr_list (SCHEMA T) ++ disc_bytes T ++ arr_list (sg_issuer s)
                 ++ encode_fields payload [] ++ arr_list (sg_signature s) /\
    try_from_trusted s = Ok (VerifiedSignature_from_parts s payload) /\
    try_from_signed s =
      if verify_strict (sg_issuer s)
           (arr_list (SCHEMA T) ++ disc_bytes T ++ arr_list (sg_issuer s)
            ++ encode_fields payload []) (sg_signature s)
      then Ok (VerifiedSignature_from_parts s payload)
      else Err VE_InvalidSignature.
Proof.
  intros Hd. destruct (try_decode_prefix_inv _ _ _ Hd) as (payload & rest & Hw & -> & ->).
  pose proof (wf_decode_fields _ _ Hw) as Hf.
  exists payload, rest. split_and!; [done|done|apply Hw| | |].
  - rewrite (wf_bytes _ _ Hw). unfold signed_message. by rewrite <- !app_assoc.
  - unfold try_from_trusted, try_decode_trusted_payload. by rewrite Hf.
  - unfold try_from_signed. rewrite (wf_payload_bytes _ _ Hw). unfold signed_message.
    destruct (verify_strict _ _ _); [|done]. cbn [guard_err negb rbind]. by rewrite Hf.
Qed.

(** [from_parts] writes no discriminant, so its bytes are one short for a type that
    has one. *)
Lemma from_parts_size issuer (sig : Signature) (payload : T) :
  encodable payload ->
  len (sg_bytes (from_parts issuer sig payload)) + disc_size T = signed_size payload.
Proof.
  intros Hp. rewrite <- (len_signed_message issuer payload Hp).
  unfold from_parts, signed_message. cbn [sg_bytes].
  rewrite (encode_fields_append payload), !len_app, !len_array, len_disc_bytes. lia.
Qed.
End claims.

Section separation.
Context `{Ed25519, Bijou64} {T U : Type}.
Context `{!Schema T, !EncodeFields T, !DecodeFields T} {encT : T -> Prop} `{!SignedLaws T encT}.
Context `{!Schema U, !EncodeFields U, !DecodeFields U} {encU : U -> Prop} `{!SignedLaws U encU}.

(** C33: A signature binds the type, the signer and the content: if two decoded
    values, of whatever payload types, have the same signed bytes, their schemas
    are the same, and if also their discriminants are, so are the issuers and the
    encoded fields. A signature on a commit is never one on a fragment. *)
Theorem signature_binds buf1 buf2 (s1 : Signed T) (s2 : Signed U) n1 n2 :
  try_decode_prefix buf1 = Ok (s1, n1) -> try_decode_prefix buf2 = Ok (s2, n2) ->
  payload_bytes s1 = payload_bytes s2 ->
  SCHEMA T = SCHEMA U /\
  (@DISCRIMINANT T _ = @DISCRIMINANT U _ ->
     sg_issuer s1 = sg_issuer s2 /\ fields_bytes s1 = fields_bytes s2).
Proof.
  intros H1 H2. destruct (try_decode_prefix_inv (encodable := encT) _ _ _ H1) as (p1 & _ & W1 & _).
  destruct (try_decode_prefix_inv (encodable := encU) _ _ _ H2) as (p2 & _ & W2 & _).
  rewrite (wf_payload_bytes _ _ W1), (wf_payload_bytes _ _ W2).
  rewrite (wf_fields_bytes _ _ W1), (wf_fields_bytes _ _ W2). unfold signed_message.
  intros [Hs Hr]%app_inj_1; [|by rewrite !length_array].
  split; [by apply array_eq|]. intros Hd. unfold disc_bytes in Hr. rewrite Hd in Hr.
  apply app_inj_1 in Hr as [_ Hr]; [|done].
  apply app_inj_1 in Hr as [Hi Hf]; [|by rewrite !length_array].
  split; [by apply array_eq|done].
Qed.
End separation.

Section meta_claims.
Context `{Ed25519, Blake3, Bijou64} {T : Type}.
Context `{!Schema T, !EncodeFields T, !DecodeFields T, !HasBlobMeta T}.

(** [VerifiedMeta::seal] needs no blob check: the check of the receiving side
    accepts what it builds, for a payload type that stores its metadata. *)
Lemma VerifiedMeta_seal_checked signer args blob :
  (forall args meta, blob_meta (from_args args meta) = meta) ->
  let v := VerifiedMeta_seal signer args (VerifiedBlobMeta_new blob) in
  VerifiedMeta_new (vm_verified v) (vm_blob v) = Ok v.
Proof.
  intros Hm. unfold VerifiedMeta_new, VerifiedMeta_seal, seal.
  cbn [vm_verified vm_blob vs_payload]. by rewrite Hm, bool_decide_true.
Qed.
End meta_claims.

(** ** A toy signature scheme

    A checksum of the message under the key stands in for Ed25519. *)

Definition checksum (key : VerifyingKey) (msg : list byte) : Signature :=
  array_pad 64 (arr_list key ++
    to_be_bytes 8 (foldl (fun acc b => (acc * 31 + Byte.to_N b + 1) mod 2 ^ 64) 7 msg)).

Definition ed25519_checksum : Ed25519 := {|
  vk_from_bytes_ok key := negb (bool_decide (key = array_pad 32 []));
  verify_strict key msg sig := bool_decide (sig = checksum key msg)
|}.

Definition toy_signer (tag : byte) : Signer :=
  let key := array_pad 32 [x01; tag] in
  {| verifying_key := key; sign := checksum key |}.

#[export] Instance toy_signer_honest tag : @HonestSigner ed25519_checksum (toy_signer tag).
Proof.
  split; [|intros msg; by apply bool_decide_eq_true_2].
  cbn. apply negb_true_iff, bool_decide_eq_false_2. intros [=].
Qed.

#[local] Existing Instance ed25519_checksum.
#[local] Existing Instance bijou_fixed8.
#[local] Existing Instance bijou_fixed8_laws.

Lemma Signed_roundtrip_witness :
  let v := seal (toy_signer x05) example_commit in
  try_decode_prefix (sg_bytes (vs_signed v) ++ [xff]) =
    Ok (vs_signed v, len (sg_bytes (vs_signed v))) /\
  try_from_signed (vs_signed v) = Ok v.
Proof.
  destruct (Signed_roundtrip (encodable := LooseCommitCodec.encodable) (toy_signer x05)
              example_commit [xff]) as (_ & H1 & H2 & _).
  - split; vm_compute; discriminate.
  - split; [exact H1|exact H2].
Defined.

(** A signed commit on the wire. *)
Definition commit_bytes : list byte :=
  sg_bytes (vs_signed (seal (toy_signer x05) example_commit)).

Lemma Signed_decode_sound_witness :
  exists s : Signed LooseCommit, exists n payload rest,
    try_decode_prefix commit_bytes = Ok (s, n) /\ commit_bytes = sg_bytes s ++ rest /\
    LooseCommitCodec.encodable payload.
Proof.
  assert (Hc : is_ok (try_decode_prefix (T := LooseCommit) commit_bytes) = true)
    by (vm_compute; reflexivity).
  destruct (try_decode_prefix (T := LooseCommit) commit_bytes) as [[s n]|e] eqn:Hd;
    [|discriminate Hc].
  destruct (Signed_decode_sound (encodable := LooseCommitCodec.encodable) _ _ _ Hd)
    as (payload & rest & Hb & _ & He & _).
  exists s, n, payload, rest. split; [reflexivity|]. split; [exact Hb|exact He].
Defined.

Lemma signature_binds_witness :
  exists s1 s2 : Signed LooseCommit, exists n,
    try_decode_prefix commit_bytes = Ok (s1, n) /\
    try_decode_prefix commit_bytes = Ok (s2, n) /\ sg_issuer s1 = sg_issuer s2.
Proof.
  assert (Hc : is_ok (try_decode_prefix (T := LooseCommit) commit_bytes) = true)
    by (vm_compute; reflexivity).
  destruct (try_decode_prefix (T := LooseCommit) commit_bytes) as [[s n]|e] eqn:Hd;
    [|discriminate Hc].
  exists s, s, n. split; [reflexivity|]. split; [reflexivity|].
  apply (signature_binds (encT := LooseCommitCodec.encodable)
           (encU := LooseCommitCodec.encodable) commit_bytes commit_bytes s s n n Hd Hd eq_refl).
  reflexivity.
Defined.
