(* ===== verification/Reader.v ===== *)
(** * Reading a payload at a moving offset

    The decoders of [subduction_core/src/connection/message.rs] thread a mutable
    offset through [read_u8], [read_u16], [read_u32], [read_u64], [read_array] and
    [read_bijou64], each of which can fail. That is a state and error monad;
    [reader] is it, with the notation [let! x := m in k].

    [reads f x w] says that [f] reads [x] off the bytes [w], wherever they stand;
    its combinators turn the round trip of a decoder into the round trips of its
    parts. [keeps f Q] is the other direction: [Q] holds of what [f] returns and of
    the number of bytes it consumed. *)

From Stdlib Require Import Strings.Byte NArith Lia.
From stdpp Require Import base gmap sorting strings list.
From S2P Require Import Prelude.
From S2P Require Import Codec.

Open Scope N_scope.

Section reader.
Context `{Bijou64}.

Definition reader (A : Type) : Type := list byte -> N -> result DecodeError (A * N).

Definition reader_ret {A} (x : A) : reader A := fun _ offset => Ok (x, offset).

Definition reader_bind {A B} (m : reader A) (k : A -> reader B) : reader B :=
  fun buf offset => let? (x, offset) := m buf offset in k x buf offset.

Definition reader_fail {A} (e : DecodeError) : reader A := fun _ _ => Err e.

Definition read_u8 : reader byte := fun buf offset =>
  let? val := buf_err (decode.u8 buf offset) in Ok (val, offset + 1).

Definition read_u16 : reader N := fun buf offset =>
  let? val := buf_err (decode.u16 buf offset) in Ok (val, offset + 2).

Definition read_u32 : reader N := fun buf offset =>
  let? val := buf_err (decode.u32 buf offset) in Ok (val, offset + 4).

Definition read_u64 : reader N := fun buf offset =>
  let? val := buf_err (decode.u64 buf offset) in Ok (val, offset + 8).

Definition read_array (n : nat) : reader (array n) := fun buf offset =>
  let? arr := buf_err (decode.array n buf offset) in Ok (arr, offset + N.of_nat n).

Definition read_bijou64 : reader N := fun buf offset =>
  let? (val, consumed) := decode_bijou buf offset in Ok (val, offset + consumed).

(** [usize] has 64 bits, so the conversion never fails. *)
Definition read_bijou64_as_usize : reader N := fun buf offset =>
  let? (val, offset) := read_bijou64 buf offset in
  if val <=? u64_max then Ok (val, offset) else Err (E_BlobTooLarge val u64_max).

(** [for _ in 0..count { v.push(f(payload, offset)?) }] *)
Fixpoint read_n {A} (f : reader A) (count : nat) : reader (list A) :=
  match count with
  | O => reader_ret []
  | S count' => reader_bind f (fun x => reader_bind (read_n f count') (fun l => reader_ret (x :: l)))
  end.

(** The bytes [payload.get(offset..offset + size)], the sum in [usize]; a sum past
    the end of [usize] wraps around in a release build, which makes the range end
    before it starts. *)
Definition read_slice (size : N) : reader (list byte) := fun buf offset =>
  let? x := ok_or (get_range buf offset (as_u64 (offset + size)))
              (E_BufferTooShort (decode.too_short (RT_Slice size) buf offset size)) in
  Ok (x, offset + size).
End reader.

Declare Scope reader_scope.
Delimit Scope reader_scope with reader.
Notation "'let!' x := m 'in' k" := (reader_bind m (fun x => k))
  (at level 10, x pattern, m at level 100, k at level 200) : reader_scope.
Open Scope reader_scope.

(** ** Reading back *)

Section reads.
Context `{Bijou64Laws}.

Definition reads {A} (f : reader A) (x : A) (w : list byte) : Prop :=
  forall buf offset rest, len buf <= u64_max -> suffix_at buf offset (w ++ rest) ->
    f buf offset = Ok (x, offset + len w).

Lemma reads_ret {A} (x : A) : reads (reader_ret x) x [].
Proof. intros buf off rest _ _. unfold reader_ret. by rewrite len_nil, N.add_0_r. Qed.

Lemma reads_bind {A B} (m : reader A) (k : A -> reader B) x y w1 w2 :
  reads m x w1 -> reads (k x) y w2 -> reads (reader_bind m k) y (w1 ++ w2).
Proof.
  intros Hm Hk buf off rest Hl Hs. rewrite <- app_assoc in Hs. unfold reader_bind.
  rewrite (Hm _ _ _ Hl Hs). cbn [rbind].
  rewrite (Hk buf _ rest Hl) by (by eapply suffix_at_app).
  by rewrite len_app, N.add_assoc.
Qed.

(** The last read of a decoder that only wraps up its result. *)
Lemma reads_map {A B} (m : reader A) (f : A -> B) x w :
  reads m x w -> reads (reader_bind m (fun a => reader_ret (f a))) (f x) w.
Proof.
  intros Hm. rewrite <- (app_nil_r w). eapply reads_bind; [done|]. apply reads_ret.
Qed.

Lemma reads_u8 b : reads read_u8 b [b].
Proof.
  intros buf off rest _ Hs. unfold read_u8. by rewrite (decode_u8_at _ _ _ _ Hs).
Qed.

Lemma reads_u16 v : v <= u16_max -> reads read_u16 v (to_be_bytes 2 v).
Proof.
  intros Hv buf off rest _ Hs. unfold read_u16. rewrite (decode_u16_at _ _ _ _ Hs Hv).
  by rewrite len_to_be_bytes.
Qed.

Lemma reads_u32 v : v <= u32_max -> reads read_u32 v (to_be_bytes 4 v).
Proof.
  intros Hv buf off rest _ Hs. unfold read_u32. rewrite (decode_u32_at _ _ _ _ Hs Hv).
  by rewrite len_to_be_bytes.
Qed.

Lemma reads_u64 v : v <= u64_max -> reads read_u64 v (to_be_bytes 8 v).
Proof.
  intros Hv buf off rest _ Hs. unfold read_u64. rewrite (decode_u64_at _ _ _ _ Hs Hv).
  by rewrite len_to_be_bytes.
Qed.

Lemma reads_array n (a : array n) : reads (read_array n) a (arr_list a).
Proof.
  intros buf off rest _ Hs. unfold read_array. rewrite (decode_array_at _ _ _ _ _ Hs).
  by rewrite len_array.
Qed.

Lemma reads_bijou64_as_usize v :
  v <= u64_max -> reads read_bijou64_as_usize v (bijou_encode v).
Proof.
  intros Hv buf off rest _ Hs. unfold read_bijou64_as_usize, read_bijou64.
  rewrite (decode_bijou_at _ _ _ _ Hs Hv). cbn [rbind].
  rewrite (proj2 (N.leb_le _ _) Hv). by rewrite bijou_len.
Qed.

Lemma reads_slice x : reads (read_slice (len x)) x x.
Proof.
  intros buf off rest Hl Hs. unfold read_slice.
  pose proof (suffix_at_len _ _ _ Hs) as Hlen. rewrite len_app in Hlen.
  unfold as_u64. rewrite N.mod_small by (unfold u64_max in Hl; lia).
  by rewrite (get_range_suffix _ _ _ _ _ Hs eq_refl).
Qed.

Lemma reads_n {A} (f : reader A) (l : list A) (wire : A -> list byte) :
  (forall x, x ∈ l -> reads f x (wire x)) ->
  reads (read_n f (length l)) l (concat (wire <$> l)).
Proof.
  induction l as [|x l IH]; intros Hf; [apply reads_ret|]. simpl.
  eapply reads_bind; [apply Hf; by constructor|].
  eapply reads_map with (f := fun l => x :: l). apply IH. intros y Hy. apply Hf. by constructor.
Qed.

(** ** What a reader returns *)

Definition keeps {A} (f : reader A) (Q : A -> N -> Prop) : Prop :=
  forall buf offset x offset', len buf <= u64_max -> offset <= len buf ->
    f buf offset = Ok (x, offset') ->
    exists n, offset' = offset + n /\ offset' <= len buf /\ Q x n.

Lemma keeps_ret {A} (x : A) (Q : A -> N -> Prop) : Q x 0 -> keeps (reader_ret x) Q.
Proof. intros HQ buf off y off' _ Ho [= <- <-]. exists 0. split; [lia|done]. Qed.

Lemma keeps_fail {A} e (Q : A -> N -> Prop) : keeps (reader_fail e) Q.
Proof. by intros buf off y off' _ _. Qed.

Lemma keeps_bind {A B} (m : reader A) (k : A -> reader B) P Q :
  keeps m P -> (forall a n, P a n -> keeps (k a) (fun b n' => Q b (n + n'))) ->
  keeps (reader_bind m k) Q.
Proof.
  intros Hm Hk buf off y off' Hl Ho Hr. unfold reader_bind in Hr.
  apply rbind_ok in Hr as ([a o] & Ha & Hr).
  destruct (Hm _ _ _ _ Hl Ho Ha) as (n & -> & Hle & HP).
  destruct (Hk a n HP _ _ _ _ Hl Hle Hr) as (n' & -> & Hle' & HQ).
  exists (n + n'). split; [lia|done].
Qed.

Lemma keeps_weaken {A} (f : reader A) (P Q : A -> N -> Prop) :
  keeps f P -> (forall x n, P x n -> Q x n) -> keeps f Q.
Proof.
  intros Hf Hw buf off x off' Hl Ho Hr.
  destruct (Hf _ _ _ _ Hl Ho Hr) as (n & ? & ? & HP). eauto.
Qed.

(** A value read by a primitive reader and the bytes it took. *)
Lemma keeps_u8 : keeps read_u8 (fun _ n => n = 1).
Proof.
  intros buf off x off' _ Ho Hr. unfold read_u8, buf_err in Hr. inv_ok. subst.
  destruct (decode_u8_inv buf off x _ (conj Ho eq_refl) H1) as (rest & _ & Hs).
  pose proof (suffix_at_len _ _ _ Hs). exists 1. split; [done|]. split; [lia|done].
Qed.

Lemma keeps_u16 : keeps read_u16 (fun v n => v <= u16_max /\ n = 2).
Proof.
  intros buf off x off' _ Ho Hr. unfold read_u16, buf_err in Hr. inv_ok. subst.
  destruct (decode_u16_inv buf off x _ (conj Ho eq_refl) H1) as (Hv & rest & _ & Hs).
  pose proof (suffix_at_len _ _ _ Hs). exists 2. split; [done|]. split; [lia|done].
Qed.

Lemma keeps_u32 : keeps read_u32 (fun v n => v <= u32_max /\ n = 4).
Proof.
  intros buf off x off' _ Ho Hr. unfold read_u32, buf_err in Hr. inv_ok. subst.
  destruct (decode_u32_inv buf off x _ (conj Ho eq_refl) H1) as (Hv & rest & _ & Hs).
  pose proof (suffix_at_len _ _ _ Hs). exists 4. split; [done|]. split; [lia|done].
Qed.

Lemma keeps_u64 : keeps read_u64 (fun v n => v <= u64_max /\ n = 8).
Proof.
  intros buf off x off' _ Ho Hr. unfold read_u64, buf_err in Hr. inv_ok. subst.
  destruct (decode_u64_inv buf off x _ (conj Ho eq_refl) H1) as (Hv & rest & _ & Hs).
  pose proof (suffix_at_len _ _ _ Hs). exists 8. split; [done|]. split; [lia|done].
Qed.

Lemma keeps_array n : keeps (read_array n) (fun _ k => k = N.of_nat n).
Proof.
  intros buf off x off' _ Ho Hr. unfold read_array, buf_err in Hr. inv_ok. subst.
  destruct (decode_array_inv n buf off x _ (conj Ho eq_refl) H1) as (rest & _ & Hs).
  pose proof (suffix_at_len _ _ _ Hs). exists (N.of_nat n). split; [done|]. split; [lia|done].
Qed.

Lemma keeps_bijou64_as_usize :
  keeps read_bijou64_as_usize (fun v n => v <= u64_max /\ n = bijou_encoded_len v).
Proof.
  intros buf off x off' _ Ho Hr. unfold read_bijou64_as_usize, read_bijou64 in Hr.
  apply rbind_ok in Hr as ([v o] & Hb & Hr). apply rbind_ok in Hb as ([v' n] & Hb & Ho').
  destruct (N.leb_spec v u64_max); [|done]. simplify_eq/=.
  destruct (decode_bijou_inv buf off x n _ (conj Ho eq_refl) Hb) as (Hv & -> & rest & _ & Hs).
  pose proof (suffix_at_len _ _ _ Hs). eexists. split; [done|]. split; [lia|done].
Qed.

Lemma keeps_slice k :
  k <= u64_max -> keeps (read_slice k) (fun x n => len x = k /\ n = k).
Proof.
  intros Hk buf off x off' Hl Ho Hr. unfold read_slice in Hr. inv_ok. subst.
  apply get_range_Some in H1 as (Hle & Hend & Hx & _). unfold as_u64 in *.
  assert (off + k <= u64_max).
  { destruct (N.le_gt_cases (off + k) u64_max) as [|Hgt]; [done|exfalso].
    unfold u64_max in *.
    assert ((off + k) mod 18446744073709551616 = off + k - 18446744073709551616) as E.
    { symmetry. apply (N.mod_unique _ _ 1); lia. }
    lia. }
  rewrite N.mod_small in * by (unfold u64_max in *; lia).
  exists k. split; [done|]. split; [lia|]. split; [lia|done].
Qed.

Lemma keeps_n {A} (f : reader A) (ok : A -> Prop) (size : A -> N) count :
  keeps f (fun x n => ok x /\ size x <= n) ->
  keeps (read_n f count) (fun l n => length l = count /\ Forall ok l /\
                                     foldr (fun x acc => size x + acc) 0 l <= n).
Proof.
  intros Hf. induction count as [|count IH]; [by apply keeps_ret|]. simpl.
  eapply keeps_bind; [exact Hf|]. intros x n [Hx Hs].
  eapply keeps_bind; [exact IH|]. intros l n' (Hl & Hok & Hs').
  apply keeps_ret. split; [simpl; lia|]. split; [by constructor|]. simpl. lia.
Qed.
End reads.
