(* ===== verification/Message.v ===== *)
(** * Sync messages

    [subduction_core/src/connection/message.rs]: the messages of the sync protocol
    and their binary codec, and the [RemoteHeads] they carry
    ([subduction_core/src/remote_heads.rs]).

    The decoders are written in the [reader] monad of [Reader.v]. [message_ok]
    holds of the messages the format can carry: counts within their fields, sizes
    within the 32-bit total. [usize] has 64 bits. *)

From Stdlib Require Import Strings.Byte NArith Lia.
From stdpp Require Import base gmap sorting strings list.
From S2P Require Import Prelude.
From S2P Require Import Codec.
From S2P Require Import Types.
From S2P Require Import LooseCommit.
From S2P Require Import Fragment.
From S2P Require Import Traversal.
From S2P Require Import Sedimentree.
From S2P Require Import Fingerprints.
From S2P Require Import Signed.
From S2P Require Import Reader.

Open Scope N_scope.

Notation PeerId := (array 32) (only parsing).

Record RemoteHeads : Type := MkRemoteHeads {
  rh_counter : N;
  rh_heads : list CommitId
}.

Record RequestId : Type := MkRequestId {
  ri_requestor : PeerId;
  ri_nonce : N
}.

#[export] Instance RemoteHeads_eq_dec : EqDecision RemoteHeads.
Proof. solve_decision. Defined.
#[export] Instance RequestId_eq_dec : EqDecision RequestId.
Proof. solve_decision. Defined.

Record BatchSyncRequest : Type := MkBatchSyncRequest {
  bsq_id : SedimentreeId;
  bsq_req_id : RequestId;
  bsq_fingerprint_summary : FingerprintSummary;
  bsq_subscribe : bool
}.

Record RequestedData : Type := MkRequestedData {
  rd_commit_fingerprints : list Fingerprint;
  rd_fragment_fingerprints : list Fingerprint
}.

(** [RequestedData::is_empty] *)
Definition requested_is_empty (self : RequestedData) : bool :=
  bool_decide (rd_commit_fingerprints self = []) && bool_decide (rd_fragment_fingerprints self = []).

Record SyncDiff : Type := MkSyncDiff {
  sd_missing_commits : list (Signed LooseCommit * Blob);
  sd_missing_fragments : list (Signed Fragment * Blob);
  sd_requesting : RequestedData
}.

Inductive SyncResult : Type :=
| SR_Ok (diff : SyncDiff)
| SR_NotFound
| SR_Unauthorized.

Record BatchSyncResponse : Type := MkBatchSyncResponse {
  bsr_req_id : RequestId;
  bsr_id : SedimentreeId;
  bsr_result : SyncResult;
  bsr_responder_heads : RemoteHeads
}.

Inductive SyncMessage : Type :=
| SM_LooseCommit (id : SedimentreeId) (commit : Signed LooseCommit) (blob : Blob)
    (sender_heads : RemoteHeads)
| SM_Fragment (id : SedimentreeId) (fragment : Signed Fragment) (blob : Blob)
    (sender_heads : RemoteHeads)
| SM_BatchSyncRequest (req : BatchSyncRequest)
| SM_BatchSyncResponse (resp : BatchSyncResponse)
| SM_RemoveSubscriptions (ids : list SedimentreeId)
| SM_DataRequestRejected (id : SedimentreeId)
| SM_HeadsUpdate (id : SedimentreeId) (heads : RemoteHeads).

(** [SyncMessage::request_id] *)
Definition request_id (self : SyncMessage) : option RequestId :=
  match self with
  | SM_BatchSyncRequest req => Some (bsq_req_id req)
  | SM_BatchSyncResponse resp => Some (bsr_req_id resp)
  | _ => None
  end.

(** [SyncMessage::sedimentree_id] *)
Definition message_sedimentree_id (self : SyncMessage) : option SedimentreeId :=
  match self with
  | SM_LooseCommit id _ _ _ | SM_Fragment id _ _ _ | SM_DataRequestRejected id
  | SM_HeadsUpdate id _ => Some id
  | SM_BatchSyncRequest req => Some (bsq_id req)
  | SM_BatchSyncResponse resp => Some (bsr_id resp)
  | SM_RemoveSubscriptions _ => None
  end.

(** [TryAsBatchSyncResponse], [TryAsSubscribeRequest] *)
Definition try_as_batch_sync_response (self : SyncMessage) : option BatchSyncResponse :=
  match self with SM_BatchSyncResponse resp => Some resp | _ => None end.

Definition try_as_subscribe_request (self : SyncMessage) : option SedimentreeId :=
  match self with
  | SM_BatchSyncRequest req => if bsq_subscribe req then Some (bsq_id req) else None
  | _ => None
  end.

(** ** Sizes *)

Definition MESSAGE_SCHEMA : array 4 := Array (n:=4) ["S"; "U"; "M"; x00]%byte I.
Definition ENVELOPE_HEADER_SIZE : N := 4 + 4 + 1.

Module tags.
Definition LOOSE_COMMIT : byte := x00.
Definition FRAGMENT : byte := x01.
Definition BATCH_SYNC_REQUEST : byte := x04.
Definition BATCH_SYNC_RESPONSE : byte := x05.
Definition REMOVE_SUBSCRIPTIONS : byte := x06.
Definition DATA_REQUEST_REJECTED : byte := x07.
Definition HEADS_UPDATE : byte := x08.
End tags.

Module min_sizes.
Definition LOOSE_COMMIT : N := 32 + 8 + 4 + 166 + 1.
Definition FRAGMENT : N := 32 + 8 + 4 + 200 + 1.
Definition BATCH_SYNC_REQUEST : N := 32 + 32 + 8 + 1 + 16 + 2 + 2.
Definition BATCH_SYNC_RESPONSE : N := 32 + 8 + 32 + 1 + 8 + 4.
Definition REMOVE_SUBSCRIPTIONS : N := 2.
Definition DATA_REQUEST_REJECTED : N := 32.
Definition HEADS_UPDATE : N := 32 + 8 + 4.
End min_sizes.

Module result_tags.
Definition OK : byte := x00.
Definition NOT_FOUND : byte := x01.
Definition UNAUTHORIZED : byte := x02.
End result_tags.

Section codec.
Context `{Ed25519, Bijou64}.

Definition remote_heads_size (heads : RemoteHeads) : N := 8 + 4 + len (rh_heads heads) * 32.

Definition sum_sizes {A} (size : A -> N) (l : list A) : N := foldr (fun x acc => size x + acc) 0 l.

Definition signed_blob_size {T} (x : Signed T * Blob) : N :=
  len (sg_bytes x.1) + bijou_encoded_len (len x.2) + len x.2.

Definition sync_diff_size (diff : SyncDiff) : N :=
  let counts_size := 2 + 2 + 2 + 2 in
  let commits_size := sum_sizes signed_blob_size (sd_missing_commits diff) in
  let fragments_size := sum_sizes signed_blob_size (sd_missing_fragments diff) in
  let requested_fps_size := (len (rd_commit_fingerprints (sd_requesting diff))
                             + len (rd_fragment_fingerprints (sd_requesting diff))) * 8 in
  counts_size + commits_size + fragments_size + requested_fps_size.

Definition sync_result_size (result : SyncResult) : N :=
  match result with SR_Ok diff => sync_diff_size diff | _ => 0 end.

Definition payload_size (self : SyncMessage) : N :=
  match self with
  | SM_LooseCommit _ commit blob sender_heads =>
      32 + len (sg_bytes commit) + bijou_encoded_len (len blob) + len blob
      + remote_heads_size sender_heads
  | SM_Fragment _ fragment blob sender_heads =>
      32 + len (sg_bytes fragment) + bijou_encoded_len (len blob) + len blob
      + remote_heads_size sender_heads
  | SM_BatchSyncRequest req =>
      32 + 32 + 8 + 1 + 16 + 2 + 2
      + N.of_nat (size (commit_fingerprints (bsq_fingerprint_summary req))) * 8
      + N.of_nat (size (fragment_fingerprints (bsq_fingerprint_summary req))) * 8
  | SM_BatchSyncResponse resp =>
      32 + 8 + 32 + 1 + sync_result_size (bsr_result resp)
      + remote_heads_size (bsr_responder_heads resp)
  | SM_RemoveSubscriptions ids => 2 + len ids * 32
  | SM_DataRequestRejected _ => 32
  | SM_HeadsUpdate _ heads => 32 + remote_heads_size heads
  end.

Definition message_encoded_size (self : SyncMessage) : N :=
  ENVELOPE_HEADER_SIZE + payload_size self.

(** ** Encoding *)

Definition encode_remote_heads (buf : list byte) (remote_heads : RemoteHeads) : list byte :=
  let buf := buf ++ to_be_bytes 8 (rh_counter remote_heads) in
  let buf := buf ++ to_be_bytes 4 (as_u32 (len (rh_heads remote_heads))) in
  foldl (fun buf digest => buf ++ arr_list digest) buf (rh_heads remote_heads).

Definition push_fingerprints (buf : list byte) (fps : list Fingerprint) : list byte :=
  foldl (fun buf fp => buf ++ to_be_bytes 8 fp) buf fps.

Definition encode_batch_sync_request (buf : list byte) (req : BatchSyncRequest) : list byte :=
  let buf := buf ++ arr_list (bsq_id req) in
  let buf := buf ++ arr_list (ri_requestor (bsq_req_id req)) in
  let buf := buf ++ to_be_bytes 8 (ri_nonce (bsq_req_id req)) in
  let buf := buf ++ [if bsq_subscribe req then x01 else x00] in
  let seed := fps_seed (bsq_fingerprint_summary req) in
  let buf := buf ++ to_be_bytes 8 (key0 seed) in
  let buf := buf ++ to_be_bytes 8 (key1 seed) in
  let commit_fps := commit_fingerprints (bsq_fingerprint_summary req) in
  let fragment_fps := fragment_fingerprints (bsq_fingerprint_summary req) in
  let buf := buf ++ to_be_bytes 2 (as_u16 (N.of_nat (size commit_fps))) in
  let buf := buf ++ to_be_bytes 2 (as_u16 (N.of_nat (size fragment_fps))) in
  let buf := push_fingerprints buf (btree_iter commit_fps) in
  push_fingerprints buf (btree_iter fragment_fps).

Definition push_signed_blobs {T} (buf : list byte) (l : list (Signed T * Blob)) : list byte :=
  foldl (fun buf '(signed, blob) =>
      let buf := buf ++ sg_bytes signed in
      let buf := buf ++ bijou_encode (len blob) in
      buf ++ blob) buf l.

Definition encode_sync_diff (buf : list byte) (diff : SyncDiff) : list byte :=
  let requesting := sd_requesting diff in
  let buf := buf ++ to_be_bytes 2 (as_u16 (len (sd_missing_commits diff))) in
  let buf := buf ++ to_be_bytes 2 (as_u16 (len (sd_missing_fragments diff))) in
  let buf := buf ++ to_be_bytes 2 (as_u16 (len (rd_commit_fingerprints requesting))) in
  let buf := buf ++ to_be_bytes 2 (as_u16 (len (rd_fragment_fingerprints requesting))) in
  let buf := push_signed_blobs buf (sd_missing_commits diff) in
  let buf := push_signed_blobs buf (sd_missing_fragments diff) in
  let buf := push_fingerprints buf (rd_commit_fingerprints requesting) in
  push_fingerprints buf (rd_fragment_fingerprints requesting).

Definition encode_batch_sync_response (buf : list byte) (resp : BatchSyncResponse) : list byte :=
  let buf := buf ++ arr_list (ri_requestor (bsr_req_id resp)) in
  let buf := buf ++ to_be_bytes 8 (ri_nonce (bsr_req_id resp)) in
  let buf := buf ++ arr_list (bsr_id resp) in
  let buf := match bsr_result resp with
             | SR_Ok diff => encode_sync_diff (buf ++ [result_tags.OK]) diff
             | SR_NotFound => buf ++ [result_tags.NOT_FOUND]
             | SR_Unauthorized => buf ++ [result_tags.UNAUTHORIZED]
             end in
  encode_remote_heads buf (bsr_responder_heads resp).

Definition encode_remove_subscriptions (buf : list byte) (ids : list SedimentreeId) : list byte :=
  let buf := buf ++ to_be_bytes 2 (as_u16 (len ids)) in
  foldl (fun buf id => buf ++ arr_list id) buf ids.

Definition encode_data_request_rejected (buf : list byte) (id : SedimentreeId) : list byte :=
  buf ++ arr_list id.

(** [encode_message] *)
Definition encode_message (msg : SyncMessage) : list byte :=
  let total_size := ENVELOPE_HEADER_SIZE + payload_size msg in
  let buf := arr_list MESSAGE_SCHEMA in
  let buf := buf ++ to_be_bytes 4 (as_u32 total_size) in
  match msg with
  | SM_LooseCommit id commit blob sender_heads =>
      let buf := buf ++ [tags.LOOSE_COMMIT] in
      let buf := buf ++ arr_list id in
      let buf := encode_remote_heads buf sender_heads in
      let buf := buf ++ sg_bytes commit in
      let buf := buf ++ bijou_encode (len blob) in
      buf ++ blob
  | SM_Fragment id fragment blob sender_heads =>
      let buf := buf ++ [tags.FRAGMENT] in
      let buf := buf ++ arr_list id in
      let buf := encode_remote_heads buf sender_heads in
      let buf := buf ++ sg_bytes fragment in
      let buf := buf ++ bijou_encode (len blob) in
      buf ++ blob
  | SM_BatchSyncRequest req => encode_batch_sync_request (buf ++ [tags.BATCH_SYNC_REQUEST]) req
  | SM_BatchSyncResponse resp => encode_batch_sync_response (buf ++ [tags.BATCH_SYNC_RESPONSE]) resp
  | SM_RemoveSubscriptions ids => encode_remove_subscriptions (buf ++ [tags.REMOVE_SUBSCRIPTIONS]) ids
  | SM_DataRequestRejected id => encode_data_request_rejected (buf ++ [tags.DATA_REQUEST_REJECTED]) id
  | SM_HeadsUpdate id heads =>
      let buf := buf ++ [tags.HEADS_UPDATE] in
      let buf := buf ++ arr_list id in
      encode_remote_heads buf heads
  end.
End codec.

(** ** Decoding *)

Section decoding.
Context `{Ed25519, Bijou64}.

Definition decode_remote_heads : reader RemoteHeads :=
  let! counter := read_u64 in
  let! count := read_u32 in
  let! heads := read_n (read_array 32) (N.to_nat count) in
  reader_ret (MkRemoteHeads counter heads).

(** [Signed::try_decode_prefix] on the rest of the payload. *)
Definition read_signed {T} `{!Schema T, !EncodeFields T, !DecodeFields T} : reader (Signed T) :=
  fun payload offset =>
    let? rest := ok_or (get_from payload offset)
                   (E_BufferTooShort {| bts_reading := RT_Slice 0; bts_offset := offset;
                                        bts_need := 1; bts_have := 0 |}) in
    let? (signed, consumed) := try_decode_prefix rest in
    Ok (signed, offset + consumed).

(** A signed payload, the length of its blob and the blob. *)
Definition read_signed_blob {T} `{!Schema T, !EncodeFields T, !DecodeFields T} :
  reader (Signed T * Blob) :=
  let! signed := read_signed in
  let! blob_size := read_bijou64_as_usize in
  let! blob := read_slice blob_size in
  reader_ret (signed, blob).

Definition decode_loose_commit : reader SyncMessage :=
  let! id := read_array 32 in
  let! sender_heads := decode_remote_heads in
  let! (commit, blob) := read_signed_blob in
  reader_ret (SM_LooseCommit id commit blob sender_heads).

Definition decode_fragment : reader SyncMessage :=
  let! id := read_array 32 in
  let! sender_heads := decode_remote_heads in
  let! (fragment, blob) := read_signed_blob in
  reader_ret (SM_Fragment id fragment blob sender_heads).

Definition decode_subscribe (b : byte) : reader bool :=
  match b with
  | x00 => reader_ret false
  | x01 => reader_ret true
  | _ => reader_fail (E_InvalidEnumTag b "Subscribe")
  end.

Definition decode_batch_sync_request : reader SyncMessage :=
  let! id := read_array 32 in
  let! requestor := read_array 32 in
  let! nonce := read_u64 in
  let! subscribe_byte := read_u8 in
  let! subscribe := decode_subscribe subscribe_byte in
  let! key0 := read_u64 in
  let! key1 := read_u64 in
  let! commit_count := read_u16 in
  let! fragment_count := read_u16 in
  let! commit_fps := read_n read_u64 (N.to_nat commit_count) in
  let! fragment_fps := read_n read_u64 (N.to_nat fragment_count) in
  reader_ret (SM_BatchSyncRequest
    (MkBatchSyncRequest id (MkRequestId requestor nonce)
       (FingerprintSummary_new {| key0 := key0; key1 := key1 |}
          (list_to_set commit_fps) (list_to_set fragment_fps)) subscribe)).

Definition decode_sync_diff : reader SyncDiff :=
  let! commit_count := read_u16 in
  let! fragment_count := read_u16 in
  let! requested_commit_count := read_u16 in
  let! requested_fragment_count := read_u16 in
  let! missing_commits := read_n read_signed_blob (N.to_nat commit_count) in
  let! missing_fragments := read_n read_signed_blob (N.to_nat fragment_count) in
  let! commit_fingerprints := read_n read_u64 (N.to_nat requested_commit_count) in
  let! fragment_fingerprints := read_n read_u64 (N.to_nat requested_fragment_count) in
  reader_ret (MkSyncDiff missing_commits missing_fragments
                (MkRequestedData commit_fingerprints fragment_fingerprints)).

Definition decode_sync_result (result_tag : byte) : reader SyncResult :=
  match result_tag with
  | x00 => let! diff := decode_sync_diff in reader_ret (SR_Ok diff)
  | x01 => reader_ret SR_NotFound
  | x02 => reader_ret SR_Unauthorized
  | _ => reader_fail (E_InvalidEnumTag result_tag "SyncResult")
  end.

Definition decode_batch_sync_response : reader SyncMessage :=
  let! requestor := read_array 32 in
  let! nonce := read_u64 in
  let! id := read_array 32 in
  let! result_tag := read_u8 in
  let! result := decode_sync_result result_tag in
  let! responder_heads := decode_remote_heads in
  reader_ret (SM_BatchSyncResponse
    (MkBatchSyncResponse (MkRequestId requestor nonce) id result responder_heads)).

Definition decode_remove_subscriptions : reader SyncMessage :=
  let! count := read_u16 in
  let! ids := read_n (read_array 32) (N.to_nat count) in
  reader_ret (SM_RemoveSubscriptions ids).

Definition decode_heads_update : reader SyncMessage :=
  let! id := read_array 32 in
  let! heads := decode_remote_heads in
  reader_ret (SM_HeadsUpdate id heads).

Definition decode_data_request_rejected : reader SyncMessage :=
  let! id := read_array 32 in
  reader_ret (SM_DataRequestRejected id).

(** The two matches on the tag: the least payload size, the name and the decoder. *)
Definition variant_of (tag : byte) : option (N * string * reader SyncMessage) :=
  match tag with
  | x00 => Some (min_sizes.LOOSE_COMMIT, "LooseCommit"%string, decode_loose_commit)
  | x01 => Some (min_sizes.FRAGMENT, "Fragment"%string, decode_fragment)
  | x04 => Some (min_sizes.BATCH_SYNC_REQUEST, "BatchSyncRequest"%string, decode_batch_sync_request)
  | x05 => Some (min_sizes.BATCH_SYNC_RESPONSE, "BatchSyncResponse"%string, decode_batch_sync_response)
  | x06 => Some (min_sizes.REMOVE_SUBSCRIPTIONS, "RemoveSubscriptions"%string, decode_remove_subscriptions)
  | x07 => Some (min_sizes.DATA_REQUEST_REJECTED, "DataRequestRejected"%string, decode_data_request_rejected)
  | x08 => Some (min_sizes.HEADS_UPDATE, "HeadsUpdate"%string, decode_heads_update)
  | _ => None
  end.

(** [decode_message] *)
Definition decode_message (bytes : list byte) : result DecodeError SyncMessage :=
  let? _ := guard_err (len bytes <? ENVELOPE_HEADER_SIZE)
              (E_MessageTooShort "Message envelope" ENVELOPE_HEADER_SIZE (len bytes)) in
  let? schema := ok_or (get_range bytes 0 4 ≫= array_of_list 4)
                   (E_MessageTooShort "Message schema" 4 (len bytes)) in
  let? _ := guard_err (negb (bool_decide (schema = MESSAGE_SCHEMA)))
              (E_InvalidSchema MESSAGE_SCHEMA schema) in
  let? total := ok_or (get_range bytes 4 8)
                  (E_MessageTooShort "Message total_size" 8 (len bytes)) in
  let total_size := from_be_bytes total in
  let? _ := guard_err (negb (len bytes =? total_size))
              (E_SizeMismatch total_size (len bytes)) in
  let? tag := ok_or (bytes !! 8%nat) (E_MessageTooShort "Message tag" 9 (len bytes)) in
  let? payload := ok_or (get_from bytes ENVELOPE_HEADER_SIZE)
                    (E_MessageTooShort "Message payload" ENVELOPE_HEADER_SIZE (len bytes)) in
  match variant_of tag with
  | None => Err (E_InvalidEnumTag tag "Message")
  | Some (min_payload_size, name, decoder) =>
      let? _ := guard_err (len payload <? min_payload_size)
                  (E_MessageTooShort name (ENVELOPE_HEADER_SIZE + min_payload_size) (len bytes)) in
      let? (msg, _) := decoder payload 0 in
      Ok msg
  end.
End decoding.

(** ** What the format can carry *)

Section ok.
Context `{Ed25519, Bijou64}.

Definition heads_ok (h : RemoteHeads) : Prop :=
  rh_counter h <= u64_max /\ len (rh_heads h) <= u32_max.

Definition fingerprints_ok (l : list Fingerprint) : Prop :=
  len l <= u16_max /\ Forall (fun fp => fp <= u64_max) l.

Definition commit_ok (x : Signed LooseCommit * Blob) : Prop :=
  (exists c, signed_wf (encodable := LooseCommitCodec.encodable) x.1 c) /\ len x.2 <= u64_max.

Definition fragment_ok (x : Signed Fragment * Blob) : Prop :=
  (exists f, signed_wf (encodable := FragmentCodec.encodable) x.1 f) /\ len x.2 <= u64_max.

Definition diff_ok (d : SyncDiff) : Prop :=
  len (sd_missing_commits d) <= u16_max /\ Forall commit_ok (sd_missing_commits d) /\
  len (sd_missing_fragments d) <= u16_max /\ Forall fragment_ok (sd_missing_fragments d) /\
  fingerprints_ok (rd_commit_fingerprints (sd_requesting d)) /\
  fingerprints_ok (rd_fragment_fingerprints (sd_requesting d)).

Definition request_ok (r : BatchSyncRequest) : Prop :=
  let s := bsq_fingerprint_summary r in
  ri_nonce (bsq_req_id r) <= u64_max /\
  key0 (fps_seed s) <= u64_max /\ key1 (fps_seed s) <= u64_max /\
  fingerprints_ok (btree_iter (commit_fingerprints s)) /\
  fingerprints_ok (btree_iter (fragment_fingerprints s)).

Definition content_ok (m : SyncMessage) : Prop :=
  match m with
  | SM_LooseCommit _ commit blob heads => commit_ok (commit, blob) /\ heads_ok heads
  | SM_Fragment _ fragment blob heads => fragment_ok (fragment, blob) /\ heads_ok heads
  | SM_BatchSyncRequest req => request_ok req
  | SM_BatchSyncResponse resp =>
      ri_nonce (bsr_req_id resp) <= u64_max /\ heads_ok (bsr_responder_heads resp) /\
      match bsr_result resp with SR_Ok d => diff_ok d | _ => True end
  | SM_RemoveSubscriptions ids => len ids <= u16_max
  | SM_DataRequestRejected _ => True
  | SM_HeadsUpdate _ heads => heads_ok heads
  end.

Definition message_ok (m : SyncMessage) : Prop :=
  content_ok m /\ message_encoded_size m <= u32_max.
End ok.

(** ** The wire form *)

Lemma foldl_push {A} (f : A -> list byte) (l : list A) (buf : list byte) :
  foldl (fun buf x => buf ++ f x) buf l = buf ++ concat (f <$> l).
Proof.
  revert buf. induction l as [|x l IH]; intros buf; simpl; [by rewrite app_nil_r|].
  by rewrite IH, <- app_assoc.
Qed.

Lemma len_concat {A} (f : A -> list byte) (size : A -> N) (l : list A) :
  (forall x, x ∈ l -> len (f x) = size x) -> len (concat (f <$> l)) = sum_sizes size l.
Proof.
  induction l as [|x l IH]; intros Hf; [done|]. csimpl.
  rewrite len_app, Hf by constructor. rewrite IH; [done|]. intros y Hy. apply Hf. by constructor.
Qed.

Lemma sum_sizes_const {A} n (l : list A) : sum_sizes (fun _ => n) l = len l * n.
Proof. induction l as [|x l IH]; [done|]. simpl. rewrite IH, len_cons. lia. Qed.

Section wire.
Context `{Ed25519, Bijou64}.

Definition heads_wire (h : RemoteHeads) : list byte :=
  to_be_bytes 8 (rh_counter h) ++ to_be_bytes 4 (as_u32 (len (rh_heads h)))
  ++ concat (arr_list <$> rh_heads h).

Definition signed_blob_wire {T} (x : Signed T * Blob) : list byte :=
  sg_bytes x.1 ++ bijou_encode (len x.2) ++ x.2.

Definition fingerprints_wire (l : list Fingerprint) : list byte := concat (to_be_bytes 8 <$> l).

Definition diff_wire (d : SyncDiff) : list byte :=
  to_be_bytes 2 (as_u16 (len (sd_missing_commits d)))
  ++ to_be_bytes 2 (as_u16 (len (sd_missing_fragments d)))
  ++ to_be_bytes 2 (as_u16 (len (rd_commit_fingerprints (sd_requesting d))))
  ++ to_be_bytes 2 (as_u16 (len (rd_fragment_fingerprints (sd_requesting d))))
  ++ concat (signed_blob_wire <$> sd_missing_commits d)
  ++ concat (signed_blob_wire <$> sd_missing_fragments d)
  ++ fingerprints_wire (rd_commit_fingerprints (sd_requesting d))
  ++ fingerprints_wire (rd_fragment_fingerprints (sd_requesting d)).

Definition result_wire (r : SyncResult) : list byte :=
  match r with
  | SR_Ok d => [result_tags.OK] ++ diff_wire d
  | SR_NotFound => [result_tags.NOT_FOUND]
  | SR_Unauthorized => [result_tags.UNAUTHORIZED]
  end.

Definition request_wire (r : BatchSyncRequest) : list byte :=
  let s := bsq_fingerprint_summary r in
  arr_list (bsq_id r) ++ arr_list (ri_requestor (bsq_req_id r))
  ++ to_be_bytes 8 (ri_nonce (bsq_req_id r)) ++ [if bsq_subscribe r then x01 else x00]
  ++ to_be_bytes 8 (key0 (fps_seed s)) ++ to_be_bytes 8 (key1 (fps_seed s))
  ++ to_be_bytes 2 (as_u16 (N.of_nat (size (commit_fingerprints s))))
  ++ to_be_bytes 2 (as_u16 (N.of_nat (size (fragment_fingerprints s))))
  ++ fingerprints_wire (btree_iter (commit_fingerprints s))
  ++ fingerprints_wire (btree_iter (fragment_fingerprints s)).

Definition payload_wire (m : SyncMessage) : list byte :=
  match m with
  | SM_LooseCommit id commit blob heads =>
      arr_list id ++ heads_wire heads ++ signed_blob_wire (commit, blob)
  | SM_Fragment id fragment blob heads =>
      arr_list id ++ heads_wire heads ++ signed_blob_wire (fragment, blob)
  | SM_BatchSyncRequest req => request_wire req
  | SM_BatchSyncResponse resp =>
      arr_list (ri_requestor (bsr_req_id resp)) ++ to_be_bytes 8 (ri_nonce (bsr_req_id resp))
      ++ arr_list (bsr_id resp) ++ result_wire (bsr_result resp)
      ++ heads_wire (bsr_responder_heads resp)
  | SM_RemoveSubscriptions ids =>
      to_be_bytes 2 (as_u16 (len ids)) ++ concat (arr_list <$> ids)
  | SM_DataRequestRejected id => arr_list id
  | SM_HeadsUpdate id heads => arr_list id ++ heads_wire heads
  end.

Definition tag_of (m : SyncMessage) : byte :=
  match m with
  | SM_LooseCommit _ _ _ _ => tags.LOOSE_COMMIT
  | SM_Fragment _ _ _ _ => tags.FRAGMENT
  | SM_BatchSyncRequest _ => tags.BATCH_SYNC_REQUEST
  | SM_BatchSyncResponse _ => tags.BATCH_SYNC_RESPONSE
  | SM_RemoveSubscriptions _ => tags.REMOVE_SUBSCRIPTIONS
  | SM_DataRequestRejected _ => tags.DATA_REQUEST_REJECTED
  | SM_HeadsUpdate _ _ => tags.HEADS_UPDATE
  end.

Lemma encode_remote_heads_wire buf h : encode_remote_heads buf h = buf ++ heads_wire h.
Proof. unfold encode_remote_heads, heads_wire. by rewrite foldl_push, <- !app_assoc. Qed.

Lemma push_fingerprints_wire buf l : push_fingerprints buf l = buf ++ fingerprints_wire l.
Proof. apply foldl_push. Qed.

Lemma push_signed_blobs_wire {T} buf (l : list (Signed T * Blob)) :
  push_signed_blobs buf l = buf ++ concat (signed_blob_wire <$> l).
Proof.
  unfold push_signed_blobs. revert buf.
  induction l as [|[s x] l IH]; intros buf; csimpl; [by rewrite app_nil_r|].
  rewrite IH. unfold signed_blob_wire at 2. simpl. by rewrite <- !app_assoc.
Qed.

Lemma encode_sync_diff_wire buf d : encode_sync_diff buf d = buf ++ diff_wire d.
Proof.
  unfold encode_sync_diff, diff_wire.
  by rewrite !push_fingerprints_wire, !push_signed_blobs_wire, <- !app_assoc.
Qed.

Lemma encode_message_wire m :
  encode_message m =
    arr_list MESSAGE_SCHEMA ++ to_be_bytes 4 (as_u32 (message_encoded_size m))
    ++ [tag_of m] ++ payload_wire m.
Proof.
  unfold encode_message, message_encoded_size. destruct m as [| |req|resp| | |]; simpl payload_wire;
    unfold encode_batch_sync_request, request_wire, encode_batch_sync_response,
      encode_remove_subscriptions, encode_data_request_rejected, signed_blob_wire;
    rewrite ?encode_remote_heads_wire, ?push_fingerprints_wire, ?foldl_push;
    try (by rewrite <- !app_assoc).
  destruct (bsr_result resp); unfold result_wire; rewrite ?encode_sync_diff_wire;
    by rewrite <- !app_assoc.
Qed.
End wire.

Section roundtrip.
Context `{Ed25519, Bijou64Laws}.

Lemma as_u16_small n : n <= u16_max -> as_u16 n = n.
Proof. intros Hn. apply N.mod_small. unfold u16_max in Hn. lia. Qed.

Lemma as_u32_small n : n <= u32_max -> as_u32 n = n.
Proof. intros Hn. apply N.mod_small. unfold u32_max in Hn. lia. Qed.

Lemma to_nat_len {A} (l : list A) : N.to_nat (len l) = length l.
Proof. apply Nat2N.id. Qed.

Lemma reads_heads h : heads_ok h -> reads decode_remote_heads h (heads_wire h).
Proof.
  intros [Hc Hl]. unfold decode_remote_heads, heads_wire. rewrite as_u32_small by done.
  eapply reads_bind; [by apply reads_u64|]. eapply reads_bind; [by apply reads_u32|].
  rewrite to_nat_len. destruct h as [c hs].
  eapply reads_map with (f := MkRemoteHeads c), reads_n. intros x _. apply reads_array.
Qed.

Lemma reads_fingerprints l :
  fingerprints_ok l -> reads (read_n read_u64 (N.to_nat (len l))) l (fingerprints_wire l).
Proof.
  intros [_ Hf]. rewrite to_nat_len. apply reads_n. intros x Hx.
  apply reads_u64. rewrite Forall_forall in Hf. auto.
Qed.

Section signed.
Context {T : Type} `{!Schema T, !EncodeFields T, !DecodeFields T}.
Context {encodable : T -> Prop} `{!SignedLaws T encodable}.

Lemma reads_signed (s : Signed T) p :
  signed_wf (encodable := encodable) s p -> reads read_signed s (sg_bytes s).
Proof.
  intros Hw buf off rest _ Hs. unfold read_signed. rewrite (get_from_suffix _ _ _ Hs).
  cbn [ok_or rbind]. by rewrite (try_decode_prefix_at _ _ _ Hw).
Qed.

Lemma reads_signed_blob (s : Signed T) p blob :
  signed_wf (encodable := encodable) s p -> len blob <= u64_max ->
  reads read_signed_blob (s, blob) (signed_blob_wire (s, blob)).
Proof.
  intros Hw Hb. unfold read_signed_blob, signed_blob_wire.
  eapply reads_bind; [by eapply reads_signed|].
  eapply reads_bind; [by apply reads_bijou64_as_usize|].
  eapply reads_map with (f := fun b => (s, b)), reads_slice.
Qed.
End signed.

Lemma reads_commits l :
  Forall commit_ok l ->
  reads (read_n read_signed_blob (N.to_nat (len l))) l (concat (signed_blob_wire <$> l)).
Proof.
  intros Hf. rewrite to_nat_len. apply reads_n. intros [s b] Hx.
  rewrite Forall_forall in Hf. destruct (Hf _ Hx) as [[c Hc] Hb]. by eapply reads_signed_blob.
Qed.

Lemma reads_fragments l :
  Forall fragment_ok l ->
  reads (read_n read_signed_blob (N.to_nat (len l))) l (concat (signed_blob_wire <$> l)).
Proof.
  intros Hf. rewrite to_nat_len. apply reads_n. intros [s b] Hx.
  rewrite Forall_forall in Hf. destruct (Hf _ Hx) as [[c Hc] Hb]. by eapply reads_signed_blob.
Qed.

Lemma reads_diff d : diff_ok d -> reads decode_sync_diff d (diff_wire d).
Proof.
  intros (Hc & Hcs & Hf & Hfs & Hr & Hrs). unfold decode_sync_diff, diff_wire.
  rewrite !as_u16_small by (apply Hc || apply Hf || apply Hr || apply Hrs).
  do 4 (eapply reads_bind; [by apply reads_u16; apply Hc || apply Hf || apply Hr || apply Hrs|]).
  eapply reads_bind; [by apply reads_commits|].
  eapply reads_bind; [by apply reads_fragments|].
  eapply reads_bind; [by apply reads_fingerprints|].
  destruct d as [cs fs [rc rf]].
  eapply reads_map with (f := fun l => MkSyncDiff cs fs (MkRequestedData rc l)).
  by apply reads_fingerprints.
Qed.

(** The tag byte and the result behind it. *)
Lemma reads_result r (k : SyncResult -> reader SyncMessage) m w :
  match r with SR_Ok d => diff_ok d | _ => True end ->
  reads (k r) m w ->
  reads (let! tag := read_u8 in let! result := decode_sync_result tag in k result) m
    (result_wire r ++ w).
Proof.
  intros Hr Hk. destruct r as [d| |]; unfold result_wire.
  - rewrite <- app_assoc. eapply reads_bind; [apply reads_u8|].
    eapply reads_bind; [|done]. by eapply reads_map with (f := SR_Ok), reads_diff.
  - eapply reads_bind; [apply reads_u8|]. rewrite <- (app_nil_l w).
    eapply reads_bind; [apply reads_ret|done].
  - eapply reads_bind; [apply reads_u8|]. rewrite <- (app_nil_l w).
    eapply reads_bind; [apply reads_ret|done].
Qed.

Lemma reads_request r :
  request_ok r -> reads decode_batch_sync_request (SM_BatchSyncRequest r) (request_wire r).
Proof.
  destruct r as [id [rq nonce] [[k0 k1] cs fs] sub]. unfold request_ok, request_wire.
  cbn [bsq_id bsq_req_id ri_requestor ri_nonce bsq_fingerprint_summary bsq_subscribe
    fps_seed key0 key1 commit_fingerprints fragment_fingerprints].
  intros (Hn & Hk0 & Hk1 & Hc & Hf).
  rewrite <- !length_btree_iter. fold (len (btree_iter cs)) (len (btree_iter fs)).
  rewrite !as_u16_small by (apply Hc || apply Hf). unfold decode_batch_sync_request.
  eapply reads_bind; [apply reads_array|]. eapply reads_bind; [apply reads_array|].
  eapply reads_bind; [by apply reads_u64|]. eapply reads_bind; [apply reads_u8|].
  assert (Hsub : reads (decode_subscribe (if sub then x01 else x00)) sub [])
    by (destruct sub; apply reads_ret).
  rewrite <- (app_nil_l (to_be_bytes 8 k0 ++ _)). eapply reads_bind; [exact Hsub|].
  do 2 (eapply reads_bind; [by apply reads_u64|]).
  do 2 (eapply reads_bind; [by apply reads_u16; apply Hc || apply Hf|]).
  eapply reads_bind; [by apply reads_fingerprints|].
  rewrite list_to_set_btree_iter.
  pose proof (reads_map _ (fun l => SM_BatchSyncRequest (MkBatchSyncRequest id
    (MkRequestId rq nonce) (FingerprintSummary_new {| key0 := k0; key1 := k1 |} cs (list_to_set l))
    sub)) _ _ (reads_fingerprints _ Hf)) as Hm. cbv beta in Hm.
  by rewrite list_to_set_btree_iter in Hm.
Qed.

(** ** Sizes *)

Lemma len_heads_wire h : len (heads_wire h) = remote_heads_size h.
Proof.
  unfold heads_wire, remote_heads_size. rewrite !len_app, !len_to_be_bytes.
  rewrite (len_concat _ (fun _ => 32)) by (intros x _; exact (len_array x)).
  rewrite sum_sizes_const. lia.
Qed.

Lemma len_fingerprints_wire l : len (fingerprints_wire l) = len l * 8.
Proof.
  unfold fingerprints_wire.
  by rewrite (len_concat _ (fun _ => 8)), sum_sizes_const by (intros x _; exact (len_to_be_bytes 8 x)).
Qed.

Lemma len_signed_blob_wire {T} (x : Signed T * Blob) :
  len x.2 <= u64_max -> len (signed_blob_wire x) = signed_blob_size x.
Proof.
  intros Hx. unfold signed_blob_wire, signed_blob_size. rewrite !len_app, bijou_len by done. lia.
Qed.

Lemma len_diff_wire d : diff_ok d -> len (diff_wire d) = sync_diff_size d.
Proof.
  intros (_ & Hcs & _ & Hfs & _). rewrite Forall_forall in Hcs. rewrite Forall_forall in Hfs.
  unfold diff_wire, sync_diff_size. rewrite !len_app, !len_to_be_bytes, !len_fingerprints_wire.
  rewrite !(len_concat signed_blob_wire signed_blob_size).
  - lia.
  - intros x Hx. apply len_signed_blob_wire. by apply Hfs.
  - intros x Hx. apply len_signed_blob_wire. by apply Hcs.
Qed.

Lemma len_result_wire r :
  match r with SR_Ok d => diff_ok d | _ => True end ->
  len (result_wire r) = 1 + sync_result_size r.
Proof.
  destruct r as [d| |]; intros Hr; [|done..]. unfold result_wire, sync_result_size.
  by rewrite len_app, len_diff_wire.
Qed.

Lemma len_request_wire r : len (request_wire r) = payload_size (SM_BatchSyncRequest r).
Proof.
  unfold request_wire, payload_size. rewrite !len_app, !len_array, !len_to_be_bytes.
  rewrite !len_fingerprints_wire. unfold len. rewrite !length_btree_iter. simpl length. lia.
Qed.

Lemma len_payload_wire m : content_ok m -> len (payload_wire m) = payload_size m.
Proof.
  destruct m as [id c b h|id f b h|req|resp|ids|id|id h]; intros Hm.
  - destruct Hm as [[_ Hb] _]. unfold payload_wire, payload_size.
    rewrite !len_app, len_array, len_heads_wire, len_signed_blob_wire by done.
    unfold signed_blob_size. simpl. lia.
  - destruct Hm as [[_ Hb] _]. unfold payload_wire, payload_size.
    rewrite !len_app, len_array, len_heads_wire, len_signed_blob_wire by done.
    unfold signed_blob_size. simpl. lia.
  - apply len_request_wire.
  - destruct Hm as (_ & _ & Hr). unfold payload_wire, payload_size.
    rewrite !len_app, !len_array, len_to_be_bytes, len_heads_wire, len_result_wire by done. lia.
  - unfold payload_wire, payload_size. rewrite len_app, len_to_be_bytes.
    rewrite (len_concat _ (fun _ => 32)), sum_sizes_const by (intros x _; exact (len_array x)). lia.
  - exact (len_array id).
  - unfold payload_wire, payload_size. rewrite len_app, len_array, len_heads_wire. lia.
Qed.

Lemma commit_wf_size (s : Signed LooseCommit) c :
  signed_wf (encodable := LooseCommitCodec.encodable) s c -> 198 <= len (sg_bytes s).
Proof.
  intros Hw. rewrite (wf_bytes _ _ Hw), len_app, len_array.
  rewrite (len_signed_message (sg_issuer s) c (wf_encodable _ _ Hw)).
  exact (signed_min c (wf_encodable _ _ Hw)).
Qed.

Lemma fragment_wf_size (s : Signed Fragment) f :
  signed_wf (encodable := FragmentCodec.encodable) s f -> 200 <= len (sg_bytes s).
Proof.
  intros Hw. rewrite (wf_bytes _ _ Hw), len_app, len_array.
  rewrite (len_signed_message (sg_issuer s) f (wf_encodable _ _ Hw)).
  exact (signed_min f (wf_encodable _ _ Hw)).
Qed.

(** Every variant has a decoder, a least size that it reaches, and reads back. *)
Lemma variant_roundtrip m :
  content_ok m ->
  exists min name dec, variant_of (tag_of m) = Some (min, name, dec) /\
    min <= payload_size m /\ reads dec m (payload_wire m).
Proof.
  destruct m as [id c b h|id f b h|req|resp|ids|id|id h]; intros Hm; eexists _, _, _;
    (split; [done|]).
  - destruct Hm as [[[p Hp] Hb] Hh]. pose proof (commit_wf_size _ _ Hp).
    simpl in Hb. pose proof (bijou_len_bounds _ Hb). split.
    { unfold payload_size, min_sizes.LOOSE_COMMIT, remote_heads_size. simpl in *. lia. }
    unfold decode_loose_commit, payload_wire. rewrite <- (app_nil_r (signed_blob_wire _)).
    eapply reads_bind; [apply reads_array|]. eapply reads_bind; [by apply reads_heads|].
    eapply reads_bind; [by eapply reads_signed_blob|apply reads_ret].
  - destruct Hm as [[[p Hp] Hb] Hh]. pose proof (fragment_wf_size _ _ Hp).
    simpl in Hb. pose proof (bijou_len_bounds _ Hb). split.
    { unfold payload_size, min_sizes.FRAGMENT, remote_heads_size. simpl in *. lia. }
    unfold decode_fragment, payload_wire. rewrite <- (app_nil_r (signed_blob_wire _)).
    eapply reads_bind; [apply reads_array|]. eapply reads_bind; [by apply reads_heads|].
    eapply reads_bind; [by eapply reads_signed_blob|apply reads_ret].
  - split; [unfold payload_size, min_sizes.BATCH_SYNC_REQUEST; lia|by apply reads_request].
  - destruct resp as [[rq nonce] rid res hs]. destruct Hm as (Hn & Hh & Hr). split.
    { unfold payload_size, min_sizes.BATCH_SYNC_RESPONSE, remote_heads_size. lia. }
    unfold decode_batch_sync_response, payload_wire.
    cbn [bsr_req_id ri_requestor ri_nonce bsr_id bsr_result bsr_responder_heads] in *.
    do 2 (eapply reads_bind; [apply reads_array || by apply reads_u64|]).
    eapply reads_bind; [apply reads_array|]. apply reads_result; [done|].
    by eapply reads_map with (f := fun h => SM_BatchSyncResponse
      (MkBatchSyncResponse (MkRequestId rq nonce) rid res h)), reads_heads.
  - split; [unfold payload_size, min_sizes.REMOVE_SUBSCRIPTIONS; lia|].
    unfold decode_remove_subscriptions, payload_wire. simpl in Hm.
    rewrite as_u16_small by done. eapply reads_bind; [by apply reads_u16|].
    rewrite to_nat_len. eapply reads_map with (f := SM_RemoveSubscriptions), reads_n.
    intros x _. apply reads_array.
  - split; [done|]. eapply reads_map with (f := SM_DataRequestRejected), reads_array.
  - split; [unfold payload_size, min_sizes.HEADS_UPDATE, remote_heads_size; lia|].
    unfold decode_heads_update, payload_wire. eapply reads_bind; [apply reads_array|].
    by eapply reads_map with (f := SM_HeadsUpdate id), reads_heads.
Qed.

(** Decoding the payload of a message with further bytes behind it, which the
    decoder ignores. *)
Lemma decode_message_trailing m extra :
  content_ok m -> message_encoded_size m + len extra <= u32_max ->
  decode_message (arr_list MESSAGE_SCHEMA
    ++ to_be_bytes 4 (message_encoded_size m + len extra)
    ++ [tag_of m] ++ payload_wire m ++ extra) = Ok m.
Proof.
  intros Hc Hsz. pose proof (len_payload_wire m Hc) as Hl.
  destruct (variant_roundtrip m Hc) as (min & name & dec & Hv & Hmin & Hd).
  set (buf := _ ++ _).
  assert (Hs : suffix_at buf 0 buf) by apply suffix_at_start. unfold buf at 2 in Hs.
  assert (Hlen : len buf = message_encoded_size m + len extra).
  { unfold buf, message_encoded_size, ENVELOPE_HEADER_SIZE.
    rewrite !len_app, len_array, len_to_be_bytes, len_cons, len_nil, Hl. simpl. lia. }
  unfold message_encoded_size, ENVELOPE_HEADER_SIZE in *.
  unfold decode_message, ENVELOPE_HEADER_SIZE.
  rewrite (proj2 (N.ltb_ge _ _)) by lia. cbn [guard_err rbind].
  rewrite (get_array_at _ _ 0 4 _ Hs : get_range _ 0 4 ≫= _ = _). cbn [ok_or rbind].
  rewrite bool_decide_true by done. cbn [guard_err negb rbind].
  suffix_step Hs 4.
  rewrite (get_range_suffix _ _ _ _ 4 Hs (len_to_be_bytes 4 _) : get_range _ 4 8 = _).
  cbn [ok_or rbind]. rewrite from_to_be_bytes by (unfold u32_max in *; simpl; lia).
  rewrite Hlen, N.eqb_refl. cbn [guard_err negb rbind]. suffix_step Hs 4.
  rewrite (lookup_at _ _ _ _ Hs : _ !! 8%nat = _). cbn [ok_or rbind]. suffix_step Hs 1.
  rewrite (get_from_suffix _ _ _ Hs : get_from _ (4 + 4 + 1) = _). cbn [ok_or rbind].
  rewrite Hv, len_app, Hl.
  rewrite (proj2 (N.ltb_ge _ _)) by lia. cbn [guard_err rbind].
  rewrite (Hd _ 0 extra); [done| |apply suffix_at_start].
  rewrite len_app. unfold u32_max, u64_max in *. lia.
Qed.

Lemma decode_message_at m : message_ok m -> decode_message (encode_message m) = Ok m.
Proof.
  intros [Hc Hsz]. rewrite encode_message_wire, as_u32_small by done.
  pose proof (decode_message_trailing m [] Hc) as Hd.
  rewrite len_nil, N.add_0_r, app_nil_r in Hd. auto.
Qed.
End roundtrip.

Section keeping.
Context `{Ed25519, Bijou64Laws}.

(** ** What a decoded message is *)

(** A counted list of fixed-size items. *)
Lemma keeps_arrays count :
  keeps (read_n (read_array 32) (N.to_nat count))
    (fun l n => len l = count /\ len l * 32 <= n).
Proof.
  eapply keeps_weaken.
  { apply (keeps_n (read_array 32) (fun _ => True) (fun _ => 32)).
    eapply keeps_weaken; [apply keeps_array|]. by intros x n ->. }
  intros l n (Hl & _ & Hn). change (sum_sizes (fun _ => 32) l <= n) in Hn.
  rewrite sum_sizes_const in Hn. split; [unfold len; lia|done].
Qed.

Lemma keeps_fingerprints count :
  count <= u16_max ->
  keeps (read_n read_u64 (N.to_nat count)) (fun l n => fingerprints_ok l /\ len l * 8 <= n).
Proof.
  intros Hc. eapply keeps_weaken.
  { apply (keeps_n read_u64 (fun v => v <= u64_max) (fun _ => 8)).
    eapply keeps_weaken; [apply keeps_u64|]. intros x n [Hx ->]. done. }
  intros l n (Hl & Hf & Hn). change (sum_sizes (fun _ => 8) l <= n) in Hn.
  rewrite sum_sizes_const in Hn. split; [|done]. split; [unfold len; lia|done].
Qed.

Lemma keeps_heads :
  keeps decode_remote_heads (fun h n => heads_ok h /\ remote_heads_size h <= n).
Proof.
  unfold decode_remote_heads. eapply keeps_bind; [apply keeps_u64|]. intros c n1 [Hc ->].
  eapply keeps_bind; [apply keeps_u32|]. intros k n2 [Hk ->].
  eapply keeps_bind; [apply keeps_arrays|]. intros l n3 [Hl Hn]. apply keeps_ret.
  unfold heads_ok, remote_heads_size. simpl. rewrite Hl in *. split; [done|]. lia.
Qed.

Section signed.
Context {T : Type} `{!Schema T, !EncodeFields T, !DecodeFields T}.
Context {encodable : T -> Prop} `{!SignedLaws T encodable}.

Lemma keeps_signed_blob :
  keeps (read_signed_blob (T := T)) (fun x n =>
    ((exists p, signed_wf (encodable := encodable) x.1 p) /\ len x.2 <= u64_max) /\
    signed_blob_size x <= n).
Proof.
  unfold read_signed_blob.
  eapply (keeps_bind _ _ (fun s n => (exists p, signed_wf (encodable := encodable) s p) /\
                                     n = len (sg_bytes s))).
  - intros buf off s off' _ Ho Hr. unfold read_signed in Hr.
    apply rbind_ok in Hr as (rest & Hrest & Hr). apply ok_or_ok in Hrest.
    apply rbind_ok in Hr as ([s' n] & Hd & Hr). injection Hr as <- <-.
    destruct (try_decode_prefix_inv (encodable := encodable) _ _ _ Hd)
      as (p & rest' & Hw & -> & ->).
    unfold get_from in Hrest. destruct (off <=? len buf); [|done].
    injection Hrest as Hdrop. apply (f_equal len) in Hdrop. rewrite len_app in Hdrop.
    unfold len in Hdrop. rewrite length_drop in Hdrop.
    exists (len (sg_bytes s')). split; [done|]. unfold len in *. split; [lia|]. eauto.
  - intros s n1 [Hw ->]. eapply keeps_bind; [apply keeps_bijou64_as_usize|].
    intros k n2 [Hk ->]. eapply keeps_bind; [by apply keeps_slice|].
    intros b n3 [<- ->]. apply keeps_ret. split; [done|].
    unfold signed_blob_size. simpl. lia.
Qed.

Lemma keeps_signed_blobs count :
  keeps (read_n (read_signed_blob (T := T)) (N.to_nat count)) (fun l n =>
    len l = count /\ sum_sizes signed_blob_size l <= n /\
    Forall (fun x => (exists p, signed_wf (encodable := encodable) x.1 p) /\ len x.2 <= u64_max) l).
Proof.
  eapply keeps_weaken; [apply keeps_n, keeps_signed_blob|].
  intros l n (Hl & Hf & Hn). split; [unfold len; lia|]. split; [exact Hn|exact Hf].
Qed.
End signed.

Lemma keeps_diff : keeps decode_sync_diff (fun d n => diff_ok d /\ sync_diff_size d <= n).
Proof.
  unfold decode_sync_diff.
  eapply keeps_bind; [apply keeps_u16|]. intros c1 n1 [Hc1 ->].
  eapply keeps_bind; [apply keeps_u16|]. intros c2 n2 [Hc2 ->].
  eapply keeps_bind; [apply keeps_u16|]. intros c3 n3 [Hc3 ->].
  eapply keeps_bind; [apply keeps_u16|]. intros c4 n4 [Hc4 ->].
  eapply keeps_bind; [apply (keeps_signed_blobs (encodable := LooseCommitCodec.encodable))|].
  intros l1 n5 (<- & Hs1 & Hf1).
  eapply keeps_bind; [apply (keeps_signed_blobs (encodable := FragmentCodec.encodable))|].
  intros l2 n6 (<- & Hs2 & Hf2).
  eapply keeps_bind; [by apply keeps_fingerprints|]. intros l3 n7 [Hl3 Hn7].
  eapply keeps_bind; [by apply keeps_fingerprints|]. intros l4 n8 [Hl4 Hn8].
  apply keeps_ret. split; [done|]. unfold sync_diff_size. simpl. lia.
Qed.

Lemma keeps_result tag :
  keeps (decode_sync_result tag) (fun r n =>
    match r with SR_Ok d => diff_ok d | _ => True end /\ sync_result_size r <= n).
Proof.
  unfold decode_sync_result.
  destruct tag; try apply keeps_fail; try (by apply keeps_ret).
  eapply keeps_bind; [apply keeps_diff|]. intros d n [Hd Hn]. apply keeps_ret. simpl.
  split; [done|]. lia.
Qed.

Lemma fingerprint_set_ok (l : list Fingerprint) :
  fingerprints_ok l ->
  fingerprints_ok (btree_iter (list_to_set l : gset Fingerprint)) /\
  N.of_nat (size (list_to_set l : gset Fingerprint)) <= len l.
Proof.
  intros [Hl Hf]. pose proof (size_list_to_set_le l) as Hs. split; [split|].
  - unfold len in *. rewrite length_btree_iter. lia.
  - rewrite Forall_forall in Hf |- *. intros x Hx%elem_of_btree_iter%elem_of_list_to_set. auto.
  - unfold len. lia.
Qed.

Lemma keeps_request :
  keeps decode_batch_sync_request (fun m n => content_ok m /\ payload_size m <= n).
Proof.
  unfold decode_batch_sync_request.
  eapply keeps_bind; [apply keeps_array|]. intros id n1 ->.
  eapply keeps_bind; [apply keeps_array|]. intros rq n2 ->.
  eapply keeps_bind; [apply keeps_u64|]. intros nonce n3 [Hn ->].
  eapply keeps_bind; [apply keeps_u8|]. intros sb n4 ->.
  eapply (keeps_bind _ _ (fun _ _ => True)).
  { unfold decode_subscribe. destruct sb; try apply keeps_fail; by apply keeps_ret. }
  intros sub n5 _.
  eapply keeps_bind; [apply keeps_u64|]. intros k0 n6 [Hk0 ->].
  eapply keeps_bind; [apply keeps_u64|]. intros k1 n7 [Hk1 ->].
  eapply keeps_bind; [apply keeps_u16|]. intros c n8 [Hc ->].
  eapply keeps_bind; [apply keeps_u16|]. intros f n9 [Hf ->].
  eapply keeps_bind; [by apply keeps_fingerprints|]. intros cs n10 [Hcs Hn10].
  eapply keeps_bind; [by apply keeps_fingerprints|]. intros fs n11 [Hfs Hn11].
  destruct (fingerprint_set_ok cs Hcs) as [Hcs' Hsc].
  destruct (fingerprint_set_ok fs Hfs) as [Hfs' Hsf].
  apply keeps_ret. split; [done|].
  cbn [payload_size bsq_fingerprint_summary commit_fingerprints fragment_fingerprints]. lia.
Qed.

Lemma keeps_variant tag min name dec :
  variant_of tag = Some (min, name, dec) ->
  keeps dec (fun m n => content_ok m /\ payload_size m <= n).
Proof.
  destruct tag; try discriminate; intros [= <- <- <-].
  - unfold decode_loose_commit. eapply keeps_bind; [apply keeps_array|]. intros id n1 ->.
    eapply keeps_bind; [apply keeps_heads|]. intros h n2 [Hh Hn2].
    eapply keeps_bind; [apply (keeps_signed_blob (encodable := LooseCommitCodec.encodable))|].
    intros [c b] n3 [Hc Hn3]. apply keeps_ret. split; [done|].
    unfold payload_size, signed_blob_size in *. simpl in *. lia.
  - unfold decode_fragment. eapply keeps_bind; [apply keeps_array|]. intros id n1 ->.
    eapply keeps_bind; [apply keeps_heads|]. intros h n2 [Hh Hn2].
    eapply keeps_bind; [apply (keeps_signed_blob (encodable := FragmentCodec.encodable))|].
    intros [c b] n3 [Hc Hn3]. apply keeps_ret. split; [done|].
    unfold payload_size, signed_blob_size in *. simpl in *. lia.
  - apply keeps_request.
  - unfold decode_batch_sync_response. eapply keeps_bind; [apply keeps_array|]. intros rq n1 ->.
    eapply keeps_bind; [apply keeps_u64|]. intros nonce n2 [Hn ->].
    eapply keeps_bind; [apply keeps_array|]. intros id n3 ->.
    eapply keeps_bind; [apply keeps_u8|]. intros tag n4 ->.
    eapply keeps_bind; [apply keeps_result|]. intros r n5 [Hr Hn5].
    eapply keeps_bind; [apply keeps_heads|]. intros h n6 [Hh Hn6].
    apply keeps_ret. split; [done|].
    cbn [payload_size bsr_result bsr_responder_heads]. lia.
  - unfold decode_remove_subscriptions. eapply keeps_bind; [apply keeps_u16|]. intros c n1 [Hc ->].
    eapply keeps_bind; [apply keeps_arrays|]. intros l n2 [Hl Hn2]. apply keeps_ret.
    unfold payload_size. simpl. rewrite Hl in *. split; [done|]. lia.
  - unfold decode_data_request_rejected. eapply keeps_bind; [apply keeps_array|].
    intros id n1 ->. by apply keeps_ret.
  - unfold decode_heads_update. eapply keeps_bind; [apply keeps_array|]. intros id n1 ->.
    eapply keeps_bind; [apply keeps_heads|]. intros h n2 [Hh Hn2]. apply keeps_ret.
    split; [done|]. unfold payload_size. lia.
Qed.

Lemma decode_message_ok bytes m :
  decode_message bytes = Ok m -> message_ok m /\ message_encoded_size m <= len bytes.
Proof.
  unfold decode_message. intros Hd.
  apply rbind_ok in Hd as ([] & Hlen & Hd). apply guard_err_ok, N.ltb_ge in Hlen.
  apply rbind_ok in Hd as (schema & _ & Hd). apply rbind_ok in Hd as ([] & _ & Hd).
  apply rbind_ok in Hd as (total & Ht & Hd). apply ok_or_ok, get_range_Some in Ht as (_ & _ & Ht & _).
  apply rbind_ok in Hd as ([] & Heq & Hd). apply guard_err_ok, negb_false_iff, N.eqb_eq in Heq.
  apply rbind_ok in Hd as (tag & _ & Hd). apply rbind_ok in Hd as (payload & Hp & Hd).
  apply ok_or_ok in Hp. unfold get_from in Hp.
  destruct (ENVELOPE_HEADER_SIZE <=? len bytes); [|done]. injection Hp as Hp.
  apply (f_equal len) in Hp. unfold len in Hp at 1. rewrite length_drop in Hp.
  pose proof (from_be_bytes_bound total) as Hb. rewrite Ht in Hb.
  change (from_be_bytes total < 4294967296) in Hb.
  destruct (variant_of tag) as [[[min name] dec]|] eqn:Hv; [|done].
  apply rbind_ok in Hd as ([] & _ & Hd). apply rbind_ok in Hd as ([m' off] & Hdec & Hd).
  injection Hd as <-.
  assert (len bytes <= u32_max) by (unfold u32_max; lia).
  unfold ENVELOPE_HEADER_SIZE in *. unfold len, u32_max in *.
  destruct (keeps_variant _ _ _ _ Hv payload 0 m' off) as (n & -> & Hle & Hok & Hn);
    [unfold len, u64_max; lia|lia|done|].
  unfold message_ok, message_encoded_size, ENVELOPE_HEADER_SIZE, len, u32_max in *.
  split; [split; [done|lia]|lia].
Qed.
End keeping.

(** ** The claims *)

Section claims.
Context `{Ed25519, Bijou64Laws}.

(** C32: Every message the format can carry survives the wire, and the encoding has
    the announced size: decoding the bytes of a message with at most 65535 items
    in each counted list, well-formed signed payloads and a total size that fits 32
    bits returns the message. *)
Theorem SyncMessage_roundtrip m :
  message_ok m ->
  len (encode_message m) = message_encoded_size m /\ decode_message (encode_message m) = Ok m.
Proof.
  intros Hm. split; [|by apply decode_message_at].
  rewrite encode_message_wire, !len_app, len_array, len_to_be_bytes, len_cons, len_nil.
  rewrite (len_payload_wire m) by apply Hm. unfold message_encoded_size, ENVELOPE_HEADER_SIZE. lia.
Qed.

(** Whatever bytes decode, the message is one the format can carry, its own
    encoding is not longer than those bytes, and it decodes to the same message: a
    message that was received can be stored or forwarded unchanged. No input makes
    a length computation run past the payload. *)
Theorem SyncMessage_decode_stable bytes m :
  decode_message bytes = Ok m ->
  message_ok m /\ message_encoded_size m <= len bytes /\
  decode_message (encode_message m) = Ok m.
Proof.
  intros Hd. destruct (decode_message_ok bytes m Hd) as [Hok Hs].
  split; [done|]. split; [done|]. by apply decode_message_at.
Qed.

(** C40: The fingerprint counts of a sync request are written [as u16]: a request
    whose numbers of commit and fragment fingerprints are multiples of 65536 is
    decoded, without an error, as a request with an empty summary, which asks the
    responder for everything it has. *)
Theorem BatchSyncRequest_counts_truncate req :
  let s := bsq_fingerprint_summary req in
  N.of_nat (size (commit_fingerprints s)) mod 65536 = 0 ->
  N.of_nat (size (fragment_fingerprints s)) mod 65536 = 0 ->
  ri_nonce (bsq_req_id req) <= u64_max ->
  key0 (fps_seed s) <= u64_max -> key1 (fps_seed s) <= u64_max ->
  message_encoded_size (SM_BatchSyncRequest req) <= u32_max ->
  decode_message (encode_message (SM_BatchSyncRequest req)) =
    Ok (SM_BatchSyncRequest (MkBatchSyncRequest (bsq_id req) (bsq_req_id req)
          (FingerprintSummary_new (fps_seed s) ∅ ∅) (bsq_subscribe req))).
Proof.
  intros s Hc Hf Hn Hk0 Hk1 Hsz. set (req0 := MkBatchSyncRequest _ _ _ _).
  set (extra := fingerprints_wire (btree_iter (commit_fingerprints s))
                ++ fingerprints_wire (btree_iter (fragment_fingerprints s))).
  assert (Hok : content_ok (SM_BatchSyncRequest req0)) by (split_and!; done).
  assert (Hlen : message_encoded_size (SM_BatchSyncRequest req0) + len extra =
                 message_encoded_size (SM_BatchSyncRequest req)).
  { unfold message_encoded_size, payload_size, extra, req0.
    rewrite len_app, !len_fingerprints_wire. unfold len. rewrite !length_btree_iter.
    cbn [bsq_fingerprint_summary commit_fingerprints fragment_fingerprints].
    rewrite size_empty. fold s. lia. }
  rewrite <- (decode_message_trailing (SM_BatchSyncRequest req0) extra Hok) by (rewrite Hlen; done).
  f_equal. rewrite Hlen, encode_message_wire, as_u32_small by done. do 3 f_equal.
  unfold payload_wire, request_wire, extra, req0.
  cbn [bsq_id bsq_req_id bsq_subscribe bsq_fingerprint_summary fps_seed commit_fingerprints
    fragment_fingerprints].
  fold s. unfold as_u16. rewrite Hc, Hf, size_empty. by rewrite <- !app_assoc.
Qed.
End claims.

(** ** Sample messages *)

#[local] Existing Instance ed25519_checksum.
#[local] Existing Instance bijou_fixed8.
#[local] Existing Instance bijou_fixed8_laws.

Definition sample_heads : RemoteHeads := MkRemoteHeads 7 [array_pad 32 [x09]].

(** A response that sends one commit and asks for one. *)
Definition sample_response : SyncMessage :=
  SM_BatchSyncResponse
    (MkBatchSyncResponse (MkRequestId (array_pad 32 [x02]) 5) (array_pad 32 [x01])
       (SR_Ok (MkSyncDiff [(vs_signed (seal (toy_signer x05) example_commit), [x41; x42])] []
                 (MkRequestedData [77] [])))
       sample_heads).

Lemma example_commit_encodable : LooseCommitCodec.encodable example_commit.
Proof. split; vm_compute; discriminate. Qed.

Lemma sample_response_ok : message_ok sample_response.
Proof.
  split; [|vm_compute; discriminate].
  split; [vm_compute; discriminate|]. split; [split; vm_compute; discriminate|].
  split; [vm_compute; discriminate|]. split.
  { constructor; [|constructor]. split; [|vm_compute; discriminate].
    exists example_commit.
    exact (seal_wf (encodable := LooseCommitCodec.encodable) (toy_signer x05) example_commit
             example_commit_encodable). }
  split; [vm_compute; discriminate|]. split; [constructor|].
  split; (split; [vm_compute; discriminate|]); repeat constructor; vm_compute; discriminate.
Qed.

Lemma SyncMessage_roundtrip_witness :
  decode_message (encode_message sample_response) = Ok sample_response.
Proof. exact (proj2 (SyncMessage_roundtrip sample_response sample_response_ok)). Defined.

Lemma SyncMessage_decode_stable_witness :
  exists m, decode_message (encode_message sample_response) = Ok m /\
    decode_message (encode_message m) = Ok m.
Proof.
  assert (Hc : is_ok (decode_message (encode_message sample_response)) = true)
    by (vm_compute; reflexivity).
  destruct (decode_message (encode_message sample_response)) as [m|e] eqn:Hd; [|discriminate Hc].
  exists m. split; [reflexivity|].
  exact (proj2 (proj2 (SyncMessage_decode_stable _ m Hd))).
Defined.

(** 65536 fingerprints. *)
Definition full_fingerprints : gset Fingerprint := list_to_set (N.of_nat <$> seq 0 65536).

Definition full_request : BatchSyncRequest :=
  MkBatchSyncRequest (array_pad 32 [x01]) (MkRequestId (array_pad 32 [x02]) 5)
    (FingerprintSummary_new {| key0 := 1; key1 := 2 |} full_fingerprints ∅) true.

Lemma full_fingerprints_size : size full_fingerprints = 65536%nat.
Proof.
  unfold full_fingerprints. rewrite size_list_to_set.
  - by rewrite length_fmap, length_seq.
  - apply NoDup_fmap_2; [apply _|apply NoDup_seq].
Qed.

Lemma BatchSyncRequest_counts_truncate_witness :
  size (commit_fingerprints (bsq_fingerprint_summary full_request)) = 65536%nat /\
  decode_message (encode_message (SM_BatchSyncRequest full_request)) =
    Ok (SM_BatchSyncRequest (MkBatchSyncRequest (array_pad 32 [x01])
          (MkRequestId (array_pad 32 [x02]) 5)
          (FingerprintSummary_new {| key0 := 1; key1 := 2 |} ∅ ∅) true)).
Proof.
  split; [exact full_fingerprints_size|].
  apply (BatchSyncRequest_counts_truncate full_request);
    unfold full_request, message_encoded_size, payload_size;
    cbn [bsq_fingerprint_summary commit_fingerprints fragment_fingerprints bsq_req_id ri_nonce
      fps_seed key0 key1]; rewrite ?full_fingerprints_size; vm_compute; congruence.
Defined.
