(* ===== verification/NonceCache.v ===== *)
(** * The nonce cache

    [subduction_core/src/nonce_cache.rs]: the ring of four time buckets that
    remembers the [(peer, nonce)] pairs of accepted handshakes. The mutex makes
    [try_claim] one atomic step, a function from the cache to its result and the
    new cache.

    The specification is a map from pairs to the last bucket in which they count,
    without a ring: [claim_spec]. The cache refines it. *)

From Stdlib Require Import Strings.Byte NArith Lia ZArith.
From stdpp Require Import base gmap sorting strings list.
From S2P Require Import Prelude.
From S2P Require Import Types.

Open Scope N_scope.

Notation PeerId := (array 32) (only parsing).
Notation Nonce := (array 16) (only parsing).
Notation NonceKey := (array 32 * array 16)%type (only parsing).

(** ** Time

    A [Duration] is its number of nanoseconds, a timestamp its number of
    seconds. *)

Module Duration.
Definition from_secs (secs : N) : N := secs * 1000000000.
Definition as_secs (d : N) : N := d / 1000000000.
End Duration.

Notation Duration := N (only parsing).
Notation TimestampSeconds := N (only parsing).

(** ** The cache *)

Definition DEFAULT_BUCKET_DURATION : Duration := Duration.from_secs (3 * 60).
Definition BUCKET_COUNT : N := 4.

Inductive NonceReused : Type := NonceReused_.

Record NonceCacheInner : Type := MkInner {
  buckets : list (gset NonceKey);
  ring_head : N
}.

Record NonceCache : Type := MkNonceCache {
  cache_inner : NonceCacheInner;
  bucket_duration_secs : N
}.

Definition NonceCache_new (bucket_duration : Duration) : NonceCache :=
  MkNonceCache (MkInner (replicate (N.to_nat BUCKET_COUNT) ∅) 0) (Duration.as_secs bucket_duration).

Definition NonceCache_default : NonceCache := NonceCache_new DEFAULT_BUCKET_DURATION.

(** [None]: the division by a duration of less than one second panics. *)
Definition bucket_number (self : NonceCache) (ts : TimestampSeconds) : option N :=
  if bucket_duration_secs self =? 0 then None else Some (ts / bucket_duration_secs self).

Definition bucket_index (bucket_num : N) : nat := N.to_nat (bucket_num mod BUCKET_COUNT).

(** The body of the loop of [advance_head]; an index past the array would panic,
    and the ring always has its four buckets ([ring_ok]). *)
Definition advance_step (inner : NonceCacheInner) : NonceCacheInner :=
  MkInner (<[bucket_index (ring_head inner) := ∅]> (buckets inner)) (ring_head inner + 1).

Fixpoint advance_loop (fuel : nat) (oldest_valid : N) (inner : NonceCacheInner) :
  NonceCacheInner :=
  match fuel with
  | O => inner
  | S fuel => if ring_head inner <? oldest_valid
              then advance_loop fuel oldest_valid (advance_step inner)
              else inner
  end.

(** N subtraction saturates like [saturating_sub]. The head grows by one in each
    round, so the distance is enough fuel ([advance_loop_head]). *)
Definition advance_head (inner : NonceCacheInner) (current_bucket : N) : NonceCacheInner :=
  let oldest_valid := current_bucket - (BUCKET_COUNT - 1) in
  advance_loop (N.to_nat (oldest_valid - ring_head inner)) oldest_valid inner.

Definition try_claim (self : NonceCache) (peer : PeerId) (nonce : Nonce)
    (timestamp : TimestampSeconds) : option (result NonceReused unit * NonceCache) :=
  let key := (peer, nonce) in
  bucket_num ← bucket_number self timestamp;
  let inner := advance_head (cache_inner self) bucket_num in
  if existsb (fun bucket => bool_decide (key ∈ bucket)) (buckets inner) then
    Some (Err NonceReused_, MkNonceCache inner (bucket_duration_secs self))
  else
    let idx := bucket_index bucket_num in
    let inner := MkInner (alter (fun bucket => {[key]} ∪ bucket) idx (buckets inner))
                         (ring_head inner) in
    Some (Ok tt, MkNonceCache inner (bucket_duration_secs self)).

(** ** The specification

    [claimed] gives for a pair the last bucket in which it counts; [oldest] is the
    oldest bucket that is still valid. A claim moves [oldest] up to three buckets
    behind its own bucket, and forgets what counts for older buckets only. A claim
    with a clock that ran backwards counts for the valid bucket with the same index
    as its own. *)

Record ClaimLog : Type := MkLog {
  oldest : N;
  claimed : gmap NonceKey N
}.

Definition log_empty : ClaimLog := MkLog 0 ∅.

Definition counts_until (oldest bucket_num : N) : N :=
  if oldest <=? bucket_num then bucket_num
  else oldest + (bucket_num mod 4 + 4 - oldest mod 4) mod 4.

Definition claim_spec (log : ClaimLog) (key : NonceKey) (bucket_num : N) :
  result NonceReused unit * ClaimLog :=
  let o := N.max (oldest log) (bucket_num - 3) in
  let live := filter (fun kv => o <= kv.2) (claimed log) in
  match live !! key with
  | Some _ => (Err NonceReused_, MkLog o live)
  | None => (Ok tt, MkLog o (<[key := counts_until o bucket_num]> live))
  end.

(** ** Refinement *)

Record ring_ok (inner : NonceCacheInner) (log : ClaimLog) : Prop := {
  ring_length : length (buckets inner) = 4%nat;
  ring_oldest : ring_head inner = oldest log;
  ring_window key e : claimed log !! key = Some e -> oldest log <= e <= oldest log + 3;
  ring_content i bucket key :
    buckets inner !! i = Some bucket ->
    key ∈ bucket <-> exists e, claimed log !! key = Some e /\ bucket_index e = i
}.

(** Forgetting what counts before [o]. *)
Definition log_advance (o : N) (log : ClaimLog) : ClaimLog :=
  MkLog o (filter (fun kv => o <= kv.2) (claimed log)).

Lemma log_advance_lookup o log key e :
  claimed (log_advance o log) !! key = Some e <-> claimed log !! key = Some e /\ o <= e.
Proof. unfold log_advance. cbn [claimed]. by rewrite map_lookup_filter_Some. Qed.

Lemma bucket_index_lt n : (bucket_index n < 4)%nat.
Proof. unfold bucket_index, BUCKET_COUNT. pose proof (N.mod_lt n 4). lia. Qed.

(** Within four consecutive buckets, the index determines the bucket. *)
Lemma bucket_index_inj o a b :
  o <= a <= o + 3 -> o <= b <= o + 3 -> bucket_index a = bucket_index b -> a = b.
Proof.
  unfold bucket_index, BUCKET_COUNT. intros Ha Hb E. apply N2Nat.inj in E.
  pose proof (N.div_mod' a 4). pose proof (N.div_mod' b 4). lia.
Qed.

Lemma counts_until_spec o b :
  b <= o + 3 ->
  o <= counts_until o b <= o + 3 /\ b <= counts_until o b /\
  bucket_index (counts_until o b) = bucket_index b.
Proof.
  intros Hb. unfold counts_until, bucket_index, BUCKET_COUNT. destruct (N.leb_spec o b); [lia|].
  assert (Hr : (b mod 4 + 4 - o mod 4) mod 4 < 4) by (by apply N.mod_lt).
  split; [revert Hr; generalize ((b mod 4 + 4 - o mod 4) mod 4); lia|].
  split; [etransitivity; [apply N.lt_le_incl, H|apply N.le_add_r]|]. f_equal.
  assert (Ho : o mod 4 < 4) by (by apply N.mod_lt).
  rewrite N.Div0.add_mod_idemp_r. rewrite <- (N.Div0.add_mod_idemp_l o).
  replace (o mod 4 + (b mod 4 + 4 - o mod 4)) with (b mod 4 + 1 * 4)
    by (revert Ho; generalize (o mod 4) (b mod 4); lia).
  rewrite N.Div0.mod_add. apply N.Div0.mod_mod.
Qed.

Lemma advance_step_ok inner log :
  ring_ok inner log -> ring_ok (advance_step inner) (log_advance (oldest log + 1) log).
Proof.
  intros [Hl Ho Hw Hc]. split; cbn [advance_step buckets ring_head oldest log_advance].
  - by rewrite length_insert.
  - by rewrite Ho.
  - intros key e [He ?]%log_advance_lookup. specialize (Hw key e He). lia.
  - intros i bucket key Hi. setoid_rewrite log_advance_lookup. rewrite Ho in Hi.
    apply list_lookup_insert_Some in Hi as [(<- & <- & _)|[Hne Hi]].
    + split; [set_solver|]. intros (e & [He ?] & Hx). specialize (Hw key e He).
      apply (bucket_index_inj (oldest log)) in Hx; lia.
    + rewrite (Hc i bucket key Hi). split; [|naive_solver].
      intros (e & He & Hx). exists e. split; [split; [done|]|done].
      specialize (Hw key e He). destruct (decide (e = oldest log)) as [->|]; [done|lia].
Qed.

Lemma log_advance_twice o o' log :
  o <= o' -> log_advance o' (log_advance o log) = log_advance o' log.
Proof.
  intros Ho. unfold log_advance. cbn [claimed]. f_equal. apply map_eq. intros k.
  apply option_eq. intros e. rewrite !map_lookup_filter_Some. cbn. intuition lia.
Qed.

Lemma log_advance_same inner log : ring_ok inner log -> log_advance (oldest log) log = log.
Proof.
  intros Hr. destruct log as [o c] eqn:E. unfold log_advance. cbn [oldest claimed]. f_equal.
  apply map_filter_id. intros k e He. by destruct (ring_window _ _ Hr _ _ He).
Qed.

(** The loop leaves its head at the oldest valid bucket or where it was. *)
Lemma advance_loop_ok fuel o inner log :
  (N.to_nat (o - oldest log) <= fuel)%nat -> ring_ok inner log ->
  ring_ok (advance_loop fuel o inner) (log_advance (N.max (oldest log) o) log).
Proof.
  revert inner log. induction fuel as [|fuel IH]; intros inner log Hf Hr; simpl.
  - rewrite N.max_l by lia. by rewrite (log_advance_same inner).
  - rewrite (ring_oldest _ _ Hr). destruct (N.ltb_spec (oldest log) o).
    + specialize (IH (advance_step inner) (log_advance (oldest log + 1) log)).
      cbn [log_advance oldest] in IH. rewrite log_advance_twice in IH by lia.
      replace (N.max (oldest log) o) with (N.max (oldest log + 1) o) by lia.
      apply IH; [lia|by apply advance_step_ok].
    + rewrite N.max_l by lia. by rewrite (log_advance_same inner).
Qed.

Lemma advance_head_ok inner log b :
  ring_ok inner log -> ring_ok (advance_head inner b) (log_advance (N.max (oldest log) (b - 3)) log).
Proof.
  intros Hr. apply advance_loop_ok; [|done]. rewrite (ring_oldest _ _ Hr). unfold BUCKET_COUNT. lia.
Qed.

Lemma ring_contains inner log key :
  ring_ok inner log ->
  existsb (fun bucket => bool_decide (key ∈ bucket)) (buckets inner) = true <->
  is_Some (claimed log !! key).
Proof.
  intros Hr. rewrite existsb_exists. setoid_rewrite bool_decide_eq_true.
  setoid_rewrite <- list_elem_of_In. split.
  - intros (bucket & [i Hi]%list_elem_of_lookup & Hk).
    apply (ring_content _ _ Hr i bucket key Hi) in Hk as (e & He & _). by exists e.
  - intros [e He]. destruct (lookup_lt_is_Some_2 (buckets inner) (bucket_index e)) as [bucket Hb].
    { rewrite (ring_length _ _ Hr). apply bucket_index_lt. }
    exists bucket. split; [by eapply list_elem_of_lookup_2|].
    apply (ring_content _ _ Hr _ _ key Hb). by exists e.
Qed.

Lemma ring_insert inner log key b :
  ring_ok inner log -> claimed log !! key = None -> b <= oldest log + 3 ->
  ring_ok (MkInner (alter (fun bucket => {[key]} ∪ bucket) (bucket_index b) (buckets inner))
                   (ring_head inner))
          (MkLog (oldest log) (<[key := counts_until (oldest log) b]> (claimed log))).
Proof.
  intros [Hl Ho Hw Hc] Hn Hb. destruct (counts_until_spec _ _ Hb) as (Hr & _ & Hi).
  split; cbn [buckets ring_head oldest claimed].
  - by rewrite length_alter.
  - done.
  - intros k e [[<- <-]|[_ He]]%lookup_insert_Some; [done|by eapply Hw].
  - intros i bucket k Hk. destruct (decide (i = bucket_index b)) as [->|Hne].
    + rewrite list_lookup_alter_eq in Hk. apply fmap_Some in Hk as (bucket' & Hk & ->).
      rewrite elem_of_union, elem_of_singleton, (Hc _ _ k Hk).
      destruct (decide (k = key)) as [->|Hk'].
      * rewrite lookup_insert_eq. naive_solver.
      * rewrite lookup_insert_ne by done. naive_solver.
    + rewrite list_lookup_alter_ne in Hk by done. rewrite (Hc _ _ k Hk).
      destruct (decide (k = key)) as [->|Hk'].
      * rewrite lookup_insert_eq, Hn. naive_solver.
      * by rewrite lookup_insert_ne.
Qed.

(** [ring_ok] for a whole cache, whose bucket duration is at least a second. *)
Definition cache_ok (self : NonceCache) (log : ClaimLog) : Prop :=
  0 < bucket_duration_secs self /\ ring_ok (cache_inner self) log.

Lemma as_secs_pos d : Duration.from_secs 1 <= d -> 0 < Duration.as_secs d.
Proof. intros Hd. apply N.div_str_pos. unfold Duration.from_secs in Hd. lia. Qed.

Lemma NonceCache_new_ok d : Duration.from_secs 1 <= d -> cache_ok (NonceCache_new d) log_empty.
Proof.
  intros Hd. split.
  - by apply as_secs_pos.
  - split; cbn [NonceCache_new cache_inner buckets ring_head log_empty oldest claimed].
    + apply length_replicate.
    + done.
    + intros key e. by rewrite lookup_empty.
    + intros i bucket key [-> _]%lookup_replicate. setoid_rewrite lookup_empty. set_solver.
Qed.

Lemma try_claim_step self log peer nonce ts :
  cache_ok self log ->
  let b := ts / bucket_duration_secs self in
  exists self',
    try_claim self peer nonce ts = Some ((claim_spec log (peer, nonce) b).1, self') /\
    cache_ok self' (claim_spec log (peer, nonce) b).2 /\
    bucket_duration_secs self' = bucket_duration_secs self.
Proof.
  intros [Hd Hr] b. pose proof (advance_head_ok _ _ b Hr) as Ha.
  pose proof (ring_contains _ _ (peer, nonce) Ha) as Hc.
  unfold try_claim, bucket_number. destruct (N.eqb_spec (bucket_duration_secs self) 0); [lia|].
  cbn [mbind option_bind]. fold b. unfold claim_spec.
  fold (log_advance (N.max (oldest log) (b - 3)) log) in *.
  set (o := N.max (oldest log) (b - 3)) in *.
  change (filter (fun kv => o <= kv.2) (claimed log)) with (claimed (log_advance o log)).
  destruct (claimed (log_advance o log) !! (peer, nonce)) as [e|] eqn:E.
  - rewrite (proj2 Hc) by done. eexists. split; [done|]. split; [split; done|done].
  - destruct (existsb _ _); [destruct (proj1 Hc eq_refl); congruence|].
    eexists. split; [done|]. split; [split; [done|]|done].
    apply (ring_insert _ (log_advance o log)); [done|done|]. cbn [log_advance oldest]. lia.
Qed.

(** ** Histories *)

Record Claim : Type := MkClaim {
  cl_peer : PeerId;
  cl_nonce : Nonce;
  cl_time : TimestampSeconds
}.

Definition cl_key (c : Claim) : NonceKey := (cl_peer c, cl_nonce c).

(** The claims of a process, in the order in which they take the lock. *)
Fixpoint claim_all (self : NonceCache) (history : list Claim) :
  option (list (result NonceReused unit) * NonceCache) :=
  match history with
  | [] => Some ([], self)
  | c :: history =>
      '(r, self) ← try_claim self (cl_peer c) (cl_nonce c) (cl_time c);
      '(rs, self) ← claim_all self history;
      Some (r :: rs, self)
  end.

Fixpoint claim_all_spec (d : N) (log : ClaimLog) (history : list Claim) :
  list (result NonceReused unit) * ClaimLog :=
  match history with
  | [] => ([], log)
  | c :: history =>
      let (r, log) := claim_spec log (cl_key c) (cl_time c / d) in
      let (rs, log) := claim_all_spec d log history in
      (r :: rs, log)
  end.

Lemma claim_all_refines self log history :
  cache_ok self log ->
  exists self',
    claim_all self history =
      Some ((claim_all_spec (bucket_duration_secs self) log history).1, self') /\
    cache_ok self' (claim_all_spec (bucket_duration_secs self) log history).2 /\
    bucket_duration_secs self' = bucket_duration_secs self.
Proof.
  revert self log. induction history as [|c history IH]; intros self log Hok; [by exists self|].
  destruct (try_claim_step self log (cl_peer c) (cl_nonce c) (cl_time c) Hok)
    as (self1 & E1 & Hok1 & Hd1).
  cbn [claim_all claim_all_spec]. rewrite E1. cbn [mbind option_bind]. fold (cl_key c) in *.
  destruct (claim_spec log (cl_key c) _) as [r log1]. cbn [fst snd] in *.
  destruct (IH self1 log1 Hok1) as (self2 & E2 & Hok2 & Hd2).
  rewrite E2, <- Hd1. cbn [mbind option_bind].
  destruct (claim_all_spec _ log1 history) as [rs log2]. exists self2. rewrite Hd1. split_and!; [done..|congruence].
Qed.

Lemma claim_all_app h1 h2 self :
  claim_all self (h1 ++ h2) =
    ('(rs1, self1) ← claim_all self h1; '(rs2, self2) ← claim_all self1 h2;
     Some (rs1 ++ rs2, self2)).
Proof.
  revert self. induction h1 as [|c h1 IH]; intros self; cbn [claim_all app mbind option_bind].
  - destruct (claim_all self h2) as [[rs2 self2]|]; done.
  - destruct (try_claim _ _ _ _) as [[r self1]|]; [|done]. cbn [mbind option_bind]. rewrite IH.
    destruct (claim_all self1 h1) as [[rs1 self2]|]; [|done]. cbn [mbind option_bind].
    by destruct (claim_all self2 h2) as [[rs2 self3]|].
Qed.

Lemma claim_all_prefix h1 h2 self rs self' :
  claim_all self (h1 ++ h2) = Some (rs, self') ->
  exists self1, claim_all self h1 = Some (take (length h1) rs, self1).
Proof.
  revert self rs. induction h1 as [|c h1 IH]; intros self rs; cbn [claim_all app length take];
    [by exists self|].
  destruct (try_claim _ _ _ _) as [[r self1]|]; [|done]. cbn [mbind option_bind].
  destruct (claim_all self1 (h1 ++ h2)) as [[rs2 self2]|] eqn:E; [|done]. intros [= <- <-].
  destruct (IH self1 rs2 E) as [self3 ->]. by exists self3.
Qed.

(** A pair is valid, and counts until bucket [b] at least. *)
Definition remembers (log : ClaimLog) (key : NonceKey) (b : N) : Prop :=
  exists e, claimed log !! key = Some e /\ b <= e /\ oldest log <= e.

(** An accepted claim is remembered for its bucket. *)
Lemma claim_spec_remembers log key b log' :
  claim_spec log key b = (Ok tt, log') -> remembers log' key b.
Proof.
  unfold claim_spec. destruct (filter _ _ !! key); [done|]. intros [= <-].
  eexists. cbn [claimed oldest]. rewrite lookup_insert_eq. split; [done|].
  edestruct counts_until_spec as ([? _] & ? & _); [|split; eassumption]. lia.
Qed.

(** It is forgotten by no claim less than four buckets later, and refuses these. *)
Lemma claim_spec_keeps log key b key' b' r log' :
  claim_spec log key' b' = (r, log') -> remembers log key b -> b' < b + 4 ->
  remembers log' key b /\ (key' = key -> r = Err NonceReused_).
Proof.
  intros Hc (e & He & Hbe & Ho) Hb. unfold claim_spec in Hc.
  set (o := N.max (oldest log) (b' - 3)) in *.
  assert (Hoe : o <= e) by lia.
  assert (Hl : filter (fun kv => o <= kv.2) (claimed log) !! key = Some e)
    by (apply map_lookup_filter_Some; done).
  destruct (filter (fun kv => o <= kv.2) (claimed log) !! key') eqn:E; injection Hc as <- <-.
  - split; [by exists e|done].
  - split; [|congruence]. exists e. cbn [claimed oldest].
    rewrite lookup_insert_ne by congruence. done.
Qed.

Lemma claim_all_spec_app d log h1 h2 :
  claim_all_spec d log (h1 ++ h2) =
  let (rs1, log1) := claim_all_spec d log h1 in
  let (rs2, log2) := claim_all_spec d log1 h2 in (rs1 ++ rs2, log2).
Proof.
  revert log. induction h1 as [|c h1 IH]; intros log; cbn [claim_all_spec app].
  - by destruct (claim_all_spec d log h2).
  - destruct (claim_spec log _ _) as [r log1]. rewrite IH.
    destruct (claim_all_spec d log1 h1) as [rs1 log2].
    by destruct (claim_all_spec d log2 h2).
Qed.

Lemma claim_all_spec_length d log h : length (claim_all_spec d log h).1 = length h.
Proof.
  revert log. induction h as [|c h IH]; intros log; cbn [claim_all_spec]; [done|].
  destruct (claim_spec log _ _) as [r log1]. specialize (IH log1).
  destruct (claim_all_spec d log1 h). cbn in *. by rewrite IH.
Qed.

Lemma claim_all_spec_keeps d log key b h :
  remembers log key b -> Forall (fun c => cl_time c / d < b + 4) h ->
  remembers (claim_all_spec d log h).2 key b.
Proof.
  revert log. induction h as [|c h IH]; intros log Hm Hh; cbn [claim_all_spec]; [done|].
  apply Forall_cons in Hh as [Hc Hh]. destruct (claim_spec log _ _) as [r log1] eqn:E.
  destruct (claim_spec_keeps _ _ _ _ _ _ _ E Hm Hc) as [Hm1 _]. specialize (IH log1 Hm1 Hh).
  by destruct (claim_all_spec d log1 h).
Qed.

(** A claim of [h] with the property [Q] was accepted. *)
Definition accepted (h : list Claim) (rs : list (result NonceReused unit)) (Q : Claim -> Prop) :
    Prop :=
  exists i c, h !! i = Some c /\ rs !! i = Some (Ok tt) /\ Q c.

Lemma accepted_snoc h rs c r (Q : Claim -> Prop) :
  length rs = length h ->
  accepted (h ++ [c]) (rs ++ [r]) Q <-> accepted h rs Q \/ (r = Ok tt /\ Q c).
Proof.
  intros Hlen. split.
  - intros (i & a & Hi & Hr & HQ). destruct (decide (i < length h)%nat) as [Hlt|Hge].
    + left. exists i, a. rewrite lookup_app_l in Hi by lia. rewrite lookup_app_l in Hr by lia. done.
    + right. rewrite lookup_app_r in Hi by lia. rewrite lookup_app_r in Hr by lia.
      rewrite Hlen in Hr. destruct (i - length h)%nat; [by simplify_eq/=|done].
  - intros [(i & a & Hi & Hr & HQ)|[-> HQ]].
    + exists i, a. split_and!; [by apply lookup_app_l_Some..|done].
    + exists (length h), c. rewrite lookup_app_r, Nat.sub_diag by lia.
      rewrite lookup_app_r, Hlen, Nat.sub_diag by lia. done.
Qed.

(** With a clock that does not run backwards, the log holds exactly the accepted
    claims of the last four buckets. *)
Record log_exact (d : N) (h : list Claim) (rs : list (result NonceReused unit)) (log : ClaimLog) :
    Prop := {
  exact_oldest : oldest log = foldr N.max 0 ((fun c => cl_time c / d - 3) <$> h);
  exact_claimed key e :
    claimed log !! key = Some e <->
    oldest log <= e /\ accepted h rs (fun c => cl_key c = key /\ cl_time c / d = e)
}.

Definition monotone_clock (h : list Claim) : Prop :=
  forall i j c c', (i < j)%nat -> h !! i = Some c -> h !! j = Some c' -> cl_time c <= cl_time c'.

Lemma foldr_max_snoc (l : list N) x : foldr N.max 0 (l ++ [x]) = N.max (foldr N.max 0 l) x.
Proof. induction l as [|y l IH]; cbn; [lia|]. rewrite IH. lia. Qed.

Lemma foldr_max_le (l : list N) b : Forall (fun x => x <= b) l -> foldr N.max 0 l <= b.
Proof. induction 1; cbn; lia. Qed.

Lemma monotone_clock_last h c :
  monotone_clock (h ++ [c]) -> monotone_clock h /\ Forall (fun c' => cl_time c' <= cl_time c) h.
Proof.
  intros Hm. split.
  - intros i j a b Hij Hi Hj. eapply Hm; [done|by apply lookup_app_l_Some..].
  - apply Forall_lookup. intros i a Hi. eapply (Hm i (length h)).
    + by eapply lookup_lt_Some.
    + by apply lookup_app_l_Some.
    + by rewrite lookup_app_r, Nat.sub_diag by done.
Qed.

Lemma log_exact_step d h rs log c r log' :
  0 < d -> length rs = length h -> monotone_clock (h ++ [c]) -> log_exact d h rs log ->
  claim_spec log (cl_key c) (cl_time c / d) = (r, log') ->
  log_exact d (h ++ [c]) (rs ++ [r]) log' /\
  (r = Ok tt <-> forall i a, h !! i = Some a -> rs !! i = Some (Ok tt) -> cl_key a = cl_key c ->
                   cl_time a / d + 4 <= cl_time c / d).
Proof.
  intros Hd Hlen [_ Hle]%monotone_clock_last [Ho Hc] Hs. unfold claim_spec in Hs.
  set (b := cl_time c / d) in *. set (o := N.max (oldest log) (b - 3)) in *.
  assert (Hlog : o = b - 3).
  { apply N.max_r. rewrite Ho. apply foldr_max_le, Forall_fmap. eapply Forall_impl; [done|].
    intros a Ha. cbn in *. pose proof (N.Div0.div_le_mono _ _ d Ha). subst b. lia. }
  assert (Hlive : forall key e,
    filter (fun kv => o <= kv.2) (claimed log) !! key = Some e <->
    o <= e /\ accepted h rs (fun a => cl_key a = key /\ cl_time a / d = e)).
  { intros key e. rewrite map_lookup_filter_Some, Hc. cbn.
    pose proof (N.le_max_l (oldest log) (b - 3)) as Hmax. fold o in Hmax. clearbody o.
    split; [tauto|]. intros [? ?]. split; [split; [by etransitivity|]|]; done. }
  assert (Hrefuse : (exists e, filter (fun kv => o <= kv.2) (claimed log) !! cl_key c = Some e) <->
    accepted h rs (fun a => cl_key a = cl_key c /\ b < cl_time a / d + 4)).
  { setoid_rewrite Hlive. rewrite Hlog. split.
    - intros (e & He & i & a & ? & ? & ? & Ha). exists i, a. split_and!; [done..|].
      rewrite Ha. clear -He. clearbody b. lia.
    - intros (i & a & ? & ? & ? & Ha). exists (cl_time a / d). split; [|by exists i, a].
      revert Ha. generalize (cl_time a / d). clearbody b. lia. }
  assert (Hnew : foldr N.max 0 ((fun c => cl_time c / d - 3) <$> h ++ [c]) = o)
    by (rewrite fmap_app; cbn; rewrite foldr_max_snoc, <- Ho; done).
  pose proof (fun Q => accepted_snoc h rs c r Q Hlen) as Hsnoc.
  destruct (filter (fun kv => o <= kv.2) (claimed log) !! cl_key c) as [e|] eqn:E;
    injection Hs as <- <-.
  - split; [split|].
    + done.
    + intros key e'. cbn [oldest claimed]. rewrite Hlive, Hsnoc. naive_solver.
    + split; [done|]. intros Hall. exfalso.
      destruct (proj1 Hrefuse) as (i & a & Hi & Hr & Hk & Hb); [by exists e|].
      specialize (Hall i a Hi Hr Hk). lia.
  - split; [split|].
    + done.
    + intros key e'. cbn [oldest claimed]. rewrite Hsnoc.
      destruct (decide (key = cl_key c)) as [->|Hne].
      * rewrite lookup_insert_eq. unfold counts_until.
        rewrite (proj2 (N.leb_le o b)) by lia. split.
        -- intros [= <-]. split; [lia|by right].
        -- intros (Hoe & [Hold|(_ & _ & <-)]); [|done].
           assert (None = Some e') as ?; [|done]. rewrite <- E. by apply Hlive.
      * rewrite lookup_insert_ne by done. rewrite Hlive. naive_solver.
    + split; [|done]. intros _ i a Hi Hr Hk. destruct (N.lt_ge_cases b (cl_time a / d + 4)); [|done].
      destruct (proj2 Hrefuse) as [e He]; [by exists i, a|]. congruence.
Qed.

Lemma claim_all_spec_exact d h :
  0 < d -> monotone_clock h ->
  log_exact d h (claim_all_spec d log_empty h).1 (claim_all_spec d log_empty h).2.
Proof.
  intros Hd. induction h as [|c h IH] using rev_ind; intros Hm.
  - split; [done|]. intros key e. cbn. rewrite lookup_empty. split; [done|].
    by intros (_ & i & c & ? & _).
  - destruct (monotone_clock_last _ _ Hm) as [Hm' _]. specialize (IH Hm').
    pose proof (claim_all_spec_length d log_empty h) as Hl. rewrite claim_all_spec_app.
    destruct (claim_all_spec d log_empty h) as [rs log]. cbn [claim_all_spec fst snd] in *.
    destruct (claim_spec log _ _) as [r log'] eqn:E.
    by destruct (log_exact_step _ _ _ _ _ _ _ Hd Hl Hm IH E).
Qed.

Lemma repeated_claim_refused d before c between c' rs :
  Duration.from_secs 1 <= d ->
  cl_key c = cl_key c' ->
  Forall (fun x => cl_time x <= cl_time c + 3 * Duration.as_secs d) (between ++ [c']) ->
  fst <$> claim_all (NonceCache_new d) (before ++ [c] ++ between ++ [c']) = Some rs ->
  rs !! length before = Some (Ok tt) ->
  last rs = Some (Err NonceReused_).
Proof.
  intros Hd Hk Hbt Hrun Hacc.
  destruct (claim_all_refines _ _ (before ++ [c] ++ between ++ [c']) (NonceCache_new_ok d Hd))
    as (self' & E & _). rewrite E in Hrun. injection Hrun as <-. clear E.
  change (bucket_duration_secs (NonceCache_new d)) with (Duration.as_secs d) in *.
  set (D := Duration.as_secs d) in *.
  assert (HD : 0 < D) by (by apply as_secs_pos).
  assert (Hb : Forall (fun x => cl_time x / D < cl_time c / D + 4) (between ++ [c'])).
  { eapply Forall_impl; [done|]. intros x Hx. cbn in *.
    pose proof (N.Div0.div_le_mono _ _ D Hx) as Hx'. rewrite N.div_add in Hx' by lia. lia. }
  apply Forall_app in Hb as [Hbt' [Hc' _]%Forall_cons].
  pose proof (claim_all_spec_length D log_empty before) as Hl.
  rewrite claim_all_spec_app in Hacc |- *.
  destruct (claim_all_spec D log_empty before) as [rs1 log1]. cbn [fst] in Hl.
  cbn [app claim_all_spec] in Hacc |- *.
  destruct (claim_spec log1 (cl_key c) _) as [r log2] eqn:E2.
  rewrite claim_all_spec_app in Hacc |- *.
  pose proof (claim_all_spec_keeps D log2 (cl_key c) (cl_time c / D) between) as Hm.
  destruct (claim_all_spec D log2 between) as [rs3 log3]. cbn [claim_all_spec] in Hacc |- *.
  destruct (claim_spec log3 (cl_key c') _) as [r' log4] eqn:E4. cbn [fst] in Hacc |- *.
  rewrite lookup_app_r, Hl, Nat.sub_diag in Hacc by lia. injection Hacc as ->.
  destruct (claim_spec_keeps _ (cl_key c) (cl_time c / D) _ _ _ _ E4) as [_ Hr].
  - apply Hm; [by eapply claim_spec_remembers|done].
  - done.
  - rewrite (Hr (eq_sym Hk)). change (last (rs1 ++ Ok tt :: rs3 ++ [Err NonceReused_]) = Some (Err NonceReused_)).
    by rewrite app_comm_cons, app_assoc, last_snoc.
Qed.

(** Accepted claims within three bucket durations have different pairs. *)
Lemma accepted_claims_unique d h rs self t0 i j c c' :
  Duration.from_secs 1 <= d ->
  Forall (fun x => t0 <= cl_time x <= t0 + 3 * Duration.as_secs d) h ->
  claim_all (NonceCache_new d) h = Some (rs, self) ->
  h !! i = Some c -> h !! j = Some c' -> rs !! i = Some (Ok tt) -> rs !! j = Some (Ok tt) ->
  cl_key c = cl_key c' -> (i < j)%nat -> False.
Proof.
  intros Hd Ht Hrun Hi Hj Hri Hrj Hk Hij.
  pose proof (take_drop_middle h j c' Hj) as Hsplit.
  assert (Hi' : take j h !! i = Some c) by (by rewrite lookup_take_lt).
  pose proof (take_drop_middle (take j h) i c Hi') as Hsplit'.
  set (before := take i (take j h)) in *. set (between := drop (S i) (take j h)) in *.
  assert (Hlb : length before = i)
    by (apply length_take_le, Nat.lt_le_incl; by eapply lookup_lt_Some).
  assert (Hl : length (before ++ c :: between) = j)
    by (rewrite Hsplit'; apply length_take_le, Nat.lt_le_incl; by eapply lookup_lt_Some).
  rewrite <- Hsplit', <- app_assoc in Hsplit. cbn [app] in Hsplit.
  assert (Hh : h = (before ++ [c] ++ between ++ [c']) ++ drop (S j) h)
    by (rewrite <- Hsplit at 1; by rewrite <- !app_assoc).
  assert (Hlen : length (before ++ [c] ++ between ++ [c']) = S j)
    by (rewrite !length_app in *; cbn in *; lia).
  rewrite Hh in Hrun, Ht. destruct (claim_all_prefix _ _ _ _ _ Hrun) as [self1 Hrun'].
  apply Forall_app in Ht as [Ht _]. rewrite Hlen in Hrun'.
  pose proof (repeated_claim_refused d before c between c' (take (S j) rs) Hd Hk) as Hlast.
  rewrite Hrun' in Hlast. rewrite (take_S_r _ _ _ Hrj), last_snoc in Hlast.
  rewrite Hlb in Hlast. rewrite lookup_app_l in Hlast.
  2:{ rewrite length_take_le; [done|]. apply Nat.lt_le_incl. by eapply lookup_lt_Some. }
  rewrite lookup_take_lt in Hlast by done. specialize (fun Hf => Hlast Hf eq_refl Hri).
  assert (Some (Ok tt) = Some (Err NonceReused_)) as ?; [apply Hlast|done].
  apply Forall_app in Ht as [_ [[Hc _]%Forall_inv Ht]%Forall_app].
  eapply Forall_impl; [exact Ht|]. cbn. intros x [_ ?]. lia.
Qed.

(** A pair is accepted again four buckets later. *)
Lemma claim_after_expiry d peer nonce t1 t2 :
  Duration.from_secs 1 <= d -> t1 / Duration.as_secs d + 4 <= t2 / Duration.as_secs d ->
  exists self1 self2,
    try_claim (NonceCache_new d) peer nonce t1 = Some (Ok tt, self1) /\
    try_claim self1 peer nonce t2 = Some (Ok tt, self2).
Proof.
  intros Hd Hb. pose proof (NonceCache_new_ok d Hd) as Hok.
  destruct (try_claim_step _ _ peer nonce t1 Hok) as (self1 & E1 & Hok1 & Hd1).
  destruct (try_claim_step _ _ peer nonce t2 Hok1) as (self2 & E2 & _). rewrite Hd1 in E2.
  change (bucket_duration_secs (NonceCache_new d)) with (Duration.as_secs d) in *.
  revert Hb E1 E2. generalize (t1 / Duration.as_secs d) (t2 / Duration.as_secs d).
  intros b1 b2 Hb E1 E2. clear Hok1.
  assert (C1 : claim_spec log_empty (peer, nonce) b1 =
               (Ok tt, MkLog (b1 - 3) {[(peer, nonce) := b1]})).
  { unfold claim_spec, log_empty. cbn [oldest claimed]. rewrite map_filter_empty, lookup_empty.
    unfold counts_until. rewrite N.max_r, (proj2 (N.leb_le _ _)) by lia. done. }
  rewrite C1 in E1, E2. exists self1, self2. split; [done|]. rewrite E2. do 2 f_equal.
  unfold claim_spec. cbn [oldest claimed fst snd].
  rewrite (map_filter_singleton_False _ _ _) by (cbn; lia). by rewrite lookup_empty.
Qed.

(** ** The claims *)

(** C27: The ring of buckets is the map with expiry: for a bucket duration of at least
    a second, whatever claims are made in whatever order and with whatever clock
    readings, the cache never panics and answers each of them as [claim_spec]
    does. *)
Theorem NonceCache_refines d history :
  Duration.from_secs 1 <= d ->
  exists self,
    claim_all (NonceCache_new d) history =
      Some ((claim_all_spec (Duration.as_secs d) log_empty history).1, self).
Proof.
  intros Hd. destruct (claim_all_refines _ _ history (NonceCache_new_ok d Hd)) as (self & E & _).
  by exists self.
Qed.

(** An accepted nonce cannot be used again within three bucket durations (nine
    minutes by default): if a claim was accepted and neither the claims in between
    nor the repeated one has a clock reading four buckets ahead, the repeated
    claim is refused. Clock readings may run backwards. *)
Theorem NonceCache_no_replay d before c between c' rs :
  Duration.from_secs 1 <= d ->
  cl_key c = cl_key c' ->
  Forall (fun x => cl_time x <= cl_time c + 3 * Duration.as_secs d) (between ++ [c']) ->
  fst <$> claim_all (NonceCache_new d) (before ++ [c] ++ between ++ [c']) = Some rs ->
  rs !! length before = Some (Ok tt) ->
  last rs = Some (Err NonceReused_).
Proof. apply repeated_claim_refused. Qed.

(** With a clock that does not run backwards the answers are exactly these: a
    claim is accepted if and only if every earlier accepted claim of the same pair
    is at least four buckets old. In particular a fresh nonce is always accepted. *)
Theorem NonceCache_accepts_exactly d h c :
  Duration.from_secs 1 <= d -> monotone_clock (h ++ [c]) ->
  exists rs r self,
    claim_all (NonceCache_new d) (h ++ [c]) = Some (rs ++ [r], self) /\ length rs = length h /\
    (r = Ok tt <->
     forall i a, h !! i = Some a -> rs !! i = Some (Ok tt) -> cl_key a = cl_key c ->
       cl_time a / Duration.as_secs d + 4 <= cl_time c / Duration.as_secs d).
Proof.
  intros Hd Hm.
  destruct (claim_all_refines _ _ (h ++ [c]) (NonceCache_new_ok d Hd)) as (self & E & _).
  change (bucket_duration_secs (NonceCache_new d)) with (Duration.as_secs d) in *.
  set (D := Duration.as_secs d) in *.
  assert (HD : 0 < D) by (by apply as_secs_pos).
  pose proof (claim_all_spec_exact D h HD (proj1 (monotone_clock_last _ _ Hm))) as Hx.
  pose proof (claim_all_spec_length D log_empty h) as Hl. rewrite claim_all_spec_app in E.
  destruct (claim_all_spec D log_empty h) as [rs log]. cbn [claim_all_spec fst snd] in *.
  destruct (claim_spec log (cl_key c) _) as [r log'] eqn:Ec. cbn [fst] in E.
  exists rs, r, self. split; [done|]. split; [done|].
  by destruct (log_exact_step _ _ _ _ _ _ _ HD Hl Hm Hx Ec).
Qed.

(** ** Sample histories *)

Definition sample_claim (who what : byte) (time : N) : Claim :=
  MkClaim (array_pad 32 [who]) (array_pad 16 [what]) time.

Lemma NonceCache_refines_witness :
  exists self, claim_all NonceCache_default [sample_claim x01 x07 200; sample_claim x01 x07 300] =
    Some ([Ok tt; Err NonceReused_], self).
Proof.
  apply (NonceCache_refines DEFAULT_BUCKET_DURATION
           [sample_claim x01 x07 200; sample_claim x01 x07 300]).
  vm_compute. discriminate.
Defined.

Lemma NonceCache_no_replay_witness :
  last [Ok tt; Ok tt; Err NonceReused_] = Some (Err NonceReused_ : result NonceReused unit).
Proof.
  apply (NonceCache_no_replay DEFAULT_BUCKET_DURATION [] (sample_claim x01 x07 1000)
           [sample_claim x02 x07 700] (sample_claim x01 x07 1540) [Ok tt; Ok tt; Err NonceReused_]).
  - vm_compute. discriminate.
  - reflexivity.
  - repeat constructor; vm_compute; discriminate.
  - vm_compute. reflexivity.
  - reflexivity.
Defined.

Lemma NonceCache_accepts_exactly_witness :
  exists rs r self,
    claim_all NonceCache_default [sample_claim x01 x07 200; sample_claim x01 x07 900] =
      Some (rs ++ [r], self) /\ length rs = 1%nat /\
    (r = Ok tt <->
     forall i a, [sample_claim x01 x07 200] !! i = Some a -> rs !! i = Some (Ok tt) ->
       cl_key a = cl_key (sample_claim x01 x07 900) ->
       cl_time a / Duration.as_secs DEFAULT_BUCKET_DURATION + 4 <= 5).
Proof.
  apply (NonceCache_accepts_exactly DEFAULT_BUCKET_DURATION [sample_claim x01 x07 200]
           (sample_claim x01 x07 900)).
  - vm_compute. discriminate.
  - intros [|[|i]] [|[|j]] c c' Hij Hi Hj; simplify_eq/=; lia || (vm_compute; discriminate).
Defined.
