(* ===== verification/HandshakeWire.v ===== *)
(** * Handshake messages

    [subduction_core/src/handshake/]: audiences ([audience.rs]), challenges
    ([challenge.rs]), responses ([response.rs]) and rejections ([rejection.rs]);
    the message that carries them, [HandshakeMessage] of [handshake.rs]; the
    timestamps of [timestamp.rs] and the drift correction of [handshake.rs].

    Arithmetic wraps where the release build's does; the places where a debug build
    panics instead are named. *)

From Stdlib Require Import Strings.Byte NArith ZArith Lia.
From stdpp Require Import base gmap sorting strings list.
From S2P Require Import Prelude.
From S2P Require Import Codec.
From S2P Require Import Types.
From S2P Require Import LooseCommit.
From S2P Require Import Fragment.
From S2P Require Import Signed.
From S2P Require Import NonceCache.

Open Scope N_scope.

(** ** Timestamps *)

(** [as i64] and [as i32] of a wider integer. *)
Definition as_i64 (z : Z) : Z := ((z + 2 ^ 63) mod 2 ^ 64 - 2 ^ 63)%Z.
Definition as_i32 (z : Z) : Z := ((z + 2 ^ 31) mod 2 ^ 32 - 2 ^ 31)%Z.

(** [i64::abs]: the lowest value has no opposite (a debug build panics). *)
Definition abs_i64 (z : Z) : Z := as_i64 (Z.abs z).

Definition abs_diff (self other : TimestampSeconds) : Duration :=
  Duration.from_secs (if self <? other then other - self else self - other).

Definition signed_diff (self other : TimestampSeconds) : Z :=
  as_i64 (Z.of_N self - Z.of_N other).

Definition add_signed (self : TimestampSeconds) (offset_secs : Z) : TimestampSeconds :=
  if (0 <=? offset_secs)%Z then N.min u64_max (self + Z.to_N offset_secs)
  else self - Z.to_N (Z.abs offset_secs).

(** [TimestampSeconds::saturating_sub] *)
Definition saturating_sub (self : TimestampSeconds) (duration : Duration) : TimestampSeconds :=
  self - Duration.as_secs duration.

Definition MAX_PLAUSIBLE_DRIFT : Duration := Duration.from_secs (10 * 60).
Definition SIMULTANEOUS_OPEN_MAX_DRIFT : Duration := Duration.from_secs (10 * 60).

Record DriftCorrection : Type := MkDrift { offset_secs : Z }.

Definition DriftCorrection_new : DriftCorrection := MkDrift 0.

Definition adjust (self : DriftCorrection) (server_timestamp client_timestamp : TimestampSeconds) :
  bool * DriftCorrection :=
  let drift := signed_diff server_timestamp client_timestamp in
  let max_drift_secs :=
    Z.min (2 ^ 31 - 1) (as_i64 (Z.of_N (Duration.as_secs MAX_PLAUSIBLE_DRIFT))) in
  if (max_drift_secs <? abs_i64 drift)%Z then (false, self)
  else (true, MkDrift (as_i32 drift)).

Definition apply_drift (self : DriftCorrection) (timestamp : TimestampSeconds) : TimestampSeconds :=
  add_signed timestamp (offset_secs self).

(** ** Audiences *)

Notation DiscoveryId := (array 32) (only parsing).

Inductive Audience : Type :=
| Known (id : PeerId)
| Discover (id : DiscoveryId).

#[export] Instance Audience_eq_dec : EqDecision Audience.
Proof. solve_decision. Defined.

Definition DiscoveryId_new `{Blake3} (service_identifier : list byte) : DiscoveryId :=
  blake3_hash service_identifier.

(** [Audience::discover] *)
Definition discover `{Blake3} (service_identifier : list byte) : Audience :=
  Discover (DiscoveryId_new service_identifier).

(** ** Rejections *)

Inductive RejectionReason : Type :=
| RR_ClockDrift
| RR_InvalidAudience
| RR_ReplayedNonce
| RR_InvalidSignature.

Definition reason_as_u8 (r : RejectionReason) : byte :=
  match r with
  | RR_ClockDrift => x00
  | RR_InvalidAudience => x01
  | RR_ReplayedNonce => x02
  | RR_InvalidSignature => x03
  end.

(** [TryFrom<u8> for RejectionReason]; the error carries the tag. *)
Definition reason_try_from (tag : byte) : result byte RejectionReason :=
  match tag with
  | x00 => Ok RR_ClockDrift
  | x01 => Ok RR_InvalidAudience
  | x02 => Ok RR_ReplayedNonce
  | x03 => Ok RR_InvalidSignature
  | _ => Err tag
  end.

Record Rejection : Type := Rejection_new {
  rj_reason : RejectionReason;
  rj_server_timestamp : TimestampSeconds
}.

Definition REJECTION_SIZE : N := 1 + 8.

Inductive RejectionDecodeError : Type :=
| RDE_TooShort (have : N)
| RDE_InvalidReason (tag : byte).

Definition encode_payload (self : Rejection) : list byte :=
  [reason_as_u8 (rj_reason self)] ++ to_be_bytes 8 (rj_server_timestamp self).

Definition try_decode_payload (payload : list byte) : result RejectionDecodeError Rejection :=
  let? _ := guard_err (len payload <? REJECTION_SIZE) (RDE_TooShort (len payload)) in
  let? reason_byte := ok_or (head payload) (RDE_TooShort 0) in
  let? reason := map_err RDE_InvalidReason (reason_try_from reason_byte) in
  let? timestamp_bytes := ok_or (get_range payload 1 9) (RDE_TooShort (len payload)) in
  Ok (Rejection_new reason (from_be_bytes timestamp_bytes)).

(** [From<RejectionDecodeError> for DecodeError] *)
Definition rejection_error `{Bijou64} (err : RejectionDecodeError) : DecodeError :=
  match err with
  | RDE_TooShort have => E_MessageTooShort "Rejection" REJECTION_SIZE have
  | RDE_InvalidReason tag => E_InvalidEnumTag tag "RejectionReason"
  end.

(** ** Challenges *)

Record Challenge : Type := Challenge_new {
  ch_audience : Audience;
  ch_timestamp : TimestampSeconds;
  ch_nonce : Nonce
}.

#[export] Instance Challenge_eq_dec : EqDecision Challenge.
Proof. solve_decision. Defined.

Inductive ChallengeValidationError : Type :=
| CVE_InvalidAudience
| CVE_ClockDrift (client_timestamp server_timestamp : TimestampSeconds)
| CVE_ReplayedNonce.

Definition to_rejection_reason (self : ChallengeValidationError) : RejectionReason :=
  match self with
  | CVE_InvalidAudience => RR_InvalidAudience
  | CVE_ClockDrift _ _ => RR_ClockDrift
  | CVE_ReplayedNonce => RR_ReplayedNonce
  end.

Definition is_fresh (self : Challenge) (now : TimestampSeconds) (max_drift : Duration) : bool :=
  abs_diff (ch_timestamp self) now <=? max_drift.

(** [Challenge::validate] *)
Definition validate_challenge (self : Challenge) (expected_audience : Audience)
    (now : TimestampSeconds) (max_drift : Duration) : result ChallengeValidationError unit :=
  let? _ := guard_err (negb (bool_decide (ch_audience self = expected_audience)))
              CVE_InvalidAudience in
  let? _ := guard_err (negb (is_fresh self now max_drift))
              (CVE_ClockDrift (ch_timestamp self) now) in
  Ok tt.

Module ChallengeCodec.
Definition CHALLENGE_FIELDS_SIZE : N := 1 + 32 + 8 + 16.
Definition CHALLENGE_MIN_SIZE : N := 4 + 1 + 32 + CHALLENGE_FIELDS_SIZE + 64.
Definition TAG : byte := x00.

#[global] Instance schema : Schema Challenge := {|
  PREFIX := SUBDUCTION_PREFIX;
  TYPE_BYTE := "H"%byte;
  VERSION := x00;
  DISCRIMINANT := Some TAG;
  type_name := "subduction_core::handshake::challenge::Challenge"
|}.

Definition encode_fields (c : Challenge) (buf : list byte) : list byte :=
  let buf := match ch_audience c with
             | Known _ => encode.u8 x00 buf
             | Discover _ => encode.u8 x01 buf
             end in
  let buf := match ch_audience c with
             | Known peer_id => encode.array peer_id buf
             | Discover disc_id => encode.array disc_id buf
             end in
  let buf := encode.u64 (ch_timestamp c) buf in
  encode.array (ch_nonce c) buf.

Section codec.
Context `{Bijou64}.

Definition try_decode_fields (buf : list byte) : result DecodeError (Challenge * N) :=
  let? _ := guard_err (len buf <? CHALLENGE_FIELDS_SIZE)
              (E_MessageTooShort "Challenge" CHALLENGE_FIELDS_SIZE (len buf)) in
  let offset := 0 in
  let? audience_tag := buf_err (decode.u8 buf offset) in
  let offset := offset + 1 in
  let? audience_value := buf_err (decode.array 32 buf offset) in
  let offset := offset + 32 in
  let? audience := match audience_tag with
                   | x00 => Ok (Known audience_value)
                   | x01 => Ok (Discover audience_value)
                   | tag => Err (E_InvalidEnumTag tag "Audience")
                   end in
  let? timestamp := buf_err (decode.u64 buf offset) in
  let offset := offset + 8 in
  let? nonce := buf_err (decode.array 16 buf offset) in
  let offset := offset + 16 in
  Ok (Challenge_new audience timestamp nonce, offset).

#[global] Instance encode_instance : EncodeFields Challenge := {|
  Codec.encode_fields := encode_fields;
  Codec.fields_size := fun _ => CHALLENGE_FIELDS_SIZE
|}.

#[global] Instance decode_instance : DecodeFields Challenge := {|
  MIN_SIGNED_SIZE := CHALLENGE_MIN_SIZE;
  Codec.try_decode_fields := try_decode_fields
|}.
End codec.

Definition encodable (c : Challenge) : Prop := ch_timestamp c <= u64_max.

Definition audience_wire (a : Audience) : list byte :=
  match a with
  | Known id => [x00] ++ arr_list id
  | Discover id => [x01] ++ arr_list id
  end.

Definition wire (c : Challenge) : list byte :=
  audience_wire (ch_audience c) ++ to_be_bytes 8 (ch_timestamp c) ++ arr_list (ch_nonce c).

Lemma challenge_encode_wire c buf : encode_fields c buf = buf ++ wire c.
Proof.
  unfold encode_fields, wire, audience_wire, encode.array, encode.u8, encode.u64.
  destruct (ch_audience c); by rewrite <- !app_assoc.
Qed.

Lemma challenge_wire_len c : len (wire c) = CHALLENGE_FIELDS_SIZE.
Proof.
  unfold wire, audience_wire. destruct (ch_audience c);
    by rewrite !len_app, !len_array, len_to_be_bytes.
Qed.

Lemma challenge_decode_wire `{Bijou64} c rest :
  encodable c -> try_decode_fields (wire c ++ rest) = Ok (c, CHALLENGE_FIELDS_SIZE).
Proof.
  intros Hc. pose proof (challenge_wire_len c) as Hl. unfold try_decode_fields.
  set (buf := wire c ++ rest). assert (Hs : suffix_at buf 0 buf) by apply suffix_at_start.
  unfold buf at 2, wire in Hs.
  rewrite (proj2 (N.ltb_ge _ _)) by (unfold buf; rewrite len_app; lia).
  destruct c as [a t n]. unfold audience_wire in Hs. cbn [ch_audience ch_timestamp ch_nonce] in *.
  destruct a as [id|id]; rewrite <- !app_assoc in Hs; cbn [guard_err rbind];
    rewrite (decode_u8_at _ _ _ _ Hs); suffix_step Hs 1; cbn [buf_err map_err rbind];
    rewrite (decode_array_at _ _ _ _ _ Hs); suffix_step Hs 32; cbn [buf_err map_err rbind];
    rewrite (decode_u64_at _ _ _ _ Hs) by done; suffix_step Hs 8; cbn [buf_err map_err rbind];
    rewrite (decode_array_at _ _ _ _ _ Hs); done.
Qed.

Lemma challenge_decode_canonical `{Bijou64} buf c n :
  try_decode_fields buf = Ok (c, n) ->
  encodable c /\ n = CHALLENGE_FIELDS_SIZE /\ exists rest, buf = wire c ++ rest.
Proof.
  unfold try_decode_fields, buf_err. intros Hd.
  assert (exists b0, b0 = buf /\ suffix_at buf 0 b0) as (b0 & Hb0 & Hs)
    by (exists buf; split; [done|apply suffix_at_start]).
  inv_ok. repeat canon_step. subst c n. unfold encodable, wire.
  cbn [ch_timestamp ch_nonce ch_audience]. split; [done|]. split; [done|]. exists x6.
  assert (Ha : audience_wire x2 = [x0] ++ arr_list x1) 
    by (destruct x0; first [discriminate H3 | injection H3 as <-; reflexivity]).
  by rewrite Ha, <- Hb0, <- !app_assoc.
Qed.

#[global] Instance laws `{Bijou64} : CodecLaws Challenge encodable.
Proof.
  split.
  - intros x buf. cbn. by rewrite !challenge_encode_wire.
  - intros x Hx. cbn. rewrite challenge_encode_wire. by apply challenge_wire_len.
  - intros x rest Hx. cbn. rewrite challenge_encode_wire. by apply challenge_decode_wire.
  - intros buf x n Hd. cbn. rewrite challenge_encode_wire. by apply challenge_decode_canonical.
Qed.

#[global] Instance signed_laws `{Bijou64} : SignedLaws Challenge encodable.
Proof. split; [apply _|]. intros x _. vm_compute. discriminate. Qed.
End ChallengeCodec.

(** ** Responses *)

Record Response : Type := Response_new {
  rs_challenge_digest : Digest Challenge;
  rs_server_timestamp : TimestampSeconds
}.

#[export] Instance Response_eq_dec : EqDecision Response.
Proof. solve_decision. Defined.

Inductive ResponseValidationError : Type := RVE_ChallengeMismatch.

Section response.
Context `{Blake3, Bijou64}.

Definition for_challenge (challenge : Challenge) (now : TimestampSeconds) : Response :=
  Response_new (Digest_hash challenge) now.

(** [Response::validate] *)
Definition validate_response (self : Response) (expected_challenge : Challenge) :
  result ResponseValidationError unit :=
  let expected_digest := Digest_hash expected_challenge in
  guard_err (negb (bool_decide (rs_challenge_digest self = expected_digest)))
    RVE_ChallengeMismatch.
End response.

Module ResponseCodec.
Definition RESPONSE_FIELDS_SIZE : N := 32 + 8.
Definition RESPONSE_MIN_SIZE : N := 4 + 1 + 32 + RESPONSE_FIELDS_SIZE + 64.
Definition TAG : byte := x01.

#[global] Instance schema : Schema Response := {|
  PREFIX := SUBDUCTION_PREFIX;
  TYPE_BYTE := "H"%byte;
  VERSION := x00;
  DISCRIMINANT := Some TAG;
  type_name := "subduction_core::handshake::response::Response"
|}.

Definition encode_fields (r : Response) (buf : list byte) : list byte :=
  let buf := encode.array (rs_challenge_digest r) buf in
  encode.u64 (rs_server_timestamp r) buf.

Section codec.
Context `{Bijou64}.

Definition try_decode_fields (buf : list byte) : result DecodeError (Response * N) :=
  let? _ := guard_err (len buf <? RESPONSE_FIELDS_SIZE)
              (E_MessageTooShort "Response" RESPONSE_FIELDS_SIZE (len buf)) in
  let offset := 0 in
  let? challenge_digest := buf_err (decode.array 32 buf offset) in
  let offset := offset + 32 in
  let? server_timestamp := buf_err (decode.u64 buf offset) in
  let offset := offset + 8 in
  Ok (Response_new challenge_digest server_timestamp, offset).

#[global] Instance encode_instance : EncodeFields Response := {|
  Codec.encode_fields := encode_fields;
  Codec.fields_size := fun _ => RESPONSE_FIELDS_SIZE
|}.

#[global] Instance decode_instance : DecodeFields Response := {|
  MIN_SIGNED_SIZE := RESPONSE_MIN_SIZE;
  Codec.try_decode_fields := try_decode_fields
|}.
End codec.

Definition encodable (r : Response) : Prop := rs_server_timestamp r <= u64_max.

Definition wire (r : Response) : list byte :=
  arr_list (rs_challenge_digest r) ++ to_be_bytes 8 (rs_server_timestamp r).

Lemma response_encode_wire r buf : encode_fields r buf = buf ++ wire r.
Proof. unfold encode_fields, wire, encode.array, encode.u64. by rewrite <- !app_assoc. Qed.

Lemma response_wire_len r : len (wire r) = RESPONSE_FIELDS_SIZE.
Proof. unfold wire. by rewrite len_app, len_array, len_to_be_bytes. Qed.

Lemma response_decode_wire `{Bijou64} r rest :
  encodable r -> try_decode_fields (wire r ++ rest) = Ok (r, RESPONSE_FIELDS_SIZE).
Proof.
  intros Hr. pose proof (response_wire_len r) as Hl. unfold try_decode_fields.
  set (buf := wire r ++ rest). assert (Hs : suffix_at buf 0 buf) by apply suffix_at_start.
  unfold buf at 2, wire in Hs. rewrite <- !app_assoc in Hs.
  rewrite (proj2 (N.ltb_ge _ _)) by (unfold buf; rewrite len_app; lia). cbn [guard_err rbind].
  rewrite (decode_array_at _ _ _ _ _ Hs). suffix_step Hs 32. cbn [buf_err map_err rbind].
  rewrite (decode_u64_at _ _ _ _ Hs) by done. by destruct r.
Qed.

Lemma response_decode_canonical `{Bijou64} buf r n :
  try_decode_fields buf = Ok (r, n) ->
  encodable r /\ n = RESPONSE_FIELDS_SIZE /\ exists rest, buf = wire r ++ rest.
Proof.
  unfold try_decode_fields, buf_err. intros Hd.
  assert (exists b0, b0 = buf /\ suffix_at buf 0 b0) as (b0 & Hb0 & Hs)
    by (exists buf; split; [done|apply suffix_at_start]).
  inv_ok. repeat canon_step. subst r n. split; [done|]. split; [done|].
  unfold wire. cbn [rs_challenge_digest rs_server_timestamp].
  eexists. rewrite <- Hb0, <- !app_assoc. done.
Qed.

#[global] Instance laws `{Bijou64} : CodecLaws Response encodable.
Proof.
  split; unfold Codec.encode_fields, encode_instance.
  - intros x buf. by rewrite !response_encode_wire.
  - intros x Hx. rewrite response_encode_wire. by apply response_wire_len.
  - intros x rest Hx. rewrite response_encode_wire. by apply response_decode_wire.
  - intros buf x n Hd. rewrite response_encode_wire. by apply response_decode_canonical.
Qed.

#[global] Instance signed_laws `{Bijou64} : SignedLaws Response encodable.
Proof. split; [apply _|]. intros x _. vm_compute. discriminate. Qed.
End ResponseCodec.

(** ** The handshake message *)

Inductive HandshakeMessage : Type :=
| HM_SignedChallenge (signed : Signed Challenge)
| HM_SignedResponse (signed : Signed Response)
| HM_Rejection (rejection : Rejection).

Definition HANDSHAKE_SCHEMA : array 4 := SCHEMA Challenge.

Module handshake_tags.
Definition CHALLENGE : byte := ChallengeCodec.TAG.
Definition RESPONSE : byte := ResponseCodec.TAG.
Definition REJECTION : byte := x02.
End handshake_tags.

Module HandshakeMessage.
Definition MIN_SIZE : N := 5.

Definition encode (self : HandshakeMessage) : list byte :=
  match self with
  | HM_SignedChallenge signed => sg_bytes signed
  | HM_SignedResponse signed => sg_bytes signed
  | HM_Rejection rejection =>
      let payload := encode_payload rejection in
      let buf := arr_list HANDSHAKE_SCHEMA in
      let buf := buf ++ [handshake_tags.REJECTION] in
      buf ++ payload
  end.

Definition try_decode `{Ed25519, Bijou64} (bytes : list byte) :
  result DecodeError HandshakeMessage :=
  let? _ := guard_err (len bytes <? MIN_SIZE)
              (E_MessageTooShort "HandshakeMessage" MIN_SIZE (len bytes)) in
  let? got_schema := ok_or (get_range bytes 0 4 ≫= array_of_list 4)
                       (E_MessageTooShort "HandshakeMessage" 4 (len bytes)) in
  let? _ := guard_err (negb (bool_decide (got_schema = HANDSHAKE_SCHEMA)))
              (E_InvalidSchema HANDSHAKE_SCHEMA got_schema) in
  let? tag := ok_or (bytes !! 4%nat)
                (E_MessageTooShort "HandshakeMessage" MIN_SIZE (len bytes)) in
  if bool_decide (tag = handshake_tags.CHALLENGE) then
    let? signed := Signed.try_decode bytes in Ok (HM_SignedChallenge signed)
  else if bool_decide (tag = handshake_tags.RESPONSE) then
    let? signed := Signed.try_decode bytes in Ok (HM_SignedResponse signed)
  else if bool_decide (tag = handshake_tags.REJECTION) then
    let? payload := ok_or (get_from bytes 5)
                      (E_MessageTooShort "HandshakeMessage::Rejection" (MIN_SIZE + 1) (len bytes)) in
    let? rejection := map_err rejection_error (try_decode_payload payload) in
    Ok (HM_Rejection rejection)
  else Err (E_InvalidEnumTag tag "HandshakeMessage").
End HandshakeMessage.

(** ** The wire form of messages *)

Section wire.
Context `{Ed25519, Bijou64}.

Definition message_ok (m : HandshakeMessage) : Prop :=
  match m with
  | HM_SignedChallenge s => exists c, signed_wf (encodable := ChallengeCodec.encodable) s c
  | HM_SignedResponse s => exists r, signed_wf (encodable := ResponseCodec.encodable) s r
  | HM_Rejection r => rj_server_timestamp r <= u64_max
  end.

Definition tag_of (m : HandshakeMessage) : byte :=
  match m with
  | HM_SignedChallenge _ => handshake_tags.CHALLENGE
  | HM_SignedResponse _ => handshake_tags.RESPONSE
  | HM_Rejection _ => handshake_tags.REJECTION
  end.

(** Every message starts with the schema and its tag. *)
Lemma encode_header m :
  message_ok m ->
  exists body, HandshakeMessage.encode m = arr_list HANDSHAKE_SCHEMA ++ [tag_of m] ++ body.
Proof.
  destruct m as [s|s|r]; cbn [message_ok HandshakeMessage.encode tag_of].
  1,2: intros [p [Hb _ _]]; rewrite Hb; eexists; unfold signed_message, disc_bytes;
       rewrite <- !app_assoc; done.
  eexists. by rewrite <- app_assoc.
Qed.

Lemma decode_payload_at r rest :
  rj_server_timestamp r <= u64_max -> try_decode_payload (encode_payload r ++ rest) = Ok r.
Proof.
  intros Hr. unfold try_decode_payload. set (buf := encode_payload r ++ rest).
  assert (Hs : suffix_at buf 0 buf) by apply suffix_at_start.
  unfold buf at 2, encode_payload in Hs. rewrite <- !app_assoc in Hs. suffix_step Hs 1.
  pose proof (suffix_at_len _ _ _ Hs) as Hl. rewrite len_app, len_to_be_bytes in Hl.
  rewrite (proj2 (N.ltb_ge _ _)) by (unfold REJECTION_SIZE; lia). cbn [guard_err rbind].
  rewrite (get_range_suffix _ _ _ _ _ Hs (len_to_be_bytes 8 _) : get_range buf 1 9 = _).
  unfold buf. cbn [ok_or rbind encode_payload app head].
  rewrite from_to_be_bytes by (unfold u64_max in Hr; cbn; lia).
  by destruct r as [[] ?].
Qed.

Lemma try_decode_at m rest :
  message_ok m -> HandshakeMessage.try_decode (HandshakeMessage.encode m ++ rest) = Ok m.
Proof.
  intros Hm. destruct (encode_header m Hm) as [body Hb]. unfold HandshakeMessage.try_decode.
  set (buf := HandshakeMessage.encode m ++ rest).
  assert (Hs : suffix_at buf 0 buf) by apply suffix_at_start.
  unfold buf at 2 in Hs. rewrite Hb, <- !app_assoc in Hs.
  pose proof Hs as Hs1. suffix_step Hs1 4. pose proof Hs1 as Hs2. suffix_step Hs2 1.
  pose proof (suffix_at_len _ _ _ Hs2) as Hl.
  rewrite (proj2 (N.ltb_ge _ _)) by (unfold HandshakeMessage.MIN_SIZE; lia).
  cbn [guard_err rbind].
  rewrite (get_array_at _ _ 0 4 _ Hs : get_range _ 0 4 ≫= _ = _). cbn [ok_or rbind].
  rewrite bool_decide_true by done. cbn [negb guard_err rbind].
  rewrite (lookup_at _ _ (0 + 4) _ Hs1 : buf !! 4%nat = _). cbn [ok_or rbind].
  destruct m as [s|s|r]; cbn [tag_of message_ok] in *.
  - destruct Hm as [c Hc]. rewrite bool_decide_true by done. unfold buf, Signed.try_decode.
    cbn [HandshakeMessage.encode]. by rewrite (try_decode_prefix_at _ _ _ Hc).
  - destruct Hm as [c Hc]. rewrite bool_decide_false by done. rewrite bool_decide_true by done.
    unfold buf, Signed.try_decode. cbn [HandshakeMessage.encode].
    by rewrite (try_decode_prefix_at _ _ _ Hc).
  - rewrite !bool_decide_false by done. rewrite bool_decide_true by done.
    rewrite (get_from_suffix _ _ _ Hs2 : get_from buf 5 = _). cbn [ok_or rbind].
    cbn [HandshakeMessage.encode] in Hb. rewrite <- app_assoc in Hb.
    apply app_inv_head, app_inv_head in Hb as <-.
    by rewrite decode_payload_at.
Qed.

Local Ltac split_if Hd :=
  match type of Hd with (if ?b then _ else _) = _ => destruct b end.

(** Whatever decodes is a message the format can carry. *)
Lemma try_decode_inv bytes m :
  HandshakeMessage.try_decode bytes = Ok m -> message_ok m.
Proof.
  unfold HandshakeMessage.try_decode. intros Hd.
  repeat (apply rbind_ok in Hd as (? & ? & Hd)).
  split_if Hd.
  { apply rbind_ok in Hd as (s & Hs & [= <-]). apply rbind_ok in Hs as ([s' n] & Hs & [= <-]).
    destruct (try_decode_prefix_inv (encodable := ChallengeCodec.encodable) _ _ _ Hs)
      as (c & _ & Hw & _). by exists c. }
  split_if Hd.
  { apply rbind_ok in Hd as (s & Hs & [= <-]). apply rbind_ok in Hs as ([s' n] & Hs & [= <-]).
    destruct (try_decode_prefix_inv (encodable := ResponseCodec.encodable) _ _ _ Hs)
      as (c & _ & Hw & _). by exists c. }
  split_if Hd; [|done].
  apply rbind_ok in Hd as (payload & _ & Hd). apply rbind_ok in Hd as (r & Hr & [= <-]).
  apply map_err_ok in Hr. unfold try_decode_payload in Hr.
  repeat (apply rbind_ok in Hr as (? & ? & Hr)). injection Hr as <-.
  cbn [message_ok rj_server_timestamp].
  match goal with H : ok_or (get_range _ 1 9) _ = Ok ?x |- _ =>
    apply ok_or_ok, get_range_Some in H as (_ & _ & Hx & _);
    pose proof (from_be_bytes_bound x) as Hb; rewrite Hx in Hb end.
  unfold u64_max. change (256 ^ (9 - 1)) with 18446744073709551616 in Hb. lia.
Qed.
End wire.

(** ** The claims *)

(** Every handshake message survives the wire, whatever bytes follow it in the
    frame, and whatever bytes decode give a message that does. The three variants
    share one schema and are told apart by the byte behind it. *)
Theorem HandshakeMessage_roundtrip `{Ed25519, Bijou64} :
  (forall m rest, message_ok m ->
     HandshakeMessage.try_decode (HandshakeMessage.encode m ++ rest) = Ok m) /\
  (forall bytes m, HandshakeMessage.try_decode bytes = Ok m ->
     message_ok m /\ HandshakeMessage.try_decode (HandshakeMessage.encode m) = Ok m).
Proof.
  split; [intros m rest; apply try_decode_at|].
  intros bytes m Hd. apply try_decode_inv in Hd. split; [done|].
  rewrite <- (app_nil_r (HandshakeMessage.encode m)). by apply try_decode_at.
Qed.

(** A signed challenge is never a signed response: their signed bytes differ. *)
Lemma challenge_response_separate `{Ed25519, Bijou64} (s1 : Signed Challenge) (s2 : Signed Response) c r :
  signed_wf (encodable := ChallengeCodec.encodable) s1 c ->
  signed_wf (encodable := ResponseCodec.encodable) s2 r ->
  payload_bytes s1 <> payload_bytes s2.
Proof.
  intros H1 H2. rewrite (wf_payload_bytes _ _ H1), (wf_payload_bytes _ _ H2).
  unfold signed_message, disc_bytes. intros [_ Hr]%app_inj_1; [done|by rewrite !length_array].
Qed.

(** *** Drift correction *)

Lemma as_i64_small z : (- 2 ^ 63 <= z < 2 ^ 63)%Z -> as_i64 z = z.
Proof. intros Hz. unfold as_i64. rewrite Z.mod_small; lia. Qed.

Lemma as_i32_small z : (- 2 ^ 31 <= z < 2 ^ 31)%Z -> as_i32 z = z.
Proof. intros Hz. unfold as_i32. rewrite Z.mod_small; lia. Qed.

(** For clocks below 2^63 seconds a correction is learnt exactly when the server's
    time is at most ten minutes away, and then it maps the client's time to the
    server's; otherwise nothing changes. The offset never exceeds ten minutes. *)
Theorem adjust_spec self server client :
  server < 2 ^ 63 -> client < 2 ^ 63 -> (Z.abs (offset_secs self) <= 600)%Z ->
  let (plausible, self') := adjust self server client in
  (plausible = true <-> (Z.abs (Z.of_N server - Z.of_N client) <= 600)%Z) /\
  (plausible = true -> apply_drift self' client = server) /\
  (plausible = false -> self' = self) /\
  (Z.abs (offset_secs self') <= 600)%Z.
Proof.
  intros Hs Hc Ho. change (2 ^ 63) with 9223372036854775808 in *. unfold adjust, signed_diff.
  rewrite (as_i64_small (Z.of_N server - Z.of_N client)) by lia. unfold abs_i64.
  rewrite (as_i64_small (Z.abs _)) by lia.
  change (Z.min (2 ^ 31 - 1) _) with 600%Z.
  destruct (Z.ltb_spec 600 (Z.abs (Z.of_N server - Z.of_N client))).
  - split_and!; [split; [done|lia]|done..].
  - rewrite as_i32_small by lia. unfold apply_drift, add_signed, u64_max. cbn [offset_secs].
    split_and!; [done| |done|done]. intros _.
    destruct (Z.leb_spec 0 (Z.of_N server - Z.of_N client)); lia.
Qed.

Lemma adjust_spec_witness :
  adjust DriftCorrection_new 1030 1000 = (true, MkDrift 30) /\
  apply_drift (MkDrift 30) 1000 = 1030.
Proof.
  assert (E : adjust DriftCorrection_new 1030 1000 = (true, MkDrift 30)) by (vm_compute; reflexivity).
  split; [exact E|].
  pose proof (adjust_spec DriftCorrection_new 1030 1000 ltac:(reflexivity) ltac:(reflexivity)
                ltac:(vm_compute; discriminate)) as Hw.
  rewrite E in Hw. exact (proj1 (proj2 Hw) eq_refl).
Defined.

(** A server time 2^63 seconds ahead of the client's passes the plausibility
    check in a release build: the difference is the lowest [i64], which [abs] leaves
    negative. The correction is accepted, with offset 0. (A debug build panics.) *)
Theorem adjust_accepts_lowest self client :
  client < 2 ^ 63 ->
  adjust self (client + 2 ^ 63) client = (true, MkDrift 0) /\
  Z.abs (Z.of_N (client + 2 ^ 63) - Z.of_N client) = (2 ^ 63)%Z.
Proof.
  intros _. assert (Hd : (Z.of_N (client + 2 ^ 63) - Z.of_N client)%Z = (2 ^ 63)%Z)
    by (change (2 ^ 63) with 9223372036854775808; lia).
  unfold adjust, signed_diff. rewrite Hd. split; reflexivity.
Qed.

Lemma adjust_accepts_lowest_witness :
  adjust DriftCorrection_new (1700000000 + 2 ^ 63) 1700000000 = (true, MkDrift 0).
Proof. apply adjust_accepts_lowest. reflexivity. Defined.
