(* ===== verification/Authenticated.v ===== *)
(** Authenticated connections, [subduction_core/src/authenticated.rs]: a connection together
    with the identity that its peer has proved in a handshake. *)

From stdpp Require Import base list.
From S2P Require Import Prelude.
From S2P Require Import Types.
From S2P Require Import Message.

Inductive Direction : Type := Dialed | Accepted.
#[export] Instance Direction_eq_dec : EqDecision Direction.
Proof. solve_decision. Defined.

Record Authenticated (Conn : Type) : Type := from_handshake {
  au_inner : Conn;
  au_peer_id : PeerId;
  au_direction : Direction
}.
Arguments from_handshake {Conn}.
Arguments au_inner {Conn}.
Arguments au_peer_id {Conn}.
Arguments au_direction {Conn}.

(** [PartialEq] compares the transport only. *)
Definition same_transport {Conn} `{EqDecision Conn} (a b : Authenticated Conn) : bool :=
  bool_decide (au_inner a = au_inner b).
