(* ===== verification/Handshake.v ===== *)
(** * The handshake protocol

    [subduction_core/src/handshake.rs]: [initiate], [respond] and their helpers, and
    the [Authenticated] witness of [authenticated.rs].

    The transport behind the trait [Handshake] and the lock of the nonce cache are
    the only effects. A side of the protocol is a tree of type [proc]: it sends
    bytes, receives bytes or claims a nonce, and continues with the answer. What
    answers is not part of the tree: [exec] lets a transport answer anything,
    [duplex] connects two sides by reliable channels, and [server_run] interleaves
    any number of responders over one cache. *)

From Stdlib Require Import Strings.Byte NArith ZArith Lia.
From stdpp Require Import base gmap sorting strings list relations.
From S2P Require Import Prelude.
From S2P Require Import Codec.
From S2P Require Import Types.
From S2P Require Import LooseCommit.
From S2P Require Import Fragment.
From S2P Require Import Signed.
From S2P Require Import NonceCache.
From S2P Require Import HandshakeWire.
From S2P Require Import Authenticated.

Open Scope N_scope.

(** ** Errors and results *)

Inductive HandshakeError : Type :=
| HE_InvalidSignature
| HE_ChallengeValidation (e : ChallengeValidationError)
| HE_ResponseValidation (e : ResponseValidationError).

Inductive AuthenticateError `{Bijou64} (E : Type) : Type :=
| AE_Transport (e : E)
| AE_Decode (e : DecodeError)
| AE_Handshake (e : HandshakeError)
| AE_Rejected (reason : RejectionReason) (responder_timestamp : TimestampSeconds)
| AE_UnexpectedMessage
| AE_ConnectionClosed
| AE_ReflectedChallenge
| AE_ReflectionAttack
| AE_SimultaneousOpenPeerMismatch.
Arguments AE_Transport {_ E}.
Arguments AE_Decode {_ E}.
Arguments AE_Handshake {_ E}.
Arguments AE_Rejected {_ E}.
Arguments AE_UnexpectedMessage {_ E}.
Arguments AE_ConnectionClosed {_ E}.
Arguments AE_ReflectedChallenge {_ E}.
Arguments AE_ReflectionAttack {_ E}.
Arguments AE_SimultaneousOpenPeerMismatch {_ E}.

Record VerifiedChallenge : Type := MkVerifiedChallenge {
  client_id : PeerId;
  vc_challenge : Challenge
}.

Record VerifiedResponse : Type := MkVerifiedResponse {
  server_id : PeerId;
  vr_response : Response
}.

(** ** Effects *)

Inductive proc (E A : Type) : Type :=
| Done (a : A)
| Send (bytes : list byte) (k : result E unit -> proc E A)
| Recv (k : result E (list byte) -> proc E A)
| TryClaim (peer : PeerId) (nonce : Nonce) (timestamp : TimestampSeconds)
    (k : result NonceReused unit -> proc E A).
Arguments Done {E A}.
Arguments Send {E A}.
Arguments Recv {E A}.
Arguments TryClaim {E A}.

Fixpoint proc_bind {E A B} (p : proc E A) (k : A -> proc E B) : proc E B :=
  match p with
  | Done a => k a
  | Send bytes c => Send bytes (fun r => proc_bind (c r) k)
  | Recv c => Recv (fun r => proc_bind (c r) k)
  | TryClaim peer nonce ts c => TryClaim peer nonce ts (fun r => proc_bind (c r) k)
  end.

Section protocol.
Context `{Ed25519, Blake3, Bijou64} {E : Type}.

(** A fallible asynchronous function, and [.await?]. *)
Definition hs (A : Type) : Type := proc E (result (AuthenticateError E) A).

Definition hs_bind {A B} (m : hs A) (k : A -> hs B) : hs B :=
  proc_bind m (fun r => match r with Ok a => k a | Err e => Done (Err e) end).

Notation "'let!' x := m 'in' k" := (hs_bind m (fun x => k))
  (at level 200, x name, m at level 100, k at level 200, right associativity).

Definition hs_fail {A} (e : AuthenticateError E) : hs A := Done (Err e).
Definition hs_ok {A} (a : A) : hs A := Done (Ok a).

(** A result of a synchronous function, and [?]. *)
Definition hs_try {A X} (f : X -> AuthenticateError E) (r : result X A) : hs A :=
  Done (map_err f r).

(** [handshake.send(..).await.map_err(AuthenticateError::Transport)] and [recv]. *)
Definition transport_send (bytes : list byte) : hs unit :=
  Send bytes (fun r => Done (map_err AE_Transport r)).

Definition transport_recv : hs (list byte) := Recv (fun r => Done (map_err AE_Transport r)).

(** ** Verification *)

Definition verify_challenge (signed_challenge : Signed Challenge) (expected_audience : Audience)
    (now : TimestampSeconds) (max_drift : Duration) : result HandshakeError VerifiedChallenge :=
  let? verified := map_err (fun _ => HE_InvalidSignature) (try_from_signed signed_challenge) in
  let challenge := vs_payload verified in
  let? _ := map_err HE_ChallengeValidation
              (validate_challenge challenge expected_audience now max_drift) in
  Ok (MkVerifiedChallenge (sg_issuer (vs_signed verified)) challenge).

Definition verify_response (signed_response : Signed Response) (original_challenge : Challenge) :
  result HandshakeError VerifiedResponse :=
  let? verified := map_err (fun _ => HE_InvalidSignature) (try_from_signed signed_response) in
  let response := vs_payload verified in
  let? _ := map_err HE_ResponseValidation (validate_response response original_challenge) in
  Ok (MkVerifiedResponse (sg_issuer (vs_signed verified)) response).

Definition create_challenge (signer : Signer) (audience : Audience) (now : TimestampSeconds)
    (nonce : Nonce) : Signed Challenge :=
  vs_signed (seal signer (Challenge_new audience now nonce)).

Definition create_response (signer : Signer) (challenge : Challenge) (now : TimestampSeconds) :
  Signed Response :=
  vs_signed (seal signer (for_challenge challenge now)).

(** ** The two sides *)

Definition recv_handshake_message : hs HandshakeMessage :=
  let! bytes := transport_recv in
  if bool_decide (bytes = []) then hs_fail AE_ConnectionClosed
  else hs_try AE_Decode (HandshakeMessage.try_decode bytes).

Definition recv_verified_response (original_challenge : Challenge) : hs PeerId :=
  let! msg := recv_handshake_message in
  match msg with
  | HM_SignedResponse signed_response =>
      let! verified := hs_try AE_Handshake (verify_response signed_response original_challenge) in
      hs_ok (server_id verified)
  | HM_Rejection rejection =>
      hs_fail (AE_Rejected (rj_reason rejection) (rj_server_timestamp rejection))
  | HM_SignedChallenge _ => hs_fail AE_UnexpectedMessage
  end.

Context {C X : Type} (build_connection : PeerId -> C * X).

(** The connection built by the factory; the transport is this session. *)
Definition connected (peer_id : PeerId) (direction : Direction) : Authenticated C * X :=
  let (conn, extra) := build_connection peer_id in
  (from_handshake conn peer_id direction, extra).

(** The challenge of a simultaneous open, checked for our identity first and for
    our own discovery audience otherwise. *)
Definition verify_simultaneous (their_signed_challenge : Signed Challenge) (our_peer_id : PeerId)
    (audience : Audience) (now : TimestampSeconds) : result HandshakeError VerifiedChallenge :=
  match verify_challenge their_signed_challenge (Known our_peer_id) now
          SIMULTANEOUS_OPEN_MAX_DRIFT with
  | Ok v => Ok v
  | Err (HE_ChallengeValidation CVE_InvalidAudience) =>
      match audience with
      | Discover _ => verify_challenge their_signed_challenge audience now
                        SIMULTANEOUS_OPEN_MAX_DRIFT
      | Known _ => Err (HE_ChallengeValidation CVE_InvalidAudience)
      end
  | Err e => Err e
  end.

Definition initiate (signer : Signer) (audience : Audience) (now : TimestampSeconds)
    (nonce : Nonce) : hs (Authenticated C * X) :=
  let challenge := Challenge_new audience now nonce in
  let signed_challenge := vs_signed (seal signer challenge) in
  let! _ := transport_send (HandshakeMessage.encode (HM_SignedChallenge signed_challenge)) in
  let! first_msg := recv_handshake_message in
  match first_msg with
  | HM_SignedResponse signed_response =>
      let! verified := hs_try AE_Handshake (verify_response signed_response challenge) in
      hs_ok (connected (server_id verified) Dialed)
  | HM_Rejection rejection =>
      hs_fail (AE_Rejected (rj_reason rejection) (rj_server_timestamp rejection))
  | HM_SignedChallenge their_signed_challenge =>
      if bool_decide (sg_bytes signed_challenge = sg_bytes their_signed_challenge) then
        hs_fail AE_ReflectedChallenge
      else
        let our_peer_id := verifying_key signer in
        let! their_verified := hs_try AE_Handshake
          (verify_simultaneous their_signed_challenge our_peer_id audience now) in
        if bool_decide (client_id their_verified = our_peer_id) then hs_fail AE_ReflectionAttack
        else
          let expected_peer_id := client_id their_verified in
          let their_challenge := vc_challenge their_verified in
          let we_win := negb (lex_leb (sg_bytes signed_challenge) (sg_bytes their_signed_challenge))
          in
          if we_win then
            let! peer_id := recv_verified_response challenge in
            if bool_decide (peer_id = expected_peer_id) then
              let our_response := create_response signer their_challenge now in
              let! _ := transport_send
                          (HandshakeMessage.encode (HM_SignedResponse our_response)) in
              hs_ok (connected peer_id Dialed)
            else hs_fail AE_SimultaneousOpenPeerMismatch
          else
            let our_response := create_response signer their_challenge now in
            let! _ := transport_send
                        (HandshakeMessage.encode (HM_SignedResponse our_response)) in
            let! peer_id := recv_verified_response challenge in
            if bool_decide (peer_id = expected_peer_id) then hs_ok (connected peer_id Dialed)
            else hs_fail AE_SimultaneousOpenPeerMismatch
  end.

Definition send_rejection (error : HandshakeError) (now : TimestampSeconds) : hs unit :=
  let reason := match error with
                | HE_InvalidSignature | HE_ResponseValidation _ => RR_InvalidSignature
                | HE_ChallengeValidation cv => to_rejection_reason cv
                end in
  transport_send (HandshakeMessage.encode (HM_Rejection (Rejection_new reason now))).

(** [Known] of our own identity first, the discovery audience otherwise. *)
Definition verify_for_us (signed_challenge : Signed Challenge) (our_peer_id : PeerId)
    (discovery_audience : option Audience) (now : TimestampSeconds) (max_drift : Duration) :
  result HandshakeError VerifiedChallenge :=
  match verify_challenge signed_challenge (Known our_peer_id) now max_drift with
  | Err (HE_ChallengeValidation CVE_InvalidAudience) as r =>
      match discovery_audience with
      | Some audience => verify_challenge signed_challenge audience now max_drift
      | None => r
      end
  | r => r
  end.

Definition respond (signer : Signer) (our_peer_id : PeerId) (discovery_audience : option Audience)
    (now : TimestampSeconds) (max_drift : Duration) : hs (Authenticated C * X) :=
  let! challenge_msg := recv_handshake_message in
  match challenge_msg with
  | HM_SignedChallenge signed_challenge =>
      match verify_for_us signed_challenge our_peer_id discovery_audience now max_drift with
      | Err e =>
          let! _ := send_rejection e now in
          hs_fail (AE_Handshake e)
      | Ok verified =>
          TryClaim (client_id verified) (ch_nonce (vc_challenge verified)) now (fun claim =>
            match claim with
            | Err _ =>
                let! _ := transport_send (HandshakeMessage.encode
                            (HM_Rejection (Rejection_new RR_ReplayedNonce now))) in
                hs_fail (AE_Handshake (HE_ChallengeValidation CVE_ReplayedNonce))
            | Ok _ =>
                let signed_response := create_response signer (vc_challenge verified) now in
                let! _ := transport_send
                            (HandshakeMessage.encode (HM_SignedResponse signed_response)) in
                hs_ok (connected (client_id verified) Accepted)
            end)
      end
  | _ => hs_fail AE_UnexpectedMessage
  end.
End protocol.

(** ** What a signature proves *)

Section authentic.
Context `{Ed25519, Bijou64} {T : Type} `{!Schema T, !EncodeFields T, !DecodeFields T}.
Context {encodable : T -> Prop} `{!SignedLaws T encodable}.

(** The value is signed by [key] and carries [payload]. *)
Definition authentic (s : Signed T) (key : VerifyingKey) (payload : T) : Prop :=
  sg_issuer s = key /\ sg_bytes s = signed_message key payload ++ arr_list (sg_signature s) /\
  verify_strict key (signed_message key payload) (sg_signature s) = true.

Lemma try_from_signed_wf s payload :
  signed_wf (encodable := encodable) s payload ->
  try_from_signed s =
    if verify_strict (sg_issuer s) (signed_message (sg_issuer s) payload) (sg_signature s)
    then Ok (VerifiedSignature_from_parts s payload) else Err VE_InvalidSignature.
Proof using SignedLaws0.
  intros Hw. unfold try_from_signed. rewrite (wf_payload_bytes _ _ Hw).
  destruct (verify_strict _ _ _); [|done]. cbn [negb guard_err rbind].
  by rewrite (wf_decode_fields _ _ Hw).
Qed.

Lemma try_from_signed_inv s payload v :
  signed_wf (encodable := encodable) s payload -> try_from_signed s = Ok v ->
  v = VerifiedSignature_from_parts s payload /\ authentic s (sg_issuer s) payload.
Proof using SignedLaws0.
  intros Hw. rewrite (try_from_signed_wf _ _ Hw).
  destruct (verify_strict _ _ _) eqn:E; [|done]. intros [= <-]. split; [done|].
  split; [done|]. split; [apply Hw|done].
Qed.

Lemma seal_verifies signer `{!HonestSigner signer} payload :
  encodable payload ->
  try_from_signed (vs_signed (seal signer payload)) =
    Ok (VerifiedSignature_from_parts (vs_signed (seal signer payload)) payload).
Proof using SignedLaws0.
  intros Hp. rewrite (try_from_signed_wf _ payload) by by apply seal_wf.
  rewrite seal_message. change (sg_issuer _) with (verifying_key signer).
  by rewrite signer_verifies.
Qed.
End authentic.

Section verify.
Context `{Ed25519, Blake3, Bijou64}.

Lemma verify_challenge_ok s c aud now drift v :
  signed_wf (encodable := ChallengeCodec.encodable) s c ->
  verify_challenge s aud now drift = Ok v ->
  v = MkVerifiedChallenge (sg_issuer s) c /\ authentic s (sg_issuer s) c /\
  ch_audience c = aud /\ is_fresh c now drift = true.
Proof.
  intros Hw. unfold verify_challenge. intros Hv. inv_ok.
  match goal with H : try_from_signed _ = Ok _ |- _ =>
    apply (try_from_signed_inv _ _ _ Hw) in H as [-> Ha] end.
  cbn [vs_payload vs_signed] in *. unfold validate_challenge in *. inv_ok.
  repeat match goal with H : negb _ = false |- _ => apply negb_false_iff in H end.
  match goal with H : bool_decide _ = true |- _ => apply bool_decide_eq_true in H end.
  done.
Qed.

Lemma verify_response_ok s r c v :
  signed_wf (encodable := ResponseCodec.encodable) s r ->
  verify_response s c = Ok v ->
  v = MkVerifiedResponse (sg_issuer s) r /\ authentic s (sg_issuer s) r /\
  rs_challenge_digest r = Digest_hash c.
Proof.
  intros Hw. unfold verify_response. intros Hv. inv_ok.
  match goal with H : try_from_signed _ = Ok _ |- _ =>
    apply (try_from_signed_inv _ _ _ Hw) in H as [-> Ha] end.
  cbn [vs_payload vs_signed] in *. unfold validate_response in *. inv_ok.
  match goal with H : negb _ = false |- _ => apply negb_false_iff, bool_decide_eq_true in H end.
  done.
Qed.

Context (signer : Signer) `{!HonestSigner signer}.

Lemma verify_challenge_seal c aud now drift :
  ch_timestamp c <= u64_max ->
  verify_challenge (vs_signed (seal signer c)) aud now drift =
    (let? _ := map_err HE_ChallengeValidation (validate_challenge c aud now drift) in
     Ok (MkVerifiedChallenge (verifying_key signer) c)).
Proof.
  intros Hc. unfold verify_challenge.
  by rewrite (seal_verifies (encodable := ChallengeCodec.encodable) signer c Hc).
Qed.

Lemma verify_response_seal c now :
  now <= u64_max ->
  verify_response (create_response signer c now) c =
    Ok (MkVerifiedResponse (verifying_key signer) (for_challenge c now)).
Proof.
  intros Hn. unfold verify_response, create_response.
  rewrite (seal_verifies (encodable := ResponseCodec.encodable) signer (for_challenge c now) Hn).
  cbn [map_err rbind vs_payload vs_signed]. unfold validate_response.
  by rewrite bool_decide_true.
Qed.
End verify.

(** The signed bytes determine the nonce. *)
Lemma signed_message_nonce `{Bijou64} key (c c' : Challenge) :
  signed_message key c = signed_message key c' -> ch_nonce c = ch_nonce c'.
Proof.
  unfold signed_message. intros Hm. do 3 apply app_inv_head in Hm. cbn [encode_fields] in Hm.
  change (ChallengeCodec.encode_fields c [] = ChallengeCodec.encode_fields c' []) in Hm.
  rewrite !ChallengeCodec.challenge_encode_wire in Hm. unfold ChallengeCodec.wire in Hm.
  rewrite !app_assoc in Hm. apply app_inj_2 in Hm as [_ Hn]; [|by rewrite !length_array].
  by apply array_eq.
Qed.

(** ** Answers of any transport *)

Inductive io_event (E : Type) : Type :=
| IoSend (bytes : list byte) (r : result E unit)
| IoRecv (r : result E (list byte))
| IoClaim (peer : PeerId) (nonce : Nonce) (timestamp : TimestampSeconds)
    (r : result NonceReused unit).
Arguments IoSend {E}.
Arguments IoRecv {E}.
Arguments IoClaim {E}.

Inductive proc_step {E A} : proc E A -> io_event E -> proc E A -> Prop :=
| step_send bytes k r : proc_step (Send bytes k) (IoSend bytes r) (k r)
| step_recv k r : proc_step (Recv k) (IoRecv r) (k r)
| step_claim peer nonce ts k r :
    proc_step (TryClaim peer nonce ts k) (IoClaim peer nonce ts r) (k r).

Inductive exec {E A} : proc E A -> list (io_event E) -> proc E A -> Prop :=
| exec_refl p : exec p [] p
| exec_step p e p' tr q : proc_step p e p' -> exec p' tr q -> exec p (e :: tr) q.

Lemma exec_snoc {E A} (p p' q : proc E A) tr e :
  exec p tr p' -> proc_step p' e q -> exec p (tr ++ [e]) q.
Proof.
  induction 1; intros Hs; [by repeat econstructor|]. econstructor; [done|auto].
Qed.

Lemma exec_done {E A} (a : A) tr (q : proc E A) : exec (Done a) tr q -> tr = [] /\ q = Done a.
Proof. inversion 1 as [|? ? ? ? ? Hs]; subst; [done|inversion Hs]. Qed.

Lemma exec_inv {E A} (p q : proc E A) tr :
  exec p tr q ->
  match p with
  | Done _ => tr = [] /\ q = p
  | Send bytes k => (tr = [] /\ q = p) \/
      exists r tr', tr = IoSend bytes r :: tr' /\ exec (k r) tr' q
  | Recv k => (tr = [] /\ q = p) \/ exists r tr', tr = IoRecv r :: tr' /\ exec (k r) tr' q
  | TryClaim peer nonce ts k => (tr = [] /\ q = p) \/
      exists r tr', tr = IoClaim peer nonce ts r :: tr' /\ exec (k r) tr' q
  end.
Proof.
  inversion 1 as [|? ? ? tr' ? Hs He]; subst; [destruct q; auto|].
  inversion Hs; subst; right; by eexists _, _.
Qed.

Section exec.
Context `{Ed25519, Blake3, Bijou64} {E : Type}.

(** A run of a sequence that succeeds is a run of each part that does. *)
Lemma exec_bind {A B} (m : hs (E := E) A) (k : A -> hs B) tr b :
  exec (hs_bind m k) tr (Done (Ok b)) ->
  exists tr1 tr2 a, tr = tr1 ++ tr2 /\ exec m tr1 (Done (Ok a)) /\ exec (k a) tr2 (Done (Ok b)).
Proof.
  revert tr. induction m as [[a|e]|bytes c IH|c IH|peer nonce ts c IH]; intros tr He.
  - exists [], tr, a. split; [done|]. split; [constructor|done].
  - by apply exec_done in He as [_ ?].
  - apply exec_inv in He as [[_ ?]|(r & tr' & -> & He)]; [done|].
    destruct (IH r tr' He) as (tr1 & tr2 & a & -> & He1 & He2).
    exists (IoSend bytes r :: tr1), tr2, a. split; [done|]. split; [by repeat econstructor|done].
  - apply exec_inv in He as [[_ ?]|(r & tr' & -> & He)]; [done|].
    destruct (IH r tr' He) as (tr1 & tr2 & a & -> & He1 & He2).
    exists (IoRecv r :: tr1), tr2, a. split; [done|]. split; [by repeat econstructor|done].
  - apply exec_inv in He as [[_ ?]|(r & tr' & -> & He)]; [done|].
    destruct (IH r tr' He) as (tr1 & tr2 & a & -> & He1 & He2).
    exists (IoClaim peer nonce ts r :: tr1), tr2, a.
    split; [done|]. split; [by repeat econstructor|done].
Qed.

Lemma exec_try {A X} (f : X -> AuthenticateError E) (r : result X A) tr a :
  exec (hs_try f r) tr (Done (Ok a)) -> tr = [] /\ r = Ok a.
Proof. intros [-> Hr]%exec_done. split; [done|]. by destruct r; simplify_eq/=. Qed.

Lemma exec_fail {B} (e : AuthenticateError E) tr (b : B) :
  ~ exec (hs_fail e) tr (Done (Ok b)).
Proof. by intros [_ ?]%exec_done. Qed.

Lemma exec_ok {B} (b' : B) tr (b : B) :
  exec (hs_ok (E := E) b') tr (Done (Ok b)) -> tr = [] /\ b' = b.
Proof. intros [-> [= ->]]%exec_done. done. Qed.

Lemma exec_send bytes tr u :
  exec (transport_send bytes) tr (Done (Ok u)) -> tr = [IoSend (E := E) bytes (Ok tt)].
Proof.
  intros [[_ ?]|(r & tr' & -> & [-> Hr]%exec_done)]%exec_inv; [done|].
  by destruct r as [[]|]; simplify_eq/=.
Qed.

Lemma exec_recv tr m :
  exec recv_handshake_message tr (Done (Ok m)) ->
  exists bytes, tr = [IoRecv (E := E) (Ok bytes)] /\ HandshakeMessage.try_decode bytes = Ok m.
Proof.
  intros (tr1 & tr2 & bytes & -> & He1 & He2)%exec_bind.
  apply exec_inv in He1 as [[_ ?]|(r & tr' & -> & [-> Hr]%exec_done)]; [done|].
  destruct (bool_decide (bytes = [])); [by apply exec_fail in He2|].
  apply exec_try in He2 as [-> Hd]. exists bytes. by destruct r; simplify_eq/=.
Qed.

Lemma exec_recv_verified c tr peer :
  exec (recv_verified_response c) tr (Done (Ok peer)) ->
  exists bytes s r, tr = [IoRecv (E := E) (Ok bytes)] /\
    HandshakeMessage.try_decode bytes = Ok (HM_SignedResponse s) /\
    authentic s peer r /\ rs_challenge_digest r = Digest_hash c.
Proof.
  intros (tr1 & tr2 & m & -> & (bytes & -> & Hd)%exec_recv & He2)%exec_bind.
  destruct m as [s|s|rej]; [by apply exec_fail in He2| |by apply exec_fail in He2].
  apply exec_bind in He2 as (tr3 & tr4 & v & -> & [-> Hv]%exec_try & [-> <-]%exec_ok).
  destruct (try_decode_inv _ _ Hd) as [r Hw].
  destruct (verify_response_ok _ _ _ _ Hw Hv) as (-> & Ha & Hc). by exists bytes, s, r.
Qed.
End exec.

(** ** What a completed session proves *)

Section sound.
Context `{Ed25519, Blake3, Bijou64} {E C X : Type} (build_connection : PeerId -> C * X).

Lemma verify_for_us_ok s c us disc now drift v :
  signed_wf (encodable := ChallengeCodec.encodable) s c ->
  verify_for_us s us disc now drift = Ok v ->
  v = MkVerifiedChallenge (sg_issuer s) c /\ authentic s (sg_issuer s) c /\
  (ch_audience c = Known us \/ Some (ch_audience c) = disc) /\ is_fresh c now drift = true.
Proof.
  intros Hw. unfold verify_for_us.
  destruct (verify_challenge s (Known us) now drift) as [v'|[|[| |]|]] eqn:E1; try done.
  - intros [= ->]. destruct (verify_challenge_ok _ _ _ _ _ _ Hw E1) as (-> & ? & ? & ?). auto.
  - destruct disc as [aud|]; [|done]. intros E2.
    destruct (verify_challenge_ok _ _ _ _ _ _ Hw E2) as (-> & ? & <- & ?). auto.
Qed.

(** The whole run of a responder that accepts. *)
Definition accepting_run (signer : Signer) (us : PeerId) (disc : option Audience)
    (now : TimestampSeconds) (drift : Duration) (peer : PeerId) (bytes : list byte) (c : Challenge)
    (tr : list (io_event E)) : Prop :=
  tr = [IoRecv (Ok bytes); IoClaim peer (ch_nonce c) now (Ok tt);
        IoSend (sg_bytes (create_response signer c now)) (Ok tt)] /\
  (exists s, HandshakeMessage.try_decode bytes = Ok (HM_SignedChallenge s) /\ authentic s peer c) /\
  (ch_audience c = Known us \/ Some (ch_audience c) = disc) /\
  abs_diff (ch_timestamp c) now <= drift.

Lemma respond_sound signer us disc now drift tr auth extra :
  exec (respond build_connection signer us disc now drift) tr (Done (Ok (auth, extra))) ->
  exists bytes c,
    accepting_run signer us disc now drift (au_peer_id auth) bytes c tr /\
    (auth, extra) = connected build_connection (au_peer_id auth) Accepted.
Proof.
  intros (tr1 & tr2 & m & -> & (bytes & -> & Hd)%exec_recv & Hrun)%exec_bind.
  destruct m as [s|s|rej]; [|by apply exec_fail in Hrun..].
  destruct (try_decode_inv _ _ Hd) as [c Hw].
  destruct (verify_for_us s us disc now drift) as [v|e] eqn:Ev;
    [|apply exec_bind in Hrun as (? & ? & ? & _ & _ & Hf); by apply exec_fail in Hf].
  destruct (verify_for_us_ok _ _ _ _ _ _ _ Hw Ev) as (-> & Ha & Haud & Hfresh).
  apply exec_inv in Hrun as [[_ ?]|(r & tr3 & -> & Hrun)]; [done|].
  destruct r as [[]|e];
    [|apply exec_bind in Hrun as (? & ? & ? & _ & _ & Hf); by apply exec_fail in Hf].
  apply exec_bind in Hrun as (tr4 & tr5 & u & -> & ->%exec_send & [-> Hok]%exec_ok).
  assert (Hp : au_peer_id auth = sg_issuer s)
    by (unfold connected in Hok; destruct (build_connection _); by simplify_eq/=).
  exists bytes, c. rewrite Hp. split; [|done]. split_and!; [done| |done|by apply N.leb_le].
  by exists s.
Qed.

(** The runs of an initiator that succeed: the responder's answer to our challenge, or
    a simultaneous open, in which the peer has proved both its own challenge and its
    answer to ours, and is not us. *)
Definition answered (challenge : Challenge) (peer : PeerId) (bytes : list byte) : Prop :=
  exists s r, HandshakeMessage.try_decode bytes = Ok (HM_SignedResponse s) /\
    authentic s peer r /\ rs_challenge_digest r = Digest_hash challenge.

Definition challenged (audience : Audience) (us : PeerId) (now : TimestampSeconds) (peer : PeerId)
    (bytes : list byte) (c : Challenge) : Prop :=
  exists s, HandshakeMessage.try_decode bytes = Ok (HM_SignedChallenge s) /\
    authentic s peer c /\ peer <> us /\
    (ch_audience c = Known us \/ (ch_audience c = audience /\ exists id, audience = Discover id)) /\
    abs_diff (ch_timestamp c) now <= SIMULTANEOUS_OPEN_MAX_DRIFT.

Inductive dialing_run (signer : Signer) (audience : Audience) (now : TimestampSeconds)
    (nonce : Nonce) (peer : PeerId) : list (io_event E) -> Prop :=
| dial_answered bytes :
    let challenge := Challenge_new audience now nonce in
    answered challenge peer bytes ->
    dialing_run signer audience now nonce peer
      [IoSend (sg_bytes (create_challenge signer audience now nonce)) (Ok tt); IoRecv (Ok bytes)]
| dial_won bytes1 bytes2 theirs :
    let challenge := Challenge_new audience now nonce in
    challenged audience (verifying_key signer) now peer bytes1 theirs ->
    answered challenge peer bytes2 ->
    dialing_run signer audience now nonce peer
      [IoSend (sg_bytes (create_challenge signer audience now nonce)) (Ok tt);
       IoRecv (Ok bytes1); IoRecv (Ok bytes2);
       IoSend (sg_bytes (create_response signer theirs now)) (Ok tt)]
| dial_lost bytes1 bytes2 theirs :
    let challenge := Challenge_new audience now nonce in
    challenged audience (verifying_key signer) now peer bytes1 theirs ->
    answered challenge peer bytes2 ->
    dialing_run signer audience now nonce peer
      [IoSend (sg_bytes (create_challenge signer audience now nonce)) (Ok tt);
       IoRecv (Ok bytes1); IoSend (sg_bytes (create_response signer theirs now)) (Ok tt);
       IoRecv (Ok bytes2)].

Lemma verify_simultaneous_ok s c us audience now v :
  signed_wf (encodable := ChallengeCodec.encodable) s c ->
  verify_simultaneous s us audience now = Ok v ->
  v = MkVerifiedChallenge (sg_issuer s) c /\ authentic s (sg_issuer s) c /\
  (ch_audience c = Known us \/ (ch_audience c = audience /\ exists id, audience = Discover id)) /\
  abs_diff (ch_timestamp c) now <= SIMULTANEOUS_OPEN_MAX_DRIFT.
Proof.
  intros Hw. unfold verify_simultaneous.
  destruct (verify_challenge s (Known us) now _) as [v'|[|[| |]|]] eqn:E1; try done.
  - intros [= ->]. destruct (verify_challenge_ok _ _ _ _ _ _ Hw E1) as (-> & ? & ? & ?%N.leb_le).
    auto.
  - destruct audience as [id|id] eqn:Ea; [done|]. intros E2.
    destruct (verify_challenge_ok _ _ _ _ _ _ Hw E2) as (-> & ? & ? & ?%N.leb_le).
    split_and!; eauto.
Qed.

Lemma initiate_sound signer audience now nonce tr auth extra :
  exec (initiate build_connection signer audience now nonce) tr (Done (Ok (auth, extra))) ->
  dialing_run signer audience now nonce (au_peer_id auth) tr /\
  (auth, extra) = connected build_connection (au_peer_id auth) Dialed.
Proof.
  assert (Hconn : forall p, connected build_connection p Dialed = (auth, extra) ->
                  p = au_peer_id auth)
    by (intros p; unfold connected; destruct (build_connection p); by intros [= <- _]).
  intros (tr0 & tr1 & u & -> & ->%exec_send & Hrun)%exec_bind.
  apply exec_bind in Hrun as (tr2 & tr3 & m & -> & (bytes & -> & Hd)%exec_recv & Hrun).
  destruct m as [s|s|rej]; [| |by apply exec_fail in Hrun].
  - destruct (bool_decide _); [by apply exec_fail in Hrun|].
    apply exec_bind in Hrun as (tr4 & tr5 & v & -> & [-> Hv]%exec_try & Hrun).
    destruct (try_decode_inv _ _ Hd) as [c Hw].
    destruct (verify_simultaneous_ok _ _ _ _ _ _ Hw Hv) as (-> & Ha & Haud & Hfresh).
    cbn [client_id vc_challenge] in Hrun.
    destruct (bool_decide_reflect (sg_issuer s = verifying_key signer)) as [|Hne];
      [by apply exec_fail in Hrun|].
    assert (Hch : challenged audience (verifying_key signer) now (sg_issuer s) bytes c)
      by (exists s; done).
    destruct (lex_leb _ _); cbn [negb] in Hrun.
    + apply exec_bind in Hrun as (tr6 & tr7 & u' & -> & ->%exec_send & Hrun).
      apply exec_bind in Hrun
        as (tr8 & tr9 & p & -> & (bytes2 & s2 & r2 & -> & ? & ? & ?)%exec_recv_verified & Hrun).
      destruct (bool_decide_reflect (p = sg_issuer s)) as [->|]; [|by apply exec_fail in Hrun].
      apply exec_ok in Hrun as [-> Hc]. rewrite <- (Hconn _ Hc). split; [|done].
      eapply dial_lost; [done|]. by exists s2, r2.
    + apply exec_bind in Hrun
        as (tr8 & tr9 & p & -> & (bytes2 & s2 & r2 & -> & ? & ? & ?)%exec_recv_verified & Hrun).
      destruct (bool_decide_reflect (p = sg_issuer s)) as [->|]; [|by apply exec_fail in Hrun].
      apply exec_bind in Hrun as (tr6 & tr7 & u' & -> & ->%exec_send & Hrun).
      apply exec_ok in Hrun as [-> Hc]. rewrite <- (Hconn _ Hc). split; [|done].
      eapply dial_won; [done|]. by exists s2, r2.
  - apply exec_bind in Hrun as (tr4 & tr5 & v & -> & [-> Hv]%exec_try & [-> Hc]%exec_ok).
    destruct (try_decode_inv _ _ Hd) as [r Hw].
    destruct (verify_response_ok _ _ _ _ Hw Hv) as (-> & Ha & Hr).
    cbn [server_id] in Hc. rewrite <- (Hconn _ Hc). split; [|done].
    apply dial_answered. by exists s, r.
Qed.
End sound.

(** ** Two sides over reliable channels

    Each side has its inbox and its own nonce cache. *)

Record side (E A : Type) : Type := MkSide {
  sd_proc : proc E A;
  sd_inbox : list (list byte);
  sd_cache : NonceCache
}.
Arguments MkSide {E A}.
Arguments sd_proc {E A}.
Arguments sd_inbox {E A}.
Arguments sd_cache {E A}.

(** A step of one side, with what it sends. *)
Inductive side_step {E A} : side E A -> option (list byte) -> side E A -> Prop :=
| side_send bytes k inbox cache :
    side_step (MkSide (Send bytes k) inbox cache) (Some bytes) (MkSide (k (Ok tt)) inbox cache)
| side_recv bytes k inbox cache :
    side_step (MkSide (Recv k) (bytes :: inbox) cache) None (MkSide (k (Ok bytes)) inbox cache)
| side_claim peer nonce ts k inbox cache r cache' :
    try_claim cache peer nonce ts = Some (r, cache') ->
    side_step (MkSide (TryClaim peer nonce ts k) inbox cache) None (MkSide (k r) inbox cache').

Definition deliver {E A} (out : option (list byte)) (s : side E A) : side E A :=
  match out with
  | Some bytes => MkSide (sd_proc s) (sd_inbox s ++ [bytes]) (sd_cache s)
  | None => s
  end.

Inductive duplex_step {E A B} : side E A * side E B -> side E A * side E B -> Prop :=
| duplex_left l out l' r : side_step l out l' -> duplex_step (l, r) (l', deliver out r)
| duplex_right l r out r' : side_step r out r' -> duplex_step (l, r) (deliver out l, r').

Section duplex.
Context {E A B : Type}.

Lemma side_step_det {T} (s : side E T) o1 s1 o2 s2 :
  side_step s o1 s1 -> side_step s o2 s2 -> o1 = o2 /\ s1 = s2.
Proof. inversion 1; subst; inversion 1; subst; by simplify_eq. Qed.

Lemma side_step_deliver {T} (s : side E T) o s' out :
  side_step s o s' -> side_step (deliver out s) o (deliver out s').
Proof. destruct out; [|done]. inversion 1; subst; by constructor. Qed.

(** Steps of the two sides commute, steps of one side are deterministic. *)
Lemma duplex_diamond (s s1 s2 : side E A * side E B) :
  duplex_step s s1 -> duplex_step s s2 -> s1 = s2 \/ exists s3, duplex_step s1 s3 /\ duplex_step s2 s3.
Proof.
  inversion 1 as [l o1 l1 r Hl|l r o1 r1 Hr]; subst; inversion 1 as [? o2 l2 ? Hl2|? ? o2 r2 Hr2]; subst.
  - destruct (side_step_det _ _ _ _ _ Hl Hl2) as [-> ->]. by left.
  - right. exists (deliver o2 l1, deliver o1 r2). split; constructor; by apply side_step_deliver.
  - right. exists (deliver o1 l2, deliver o2 r1). split; constructor; by apply side_step_deliver.
  - destruct (side_step_det _ _ _ _ _ Hr Hr2) as [-> ->]. by left.
Qed.

(** So if one run reaches a final state, every run is a part of one of the same length
    that reaches it. *)
Lemma duplex_converge n (s t : side E A * side E B) :
  nsteps duplex_step n s t -> nf duplex_step t ->
  forall m u, nsteps duplex_step m s u -> (m <= n)%nat /\ nsteps duplex_step (n - m) u t.
Proof.
  intros Hn Ht. revert s Hn. induction n as [|n IH]; intros s Hn m u Hm.
  - inversion Hn; subst. inversion Hm as [|? ? ? ? Hs]; subst; [by split; [|constructor]|].
    destruct Ht. by eexists.
  - inversion Hn as [|? ? s1 ? Hs1 Hrest]; subst.
    inversion Hm as [|m' ? s2 ? Hs2 Hm']; subst; [split; [lia|by rewrite Nat.sub_0_r]|].
    assert (Hs2t : nsteps duplex_step n s2 t).
    { destruct (duplex_diamond _ _ _ Hs1 Hs2) as [<-|(s3 & H13 & H23)]; [done|].
      destruct (IH s1 Hrest 1%nat s3) as [Hle H3]; [by repeat econstructor|].
      replace n with (S (n - 1)) by lia. by econstructor. }
    destruct (IH s2 Hs2t m' u Hm') as [? ?]. split; [lia|done].
Qed.

Lemma duplex_final (a : A) (b : B) inl inr cl cr :
  nf duplex_step (MkSide (E := E) (Done a) inl cl, MkSide (Done b) inr cr).
Proof. intros [s Hs]. inversion Hs as [? ? ? ? Hl|? ? ? ? Hr]; subst; [inversion Hl|inversion Hr]. Qed.
End duplex.

Section steps.
Context `{Ed25519, Blake3, Bijou64} {E : Type}.

Lemma side_step_send {A} bytes (k : unit -> hs (E := E) A) inbox cache :
  side_step (MkSide (hs_bind (transport_send bytes) k) inbox cache) (Some bytes)
    (MkSide (k tt) inbox cache).
Proof. exact (side_send bytes _ inbox cache). Qed.

Lemma encode_nonempty m : message_ok m -> HandshakeMessage.encode m <> [].
Proof. intros [body ->]%encode_header. done. Qed.

Lemma side_step_recv {A} m (k : HandshakeMessage -> hs (E := E) A) inbox cache :
  message_ok m ->
  side_step (MkSide (hs_bind recv_handshake_message k) (HandshakeMessage.encode m :: inbox) cache)
    None (MkSide (k m) inbox cache).
Proof.
  intros Hm. unfold recv_handshake_message, transport_recv, hs_bind. cbn [proc_bind].
  match goal with |- side_step (MkSide (Recv ?c) _ _) _ _ =>
    assert (Hk : c (Ok (HandshakeMessage.encode m)) = k m) end.
  { cbn [map_err proc_bind]. rewrite bool_decide_false by by apply encode_nonempty.
    pose proof (try_decode_at m [] Hm) as Hd. rewrite app_nil_r in Hd.
    unfold hs_try. rewrite Hd. reflexivity. }
  rewrite <- Hk. constructor.
Qed.

Lemma side_step_recv_verified {A} signer `{!HonestSigner signer} c now
    (k : PeerId -> hs (E := E) A) inbox cache :
  now <= u64_max ->
  side_step (MkSide (hs_bind (recv_verified_response c) k)
               (HandshakeMessage.encode (HM_SignedResponse (create_response signer c now)) :: inbox)
               cache)
    None (MkSide (k (verifying_key signer)) inbox cache).
Proof.
  intros Hn.
  assert (Hm : message_ok (HM_SignedResponse (create_response signer c now))).
  { exists (for_challenge c now). unfold create_response.
    by apply (seal_wf (encodable := ResponseCodec.encodable)). }
  pose proof (verify_response_seal signer c now Hn) as Hv.
  unfold recv_verified_response, recv_handshake_message, transport_recv, hs_bind.
  cbn [proc_bind].
  match goal with |- side_step (MkSide (Recv ?f) (?b :: _) _) _ _ =>
    assert (Hk : f (Ok b) = k (verifying_key signer)) end.
  { cbn [map_err proc_bind]. rewrite bool_decide_false by by apply encode_nonempty.
    pose proof (try_decode_at _ [] Hm) as Hd. rewrite app_nil_r in Hd.
    unfold hs_try. rewrite Hd. cbn [map_err proc_bind]. rewrite Hv. reflexivity. }
  rewrite <- Hk. constructor.
Qed.
End steps.

(** ** Honest sides complete *)

Section complete.
Context `{Ed25519, Blake3, Bijou64} {E C X D Y : Type}.
Context (signer_a signer_b : Signer) `{!HonestSigner signer_a, !HonestSigner signer_b}.
Context (build_a : PeerId -> C * X) (build_b : PeerId -> D * Y).

Notation key_a := (verifying_key signer_a).
Notation key_b := (verifying_key signer_b).

Lemma challenge_message_ok signer `{!HonestSigner signer} c :
  ch_timestamp c <= u64_max -> message_ok (HM_SignedChallenge (vs_signed (seal signer c))).
Proof. intros Hc. exists c. by apply (seal_wf (encodable := ChallengeCodec.encodable)). Qed.

Lemma response_message_ok signer `{!HonestSigner signer} c now :
  now <= u64_max -> message_ok (HM_SignedResponse (create_response signer c now)).
Proof.
  intros Hc. exists (for_challenge c now). by apply (seal_wf (encodable := ResponseCodec.encodable)).
Qed.

Lemma validate_fresh c aud now drift :
  abs_diff (ch_timestamp c) now <= drift ->
  validate_challenge c aud now drift =
    if bool_decide (ch_audience c = aud) then Ok tt else Err CVE_InvalidAudience.
Proof.
  intros Hf. unfold validate_challenge, is_fresh. rewrite (proj2 (N.leb_le _ _) Hf).
  by destruct (bool_decide _).
Qed.

Lemma verify_for_us_seal signer `{!HonestSigner signer} c us disc now drift :
  ch_timestamp c <= u64_max -> abs_diff (ch_timestamp c) now <= drift ->
  ch_audience c = Known us \/ disc = Some (ch_audience c) ->
  verify_for_us (vs_signed (seal signer c)) us disc now drift =
    Ok (MkVerifiedChallenge (verifying_key signer) c).
Proof.
  intros Ht Hf Haud. unfold verify_for_us. rewrite !verify_challenge_seal by done.
  rewrite !validate_fresh by done. destruct (bool_decide_reflect (ch_audience c = Known us)); [done|].
  destruct Haud as [? | ->]; [done|]. cbn [map_err rbind].
  rewrite verify_challenge_seal, validate_fresh by done. by rewrite bool_decide_true.
Qed.

Context (now_a now_b : TimestampSeconds) (cache_a cache_b cache_b' : NonceCache).

Lemma handshake_run aud nonce disc drift :
  now_a <= u64_max -> now_b <= u64_max -> abs_diff now_a now_b <= drift ->
  aud = Known key_b \/ disc = Some aud ->
  try_claim cache_b key_a nonce now_b = Some (Ok tt, cache_b') ->
  nsteps (duplex_step (E := E)) 5
    (MkSide (initiate build_a signer_a aud now_a nonce) [] cache_a,
     MkSide (respond build_b signer_b key_b disc now_b drift) [] cache_b)
    (MkSide (Done (Ok (connected build_a key_b Dialed))) [] cache_a,
     MkSide (Done (Ok (connected build_b key_a Accepted))) [] cache_b').
Proof.
  intros Ha Hb Hdrift Haud Hclaim. set (c := Challenge_new aud now_a nonce).
  pose proof (challenge_message_ok signer_a c Ha) as Hmc.
  pose proof (response_message_ok signer_b c now_b Hb) as Hmr.
  pose proof (verify_for_us_seal signer_a c key_b disc now_b drift Ha Hdrift Haud) as Hv.
  pose proof (verify_response_seal signer_b c now_b Hb) as Hvr.
  subst c. eapply nsteps_l; [apply duplex_left, side_step_send|].
  eapply nsteps_l; [apply duplex_right, side_step_recv; exact Hmc|]. cbn [deliver].
  rewrite Hv. cbn [client_id vc_challenge].
  eapply nsteps_l; [apply duplex_right, side_claim; exact Hclaim|]. cbn [deliver].
  eapply nsteps_l; [apply duplex_right, side_step_send|].
  eapply nsteps_l; [apply duplex_left, side_step_recv; exact Hmr|]. cbn [deliver].
  rewrite Hvr. constructor.
Qed.

(** The winner of a simultaneous open waits for the answer, the loser sends it first. *)
Lemma verify_simultaneous_seal signer `{!HonestSigner signer} c us audience now :
  ch_timestamp c <= u64_max -> abs_diff (ch_timestamp c) now <= SIMULTANEOUS_OPEN_MAX_DRIFT ->
  ch_audience c = Known us \/ (ch_audience c = audience /\ exists id, audience = Discover id) ->
  verify_simultaneous (vs_signed (seal signer c)) us audience now =
    Ok (MkVerifiedChallenge (verifying_key signer) c).
Proof.
  intros Ht Hf Haud. unfold verify_simultaneous. rewrite !verify_challenge_seal by done.
  rewrite !validate_fresh by done. destruct (bool_decide_reflect (ch_audience c = Known us)); [done|].
  destruct Haud as [? | [<- [id Hid]]]; [done|]. cbn [map_err rbind]. rewrite Hid.
  rewrite bool_decide_true by done. done.
Qed.

(** Sealed challenges of different signers differ. *)
Lemma seal_bytes_ne c_a c_b :
  ch_timestamp c_a <= u64_max -> ch_timestamp c_b <= u64_max -> key_a <> key_b ->
  sg_bytes (vs_signed (seal signer_a c_a)) <> sg_bytes (vs_signed (seal signer_b c_b)).
Proof.
  intros Ha Hb Hne.
  pose proof (seal_wf (encodable := ChallengeCodec.encodable) signer_a c_a Ha) as [Ea _ _].
  pose proof (seal_wf (encodable := ChallengeCodec.encodable) signer_b c_b Hb) as [Eb _ _].
  rewrite Ea, Eb. unfold signed_message. rewrite <- !app_assoc.
  intros [_ Hr]%app_inj_1; [|by rewrite !length_array].
  apply app_inj_1 in Hr as [_ Hr]; [|done].
  apply app_inj_1 in Hr as [Hi _]; [|by rewrite !length_array].
  by apply Hne, array_eq.
Qed.

(** Who may open a connection at the same time: both address the other, or both use
    the same discovery audience. *)
Definition mutual (aud_a aud_b : Audience) : Prop :=
  (aud_a = Known key_b /\ aud_b = Known key_a) \/ (aud_a = aud_b /\ exists id, aud_a = Discover id).

Lemma simultaneous_run aud_a aud_b nonce_a nonce_b :
  now_a <= u64_max -> now_b <= u64_max -> key_a <> key_b -> mutual aud_a aud_b ->
  abs_diff now_a now_b <= SIMULTANEOUS_OPEN_MAX_DRIFT ->
  abs_diff now_b now_a <= SIMULTANEOUS_OPEN_MAX_DRIFT ->
  lex_leb (sg_bytes (create_challenge signer_a aud_a now_a nonce_a))
          (sg_bytes (create_challenge signer_b aud_b now_b nonce_b)) = false ->
  nsteps (duplex_step (E := E)) 8
    (MkSide (initiate build_a signer_a aud_a now_a nonce_a) [] cache_a,
     MkSide (initiate build_b signer_b aud_b now_b nonce_b) [] cache_b)
    (MkSide (Done (Ok (connected build_a key_b Dialed))) [] cache_a,
     MkSide (Done (Ok (connected build_b key_a Dialed))) [] cache_b).
Proof.
  intros Ha Hb Hne Hm Hd1 Hd2 Hwin.
  set (c_a := Challenge_new aud_a now_a nonce_a). set (c_b := Challenge_new aud_b now_b nonce_b).
  pose proof (challenge_message_ok signer_a c_a Ha) as Hma.
  pose proof (challenge_message_ok signer_b c_b Hb) as Hmb.
  pose proof (seal_bytes_ne c_a c_b Ha Hb Hne) as Hbytes.
  assert (Hlose : lex_leb (sg_bytes (vs_signed (seal signer_b c_b)))
                          (sg_bytes (vs_signed (seal signer_a c_a))) = true).
  { destruct (ord_le_total (sg_bytes (vs_signed (seal signer_b c_b)))
                (sg_bytes (vs_signed (seal signer_a c_a)))); [done|].
    unfold create_challenge in Hwin. fold c_a c_b in Hwin. congruence. }
  assert (Hva : verify_simultaneous (vs_signed (seal signer_b c_b)) key_a aud_a now_a =
                Ok (MkVerifiedChallenge key_b c_b))
    by (apply verify_simultaneous_seal; [done..|unfold mutual in Hm; cbn; naive_solver]).
  assert (Hvb : verify_simultaneous (vs_signed (seal signer_a c_a)) key_b aud_b now_b =
                Ok (MkVerifiedChallenge key_a c_a))
    by (apply verify_simultaneous_seal; [done..|unfold mutual in Hm; cbn; naive_solver]).
  unfold create_challenge in Hwin. subst c_a c_b.
  eapply nsteps_l; [apply duplex_left, side_step_send|].
  eapply nsteps_l; [apply duplex_right, side_step_send|]. cbn [deliver sd_inbox sd_proc sd_cache app].
  eapply nsteps_l; [apply duplex_left, side_step_recv; exact Hmb|].
  eapply nsteps_l; [apply duplex_right, side_step_recv; exact Hma|]. cbn [deliver].
  rewrite bool_decide_false by done. rewrite bool_decide_false by (by apply not_eq_sym).
  rewrite Hva, Hvb, Hwin, Hlose. cbn [hs_try map_err hs_bind proc_bind client_id vc_challenge negb].
  rewrite bool_decide_false by (by apply not_eq_sym). rewrite bool_decide_false by done.
  eapply nsteps_l; [apply duplex_right, side_step_send|]. cbn [deliver sd_inbox sd_proc sd_cache app].
  eapply nsteps_l; [apply duplex_left, side_step_recv_verified; done|]. cbn [deliver].
  rewrite bool_decide_true by done.
  eapply nsteps_l; [apply duplex_left, side_step_send|]. cbn [deliver sd_inbox sd_proc sd_cache app].
  eapply nsteps_l; [apply duplex_right, side_step_recv_verified; done|]. cbn [deliver].
  rewrite bool_decide_true by done. constructor.
Qed.
End complete.

Definition swap_sides {E A B} (s : side E A * side E B) : side E B * side E A := (s.2, s.1).

Lemma duplex_swap {E A B} n (s t : side E A * side E B) :
  nsteps duplex_step n s t -> nsteps duplex_step n (swap_sides s) (swap_sides t).
Proof.
  induction 1 as [|n s1 s2 s3 Hs _ IH]; [constructor|]. eapply nsteps_l; [|exact IH].
  inversion Hs; subst; by constructor.
Qed.

Lemma abs_diff_comm a b : abs_diff a b = abs_diff b a.
Proof.
  unfold abs_diff. f_equal. destruct (N.ltb_spec a b), (N.ltb_spec b a); lia.
Qed.

(** ** Many responders, one cache

    The sessions of a server run concurrently: each step is a step of one session,
    the transports answer anything, and claims go to the shared cache. *)

Definition answers {E} (e : io_event E) (cache cache' : NonceCache) : Prop :=
  match e with
  | IoClaim peer nonce ts r => try_claim cache peer nonce ts = Some (r, cache')
  | _ => cache' = cache
  end.

Inductive server_run {E A} (cache0 : NonceCache) (sessions0 : nat -> proc E A) :
    list (nat * io_event E) -> NonceCache -> (nat -> proc E A) -> Prop :=
| server_start : server_run cache0 sessions0 [] cache0 sessions0
| server_step tr cache sessions i e cache' p sessions' :
    server_run cache0 sessions0 tr cache sessions ->
    proc_step (sessions i) e p -> answers e cache cache' ->
    sessions' i = p -> (forall j, j <> i -> sessions' j = sessions j) ->
    server_run cache0 sessions0 (tr ++ [(i, e)]) cache' sessions'.

(** The steps of one session, and the claims of all. *)
Definition session_trace {E} (i : nat) (tr : list (nat * io_event E)) : list (io_event E) :=
  snd <$> filter (fun x => x.1 = i) tr.

Definition claim_of {E} (x : nat * io_event E) : option (Claim * result NonceReused unit) :=
  match x.2 with
  | IoClaim peer nonce ts r => Some (MkClaim peer nonce ts, r)
  | _ => None
  end.

Definition server_claims {E} (tr : list (nat * io_event E)) :
  list (Claim * result NonceReused unit) := omap claim_of tr.

Section server.
Context {E A : Type} (cache0 : NonceCache) (sessions0 : nat -> proc E A).

Lemma server_session tr cache sessions i :
  server_run cache0 sessions0 tr cache sessions ->
  exec (sessions0 i) (session_trace i tr) (sessions i).
Proof.
  induction 1 as [|tr cache sessions j e cache' p sessions' Hrun IH Hs Ha Hp Ho]; [constructor|].
  unfold session_trace in *. rewrite filter_app, fmap_app.
  destruct (decide (j = i)) as [->|Hne].
  - rewrite filter_cons_True by done. cbn. rewrite Hp. by eapply exec_snoc.
  - rewrite filter_cons_False by done. cbn. by rewrite app_nil_r, Ho by done.
Qed.

Lemma server_claims_run tr cache sessions :
  server_run cache0 sessions0 tr cache sessions ->
  claim_all cache0 (fst <$> server_claims tr) = Some (snd <$> server_claims tr, cache).
Proof.
  induction 1 as [|tr cache sessions j e cache' p sessions' Hrun IH Hs Ha Hp Ho]; [done|].
  unfold server_claims in *. rewrite omap_app, !fmap_app, claim_all_app, IH. cbn [mbind option_bind].
  destruct e as [bytes r|r|peer nonce ts r]; cbn in Ha |- *; subst; rewrite ?app_nil_r; [done..|].
  cbn. by rewrite Ha.
Qed.
End server.

(** The responder reads the clock once: all its claims are made at that time. *)
Fixpoint claims_at {E A} (now : TimestampSeconds) (p : proc E A) : Prop :=
  match p with
  | Done _ => True
  | Send _ k => forall r, claims_at now (k r)
  | Recv k => forall r, claims_at now (k r)
  | TryClaim _ _ ts k => ts = now /\ forall r, claims_at now (k r)
  end.

Lemma claims_at_bind {E A B} now (m : proc E A) (k : A -> proc E B) :
  claims_at now m -> (forall a, claims_at now (k a)) -> claims_at now (proc_bind m k).
Proof. intros Hm Hk. induction m; cbn in *; naive_solver. Qed.

Lemma exec_claims_at {E A} now (p q : proc E A) tr peer nonce ts r :
  exec p tr q -> claims_at now p -> IoClaim peer nonce ts r ∈ tr -> ts = now.
Proof.
  induction 1 as [|p e p' tr q Hs _ IH]; intros Hp Hin; [by apply not_elem_of_nil in Hin|].
  inversion Hs; subst; cbn in Hp; apply elem_of_cons in Hin as [Hin|Hin]; naive_solver.
Qed.

Section no_replay.
Context `{Ed25519, Blake3, Bijou64} {E C X : Type} (build_connection : PeerId -> C * X).
Context (signer : Signer) (us : PeerId) (disc : option Audience) (drift : Duration).

Lemma respond_claims_at now :
  claims_at now (respond (E := E) build_connection signer us disc now drift).
Proof.
  apply claims_at_bind.
  { apply claims_at_bind; [done|]. intros [bytes|e]; [|done]. by destruct (bool_decide _). }
  intros [[s|s|rej]|e]; [|done..]. destruct (verify_for_us _ _ _ _ _) as [v|e].
  - split; [done|]. intros [[]|e]; (apply claims_at_bind; [done|]); by intros [[]|?].
  - apply claims_at_bind; [done|]. by intros [[]|?].
Qed.

Lemma elem_of_session_trace {F} i (e : io_event F) tr : e ∈ session_trace i tr <-> (i, e) ∈ tr.
Proof.
  unfold session_trace. rewrite list_elem_of_fmap. setoid_rewrite list_elem_of_filter.
  split; [intros ([? ?] & -> & [<- ?]); done|]. intros ?. by exists (i, e).
Qed.

Lemma server_claims_lookup {F} (tr : list (nat * io_event F)) a x y :
  tr !! a = Some x -> claim_of x = Some y ->
  server_claims tr !! length (server_claims (take a tr)) = Some y.
Proof.
  intros Ha Hy. unfold server_claims. rewrite <- (take_drop_middle tr a x Ha) at 2.
  rewrite omap_app, lookup_app_r, Nat.sub_diag by done. cbn. by rewrite Hy.
Qed.

Lemma server_claims_lt {F} (tr : list (nat * io_event F)) a b x y :
  tr !! a = Some x -> claim_of x = Some y -> (a < b)%nat ->
  (length (server_claims (take a tr)) < length (server_claims (take b tr)))%nat.
Proof.
  intros Ha Hy Hab. assert (Hb : take b tr !! a = Some x) by (by rewrite lookup_take_lt).
  apply lookup_lt_Some with y.
  replace (take a tr) with (take a (take b tr)) by (rewrite take_take; f_equal; lia).
  by eapply server_claims_lookup.
Qed.

Context (d : Duration) (t0 : TimestampSeconds) (now : nat -> TimestampSeconds).
Context (Hd : Duration.from_secs 1 <= d).
Context (Hnow : forall i, t0 <= now i <= t0 + 3 * Duration.as_secs d).

Notation sessions0 := (fun i => respond (E := E) build_connection signer us disc (now i) drift).

Lemma accepted_keys_differ tr cache sessions i j peer nonce peer' nonce' :
  server_run (NonceCache_new d) sessions0 tr cache sessions -> i <> j ->
  IoClaim peer nonce (now i) (Ok tt) ∈ session_trace i tr ->
  IoClaim peer' nonce' (now j) (Ok tt) ∈ session_trace j tr ->
  (peer, nonce) <> (peer', nonce').
Proof using Hd Hnow.
  intros Hrun Hij Hi Hj Hkey. pose proof (server_claims_run _ _ _ _ _ Hrun) as Hclaims.
  apply elem_of_session_trace, list_elem_of_lookup in Hi as [a Ha].
  apply elem_of_session_trace, list_elem_of_lookup in Hj as [b Hb].
  assert (Htimes : Forall (fun x => t0 <= cl_time x <= t0 + 3 * Duration.as_secs d)
                     (fst <$> server_claims tr)).
  { apply Forall_fmap, Forall_forall. intros [c r] Hin. unfold server_claims in Hin.
    apply list_elem_of_omap in Hin as ([k e] & Hin & He).
    destruct e as [? ?|?|p n ts r']; [done..|]. injection He as <- <-. cbn [fst cl_time].
    apply elem_of_session_trace in Hin. pose proof (server_session _ _ _ _ _ k Hrun) as Hx.
    apply (exec_claims_at (now k) _ _ _ _ _ _ _ Hx) in Hin as ->; [apply Hnow|].
    apply respond_claims_at. }
  pose proof (server_claims_lookup _ _ _ _ Ha eq_refl) as La.
  pose proof (server_claims_lookup _ _ _ _ Hb eq_refl) as Lb.
  assert (Hne : a <> b) by (intros ->; congruence).
  assert (Hc : forall x y c c',
    server_claims tr !! x = Some (c, Ok tt) -> server_claims tr !! y = Some (c', Ok tt) ->
    cl_key c = cl_key c' -> (x < y)%nat -> False).
  { intros x y c c' Hx Hy Hk Hlt.
    eapply (accepted_claims_unique d _ _ _ t0 x y c c' Hd Htimes Hclaims); [..|done|done];
      by rewrite list_lookup_fmap, ?Hx, ?Hy. }
  destruct (Nat.lt_total a b) as [Hlt|[?|Hlt]]; [|done|].
  - eapply Hc; [exact La|exact Lb|done|by eapply server_claims_lt].
  - eapply Hc; [exact Lb|exact La|done|by eapply server_claims_lt].
Qed.
End no_replay.

(** A responder that accepts, as steps of a server. *)
Section accept.
Context `{Ed25519, Blake3, Bijou64} {E C X : Type} (build_connection : PeerId -> C * X).

Lemma respond_steps signer us disc now drift bytes s v :
  bytes <> [] -> HandshakeMessage.try_decode bytes = Ok (HM_SignedChallenge s) ->
  verify_for_us s us disc now drift = Ok v ->
  exists p1 p2,
    proc_step (respond (E := E) build_connection signer us disc now drift) (IoRecv (Ok bytes)) p1 /\
    proc_step p1 (IoClaim (client_id v) (ch_nonce (vc_challenge v)) now (Ok tt)) p2 /\
    proc_step p2 (IoSend (sg_bytes (create_response signer (vc_challenge v) now)) (Ok tt))
      (Done (Ok (connected build_connection (client_id v) Accepted))).
Proof.
  intros Hne Hd Hv. unfold respond, recv_handshake_message, transport_recv, hs_bind.
  cbn [proc_bind]. eexists _, _. split; [apply step_recv|].
  cbn [map_err proc_bind]. rewrite bool_decide_false by done. unfold hs_try. rewrite Hd.
  cbn [map_err proc_bind]. rewrite Hv. split; [apply step_claim|].
  cbn [transport_send proc_bind].
  match goal with |- proc_step (Send ?b ?k) _ _ => exact (step_send b k (Ok tt)) end.
Qed.

Lemma server_accepts {A} cache0 (sessions0 : nat -> proc E A) tr cache sessions i e1 e2 e3 p1 p2 p3
    peer nonce ts r cache' :
  server_run cache0 sessions0 tr cache sessions ->
  proc_step (sessions i) e1 p1 -> proc_step p1 e2 p2 -> proc_step p2 e3 p3 ->
  e2 = IoClaim peer nonce ts r -> answers e1 cache cache -> answers e3 cache' cache' ->
  try_claim cache peer nonce ts = Some (r, cache') ->
  exists sessions',
    server_run cache0 sessions0 (tr ++ [(i, e1); (i, e2); (i, e3)]) cache' sessions' /\
    sessions' i = p3 /\ forall j, j <> i -> sessions' j = sessions j.
Proof.
  intros Hrun H1' H2' H3' -> Ha1 Ha3 Hc.
  set (upd p j := if decide (j = i) then p else sessions j).
  assert (Hi : forall p, upd p i = p) by (intros p; unfold upd; by rewrite decide_True).
  assert (Hj : forall p j, j <> i -> upd p j = sessions j)
    by (intros p j Hne; unfold upd; by rewrite decide_False).
  exists (upd p3). split; [|by auto].
  change [(i, e1); (i, IoClaim peer nonce ts r); (i, e3)] with
    ([(i, e1)] ++ [(i, IoClaim peer nonce ts r)] ++ [(i, e3)]). rewrite !app_assoc.
  eapply (server_step _ _ _ cache' (upd p2)); [|by rewrite Hi|done|by rewrite Hi|].
  - eapply (server_step _ _ _ cache (upd p1)); [|by rewrite Hi|done|by rewrite Hi|].
    + eapply (server_step _ _ _ cache sessions); [done|done|done|by rewrite Hi|by auto].
    + intros j Hne. by rewrite !Hj.
  - intros j Hne. by rewrite !Hj.
Qed.

Context (signer : Signer) (us : PeerId) (disc : option Audience) (drift : Duration).
Context (client : Signer) `{!HonestSigner client} (now : nat -> TimestampSeconds).

(** The challenge is one the session [i] accepts. *)
Definition acceptable (i : nat) (c : Challenge) : Prop :=
  ch_timestamp c <= u64_max /\ abs_diff (ch_timestamp c) (now i) <= drift /\
  (ch_audience c = Known us \/ disc = Some (ch_audience c)).

Notation sessions0 := (fun i => respond (E := E) build_connection signer us disc (now i) drift).

Lemma session_accepts cache0 tr cache sessions i c cache' :
  acceptable i c -> sessions i = sessions0 i ->
  server_run cache0 sessions0 tr cache sessions ->
  try_claim cache (verifying_key client) (ch_nonce c) (now i) = Some (Ok tt, cache') ->
  exists tr' sessions',
    server_run cache0 sessions0 (tr ++ tr') cache' sessions' /\
    (i, IoRecv (Ok (sg_bytes (vs_signed (seal client c))))) ∈ tr' /\
    sessions' i = Done (Ok (connected build_connection (verifying_key client) Accepted)) /\
    forall j, j <> i -> sessions' j = sessions j.
Proof using HonestSigner0.
  intros (Ht & Hf & Haud) Hi Hrun Hc. pose proof (challenge_message_ok client c Ht) as Hm.
  pose proof (encode_nonempty _ Hm) as Hne. pose proof (try_decode_at _ [] Hm) as Hd.
  rewrite app_nil_r in Hd. pose proof (verify_for_us_seal client c us disc _ _ Ht Hf Haud) as Hv.
  destruct (respond_steps signer _ _ _ _ _ _ _ Hne Hd Hv) as (p1 & p2 & S1 & S2 & S3).
  rewrite <- Hi in S1.
  destruct (server_accepts _ _ _ _ _ i _ _ _ _ _ _ _ _ _ _ cache' Hrun S1 S2 S3 eq_refl eq_refl
              eq_refl Hc) as (sessions' & R & D & O).
  eexists _, sessions'. split; [exact R|]. split; [left|]. done.
Qed.

Lemma two_sessions_accept cache0 c0 c1 cache1 cache2 :
  acceptable 0 c0 -> acceptable 1 c1 ->
  try_claim cache0 (verifying_key client) (ch_nonce c0) (now 0%nat) = Some (Ok tt, cache1) ->
  try_claim cache1 (verifying_key client) (ch_nonce c1) (now 1%nat) = Some (Ok tt, cache2) ->
  exists tr sessions,
    server_run cache0 sessions0 tr cache2 sessions /\
    IoRecv (Ok (sg_bytes (vs_signed (seal client c0)))) ∈ session_trace 0 tr /\
    IoRecv (Ok (sg_bytes (vs_signed (seal client c1)))) ∈ session_trace 1 tr /\
    sessions 0%nat = Done (Ok (connected build_connection (verifying_key client) Accepted)) /\
    sessions 1%nat = Done (Ok (connected build_connection (verifying_key client) Accepted)).
Proof using HonestSigner0.
  intros A0 A1 C0 C1.
  destruct (session_accepts cache0 [] cache0 sessions0 0 c0 cache1 A0 eq_refl
              (server_start _ _) C0) as (tr0 & sessions1 & R0 & I0 & D0 & O0).
  destruct (session_accepts cache0 _ cache1 sessions1 1 c1 cache2 A1 (O0 1%nat ltac:(done)) R0 C1)
    as (tr1 & sessions2 & R1 & I1 & D1 & O1).
  eexists _, sessions2. split; [exact R1|]. rewrite !elem_of_session_trace, !elem_of_app.
  rewrite (O1 0%nat) by done. split_and!; [by left; right|by right|done|done].
Qed.
End accept.

(** ** The claims *)

Section claims.
Context `{Ed25519, Blake3, Bijou64} {E C X D Y : Type}.
Context (build_a : PeerId -> C * X) (build_b : PeerId -> D * Y).

(** C11: A session that succeeds has authenticated its peer, whatever the transport did.
    The responder has received a challenge signed by that peer, addressed to it and
    fresh, has claimed its nonce and answered it. The initiator has received an answer
    to its own challenge signed by that peer; in a simultaneous open it has also
    received a fresh challenge of the same peer, which is not the initiator itself, and
    has answered it. These are the only runs that succeed. *)
Theorem handshake_authenticates signer :
  (forall us disc now drift tr auth extra,
     exec (respond (E := E) build_b signer us disc now drift) tr (Done (Ok (auth, extra))) ->
     exists bytes c,
       accepting_run signer us disc now drift (au_peer_id auth) bytes c tr /\
       (auth, extra) = connected build_b (au_peer_id auth) Accepted) /\
  (forall audience now nonce tr auth extra,
     exec (initiate (E := E) build_a signer audience now nonce) tr (Done (Ok (auth, extra))) ->
     dialing_run signer audience now nonce (au_peer_id auth) tr /\
     (auth, extra) = connected build_a (au_peer_id auth) Dialed).
Proof. split; intros; [by apply respond_sound|by apply initiate_sound]. Qed.

Context (signer_a signer_b : Signer) `{!HonestSigner signer_a, !HonestSigner signer_b}.

(** C23: An honest initiator and an honest responder complete the handshake, under every
    interleaving of their steps: if the challenge is addressed to the responder or to
    its discovery audience, the clocks agree up to the allowed drift and the nonce is
    not in the cache, no run is longer than five steps, and every run can be continued
    to the state in which both sides hold a connection to the other one. *)
Theorem handshake_completes now_a now_b cache_a cache_b cache_b' aud nonce disc drift :
  now_a <= u64_max -> now_b <= u64_max -> abs_diff now_a now_b <= drift ->
  aud = Known (verifying_key signer_b) \/ disc = Some aud ->
  try_claim cache_b (verifying_key signer_a) nonce now_b = Some (Ok tt, cache_b') ->
  let start :=
    (MkSide (initiate (E := E) build_a signer_a aud now_a nonce) [] cache_a,
     MkSide (respond build_b signer_b (verifying_key signer_b) disc now_b drift) [] cache_b) in
  let final :=
    (MkSide (Done (Ok (connected build_a (verifying_key signer_b) Dialed))) [] cache_a,
     MkSide (Done (Ok (connected build_b (verifying_key signer_a) Accepted))) [] cache_b') in
  forall n u, nsteps duplex_step n start u -> (n <= 5)%nat /\ nsteps duplex_step (5 - n) u final.
Proof.
  intros ? ? ? ? ?. cbv zeta. apply duplex_converge; [by apply handshake_run|apply duplex_final].
Qed.

(** C14: A simultaneous open ends well on both sides, under every interleaving: two
    honest peers with different keys that dial each other at the same time, by identity
    or by one discovery audience, with clocks at most ten minutes apart, both finish
    within eight steps in all with a dialed connection to the other one. The order of
    the two signed challenges decides who waits, so they never wait for each other. *)
Theorem simultaneous_open_completes now_a now_b cache_a cache_b aud_a aud_b nonce_a nonce_b :
  now_a <= u64_max -> now_b <= u64_max -> verifying_key signer_a <> verifying_key signer_b ->
  mutual signer_a signer_b aud_a aud_b -> abs_diff now_a now_b <= SIMULTANEOUS_OPEN_MAX_DRIFT ->
  let start :=
    (MkSide (initiate (E := E) build_a signer_a aud_a now_a nonce_a) [] cache_a,
     MkSide (initiate build_b signer_b aud_b now_b nonce_b) [] cache_b) in
  let final :=
    (MkSide (Done (Ok (connected build_a (verifying_key signer_b) Dialed))) [] cache_a,
     MkSide (Done (Ok (connected build_b (verifying_key signer_a) Dialed))) [] cache_b) in
  forall n u, nsteps duplex_step n start u -> (n <= 8)%nat /\ nsteps duplex_step (8 - n) u final.
Proof.
  intros Ha Hb Hne Hm Hd. cbv zeta. apply duplex_converge; [|apply duplex_final].
  pose proof Hd as Hd'. rewrite abs_diff_comm in Hd'.
  destruct (lex_leb (sg_bytes (create_challenge signer_a aud_a now_a nonce_a))
              (sg_bytes (create_challenge signer_b aud_b now_b nonce_b))) eqn:Hlex;
    [|by apply simultaneous_run].
  refine (duplex_swap 8 (_, _) (_, _) _). apply simultaneous_run;
    [done|done|done|done|by apply not_eq_sym| |done|done|].
  - unfold mutual in *. naive_solver.
  - apply not_true_is_false. intros Hlex'.
    refine (seal_bytes_ne signer_a signer_b (Challenge_new aud_a now_a nonce_a)
              (Challenge_new aud_b now_b nonce_b) Ha Hb Hne _).
    by apply (anti_symm ord_le).
Qed.
End claims.

Section replay_claims.
Context `{Ed25519, Blake3, Bijou64} {E C X : Type} (build_connection : PeerId -> C * X).
Context (signer : Signer) (us : PeerId) (disc : option Audience).

(** C6: No captured challenge opens a second session: however many responders run
    concurrently over one cache, in whatever interleaving and with whatever the network
    delivers to them, two of them that succeed have been sent different bytes, and
    their peers or nonces differ. This holds as long as all their clock readings lie
    within three bucket durations of each other (nine minutes for the default cache);
    the clock may run backwards in between. *)
Theorem respond_no_replay drift d t0 (now : nat -> TimestampSeconds) tr cache sessions
    i j auth extra auth' extra' :
  Duration.from_secs 1 <= d ->
  (forall i, t0 <= now i <= t0 + 3 * Duration.as_secs d) ->
  server_run (NonceCache_new d)
    (fun i => respond (E := E) build_connection signer us disc (now i) drift) tr cache sessions ->
  i <> j -> sessions i = Done (Ok (auth, extra)) -> sessions j = Done (Ok (auth', extra')) ->
  exists bytes c bytes' c',
    accepting_run signer us disc (now i) drift (au_peer_id auth) bytes c (session_trace i tr) /\
    accepting_run signer us disc (now j) drift (au_peer_id auth') bytes' c' (session_trace j tr) /\
    (au_peer_id auth, ch_nonce c) <> (au_peer_id auth', ch_nonce c') /\ bytes <> bytes'.
Proof.
  intros Hd Hnow Hrun Hij Hi Hj.
  pose proof (server_session _ _ _ _ _ i Hrun) as Xi. rewrite Hi in Xi.
  pose proof (server_session _ _ _ _ _ j Hrun) as Xj. rewrite Hj in Xj.
  destruct (respond_sound _ _ _ _ _ _ _ _ _ Xi) as (b & c & Hacc & _).
  destruct (respond_sound _ _ _ _ _ _ _ _ _ Xj) as (b' & c' & Hacc' & _).
  assert (Hk : (au_peer_id auth, ch_nonce c) <> (au_peer_id auth', ch_nonce c')).
  { eapply (accepted_keys_differ _ _ _ _ _ d t0 now Hd Hnow _ _ _ i j); [done|done| |];
      [rewrite (proj1 Hacc)|rewrite (proj1 Hacc')]; set_solver +. }
  exists b, c, b', c'. split; [done|]. split; [done|]. split; [done|]. intros ->.
  destruct Hacc as (_ & (s & Hs & Hp & Hb & _) & _).
  destruct Hacc' as (_ & (s' & Hs' & Hp' & Hb' & _) & _). rewrite Hs in Hs'. injection Hs' as <-.
  rewrite Hb, <- Hp, <- Hp' in Hb'. apply app_inv_tail, signed_message_nonce in Hb'. congruence.
Qed.

(** C38: The guarantee ends after nine minutes, before the ten minutes for which a
    challenge stays fresh: with the default cache and the documented drift, a captured
    challenge is accepted when it is made and again 541 seconds later, whenever the
    first session falls into the last second of a bucket. *)
Theorem respond_replay_gap client `{!HonestSigner client} nonce k :
  180 * k + 720 <= u64_max ->
  let now i := if decide (i = 0%nat) then 180 * k + 179 else 180 * k + 720 in
  let bytes := sg_bytes (create_challenge client (Known us) (180 * k + 179) nonce) in
  exists tr cache sessions,
    server_run NonceCache_default
      (fun i => respond (E := E) build_connection signer us disc (now i) MAX_PLAUSIBLE_DRIFT)
      tr cache sessions /\
    forall i, i = 0%nat \/ i = 1%nat ->
      IoRecv (Ok bytes) ∈ session_trace i tr /\
      sessions i = Done (Ok (connected build_connection (verifying_key client) Accepted)).
Proof.
  intros Hk now bytes. set (c := Challenge_new (Known us) (180 * k + 179) nonce).
  destruct (claim_after_expiry DEFAULT_BUCKET_DURATION (verifying_key client) nonce
              (180 * k + 179) (180 * k + 720)) as (cache1 & cache2 & C1 & C2).
  { vm_compute. discriminate. }
  { change (Duration.as_secs DEFAULT_BUCKET_DURATION) with 180.
    rewrite !(N.mul_comm 180), !N.div_add_l by done.
    change (179 / 180) with 0. change (720 / 180) with 4. lia. }
  assert (Hacc : forall i, acceptable us disc MAX_PLAUSIBLE_DRIFT now i c).
  { intros i. split; [cbn; lia|]. split; [|by left].
    unfold now, abs_diff, MAX_PLAUSIBLE_DRIFT, Duration.from_secs. cbn [c ch_timestamp].
    destruct (decide _); [rewrite N.ltb_irrefl; lia|].
    destruct (N.ltb_spec (180 * k + 179) (180 * k + 720)); lia. }
  destruct (two_sessions_accept (E := E) build_connection signer us disc MAX_PLAUSIBLE_DRIFT client
              now NonceCache_default c c cache1 cache2 (Hacc 0%nat) (Hacc 1%nat) C1 C2)
    as (tr & sessions & Hrun & I0 & I1 & D0 & D1).
  exists tr, cache2, sessions. split; [done|]. by intros i [-> | ->].
Qed.
End replay_claims.

(** ** Sample sessions *)

Definition blake3_fold : Blake3 := fun data =>
  array_pad 32 (to_be_bytes 8 (foldl (fun acc b => (acc * 257 + Byte.to_N b + 1) mod 2 ^ 64) 5 data)).

#[local] Existing Instance ed25519_checksum.
#[local] Existing Instance blake3_fold.
#[local] Existing Instance bijou_fixed8.

Definition sample_nonce (b : byte) : Nonce := array_pad 16 [b].
Definition sample_build (peer : PeerId) : PeerId * unit := (peer, tt).

Lemma sample_claims :
  exists cache1 cache2,
    try_claim NonceCache_default (verifying_key (toy_signer x05)) (sample_nonce x09) 1000 =
      Some (Ok tt, cache1) /\
    try_claim cache1 (verifying_key (toy_signer x05)) (sample_nonce x0a) 1100 = Some (Ok tt, cache2).
Proof.
  assert (Hr : fst <$> claim_all NonceCache_default
                         [MkClaim (verifying_key (toy_signer x05)) (sample_nonce x09) 1000;
                          MkClaim (verifying_key (toy_signer x05)) (sample_nonce x0a) 1100] =
               Some [Ok tt; Ok tt]) by (vm_compute; reflexivity).
  revert Hr. cbn [claim_all cl_peer cl_nonce cl_time].
  destruct (try_claim NonceCache_default _ _ _) as [[r1 cache1]|]; [|done]. cbn [mbind option_bind].
  destruct (try_claim cache1 _ _ _) as [[r2 cache2]|] eqn:E2; [|done]. intros [= -> ->].
  exists cache1, cache2. done.
Qed.

Lemma handshake_completes_witness :
  exists cache final,
    nsteps (duplex_step (E := unit)) 5
      (MkSide (initiate sample_build (toy_signer x05) (Known (verifying_key (toy_signer x06))) 1020
                 (sample_nonce x09)) [] NonceCache_default,
       MkSide (respond sample_build (toy_signer x06) (verifying_key (toy_signer x06)) None 1000
                 (Duration.from_secs 60)) [] NonceCache_default)
      (final, MkSide (Done (Ok (connected sample_build (verifying_key (toy_signer x05)) Accepted)))
                [] cache).
Proof.
  destruct sample_claims as (cache & _ & Hc & _).
  destruct (handshake_completes (E := unit) sample_build sample_build (toy_signer x05) (toy_signer x06)
              1020 1000 NonceCache_default NonceCache_default cache
              (Known (verifying_key (toy_signer x06))) (sample_nonce x09) None (Duration.from_secs 60)
              ltac:(vm_compute; discriminate) ltac:(vm_compute; discriminate)
              ltac:(vm_compute; discriminate) (or_introl eq_refl) Hc 0 _ (nsteps_O _ _)) as [_ Hn].
  eexists cache, _. exact Hn.
Defined.

Lemma simultaneous_open_completes_witness :
  exists final,
    nsteps (duplex_step (E := unit)) 8
      (MkSide (initiate sample_build (toy_signer x05) (Known (verifying_key (toy_signer x06))) 1000
                 (sample_nonce x09)) [] NonceCache_default,
       MkSide (initiate sample_build (toy_signer x06) (Known (verifying_key (toy_signer x05))) 1020
                 (sample_nonce x08)) [] NonceCache_default)
      (final, MkSide (Done (Ok (connected sample_build (verifying_key (toy_signer x05)) Dialed)))
                [] NonceCache_default).
Proof.
  destruct (simultaneous_open_completes (E := unit) sample_build sample_build (toy_signer x05)
              (toy_signer x06) 1000 1020 NonceCache_default NonceCache_default
              (Known (verifying_key (toy_signer x06))) (Known (verifying_key (toy_signer x05)))
              (sample_nonce x09) (sample_nonce x08)
              ltac:(vm_compute; discriminate) ltac:(vm_compute; discriminate)
              ltac:(discriminate) (or_introl (conj eq_refl eq_refl))
              ltac:(vm_compute; discriminate) 0 _ (nsteps_O _ _)) as [_ Hn].
  eexists. exact Hn.
Defined.

Lemma respond_replay_gap_witness :
  exists tr cache sessions,
    server_run NonceCache_default
      (fun i => respond (E := unit) sample_build (toy_signer x06) (verifying_key (toy_signer x06)) None
                  (if decide (i = 0%nat) then 1619 else 2160) MAX_PLAUSIBLE_DRIFT)
      tr cache sessions /\
    sessions 0%nat = sessions 1%nat.
Proof.
  destruct (respond_replay_gap (E := unit) sample_build (toy_signer x06)
              (verifying_key (toy_signer x06)) None (toy_signer x05) (sample_nonce x09) 8
              ltac:(vm_compute; discriminate)) as (tr & cache & sessions & Hrun & Hd).
  exists tr, cache, sessions. split; [exact Hrun|].
  destruct (Hd 0%nat (or_introl eq_refl)) as [_ ->], (Hd 1%nat (or_intror eq_refl)) as [_ ->].
  reflexivity.
Defined.

(** Two sessions of one client with different nonces, both accepted. *)
Definition sample_now (i : nat) : TimestampSeconds := if decide (i = 0%nat) then 1000 else 1100.
Definition sample_challenge (nonce : byte) : Challenge :=
  Challenge_new (Known (verifying_key (toy_signer x06))) 1050 (sample_nonce nonce).

Lemma sample_acceptable i nonce :
  acceptable (verifying_key (toy_signer x06)) None MAX_PLAUSIBLE_DRIFT sample_now i
    (sample_challenge nonce).
Proof.
  split; [vm_compute; discriminate|]. split; [|by left]. unfold sample_now.
  destruct (decide _); vm_compute; discriminate.
Qed.

(** The connection of the client, on the side of the server. *)
Definition sample_auth : Authenticated PeerId :=
  from_handshake (verifying_key (toy_signer x05)) (verifying_key (toy_signer x05)) Accepted.

Definition sample_server (i : nat) :=
  respond (E := unit) sample_build (toy_signer x06) (verifying_key (toy_signer x06)) None
    (sample_now i) MAX_PLAUSIBLE_DRIFT.

Lemma respond_no_replay_witness :
  exists tr cache sessions bytes c bytes' c',
    server_run (NonceCache_new DEFAULT_BUCKET_DURATION) sample_server tr cache sessions /\
    sessions 0%nat = Done (Ok (sample_auth, tt)) /\ sessions 1%nat = Done (Ok (sample_auth, tt)) /\
    accepting_run (toy_signer x06) (verifying_key (toy_signer x06)) None 1000 MAX_PLAUSIBLE_DRIFT
      (verifying_key (toy_signer x05)) bytes c (session_trace 0 tr) /\
    accepting_run (toy_signer x06) (verifying_key (toy_signer x06)) None 1100 MAX_PLAUSIBLE_DRIFT
      (verifying_key (toy_signer x05)) bytes' c' (session_trace 1 tr) /\
    ch_nonce c <> ch_nonce c' /\ bytes <> bytes'.
Proof.
  destruct sample_claims as (cache1 & cache2 & C1 & C2).
  destruct (two_sessions_accept (E := unit) sample_build (toy_signer x06)
              (verifying_key (toy_signer x06)) None MAX_PLAUSIBLE_DRIFT (toy_signer x05) sample_now
              NonceCache_default (sample_challenge x09) (sample_challenge x0a) cache1 cache2
              (sample_acceptable 0 x09) (sample_acceptable 1 x0a) C1 C2)
    as (tr & sessions & Hrun & _ & _ & D0 & D1).
  destruct (respond_no_replay (E := unit) sample_build (toy_signer x06)
              (verifying_key (toy_signer x06)) None MAX_PLAUSIBLE_DRIFT DEFAULT_BUCKET_DURATION 1000
              sample_now tr cache2 sessions 0 1 sample_auth tt sample_auth tt)
    as (b & c & b' & c' & Ha & Ha' & Hk & Hne);
    [vm_compute; discriminate| |exact Hrun|discriminate|exact D0|exact D1|].
  - intros i. unfold sample_now. destruct (decide _); split; vm_compute; discriminate.
  - exists tr, cache2, sessions, b, c, b', c'.
    split; [exact Hrun|]. split; [exact D0|]. split; [exact D1|]. split; [exact Ha|].
    split; [exact Ha'|]. split; [|exact Hne]. intros Hc. apply Hk. by rewrite Hc.
Defined.
