(* ===== verification/Tasks.v ===== *)
(** Asynchronous functions on shared state.

    An [async fn] of the node runs between two suspension points without giving the
    executor to another task, and what it shares with other tasks (the cache, the storage,
    the subscriptions) is behind locks. A [task] is the tree of its critical sections:
    [Act f k] runs the section [f] on the shared state and goes on with [k]; [None] is a
    panic in the section. Tasks of a [pool] interleave at every section, which includes all
    the schedules of an executor. Most locks are released before the next [await]. Where the
    code keeps a lock while it waits for others, as for the connections while a peer's
    multiplexers and subscriptions change with them, what the outer lock covers is one
    section: the tasks that would see a state in between wait for the same lock.

    [wp] is a rely-guarantee triple for such trees: the environment may change the state
    by any step of [G] before every section, and each section is such a step itself and
    keeps [Inv]. [pool_sound] is its adequacy for a pool of any number of tasks. *)

From Stdlib Require Import NArith Lia.
From stdpp Require Import base gmap list relations.
From S2P Require Import Prelude.

(** ** Tasks *)

Inductive task (S A : Type) : Type :=
| Ret (a : A)
| Act {B : Type} (f : S -> option (S * B)) (k : B -> task S A).
Arguments Ret {_ _} _.
Arguments Act {_ _ _} _ _.

Fixpoint tbind {S A B} (m : task S A) (k : A -> task S B) : task S B :=
  match m with
  | Ret a => k a
  | Act f g => Act f (fun b => tbind (g b) k)
  end.

(** [m.await?] *)
Definition tbind_ok {S E A B} (m : task S (result E A)) (k : A -> task S (result E B)) :
  task S (result E B) :=
  tbind m (fun r => match r with Ok a => k a | Err e => Ret (Err e) end).

Declare Scope task_scope.
Delimit Scope task_scope with task.
Notation "'await' x := m 'in' k" := (tbind m (fun x => k))
  (at level 200, x name, m at level 100, k at level 200, right associativity) : task_scope.
Notation "'await' ' x := m 'in' k" := (tbind m (fun y => let x := y in k))
  (at level 200, x strict pattern, m at level 100, k at level 200, right associativity)
  : task_scope.
Notation "'await?' x := m 'in' k" := (tbind_ok m (fun x => k))
  (at level 200, x name, m at level 100, k at level 200, right associativity) : task_scope.
Notation "'await?' ' x := m 'in' k" := (tbind_ok m (fun y => let x := y in k))
  (at level 200, x strict pattern, m at level 100, k at level 200, right associativity)
  : task_scope.
Open Scope task_scope.

(** One critical section. *)
Definition act {S B} (f : S -> option (S * B)) : task S B := Act f Ret.

(** A section that only reads. *)
Definition reads_state {S B} (f : S -> B) : task S B := act (fun s => Some (s, f s)).

(** [for x in l { st = body(st, x).await?; }] *)
Fixpoint tfold {S E A B} (body : B -> A -> task S (result E B)) (b : B) (l : list A) :
  task S (result E B) :=
  match l with
  | [] => Ret (Ok b)
  | x :: l' => await? b' := body b x in tfold body b' l'
  end.

(** [for x in l { st = body(st, x).await; }] *)
Fixpoint tfor {S A B} (body : B -> A -> task S B) (b : B) (l : list A) : task S B :=
  match l with
  | [] => Ret b
  | x :: l' => await b' := body b x in tfor body b' l'
  end.

(** At most [n] sections: what is left then is dropped. *)
Fixpoint within {S A} (n : nat) (m : task S A) : task S (option A) :=
  match m, n with
  | Ret a, _ => Ret (Some a)
  | Act _ _, O => Ret None
  | Act f k, S n' => Act f (fun b => within n' (k b))
  end.

(** A task of a component, run on the state of the whole. *)
Fixpoint zoom {S T A} (get : S -> T) (set : T -> S -> S) (m : task T A) : task S A :=
  match m with
  | Ret a => Ret a
  | Act f k =>
      Act (fun s => match f (get s) with
                    | Some (t, b) => Some (set t s, b)
                    | None => None
                    end) (fun b => zoom get set (k b))
  end.

(** Without other tasks. *)
Fixpoint run {S A} (m : task S A) (s : S) : option (S * A) :=
  match m with
  | Ret a => Some (s, a)
  | Act f k => match f s with Some (s', b) => run (k b) s' | None => None end
  end.

Lemma run_bind {S A B} (m : task S A) (k : A -> task S B) s :
  run (tbind m k) s = match run m s with Some (s', a) => run (k a) s' | None => None end.
Proof.
  revert s. induction m as [a|C f g IH]; intros s; [done|]. simpl.
  by destruct (f s) as [[s' c]|].
Qed.

Lemma run_bind_ok {S E A B} (m : task S (result E A)) (k : A -> task S (result E B)) s :
  run (tbind_ok m k) s =
  match run m s with
  | Some (s', Ok a) => run (k a) s'
  | Some (s', Err e) => Some (s', Err e)
  | None => None
  end.
Proof.
  unfold tbind_ok. rewrite run_bind. by destruct (run m s) as [[s' [a|e]]|].
Qed.

Lemma run_zoom {S T A} (get : S -> T) (set : T -> S -> S) (m : task T A) s :
  (forall t s, get (set t s) = t) -> (forall t t' s, set t (set t' s) = set t s) ->
  (forall s, set (get s) s = s) ->
  run (zoom get set m) s =
  match run m (get s) with Some (t, a) => Some (set t s, a) | None => None end.
Proof.
  intros Hgs Hss Hsg. revert s. induction m as [a|C f g IH]; intros s; simpl.
  - by rewrite Hsg.
  - destruct (f (get s)) as [[t c]|]; [|done]. rewrite IH, Hgs.
    by destruct (run (g c) t) as [[t' a]|]; [rewrite Hss|].
Qed.

(** ** Pools *)

Section pool.
Context {S A : Type} (spawned : task S A -> Prop).

(** A task is at its next section, or has returned; new ones arrive at any time. *)
Inductive pool_step : S * list (task S A) -> S * list (task S A) -> Prop :=
| pool_act s s' ts i B (f : S -> option (S * B)) k b :
    ts !! i = Some (Act f k) -> f s = Some (s', b) ->
    pool_step (s, ts) (s', <[i := k b]> ts)
| pool_spawn s ts t : spawned t -> pool_step (s, ts) (s, ts ++ [t]).

(** A schedule, executed: each entry is the index of the task that moves. *)
Fixpoint schedule (order : list nat) (c : S * list (task S A)) : option (S * list (task S A)) :=
  match order with
  | [] => Some c
  | i :: order' =>
      match c.2 !! i with
      | Some (Act f k) =>
          match f c.1 with
          | Some (s', b) => schedule order' (s', <[i := k b]> c.2)
          | None => None
          end
      | _ => None
      end
  end.

Lemma schedule_reachable order c c' : schedule order c = Some c' -> rtc pool_step c c'.
Proof.
  revert c. induction order as [|i order IH]; intros [s ts] Hc; simpl in Hc; [by simplify_eq|].
  destruct (ts !! i) as [[a|B f k]|] eqn:Hi; try done.
  destruct (f s) as [[s' b]|] eqn:Hf; [|done].
  eapply rtc_l; [by eapply pool_act|]. by apply IH.
Qed.

Lemma schedule_runs order c d :
  bool_decide (is_Some (schedule order c)) = true ->
  rtc pool_step c (default d (schedule order c)).
Proof.
  intros [c' Hc]%bool_decide_eq_true. rewrite Hc. by apply (schedule_reachable order).
Qed.
End pool.

(** ** Rely and guarantee *)

Section rg.
Context {S : Type} (Inv : S -> Prop) (G : relation S) `{!PreOrder G}.

Fixpoint wp {A} (m : task S A) (Q : A -> S -> Prop) (s : S) : Prop :=
  match m with
  | Ret a => forall s', Inv s' -> G s s' -> Q a s'
  | Act f k =>
      forall s', Inv s' -> G s s' ->
        exists s'' b, f s' = Some (s'', b) /\ Inv s'' /\ G s' s'' /\ wp (k b) Q s''
  end.

Lemma wp_stable {A} (m : task S A) Q s s' : wp m Q s -> G s s' -> wp m Q s'.
Proof.
  destruct m as [a|B f k]; simpl; intros Hwp Hg t Ht Hg'; apply Hwp; try done;
    by transitivity s'.
Qed.

Lemma wp_delay {A} (m : task S A) Q s :
  (forall s', Inv s' -> G s s' -> wp m Q s') -> wp m Q s.
Proof.
  destruct m as [a|B f k]; simpl; intros Hwp t Ht Hg; by eapply (Hwp t).
Qed.

Lemma wp_mono {A} (m : task S A) (Q Q' : A -> S -> Prop) s :
  wp m Q s -> (forall a s', Inv s' -> G s s' -> Q a s' -> Q' a s') -> wp m Q' s.
Proof.
  revert s. induction m as [a|B f k IH]; simpl; intros s Hwp HQ t Ht Hg; [by auto|].
  destruct (Hwp t Ht Hg) as (t' & b & Hf & Ht' & Hg' & Hk).
  exists t', b. split_and!; [done..|]. eapply IH; [done|]. intros a u Hu Hgu. apply HQ; [done|].
  etrans; [done|]. by etrans.
Qed.

Lemma wp_ret {A} (a : A) (Q : A -> S -> Prop) s :
  (forall s', Inv s' -> G s s' -> Q a s') -> wp (Ret a) Q s.
Proof. done. Qed.

Lemma wp_bind {A B} (m : task S A) (k : A -> task S B) Q s :
  wp m (fun a => wp (k a) Q) s -> wp (tbind m k) Q s.
Proof.
  revert s. induction m as [a|C f g IH]; simpl; intros s Hwp; [by apply wp_delay|].
  intros t Ht Hg. destruct (Hwp t Ht Hg) as (t' & c & ? & ? & ? & ?).
  exists t', c. eauto.
Qed.

Lemma wp_bind_ok {E A B} (m : task S (result E A)) (k : A -> task S (result E B)) Q s :
  wp m (fun r s => match r with Ok a => wp (k a) Q s | Err e => wp (Ret (Err e)) Q s end) s ->
  wp (tbind_ok m k) Q s.
Proof.
  intros Hwp. apply wp_bind. eapply wp_mono; [exact Hwp|]. by intros [a|e].
Qed.

Lemma wp_act {B} (f : S -> option (S * B)) (Q : B -> S -> Prop) s :
  (forall s', Inv s' -> G s s' ->
     exists s'' b, f s' = Some (s'', b) /\ Inv s'' /\ G s' s'' /\
       forall t, Inv t -> G s'' t -> Q b t) ->
  wp (act f) Q s.
Proof. done. Qed.

Lemma wp_reads {B} (f : S -> B) (Q : B -> S -> Prop) s :
  (forall s', Inv s' -> G s s' -> forall t, Inv t -> G s' t -> Q (f s') t) ->
  wp (reads_state f) Q s.
Proof.
  intros HQ. apply wp_act. intros s' Hs' Hg. exists s', (f s'). split_and!; [done..|].
  by apply HQ.
Qed.

(** A postcondition holds from the end of the task on. *)
Lemma wp_from_then_on {A} (m : task S A) Q s :
  wp m Q s -> wp m (fun a s' => forall t, Inv t -> G s' t -> Q a t) s.
Proof.
  revert s. induction m as [a|B f k IH]; simpl; intros s Hwp.
  - intros s' Hs' Hg t Ht Hgt. apply Hwp; [done|]. by etrans.
  - intros s' Hs' Hg. destruct (Hwp s' Hs' Hg) as (s'' & b & ? & ? & ? & ?).
    exists s'', b. eauto.
Qed.

Lemma wp_map {A B} (m : task S A) (k : A -> B) Q (Q' : B -> S -> Prop) s :
  wp m Q s -> (forall a s', Inv s' -> G s s' -> Q a s' -> Q' (k a) s') ->
  wp (tbind m (fun a => Ret (k a))) Q' s.
Proof.
  intros Hm HQ. apply wp_bind. eapply wp_mono; [by apply wp_from_then_on|].
  intros a s' Hs' Hg Hq. apply wp_ret. intros t Ht Hgt. apply HQ; [done|by etrans|by apply Hq].
Qed.

(** Two postconditions, the second under a condition. *)
Lemma wp_and_impl {A} (m : task S A) Q (P : Prop) Q' s :
  wp m Q s -> (P -> wp m Q' s) -> wp m (fun a s' => Q a s' /\ (P -> Q' a s')) s.
Proof.
  revert s. induction m as [a|B f k IH]; simpl; intros s Hwp Hwp' s' Hs' Hg.
  - split; [by apply Hwp|]. intros HP. by apply Hwp'.
  - destruct (Hwp s' Hs' Hg) as (t & b & Hf & Ht & Hgt & Hk). exists t, b.
    split_and!; [done..|]. apply IH; [done|]. intros HP.
    destruct (Hwp' HP s' Hs' Hg) as (t' & b' & Hf' & _ & _ & Hk'). by simplify_eq.
Qed.

(** A loop: [I seen b] holds after the elements of [seen]. *)
Lemma wp_tfold {E A B} (body : B -> A -> task S (result E B)) (I : list A -> B -> S -> Prop)
    seen l b s :
  (forall seen b s s', I seen b s -> Inv s' -> G s s' -> I seen b s') ->
  (forall seen b x s, x ∈ l -> Inv s -> I seen b s ->
     wp (body b x) (fun r s' => forall b', r = Ok b' -> I (seen ++ [x]) b' s') s) ->
  Inv s -> I seen b s ->
  wp (tfold body b l) (fun r s' => forall b', r = Ok b' -> I (seen ++ l) b' s') s.
Proof.
  intros Hst. revert seen b s. induction l as [|x l IH]; intros seen b s Hbody Hs Hb.
  - apply wp_ret. intros s' Hs' Hg b' [= <-]. rewrite app_nil_r. by eapply Hst.
  - simpl. apply wp_bind_ok. eapply wp_mono; [apply Hbody; [left|done|done]|].
    intros [b'|e] s' Hs' Hg Hb'; [|by apply wp_ret].
    rewrite (cons_middle x seen l), app_assoc.
    apply IH; [|done|by apply Hb']. intros seen' b'' y t Hy. apply Hbody. by right.
Qed.

Lemma wp_tfor_state {A B} (body : B -> A -> task S B) (I : list A -> B -> S -> Prop) seen l b s :
  (forall seen b s s', I seen b s -> Inv s' -> G s s' -> I seen b s') ->
  (forall seen b x s, x ∈ l -> Inv s -> I seen b s ->
     wp (body b x) (fun b' s' => I (seen ++ [x]) b' s') s) ->
  Inv s -> I seen b s -> wp (tfor body b l) (fun b' s' => I (seen ++ l) b' s') s.
Proof.
  intros Hst. revert seen b s. induction l as [|x l IH]; intros seen b s Hbody Hs Hb.
  - apply wp_ret. intros s' Hs' Hg. rewrite app_nil_r. by eapply Hst.
  - simpl. apply wp_bind. eapply wp_mono; [apply Hbody; [left|done|done]|].
    intros b' s' Hs' Hg Hb'. rewrite (cons_middle x seen l), app_assoc.
    apply IH; [|done..]. intros seen' b'' y t Hy. apply Hbody. by right.
Qed.

Lemma wp_tfor {A B} (body : B -> A -> task S B) (I : list A -> B -> Prop) seen l b s :
  (forall seen b x s, x ∈ l -> Inv s -> I seen b ->
     wp (body b x) (fun b' _ => I (seen ++ [x]) b') s) ->
  Inv s -> I seen b -> wp (tfor body b l) (fun b' _ => I (seen ++ l) b') s.
Proof. intros Hb. by apply (wp_tfor_state body (fun seen b _ => I seen b)). Qed.

Lemma wp_within {A} n (m : task S A) Q s :
  wp m Q s -> wp (within n m) (fun o t => forall a, o = Some a -> Q a t) s.
Proof.
  revert n s. induction m as [a|B f k IH]; intros n s Hwp.
  - destruct n; intros t Ht Hg b [= <-]; by apply Hwp.
  - destruct n as [|n]; [by intros t Ht Hg b [=]|]. intros t Ht Hg.
    destruct (Hwp t Ht Hg) as (t' & b & ? & ? & ? & Hk). exists t', b. split_and!; [done..|].
    by apply IH.
Qed.

(** Without other tasks, the postcondition holds at the end. *)
Lemma wp_run {A} (m : task S A) Q s :
  Inv s -> wp m Q s -> exists s' a, run m s = Some (s', a) /\ Inv s' /\ G s s' /\ Q a s'.
Proof.
  revert s. induction m as [a|B f k IH]; simpl; intros s Hs Hwp.
  - exists s, a. split_and!; [done..|]. by apply Hwp.
  - destruct (Hwp s Hs) as (s' & b & -> & Hs' & Hg & Hk); [done|].
    destruct (IH b s' Hs' Hk) as (t & a & Ht & HIt & Hgt & HQ).
    exists t, a. split_and!; [done|done|by etrans|done].
Qed.

(** One step of a pool of verified tasks. *)
Lemma pool_step_sound {A} (spawned : task S A -> Prop) (Q : A -> S -> Prop) c c' :
  (forall t s, spawned t -> Inv s -> wp t Q s) ->
  pool_step spawned c c' -> Inv c.1 -> (forall t, t ∈ c.2 -> wp t Q c.1) ->
  Inv c'.1 /\ G c.1 c'.1 /\ forall t, t ∈ c'.2 -> wp t Q c'.1.
Proof.
  intros Hsp [s s' ts i B f k b Hi Hf|s ts t Ht] Hs Hts; simpl in *.
  - destruct (Hts _ (list_elem_of_lookup_2 _ _ _ Hi) s Hs) as (s'' & b' & Hf' & Hs' & Hg & Hk);
      [done|]. rewrite Hf in Hf'. simplify_eq. split_and!; [done..|].
    intros t [j Hj]%list_elem_of_lookup. destruct (decide (j = i)) as [->|Hne].
    + rewrite list_lookup_insert_eq in Hj by (by eapply lookup_lt_Some). by simplify_eq.
    + rewrite list_lookup_insert_ne in Hj by done.
      eapply wp_stable; [|done]. apply Hts. by eapply list_elem_of_lookup_2.
  - split_and!; [done..|]. intros u [Hu| ->%list_elem_of_singleton]%elem_of_app; auto.
Qed.

(** Every task of a pool of verified tasks, new ones included, runs without panic, what
    it returned holds from then on, and the invariant is kept. *)
Lemma pool_sound {A} (spawned : task S A -> Prop) (Q : A -> S -> Prop) c c' :
  (forall t s, spawned t -> Inv s -> wp t Q s) ->
  rtc (pool_step spawned) c c' -> Inv c.1 -> (forall t, t ∈ c.2 -> wp t Q c.1) ->
  Inv c'.1 /\ G c.1 c'.1 /\ forall t, t ∈ c'.2 -> wp t Q c'.1.
Proof.
  intros Hsp Hrtc. induction Hrtc as [c|c d c' Hstep _ IH]; intros Hc Hts; [done|].
  destruct (pool_step_sound _ _ _ _ Hsp Hstep Hc Hts) as (Hd & Hg & Hts').
  destruct (IH Hd Hts') as (? & ? & ?). split_and!; [done|by etrans|done].
Qed.

Lemma wp_returned {A} (a : A) (Q : A -> S -> Prop) s : Inv s -> wp (Ret a) Q s -> Q a s.
Proof. intros Hs Hwp. by apply Hwp. Qed.

Lemma wp_no_panic {A B} (f : S -> option (S * B)) k (Q : A -> S -> Prop) s :
  Inv s -> wp (Act f k) Q s -> is_Some (f s).
Proof. intros Hs Hwp. destruct (Hwp s Hs) as (s' & b & -> & _); [done|]. by eexists. Qed.
End rg.

(** ** Tasks that only read *)

Fixpoint read_only {S A} (Inv : S -> Prop) (m : task S A) : Prop :=
  match m with
  | Ret _ => True
  | Act f k => (forall s, Inv s -> exists b, f s = Some (s, b)) /\ forall b, read_only Inv (k b)
  end.

Lemma read_only_bind {S A B} (Inv : S -> Prop) (m : task S A) (k : A -> task S B) :
  read_only Inv m -> (forall a, read_only Inv (k a)) -> read_only Inv (tbind m k).
Proof. intros Hm Hk. induction m as [a|C f g IH]; [apply Hk|]. destruct Hm. split; [done|]. auto. Qed.

Lemma read_only_tfor {S A B} (Inv : S -> Prop) (body : B -> A -> task S B) l b :
  (forall b x, x ∈ l -> read_only Inv (body b x)) -> read_only Inv (tfor body b l).
Proof.
  revert b. induction l as [|x l IH]; intros b Hb; [done|]. cbn [tfor].
  apply read_only_bind; [apply Hb; by left|]. intros b'. apply IH. intros b'' y Hy. apply Hb. by right.
Qed.

Lemma read_only_zoom {S T A} (Inv : S -> Prop) (InvT : T -> Prop) (get : S -> T) (set : T -> S -> S) (m : task T A) :
  (forall s, set (get s) s = s) -> (forall s, Inv s -> InvT (get s)) ->
  read_only InvT m -> read_only Inv (zoom get set m).
Proof.
  intros Hset Hinv. induction m as [a|B f k IH]; [done|]. intros [Hf Hk]. split; [|by auto].
  intros s Hs. destruct (Hf (get s) (Hinv s Hs)) as [b ->]. exists b. by rewrite Hset.
Qed.

Lemma wp_read_only {S A} (Inv Inv' : S -> Prop) (G : relation S) `{!PreOrder G} (m : task S A) s :
  (forall s, Inv s -> Inv' s) -> read_only Inv' m -> wp Inv G m (fun _ _ => True) s.
Proof.
  intros Hinv. revert s. induction m as [a|B f k IH]; intros s; [done|]. intros [Hf Hk] t Ht _.
  destruct (Hf t (Hinv t Ht)) as [b Hb]. exists t, b. split_and!; [done..|]. by apply IH.
Qed.

(** What every step keeps may be added to the invariant. *)
Lemma wp_keeps {S A} (Inv J : S -> Prop) (G : relation S) (m : task S A) Q s :
  (forall s s', J s -> G s s' -> J s') ->
  wp Inv G m Q s -> wp (fun t => Inv t /\ J t) G m Q s.
Proof.
  intros HJ. revert s. induction m as [a|B f k IH]; simpl; intros s Hwp s' [Hs' Hj] Hg; [by auto|].
  destruct (Hwp s' Hs' Hg) as (t & b & Hf & Ht & Hgt & Hk). exists t, b.
  split_and!; [done..|by eapply HJ|done|by apply IH].
Qed.

(** A component's triple holds for its tasks inside the whole, if the whole's environment
    and invariant are those of the component as seen through the lens. *)
Lemma wp_zoom {S T A} (Inv : S -> Prop) (G : relation S) (InvT : T -> Prop) (GT : relation T)
    (get : S -> T) (set : T -> S -> S) (m : task T A) (Q : A -> T -> Prop) s :
  (forall t s, get (set t s) = t) ->
  (forall s, Inv s -> InvT (get s)) -> (forall s s', G s s' -> GT (get s) (get s')) ->
  (forall t s, Inv s -> InvT t -> GT (get s) t -> Inv (set t s) /\ G s (set t s)) ->
  wp InvT GT m Q (get s) -> wp Inv G (zoom get set m) (fun a s => Q a (get s)) s.
Proof.
  intros Hgs HI HG Hset. revert s. induction m as [a|B f k IH]; intros s Hwp; simpl in *.
  - intros s' Hs' Hg. by apply Hwp; [apply HI|apply HG].
  - intros s' Hs' Hg. destruct (Hwp (get s') (HI _ Hs') (HG _ _ Hg)) as (t & b & -> & Ht & Hgt & Hk).
    exists (set t s'), b. destruct (Hset t s' Hs' Ht Hgt). split_and!; [done..|].
    apply IH. by rewrite Hgs.
Qed.
