(* ===== verification/ShardedMap.v ===== *)
(** The sharded concurrent map of [subduction_core/src/collections/sharded_map.rs].

    A map is [n] shards, each behind its own lock; the shard of a key is chosen by a keyed
    SipHash and Lemire's range reduction. An operation on one key is one critical section;
    one that visits all the shards takes their locks one after another. [flat] is the map
    that the shards are together, and the operations are those of [flat]. *)

From Stdlib Require Import Strings.Byte NArith Lia.
From stdpp Require Import base gmap sorting list relations.
From S2P Require Import Prelude.
From S2P Require Import Types.
From S2P Require Import Traversal.
From S2P Require Import Tasks.

(** [Hash]: what a key feeds to the hasher. *)
Class Hash (K : Type) : Type := hash_bytes : K -> list byte.

(** [#[derive(Hash)]] of a wrapped [[u8; n]]: the length as a [usize], then the bytes
    (little-endian, 64 bits). *)
#[export] Instance array_hash n : Hash (array n) :=
  fun a => reverse (to_be_bytes 8 (N.of_nat n)) ++ arr_list a.

(** The result of SipHash is a [u64]. *)
Class SipHash24Range `{SipHash24} : Prop :=
  siphash24_range k0 k1 l : siphash24 k0 k1 l <= u64_max.

Record ShardedMap (K V : Type) `{Countable K} : Type := MkShardedMap {
  sm_shards : list (gmap K V);
  sm_key0 : N;
  sm_key1 : N
}.
Arguments MkShardedMap {_ _ _ _} _ _ _.
Arguments sm_shards {_ _ _ _} _.
Arguments sm_key0 {_ _ _ _} _.
Arguments sm_key1 {_ _ _ _} _.

Module Sharded.
Section ops.
Context `{HashIter, SipHash24} {K V : Type} `{Countable K} `{!Hash K} (n : nat).
Implicit Types (self : ShardedMap K V) (key : K).

Definition with_key (key0 key1 : N) : ShardedMap K V :=
  MkShardedMap (replicate n ∅) key0 key1.

(** [key_bytes] is what [getrandom] filled in. *)
Definition new (key_bytes : array 16) : ShardedMap K V :=
  with_key (from_be_bytes (reverse (take 8 (arr_list key_bytes))))
           (from_be_bytes (reverse (drop 8 (arr_list key_bytes)))).

Definition sip_keys self : N * N := (sm_key0 self, sm_key1 self).

(** [None]: the [expect] of [usize::try_from]. *)
Definition shard_index self key : option N :=
  let hash := siphash24 (sm_key0 self) (sm_key1 self) (hash_bytes key) in
  let i := N.shiftr (hash * N.of_nat n) 64 in
  if i <=? u64_max then Some i else None.

Definition shard_at self (index : nat) : option (gmap K V) :=
  if bool_decide (index < n)%nat then sm_shards self !! index else None.

(** A critical section under the lock of [get_shard_containing(key)]; [None] is an
    index out of range, or a panic of the section. *)
Definition locked {R} key (f : gmap K V -> option (gmap K V * R)) self :
  option (ShardedMap K V * R) :=
  i ← shard_index self key;
  shard ← sm_shards self !! N.to_nat i;
  '(shard', r) ← f shard;
  Some (MkShardedMap (<[N.to_nat i := shard']> (sm_shards self))
          (sm_key0 self) (sm_key1 self), r).

Definition shard_count : nat := n.

Definition get_cloned key : task (ShardedMap K V) (option V) :=
  act (locked key (fun shard => Some (shard, shard !! key))).

Definition contains_key key : task (ShardedMap K V) bool :=
  act (locked key (fun shard => Some (shard, bool_decide (is_Some (shard !! key))))).

Definition insert key (value : V) : task (ShardedMap K V) (option V) :=
  act (locked key (fun shard => Some (<[key := value]> shard, shard !! key))).

Definition remove key : task (ShardedMap K V) (option V) :=
  act (locked key (fun shard => Some (delete key shard, shard !! key))).

(** [def] is [V::default()]. *)
Definition entry_or_default (def : V) key : task (ShardedMap K V) V :=
  act (locked key (fun shard =>
    let value := default def (shard !! key) in Some (<[key := value]> shard, value))).

Definition with_entry_or_default {R} (def : V) key (f : V -> option (V * R)) :
  task (ShardedMap K V) R :=
  act (locked key (fun shard =>
    '(value, r) ← f (default def (shard !! key)); Some (<[key := value]> shard, r))).

Definition with_entry {R} key (f : V -> option (V * R)) :
  task (ShardedMap K V) (option R) :=
  act (locked key (fun shard =>
    match shard !! key with
    | Some v => '(value, r) ← f v; Some (<[key := value]> shard, Some r)
    | None => Some (shard, None)
    end)).

(** The section of one step of [for shard in &self.shards]. *)
Definition at_shard {R} (f : gmap K V -> gmap K V * R) (i : nat) : task (ShardedMap K V) R :=
  act (fun self =>
    shard ← sm_shards self !! i;
    let '(shard', r) := f shard in
    Some (MkShardedMap (<[i := shard']> (sm_shards self)) (sm_key0 self) (sm_key1 self), r)).

Definition shard_indices : list nat := seq 0 n.

Definition into_keys : task (ShardedMap K V) (list K) :=
  tfor (fun keys i =>
      await ks := at_shard (fun shard => (shard, hash_keys shard)) i in
      Ret (keys ++ ks)) [] shard_indices.

Definition into_values : task (ShardedMap K V) (list V) :=
  tfor (fun values i =>
      await vs := at_shard (fun shard => (shard, hash_values shard)) i in
      Ret (values ++ vs)) [] shard_indices.

Definition merge_with key (value : V) (merge : V -> V -> option V) :
  task (ShardedMap K V) unit :=
  act (locked key (fun shard =>
    match shard !! key with
    | Some existing => v ← merge existing value; Some (<[key := v]> shard, tt)
    | None => Some (<[key := value]> shard, tt)
    end)).

Definition len : task (ShardedMap K V) nat :=
  tfor (fun total i =>
      await k := at_shard (fun shard => (shard, size shard)) i in
      Ret (total + k)%nat) 0%nat shard_indices.

Fixpoint is_empty_from (l : list nat) : task (ShardedMap K V) bool :=
  match l with
  | [] => Ret true
  | i :: l' =>
      await e := at_shard (fun shard => (shard, bool_decide (shard = ∅))) i in
      if negb e then Ret false else is_empty_from l'
  end.

Definition is_empty : task (ShardedMap K V) bool := is_empty_from shard_indices.

Definition clear : task (ShardedMap K V) unit :=
  tfor (fun _ i => at_shard (fun _ => (∅, tt)) i) tt shard_indices.
End ops.

(** ** The map that the shards are *)

Section flat.
Context `{HashIter, SipHash24} {K V : Type} `{Countable K} `{!Hash K} (n : nat).
Implicit Types (self : ShardedMap K V) (key : K).

(** Each key is in the shard of its index. *)
Record wf self : Prop := {
  wf_shards : length (sm_shards self) = n;
  wf_place i shard key :
    sm_shards self !! i = Some shard -> is_Some (shard !! key) ->
    shard_index n self key = Some (N.of_nat i)
}.

Definition flat self : gmap K V := foldr union ∅ (sm_shards self).

Lemma lookup_union_shards (l : list (gmap K V)) k v :
  (forall i j s s', l !! i = Some s -> l !! j = Some s' -> is_Some (s !! k) ->
     is_Some (s' !! k) -> i = j) ->
  foldr union ∅ l !! k = Some v <-> exists i s, l !! i = Some s /\ s !! k = Some v.
Proof.
  induction l as [|s l IH]; intros Hd; simpl.
  - rewrite lookup_empty. split; [done|]. by intros (i & s & Hi & _).
  - assert (Hd' : forall i j s s', l !! i = Some s -> l !! j = Some s' -> is_Some (s !! k) ->
              is_Some (s' !! k) -> i = j).
    { intros i j a b Ha Hb Ka Kb. by injection (Hd (S i) (S j) a b Ha Hb Ka Kb). }
    rewrite lookup_union_Some_raw, (IH Hd'). split.
    + intros [Hs|[_ (i & s' & Hi & Hs')]]; [by exists 0%nat, s|by exists (S i), s'].
    + intros ([|i] & s' & Hi & Hs'); simpl in Hi; [simplify_eq; by left|right].
      split; [|by exists i, s']. apply eq_None_not_Some. intros Hk.
      by discriminate (Hd 0%nat (S i) s s' eq_refl Hi Hk (mk_is_Some _ _ Hs')).
Qed.

Lemma flat_Some self k v :
  wf self ->
  flat self !! k = Some v <-> exists i s, sm_shards self !! i = Some s /\ s !! k = Some v.
Proof.
  intros Hwf. apply lookup_union_shards. intros i j s s' Hi Hj Hs Hs'.
  pose proof (wf_place _ Hwf _ _ _ Hi Hs). pose proof (wf_place _ Hwf _ _ _ Hj Hs').
  by simplify_eq.
Qed.

Lemma flat_at self k i s :
  wf self -> shard_index n self k = Some (N.of_nat i) -> sm_shards self !! i = Some s ->
  flat self !! k = s !! k.
Proof.
  intros Hwf Hk Hi. apply option_eq. intros v. rewrite flat_Some by done. split.
  - intros (j & s' & Hj & Hs'). pose proof (wf_place _ Hwf _ _ _ Hj (mk_is_Some _ _ Hs')).
    by simplify_eq.
  - intros Hv. by exists i, s.
Qed.

(** The index is in range: no panic. *)
Lemma shard_index_lt `{!SipHash24Range} self k :
  wf self -> (0 < n)%nat -> N.of_nat n <= u64_max ->
  exists i s, shard_index n self k = Some (N.of_nat i) /\ sm_shards self !! i = Some s /\
    (i < n)%nat.
Proof.
  intros Hwf Hn Hmax. unfold shard_index.
  set (h := siphash24 _ _ _). pose proof (siphash24_range (sm_key0 self) (sm_key1 self)
    (hash_bytes k)) as Hh. fold h in Hh. unfold u64_max in *.
  set (i := N.shiftr (h * N.of_nat n) 64).
  assert (Hi : i < N.of_nat n).
  { unfold i. rewrite N.shiftr_div_pow2. apply N.Div0.div_lt_upper_bound.
    change (2 ^ 64) with 18446744073709551616. nia. }
  clearbody i. rewrite (proj2 (N.leb_le _ _)) by lia.
  destruct (lookup_lt_is_Some_2 (sm_shards self) (N.to_nat i)) as [s Hs].
  { rewrite (wf_shards _ Hwf). lia. }
  exists (N.to_nat i), s. rewrite N2Nat.id. split_and!; [done..|lia].
Qed.

(** A section that keeps the keys of the shard in place. *)
Lemma locked_spec {R} self k i s s' (r : R) f :
  wf self -> shard_index n self k = Some (N.of_nat i) -> sm_shards self !! i = Some s ->
  f s = Some (s', r) ->
  (forall j, is_Some (s' !! j) -> j = k \/ is_Some (s !! j)) ->
  exists self', locked n k f self = Some (self', r) /\ wf self' /\
    sm_shards self' = <[i := s']> (sm_shards self) /\ sip_keys self' = sip_keys self /\
    flat self' = s' ∪ filter (fun '(j, _) => ~ is_Some (s !! j)) (flat self).
Proof.
  intros Hwf Hk Hi Hf Hdom. unfold locked. rewrite Hk. cbn [mbind option_bind].
  rewrite Nat2N.id, Hi. cbn [mbind option_bind]. rewrite Hf. cbn [mbind option_bind].
  eexists. split; [done|].
  set (self' := MkShardedMap _ _ _).
  assert (Hwf' : wf self').
  { split; [simpl; by rewrite length_insert, (wf_shards _ Hwf)|].
    intros j t key Hj Ht. change (shard_index n self key = Some (N.of_nat j)).
    simpl in Hj. destruct (decide (j = i)) as [->|Hne].
    - rewrite list_lookup_insert_eq in Hj by (by eapply lookup_lt_Some). simplify_eq.
      destruct (Hdom key Ht) as [-> | Hs]; [done|]. by eapply wf_place.
    - rewrite list_lookup_insert_ne in Hj by done. by eapply wf_place. }
  split_and!; [done..|]. apply map_eq. intros j. apply option_eq. intros v.
  rewrite flat_Some by done. rewrite lookup_union_Some_raw, map_lookup_filter_Some.
  assert (Hii : (<[i := s']> (sm_shards self)) !! i = Some s')
    by (apply list_lookup_insert_eq; by eapply lookup_lt_Some).
  split.
  - intros (i' & t & Hi' & Ht). simpl in Hi'. destruct (decide (i' = i)) as [->|Hne].
    + rewrite Hii in Hi'. simplify_eq. by left.
    + rewrite list_lookup_insert_ne in Hi' by done. right.
      pose proof (wf_place _ Hwf _ _ _ Hi' (mk_is_Some _ _ Ht)) as Hj.
      split_and!.
      * apply eq_None_not_Some. intros Hs'.
        pose proof (wf_place _ Hwf' _ _ _ Hii Hs') as Hj'.
        change (shard_index n self j = Some (N.of_nat i)) in Hj'. by simplify_eq.
      * by rewrite flat_Some by done; exists i', t.
      * intros Hs. pose proof (wf_place _ Hwf _ _ _ Hi Hs) as Hj'. by simplify_eq.
  - intros [Hv|[Hn [Hv Hs]]]; [by exists i, s'|].
    apply flat_Some in Hv as (i' & t & Hi' & Ht); [|done].
    exists i', t. split; [|done]. simpl. rewrite list_lookup_insert_ne; [done|].
    intros <-. simplify_eq. by rewrite Ht in Hs; destruct Hs.
Qed.

(** ** The operations are those of the map *)

(** Run alone, the operation does to [flat] what [spec] says, panics included. *)
Definition refines {R} (op : task (ShardedMap K V) R)
    (spec : gmap K V -> option (gmap K V * R)) : Prop :=
  forall self, wf self ->
    match spec (flat self) with
    | Some (m, r) => exists self', run op self = Some (self', r) /\ wf self' /\ flat self' = m
    | None => run op self = None
    end.

(** A section that looks at one key and sets it. *)
Definition at_key {R} (g : option V -> option (option V * R)) key (m : gmap K V) :
  option (gmap K V * R) :=
  '(o, r) ← g (m !! key); Some (partial_alter (fun _ => o) key m, r).

(** A loop over the shards that only reads. *)
Lemma run_shards_fold {R B} (h : gmap K V -> R) (add : B -> R -> B) self b :
  wf self ->
  run (tfor (fun acc i => await x := at_shard (fun shard => (shard, h shard)) i in
                          Ret (add acc x)) b (shard_indices n)) self =
  Some (self, foldl (fun acc shard => add acc (h shard)) b (sm_shards self)).
Proof.
  intros Hwf. unfold shard_indices. rewrite <- (wf_shards _ Hwf).
  assert (Hgen : forall k b, (k <= length (sm_shards self))%nat ->
    run (tfor (fun acc i => await x := at_shard (fun shard => (shard, h shard)) i in
                          Ret (add acc x)) b (seq (length (sm_shards self) - k) k)) self =
    Some (self, foldl (fun acc shard => add acc (h shard)) b
                  (drop (length (sm_shards self) - k) (sm_shards self)))).
  { intros k. induction k as [|k IH]; intros b' Hk.
    - rewrite drop_ge by lia. done.
    - cbn [seq tfor]. rewrite run_bind. cbn [tbind run act at_shard].
      destruct (lookup_lt_is_Some_2 (sm_shards self) (length (sm_shards self) - S k)) as [s Hs];
        [lia|].
      rewrite Hs. cbn [mbind option_bind]. rewrite list_insert_id by done.
      replace (S (length (sm_shards self) - S k)) with (length (sm_shards self) - k)%nat by lia.
      destruct self as [shards k0 k1]. rewrite IH by lia. simpl in *.
      rewrite (drop_S shards s (length shards - S k)) by done. simpl.
      replace (S (length shards - S k)) with (length shards - k)%nat by lia. done. }
  specialize (Hgen (length (sm_shards self)) b). rewrite Nat.sub_diag in Hgen. by apply Hgen.
Qed.

Lemma shards_disjoint self i j s s' :
  wf self -> sm_shards self !! i = Some s -> sm_shards self !! j = Some s' ->
  i <> j -> s ##ₘ s'.
Proof.
  intros Hwf Hi Hj Hne. apply map_disjoint_spec. intros k v w Hv Hw. apply Hne.
  pose proof (wf_place _ Hwf _ _ _ Hi (mk_is_Some _ _ Hv)).
  pose proof (wf_place _ Hwf _ _ _ Hj (mk_is_Some _ _ Hw)). by simplify_eq.
Qed.

Lemma map_to_list_disjoint_union (m1 m2 : gmap K V) :
  m1 ##ₘ m2 -> map_to_list (m1 ∪ m2) ≡ₚ map_to_list m1 ++ map_to_list m2.
Proof.
  intros Hd. apply NoDup_Permutation.
  - apply NoDup_map_to_list.
  - apply NoDup_app. split_and!; [apply NoDup_map_to_list| |apply NoDup_map_to_list].
    intros [k v] Ha%elem_of_map_to_list Hb%elem_of_map_to_list.
    by eapply (map_disjoint_spec m1 m2).
  - intros [k v]. rewrite elem_of_app, !elem_of_map_to_list.
    by apply lookup_union_Some.
Qed.

Lemma flat_entries (l : list (gmap K V)) :
  (forall i j s s', l !! i = Some s -> l !! j = Some s' -> i <> j -> s ##ₘ s') ->
  map_to_list (foldr union ∅ l) ≡ₚ l ≫= map_to_list.
Proof.
  induction l as [|s l IH]; intros Hd; simpl; [by rewrite map_to_list_empty|].
  assert (Hs : s ##ₘ foldr union ∅ l).
  { assert (Hall : forall s', s' ∈ l -> s ##ₘ s').
    { intros s' [j Hj]%list_elem_of_lookup. by apply (Hd 0%nat (S j)). }
    clear -Hall. induction l as [|s' l IH]; simpl; [apply map_disjoint_empty_r|].
    apply map_disjoint_union_r. split; [apply Hall; left|]. apply IH. intros; apply Hall.
    by right. }
  rewrite <- IH; [by apply map_to_list_disjoint_union|].
  intros i j a b Ha Hb Hne. apply (Hd (S i) (S j)); [done..|congruence].
Qed.

Lemma flat_to_list self : wf self -> map_to_list (flat self) ≡ₚ sm_shards self ≫= map_to_list.
Proof. intros Hwf. apply flat_entries. intros. by eapply shards_disjoint. Qed.

Lemma foldl_bind {A B} (f : A -> list B) (l : list A) acc :
  foldl (fun acc x => acc ++ f x) acc l = acc ++ (l ≫= f).
Proof.
  revert acc. induction l as [|x l IH]; intros acc; [simpl; by rewrite app_nil_r|].
  cbn [foldl]. by rewrite IH, bind_cons, app_assoc.
Qed.

Lemma foldl_add {A} (f : A -> nat) (l : list A) acc :
  foldl (fun acc x => acc + f x)%nat acc l = (acc + sum_list_with f l)%nat.
Proof.
  revert acc. induction l as [|x l IH]; intros acc; simpl; [lia|]. rewrite IH. lia.
Qed.

Lemma length_bind {A B} (f : A -> list B) (l : list A) :
  length (l ≫= f) = sum_list_with (fun x => length (f x)) l.
Proof. induction l as [|x l IH]; [done|]. by rewrite bind_cons, length_app, IH. Qed.

Lemma run_into_keys self :
  wf self -> exists keys, run (into_keys n) self = Some (self, keys) /\
    keys ≡ₚ (map_to_list (flat self)).*1.
Proof.
  intros Hwf. unfold into_keys.
  rewrite (run_shards_fold hash_keys (fun keys ks => keys ++ ks) self [] Hwf).
  rewrite foldl_bind. eexists. split; [done|]. simpl. rewrite flat_to_list by done.
  clear. induction (sm_shards self) as [|x l IH]; [done|].
  rewrite !bind_cons, fmap_app, <- IH. apply Permutation_app; [|done]. unfold hash_keys.
  by rewrite hash_iter_perm.
Qed.

Lemma run_into_values self :
  wf self -> exists values, run (into_values n) self = Some (self, values) /\
    values ≡ₚ (map_to_list (flat self)).*2.
Proof.
  intros Hwf. unfold into_values.
  rewrite (run_shards_fold hash_values (fun vs ws => vs ++ ws) self [] Hwf).
  rewrite foldl_bind. eexists. split; [done|]. simpl. rewrite flat_to_list by done.
  clear. induction (sm_shards self) as [|x l IH]; [done|].
  rewrite !bind_cons, fmap_app, <- IH. apply Permutation_app; [|done]. unfold hash_values.
  by rewrite hash_iter_perm.
Qed.

Lemma run_len self : wf self -> run (len n) self = Some (self, size (flat self)).
Proof.
  intros Hwf. unfold len. rewrite (run_shards_fold size Nat.add self 0%nat Hwf).
  rewrite foldl_add, <- length_map_to_list, (flat_to_list self Hwf), length_bind. simpl.
  do 2 f_equal. clear. induction (sm_shards self) as [|s l IH]; [done|]. simpl.
  by rewrite IH, length_map_to_list.
Qed.

Lemma run_is_empty_from self k :
  wf self -> (k <= n)%nat ->
  run (is_empty_from (seq (n - k) k)) self =
  Some (self, bool_decide (Forall (fun shard => shard = ∅) (drop (n - k) (sm_shards self)))).
Proof.
  intros Hwf. pose proof (wf_shards _ Hwf) as Hlen.
  induction k as [|k IH]; intros Hk.
  - rewrite drop_ge by lia. done.
  - cbn [seq is_empty_from]. rewrite run_bind. cbn [run act at_shard].
    destruct (lookup_lt_is_Some_2 (sm_shards self) (n - S k)) as [s Hs]; [lia|].
    rewrite Hs. cbn [mbind option_bind]. rewrite list_insert_id by done.
    replace (MkShardedMap (sm_shards self) (sm_key0 self) (sm_key1 self)) with self
      by (by destruct self).
    rewrite (drop_S (sm_shards self) s (n - S k)) by done.
    replace (S (n - S k)) with (n - k)%nat in * by lia.
    destruct (bool_decide_reflect (s = ∅)) as [He|He]; cbn [negb].
    + rewrite IH by lia. do 2 f_equal. apply bool_decide_ext. rewrite Forall_cons. by intuition.
    + cbn [run]. do 2 f_equal. symmetry. apply bool_decide_eq_false_2. by intros [? _]%Forall_cons.
Qed.

Lemma run_is_empty self :
  wf self -> run (is_empty n) self = Some (self, bool_decide (flat self = ∅)).
Proof.
  intros Hwf. unfold is_empty, shard_indices.
  pose proof (run_is_empty_from self n Hwf (Nat.le_refl n)) as Hrun.
  rewrite Nat.sub_diag in Hrun. rewrite Hrun. do 2 f_equal. apply bool_decide_ext.
  rewrite Forall_lookup. simpl. split.
  - intros Hall. apply map_empty. intros k. apply eq_None_not_Some. intros [v Hv].
    apply flat_Some in Hv as (i & s & Hi & Hs); [|done]. by rewrite (Hall _ _ Hi) in Hs.
  - intros He i s Hi. apply map_empty. intros k. apply eq_None_not_Some. intros [v Hv].
    assert (flat self !! k = Some v) as Hf by (rewrite flat_Some by done; eauto).
    by rewrite He in Hf.
Qed.

Lemma run_clear_from self k :
  (k <= n)%nat -> length (sm_shards self) = n ->
  run (tfor (fun _ i => at_shard (fun _ => (∅, tt)) i) tt (seq (n - k) k)) self =
  Some (MkShardedMap (take (n - k) (sm_shards self) ++ replicate k ∅)
          (sm_key0 self) (sm_key1 self), tt).
Proof.
  revert self. induction k as [|k IH]; intros self Hk Hlen.
  - simpl. rewrite app_nil_r, take_ge by lia. by destruct self.
  - cbn [seq tfor]. rewrite run_bind. cbn [run act at_shard].
    destruct (lookup_lt_is_Some_2 (sm_shards self) (n - S k)) as [s Hs]; [lia|].
    rewrite Hs. cbn [mbind option_bind].
    replace (S (n - S k)) with (n - k)%nat in * by lia.
    rewrite IH; [|lia|simpl; by rewrite length_insert]. simpl. do 3 f_equal.
    replace (n - k)%nat with (S (n - S k)) by lia.
    erewrite take_S_r by (apply list_lookup_insert_eq; lia).
    rewrite take_insert_ge by lia. by rewrite <- app_assoc.
Qed.

Lemma run_clear self :
  wf self -> exists self', run (clear n) self = Some (self', tt) /\ wf self' /\ flat self' = ∅.
Proof.
  intros Hwf. pose proof (run_clear_from self n (Nat.le_refl n) (wf_shards _ Hwf)) as Hrun.
  rewrite Nat.sub_diag in Hrun. unfold clear, shard_indices. rewrite Hrun.
  assert (Hflat : foldr union ∅ (replicate n (∅ : gmap K V)) = ∅).
  { clear. induction n as [|k IH]; simpl; [done|]. by rewrite IH, map_empty_union. }
  eexists. split_and!; [done| |done]. split; [simpl; by rewrite length_replicate|].
  cbn [sm_shards take app]. intros i s k [-> _]%lookup_replicate [v Hv]. by rewrite lookup_empty in Hv.
Qed.

Lemma flat_with_key k0 k1 : flat (with_key n k0 k1 : ShardedMap K V) = ∅.
Proof.
  unfold flat, with_key. cbn [sm_shards]. clear. induction n as [|k IH]; simpl; [done|].
  by rewrite IH, map_empty_union.
Qed.

Lemma with_key_wf k0 k1 : wf (with_key n k0 k1).
Proof.
  split; [unfold with_key; simpl; by rewrite length_replicate|].
  cbn [with_key sm_shards]. intros i s k [-> _]%lookup_replicate [v Hv]. by rewrite lookup_empty in Hv.
Qed.
End flat.

(** ** Refinement *)

Section claim.
Context `{HashIter, SipHash24Range} {K V : Type} `{Countable K} `{!Hash K} (n : nat).

Lemma refines_ext {R} (op : task (ShardedMap K V) R) spec spec' :
  (forall m, spec m = spec' m) -> refines n op spec -> refines n op spec'.
Proof. intros He Hr self Hwf. rewrite <- He. by apply Hr. Qed.

Lemma locked_refines {R} (key : K) (g : option V -> option (option V * R)) f :
  (0 < n)%nat -> N.of_nat n <= u64_max ->
  (forall m, f m = at_key g key m) -> refines n (act (locked n key f)) (at_key g key).
Proof.
  intros Hn Hmax Hf self Hwf.
  destruct (shard_index_lt n self key Hwf Hn Hmax) as (i & s & Hi & Hs & _).
  unfold at_key. rewrite (flat_at n self key i s Hwf Hi Hs).
  destruct (g (s !! key)) as [[o r]|] eqn:Hg; cbn [mbind option_bind].
  - destruct (locked_spec n self key i s (partial_alter (fun _ => o) key s) r f Hwf Hi Hs)
      as (self' & Hrun & Hwf' & _ & _ & Hflat).
    { rewrite Hf. unfold at_key. by rewrite Hg. }
    { intros j Hj. destruct (decide (j = key)) as [-> | Hne]; [by left|right].
      by rewrite lookup_partial_alter_ne in Hj by done. }
    exists self'. cbn [run act]. rewrite Hrun. split_and!; [done..|]. rewrite Hflat.
    apply map_eq. intros j. destruct (decide (j = key)) as [-> | Hne].
    + rewrite lookup_partial_alter_eq. apply option_eq. intros v.
      rewrite lookup_union_Some_raw, lookup_partial_alter_eq, map_lookup_filter_Some.
      rewrite (flat_at n self key i s Hwf Hi Hs). split; [|by left].
      intros [?|(_ & Hv & Hno)]; [done|]. rewrite Hv in Hno. by destruct Hno.
    + rewrite lookup_partial_alter_ne by done. apply option_eq. intros v.
      rewrite lookup_union_Some_raw, lookup_partial_alter_ne, map_lookup_filter_Some by done.
      split.
      * intros [Hv|(_ & Hv & _)]; [|done]. by rewrite (flat_Some n) by done; exists i, s.
      * intros Hv. destruct (s !! j) as [w|] eqn:Hw; [left|right].
        -- rewrite <- Hv. symmetry. rewrite <- Hw. apply (flat_at n self j i s Hwf); [|done].
           by eapply wf_place.
        -- split_and!; [done..|]. by intros [? ?].
  - cbn [run act]. unfold locked. rewrite Hi. cbn [mbind option_bind]. rewrite Nat2N.id, Hs.
    cbn [mbind option_bind]. rewrite Hf. unfold at_key. by rewrite Hg.
Qed.

(** C22: A sharded map behaves as one map: each operation, run alone, does to the union of
    the shards what the same operation of a map does, whichever hash function places the
    keys, and an operation on a key never takes an index out of range. *)
Theorem ShardedMap_refines (key : K) (v def : V) {R} (f : V -> option (V * R))
    (mrg : V -> V -> option V) :
  (0 < n)%nat -> N.of_nat n <= u64_max ->
  refines (V:=V) n (get_cloned n key) (fun m => Some (m, m !! key)) /\
  refines (V:=V) n (contains_key n key) (fun m => Some (m, bool_decide (is_Some (m !! key)))) /\
  refines (V:=V) n (insert n key v) (fun m => Some (<[key := v]> m, m !! key)) /\
  refines (V:=V) n (remove n key) (fun m => Some (delete key m, m !! key)) /\
  refines (V:=V) n (entry_or_default n def key)
    (fun m => Some (<[key := default def (m !! key)]> m, default def (m !! key))) /\
  refines (V:=V) n (with_entry_or_default n def key f)
    (fun m => '(w, r) ← f (default def (m !! key)); Some (<[key := w]> m, r)) /\
  refines (V:=V) n (with_entry n key f)
    (fun m => match m !! key with
              | Some w => '(w', r) ← f w; Some (<[key := w']> m, Some r)
              | None => Some (m, None)
              end) /\
  refines (V:=V) n (merge_with n key v mrg)
    (fun m => match m !! key with
              | Some w => w' ← mrg w v; Some (<[key := w']> m, tt)
              | None => Some (<[key := v]> m, tt)
              end) /\
  refines (V:=V) n (len n) (fun m => Some (m, size m)) /\
  refines (V:=V) n (is_empty n) (fun m => Some (m, bool_decide (m = ∅))) /\
  refines (V:=V) n (clear n) (fun _ => Some (∅, tt)) /\
  (forall self : ShardedMap K V, wf n self -> exists keys values,
     run (into_keys n) self = Some (self, keys) /\ keys ≡ₚ (map_to_list (flat self)).*1 /\
     run (into_values n) self = Some (self, values) /\
     values ≡ₚ (map_to_list (flat self)).*2).
Proof.
  intros Hn Hmax.
  assert (Hgo : forall R (g : option V -> option (option V * R)) h,
    (forall m, h m = at_key g key m) -> refines n (act (locked n key h)) h).
  { intros R' g h Hh. eapply refines_ext; [by intros m; symmetry; apply Hh|].
    by apply locked_refines. }
  assert (Hsame : forall (m : gmap K V), partial_alter (fun _ => m !! key) key m = m).
  { intros m. apply partial_alter_self. }
  split_and!.
  - apply (Hgo _ (fun o => Some (o, o))). intros m. unfold at_key. simpl. by rewrite Hsame.
  - apply (Hgo _ (fun o => Some (o, bool_decide (is_Some o)))). intros m. unfold at_key.
    simpl. by rewrite Hsame.
  - by apply (Hgo _ (fun o => Some (Some v, o))).
  - by apply (Hgo _ (fun o => Some (None, o))).
  - by apply (Hgo _ (fun o => Some (Some (default def o), default def o))).
  - apply (Hgo _ (fun o => '(w, r) ← f (default def o); Some (Some w, r))). intros m.
    unfold at_key. by destruct (f (default def (m !! key))) as [[w r]|].
  - apply (Hgo _ (fun o => match o with
      | Some w => '(w', r) ← f w; Some (Some w', Some r) | None => Some (None, None) end)).
    intros m. unfold at_key. destruct (m !! key) as [w|] eqn:Hw; simpl.
    + by destruct (f w) as [[w' r]|].
    + by rewrite <- Hw, Hsame.
  - apply (Hgo _ (fun o => match o with
      | Some w => w' ← mrg w v; Some (Some w', tt) | None => Some (Some v, tt) end)).
    intros m. unfold at_key. destruct (m !! key) as [w|]; [|done]. simpl. by destruct (mrg w v).
  - intros self Hwf. exists self. by rewrite run_len.
  - intros self Hwf. exists self. by rewrite run_is_empty.
  - intros self Hwf. destruct (run_clear n self Hwf) as (self' & ? & ? & ?). by exists self'.
  - intros self Hwf. destruct (run_into_keys n self Hwf) as (ks & ? & ?).
    destruct (run_into_values n self Hwf) as (vs & ? & ?). by exists ks, vs.
Qed.
End claim.

(** ** Examples *)

(** A hash for evaluation: the sum of the bytes, in the upper byte. *)
Definition siphash_sum : SipHash24 := fun k0 k1 l =>
  as_u64 (k0 + k1 + 72057594037927936 * foldr (fun b acc => Byte.to_N b + acc) 0 l).

Lemma siphash_sum_range : @SipHash24Range siphash_sum.
Proof.
  intros k0 k1 l. unfold siphash24, siphash_sum, as_u64, u64_max.
  pose proof (N.mod_lt (k0 + k1 + 72057594037927936 * foldr (fun b acc => Byte.to_N b + acc) 0 l)
    18446744073709551616 ltac:(lia)). lia.
Qed.

#[local] Existing Instance siphash_sum.
#[local] Existing Instance siphash_sum_range.
#[local] Existing Instance hash_iter_by_encoding.

Lemma ShardedMap_refines_witness :
  let id := array_pad 32 [xff] in
  exists self', run (insert 4 id true) (with_key 4 0 0) = Some (self', None) /\
    wf 4 self' /\ flat self' = {[id := true]}.
Proof.
  intros id.
  assert (Hr : refines 4 (insert 4 id true) (fun m => Some (<[id := true]> m, m !! id)))
    by (eapply (ShardedMap_refines 4 id true true (R := unit) (fun v => Some (v, tt))
                  (fun v _ => Some v)); [lia|unfold u64_max; simpl; lia]).
  exact (Hr (with_key 4 0 0) (with_key_wf 4 0 0)).
Defined.
End Sharded.
