(* ===== verification/BoundedShardedMap.v ===== *)
(** The capacity-bounded cache of [subduction_core/src/collections/bounded_sharded_map.rs].

    A sharded map whose values carry the tick of their last access. The tick is taken
    from a counter before the lock of the shard, so an operation is two critical sections;
    a section that adds a key to a full shard first removes the entry with the smallest
    tick. [with_hydrated_ref] and [with_entry_hydrated] load a missing value with no lock
    held; [load] is a task on the whole state, in which the cache is a part.

    [Bounded.cached] is the map that a client sees; [Bounded.ok] is the bound on every
    shard; [Bounded.lru] relates a shard to the list of its entries, the most recently
    used first. *)

From Stdlib Require Import Strings.Byte NArith Lia.
From stdpp Require Import base gmap sorting list relations.
From S2P Require Import Prelude.
From S2P Require Import Types.
From S2P Require Import Traversal.
From S2P Require Import Tasks.
From S2P Require Import ShardedMap.

(** [Tick(u64)] *)
Notation Tick := N (only parsing).

Record BoundedShardedMap (K V : Type) `{Countable K} : Type := MkBounded {
  bs_inner : ShardedMap K (V * Tick);
  bs_tick : N;
  bs_cap : option nat
}.
Arguments MkBounded {_ _ _ _} _ _ _.
Arguments bs_inner {_ _ _ _} _.
Arguments bs_tick {_ _ _ _} _.
Arguments bs_cap {_ _ _ _} _.

(** [iter.min_by_key(f)]: the first of the smallest. *)
Definition min_by_key {A} (f : A -> N) (l : list A) : option A :=
  match l with
  | [] => None
  | x :: l' => Some (foldl (fun best y => if f y <? f best then y else best) x l')
  end.

Module Bounded.
Section ops.
Context `{HashIter, SipHash24} {K V : Type} `{Countable K} `{!Hash K} (n : nat).
Implicit Types (self : BoundedShardedMap K V) (key : K).

(** [key_bytes] is what [getrandom] filled in. *)
Definition new (key_bytes : array 16) : BoundedShardedMap K V :=
  MkBounded (Sharded.new n key_bytes) 0 None.

Definition with_key (key0 key1 : N) : BoundedShardedMap K V :=
  MkBounded (Sharded.with_key n key0 key1) 0 None.

(** [max_entries.div_ceil(N).max(1)] *)
Definition with_capacity (max_entries : nat) self : BoundedShardedMap K V :=
  let per_shard := Nat.max ((max_entries + (n - 1)) / n) 1 in
  MkBounded (bs_inner self) (bs_tick self) (Some per_shard).

Definition per_shard_capacity self : option nat := bs_cap self.

(** [fetch_add] wraps around. *)
Definition next_tick : task (BoundedShardedMap K V) Tick :=
  act (fun self =>
    match bs_cap self with
    | None => Some (self, 0)
    | Some _ => Some (MkBounded (bs_inner self) (as_u64 (bs_tick self + 1)) (bs_cap self),
                      bs_tick self)
    end).

Definition evict_if_full_locked (cap : option nat) (shard : gmap K (V * Tick))
    (incoming : K) : gmap K (V * Tick) :=
  match cap with
  | None => shard
  | Some cap =>
      if bool_decide (size shard < cap)%nat || bool_decide (is_Some (shard !! incoming))
      then shard
      else match fst <$> min_by_key (fun e => e.2.2) (hash_iter shard) with
           | Some victim => delete victim shard
           | None => shard
           end
  end.

(** [if self.per_shard_capacity.is_some() { entry.1 = tick; }] *)
Definition touch (cap : option nat) (tick : Tick) (entry : V * Tick) : V * Tick :=
  match cap with Some _ => (entry.1, tick) | None => entry end.

(** A section under the lock of the shard that contains [key]. *)
Definition locked {R} key
    (f : option nat -> gmap K (V * Tick) -> option (gmap K (V * Tick) * R)) :
  task (BoundedShardedMap K V) R :=
  act (fun self =>
    '(inner, r) ← Sharded.locked n key (f (bs_cap self)) (bs_inner self);
    Some (MkBounded inner (bs_tick self) (bs_cap self), r)).

Definition get_cloned key : task (BoundedShardedMap K V) (option V) :=
  await tick := next_tick in
  locked key (fun cap shard =>
    match shard !! key with
    | None => Some (shard, None)
    | Some entry =>
        let entry := touch cap tick entry in
        Some (<[key := entry]> shard, Some entry.1)
    end).

Definition with_entry {R} key (f : V -> option (V * R)) :
  task (BoundedShardedMap K V) (option R) :=
  await tick := next_tick in
  locked key (fun cap shard =>
    match shard !! key with
    | None => Some (shard, None)
    | Some entry =>
        let entry := touch cap tick entry in
        '(v, r) ← f entry.1;
        Some (<[key := (v, entry.2)]> shard, Some r)
    end).

(** [def] is [V::default()]. *)
Definition with_entry_or_default {R} (def : V) key (f : V -> option (V * R)) :
  task (BoundedShardedMap K V) R :=
  await tick := next_tick in
  locked key (fun cap shard =>
    let shard := evict_if_full_locked cap shard key in
    let entry := touch cap tick (default (def, tick) (shard !! key)) in
    '(v, r) ← f entry.1;
    Some (<[key := (v, entry.2)]> shard, r)).

(** [value] is the result of [make()], which is called at most once and has no effect. *)
Definition get_or_insert_with key (value : V) : task (BoundedShardedMap K V) V :=
  await tick := next_tick in
  locked key (fun cap shard =>
    match shard !! key with
    | Some entry =>
        let entry := touch cap tick entry in
        Some (<[key := entry]> shard, entry.1)
    | None =>
        let shard := evict_if_full_locked cap shard key in
        Some (<[key := (value, tick)]> shard, value)
    end).

(** [entry.map(|(value, _)| value)] *)
Definition value_of (entry : option (V * Tick)) : option V := fst <$> entry.

Definition remove key : task (BoundedShardedMap K V) (option V) :=
  locked key (fun _ shard => Some (delete key shard, value_of (shard !! key))).

Definition on_inner {R} (m : task (ShardedMap K (V * Tick)) R) :
  task (BoundedShardedMap K V) R :=
  zoom bs_inner (fun inner self => MkBounded inner (bs_tick self) (bs_cap self)) m.

Definition into_keys : task (BoundedShardedMap K V) (list K) := on_inner (Sharded.into_keys n).
Definition len : task (BoundedShardedMap K V) nat := on_inner (Sharded.len n).
Definition is_empty : task (BoundedShardedMap K V) bool := on_inner (Sharded.is_empty n).

(** *** Loading on a miss *)

(** The whole state, with the cache as a part. *)
Context {S E : Type} (cache : S -> BoundedShardedMap K V)
  (set_cache : BoundedShardedMap K V -> S -> S).

(** The resident hit of [with_hydrated_ref]: [Some] is its result. *)
Definition inspect_hit {R} key (inspect : V -> R) : task (BoundedShardedMap K V) (option R) :=
  await tick := next_tick in
  locked key (fun cap shard =>
    match shard !! key with
    | Some entry =>
        let entry := touch cap tick entry in
        Some (<[key := entry]> shard, Some (inspect entry.1))
    | None => Some (shard, None)
    end).

(** Its last part: adopt a value that was installed in the meantime, or install. *)
Definition inspect_install {R} key (loaded : V) (inspect : V -> R) :
  task (BoundedShardedMap K V) R :=
  await tick := next_tick in
  locked key (fun cap shard =>
    match shard !! key with
    | Some entry =>
        let entry := touch cap tick entry in
        Some (<[key := entry]> shard, inspect entry.1)
    | None =>
        let shard := evict_if_full_locked cap shard key in
        Some (<[key := (loaded, tick)]> shard, inspect loaded)
    end).

Definition with_hydrated_ref {R} key (load : task S (result E (option V)))
    (inspect : V -> R) : task S (result E (option R)) :=
  await hit := zoom cache set_cache (inspect_hit key inspect) in
  match hit with
  | Some r => Ret (Ok (Some r))
  | None =>
      await? loaded := load in
      match loaded with
      | None => Ret (Ok None)
      | Some loaded =>
          await r := zoom cache set_cache (inspect_install key loaded inspect) in
          Ret (Ok (Some r))
      end
  end.

Definition mutate_install {R} (def : V) key (loaded : option V) (mutate : V -> option (V * R)) :
  task (BoundedShardedMap K V) R :=
  await tick := next_tick in
  locked key (fun cap shard =>
    match shard !! key with
    | Some entry =>
        let entry := touch cap tick entry in
        '(v, r) ← mutate entry.1;
        Some (<[key := (v, entry.2)]> shard, r)
    | None =>
        let shard := evict_if_full_locked cap shard key in
        '(value, r) ← mutate (default def loaded);
        Some (<[key := (value, tick)]> shard, r)
    end).

(** Its resident hit is the section of [with_entry]. *)
Definition with_entry_hydrated {R} (def : V) key (load : task S (result E (option V)))
    (mutate : V -> option (V * R)) : task S (result E R) :=
  await hit := zoom cache set_cache (with_entry key mutate) in
  match hit with
  | Some r => Ret (Ok r)
  | None =>
      await? loaded := load in
      await r := zoom cache set_cache (mutate_install def key loaded mutate) in
      Ret (Ok r)
  end.
End ops.

(** ** Eviction *)

Lemma min_by_key_spec {A} (f : A -> N) l x :
  min_by_key f l = Some x -> x ∈ l /\ forall y, y ∈ l -> f x <= f y.
Proof.
  destruct l as [|a l]; [done|]. intros [= <-]. simpl.
  induction l as [|y l IH] using rev_ind; simpl.
  - split; [left|]. by intros y ->%list_elem_of_singleton.
  - rewrite foldl_app. simpl. destruct IH as [Hin Hmin].
    set (b := foldl _ a l) in *. clearbody b.
    destruct (N.ltb_spec (f y) (f b)) as [Hlt|Hge]; split.
    + right. apply elem_of_app. right. by left.
    + intros z. rewrite elem_of_cons, elem_of_app, list_elem_of_singleton.
      intros [-> |[Hz| ->]]; [|pose proof (Hmin z (list_elem_of_further _ _ _ Hz)); lia|lia].
      pose proof (Hmin a ltac:(left)). lia.
    + apply elem_of_cons in Hin as [-> |Hin]; [left|right]. apply elem_of_app. by left.
    + intros z. rewrite elem_of_cons, elem_of_app, list_elem_of_singleton.
      intros [-> |[Hz| ->]]; [apply Hmin; left|apply Hmin; by right|done].
Qed.

Lemma min_by_key_Some {A} (f : A -> N) l : l <> [] -> is_Some (min_by_key f l).
Proof. destruct l; [done|]. by eexists. Qed.

Section specs.
Context `{HashIter, SipHash24} {K V : Type} `{Countable K} `{!Hash K} (n : nat).
Implicit Types (self : BoundedShardedMap K V) (key : K) (shard : gmap K (V * Tick)).

(** The bound of a shard. *)
Definition bounded (cap : option nat) shard : Prop :=
  match cap with None => True | Some c => (1 <= c)%nat /\ (size shard <= c)%nat end.

Lemma evict_cases cap shard key :
  evict_if_full_locked cap shard key = shard \/
  exists c victim, cap = Some c /\ is_Some (shard !! victim) /\ victim <> key /\
    evict_if_full_locked cap shard key = delete victim shard.
Proof.
  destruct cap as [c|]; [|by left]. simpl.
  case_bool_decide; [by left|]. simpl. case_bool_decide as Hk; [by left|].
  destruct (min_by_key _ _) as [[v e]|] eqn:Hm; cbn [fmap option_fmap option_map]; [right|by left].
  apply min_by_key_spec in Hm as [Hin _]. apply elem_of_hash_iter in Hin.
  exists c, v. split_and!; [done|by eexists| |done]. intros ->. apply Hk. by eexists.
Qed.

(** There is room for the incoming key. *)
Lemma evict_room c shard key :
  bounded (Some c) shard -> shard !! key = None ->
  (size (evict_if_full_locked (Some c) shard key) < c)%nat.
Proof.
  intros [Hc Hs] Hk. simpl. case_bool_decide as Hlt; simpl; [done|].
  rewrite bool_decide_eq_false_2 by (rewrite Hk; by intros [? ?]).
  assert (Hne : hash_iter shard <> []).
  { intros Hnil. pose proof (hash_iter_perm shard) as Hp. rewrite Hnil in Hp.
    apply Permutation_nil in Hp. apply map_to_list_empty_iff in Hp. subst shard.
    rewrite map_size_empty in Hlt. lia. }
  destruct (min_by_key_Some (fun e => e.2.2) _ Hne) as [[v e] Hm]. rewrite Hm. simpl.
  apply min_by_key_spec in Hm as [Hin _]. apply elem_of_hash_iter in Hin.
  rewrite map_size_delete_Some by (by eexists).
  assert (size shard <> 0%nat); [|lia]. intros Hz%map_size_empty_inv. subst shard.
  by rewrite lookup_empty in Hin.
Qed.

Lemma bounded_set cap shard key e :
  bounded cap shard -> is_Some (shard !! key) -> bounded cap (<[key := e]> shard).
Proof.
  destruct cap as [c|]; simpl; [|done]. intros [? ?] Hk. split; [done|].
  by rewrite map_size_insert_Some.
Qed.

Lemma bounded_install cap shard key e :
  bounded cap shard -> shard !! key = None ->
  bounded cap (<[key := e]> (evict_if_full_locked cap shard key)).
Proof.
  intros Hb Hk. destruct cap as [c|]; [|done].
  pose proof (evict_room c shard key Hb Hk) as Hlt. destruct Hb as [Hc _]. split; [done|].
  set (m := evict_if_full_locked _ _ _) in *. clearbody m.
  rewrite map_size_insert. destruct (m !! key); unfold id; lia.
Qed.

(** ** What the client sees *)

Definition cached self : gmap K V := fst <$> Sharded.flat (bs_inner self).

Record ok self : Prop := {
  ok_wf : Sharded.wf n (bs_inner self);
  ok_bounded i shard : sm_shards (bs_inner self) !! i = Some shard -> bounded (bs_cap self) shard
}.

(** The section set [key] to [o]; other keys stay, or are evicted if there is a bound. *)
Record effect key (o : option V) self self' : Prop := {
  eff_ok : ok self';
  eff_cap : bs_cap self' = bs_cap self;
  eff_key : cached self' !! key = o;
  eff_other j : j <> key ->
    cached self' !! j = cached self !! j \/ (is_Some (bs_cap self) /\ cached self' !! j = None)
}.

(** [f] does to the value of [key] what [g] says. *)
Definition follows {R} key
    (f : option nat -> gmap K (V * Tick) -> option (gmap K (V * Tick) * R))
    (g : option V -> option (option V * R)) : Prop :=
  forall cap shard, bounded cap shard ->
    match g (value_of (shard !! key)) with
    | None => f cap shard = None
    | Some (o, r) => exists shard', f cap shard = Some (shard', r) /\ bounded cap shard' /\
        value_of (shard' !! key) = o /\
        forall j, j <> key ->
          shard' !! j = shard !! j \/ (is_Some cap /\ shard' !! j = None)
    end.

Lemma cached_at self key i shard :
  ok self -> Sharded.shard_index n (bs_inner self) key = Some (N.of_nat i) ->
  sm_shards (bs_inner self) !! i = Some shard -> cached self !! key = value_of (shard !! key).
Proof.
  intros Hok Hi Hs. unfold cached. rewrite lookup_fmap.
  by rewrite (Sharded.flat_at n _ _ _ _ (ok_wf _ Hok) Hi Hs).
Qed.

Lemma next_tick_effect self :
  ok self -> exists self' tick, run next_tick self = Some (self', tick) /\ ok self' /\
    bs_cap self' = bs_cap self /\ cached self' = cached self.
Proof.
  intros [Hwf Hb]. simpl. destruct (bs_cap self) as [c|] eqn:Hc; eexists _, _; split_and!;
    try done; split; simpl; try done; by rewrite Hc.
Qed.

Context `{!SipHash24Range} (Hn : (0 < n)%nat) (Hmax : N.of_nat n <= u64_max).

Lemma locked_effect {R} key f (g : option V -> option (option V * R)) self :
  follows key f g -> ok self ->
  match g (cached self !! key) with
  | None => run (locked n key f) self = None
  | Some (o, r) => exists self', run (locked n key f) self = Some (self', r) /\
      effect key o self self'
  end.
Proof.
  intros Hf Hok. pose proof Hok as [Hwf Hb].
  destruct (Sharded.shard_index_lt n (bs_inner self) key Hwf Hn Hmax) as (i & s & Hi & Hs & _).
  rewrite (cached_at self key i s Hok Hi Hs). specialize (Hf (bs_cap self) s (Hb i s Hs)).
  destruct (g _) as [[o r]|].
  - destruct Hf as (s' & Hf & Hb' & Ho & Hother).
    destruct (Sharded.locked_spec n (bs_inner self) key i s s' r (f (bs_cap self)) Hwf Hi Hs Hf)
      as (inner & Hrun & Hwf' & Hsh & Hkeys & _).
    { intros j Hj. destruct (decide (j = key)) as [-> |Hne]; [by left|right].
      destruct (Hother j Hne) as [<- |[_ Hn']]; [done|]. by rewrite Hn' in Hj; destruct Hj. }
    set (self' := MkBounded inner (bs_tick self) (bs_cap self)).
    exists self'. cbn [run act locked]. rewrite Hrun. split; [done|].
    assert (Hin : sm_shards inner !! i = Some s')
      by (rewrite Hsh; apply list_lookup_insert_eq; by eapply lookup_lt_Some).
    assert (Hidx : forall j, Sharded.shard_index n inner j = Sharded.shard_index n (bs_inner self) j).
    { intros j. unfold Sharded.sip_keys in Hkeys. injection Hkeys as H0' H1'.
      unfold Sharded.shard_index. by rewrite H0', H1'. }
    assert (Hok' : ok self').
    { split; [done|]. intros j t Hj. simpl in Hj. rewrite Hsh in Hj.
      destruct (decide (j = i)) as [->|Hne].
      - rewrite list_lookup_insert_eq in Hj by (by eapply lookup_lt_Some). by simplify_eq.
      - rewrite list_lookup_insert_ne in Hj by done. by eapply Hb. }
    split; [done..| |].
    + rewrite (cached_at self' key i s' Hok'); [done|simpl; by rewrite Hidx|done].
    + intros j Hne.
      destruct (Sharded.shard_index_lt n (bs_inner self) j Hwf Hn Hmax) as (i' & t & Hi' & Ht & _).
      destruct (decide (i' = i)) as [->|Hnei].
      * simplify_eq. rewrite (cached_at self' j i s' Hok'); [|simpl; by rewrite Hidx|done].
        rewrite (cached_at self j i s Hok Hi' Hs).
        destruct (Hother j Hne) as [-> |[? ->]]; [by left|by right].
      * left. rewrite (cached_at self' j i' t Hok'); [|simpl; by rewrite Hidx|].
        -- by rewrite (cached_at self j i' t Hok Hi' Ht).
        -- simpl. rewrite Hsh. by rewrite list_lookup_insert_ne.
  - cbn [run act locked]. unfold Sharded.locked. rewrite Hi. cbn [mbind option_bind].
    rewrite Nat2N.id, Hs. cbn [mbind option_bind]. by rewrite Hf.
Qed.

(** An operation: a tick, then a section that follows [g]. *)
Definition op {R} key (m : task (BoundedShardedMap K V) R)
    (g : option V -> option (option V * R)) : Prop :=
  exists f, m = tbind next_tick (fun tick => locked n key (f tick)) /\
    forall tick, follows key (f tick) g.

Lemma op_effect {R} key m (g : option V -> option (option V * R)) self :
  op key m g -> ok self ->
  match g (cached self !! key) with
  | None => run m self = None
  | Some (o, r) => exists self', run m self = Some (self', r) /\ effect key o self self'
  end.
Proof.
  intros (f & -> & Hf) Hok. rewrite run_bind.
  destruct (next_tick_effect self Hok) as (self1 & tick & -> & Hok1 & Hcap & Hc).
  pose proof (locked_effect key (f tick) g self1 (Hf tick) Hok1) as Hrun. rewrite Hc in Hrun.
  destruct (g _) as [[o r]|]; [|done]. destruct Hrun as (self' & Hrun & [? Hcap' ? Hother]).
  exists self'. split; [done|]. split; [done|by rewrite Hcap'|done|].
  intros j Hne. rewrite <- Hcap, <- Hc. by apply Hother.
Qed.
End specs.

(** *** The operations *)

Section follow.
Context `{HashIter, SipHash24} {K V : Type} `{Countable K} `{!Hash K} (n : nat).
Implicit Types (key : K) (shard : gmap K (V * Tick)).

Lemma follow_keep key cap shard v :
  bounded cap shard -> value_of (shard !! key) = v ->
  bounded cap shard /\ value_of (shard !! key) = v /\
  forall j, j <> key -> shard !! j = shard !! j \/ (is_Some cap /\ shard !! j = None).
Proof. intros ? ?. split_and!; [done..|]. by left. Qed.

Lemma follow_set key cap shard e v :
  bounded cap shard -> is_Some (shard !! key) -> e.1 = v ->
  bounded cap (<[key := e]> shard) /\ value_of (<[key := e]> shard !! key) = Some v /\
  forall j, j <> key ->
    <[key := e]> shard !! j = shard !! j \/ (is_Some cap /\ <[key := e]> shard !! j = None).
Proof.
  intros Hb Hk <-. split_and!; [by apply bounded_set|by rewrite lookup_insert_eq|].
  intros j Hne. left. by rewrite lookup_insert_ne.
Qed.

Lemma follow_install key cap shard e v :
  bounded cap shard -> shard !! key = None -> e.1 = v ->
  let shard' := <[key := e]> (evict_if_full_locked cap shard key) in
  bounded cap shard' /\ value_of (shard' !! key) = Some v /\
  forall j, j <> key -> shard' !! j = shard !! j \/ (is_Some cap /\ shard' !! j = None).
Proof.
  intros Hb Hk <-. split_and!; [by apply bounded_install|by rewrite lookup_insert_eq|].
  intros j Hne. rewrite lookup_insert_ne by done.
  destruct (evict_cases cap shard key) as [-> |(c & w & -> & _ & _ & ->)]; [by left|].
  destruct (decide (j = w)) as [-> |Hw]; [right; split; [by eexists|by rewrite lookup_delete_eq]|].
  left. by rewrite lookup_delete_ne.
Qed.

Lemma touch_value cap tick (e : V * Tick) : (touch cap tick e).1 = e.1.
Proof. by destruct cap. Qed.

Lemma evict_resident cap shard key :
  is_Some (shard !! key) -> evict_if_full_locked cap shard key = shard.
Proof.
  intros Hk. destruct cap as [c|]; [|done]. simpl.
  by rewrite (bool_decide_eq_true_2 (is_Some _)), orb_true_r.
Qed.

Lemma evict_absent cap shard key :
  shard !! key = None -> evict_if_full_locked cap shard key !! key = None.
Proof.
  intros Hk. destruct (evict_cases cap shard key) as [-> |(c & w & _ & _ & Hw & ->)]; [done|].
  by rewrite lookup_delete_ne.
Qed.
End follow.

(** A section looks up its key, and keeps, sets or installs it. *)
Ltac solve_follows :=
  let tick := fresh "tick" in let cap := fresh "cap" in let shard := fresh "shard" in
  let Hb := fresh "Hb" in let Hk := fresh "Hk" in
  intros tick cap shard Hb; cbv beta;
  match goal with
  | |- context [shard !! ?key] => destruct (shard !! key) as [?e|] eqn:Hk
  end; cbn [value_of fmap option_fmap option_map default from_option id option_bind];
  try (rewrite evict_resident by (rewrite Hk; by eexists); rewrite Hk);
  try (rewrite evict_absent by done);
  cbn [value_of fmap option_fmap option_map default from_option id]; rewrite ?touch_value; cbn [fst];
  try match goal with
  | |- context [mbind _ (?f ?v)] => destruct (f v) as [[? ?]|]
  end; cbn [mbind option_bind]; try done;
  eexists; (split; [done|]);
  first [ apply follow_install; rewrite ?touch_value; done
        | apply follow_set; rewrite ?touch_value; [done|by eexists|done]
        | apply follow_keep; [done|by rewrite Hk] ].

Section followed.
Context `{HashIter, SipHash24} {K V : Type} `{Countable K} `{!Hash K} (n : nat).
Implicit Types (key : K) (shard : gmap K (V * Tick)).

(** The value after [with_entry], or nothing. *)
Definition on_value {R} (f : V -> option (V * R)) (o : option V) : option (option V * option R) :=
  match o with
  | None => Some (None, None)
  | Some v => '(v', r) ← f v; Some (Some v', Some r)
  end.

Lemma get_cloned_op key : op n key (get_cloned (V:=V) n key) (fun o => Some (o, o)).
Proof. eexists. split; [done|]. solve_follows. Qed.

Lemma with_entry_op {R} key (f : V -> option (V * R)) :
  op n key (with_entry n key f) (on_value f).
Proof. eexists. split; [done|]. unfold on_value. solve_follows. Qed.

Lemma with_entry_or_default_op {R} def key (f : V -> option (V * R)) :
  op n key (with_entry_or_default n def key f)
    (fun o => '(v, r) ← f (default def o); Some (Some v, r)).
Proof. eexists. split; [done|]. solve_follows. Qed.

Lemma get_or_insert_with_op key (value : V) :
  op n key (get_or_insert_with n key value)
    (fun o => Some (Some (default value o), default value o)).
Proof. eexists. split; [done|]. solve_follows. Qed.

Lemma inspect_hit_op {R} key (inspect : V -> R) :
  op n key (inspect_hit n key inspect) (fun o => Some (o, inspect <$> o)).
Proof. eexists. split; [done|]. solve_follows. Qed.

Lemma inspect_install_op {R} key (loaded : V) (inspect : V -> R) :
  op n key (inspect_install n key loaded inspect)
    (fun o => Some (Some (default loaded o), inspect (default loaded o))).
Proof. eexists. split; [done|]. solve_follows. Qed.

Lemma mutate_install_op {R} def key (loaded : option V) (mutate : V -> option (V * R)) :
  op n key (mutate_install n def key loaded mutate)
    (fun o => '(v, r) ← mutate (default (default def loaded) o); Some (Some v, r)).
Proof. eexists. split; [done|]. solve_follows. Qed.

Lemma remove_follows key :
  follows (V:=V) key (fun _ shard => Some (delete key shard, value_of (shard !! key))) (fun o => Some (None, o)).
Proof.
  intros cap shard Hb. simpl. eexists. split; [done|]. split_and!.
  - destruct cap as [c|]; [|done]. destruct Hb as [? Hs]. split; [done|].
    rewrite map_size_delete. destruct (shard !! key); unfold id; lia.
  - by rewrite lookup_delete_eq.
  - intros j Hj. left. by rewrite lookup_delete_ne.
Qed.
End followed.

(** *** Among other tasks *)

(** An operation of the cache as a part of the whole state: the tick changes nothing that
    a client sees, and the section takes effect at once. *)
Section rules.
Context `{HashIter, SipHash24Range} {K V : Type} `{Countable K} `{!Hash K} (n : nat).
Context (Hn : (0 < n)%nat) (Hmax : N.of_nat n <= u64_max).
Context {S : Type} (Inv : S -> Prop) (G : relation S) `{!PreOrder G}.
Context (cache : S -> BoundedShardedMap K V) (set_cache : BoundedShardedMap K V -> S -> S).
Context (Hok : forall s, Inv s -> ok n (cache s)).
Context (Htick : forall c s, Inv s -> ok n c -> bs_cap c = bs_cap (cache s) ->
  cached c = cached (cache s) -> Inv (set_cache c s) /\ G s (set_cache c s)).

Lemma wp_op {R} key m (g : option V -> option (option V * R)) (Q : R -> S -> Prop) s :
  op n key m g ->
  (forall s', Inv s' -> G s s' ->
     exists o r, g (cached (cache s') !! key) = Some (o, r) /\
       forall c, effect n key o (cache s') c ->
         Inv (set_cache c s') /\ G s' (set_cache c s') /\
         forall t, Inv t -> G (set_cache c s') t -> Q r t) ->
  wp Inv G (zoom cache set_cache m) Q s.
Proof.
  intros (f & -> & Hf) HQ s1 Hs1 Hg1.
  destruct (next_tick_effect n (cache s1) (Hok s1 Hs1)) as (c1 & tick & Hrun & Hok1 & Hcap & Hc).
  cbn [run next_tick act] in Hrun. destruct (Htick c1 s1 Hs1 Hok1 Hcap Hc) as [Hi1 Hgt].
  exists (set_cache c1 s1), tick. split_and!; [|done..|].
  { destruct (match bs_cap (cache s1) with Some _ => _ | None => _ end) as [[c' t']|] eqn:He;
      [|done]. by simplify_eq. }
  intros s2 Hs2 Hg2.
  destruct (HQ s2 Hs2) as (o & r & Hgo & Heff); [by do 2 (etrans; [done|])|].
  pose proof (locked_effect n Hn Hmax key (f tick) g (cache s2) (Hf tick) (Hok s2 Hs2)) as Hl.
  rewrite Hgo in Hl. destruct Hl as (c2 & Hrun2 & He2).
  destruct (Heff c2 He2) as (Hi2 & Hgg & HQt).
  cbn [run locked act] in Hrun2. exists (set_cache c2 s2), r. split_and!; [|done..].
  destruct (_ ← _; _) as [[c' r']|]; [|done]. by simplify_eq.
Qed.
End rules.

(** ** Least recently used *)

(** The reference: a shard is the list of its entries, the most recently used first. *)
Section reference.
Context {K V : Type} `{EqDecision K}.
Implicit Types (key : K) (l : list (K * V)).

Definition lru_find key l : option V := snd <$> head (filter (fun e => e.1 = key) l).

(** Used: to the front, with its new value. *)
Definition lru_use key (v : V) l : list (K * V) := (key, v) :: filter (fun e => e.1 <> key) l.

(** Added in front; a full list loses its last entry. *)
Definition lru_add (c : nat) key (v : V) l : list (K * V) := (key, v) :: take (c - 1) l.

Definition lru_set (c : nat) key (v : V) l : list (K * V) :=
  match lru_find key l with Some _ => lru_use key v l | None => lru_add c key v l end.
End reference.

Section lru.
Context `{HashIter, SipHash24} {K V : Type} `{Countable K} `{!Hash K} (n : nat).
Implicit Types (key : K) (shard : gmap K (V * Tick)) (l : list (K * V)).

(** The list, in the order of the ticks. *)
Definition lru (now : Tick) shard l : Prop :=
  exists tl : list (K * (V * Tick)),
    l = (fun e => (e.1, e.2.1)) <$> tl /\ map_to_list shard ≡ₚ tl /\
    StronglySorted (fun a b => b.2.2 < a.2.2) tl /\ Forall (fun e => e.2.2 < now) tl.

Lemma lru_mono now now' shard l : lru now shard l -> now <= now' -> lru now' shard l.
Proof.
  intros (tl & -> & Hp & Hs & Hb) Hle. exists tl. split_and!; [done..|].
  eapply Forall_impl; [done|]. intros e. simpl. lia.
Qed.

Lemma lru_length now shard l : lru now shard l -> length l = size shard.
Proof.
  intros (tl & -> & Hp & _). rewrite length_fmap, <- Hp. apply length_map_to_list.
Qed.

Lemma lru_find_spec now shard l key :
  lru now shard l -> lru_find key l = value_of (shard !! key).
Proof.
  intros (tl & -> & Hp & _ & _). unfold lru_find.
  assert (Hnd : NoDup tl.*1) by (rewrite <- Hp; apply NoDup_fst_map_to_list).
  assert (Hin : forall v t, (key, (v, t)) ∈ tl <-> shard !! key = Some (v, t))
    by (intros v t; rewrite <- Hp; apply elem_of_map_to_list).
  clear Hp. destruct (shard !! key) as [[v t]|]; simpl.
  - assert (Hkv : (key, (v, t)) ∈ tl) by (by apply Hin). clear Hin.
    induction tl as [|[k [w u]] tl IH]; [by apply not_elem_of_nil in Hkv|].
    csimpl in *. rewrite filter_cons. simpl. apply NoDup_cons in Hnd as [Hk Hnd].
    destruct (decide (k = key)) as [-> |Hne]; simpl.
    + apply elem_of_cons in Hkv as [[= -> ->]|Hkv]; [done|].
      by destruct Hk; apply list_elem_of_fmap; exists (key, (v, t)).
    + apply IH; [done|]. apply elem_of_cons in Hkv as [[= -> _ _]|]; done.
  - assert (Hno : forall v t, (key, (v, t)) ∉ tl) by (intros v t Hx; by apply Hin in Hx).
    clear Hin Hnd. induction tl as [|[k [w u]] tl IH]; [done|]. csimpl. rewrite filter_cons. simpl.
    destruct (decide (k = key)) as [-> |Hne]; [by destruct (Hno w u); left|].
    apply IH. intros v t Hx. apply (Hno v t). by right.
Qed.

(** Putting an entry with the current tick in front. *)
Lemma lru_push now shard (tl : list (K * (V * Tick))) key v :
  shard !! key = None -> map_to_list shard ≡ₚ tl ->
  StronglySorted (fun a b => b.2.2 < a.2.2) tl -> Forall (fun e => e.2.2 < now) tl ->
  lru (now + 1) (<[key := (v, now)]> shard) ((key, v) :: ((fun e => (e.1, e.2.1)) <$> tl)).
Proof.
  intros Hk Hp Hs Hb. exists ((key, (v, now)) :: tl). split_and!; [done| | |].
  - by rewrite map_to_list_insert, Hp by done.
  - by constructor.
  - constructor; [simpl; lia|]. eapply Forall_impl; [done|]. intros e. simpl. lia.
Qed.

Lemma Forall_filtered {A} (Q P : A -> Prop) `{forall x, Decision (P x)} (l : list A) :
  Forall Q l -> Forall Q (filter P l).
Proof. rewrite !Forall_forall. intros Hq x [_ Hx]%list_elem_of_filter. by apply Hq. Qed.

Lemma filter_all {A} (P : A -> Prop) `{forall x, Decision (P x)} (l : list A) :
  Forall P l -> filter P l = l.
Proof.
  induction 1 as [|x l Hx Hl IH]; [done|]. rewrite filter_cons_True by done. by rewrite IH.
Qed.

Lemma StronglySorted_filter {A} (R : relation A) (P : A -> Prop) `{forall x, Decision (P x)} (l : list A) :
  StronglySorted R l -> StronglySorted R (filter P l).
Proof.
  induction 1 as [|x l Hl IH Hx]; [constructor|]. rewrite filter_cons.
  destruct (decide (P x)); [|done]. constructor; [done|]. by apply Forall_filtered.
Qed.

Lemma filter_fmap_entries key (tl : list (K * (V * Tick))) :
  filter (fun e => e.1 <> key) ((fun e => (e.1, e.2.1)) <$> tl) =
  (fun e => (e.1, e.2.1)) <$> filter (fun e => e.1 <> key) tl.
Proof.
  induction tl as [|[k [w u]] tl IH]; [done|]. csimpl. rewrite !filter_cons. simpl.
  by destruct (decide (k <> key)); csimpl; rewrite IH.
Qed.

Lemma map_to_list_delete_filter shard key :
  map_to_list (delete key shard) ≡ₚ filter (fun e => e.1 <> key) (map_to_list shard).
Proof.
  apply NoDup_Permutation; [apply NoDup_map_to_list|apply NoDup_filter, NoDup_map_to_list|].
  intros [k e]. rewrite list_elem_of_filter, !elem_of_map_to_list, lookup_delete_Some.
  simpl. naive_solver.
Qed.

Lemma lru_use_spec now shard l key v :
  lru now shard l -> lru (now + 1) (<[key := (v, now)]> shard) (lru_use key v l).
Proof.
  intros (tl & -> & Hp & Hs & Hb). unfold lru_use. rewrite filter_fmap_entries.
  rewrite <- insert_delete_eq. apply lru_push.
  - apply lookup_delete_eq.
  - by rewrite map_to_list_delete_filter, Hp.
  - by apply StronglySorted_filter.
  - by apply Forall_filtered.
Qed.

(** The victim is the last entry. *)
Lemma lru_evict now shard l c key :
  lru now shard l -> bounded (Some c) shard -> shard !! key = None ->
  lru now (evict_if_full_locked (Some c) shard key) (take (c - 1) l).
Proof.
  intros Hl Hb Hk. pose proof (lru_length _ _ _ Hl) as Hlen. destruct Hb as [Hc Hsz].
  simpl. case_bool_decide as Hlt; simpl.
  { by rewrite take_ge by lia. }
  rewrite bool_decide_eq_false_2 by (rewrite Hk; by intros [? ?]).
  destruct Hl as (tl & -> & Hp & Hs & Hbd). rewrite length_fmap in Hlen.
  destruct tl as [|[vk ve] tl _] using rev_ind; [simpl in Hlen; lia|].
  assert (Hmin : min_by_key (fun e => e.2.2) (hash_iter shard) = Some (vk, ve)).
  { assert (Hper : hash_iter shard ≡ₚ tl ++ [(vk, ve)]) by (by rewrite hash_iter_perm).
    destruct (min_by_key_Some (fun e : K * (V * Tick) => e.2.2) (hash_iter shard)) as [w Hw].
    { intros Hnil. rewrite Hnil in Hper. by apply Permutation_nil, app_nil in Hper as [_ ?]. }
    rewrite Hw. f_equal. apply min_by_key_spec in Hw as [Hin Hmin].
    rewrite Hper, elem_of_app, list_elem_of_singleton in Hin. destruct Hin as [Hin|]; [|done].
    exfalso. specialize (Hmin (vk, ve)). rewrite Hper in Hmin.
    pose proof (Hmin ltac:(apply elem_of_app; right; by left)) as Hle.
    pose proof (StronglySorted_app_1_elem_of _ tl [(vk, ve)] w (vk, ve) Hs Hin ltac:(by left)).
    simpl in *. lia. }
  rewrite Hmin. simpl. rewrite length_app in Hlen. simpl in Hlen.
  exists tl. rewrite fmap_app, take_app_le, take_ge by (rewrite ?length_fmap; lia).
  apply StronglySorted_app_1_l in Hs as Hs'. apply Forall_app in Hbd as [Hbd _].
  split_and!; [done| |done|done].
  rewrite map_to_list_delete_filter, Hp, filter_app, filter_cons_False, filter_nil, app_nil_r
    by (simpl; tauto).
  assert (Hnd : NoDup (tl ++ [(vk, ve)]).*1) by (rewrite <- Hp; apply NoDup_fst_map_to_list).
  rewrite fmap_app, NoDup_app in Hnd. destruct Hnd as (_ & Hnd & _).
  rewrite filter_all; [done|]. apply Forall_forall. intros e He Hev.
  apply (Hnd e.1); [by apply list_elem_of_fmap_2|]. rewrite Hev. by left.
Qed.

Lemma lru_add_spec now shard l c key v :
  lru now shard l -> bounded (Some c) shard -> shard !! key = None ->
  lru (now + 1) (<[key := (v, now)]> (evict_if_full_locked (Some c) shard key))
    (lru_add c key v l).
Proof.
  intros Hl Hb Hk. destruct (lru_evict _ _ _ _ _ Hl Hb Hk) as (tl & Htl & Hp & Hs & Hbd).
  unfold lru_add. rewrite Htl. apply lru_push; [|done..].
  destruct (evict_cases (Some c) shard key) as [-> |(? & w & _ & _ & Hw & ->)]; [done|].
  by rewrite lookup_delete_ne.
Qed.

(** The whole map: one list per shard. *)
Record lru_map (c : nat) (self : BoundedShardedMap K V) (ls : list (list (K * V))) : Prop := {
  lm_ok : ok n self;
  lm_cap : bs_cap self = Some c;
  lm_len : length ls = n;
  lm_lru i shard l :
    sm_shards (bs_inner self) !! i = Some shard -> ls !! i = Some l -> lru (bs_tick self) shard l
}.

(** [m] does to the list of the shard of [key] what [spec] says, and nothing to another, with
    at most so many ticks. *)
Definition lru_refines {R} (ticks : N) c key (m : task (BoundedShardedMap K V) R)
    (spec : list (K * V) -> option (list (K * V) * R)) : Prop :=
  forall self ls, lru_map c self ls -> bs_tick self + ticks <= u64_max ->
    exists i l, Sharded.shard_index n (bs_inner self) key = Some (N.of_nat i) /\
      ls !! i = Some l /\
      match spec l with
      | None => run m self = None
      | Some (l', r) => exists self', run m self = Some (self', r) /\
          lru_map c self' (<[i := l']> ls) /\ bs_tick self' <= bs_tick self + ticks /\
          Sharded.sip_keys (bs_inner self') = Sharded.sip_keys (bs_inner self)
      end.

Context `{!SipHash24Range} (Hn : (0 < n)%nat) (Hmax : N.of_nat n <= u64_max).

(** A section under the lock, at the tick [now]. *)
Definition lru_section {R} c now now'
    (f : option nat -> gmap K (V * Tick) -> option (gmap K (V * Tick) * R))
    (spec : list (K * V) -> option (list (K * V) * R)) : Prop :=
  forall shard l, bounded (Some c) shard -> lru now shard l ->
    match spec l with
    | None => f (Some c) shard = None
    | Some (l', r) => exists shard', f (Some c) shard = Some (shard', r) /\ lru now' shard' l'
    end.

Lemma lru_locked {R} c key f (g : option V -> option (option V * R)) spec now self ls :
  follows key f g -> lru_section c now (bs_tick self) f spec ->
  ok n self -> bs_cap self = Some c -> length ls = n -> now <= bs_tick self ->
  (forall i shard l, sm_shards (bs_inner self) !! i = Some shard -> ls !! i = Some l -> lru now shard l) ->
  exists i l, Sharded.shard_index n (bs_inner self) key = Some (N.of_nat i) /\ ls !! i = Some l /\
    match spec l with
    | None => run (locked n key f) self = None
    | Some (l', r) => exists self', run (locked n key f) self = Some (self', r) /\
        lru_map c self' (<[i := l']> ls) /\ bs_tick self' = bs_tick self /\
        Sharded.sip_keys (bs_inner self') = Sharded.sip_keys (bs_inner self)
    end.
Proof.
  intros Hf Hspec [Hwf Hb] Hcap Hlen Hnow Hlru.
  destruct (Sharded.shard_index_lt n (bs_inner self) key Hwf Hn Hmax) as (i & s & Hi & Hs & Hin).
  destruct (lookup_lt_is_Some_2 ls i) as [l Hl]; [lia|].
  exists i, l. split_and!; [done..|].
  pose proof (Hb i s Hs) as Hbs. rewrite Hcap in Hbs.
  pose proof (Hspec s l Hbs (Hlru i s l Hs Hl)) as Hsp.
  cbn [run locked act]. rewrite Hcap. pose proof (Hf (Some c) s Hbs) as Hfo.
  destruct (spec l) as [[l' r]|].
  - destruct Hsp as (s' & Hfs & Hlru'). rewrite Hfs in Hfo.
    destruct (g _) as [[o r']|]; [|done]. destruct Hfo as (s'' & [= <- <-] & Hb' & _ & Hother).
    destruct (Sharded.locked_spec n (bs_inner self) key i s s' r (f (Some c))
                Hwf Hi Hs Hfs) as (inner & -> & Hwf' & Hsh & Hkeys & _).
    { intros j Hj. destruct (decide (j = key)) as [-> |Hne]; [by left|right].
      destruct (Hother j Hne) as [<- |[_ Hn']]; [done|]. by rewrite Hn' in Hj; destruct Hj. }
    cbn [mbind option_bind]. eexists. split; [done|]. split_and!; [|done..].
    split; [|done|by rewrite length_insert|].
    + split; [done|]. simpl. intros j t. rewrite Hsh. intros Ht.
      apply list_lookup_insert_Some in Ht as [(-> & -> & _)|[_ Ht]]; [done|].
      pose proof (Hb _ _ Ht) as Hbt. by rewrite Hcap in Hbt.
    + simpl. intros j t k. rewrite Hsh. intros Ht Hk.
      apply list_lookup_insert_Some in Ht as [(<- & <- & _)|[Hne Ht]].
      * rewrite list_lookup_insert_eq in Hk by lia. by simplify_eq.
      * rewrite list_lookup_insert_ne in Hk by done. eapply lru_mono; [by eapply Hlru|lia].
  - unfold Sharded.locked. rewrite Hi. cbn [mbind option_bind]. rewrite Nat2N.id, Hs.
    cbn [mbind option_bind]. by rewrite Hsp.
Qed.

Lemma lru_lift {R} c key f (g : option V -> option (option V * R)) spec :
  (forall tick, follows key (f tick) g) ->
  (forall now, lru_section c now (now + 1) (f now) spec) ->
  lru_refines 1 c key (tbind next_tick (fun tick => locked n key (f tick))) spec.
Proof.
  intros Hf Hspec self ls [[Hwf Hb] Hcap Hlen Hlru] Htick.
  assert (Hnow : as_u64 (bs_tick self + 1) = bs_tick self + 1).
  { unfold as_u64, u64_max in *. apply N.mod_small. lia. }
  destruct (lru_locked c key (f (bs_tick self)) g spec (bs_tick self)
    (MkBounded (bs_inner self) (bs_tick self + 1) (Some c)) ls) as (i & l & Hi & Hl & Hrun); try done.
  - split; [done|]. cbn [bs_inner bs_cap]. by rewrite Hcap in Hb.
  - cbn. lia.
  - exists i, l. split_and!; [done..|]. rewrite run_bind. cbn [run next_tick act]. rewrite Hcap, Hnow.
    destruct (spec l) as [[l' r]|]; [|exact Hrun]. destruct Hrun as (self' & ? & ? & Ht & ?).
    exists self'. split_and!; [done..| |done]. by rewrite Ht.
Qed.

#[local] Arguments evict_if_full_locked : simpl never.

Lemma lru_set_spec c key now shard l (w : V) :
  bounded (Some c) shard -> lru now shard l ->
  lru (now + 1) (<[key := (w, now)]> (evict_if_full_locked (Some c) shard key)) (lru_set c key w l).
Proof.
  intros Hb Hl. unfold lru_set. rewrite (lru_find_spec _ _ _ key Hl).
  destruct (shard !! key) as [e|] eqn:Hk; simpl.
  - rewrite evict_resident by (rewrite Hk; by eexists). by apply lru_use_spec.
  - by apply lru_add_spec.
Qed.

Lemma with_entry_or_default_lru {R} c key (def : V) (f : V -> option (V * R)) :
  lru_refines 1 c key (with_entry_or_default n def key f)
    (fun l => '(w, r) ← f (default def (lru_find key l)); Some (lru_set c key w l, r)).
Proof.
  pose proof (lru_set_spec c key) as Hset.
  eapply (lru_lift c key _ (fun o => '(w, r) ← f (default def o); Some (Some w, r)));
    [solve_follows|].
  intros now shard l Hb Hl. rewrite (lru_find_spec _ _ _ key Hl), touch_value.
  destruct (shard !! key) as [e|] eqn:Hk.
  - rewrite evict_resident, Hk by (rewrite Hk; by eexists). simpl.
    destruct (f e.1) as [[w r]|]; simpl; [|done]. eexists. split; [done|].
    specialize (Hset now shard l w Hb Hl). by rewrite evict_resident in Hset by (rewrite Hk; by eexists).
  - rewrite evict_absent by done. cbn [value_of fmap option_fmap option_map default from_option id fst].
    destruct (f def) as [[w r]|]; simpl; [|done]. eexists. split; [done|]. by apply Hset.
Qed.

Lemma mutate_install_lru {R} c key (def : V) (loaded : option V) (f : V -> option (V * R)) :
  lru_refines 1 c key (mutate_install n def key loaded f)
    (fun l => '(w, r) ← f (default (default def loaded) (lru_find key l));
              Some (lru_set c key w l, r)).
Proof.
  pose proof (lru_set_spec c key) as Hset.
  eapply (lru_lift c key _ (fun o => '(w, r) ← f (default (default def loaded) o); Some (Some w, r)));
    [solve_follows|].
  intros now shard l Hb Hl. rewrite (lru_find_spec _ _ _ key Hl).
  destruct (shard !! key) as [e|] eqn:Hk; cbn [value_of fmap option_fmap option_map default from_option id].
  - rewrite touch_value. destruct (f e.1) as [[w r]|]; simpl; [|done]. eexists. split; [done|].
    specialize (Hset now shard l w Hb Hl). by rewrite evict_resident in Hset by (rewrite Hk; by eexists).
  - destruct (f _) as [[w r]|]; simpl; [|done]. eexists. split; [done|]. by apply Hset.
Qed.

Lemma inspect_hit_lru {R} c key (inspect : V -> R) :
  lru_refines 1 c key (inspect_hit n key inspect)
    (fun l => match lru_find key l with
              | Some w => Some (lru_use key w l, Some (inspect w))
              | None => Some (l, None)
              end).
Proof.
  eapply (lru_lift c key _ (fun o => Some (o, match o with Some w => Some (inspect w) | None => None end))); [solve_follows|].
  intros now shard l Hb Hl. rewrite (lru_find_spec _ _ _ key Hl).
  destruct (shard !! key) as [e|]; simpl; eexists; (split; [done|]).
  - by apply lru_use_spec.
  - eapply lru_mono; [done|lia].
Qed.

Lemma get_cloned_lru c key :
  lru_refines 1 c key (get_cloned n key)
    (fun l => match lru_find key l with
              | Some w => Some (lru_use key w l, Some w)
              | None => Some (l, None)
              end).
Proof. exact (inspect_hit_lru c key id). Qed.

Lemma with_entry_lru {R} c key (f : V -> option (V * R)) :
  lru_refines 1 c key (with_entry n key f)
    (fun l => match lru_find key l with
              | Some w => '(w', r) ← f w; Some (lru_use key w' l, Some r)
              | None => Some (l, None)
              end).
Proof.
  eapply (lru_lift c key _ (on_value f)); [unfold on_value; solve_follows|].
  intros now shard l Hb Hl. rewrite (lru_find_spec _ _ _ key Hl).
  destruct (shard !! key) as [e|]; simpl.
  - destruct (f e.1) as [[w r]|]; simpl; [|done]. eexists. split; [done|]. by apply lru_use_spec.
  - eexists. split; [done|]. eapply lru_mono; [done|lia].
Qed.

Lemma inspect_install_lru {R} c key (loaded : V) (inspect : V -> R) :
  lru_refines 1 c key (inspect_install n key loaded inspect)
    (fun l => let w := default loaded (lru_find key l) in Some (lru_set c key w l, inspect w)).
Proof.
  pose proof (lru_set_spec c key) as Hset.
  eapply (lru_lift c key _ (fun o => Some (Some (default loaded o), inspect (default loaded o)))); [solve_follows|].
  intros now shard l Hb Hl. rewrite (lru_find_spec _ _ _ key Hl).
  specialize (Hset now shard l (default loaded (value_of (shard !! key))) Hb Hl).
  destruct (shard !! key) as [e|] eqn:Hk; simpl in *; eexists; (split; [done|]).
  - by rewrite evict_resident in Hset by (rewrite Hk; by eexists).
  - done.
Qed.

Lemma get_or_insert_with_lru c key (v : V) :
  lru_refines 1 c key (get_or_insert_with n key v)
    (fun l => let w := default v (lru_find key l) in Some (lru_set c key w l, w)).
Proof. exact (inspect_install_lru c key v id). Qed.

Lemma lru_delete_spec now shard l key :
  lru now shard l -> lru now (delete key shard) (filter (fun e => e.1 <> key) l).
Proof.
  intros (tl & -> & Hp & Hs & Hb). rewrite filter_fmap_entries. exists (filter (fun e => e.1 <> key) tl).
  split_and!; [done| |by apply StronglySorted_filter|by apply Forall_filtered].
  by rewrite map_to_list_delete_filter, Hp.
Qed.

Lemma remove_lru c key :
  lru_refines 0 c key (remove n key) (fun l => Some (filter (fun e => e.1 <> key) l, lru_find key l)).
Proof.
  intros self ls [Hok Hcap Hlen Hlru] _.
  destruct (lru_locked c key _ _ (fun l => Some (filter (fun e => e.1 <> key) l, lru_find key l)) (bs_tick self)
    self ls (remove_follows key)) as (i & l & Hi & Hl & self' & Hrun & Hm & Ht & Hk); try done.
  - intros shard l _ Hl. rewrite (lru_find_spec _ _ _ key Hl). eexists. split; [done|]. by apply lru_delete_spec.
  - exists i, l. split_and!; [done..|]. exists self'. split_and!; [done..|lia|done].
Qed.

(** *** The operations that load *)

Lemma shard_index_keys (a b : ShardedMap K (V * Tick)) key :
  Sharded.sip_keys a = Sharded.sip_keys b -> Sharded.shard_index n a key = Sharded.shard_index n b key.
Proof. destruct a, b. cbn. intros [= <- <-]. done. Qed.

(** A hit, or a miss that leaves the lists as they are and a second operation after it. *)
Lemma lru_then {R R'} c key (m : task (BoundedShardedMap K V) R) spec m' (spec' : _ -> option (_ * R')) self ls i l r self' :
  lru_refines 1 c key m spec -> lru_refines 1 c key m' spec' ->
  lru_map c self ls -> bs_tick self + 2 <= u64_max ->
  Sharded.shard_index n (bs_inner self) key = Some (N.of_nat i) -> ls !! i = Some l ->
  spec l = Some (l, r) -> run m self = Some (self', r) ->
  lru_map c self' ls /\
  match spec' l with
  | None => run m' self' = None
  | Some (l', r') => exists self'', run m' self' = Some (self'', r') /\ lru_map c self'' (<[i := l']> ls)
  end.
Proof.
  intros Hm Hm' Hs Ht Hi Hl Hsp Hrun.
  destruct (Hm self ls Hs ltac:(lia)) as (i1 & l1 & Hi1 & Hl1 & Hr). rewrite Hi in Hi1.
  injection Hi1 as <-%Nat2N.inj. simplify_eq. rewrite Hsp in Hr.
  destruct Hr as (self1 & Hrun1 & Hs1 & Ht1 & Hk1%(shard_index_keys _ _ key)). rewrite Hrun1 in Hrun. simplify_eq.
  rewrite list_insert_id in Hs1 by done. split; [done|].
  destruct (Hm' self' ls Hs1 ltac:(lia)) as (i2 & l2 & Hi2 & Hl2 & Hr2).
  rewrite Hk1, Hi in Hi2. injection Hi2 as <-%Nat2N.inj. simplify_eq.
  destruct (spec' l) as [[l' r']|]; [|done]. destruct Hr2 as (self2 & ? & ? & _). by exists self2.
Qed.

Section hydrated.
Context {T E : Type} (load : task T (result E (option V))).

(** The cache beside the state that a load reads. *)
Notation on_fst m := (zoom fst (fun c s => (c, s.2)) m).
Definition load_beside : task (BoundedShardedMap K V * T) (result E (option V)) :=
  zoom snd (fun y s => (s.1, y)) load.
Definition ref_beside {R} key (inspect : V -> R) :=
  with_hydrated_ref n fst (fun c s => (c, s.2)) key load_beside inspect.
Definition entry_beside {R} (def : V) key (f : V -> option (V * R)) :=
  with_entry_hydrated n fst (fun c s => (c, s.2)) def key load_beside f.

Lemma run_fst {A} (m : task (BoundedShardedMap K V) A) self (x : T) :
  run (on_fst m) (self, x) = match run m self with Some (self', a) => Some ((self', x), a) | None => None end.
Proof. rewrite run_zoom; [done..|]. by intros []. Qed.

Lemma run_load self x :
  run load_beside (self, x) = match run load x with Some (x', r) => Some ((self, x'), r) | None => None end.
Proof. unfold load_beside. rewrite run_zoom; [done..|]. by intros []. Qed.

(** As [lru_refines], with the state of the load beside it. *)
Definition lru_loads {R} c key (m : task (BoundedShardedMap K V * T) R)
    (spec : list (K * V) -> T -> option (list (K * V) * T * R)) : Prop :=
  forall self x ls, lru_map c self ls -> bs_tick self + 2 <= u64_max ->
    exists i l, Sharded.shard_index n (bs_inner self) key = Some (N.of_nat i) /\ ls !! i = Some l /\
      match spec l x with
      | None => run m (self, x) = None
      | Some (l', x', r) => exists self', run m (self, x) = Some ((self', x'), r) /\ lru_map c self' (<[i := l']> ls)
      end.

Lemma with_hydrated_ref_lru {R} c key (inspect : V -> R) :
  lru_loads c key (ref_beside key inspect)
    (fun l x => match lru_find key l with
       | Some w => Some (lru_use key w l, x, Ok (Some (inspect w)))
       | None =>
           match run load x with
           | None => None
           | Some (x', Err e) => Some (l, x', Err e)
           | Some (x', Ok None) => Some (l, x', Ok None)
           | Some (x', Ok (Some w)) => Some (lru_add c key w l, x', Ok (Some (inspect w)))
           end
       end).
Proof.
  intros self x ls Hs Ht. pose proof (inspect_hit_lru c key inspect) as Hhit.
  destruct (Hhit self ls Hs ltac:(lia)) as (i & l & Hi & Hl & Hrun). exists i, l. split_and!; [done..|].
  unfold ref_beside, with_hydrated_ref. destruct (lru_find key l) as [w|] eqn:Hf.
  { destruct Hrun as (self1 & Hrun & Hm & _). rewrite run_bind, run_fst, Hrun. by exists self1. }
  destruct Hrun as (self1 & Hrun & Hm1 & _). rewrite list_insert_id in Hm1 by done.
  rewrite run_bind, run_fst, Hrun, run_bind_ok, run_load.
  assert (Hmiss : forall w, exists self2, run (inspect_install n key w inspect) self1 =
    Some (self2, inspect w) /\ lru_map c self2 (<[i := lru_add c key w l]> ls)).
  { intros w. epose proof (lru_then c key _ _ _ _ self ls i l None self1 Hhit (inspect_install_lru c key w inspect)
      Hs Ht Hi Hl _ Hrun) as [_ Hr]. Unshelve. 2:{ cbn. by rewrite Hf. } cbn in Hr. unfold lru_set in Hr. by rewrite Hf in Hr. }
  destruct (run load x) as [[x' [[w|]|e]]|]; [| | |done].
  - destruct (Hmiss w) as (self2 & Hrun2 & Hm2). rewrite run_bind, run_fst, Hrun2. by exists self2.
  - exists self1. rewrite list_insert_id by done. split; [done|].
    exact Hm1.
  - exists self1. rewrite list_insert_id by done. split; [done|].
    exact Hm1.
Qed.

Lemma with_entry_hydrated_lru {R} c key (def : V) (f : V -> option (V * R)) :
  lru_loads c key (entry_beside def key f)
    (fun l x => match lru_find key l with
       | Some w => '(w', r) ← f w; Some (lru_use key w' l, x, Ok r)
       | None =>
           match run load x with
           | None => None
           | Some (x', Err e) => Some (l, x', Err e)
           | Some (x', Ok loaded) => '(w, r) ← f (default def loaded); Some (lru_add c key w l, x', Ok r)
           end
       end).
Proof.
  intros self x ls Hs Ht. pose proof (with_entry_lru c key f) as Hhit.
  destruct (Hhit self ls Hs ltac:(lia)) as (i & l & Hi & Hl & Hrun). exists i, l. split_and!; [done..|].
  unfold entry_beside, with_entry_hydrated. destruct (lru_find key l) as [w|] eqn:Hf.
  { rewrite run_bind, run_fst. destruct (f w) as [[w' r]|]; cbn [mbind option_bind] in Hrun |- *; [|by rewrite Hrun].
    destruct Hrun as (self1 & -> & Hm & _). by exists self1. }
  destruct Hrun as (self1 & Hrun & Hm1 & _). rewrite list_insert_id in Hm1 by done.
  rewrite run_bind, run_fst, Hrun, run_bind_ok, run_load.
  destruct (run load x) as [[x' [loaded|e]]|]; [| |done].
  - epose proof (lru_then c key _ _ _ _ self ls i l None self1 Hhit (mutate_install_lru c key def loaded f)
      Hs Ht Hi Hl _ Hrun) as [_ Hr]. Unshelve. 2:{ cbn. by rewrite Hf. } cbv beta in Hr. unfold lru_set in Hr. rewrite Hf in Hr. cbn [default from_option id] in Hr.
    rewrite run_bind, run_fst. destruct (f _) as [[w r]|]; cbn [mbind option_bind] in Hr |- *; [|by rewrite Hr].
    destruct Hr as (self2 & -> & Hm2). by exists self2.
  - exists self1. rewrite list_insert_id by done. split; [done|].
    exact Hm1.
Qed.
End hydrated.

(** C21: With a capacity, each shard is a least-recently-used cache, for an operation that runs
    alone and while the clock of the cache has not come to its end: an operation that finds its
    key moves it to the front; one that adds a key, loaded or not, puts it in front and drops
    from a full shard exactly the entry that was used longest ago; a load that fails or finds
    nothing changes no list; a removal takes out its key and keeps the order; and no operation
    on a key touches another shard. *)
Theorem BoundedShardedMap_lru {R T E} c key (v def : V) (inspect : V -> R) (f : V -> option (V * R))
    (load : task T (result E (option V))) :
  lru_refines 1 c key (get_cloned n key)
    (fun l => match lru_find key l with
              | Some w => Some (lru_use key w l, Some w)
              | None => Some (l, None)
              end) /\
  lru_refines 1 c key (with_entry n key f)
    (fun l => match lru_find key l with
              | Some w => '(w', r) ← f w; Some (lru_use key w' l, Some r)
              | None => Some (l, None)
              end) /\
  lru_refines 1 c key (get_or_insert_with n key v)
    (fun l => let w := default v (lru_find key l) in Some (lru_set c key w l, w)) /\
  lru_refines 1 c key (with_entry_or_default n def key f)
    (fun l => '(w, r) ← f (default def (lru_find key l)); Some (lru_set c key w l, r)) /\
  lru_refines 0 c key (remove n key)
    (fun l => Some (filter (fun e => e.1 <> key) l, lru_find key l)) /\
  lru_loads c key (ref_beside load key inspect)
    (fun l x => match lru_find key l with
       | Some w => Some (lru_use key w l, x, Ok (Some (inspect w)))
       | None =>
           match run load x with
           | None => None
           | Some (x', Err e) => Some (l, x', Err e)
           | Some (x', Ok None) => Some (l, x', Ok None)
           | Some (x', Ok (Some w)) => Some (lru_add c key w l, x', Ok (Some (inspect w)))
           end
       end) /\
  lru_loads c key (entry_beside load def key f)
    (fun l x => match lru_find key l with
       | Some w => '(w', r) ← f w; Some (lru_use key w' l, x, Ok r)
       | None =>
           match run load x with
           | None => None
           | Some (x', Err e) => Some (l, x', Err e)
           | Some (x', Ok loaded) => '(w, r) ← f (default def loaded); Some (lru_add c key w l, x', Ok r)
           end
       end).
Proof.
  split_and!; [apply get_cloned_lru|apply with_entry_lru|apply get_or_insert_with_lru|
    apply with_entry_or_default_lru|apply remove_lru|apply with_hydrated_ref_lru|apply with_entry_hydrated_lru].
Qed.
End lru.

(** ** The bound *)

Section bound.
Context `{HashIter, SipHash24Range} {K V : Type} `{Countable K} `{!Hash K} (n : nat).

(** What a client may call, with closures that do not panic. *)
Inductive call : task (BoundedShardedMap K V) unit -> Prop :=
| call_get key : call (await _ := get_cloned n key in Ret tt)
| call_with {R} key (f : V -> V * R) :
    call (await _ := with_entry n key (fun v => Some (f v)) in Ret tt)
| call_with_default {R} def key (f : V -> V * R) :
    call (await _ := with_entry_or_default n def key (fun v => Some (f v)) in Ret tt)
| call_insert key v : call (await _ := get_or_insert_with n key v in Ret tt)
| call_remove key : call (await _ := remove n key in Ret tt)
| call_ref {E R} key (loaded : result E (option V)) (inspect : V -> R) :
    call (await _ := with_hydrated_ref n id (fun c _ => c) key (Ret loaded) inspect in Ret tt)
| call_hydrated {E R} def key (loaded : result E (option V)) (f : V -> V * R) :
    call (await _ := with_entry_hydrated n id (fun c _ => c) def key (Ret loaded) (fun v => Some (f v)) in Ret tt)
| call_keys : call (await _ := into_keys n in Ret tt)
| call_len : call (await _ := len n in Ret tt)
| call_is_empty : call (await _ := is_empty n in Ret tt).

Lemma size_cached c (self : BoundedShardedMap K V) :
  ok n self -> bs_cap self = Some c -> (size (cached self) <= n * c)%nat.
Proof.
  intros [Hwf Hb] Hc. unfold cached. rewrite map_size_fmap, <- length_map_to_list.
  rewrite (Sharded.flat_to_list n _ Hwf), Sharded.length_bind, <- (Sharded.wf_shards _ _ Hwf).
  clear Hwf. rewrite Hc in Hb. induction (sm_shards (bs_inner self)) as [|s l IH]; [done|].
  simpl. rewrite length_map_to_list. destruct (Hb 0%nat s eq_refl) as [_ Hs].
  specialize (IH (fun i t Ht => Hb (Datatypes.S i) t Ht)). lia.
Qed.

(** A fresh cache. *)
Lemma with_key_ok k0 k1 : ok n (with_key (K:=K) (V:=V) n k0 k1).
Proof. by split; [apply Sharded.with_key_wf|]. Qed.

Lemma with_capacity_ok max_entries k0 k1 :
  ok n (with_capacity n max_entries (with_key (K:=K) (V:=V) n k0 k1)).
Proof.
  split; [apply Sharded.with_key_wf|]. simpl. intros i s [-> _]%lookup_replicate.
  rewrite map_size_empty. split; [|lia]. apply Nat.le_max_r.
Qed.

Lemma cached_with_key k0 k1 : cached (with_key (K:=K) (V:=V) n k0 k1) = ∅.
Proof. unfold cached. simpl. by rewrite Sharded.flat_with_key, fmap_empty. Qed.

(** Alone on the cache: only its capacity is fixed. *)
Definition same_cap (s s' : BoundedShardedMap K V) : Prop := bs_cap s' = bs_cap s.

#[local] Instance same_cap_preorder : PreOrder same_cap.
Proof. split; unfold same_cap; [done|]. intros x y z ? ?. congruence. Qed.

Context (Hn : (0 < n)%nat) (Hmax : N.of_nat n <= u64_max).

Notation wpc m s := (wp (ok n) same_cap m (fun _ _ => True) s).

Lemma wpc_ignore {R} (m : task (BoundedShardedMap K V) R) s : wpc m s -> wpc (await _ := m in Ret tt) s.
Proof. intros Hm. apply wp_bind; [apply _|]. by eapply wp_mono; [apply _|exact Hm|]. Qed.

(** The cache is the whole state. *)
Lemma wpc_zoom {R} key (m : task (BoundedShardedMap K V) R) (g : option V -> option (option V * R)) s :
  op n key m g -> (forall o, is_Some (g o)) -> wpc (zoom id (fun c _ => c) m) s.
Proof.
  intros Hop Hg. eapply (wp_op n Hn Hmax (ok n) same_cap id (fun c _ => c)); [done|by intros c u _ ? ? _|exact Hop|].
  intros u Hu _. destruct (Hg (cached (id u) !! key)) as [[o r] Ho]. exists o, r.
  split; [done|]. intros c [Hc Hcap _ _]. done.
Qed.

Lemma wpc_op {R} key (m : task (BoundedShardedMap K V) R) (g : option V -> option (option V * R)) s :
  op n key m g -> (forall o, is_Some (g o)) -> wpc m s.
Proof.
  intros Hop Hg. generalize (wpc_zoom key m g s Hop Hg). clear.
  revert s. induction m as [a|B f k IH]; intros s; simpl; [done|].
  intros Hwp s' Hs' Hg. destruct (Hwp s' Hs' Hg) as (s'' & b & Hf & ? & ? & ?).
  exists s'', b. destruct (f s') as [[u b']|] eqn:Hfs; [|done]. simplify_eq. eauto.
Qed.

Lemma wpc_remove key (s : BoundedShardedMap K V) : wpc (remove n key) s.
Proof.
  intros s' Hs' Hg.
  pose proof (locked_effect n Hn Hmax key _ _ s' (remove_follows key) Hs') as (c & Hrun & [Hc Hcap _ _]).
  cbn [run locked act] in Hrun. exists c, (cached s' !! key). split_and!; [|done..].
  destruct (_ ← _; _) as [[c' r']|]; [|done]. by simplify_eq.
Qed.

Lemma wpc_ref {E R} key (loaded : result E (option V)) (inspect : V -> R) s :
  wpc (with_hydrated_ref n id (fun c _ => c) key (Ret loaded) inspect) s.
Proof.
  apply wp_bind; [apply _|].
  eapply wp_mono; [apply _|eapply wpc_zoom; [apply inspect_hit_op|by eexists]|].
  intros [r|] t _ _ _; [done|]. destruct loaded as [[v|]|e]; [|done..].
  unfold tbind_ok. cbn [tbind]. apply wp_bind; [apply _|].
  by eapply wp_mono; [apply _|eapply wpc_zoom; [apply inspect_install_op|by eexists]|].
Qed.

Lemma wpc_hydrated {E R} def key (loaded : result E (option V)) (f : V -> V * R) s :
  wpc (with_entry_hydrated n id (fun c _ => c) def key (Ret loaded) (fun v => Some (f v))) s.
Proof.
  apply wp_bind; [apply _|]. eapply wp_mono; [apply _|eapply wpc_zoom; [apply with_entry_op|]|].
  { intros [v|]; simpl; [destruct (f v)|]; by eexists. }
  intros [r|] t _ _ _; [done|]. destruct loaded as [o|e]; [|done].
  unfold tbind_ok. cbn [tbind]. apply wp_bind; [apply _|].
  eapply wp_mono; [apply _|eapply wpc_zoom; [apply mutate_install_op|]|done].
  intros o'. simpl. destruct (f _). by eexists.
Qed.

(** The operations that walk over the shards only read. *)
Lemma at_shard_read_only {R} (f : gmap K (V * Tick) -> R) i :
  (i < n)%nat -> read_only (fun c => length (sm_shards c) = n) (Sharded.at_shard (fun shard => (shard, f shard)) i).
Proof.
  intros Hi. split; [|done]. intros c Hc. destruct (lookup_lt_is_Some_2 (sm_shards c) i) as [shard Hsh]; [lia|].
  rewrite Hsh. cbn. eexists. rewrite list_insert_id by done. by destruct c.
Qed.

Lemma wpc_inner {R} (m : task (ShardedMap K (V * Tick)) R) s :
  read_only (fun c => length (sm_shards c) = n) m -> wpc (on_inner m) s.
Proof.
  intros Hm. eapply (wp_read_only _ (ok n)); [apply _|done|].
  by eapply read_only_zoom; [|..|exact Hm]; [by intros []|by intros c [[]]].
Qed.

Lemma wpc_walk {A} (body : A -> nat -> task (ShardedMap K (V * Tick)) A) a s :
  (forall a i, (i < n)%nat -> read_only (fun c => length (sm_shards c) = n) (body a i)) ->
  wpc (on_inner (tfor body a (Sharded.shard_indices n))) s.
Proof.
  intros Hb. apply wpc_inner, read_only_tfor. intros b i Hi%elem_of_seq. apply Hb. lia.
Qed.

Lemma wpc_is_empty (s : BoundedShardedMap K V) : wpc (is_empty n) s.
Proof.
  apply wpc_inner. unfold Sharded.is_empty.
  assert (Hl : forall i, i ∈ Sharded.shard_indices n -> (i < n)%nat) by (intros i Hi%elem_of_seq; lia).
  induction (Sharded.shard_indices n) as [|i l IH]; [done|]. apply read_only_bind.
  - apply at_shard_read_only, Hl. by left.
  - intros []; [|done]. apply IH. intros j Hj. apply Hl. by right.
Qed.

Lemma wp_call t (s : BoundedShardedMap K V) : call t -> wpc t s.
Proof.
  intros [key|R key f|R def key f|key v|key|E R key loaded inspect|E R def key loaded f| | |]; apply wpc_ignore.
  - eapply wpc_op; [apply get_cloned_op|]. by eexists.
  - eapply wpc_op; [apply with_entry_op|]. intros [v|]; simpl; [destruct (f v)|]; by eexists.
  - eapply wpc_op; [apply with_entry_or_default_op|]. intros o. simpl. destruct (f (default def o)). by eexists.
  - eapply wpc_op; [apply get_or_insert_with_op|]. by eexists.
  - apply wpc_remove.
  - apply wpc_ref.
  - apply wpc_hydrated.
  - apply wpc_walk. intros ks i Hi. apply read_only_bind; [by apply at_shard_read_only|done].
  - apply wpc_walk. intros k i Hi. apply read_only_bind; [by apply at_shard_read_only|done].
  - apply wpc_is_empty.
Qed.

(** C30: A cache created with a capacity never holds more than [ceil(max / N) * N] entries
    (one per shard at least), whichever of its operations its clients call, with whatever
    values, loads and closures that do not panic, and however the critical sections of the
    calls interleave; and no call panics. *)
Theorem BoundedShardedMap_bounded max_entries k0 k1 self ts :
  rtc (pool_step call) (with_capacity n max_entries (with_key n k0 k1), []) (self, ts) ->
  (size (cached self) <= n * Nat.max ((max_entries + (n - 1)) / n) 1)%nat /\
  forall B (f : BoundedShardedMap K V -> option (BoundedShardedMap K V * B)) k,
    Act f k ∈ ts -> is_Some (f self).
Proof.
  intros Hrtc. pose proof (with_capacity_ok max_entries k0 k1) as Hok0.
  destruct (pool_sound (ok n) same_cap call (fun _ _ => True) _ _
    (fun t s Ht _ => wp_call t s Ht) Hrtc Hok0) as (Hok & Hcap & Hts).
  { by intros t ?%not_elem_of_nil. }
  split; [by apply size_cached|]. intros B f k Hin.
  exact (wp_no_panic (ok n) same_cap f k (fun _ _ => True) self Hok (Hts _ Hin)).
Qed.
End bound.

(** ** Examples *)

#[local] Existing Instance Sharded.siphash_sum.
#[local] Existing Instance Sharded.siphash_sum_range.
#[local] Existing Instance hash_iter_by_encoding.

Definition sample_cache : BoundedShardedMap (array 32) bool :=
  with_capacity 1 1 (with_key 1 0 0).

Definition sample_key (b : byte) : array 32 := array_pad 32 [b].

(** One entry too many: the older key is gone. *)
Definition sample_full : BoundedShardedMap (array 32) bool :=
  match run (get_or_insert_with 1 (sample_key x01) true) sample_cache with Some (self, _) => self | None => sample_cache end.

Lemma sample_lru : lru_map 1 1 sample_cache [[]].
Proof.
  split; [|done|done|].
  - split; [apply Sharded.with_key_wf|]. intros i s Hi. simpl in Hi.
    destruct i; simplify_eq/=. split; [lia|]. rewrite map_size_empty. lia.
  - intros [|i] s l Hs Hl; simplify_eq/=. exists []. split_and!; [done..|constructor|constructor].
Qed.

Lemma sample_full_lru : lru_map 1 1 sample_full [[(sample_key x01, true)]].
Proof.
  pose proof (get_or_insert_with_lru 1 ltac:(lia) ltac:(unfold u64_max; simpl; lia) 1 (sample_key x01) true) as Hins.
  destruct (Hins sample_cache [[]] sample_lru) as ([|i] & l & Hi & Hl & Hr); [unfold u64_max; simpl; lia| |done].
  simpl in Hl. injection Hl as <-. destruct Hr as (self' & Hrun & Hm & _). unfold sample_full. by rewrite Hrun.
Qed.

Lemma BoundedShardedMap_lru_witness :
  exists self', run (ref_beside 1 (Ret (Ok (E:=unit) (Some false))) (sample_key x02) negb) (sample_full, tt) =
      Some ((self', tt), Ok (Some true)) /\
    lru_map 1 1 self' [[(sample_key x02, false)]].
Proof.
  destruct (BoundedShardedMap_lru (T:=unit) (E:=unit) 1 ltac:(lia) ltac:(unfold u64_max; simpl; lia)
    1 (sample_key x02) true true negb (fun v => Some (v, v)) (Ret (Ok (Some false))))
    as (_ & _ & _ & _ & _ & Href & _).
  destruct (Href sample_full tt [[(sample_key x01, true)]] sample_full_lru) as ([|i] & l & Hi & Hl & Hr);
    [vm_compute; discriminate| |done].
  simpl in Hl. injection Hl as <-.
  assert (Hf : lru_find (sample_key x02) [(sample_key x01, true)] = None) by (vm_compute; reflexivity).
  rewrite Hf in Hr. exact Hr.
Defined.

(** Three clients of a cache of one entry, their sections interleaved. *)
Definition sample_calls : list (task (BoundedShardedMap (array 32) bool) unit) :=
  [await _ := get_or_insert_with 1 (sample_key x01) true in Ret tt;
   await _ := with_hydrated_ref 1 id (fun c _ => c) (sample_key x02) (Ret (Ok (E:=unit) (Some false))) negb in Ret tt;
   await _ := get_or_insert_with 1 (sample_key x03) true in Ret tt].
Definition sample_end :=
  default (sample_cache, []) (schedule [0; 1; 0; 2; 1; 2; 1; 1]%nat (sample_cache, sample_calls)).

Lemma sample_end_reached : rtc (pool_step (call 1)) (sample_cache, []) (sample_end.1, sample_end.2).
Proof.
  transitivity (sample_cache, sample_calls).
  - unfold sample_calls. eapply rtc_l; [apply pool_spawn, (call_insert 1 (sample_key x01) true)|].
    eapply rtc_l; [apply pool_spawn, (call_ref 1 (sample_key x02) (Ok (E:=unit) (Some false)) negb)|].
    eapply rtc_l; [apply pool_spawn, (call_insert 1 (sample_key x03) true)|]. apply rtc_refl.
  - rewrite <- surjective_pairing. apply schedule_runs. vm_compute. reflexivity.
Qed.

Lemma BoundedShardedMap_bounded_witness :
  sample_end.2 = [Ret tt; Ret tt; Ret tt] /\ cached sample_end.1 !! sample_key x02 = Some false /\
  (size (cached sample_end.1) <= 1)%nat.
Proof.
  split; [vm_compute; reflexivity|]. split; [vm_compute; reflexivity|].
  exact (proj1 (BoundedShardedMap_bounded (V:=bool) (K:=array 32) 1 ltac:(lia)
    ltac:(unfold u64_max; simpl; lia) 1 0 0 sample_end.1 sample_end.2 sample_end_reached)).
Defined.
End Bounded.
