(* ===== verification/Storage.v ===== *)
(** The storage interface and the capabilities to use it.

    [storage/traits.rs]: the [Storage] trait is the class [Storage], its operations tasks
    on the state of the backend; loose commits and fragments have the same seven
    operations ([item_ops]). The contract that the trait documents is the class
    [StorageLaws]: what an operation guarantees while other tasks use the same backend
    and nobody deletes. [storage/putter.rs], [fetcher.rs], [destroyer.rs],
    [local_access.rs] and [powerbox.rs]: capabilities that fix the tree and delegate, and
    the powerbox that mints them after asking the policy ([policy/storage.rs],
    [policy/connection.rs], [policy/open.rs]). *)

From Stdlib Require Import Strings.Byte NArith Lia.
From stdpp Require Import base gmap sorting list relations.
From S2P Require Import Prelude.
From S2P Require Import Codec.
From S2P Require Import Types.
From S2P Require Import LooseCommit.
From S2P Require Import Fragment.
From S2P Require Import Signed.
From S2P Require Import Message.
From S2P Require Import Tasks.

(** ** Items *)

(** [verified.payload()], [verified.signed()], [verified.blob()] *)
Definition vm_payload {T} (v : VerifiedMeta T) : T := vs_payload (vm_verified v).
Definition vm_signed {T} (v : VerifiedMeta T) : Signed T := vs_signed (vm_verified v).

(** [verified.verified_author()]: the key that the signature was checked with. *)
Notation VerifiedAuthor := (array 32) (only parsing).
Definition verified_author {T} (v : VerifiedMeta T) : VerifiedAuthor := sg_issuer (vm_signed v).

(** [into_full_parts] *)
Definition into_full_parts {T} (v : VerifiedMeta T) : Signed T * T * Blob :=
  (vm_signed v, vm_payload v, vm_blob v).

(** [payload.head()], of either kind of item. *)
Class Item (T : Type) : Type := item_head : T -> CommitId.
#[export] Instance LooseCommit_item : Item LooseCommit := lc_head.
#[export] Instance Fragment_item : Item Fragment := fr_head.

(** A verified item carries the payload that its signed bytes decode to. So the constructors
    that take signed bytes leave it, [verified_meta_ok] and [trusted_meta_ok]. It holds
    of a sealed payload if the codec can encode that: the count of parents of a commit is cut
    to a byte, and more than 255 parents, the documented limit of [LooseCommit], do not decode
    to themselves. The theorems ask it of what a node seals. *)
Definition meta_ok `{Bijou64} {T} `{!Schema T, !EncodeFields T, !DecodeFields T}
    (v : VerifiedMeta T) : Prop :=
  try_decode_trusted_payload (vm_signed v) = Ok (vm_payload v).

(** [map.entry(key).or_insert(value)] *)
Definition or_insert {K V} `{Countable K} (key : K) (value : V) (m : gmap K V) : gmap K V :=
  match m !! key with Some _ => m | None => <[key := value]> m end.

(** ** The trait *)

(** The operations on the items of one kind. *)
Record item_ops (S E T : Type) : Type := {
  save_item : SedimentreeId -> VerifiedMeta T -> task S (result E unit);
  list_item_ids : SedimentreeId -> task S (result E (gset CommitId));
  load_items : SedimentreeId -> task S (result E (list (VerifiedMeta T)));
  load_item_metas : SedimentreeId -> task S (result E (list T));
  load_item : SedimentreeId -> CommitId -> task S (result E (option (VerifiedMeta T)));
  delete_item : SedimentreeId -> CommitId -> task S (result E unit);
  delete_items : SedimentreeId -> task S (result E unit)
}.
Arguments save_item {_ _ _} _ _ _.
Arguments list_item_ids {_ _ _} _ _.
Arguments load_items {_ _ _} _ _.
Arguments load_item_metas {_ _ _} _ _.
Arguments load_item {_ _ _} _ _ _.
Arguments delete_item {_ _ _} _ _ _.
Arguments delete_items {_ _ _} _ _.

Class Storage (S E : Type) : Type := {
  save_sedimentree_id : SedimentreeId -> task S (result E unit);
  delete_sedimentree_id : SedimentreeId -> task S (result E unit);
  load_all_sedimentree_ids : task S (result E (gset SedimentreeId));
  contains_sedimentree_id : SedimentreeId -> task S (result E bool);
  commit_ops : item_ops S E LooseCommit;
  fragment_ops : item_ops S E Fragment;
  save_batch : SedimentreeId -> list (VerifiedMeta LooseCommit) ->
    list (VerifiedMeta Fragment) -> task S (result E N)
}.

Section named.
Context {S E : Type} `{!Storage S E}.

Definition save_loose_commit := save_item (S:=S) (E:=E) commit_ops.
Definition list_commit_ids := list_item_ids (S:=S) (E:=E) commit_ops.
Definition load_loose_commits := load_items (S:=S) (E:=E) commit_ops.
Definition load_loose_commit_metas := load_item_metas (S:=S) (E:=E) commit_ops.
Definition load_loose_commit := load_item (S:=S) (E:=E) commit_ops.
Definition delete_loose_commit := delete_item (S:=S) (E:=E) commit_ops.
Definition delete_loose_commits := delete_items (S:=S) (E:=E) commit_ops.
Definition save_fragment := save_item (S:=S) (E:=E) fragment_ops.
Definition list_fragment_ids := list_item_ids (S:=S) (E:=E) fragment_ops.
Definition load_fragments := load_items (S:=S) (E:=E) fragment_ops.
Definition load_fragment_metas := load_item_metas (S:=S) (E:=E) fragment_ops.
Definition load_fragment := load_item (S:=S) (E:=E) fragment_ops.
Definition delete_fragment := delete_item (S:=S) (E:=E) fragment_ops.
Definition delete_fragments := delete_items (S:=S) (E:=E) fragment_ops.

(** For backends without a cheaper way: load everything, drop the blobs. *)
Definition load_item_metas_via_full {T} (ops : item_ops S E T) (id : SedimentreeId) :
  task S (result E (list T)) :=
  await? items := load_items ops id in
  Ret (Ok ((fun vm => (into_full_parts vm).1.2) <$> items)).

Definition load_loose_commit_metas_via_full := load_item_metas_via_full commit_ops.
Definition load_fragment_metas_via_full := load_item_metas_via_full fragment_ops.
End named.

(** ** The contract *)

(** An item of that content has been stored. Backends address content by its digest. *)
Definition saved `{Blake3} {T} `{!Schema T, !EncodeFields T} {S}
    (stored : S -> SedimentreeId -> VerifiedMeta T -> Prop) (s : S) (id : SedimentreeId)
    (x : T) : Prop :=
  exists v, stored s id v /\ Digest_hash (vm_payload v) = Digest_hash x.

(** Some read of the backend between [s] and [s'] was a step of [fails e]: it reported [e]. *)
Definition read_failed {S E} (grows : relation S) (fails : E -> relation S) (e : E) (s s' : S) : Prop :=
  exists x x', grows s x /\ fails e x x' /\ grows x' s'.

Lemma read_failed_grows {S E} (grows : relation S) `{!PreOrder grows} (fails : E -> relation S) e s0 s t t' :
  grows s0 s -> read_failed grows fails e s t -> grows t t' -> read_failed grows fails e s0 t'.
Proof. intros Hs (x & x' & Hx & Hf & Hx') Ht. exists x, x'. split_and!; [by etrans|done|by etrans]. Qed.

Section contract.
Context `{Blake3, Bijou64} {S E : Type} (Inv : S -> Prop) (grows : relation S).
Context (fails : E -> relation S).
Context (ids : S -> gset SedimentreeId).
Context {T : Type} `{!Schema T, !EncodeFields T, !DecodeFields T, !Item T}.
Context (stored : S -> SedimentreeId -> VerifiedMeta T -> Prop).
Context (good : SedimentreeId -> VerifiedMeta T -> Prop).

(** A load returns what is stored, and of what was stored before it began at least one
    item for every identity. *)
Definition loads_all (s0 : S) (id : SedimentreeId) (heads : list CommitId) : Prop :=
  forall v, stored s0 id v -> item_head (vm_payload v) ∈ heads.

Record item_laws (ops : item_ops S E T) : Prop := {
  law_save id v s :
    Inv s -> meta_ok v -> good id v ->
    wp Inv grows (save_item ops id v)
      (fun r s' => r = Ok tt -> id ∈ ids s' /\ saved stored s' id (vm_payload v)) s;
  law_list id s :
    Inv s ->
    wp Inv grows (list_item_ids ops id)
      (fun r s' => match r with
         | Ok heads =>
             (forall h, h ∈ heads -> exists v, stored s' id v /\ item_head (vm_payload v) = h) /\
             loads_all s id (elements heads)
         | Err e => read_failed grows fails e s s'
         end) s;
  law_load id s :
    Inv s ->
    wp Inv grows (load_items ops id)
      (fun r s' => match r with
         | Ok l =>
             (forall v, v ∈ l -> meta_ok v /\ stored s' id v) /\
             loads_all s id ((fun v => item_head (vm_payload v)) <$> l)
         | Err e => read_failed grows fails e s s'
         end) s;
  law_metas id s :
    Inv s ->
    wp Inv grows (load_item_metas ops id)
      (fun r s' => match r with
         | Ok l =>
             (forall x, x ∈ l -> exists v, stored s' id v /\ vm_payload v = x) /\
             loads_all s id (item_head <$> l)
         | Err e => read_failed grows fails e s s'
         end) s;
  law_load_one id h s :
    Inv s ->
    wp Inv grows (load_item ops id h)
      (fun r s' => match r with
         | Ok (Some v) => meta_ok v /\ stored s' id v /\ item_head (vm_payload v) = h
         | Ok None => forall v, stored s id v -> item_head (vm_payload v) <> h
         | Err e => read_failed grows fails e s s'
         end) s
}.
End contract.

(** What a backend promises to its users while no one deletes: its view only grows, each
    operation keeps its promise against any other task, and what is stored was saved: a
    property of all the saved items is a property of all the stored ones. [st_fails e] are
    the steps in which the backend reports [e] to a read; one that is not reported so does
    not fail. *)
Class StorageLaws `{Blake3, Bijou64} (S E : Type) `{!Storage S E} : Type := {
  st_inv : S -> Prop;
  st_ids : S -> gset SedimentreeId;
  st_commit : S -> SedimentreeId -> VerifiedMeta LooseCommit -> Prop;
  st_fragment : S -> SedimentreeId -> VerifiedMeta Fragment -> Prop;
  st_fails : E -> relation S;
  st_grows (s s' : S) : Prop :=
    st_ids s ⊆ st_ids s' /\
    (forall id v, st_commit s id v -> st_commit s' id v) /\
    (forall id v, st_fragment s id v -> st_fragment s' id v);
  st_only (good_c : SedimentreeId -> VerifiedMeta LooseCommit -> Prop)
      (good_f : SedimentreeId -> VerifiedMeta Fragment -> Prop) (s : S) : Prop :=
    st_inv s /\ (forall id v, st_commit s id v -> good_c id v) /\
    (forall id v, st_fragment s id v -> good_f id v);
  st_commit_laws good_c good_f :
    item_laws (st_only good_c good_f) st_grows st_fails st_ids st_commit good_c commit_ops;
  st_fragment_laws good_c good_f :
    item_laws (st_only good_c good_f) st_grows st_fails st_ids st_fragment good_f fragment_ops;
  st_save_id good_c good_f id s :
    st_only good_c good_f s ->
    wp (st_only good_c good_f) st_grows (save_sedimentree_id id)
      (fun r s' => r = Ok tt -> id ∈ st_ids s') s;
  st_load_ids good_c good_f s :
    st_only good_c good_f s ->
    wp (st_only good_c good_f) st_grows load_all_sedimentree_ids
      (fun r s' => match r with
         | Ok l => st_ids s ⊆ l /\ l ⊆ st_ids s'
         | Err e => read_failed st_grows st_fails e s s'
         end) s;
  st_contains good_c good_f id s :
    st_only good_c good_f s ->
    wp (st_only good_c good_f) st_grows (contains_sedimentree_id id)
      (fun r s' => match r with
         | Ok b => (b = true -> id ∈ st_ids s') /\ (b = false -> id ∉ st_ids s)
         | Err e => read_failed st_grows st_fails e s s'
         end) s;
  st_save_batch (good_c : _ -> _ -> Prop) (good_f : _ -> _ -> Prop) id cs fs s :
    st_only good_c good_f s ->
    (forall v, v ∈ cs -> meta_ok v /\ good_c id v) ->
    (forall v, v ∈ fs -> meta_ok v /\ good_f id v) ->
    wp (st_only good_c good_f) st_grows (save_batch id cs fs)
      (fun r s' => forall k, r = Ok k ->
         k = len cs + len fs /\ id ∈ st_ids s' /\
         (forall v, v ∈ cs -> saved st_commit s' id (vm_payload v)) /\
         (forall v, v ∈ fs -> saved st_fragment s' id (vm_payload v))) s
}.

#[export] Instance st_grows_preorder `{StorageLaws} : PreOrder st_grows.
Proof.
  split.
  - intros s. by split_and!.
  - intros s t u (Hi & Hc & Hf) (Hi' & Hc' & Hf'). split_and!; [by etrans|auto..].
Qed.

Section contract_facts.
Context `{StorageLaws}.

Lemma saved_commit_grows s s' id x :
  st_grows s s' -> saved st_commit s id x -> saved st_commit s' id x.
Proof. intros (_ & Hc & _) (v & Hv & ?). exists v. eauto. Qed.

Lemma saved_fragment_grows s s' id x :
  st_grows s s' -> saved st_fragment s id x -> saved st_fragment s' id x.
Proof. intros (_ & _ & Hf) (v & Hv & ?). exists v. eauto. Qed.
End contract_facts.

(** A [VerifiedMeta] that is made of signed bytes has their payload. *)
Section made.
Context `{Ed25519, Blake3, Bijou64} {T : Type}.
Context `{!Schema T, !EncodeFields T, !DecodeFields T, !HasBlobMeta T}.

Lemma verified_meta_ok (signed : Signed T) verified blob v :
  try_from_signed signed = Ok verified -> VerifiedMeta_new verified blob = Ok v ->
  meta_ok v /\ vm_signed v = signed /\ vm_blob v = blob.
Proof.
  intros Hv Hn. unfold VerifiedMeta_new in Hn. case_bool_decide; [|done].
  injection Hn as <-. unfold try_from_signed in Hv. inv_ok.
  destruct x0 as [payload k]. inv_ok. subst verified. split_and!; [|done..].
  unfold meta_ok, try_decode_trusted_payload, vm_signed, vm_payload. simpl.
  by match goal with Hd : try_decode_fields _ = Ok _ |- _ => rewrite Hd end.
Qed.

Lemma trusted_meta_ok (signed : Signed T) blob v :
  VerifiedMeta_try_from_trusted signed blob = Ok v ->
  meta_ok v /\ vm_signed v = signed /\ vm_blob v = blob.
Proof.
  unfold VerifiedMeta_try_from_trusted, try_from_trusted. intros Ht. inv_ok. by subst.
Qed.
End made.

(** ** Capabilities *)

(** A capability is the storage, which is in the shared state, and the tree it is for. *)
Record Putter : Type := Putter_new { pt_sedimentree_id : SedimentreeId }.
Record Fetcher : Type := Fetcher_new { ft_sedimentree_id : SedimentreeId }.
Record Destroyer : Type := Destroyer_new { ds_sedimentree_id : SedimentreeId }.

Definition as_fetcher (self : Putter) : Fetcher := Fetcher_new (pt_sedimentree_id self).

Section capabilities.
Context {S E : Type} `{!Storage S E}.

Definition putter_save_commit (self : Putter) (verified : VerifiedMeta LooseCommit) :
  task S (result E unit) := save_loose_commit (pt_sedimentree_id self) verified.
Definition putter_save_fragment (self : Putter) (verified : VerifiedMeta Fragment) :
  task S (result E unit) := save_fragment (pt_sedimentree_id self) verified.
Definition putter_save_batch (self : Putter) (commits : list (VerifiedMeta LooseCommit))
    (fragments : list (VerifiedMeta Fragment)) : task S (result E N) :=
  save_batch (pt_sedimentree_id self) commits fragments.
Definition putter_save_sedimentree_id (self : Putter) : task S (result E unit) :=
  save_sedimentree_id (pt_sedimentree_id self).

Definition fetcher_list_commit_ids (self : Fetcher) : task S (result E (gset CommitId)) :=
  list_commit_ids (ft_sedimentree_id self).
Definition fetcher_load_loose_commits (self : Fetcher) :
  task S (result E (list (VerifiedMeta LooseCommit))) :=
  load_loose_commits (ft_sedimentree_id self).
Definition fetcher_load_loose_commit_metas (self : Fetcher) :
  task S (result E (list LooseCommit)) :=
  load_loose_commit_metas (ft_sedimentree_id self).
Definition fetcher_load_loose_commit (self : Fetcher) (commit_id : CommitId) :
  task S (result E (option (VerifiedMeta LooseCommit))) :=
  load_loose_commit (ft_sedimentree_id self) commit_id.
Definition fetcher_load_fragment (self : Fetcher) (fragment_head : CommitId) :
  task S (result E (option (VerifiedMeta Fragment))) :=
  load_fragment (ft_sedimentree_id self) fragment_head.
Definition fetcher_list_fragment_ids (self : Fetcher) : task S (result E (gset CommitId)) :=
  list_fragment_ids (ft_sedimentree_id self).
Definition fetcher_load_fragments (self : Fetcher) :
  task S (result E (list (VerifiedMeta Fragment))) :=
  load_fragments (ft_sedimentree_id self).
Definition fetcher_load_fragment_metas (self : Fetcher) : task S (result E (list Fragment)) :=
  load_fragment_metas (ft_sedimentree_id self).

Definition destroyer_delete_loose_commit (self : Destroyer) (commit_id : CommitId) :
  task S (result E unit) := delete_loose_commit (ds_sedimentree_id self) commit_id.
Definition destroyer_delete_loose_commits (self : Destroyer) : task S (result E unit) :=
  delete_loose_commits (ds_sedimentree_id self).
Definition destroyer_delete_fragment (self : Destroyer) (fragment_head : CommitId) :
  task S (result E unit) := delete_fragment (ds_sedimentree_id self) fragment_head.
Definition destroyer_delete_fragments (self : Destroyer) : task S (result E unit) :=
  delete_fragments (ds_sedimentree_id self).
Definition destroyer_delete_sedimentree_id (self : Destroyer) : task S (result E unit) :=
  delete_sedimentree_id (ds_sedimentree_id self).
End capabilities.

(** ** Policies *)

(** The answers of a policy may depend on its own state [P], and on time. *)
Class ConnectionPolicy (P D : Type) : Type :=
  authorize_connect : PeerId -> task P (result D unit).

Class StoragePolicy (P Df Dp : Type) : Type := {
  authorize_fetch : PeerId -> SedimentreeId -> task P (result Df unit);
  authorize_put : PeerId -> VerifiedAuthor -> SedimentreeId -> task P (result Dp unit);
  filter_authorized_fetch : PeerId -> list SedimentreeId -> task P (list SedimentreeId)
}.

(** A policy answers: it does not panic, and it adds nothing to the list it filters. *)
Class StoragePolicyLaws (P Df Dp : Type) `{!StoragePolicy P Df Dp} : Prop := {
  fetch_answers peer id p :
    wp (fun _ => True) (fun _ _ => True) (authorize_fetch peer id) (fun _ _ => True) p;
  put_answers peer author id p :
    wp (fun _ => True) (fun _ _ => True) (authorize_put peer author id) (fun _ _ => True) p;
  filter_answers peer l p :
    wp (fun _ => True) (fun _ _ => True) (filter_authorized_fetch peer l)
      (fun l' _ => l' ⊆ l) p
}.

(** [OpenPolicy]: everyone may do everything; its errors are [Infallible]. *)
#[export] Instance OpenPolicy_connect : ConnectionPolicy unit Empty_set :=
  fun _ => Ret (Ok tt).

#[export] Instance OpenPolicy : StoragePolicy unit Empty_set Empty_set := {|
  authorize_fetch _ _ := Ret (Ok tt);
  authorize_put _ _ _ := Ret (Ok tt);
  filter_authorized_fetch _ ids := Ret ids
|}.

#[export] Instance OpenPolicy_laws : StoragePolicyLaws unit Empty_set Empty_set.
Proof. by split; simpl. Qed.

(** ** The powerbox *)

(** [StoragePowerbox]: a capability is minted by the policy's leave, except the local
    ones. *)
Section powerbox.
Context {P Df Dp : Type} `{!StoragePolicy P Df Dp}.

Definition get_fetcher (peer : PeerId) (id : SedimentreeId) : task P (result Df Fetcher) :=
  await? _ := authorize_fetch peer id in
  Ret (Ok (Fetcher_new id)).

Definition get_putter (requestor : PeerId) (author : VerifiedAuthor) (id : SedimentreeId) :
  task P (result Dp Putter) :=
  await? _ := authorize_put requestor author id in
  Ret (Ok (Putter_new id)).

Definition local_putter (id : SedimentreeId) : Putter := Putter_new id.
Definition local_destroyer (id : SedimentreeId) : Destroyer := Destroyer_new id.
End powerbox.

(** [hydration_access()]: the reads of [LocalStorageAccess] are those of the storage. *)
Section local_access.
Context {S E : Type} `{!Storage S E}.

Definition local_load_all_sedimentree_ids : task S (result E (gset SedimentreeId)) :=
  load_all_sedimentree_ids.
Definition local_contains_sedimentree_id (id : SedimentreeId) : task S (result E bool) :=
  contains_sedimentree_id id.
Definition local_load_loose_commits (id : SedimentreeId) :
  task S (result E (list (VerifiedMeta LooseCommit))) := load_loose_commits id.
Definition local_load_loose_commit_metas (id : SedimentreeId) :
  task S (result E (list LooseCommit)) := load_loose_commit_metas id.
Definition local_load_fragments (id : SedimentreeId) :
  task S (result E (list (VerifiedMeta Fragment))) := load_fragments id.
Definition local_load_fragment_metas (id : SedimentreeId) : task S (result E (list Fragment)) :=
  load_fragment_metas id.
End local_access.

(** ** The fallback keeps the contract *)

Section fallback.
Context `{Blake3, Bijou64} {S E : Type} (Inv : S -> Prop) (grows : relation S).
Context `{!PreOrder grows} (fails : E -> relation S) (ids : S -> gset SedimentreeId).
Context {T : Type} `{!Schema T, !EncodeFields T, !DecodeFields T, !Item T}.
Context (stored : S -> SedimentreeId -> VerifiedMeta T -> Prop).
Context (good : SedimentreeId -> VerifiedMeta T -> Prop).
Context (Hgrows : forall s s' id v, grows s s' -> stored s id v -> stored s' id v).

(** The backend with its own [load_item_metas] replaced by the fallback. *)
Definition with_fallback (ops : item_ops S E T) : item_ops S E T := {|
  save_item := save_item ops;
  list_item_ids := list_item_ids ops;
  load_items := load_items ops;
  load_item_metas := load_item_metas_via_full ops;
  load_item := load_item ops;
  delete_item := delete_item ops;
  delete_items := delete_items ops
|}.

Lemma fallback_laws ops :
  item_laws Inv grows fails ids stored good ops ->
  item_laws Inv grows fails ids stored good (with_fallback ops).
Proof.
  intros [Hs Hl Hld _ H1]. split; [done..| |done]. simpl. intros id s Hi.
  unfold load_item_metas_via_full. apply wp_bind_ok; [done|].
  eapply wp_mono; [done|by apply Hld|]. intros [l|e] s' Hs' Hg Hr; apply wp_ret;
    intros s'' Hs'' Hg'; [|by apply (read_failed_grows _ _ e s s s')]. destruct Hr as [Hin Hall]. split.
  - intros x (v & -> & Hv)%list_elem_of_fmap. destruct (Hin v Hv). exists v. eauto.
  - intros v Hv. specialize (Hall v Hv). apply list_elem_of_fmap in Hall as (w & -> & Hw).
    apply list_elem_of_fmap. exists (vm_payload w). split; [done|]. apply list_elem_of_fmap.
    by exists w.
Qed.
End fallback.
