(* ===== verification/MemoryStorage.v ===== *)
(** The in-memory backend of [subduction_core/src/storage/memory.rs].

    A set of registered trees behind one lock, and for each kind of item a store in
    shards, each behind its own lock. An item is kept under the digest of its payload,
    with the identity it was saved with; saving content that is there already changes
    nothing. A load copies the raw entries under the lock and decodes them after. *)

From Stdlib Require Import Strings.Byte NArith Lia.
From stdpp Require Import base gmap sorting list relations.
From S2P Require Import Prelude.
From S2P Require Import Codec.
From S2P Require Import Types.
From S2P Require Import LooseCommit.
From S2P Require Import Fragment.
From S2P Require Import Traversal.
From S2P Require Import Sedimentree.
From S2P Require Import Signed.
From S2P Require Import Tasks.
From S2P Require Import ShardedMap.
From S2P Require Import Storage.

Definition STORAGE_SHARDS : nat := 256.

(** [iter.collect::<Result<Vec<_>, _>>()] *)
Fixpoint collect_results {E A} (l : list (result E A)) : result E (list A) :=
  match l with
  | [] => Ok []
  | x :: l' => let? a := x in let? as' := collect_results l' in Ok (a :: as')
  end.

Lemma collect_results_ok {E A B} (f : A -> result E B) (l : list A) (k : list B) :
  collect_results (f <$> l) = Ok k <-> Forall2 (fun x y => f x = Ok y) l k.
Proof.
  revert k. induction l as [|x l IH]; intros k.
  - split; [intros [= <-]; constructor|by inversion 1].
  - rewrite fmap_cons. cbn [collect_results]. rewrite rbind_ok. split.
    + intros (b & Hx & Hr). apply rbind_ok in Hr as (k' & Hk & [= <-]).
      constructor; [done|]. by apply IH.
    + inversion 1 as [|? b ? k' Hx Hk]; subst. exists b. split; [done|].
      apply IH in Hk. by rewrite Hk.
Qed.

(** An entry: the identity, the signed payload and the blob. *)
Notation Entry T := (CommitId * Signed T * Blob)%type (only parsing).

(** [Sharded<Digest<T>, T>]: the shard of a tree is chosen as in [ShardedMap], with the
    key [(0, 0)]. *)
Notation ItemShards T := (ShardedMap SedimentreeId (gmap (Digest T) (Entry T))) (only parsing).

Record MemoryStorage : Type := MkMemory {
  mem_ids : gset SedimentreeId;
  mem_commits : ItemShards LooseCommit;
  mem_fragments : ItemShards Fragment
}.

Section shards.
Context `{HashIter, SipHash24, Blake3, Bijou64} {T : Type}.
Context `{!Schema T, !EncodeFields T, !DecodeFields T, !Item T}.

Definition Sharded_new : ItemShards T := Sharded.with_key STORAGE_SHARDS 0 0.

(** A section under the lock of the shard of [id]. *)
Definition shard {R} (id : SedimentreeId)
    (f : gmap SedimentreeId (gmap (Digest T) (Entry T)) ->
         gmap SedimentreeId (gmap (Digest T) (Entry T)) * R) : task (ItemShards T) R :=
  act (Sharded.locked STORAGE_SHARDS id (fun m => Some (f m))).

(** [entry(digest).or_insert((head, signed, blob))] of a verified item. *)
Definition put_entry (m : gmap (Digest T) (Entry T)) (verified : VerifiedMeta T) :
  gmap (Digest T) (Entry T) :=
  let head := item_head (vm_payload verified) in
  let digest := Digest_hash (vm_payload verified) in
  let '(signed, _, blob) := into_full_parts verified in
  or_insert digest (head, signed, blob) m.

Definition shard_save (id : SedimentreeId) (items : list (VerifiedMeta T)) :
  task (ItemShards T) unit :=
  shard id (fun m => (<[id := foldl put_entry (default ∅ (m !! id)) items]> m, tt)).

(** [map.values()] of the tree, or nothing. *)
Definition shard_entries (id : SedimentreeId) : task (ItemShards T) (list (Entry T)) :=
  shard id (fun m => (m, match m !! id with Some e => hash_values e | None => [] end)).

Definition shard_list_ids (id : SedimentreeId) : task (ItemShards T) (gset CommitId) :=
  await es := shard_entries id in
  Ret (list_to_set ((fun '(h, _, _) => h) <$> es)).

Definition shard_load (id : SedimentreeId) :
  task (ItemShards T) (result DecodeError (list (VerifiedMeta T))) :=
  await es := shard_entries id in
  let raw := (fun '(_, signed, blob) => (signed, blob)) <$> es in
  Ret (collect_results ((fun '(signed, blob) => VerifiedMeta_try_from_trusted signed blob) <$> raw)).

Definition shard_load_metas (id : SedimentreeId) :
  task (ItemShards T) (result DecodeError (list T)) :=
  await es := shard_entries id in
  let signed := (fun '(_, signed, _) => signed) <$> es in
  Ret (collect_results (try_decode_trusted_payload <$> signed)).

(** [find_map]: the first entry with that identity. *)
Definition shard_load_one (id : SedimentreeId) (h : CommitId) :
  task (ItemShards T) (result DecodeError (option (VerifiedMeta T))) :=
  await es := shard_entries id in
  Ret match head (filter (fun e => e.1.1 = h) es) with
      | Some (_, signed, blob) =>
          let? v := VerifiedMeta_try_from_trusted signed blob in Ok (Some v)
      | None => Ok None
      end.

(** [map.retain(|_, (id, _, _)| *id != h)] *)
Definition shard_delete_one (id : SedimentreeId) (h : CommitId) : task (ItemShards T) unit :=
  shard id (fun m => (match m !! id with
                      | Some es => <[id := filter (fun '(_, e) => e.1.1 <> h) es]> m
                      | None => m
                      end, tt)).

Definition shard_delete (id : SedimentreeId) : task (ItemShards T) unit :=
  shard id (fun m => (delete id m, tt)).
End shards.

Module Memory.
Section backend.
Context `{HashIter, SipHash24, Blake3, Bijou64}.

Definition new : MemoryStorage := MkMemory ∅ Sharded_new Sharded_new.

(** A section under the lock of [ids]. *)
Definition on_ids {R} (f : gset SedimentreeId -> gset SedimentreeId * R) :
  task MemoryStorage R :=
  act (fun s => let '(ids, r) := f (mem_ids s) in
                Some (MkMemory ids (mem_commits s) (mem_fragments s), r)).

Definition on_commits {R} (m : task (ItemShards LooseCommit) R) : task MemoryStorage R :=
  zoom mem_commits (fun c s => MkMemory (mem_ids s) c (mem_fragments s)) m.

Definition on_fragments {R} (m : task (ItemShards Fragment) R) : task MemoryStorage R :=
  zoom mem_fragments (fun f s => MkMemory (mem_ids s) (mem_commits s) f) m.

Definition save_sedimentree_id (id : SedimentreeId) : task MemoryStorage (result DecodeError unit) :=
  await _ := on_ids (fun ids => ({[id]} ∪ ids, tt)) in Ret (Ok tt).

Definition delete_sedimentree_id (id : SedimentreeId) :
  task MemoryStorage (result DecodeError unit) :=
  await _ := on_ids (fun ids => (ids ∖ {[id]}, tt)) in Ret (Ok tt).

Definition load_all_sedimentree_ids : task MemoryStorage (result DecodeError (gset SedimentreeId)) :=
  await ids := on_ids (fun ids => (ids, ids)) in Ret (Ok ids).

Definition contains_sedimentree_id (id : SedimentreeId) :
  task MemoryStorage (result DecodeError bool) :=
  await b := on_ids (fun ids => (ids, bool_decide (id ∈ ids))) in Ret (Ok b).

(** Persisting an item registers its tree. *)
Definition save_loose_commit (id : SedimentreeId) (verified : VerifiedMeta LooseCommit) :
  task MemoryStorage (result DecodeError unit) :=
  await _ := on_ids (fun ids => ({[id]} ∪ ids, tt)) in
  await _ := on_commits (shard_save id [verified]) in
  Ret (Ok tt).

Definition save_fragment (id : SedimentreeId) (verified : VerifiedMeta Fragment) :
  task MemoryStorage (result DecodeError unit) :=
  await _ := on_ids (fun ids => ({[id]} ∪ ids, tt)) in
  await _ := on_fragments (shard_save id [verified]) in
  Ret (Ok tt).

Definition unit_ok {S E} (m : task S unit) : task S (result E unit) :=
  await _ := m in Ret (Ok tt).

Definition loose_commits : item_ops MemoryStorage DecodeError LooseCommit := {|
  save_item := save_loose_commit;
  list_item_ids id := await ids := on_commits (shard_list_ids id) in Ret (Ok ids);
  load_items id := on_commits (shard_load id);
  load_item_metas id := on_commits (shard_load_metas id);
  load_item id h := on_commits (shard_load_one id h);
  delete_item id h := unit_ok (on_commits (shard_delete_one id h));
  delete_items id := unit_ok (on_commits (shard_delete id))
|}.

Definition fragments : item_ops MemoryStorage DecodeError Fragment := {|
  save_item := save_fragment;
  list_item_ids id := await ids := on_fragments (shard_list_ids id) in Ret (Ok ids);
  load_items id := on_fragments (shard_load id);
  load_item_metas id := on_fragments (shard_load_metas id);
  load_item id h := on_fragments (shard_load_one id h);
  delete_item id h := unit_ok (on_fragments (shard_delete_one id h));
  delete_items id := unit_ok (on_fragments (shard_delete id))
|}.

(** The lock of each store is taken once for the whole batch. *)
Definition save_batch (id : SedimentreeId) (commits : list (VerifiedMeta LooseCommit))
    (fragments : list (VerifiedMeta Fragment)) : task MemoryStorage (result DecodeError N) :=
  await _ := on_ids (fun ids => ({[id]} ∪ ids, tt)) in
  await _ := on_commits (shard_save id commits) in
  await _ := on_fragments (shard_save id fragments) in
  Ret (Ok (len commits + len fragments)).

#[export] Instance MemoryStorage_storage : Storage MemoryStorage DecodeError := {|
  Storage.save_sedimentree_id := save_sedimentree_id;
  Storage.delete_sedimentree_id := delete_sedimentree_id;
  Storage.load_all_sedimentree_ids := load_all_sedimentree_ids;
  Storage.contains_sedimentree_id := contains_sedimentree_id;
  commit_ops := loose_commits;
  fragment_ops := fragments;
  Storage.save_batch := save_batch
|}.
End backend.
End Memory.
#[export] Existing Instance Memory.MemoryStorage_storage.

(** ** The shards of one kind of item *)

Section items.
Context `{HashIter, SipHash24Range, Blake3, Bijou64} {T : Type}.
Context `{!Schema T, !EncodeFields T, !DecodeFields T, !Item T}.
Implicit Types (sh : ItemShards T) (id : SedimentreeId) (v : VerifiedMeta T).
Implicit Type good : SedimentreeId -> VerifiedMeta T -> Prop.

Definition content sh : gmap SedimentreeId (gmap (Digest T) (Entry T)) := Sharded.flat sh.

(** An entry is under the digest of the payload it decodes to, with that payload's head. *)
Definition entry_ok (d : Digest T) (e : Entry T) : Prop :=
  exists x, try_decode_trusted_payload e.1.2 = Ok x /\ Digest_hash x = d /\ item_head x = e.1.1.

(** The entry that a verified item makes. *)
Definition entry_of v : Entry T := (item_head (vm_payload v), vm_signed v, vm_blob v).

Definition stored_in sh id v : Prop :=
  meta_ok v /\ exists m d, content sh !! id = Some m /\ m !! d = Some (entry_of v).

(** The shards are in order, and hold only [good] items. *)
Record shards_ok good sh : Prop := {
  so_wf : Sharded.wf STORAGE_SHARDS sh;
  so_entries id m d e : content sh !! id = Some m -> m !! d = Some e -> entry_ok d e;
  so_good id v : stored_in sh id v -> good id v
}.

Definition shards_grow sh sh' : Prop := forall id v, stored_in sh id v -> stored_in sh' id v.

#[export] Instance shards_grow_preorder : PreOrder shards_grow.
Proof. split; [by intros sh id v|]. intros a b c Hab Hbc id v Hv. by apply Hbc, Hab. Qed.

(** A section that sets the entries of its own tree acts on the content. *)
Lemma shard_run {R} id (g : option (gmap (Digest T) (Entry T)) ->
    option (gmap (Digest T) (Entry T)) * R) f sh :
  (forall m, f m = (partial_alter (fun _ => (g (m !! id)).1) id m, (g (m !! id)).2)) ->
  Sharded.wf STORAGE_SHARDS sh ->
  exists sh', run (shard id f) sh = Some (sh', (g (content sh !! id)).2) /\
    Sharded.wf STORAGE_SHARDS sh' /\
    content sh' = partial_alter (fun _ => (g (content sh !! id)).1) id (content sh).
Proof.
  intros Hf Hwf.
  pose proof (Sharded.locked_refines STORAGE_SHARDS id (fun o => Some (g o)) (fun m => Some (f m))
    ltac:(unfold STORAGE_SHARDS; lia) ltac:(unfold u64_max, STORAGE_SHARDS; lia)) as Hr.
  specialize (Hr ltac:(intros m; cbv beta; rewrite Hf; unfold Sharded.at_key; simpl; by destruct (g _)) sh Hwf).
  unfold Sharded.at_key in Hr. unfold content. cbn [mbind option_bind] in Hr.
  destruct (g (Sharded.flat sh !! id)) as [o r]. exact Hr.
Qed.

(** *** Entries *)

Lemma entry_ok_of v : meta_ok v -> entry_ok (Digest_hash (vm_payload v)) (entry_of v).
Proof. intros Hv. by exists (vm_payload v). Qed.

Lemma entry_ok_inv d e :
  entry_ok d e -> exists v, meta_ok v /\ e = entry_of v /\ d = Digest_hash (vm_payload v).
Proof.
  destruct e as [[h sg] blob]. intros (x & Hx & <- & Hh). simpl in *. subst h.
  by exists (MkVerifiedMeta (VerifiedSignature_from_parts sg x) blob).
Qed.

Lemma trusted_entry v :
  meta_ok v -> VerifiedMeta_try_from_trusted (vm_signed v) (vm_blob v) = Ok v.
Proof.
  intros Hv. unfold VerifiedMeta_try_from_trusted, try_from_trusted.
  unfold meta_ok in Hv. rewrite Hv. simpl. by destruct v as [[sg x] b].
Qed.

Lemma entry_of_inj v w : meta_ok v -> meta_ok w -> entry_of v = entry_of w -> v = w.
Proof.
  intros Hv Hw [= _ Hs Hb]. apply trusted_entry in Hv, Hw. rewrite Hs, Hb in Hv. congruence.
Qed.

Lemma put_entry_lookup m v d :
  put_entry m v !! d =
  match m !! d with
  | Some e => Some e
  | None => if decide (d = Digest_hash (vm_payload v)) then Some (entry_of v) else None
  end.
Proof.
  unfold put_entry, or_insert. simpl.
  destruct (m !! Digest_hash (vm_payload v)) as [e|] eqn:Hm.
  - destruct (m !! d) eqn:Hd; [done|]. destruct (decide _) as [-> |]; [congruence|done].
  - destruct (decide (d = Digest_hash (vm_payload v))) as [-> |Hne].
    + by rewrite lookup_insert_eq, Hm.
    + rewrite lookup_insert_ne by done. by destruct (m !! d).
Qed.

(** What a batch leaves: the old entries, new ones of the batch, and one for each item. *)
Lemma foldl_put_entry m l :
  (forall d e, m !! d = Some e -> foldl put_entry m l !! d = Some e) /\
  (forall d e, foldl put_entry m l !! d = Some e ->
     m !! d = Some e \/ exists v, v ∈ l /\ e = entry_of v /\ d = Digest_hash (vm_payload v)) /\
  (forall v, v ∈ l -> is_Some (foldl put_entry m l !! Digest_hash (vm_payload v))).
Proof.
  revert m. induction l as [|v l IH]; intros m; simpl.
  { split_and!; [done|by left|by intros v ?%not_elem_of_nil]. }
  destruct (IH (put_entry m v)) as (Hold & Hnew & Hall). split_and!.
  - intros d e Hd. apply Hold. by rewrite put_entry_lookup, Hd.
  - intros d e Hd. apply Hnew in Hd as [Hd|(w & Hw & ?)].
    + rewrite put_entry_lookup in Hd. destruct (m !! d); [by left; simplify_eq|].
      destruct (decide _) as [-> |]; [|done]. simplify_eq. right. exists v. by split; [left|].
    + right. exists w. by split; [right|].
  - intros w [-> |Hw]%elem_of_cons; [|by apply Hall].
    assert (is_Some (put_entry m v !! Digest_hash (vm_payload v))) as [e He].
    { rewrite put_entry_lookup. destruct (m !! _); [by eexists|].
      rewrite decide_True by done. by eexists. }
    eexists. by apply Hold.
Qed.

(** *** Sections under interference *)

Context (good : SedimentreeId -> VerifiedMeta T -> Prop).
Notation wps := (wp (shards_ok good) shards_grow).

Lemma shard_wp {R} id (g : option (gmap (Digest T) (Entry T)) ->
    option (gmap (Digest T) (Entry T)) * R) f (Q : R -> ItemShards T -> Prop) sh :
  (forall m, f m = (partial_alter (fun _ => (g (m !! id)).1) id m, (g (m !! id)).2)) ->
  (forall s, shards_ok good s -> shards_grow sh s -> forall s',
     content s' = partial_alter (fun _ => (g (content s !! id)).1) id (content s) ->
     Sharded.wf STORAGE_SHARDS s' ->
     shards_ok good s' /\ shards_grow s s' /\
     forall t, shards_ok good t -> shards_grow s' t -> Q (g (content s !! id)).2 t) ->
  wps (shard id f) Q sh.
Proof.
  intros Hf HQ s Hs Hg. destruct (shard_run id g f s Hf (so_wf _ _ Hs)) as (s' & Hrun & Hwf & Hc).
  destruct (HQ s Hs Hg s' Hc Hwf) as (Hs' & Hg' & Hq). cbn [run act shard] in Hrun.
  exists s', (g (content s !! id)).2. split_and!; [|done..].
  destruct (Sharded.locked _ _ _ _) as [[? ?]|]; [|done]. by simplify_eq.
Qed.

Lemma wp_shard_save id items sh :
  (forall v, v ∈ items -> meta_ok v /\ good id v) ->
  wps (shard_save id items)
    (fun _ s => forall v, v ∈ items -> saved stored_in s id (vm_payload v)) sh.
Proof.
  intros Hall. apply (shard_wp id (fun o => (Some (foldl put_entry (default ∅ o) items), tt))); [done|].
  intros s Hs Hg s' Hc Hwf. cbn [fst snd] in *.
  set (m := default ∅ (content s !! id)) in *.
  destruct (foldl_put_entry m items) as (Hold & Hnew & Hin).
  assert (Hm : forall d e, m !! d = Some e -> content s !! id = Some m).
  { intros d e He. unfold m in *. destruct (content s !! id); [done|].
    cbn [default from_option] in He. by rewrite lookup_empty in He. }
  assert (Hid : content s' !! id = Some (foldl put_entry m items))
    by (by rewrite Hc, lookup_partial_alter_eq).
  assert (Hs' : shards_ok good s').
  { split; [done| |].
    - intros j k d e Hj Hk. destruct (decide (j = id)) as [-> |Hne].
      + rewrite Hid in Hj. simplify_eq. apply Hnew in Hk as [Hk|(v & Hv & -> & ->)].
        * by eapply (so_entries _ _ Hs); [eapply Hm|].
        * by apply entry_ok_of, Hall.
      + rewrite Hc, lookup_partial_alter_ne in Hj by done. by eapply (so_entries _ _ Hs).
    - intros j v (Hv & k & d & Hj & Hk). destruct (decide (j = id)) as [-> |Hne].
      + rewrite Hid in Hj. simplify_eq. apply Hnew in Hk as [Hk|(w & Hw & He & _)].
        * apply (so_good _ _ Hs). split; [done|]. exists m, d. by split; [eapply Hm|].
        * destruct (Hall w Hw). by rewrite (entry_of_inj v w).
      + rewrite Hc, lookup_partial_alter_ne in Hj by done. apply (so_good _ _ Hs).
        split; [done|]. by exists k, d. }
  assert (Hg' : shards_grow s s').
  { intros j v (Hv & k & d & Hj & Hk). split; [done|]. destruct (decide (j = id)) as [-> |Hne].
    - eexists _, d. split; [exact Hid|]. apply Hold. unfold m. by rewrite Hj.
    - exists k, d. by rewrite Hc, lookup_partial_alter_ne. }
  split_and!; [done..|]. intros t Ht Hgt v Hv. destruct (Hin v Hv) as [e He].
  destruct (entry_ok_inv _ _ (so_entries _ _ Hs' _ _ _ _ Hid He)) as (w & Hw & -> & Hd).
  exists w. split; [|done]. apply Hgt. split; [done|]. by eexists _, _.
Qed.

(** A copy of the raw entries: what is stored, and all of what was stored before. *)
Lemma wp_shard_entries id sh :
  wps (shard_entries id)
    (fun es s => (forall e, e ∈ es -> exists v, stored_in s id v /\ e = entry_of v) /\
                 (forall v, stored_in sh id v -> entry_of v ∈ es)) sh.
Proof.
  apply (shard_wp id (fun o => (o, match o with Some e => hash_values e | None => [] end))).
  { intros m. simpl. by rewrite partial_alter_self. }
  intros s Hs Hg s' Hc Hwf. cbn [fst snd] in *. rewrite partial_alter_self in Hc.
  assert (Hsame : forall j v, stored_in s j v <-> stored_in s' j v)
    by (intros j v; unfold stored_in; by rewrite Hc).
  split_and!.
  - split; [done| |].
    + intros j m d e. rewrite Hc. apply (so_entries _ _ Hs).
    + intros j v Hv. by apply (so_good _ _ Hs), Hsame.
  - intros j v. by apply Hsame.
  - intros t Ht Hgt. split.
    + intros e He. destruct (content s !! id) as [m|] eqn:Hm; [|by apply not_elem_of_nil in He].
      apply elem_of_hash_values in He as [d Hd].
      destruct (entry_ok_inv _ _ (so_entries _ _ Hs _ _ _ _ Hm Hd)) as (v & Hv & -> & _).
      exists v. split; [|done]. apply Hgt, Hsame. split; [done|]. by exists m, d.
    + intros v Hv. destruct (Hg _ _ Hv) as (_ & m & d & -> & Hd).
      apply elem_of_hash_values. by exists d.
Qed.

Lemma entries_of id s (es : list (Entry T)) :
  (forall e, e ∈ es -> exists v, stored_in s id v /\ e = entry_of v) ->
  exists vs, es = entry_of <$> vs /\ forall v, v ∈ vs -> stored_in s id v.
Proof.
  induction es as [|e es IH]; intros He.
  - exists []. split; [done|]. by intros v ?%not_elem_of_nil.
  - destruct (He e) as (v & Hv & ->); [left|]. destruct IH as (vs & -> & Hvs).
    { intros e' He'. apply He. by right. }
    exists (v :: vs). split; [done|]. by intros w [-> |?]%elem_of_cons; [|apply Hvs].
Qed.

(** The entries of a tree as verified items. *)
Lemma wp_shard_items {R} id sh (k : list (Entry T) -> R) (Q : R -> ItemShards T -> Prop) :
  (forall vs s, shards_ok good s -> (forall v, v ∈ vs -> stored_in s id v) ->
     (forall v, stored_in sh id v -> v ∈ vs) -> Q (k (entry_of <$> vs)) s) ->
  wps (await es := shard_entries id in Ret (k es)) Q sh.
Proof.
  intros HQ. apply wp_bind; [apply _|]. eapply wp_mono; [apply _|apply wp_shard_entries|].
  intros es s Hs _ [He Hall]. apply wp_ret. intros s' Hs' Hg'.
  destruct (entries_of id s es He) as (vs & -> & Hvs). apply HQ; [done|by auto|].
  intros v Hv. pose proof (Hall v Hv) as Hin. apply list_elem_of_fmap in Hin as (w & Hw & Hin).
  rewrite (entry_of_inj v w); [done|by destruct Hv|by destruct (Hvs w Hin)|done].
Qed.

Lemma wp_shard_list_ids id sh :
  wps (shard_list_ids id)
    (fun heads s =>
       (forall h, h ∈ heads -> exists v, stored_in s id v /\ item_head (vm_payload v) = h) /\
       loads_all stored_in sh id (elements heads)) sh.
Proof.
  apply (wp_shard_items id sh (fun es => list_to_set ((fun '(h, _, _) => h) <$> es))).
  intros vs s Hs Hin Hall. rewrite <- list_fmap_compose. split.
  - intros h. rewrite elem_of_list_to_set, list_elem_of_fmap. intros (v & -> & Hv).
    exists v. by split; [apply Hin|].
  - intros v Hv. apply elem_of_elements, elem_of_list_to_set, list_elem_of_fmap.
    exists v. by split; [|apply Hall].
Qed.

Lemma wp_shard_load id sh :
  wps (shard_load id)
    (fun r s => exists vs, r = Ok vs /\ (forall v, v ∈ vs -> meta_ok v /\ stored_in s id v) /\
       (forall v, stored_in sh id v -> v ∈ vs)) sh.
Proof.
  apply (wp_shard_items id sh (fun es => collect_results
    ((fun '(signed, blob) => VerifiedMeta_try_from_trusted signed blob) <$>
     ((fun '(_, signed, blob) => (signed, blob)) <$> es)))).
  intros vs s Hs Hin Hall. exists vs. split_and!; [|by intros v Hv; split; apply (Hin v Hv)|done].
  rewrite <- !list_fmap_compose. apply collect_results_ok, Forall2_same_length_lookup_2; [done|].
  intros i v w Hv Hw. simplify_eq. apply trusted_entry. destruct (Hin v); [|done].
  by eapply list_elem_of_lookup_2.
Qed.

Lemma wp_shard_load_metas id sh :
  wps (shard_load_metas id)
    (fun r s => exists xs, r = Ok xs /\
       (forall x, x ∈ xs -> exists v, stored_in s id v /\ vm_payload v = x) /\
       (forall v, stored_in sh id v -> vm_payload v ∈ xs)) sh.
Proof.
  apply (wp_shard_items id sh (fun es => collect_results
    (try_decode_trusted_payload <$> ((fun '(_, signed, _) => signed) <$> es)))).
  intros vs s Hs Hin Hall. exists (vm_payload <$> vs). split_and!.
  - rewrite <- !list_fmap_compose. apply collect_results_ok, Forall2_fmap_r.
    apply Forall2_same_length_lookup_2; [done|]. intros i v w Hv Hw. simplify_eq.
    destruct (Hin v) as [Hok _]; [|exact Hok]. by eapply list_elem_of_lookup_2.
  - intros x (v & -> & Hv)%list_elem_of_fmap. exists v. by split; [apply Hin|].
  - intros v Hv. apply list_elem_of_fmap. exists v. by split; [|apply Hall].
Qed.

Lemma wp_shard_load_one id h sh :
  wps (shard_load_one id h)
    (fun r s => match r with
       | Ok (Some v) => meta_ok v /\ stored_in s id v /\ item_head (vm_payload v) = h
       | Ok None => forall v, stored_in sh id v -> item_head (vm_payload v) <> h
       | Err _ => False
       end) sh.
Proof.
  apply (wp_shard_items id sh (fun es =>
    match head (filter (fun e => e.1.1 = h) es) with
    | Some (_, signed, blob) =>
        let? v := VerifiedMeta_try_from_trusted signed blob in Ok (Some v)
    | None => Ok None
    end)).
  intros vs s Hs Hin Hall.
  destruct (head (filter (fun e => e.1.1 = h) (entry_of <$> vs))) as [e|] eqn:Hh.
  - apply head_Some_elem_of, list_elem_of_filter in Hh as [Heh He].
    apply list_elem_of_fmap in He as (v & -> & Hv). simpl in *.
    destruct (Hin v Hv) as [Hok Hst]. by rewrite trusted_entry.
  - apply head_None in Hh. intros v Hv Hvh. apply (not_elem_of_nil (entry_of v)).
    rewrite <- Hh. apply list_elem_of_filter. split; [done|]. by apply list_elem_of_fmap_2, Hall.
Qed.
End items.

(** ** The contract of the backend *)

Section laws.
Context `{HashIter, SipHash24Range, Blake3, Bijou64}.
Implicit Types s : MemoryStorage.

Definition mem_inv s : Prop :=
  shards_ok (fun _ _ => True) (mem_commits s) /\ shards_ok (fun _ _ => True) (mem_fragments s).

Definition mem_grows s s' : Prop :=
  mem_ids s ⊆ mem_ids s' /\
  (forall id v, stored_in (mem_commits s) id v -> stored_in (mem_commits s') id v) /\
  (forall id v, stored_in (mem_fragments s) id v -> stored_in (mem_fragments s') id v).

#[local] Instance mem_grows_preorder : PreOrder mem_grows.
Proof.
  split; [by intros s|]. intros s t u (Hi & Hc & Hf) (Hi' & Hc' & Hf').
  split_and!; [by etrans|auto..].
Qed.

Context (good_c : SedimentreeId -> VerifiedMeta LooseCommit -> Prop).
Context (good_f : SedimentreeId -> VerifiedMeta Fragment -> Prop).

Definition mem_only s : Prop :=
  mem_inv s /\ (forall id v, stored_in (mem_commits s) id v -> good_c id v) /\
  (forall id v, stored_in (mem_fragments s) id v -> good_f id v).

Lemma mem_only_shards s :
  mem_only s <-> shards_ok good_c (mem_commits s) /\ shards_ok good_f (mem_fragments s).
Proof.
  split.
  - intros ([[? ? _] [? ? _]] & Hc & Hf). by split; split.
  - intros [[? ? ?] [? ? ?]]. split; [by split; split|by split].
Qed.

Lemma wp_on_ids {R} (f : gset SedimentreeId -> gset SedimentreeId * R) Q s :
  (forall t, mem_only t -> mem_grows s t ->
     mem_ids t ⊆ (f (mem_ids t)).1 /\
     forall u, mem_only u -> (f (mem_ids t)).1 ⊆ mem_ids u -> Q (f (mem_ids t)).2 u) ->
  wp mem_only mem_grows (Memory.on_ids f) Q s.
Proof.
  intros HQ t Ht Hg. destruct (HQ t Ht Hg) as [Hsub Hq].
  destruct (f (mem_ids t)) as [ids r]. simpl in *. eexists _, r. split_and!; [done| | |].
  - done.
  - by split_and!.
  - intros u Hu (Hi & _). by apply Hq.
Qed.

Lemma wp_on_commits {R} (m : task (ItemShards LooseCommit) R) (Q : R -> _ -> Prop) s :
  wp (shards_ok good_c) shards_grow m Q (mem_commits s) ->
  wp mem_only mem_grows (Memory.on_commits m) (fun r s => Q r (mem_commits s)) s.
Proof.
  apply wp_zoom; [done|by intros ? [? _]%mem_only_shards|by intros ? ? (_ & ? & _)|].
  intros t u [? ?]%mem_only_shards Ht Hg. split; [by apply mem_only_shards|]. by split_and!.
Qed.

Lemma wp_on_fragments {R} (m : task (ItemShards Fragment) R) (Q : R -> _ -> Prop) s :
  wp (shards_ok good_f) shards_grow m Q (mem_fragments s) ->
  wp mem_only mem_grows (Memory.on_fragments m) (fun r s => Q r (mem_fragments s)) s.
Proof.
  apply wp_zoom; [done|by intros ? [_ ?]%mem_only_shards|by intros ? ? (_ & _ & ?)|].
  intros t u [? ?]%mem_only_shards Ht Hg. split; [by apply mem_only_shards|]. by split_and!.
Qed.

(** Both kinds of item keep the contract for the same reason. *)
Section kind.
Context {T : Type} `{!Schema T, !EncodeFields T, !DecodeFields T, !Item T}.
Context (good : SedimentreeId -> VerifiedMeta T -> Prop).
Context (get : MemoryStorage -> ItemShards T).
Context (lift : forall R, task (ItemShards T) R -> task MemoryStorage R).
Context (wp_lift : forall R (m : task (ItemShards T) R) (Q : R -> ItemShards T -> Prop) s,
  wp (shards_ok good) shards_grow m Q (get s) ->
  wp mem_only mem_grows (lift R m) (fun r s => Q r (get s)) s).

Definition ops_of : item_ops MemoryStorage DecodeError T := {|
  save_item id v :=
    await _ := Memory.on_ids (fun ids => ({[id]} ∪ ids, tt)) in
    await _ := lift _ (shard_save id [v]) in Ret (Ok tt);
  list_item_ids id := await ids := lift _ (shard_list_ids id) in Ret (Ok ids);
  load_items id := lift _ (shard_load id);
  load_item_metas id := lift _ (shard_load_metas id);
  load_item id h := lift _ (shard_load_one id h);
  delete_item id h := Memory.unit_ok (lift _ (shard_delete_one id h));
  delete_items id := Memory.unit_ok (lift _ (shard_delete id))
|}.

Lemma ops_of_laws :
  item_laws mem_only mem_grows (fun _ _ _ => False) mem_ids (fun s => stored_in (get s)) good ops_of.
Proof.
  split.
  - intros id v s Hs Hv Hgv. cbn [save_item ops_of]. apply wp_bind; [apply _|].
    apply wp_on_ids. intros t Ht _. cbn [fst snd]. split; [set_solver|]. intros u Hu Hid.
    assert (Hin : id ∈ mem_ids u) by set_solver. clear Hid.
    assert (Hvs : forall w, w ∈ [v] -> meta_ok w /\ good id w)
      by (by intros w ->%list_elem_of_singleton).
    eapply wp_map; [apply _|apply (wp_lift _ _ _ u (wp_shard_save good id [v] (get u) Hvs))|].
    intros [] w Hw (Hi & _) Hall _. split; [by apply Hi|]. apply Hall. by left.
  - intros id s Hs. cbn [list_item_ids ops_of].
    eapply wp_map; [apply _|apply (wp_lift _ _ _ s (wp_shard_list_ids good id (get s)))|].
    intros heads u Hu _ Hh. exact Hh.
  - intros id s Hs. cbn [load_items ops_of].
    eapply wp_mono; [apply _|apply (wp_lift _ _ _ s (wp_shard_load good id (get s)))|].
    intros r u Hu _ (vs & -> & Hin & Hall). split; [done|].
    intros v Hv. apply list_elem_of_fmap. exists v. by split; [|apply Hall].
  - intros id s Hs. cbn [load_item_metas ops_of].
    eapply wp_mono; [apply _|apply (wp_lift _ _ _ s (wp_shard_load_metas good id (get s)))|].
    intros r u Hu _ (xs & -> & Hin & Hall). split; [done|].
    intros v Hv. by apply list_elem_of_fmap_2, Hall.
  - intros id h s Hs. cbn [load_item ops_of].
    eapply wp_mono; [apply _|apply (wp_lift _ _ _ s (wp_shard_load_one good id h (get s)))|].
    by intros [[v|]|e] u Hu _ Hr.
Qed.
End kind.

Lemma Memory_commit_laws :
  item_laws mem_only mem_grows (fun _ _ _ => False) mem_ids (fun s => stored_in (mem_commits s)) good_c
    Memory.loose_commits.
Proof. exact (ops_of_laws good_c mem_commits (@Memory.on_commits) (@wp_on_commits)). Qed.

Lemma Memory_fragment_laws :
  item_laws mem_only mem_grows (fun _ _ _ => False) mem_ids (fun s => stored_in (mem_fragments s)) good_f
    Memory.fragments.
Proof. exact (ops_of_laws good_f mem_fragments (@Memory.on_fragments) (@wp_on_fragments)). Qed.

Lemma Memory_save_id id s :
  wp mem_only mem_grows (Memory.save_sedimentree_id id) (fun r s' => r = Ok tt -> id ∈ mem_ids s') s.
Proof.
  apply wp_bind; [apply _|]. apply wp_on_ids. intros t Ht _. cbn [fst snd].
  split; [set_solver|]. intros u Hu Hid. apply wp_ret. intros w Hw (Hi & _) _. set_solver.
Qed.

Lemma Memory_load_ids s :
  wp mem_only mem_grows Memory.load_all_sedimentree_ids
    (fun r s' => match r with Ok l => mem_ids s ⊆ l /\ l ⊆ mem_ids s' | Err _ => False end) s.
Proof.
  apply wp_bind; [apply _|]. apply wp_on_ids. intros t Ht (Hst & _). cbn [fst snd].
  split; [done|]. intros u Hu Hid. apply wp_ret. intros w Hw (Hi & _). set_solver.
Qed.

Lemma Memory_contains id s :
  wp mem_only mem_grows (Memory.contains_sedimentree_id id)
    (fun r s' => match r with
       | Ok b => (b = true -> id ∈ mem_ids s') /\ (b = false -> id ∉ mem_ids s)
       | Err _ => False
       end) s.
Proof.
  apply wp_bind; [apply _|]. apply wp_on_ids. intros t Ht (Hst & _). cbn [fst snd].
  split; [done|]. intros u Hu Hid. apply wp_ret. intros w Hw (Hi & _).
  rewrite bool_decide_eq_true, bool_decide_eq_false. set_solver.
Qed.

Lemma Memory_save_batch id cs fs s :
  (forall v, v ∈ cs -> meta_ok v /\ good_c id v) ->
  (forall v, v ∈ fs -> meta_ok v /\ good_f id v) ->
  wp mem_only mem_grows (Memory.save_batch id cs fs)
    (fun r s' => forall k, r = Ok k ->
       k = len cs + len fs /\ id ∈ mem_ids s' /\
       (forall v, v ∈ cs -> saved (fun s => stored_in (mem_commits s)) s' id (vm_payload v)) /\
       (forall v, v ∈ fs -> saved (fun s => stored_in (mem_fragments s)) s' id (vm_payload v))) s.
Proof.
  intros Hcs Hfs. apply wp_bind; [apply _|]. apply wp_on_ids. intros t Ht _. cbn [fst snd].
  split; [set_solver|]. intros u Hu Hid.
  assert (Hin : id ∈ mem_ids u) by set_solver. clear Hid. apply wp_bind; [apply _|].
  eapply wp_mono; [apply _|apply wp_on_commits, (wp_shard_save good_c id cs _ Hcs)|].
  intros [] w Hw (Hi & _) Hc.
  eapply wp_map; [apply _|apply wp_on_fragments, (wp_shard_save good_f id fs _ Hfs)|].
  intros [] x Hx (Hi' & Hc' & _) Hf k [= <-]. split_and!; [done|set_solver| |done].
  intros v Hv. destruct (Hc v Hv) as (y & Hy & ?). exists y. by split; [apply Hc'|].
Qed.
End laws.

(** The backend keeps the contract, under any schedule of its users. *)
#[export] Instance MemoryStorage_laws `{HashIter, SipHash24Range, Blake3, Bijou64} :
  StorageLaws MemoryStorage DecodeError := {|
  st_inv := mem_inv;
  st_ids := mem_ids;
  st_commit s := stored_in (mem_commits s);
  st_fragment s := stored_in (mem_fragments s);
  st_fails _ _ _ := False;
  st_commit_laws := Memory_commit_laws;
  st_fragment_laws := Memory_fragment_laws;
  st_save_id good_c good_f id s _ := Memory_save_id good_c good_f id s;
  st_load_ids good_c good_f s _ := Memory_load_ids good_c good_f s;
  st_contains good_c good_f id s _ := Memory_contains good_c good_f id s;
  st_save_batch good_c good_f id cs fs s _ := Memory_save_batch good_c good_f id cs fs s
|}.

Lemma Memory_new_only `{HashIter, SipHash24Range, Blake3, Bijou64} good_c good_f :
  st_only good_c good_f Memory.new.
Proof.
  assert (Hnew : forall T `{!Schema T, !EncodeFields T, !DecodeFields T, !Item T}
    (good : SedimentreeId -> VerifiedMeta T -> Prop), shards_ok good Sharded_new).
  { intros T ? ? ? ? good.
    assert (Hc : content (Sharded_new (T:=T)) = ∅)
      by (unfold content, Sharded_new; by rewrite Sharded.flat_with_key).
    split; [apply Sharded.with_key_wf|intros id m d e|intros id v (_ & m & d & Hid & _)].
    - by rewrite Hc, lookup_empty.
    - by rewrite Hc, lookup_empty in Hid. }
  change (mem_only good_c good_f Memory.new). apply mem_only_shards. split; apply Hnew.
Qed.

(** ** The backend as an abstract store *)

(** What is stored: for each tree and digest, the item that was saved first. *)
Notation Store T := (gmap SedimentreeId (gmap (Digest T) (VerifiedMeta T))) (only parsing).

Section store.
Context `{HashIter, SipHash24Range, Blake3, Bijou64} {T : Type}.
Context `{!Schema T, !EncodeFields T, !DecodeFields T, !Item T}.
Implicit Types (sh : ItemShards T) (m : Store T) (id : SedimentreeId) (v : VerifiedMeta T).

(** Saving keeps what is there under the same digest. *)
Definition store_save id (items : list (VerifiedMeta T)) m : Store T :=
  <[id := foldl (fun es v => or_insert (Digest_hash (vm_payload v)) v es)
            (default ∅ (m !! id)) items]> m.

Definition store_items id m : list (VerifiedMeta T) :=
  (map_to_list (default ∅ (m !! id))).*2.

Definition store_delete_one id (h : CommitId) m : Store T :=
  alter (filter (fun '(_, v) => item_head (vm_payload v) <> h)) id m.

Record shows sh m : Prop := {
  sh_wf : Sharded.wf STORAGE_SHARDS sh;
  sh_content : content sh = fmap (M:=gmap _) entry_of <$> m;
  sh_ok id es d v : m !! id = Some es -> es !! d = Some v ->
    meta_ok v /\ d = Digest_hash (vm_payload v)
}.

(** [op] answers [Q] and turns the store into [m']. *)
Definition does {R} (op : task (ItemShards T) R) m (m' : Store T) (Q : R -> Prop) : Prop :=
  forall sh, shows sh m -> exists sh' r, run op sh = Some (sh', r) /\ shows sh' m' /\ Q r.

Lemma fmap_put_entries (es : gmap (Digest T) (VerifiedMeta T)) items :
  foldl put_entry (entry_of <$> es) items =
  entry_of <$> foldl (fun es v => or_insert (Digest_hash (vm_payload v)) v es) es items.
Proof.
  revert es. induction items as [|v items IH]; intros es; [done|]. simpl. rewrite <- IH.
  f_equal. unfold put_entry, or_insert. simpl. rewrite lookup_fmap.
  destruct (es !! _); simpl; [done|]. by rewrite fmap_insert.
Qed.

Lemma foldl_or_insert_ok (es : gmap (Digest T) (VerifiedMeta T)) items d v :
  foldl (fun es v => or_insert (Digest_hash (vm_payload v)) v es) es items !! d = Some v ->
  es !! d = Some v \/ (v ∈ items /\ d = Digest_hash (vm_payload v)).
Proof.
  revert es. induction items as [|w items IH]; intros es; simpl; [by left|].
  intros [Hd|[Hv Hd]]%IH; [|right; split; [by right|done]].
  unfold or_insert in Hd. destruct (es !! Digest_hash _) eqn:He; [by left|].
  destruct (decide (d = Digest_hash (vm_payload w))) as [-> |Hne].
  - rewrite lookup_insert_eq in Hd. simplify_eq. right. by split; [left|].
  - rewrite lookup_insert_ne in Hd by done. by left.
Qed.

Lemma save_does id items m :
  Forall meta_ok items -> does (shard_save id items) m (store_save id items m) (fun _ => True).
Proof.
  intros Hall sh [Hwf Hc Hok].
  destruct (shard_run id (fun o => (Some (foldl put_entry (default ∅ o) items), tt))
    (fun c => (<[id := foldl put_entry (default ∅ (c !! id)) items]> c, tt)) sh)
    as (sh' & Hrun & Hwf' & Hc'); [done|done|].
  exists sh', tt. split_and!; [exact Hrun| |done]. split; [done| |].
  - rewrite Hc', Hc, lookup_fmap. unfold store_save. rewrite fmap_insert. cbn [fst].
    change (partial_alter (fun _ => Some ?x) id ?y) with (<[id := x]> y). f_equal.
    rewrite <- fmap_put_entries. by destruct (m !! id); simpl; rewrite ?fmap_empty.
  - intros j es d v Hj Hd. unfold store_save in Hj.
    destruct (decide (j = id)) as [-> |Hne].
    + rewrite lookup_insert_eq in Hj. simplify_eq.
      apply foldl_or_insert_ok in Hd as [Hd|[Hv ->]].
      * destruct (m !! id) eqn:Hm; [by eapply Hok|].
        cbn [default from_option] in Hd. by rewrite lookup_empty in Hd.
      * split; [|done]. by eapply Forall_forall in Hall.
    + rewrite lookup_insert_ne in Hj by done. by eapply Hok.
Qed.

(** A copy of the entries leaves the store as it is. *)
Lemma entries_do {R} id m (k : list (Entry T) -> R) (Q : R -> Prop) :
  (forall vs, vs ≡ₚ store_items id m -> Forall meta_ok vs -> Q (k (entry_of <$> vs))) ->
  does (await es := shard_entries id in Ret (k es)) m m Q.
Proof.
  intros HQ sh [Hwf Hc Hok].
  destruct (shard_run id (fun o => (o, match o with Some e => hash_values e | None => [] end))
    (fun c => (c, match c !! id with Some e => hash_values e | None => [] end)) sh)
    as (sh' & Hrun & Hwf' & Hc').
  { intros es. simpl. by rewrite partial_alter_self. }
  { done. }
  cbn [fst snd] in Hc', Hrun. rewrite partial_alter_self in Hc'.
  exists sh', (k match content sh !! id with Some e => hash_values e | None => [] end).
  rewrite run_bind. unfold shard_entries. rewrite Hrun. cbn [run snd].
  split_and!; [done|by split; [|rewrite Hc'|]|].
  rewrite Hc, lookup_fmap. unfold store_items in HQ.
  destruct (m !! id) as [es|] eqn:Hm; cbn [fmap option_fmap option_map].
  - assert (Hp : hash_values (entry_of <$> es) ≡ₚ entry_of <$> (map_to_list es).*2).
    { unfold hash_values. rewrite hash_iter_perm, map_to_list_fmap, <- !list_fmap_compose. done. }
    apply Permutation_map_inv in Hp as (vs & Hvs & Hp). rewrite Hvs.
    change (Q (k (entry_of <$> vs))). apply HQ; [by rewrite <- Hp|].
    apply Forall_forall. intros v Hv. rewrite <- Hp in Hv.
    apply list_elem_of_fmap in Hv as ([d w] & -> & Hd%elem_of_map_to_list). by eapply Hok.
  - apply (HQ []); [|constructor]. cbn [default from_option]. by rewrite map_to_list_empty.
Qed.

Lemma load_does id m :
  does (shard_load id) m m (fun r => exists vs, r = Ok vs /\ vs ≡ₚ store_items id m).
Proof.
  apply (entries_do id m (fun es => collect_results
    ((fun '(signed, blob) => VerifiedMeta_try_from_trusted signed blob) <$>
     ((fun '(_, signed, blob) => (signed, blob)) <$> es)))).
  intros vs Hp Hall. exists vs. split; [|done]. rewrite <- !list_fmap_compose.
  apply collect_results_ok, Forall2_same_length_lookup_2; [done|].
  intros i v w Hv Hw. simplify_eq. apply trusted_entry. by eapply Forall_lookup in Hall.
Qed.

Lemma load_metas_does id m :
  does (shard_load_metas id) m m
    (fun r => exists xs, r = Ok xs /\ xs ≡ₚ vm_payload <$> store_items id m).
Proof.
  apply (entries_do id m (fun es => collect_results
    (try_decode_trusted_payload <$> ((fun '(_, signed, _) => signed) <$> es)))).
  intros vs Hp Hall. exists (vm_payload <$> vs). split; [|by rewrite Hp].
  rewrite <- !list_fmap_compose. apply collect_results_ok, Forall2_fmap_r.
  apply Forall2_same_length_lookup_2; [done|]. intros i v w Hv Hw. simplify_eq.
  exact (proj1 (Forall_lookup _ _) Hall _ _ Hv).
Qed.

Lemma list_ids_does id m :
  does (shard_list_ids id) m m
    (fun r => r = list_to_set ((fun v => item_head (vm_payload v)) <$> store_items id m)).
Proof.
  apply (entries_do id m (fun es => list_to_set ((fun '(h, _, _) => h) <$> es))).
  intros vs Hp _. rewrite <- list_fmap_compose. apply list_to_set_perm_L. by rewrite Hp.
Qed.

(** One of the items with that identity, if there is one. *)
Lemma load_one_does id h m :
  does (shard_load_one id h) m m
    (fun r => match r with
       | Ok (Some v) => v ∈ store_items id m /\ item_head (vm_payload v) = h
       | Ok None => forall v, v ∈ store_items id m -> item_head (vm_payload v) <> h
       | Err _ => False
       end).
Proof.
  apply (entries_do id m (fun es =>
    match head (filter (fun e => e.1.1 = h) es) with
    | Some (_, signed, blob) =>
        let? v := VerifiedMeta_try_from_trusted signed blob in Ok (Some v)
    | None => Ok None
    end)).
  intros vs Hp Hall.
  destruct (head (filter (fun e => e.1.1 = h) (entry_of <$> vs))) as [e|] eqn:Hh.
  - apply head_Some_elem_of, list_elem_of_filter in Hh as [Heh He].
    apply list_elem_of_fmap in He as (v & -> & Hv). simpl in *.
    rewrite trusted_entry by (by eapply Forall_forall in Hall). simpl. by rewrite <- Hp.
  - apply head_None in Hh. intros v Hv Hvh. apply (not_elem_of_nil (entry_of v)).
    rewrite <- Hh. apply list_elem_of_filter. split; [done|]. apply list_elem_of_fmap_2.
    by rewrite Hp.
Qed.

Lemma delete_one_does id h m :
  does (shard_delete_one id h) m (store_delete_one id h m) (fun _ => True).
Proof.
  intros sh [Hwf Hc Hok].
  destruct (shard_run id
    (fun o => (filter (fun '(_, e) => e.1.1 <> h) <$> o, tt))
    (fun c => (match c !! id with
               | Some es => <[id := filter (fun '(_, e) => e.1.1 <> h) es]> c
               | None => c
               end, tt)) sh) as (sh' & Hrun & Hwf' & Hc').
  { intros es. cbn [fst snd]. destruct (es !! id) as [x|] eqn:Hx; [done|].
    cbn [fmap option_fmap option_map]. rewrite <- Hx. by rewrite partial_alter_self. }
  { done. }
  exists sh', tt. split_and!; [exact Hrun| |done]. unfold store_delete_one. split; [done| |].
  - rewrite Hc', Hc. apply map_eq. intros j. cbn [fst]. destruct (decide (j = id)) as [-> |Hne].
    + rewrite lookup_partial_alter_eq, !lookup_fmap, lookup_alter_eq.
      destruct (m !! id) as [es|]; [|done]. cbn [fmap option_fmap option_map]. f_equal.
      apply map_eq. intros d. apply option_eq. intros e.
      rewrite map_lookup_filter_Some, !lookup_fmap, !fmap_Some.
      setoid_rewrite map_lookup_filter_Some. split.
      * intros [(v & Hv & ->) Hne]. by exists v.
      * intros (v & [Hv Hne] & ->). split; [by exists v|done].
    + rewrite lookup_partial_alter_ne, !lookup_fmap, lookup_alter_ne by done. done.
  - intros j es d v Hj Hd. destruct (decide (j = id)) as [-> |Hne].
    + rewrite lookup_alter_eq in Hj. destruct (m !! id) as [x|] eqn:Hx; [|done].
      simpl in Hj. simplify_eq. apply map_lookup_filter_Some in Hd as [Hd _]. by eapply Hok.
    + rewrite lookup_alter_ne in Hj by done. by eapply Hok.
Qed.

Lemma delete_does id m : does (shard_delete id) m (delete id m) (fun _ => True).
Proof.
  intros sh [Hwf Hc Hok].
  destruct (shard_run id (fun o => (None, tt)) (fun c => (delete id c, tt)) sh)
    as (sh' & Hrun & Hwf' & Hc'); [done|done|].
  exists sh', tt. split_and!; [exact Hrun| |done]. split; [done| |].
  - rewrite Hc', Hc. cbn [fst]. by rewrite fmap_delete.
  - intros j es d v Hj Hd. apply lookup_delete_Some in Hj as [_ Hj]. by eapply Hok.
Qed.

Lemma new_shows : shows Sharded_new ∅.
Proof.
  split; [apply Sharded.with_key_wf| |].
  - unfold content, Sharded_new. by rewrite Sharded.flat_with_key, fmap_empty.
  - intros id es d v Hid. by rewrite lookup_empty in Hid.
Qed.
End store.

Section refinement.
Context `{HashIter, SipHash24Range, Blake3, Bijou64}.

(** The registered trees and the two stores. *)
Notation View := (gset SedimentreeId * Store LooseCommit * Store Fragment)%type (only parsing).

Record mem_shows (s : MemoryStorage) (w : View) : Prop := {
  ms_ids : mem_ids s = w.1.1;
  ms_commits : shows (mem_commits s) w.1.2;
  ms_fragments : shows (mem_fragments s) w.2
}.

(** Run alone, [op] turns the view [w] into [w'] and answers with [Q]. *)
Definition mem_does {R} (op : task MemoryStorage R) (w w' : View) (Q : R -> Prop) : Prop :=
  forall s, mem_shows s w -> exists s' r, run op s = Some (s', r) /\ mem_shows s' w' /\ Q r.

Lemma mem_does_bind {R R'} (op : task MemoryStorage R) (k : R -> task MemoryStorage R')
    w w1 w2 Q Q' :
  mem_does op w w1 Q -> (forall r, Q r -> mem_does (k r) w1 w2 Q') ->
  mem_does (tbind op k) w w2 Q'.
Proof.
  intros Hop Hk s Hs. destruct (Hop s Hs) as (s1 & r & Hrun & Hs1 & Hr).
  destruct (Hk r Hr s1 Hs1) as (s2 & r' & Hrun' & Hs2 & Hr').
  exists s2, r'. by rewrite run_bind, Hrun.
Qed.

Lemma mem_does_ret {R} (r : R) (w : View) (Q : R -> Prop) : Q r -> mem_does (Ret r) w w Q.
Proof. intros Hr s Hs. by exists s, r. Qed.

Lemma on_ids_does {R} (f : gset SedimentreeId -> gset SedimentreeId * R) (w : View) :
  mem_does (Memory.on_ids f) w ((f w.1.1).1, w.1.2, w.2) (fun r => r = (f w.1.1).2).
Proof.
  intros s [Hi Hc Hf]. cbn [run Memory.on_ids act]. rewrite Hi.
  destruct (f w.1.1) as [ids r] eqn:Hw. by eexists _, r.
Qed.

Lemma on_commits_does {R} (op : task (ItemShards LooseCommit) R) (w : View) cm Q :
  does op w.1.2 cm Q -> mem_does (Memory.on_commits op) w (w.1.1, cm, w.2) Q.
Proof.
  intros Hop s [Hi Hc Hf]. destruct (Hop _ Hc) as (sh & r & Hrun & Hsh & Hr).
  unfold Memory.on_commits. rewrite run_zoom by (done || by intros []).
  rewrite Hrun. by eexists _, r.
Qed.

Lemma on_fragments_does {R} (op : task (ItemShards Fragment) R) (w : View) fm Q :
  does op w.2 fm Q -> mem_does (Memory.on_fragments op) w (w.1, fm) Q.
Proof.
  intros Hop s [Hi Hc Hf]. destruct (Hop _ Hf) as (sh & r & Hrun & Hsh & Hr).
  unfold Memory.on_fragments. rewrite run_zoom by (done || by intros []).
  rewrite Hrun. by eexists _, r.
Qed.

(** The operations on one kind of item, through [part] and [put] of the view. *)
Record items_refine {T} `{!Schema T, !EncodeFields T, !DecodeFields T, !Item T}
    (ops : item_ops MemoryStorage DecodeError T)
    (part : View -> Store T) (put : View -> Store T -> View) : Prop := {
  ir_save id v w : meta_ok v ->
    mem_does (save_item ops id v) w
      (put ({[id]} ∪ w.1.1, w.1.2, w.2) (store_save id [v] (part w))) (fun r => r = Ok tt);
  ir_list id w :
    mem_does (list_item_ids ops id) w w
      (fun r => r = Ok (list_to_set
         ((fun v => item_head (vm_payload v)) <$> store_items id (part w))));
  ir_load id w :
    mem_does (load_items ops id) w w
      (fun r => exists vs, r = Ok vs /\ vs ≡ₚ store_items id (part w));
  ir_metas id w :
    mem_does (load_item_metas ops id) w w
      (fun r => exists xs, r = Ok xs /\ xs ≡ₚ vm_payload <$> store_items id (part w));
  ir_load_one id h w :
    mem_does (load_item ops id h) w w
      (fun r => match r with
         | Ok (Some v) => v ∈ store_items id (part w) /\ item_head (vm_payload v) = h
         | Ok None => forall v, v ∈ store_items id (part w) -> item_head (vm_payload v) <> h
         | Err _ => False
         end);
  ir_delete_one id h w :
    mem_does (delete_item ops id h) w (put w (store_delete_one id h (part w)))
      (fun r => r = Ok tt);
  ir_delete id w :
    mem_does (delete_items ops id) w (put w (delete id (part w))) (fun r => r = Ok tt)
}.

Lemma items_refine_of {T} `{!Schema T, !EncodeFields T, !DecodeFields T, !Item T}
    (lift : forall R, task (ItemShards T) R -> task MemoryStorage R) part put :
  (forall R (op : task (ItemShards T) R) w m Q,
     does op (part w) m Q -> mem_does (lift R op) w (put w m) Q) ->
  (forall w, put w (part w) = w) -> (forall ids w, part (ids, w.1.2, w.2) = part w) ->
  items_refine (ops_of lift) part put.
Proof.
  intros Hlift Hput Hpart.
  assert (Hread : forall R (op : task (ItemShards T) R) w Q,
    does op (part w) (part w) Q -> mem_does (lift R op) w w Q).
  { intros R op w Q Hop. pose proof (Hlift R op w (part w) Q Hop) as Hl. by rewrite Hput in Hl. }
  split; intros; cbn [save_item list_item_ids load_items load_item_metas load_item delete_item
    delete_items ops_of].
  - eapply mem_does_bind; [apply on_ids_does|]. intros [] _. cbn [fst snd].
    eapply mem_does_bind; [apply Hlift, save_does; by constructor|].
    intros [] _. rewrite Hpart. by apply mem_does_ret.
  - eapply mem_does_bind; [apply Hread, list_ids_does|]. intros r ->. by apply mem_does_ret.
  - apply Hread, load_does.
  - apply Hread, load_metas_does.
  - apply Hread, load_one_does.
  - eapply mem_does_bind; [apply Hlift, delete_one_does|]. intros [] _. by apply mem_does_ret.
  - eapply mem_does_bind; [apply Hlift, delete_does|]. intros [] _. by apply mem_does_ret.
Qed.

(** C16: The in-memory backend is a content-addressed store: saving registers the tree and
    keeps an item under its digest unless one is there; loads return exactly what was
    saved, with and without blobs; a deletion by identity removes every item of that
    identity and nothing else; no operation fails. *)
Theorem MemoryStorage_refines :
  items_refine Memory.loose_commits (fun w => w.1.2) (fun w m => (w.1.1, m, w.2)) /\
  items_refine Memory.fragments (fun w => w.2) (fun w m => (w.1, m)) /\
  (forall id cs fs w, Forall meta_ok cs -> Forall meta_ok fs ->
     mem_does (Memory.save_batch id cs fs) w
       ({[id]} ∪ w.1.1, store_save id cs w.1.2, store_save id fs w.2)
       (fun r => r = Ok (len cs + len fs))) /\
  (forall id w, mem_does (Memory.save_sedimentree_id id) w ({[id]} ∪ w.1.1, w.1.2, w.2)
                  (fun r => r = Ok tt)) /\
  (forall id w, mem_does (Memory.delete_sedimentree_id id) w (w.1.1 ∖ {[id]}, w.1.2, w.2)
                  (fun r => r = Ok tt)) /\
  (forall w, mem_does Memory.load_all_sedimentree_ids w w (fun r => r = Ok w.1.1)) /\
  (forall id w, mem_does (Memory.contains_sedimentree_id id) w w
                  (fun r => r = Ok (bool_decide (id ∈ w.1.1)))) /\
  mem_shows Memory.new (∅, ∅, ∅).
Proof.
  split_and!.
  - apply (items_refine_of (@Memory.on_commits)); [|by intros [[? ?] ?]|done].
    intros R op w m Q. apply on_commits_does.
  - apply (items_refine_of (@Memory.on_fragments)); [|by intros [[? ?] ?]|done].
    intros R op w m Q. apply on_fragments_does.
  - intros id cs fs w Hcs Hfs. eapply mem_does_bind; [apply on_ids_does|]. intros [] _.
    eapply mem_does_bind; [by apply on_commits_does, save_does|]. intros [] _.
    eapply mem_does_bind; [by apply on_fragments_does, save_does|]. intros [] _.
    by apply mem_does_ret.
  - intros id w. eapply mem_does_bind; [apply on_ids_does|]. intros [] _. by apply mem_does_ret.
  - intros id w. eapply mem_does_bind; [apply on_ids_does|]. intros [] _. by apply mem_does_ret.
  - intros [[ids cm] fm]. eapply mem_does_bind; [apply on_ids_does|]. intros r ->.
    by apply mem_does_ret.
  - intros id [[ids cm] fm]. eapply mem_does_bind; [apply on_ids_does|]. intros r ->.
    by apply mem_does_ret.
  - by split; [|apply new_shows..].
Qed.
End refinement.

(** ** Examples *)

(** A hash for the examples: of an item, whose encoding has its head at byte 36, the head; of
    shorter data, a checksum. So items with the same digest have the same head. *)
Definition blake3_head : Blake3 := fun data =>
  if (length data <? 68)%nat then Sedimentree.blake3_sum data else array_pad 32 (take 32 (drop 36 data)).

#[local] Existing Instance Sharded.siphash_sum.
#[local] Existing Instance Sharded.siphash_sum_range.
#[local] Existing Instance hash_iter_by_encoding.
#[local] Existing Instance ed25519_checksum.
#[local] Existing Instance bijou_fixed8.
#[local] Existing Instance blake3_head.

Definition sample_id : SedimentreeId := array_pad 32 [x01].

(** A signed commit with its blob. *)
Definition sample_meta (head : byte) (parents : gset CommitId) : VerifiedMeta LooseCommit :=
  VerifiedMeta_seal (T := LooseCommit) (toy_signer x01)
    ((sample_id, array_pad 32 [head], parents) : @Args LooseCommit _)
    (VerifiedBlobMeta_new [head; x05]).

Lemma sample_meta_ok : meta_ok (sample_meta x02 ∅).
Proof. vm_compute. reflexivity. Qed.

Lemma MemoryStorage_refines_witness :
  exists s, run (Memory.save_batch sample_id [sample_meta x02 ∅] []) Memory.new = Some (s, Ok 1) /\
    mem_shows s ({[sample_id]} ∪ ∅, store_save sample_id [sample_meta x02 ∅] ∅,
                 store_save sample_id [] ∅).
Proof.
  destruct MemoryStorage_refines as (_ & _ & Hbatch & _ & _ & _ & _ & Hnew).
  destruct (Hbatch sample_id [sample_meta x02 ∅] [] (∅, ∅, ∅)
    ltac:(constructor; [exact sample_meta_ok|constructor]) ltac:(constructor)
    Memory.new Hnew) as (s & r & Hrun & Hs & ->).
  exists s. split; [exact Hrun|exact Hs].
Defined.
