(* ===== verification/Multiplexer.v ===== *)
(** Requests and their responses, [subduction_core/src/multiplexer.rs].

    A multiplexer is shared between the calls that use it and the map it is filed in, and
    lives as long as one of them; so all of them are in one store, [calls], and are named by
    their index. The other half of a pending entry is the receiver of a oneshot channel,
    named by its index too. *)

From Stdlib Require Import NArith Lia.
From stdpp Require Import base gmap list relations.
From S2P Require Import Prelude.
From S2P Require Import Codec.
From S2P Require Import Types.
From S2P Require Import Message.
From S2P Require Import Tasks.

#[export] Instance RequestId_countable : Countable RequestId.
Proof.
  apply (inj_countable' (fun r => (ri_requestor r, ri_nonce r)) (fun '(a, b) => MkRequestId a b)).
  by intros [].
Defined.

(** ** The store *)

(** [oneshot::channel()], as its receiver sees it. *)
Inductive oneshot : Type :=
| Waiting
| Delivered (resp : BatchSyncResponse)
| Dropped.

Record Multiplexer : Type := MkMultiplexer {
  mx_peer_id : PeerId;
  mx_req_id_counter : N;
  mx_pending : gmap RequestId nat
}.

Record calls : Type := MkCalls {
  ca_muxes : list Multiplexer;
  (** with the request that a channel was made for *)
  ca_channels : list (RequestId * oneshot)
}.

Definition no_calls : calls := MkCalls [] [].

(** What the receiver of a channel gets. *)
Definition set_channel (c : nat) (o : oneshot) (cs : list (RequestId * oneshot)) :
  list (RequestId * oneshot) :=
  match cs !! c with
  | Some (r, _) => <[c := (r, o)]> cs
  | None => cs
  end.

(** A sender that is dropped. *)
Definition drop_sender (c : option nat) (cs : list (RequestId * oneshot)) :
  list (RequestId * oneshot) :=
  match c with Some c => set_channel c Dropped cs | None => cs end.

(** ** Operations *)

(** [Multiplexer::new], with the random [nonce]. *)
Definition Multiplexer_new (peer_id : PeerId) (nonce : N) : Multiplexer :=
  MkMultiplexer peer_id nonce ∅.

(** The section of one multiplexer. *)
Definition on_mux {R} (i : nat) (f : Multiplexer -> calls -> Multiplexer * list (RequestId * oneshot) * R) :
  task calls R :=
  act (fun ca =>
    match ca_muxes ca !! i with
    | Some mux =>
        let '(mux', channels, r) := f mux ca in
        Some (MkCalls (<[i := mux']> (ca_muxes ca)) channels, r)
    | None => None
    end).

(** The counter wraps around. *)
Definition next_request_id (i : nat) : task calls RequestId :=
  on_mux i (fun mux ca =>
    (MkMultiplexer (mx_peer_id mux) (as_u64 (mx_req_id_counter mux + 1)) (mx_pending mux),
     ca_channels ca, MkRequestId (mx_peer_id mux) (mx_req_id_counter mux))).

(** The new channel; the sender of an entry that is replaced is dropped. *)
Definition register_pending (i : nat) (req_id : RequestId) : task calls nat :=
  on_mux i (fun mux ca =>
    let c := length (ca_channels ca) in
    (MkMultiplexer (mx_peer_id mux) (mx_req_id_counter mux) (<[req_id := c]> (mx_pending mux)),
     drop_sender (mx_pending mux !! req_id) (ca_channels ca) ++ [(req_id, Waiting)], c)).

Definition cancel_pending (i : nat) (req_id : RequestId) : task calls unit :=
  on_mux i (fun mux ca =>
    (MkMultiplexer (mx_peer_id mux) (mx_req_id_counter mux) (delete req_id (mx_pending mux)),
     drop_sender (mx_pending mux !! req_id) (ca_channels ca), tt)).

(** [unlocked] is whether [try_lock] gets the lock. *)
Definition try_cancel_pending (unlocked : bool) (i : nat) (req_id : RequestId) : task calls bool :=
  if unlocked then await _ := cancel_pending i req_id in Ret true else Ret false.

Definition cancel_all_pending (i : nat) : task calls unit :=
  on_mux i (fun mux ca =>
    (MkMultiplexer (mx_peer_id mux) (mx_req_id_counter mux) ∅,
     map_fold (fun _ c => set_channel c Dropped) (ca_channels ca) (mx_pending mux), tt)).

Definition resolve_pending (i : nat) (resp : BatchSyncResponse) : task calls bool :=
  on_mux i (fun mux ca =>
    match mx_pending mux !! bsr_req_id resp with
    | Some c =>
        (MkMultiplexer (mx_peer_id mux) (mx_req_id_counter mux)
           (delete (bsr_req_id resp) (mx_pending mux)),
         set_channel c (Delivered resp) (ca_channels ca), true)
    | None => (mux, ca_channels ca, false)
    end).

(** One poll of a receiver. *)
Definition poll_receiver (c : nat) : task calls oneshot :=
  act (fun ca => match ca_channels ca !! c with Some (_, o) => Some (ca, o) | None => None end).

(** [rx.await], at most [polls] times awake. *)
Fixpoint wait_response (polls c : nat) : task calls oneshot :=
  match polls with
  | O => Ret Waiting
  | S polls' =>
      await o := poll_receiver c in
      match o with Waiting => wait_response polls' c | _ => Ret o end
  end.

(** ** The invariant *)

Definition pends (ca : calls) (i : nat) (r : RequestId) (c : nat) : Prop :=
  exists mux, ca_muxes ca !! i = Some mux /\ mx_pending mux !! r = Some c.

(** A channel waits as long as one multiplexer, and no other, has its sender under its
    request; and what is delivered on it answers that request. *)
Record calls_ok (ca : calls) : Prop := {
  ok_waiting c r : ca_channels ca !! c = Some (r, Waiting) -> exists i, pends ca i r c;
  ok_pending i r c : pends ca i r c -> ca_channels ca !! c = Some (r, Waiting);
  ok_one i j r c : pends ca i r c -> pends ca j r c -> i = j;
  ok_delivered c r resp : ca_channels ca !! c = Some (r, Delivered resp) -> bsr_req_id resp = r
}.

(** Nothing is forgotten, and a channel that was settled stays so. *)
Record calls_grow (ca ca' : calls) : Prop := {
  cg_muxes i mux : ca_muxes ca !! i = Some mux ->
    exists mux', ca_muxes ca' !! i = Some mux' /\ mx_peer_id mux' = mx_peer_id mux;
  cg_channels c r o : ca_channels ca !! c = Some (r, o) ->
    exists o', ca_channels ca' !! c = Some (r, o') /\ (o <> Waiting -> o' = o)
}.

#[export] Instance calls_grow_preorder : PreOrder calls_grow.
Proof.
  split.
  - intros ca. split; [by intros i mux ?; exists mux|by intros c r o ?; exists o].
  - intros x y z [Hm Hc] [Hm' Hc']. split.
    + intros i mux (mux1 & H1 & <-)%Hm. by apply Hm'.
    + intros c r o (o1 & H1 & Ho1)%Hc. destruct (Hc' c r o1 H1) as (o2 & H2 & Ho2).
      exists o2. split; [done|]. intros Ho. rewrite Ho2; rewrite Ho1; done.
Qed.

Lemma no_calls_ok : calls_ok no_calls.
Proof.
  assert (Hno : forall i r c, ~ pends no_calls i r c).
  { intros i r c (mux & Hm & _). cbn in Hm. by rewrite lookup_nil in Hm. }
  split; [by intros c r ?|by intros i r c ?%Hno|by intros i j r c ?%Hno|by intros c r resp ?].
Qed.

Lemma set_channel_lookup c o cs d :
  set_channel c o cs !! d =
  if decide (d = c) then (fun '(r, _) => (r, o)) <$> cs !! d else cs !! d.
Proof.
  unfold set_channel. destruct (decide (d = c)) as [-> |Hne].
  - destruct (cs !! c) as [[r o']|] eqn:Hc; [|by rewrite Hc]. simpl.
    by rewrite list_lookup_insert_eq by (by eapply lookup_lt_Some).
  - destruct (cs !! c) as [[r o']|]; [|done]. by rewrite list_lookup_insert_ne.
Qed.

(** The channels of [pending] are settled, the others are not. *)
Lemma drop_all_lookup (pending : gmap RequestId nat) cs d :
  let cs' := map_fold (fun _ c => set_channel c Dropped) cs pending in
  let dropped := (fun '(r, _) => (r, Dropped)) <$> cs !! d in
  (cs' !! d = cs !! d \/ cs' !! d = dropped) /\
  ((exists r, pending !! r = Some d) -> cs' !! d = dropped) /\
  ((forall r, pending !! r <> Some d) -> cs' !! d = cs !! d).
Proof.
  cbv zeta. apply (map_fold_weak_ind (fun cs' (mp : gmap RequestId nat) =>
    (cs' !! d = cs !! d \/ cs' !! d = (fun '(r, _) => (r, Dropped)) <$> cs !! d) /\
    ((exists r, mp !! r = Some d) -> cs' !! d = (fun '(r, _) => (r, Dropped)) <$> cs !! d) /\
    ((forall r, mp !! r <> Some d) -> cs' !! d = cs !! d))).
  { split_and!; [by left| |done]. intros (r & Hr). by rewrite lookup_empty in Hr. }
  intros r c mp cs' Hr (Hor & Hin & Hout). rewrite set_channel_lookup.
  destruct (decide (d = c)) as [-> |Hne].
  - assert (Hd : (fun '(r, _) => (r, Dropped)) <$> cs' !! c = (fun '(r, _) => (r, Dropped)) <$> cs !! c).
    { destruct Hor as [-> | ->]; [done|]. by destruct (cs !! c) as [[]|]. }
    rewrite Hd. split_and!; [by right|done|]. intros Hno. destruct (Hno r). by rewrite lookup_insert_eq.
  - split_and!; [done| |].
    + intros (r' & [[_ ?]|[_ Hr']]%lookup_insert_Some); [by subst|]. apply Hin. by exists r'.
    + intros Hno. apply Hout. intros r' Hr'. destruct (decide (r' = r)) as [-> |Hr2]; [congruence|].
      apply (Hno r'). by rewrite lookup_insert_ne.
Qed.

(** One multiplexer and the channels that it settles or opens. *)
Lemma calls_update ca i mux mux' chs :
  calls_ok ca -> ca_muxes ca !! i = Some mux -> mx_peer_id mux' = mx_peer_id mux ->
  (forall r c, mx_pending mux' !! r = Some c ->
     chs !! c = Some (r, Waiting) /\
     (mx_pending mux !! r = Some c \/ c = length (ca_channels ca))) ->
  (forall c r, mx_pending mux !! r = Some c ->
     mx_pending mux' !! r = Some c \/
     exists o, chs !! c = Some (r, o) /\ o <> Waiting /\
       forall resp, o = Delivered resp -> bsr_req_id resp = r) ->
  (forall c r o, ca_channels ca !! c = Some (r, o) -> mx_pending mux !! r <> Some c ->
     chs !! c = Some (r, o)) ->
  (forall c r o, chs !! c = Some (r, o) -> (c < length (ca_channels ca))%nat \/
     o = Waiting /\ mx_pending mux' !! r = Some c) ->
  let ca' := MkCalls (<[i := mux']> (ca_muxes ca)) chs in calls_ok ca' /\ calls_grow ca ca'.
Proof.
  intros Hok Hi Hp Hnew Hold Hsame Hbound ca'.
  assert (Hmux : forall j, ca_muxes ca' !! j = if decide (j = i) then Some mux' else ca_muxes ca !! j).
  { intros j. simpl. destruct (decide (j = i)) as [-> |Hne].
    - apply list_lookup_insert_eq. by eapply lookup_lt_Some.
    - by apply list_lookup_insert_ne. }
  assert (Hpend : forall j r c, pends ca' j r c ->
    j = i /\ mx_pending mux' !! r = Some c \/ j <> i /\ pends ca j r c).
  { intros j r c (mx & Hj & Hc). rewrite Hmux in Hj. case_decide; simplify_eq; [by left|].
    right. split; [done|by exists mx]. }
  assert (Hcase : forall c r o, ca_channels ca !! c = Some (r, o) ->
    mx_pending mux !! r = Some c /\ o = Waiting \/ mx_pending mux !! r <> Some c).
  { intros c r o Hc. destruct (decide (mx_pending mux !! r = Some c)) as [Hm|]; [left|by right].
    split; [done|]. assert (Hw : pends ca i r c) by (by exists mux).
    apply (ok_pending _ Hok) in Hw. by simplify_eq. }
  assert (Hback : forall c, (c < length (ca_channels ca))%nat -> exists r o, ca_channels ca !! c = Some (r, o)).
  { intros c Hc. apply lookup_lt_is_Some in Hc as [[r o] Hc]. by exists r, o. }
  split; split.
  - intros c r Hc. destruct (Hbound c r Waiting Hc) as [Hlt|[_ Hm]].
    2:{ exists i, mux'. by rewrite Hmux, decide_True. }
    destruct (Hback c Hlt) as (r0 & o0 & H0). destruct (Hcase c r0 o0 H0) as [[Hm ->]|Hm].
    + destruct (Hold c r0 Hm) as [Hm'|(o & Ho & Hw & _)]; [|simpl in Hc; congruence].
      destruct (Hnew _ _ Hm') as [Hw _]. simpl in Hc. exists i, mux'. rewrite Hmux, decide_True by done.
      split; [done|congruence].
    + pose proof (Hsame _ _ _ H0 Hm) as Hw. simpl in Hc. simplify_eq.
      destruct (ok_waiting _ Hok _ _ H0) as (j & mx & Hj & Hjm). exists j, mx. split; [|done].
      rewrite Hmux, decide_False; [done|]. intros ->. congruence.
  - intros j r c [[-> Hm]|[Hne Hj]]%Hpend; [by apply Hnew|]. pose proof (ok_pending _ Hok _ _ _ Hj) as Hc.
    destruct (Hcase _ _ _ Hc) as [[Hm _]|Hm]; [|by apply Hsame].
    destruct Hne. apply (ok_one _ Hok j i r c); [done|by exists mux].
  - assert (Hi2 : forall j r c, j <> i -> mx_pending mux' !! r = Some c -> ~ pends ca j r c).
    { intros j r c Hne Hm Hj. destruct (Hnew _ _ Hm) as [_ [Hm'| ->]].
      - destruct Hne. apply (ok_one _ Hok j i r c); [done|by exists mux].
      - apply (ok_pending _ Hok), lookup_lt_Some in Hj. lia. }
    intros j k r c [[-> Hm]|[Hne Hj]]%Hpend [[-> Hm']|[Hne' Hk]]%Hpend;
      [done|by destruct (Hi2 k r c)|by destruct (Hi2 j r c)|by apply (ok_one _ Hok j k r c)].
  - intros c r resp Hc. destruct (Hbound _ _ _ Hc) as [Hlt|[[=] _]].
    destruct (Hback c Hlt) as (r0 & o0 & H0). simpl in Hc. destruct (Hcase c r0 o0 H0) as [[Hm ->]|Hm].
    + destruct (Hold c r0 Hm) as [Hm'|(o & Ho & _ & Hd)]; [destruct (Hnew _ _ Hm') as [Hw _]; congruence|].
      rewrite Ho in Hc. injection Hc as -> ->. by apply Hd.
    + pose proof (Hsame _ _ _ H0 Hm) as Hw. simplify_eq. by apply (ok_delivered _ Hok c).
  - intros j mx Hj. rewrite Hmux. case_decide as Heq; [|by exists mx]. subst j. simplify_eq. by exists mux'.
  - intros c r o Hc. destruct (Hcase _ _ _ Hc) as [[Hm ->]|Hm]; [|exists o; by split; [apply Hsame|]].
    destruct (Hold c r Hm) as [Hm'|(o & Ho & _ & _)]; [exists Waiting|by exists o].
    by destruct (Hnew _ _ Hm').
Qed.

Notation wpc := (wp calls_ok calls_grow).

Lemma wp_on_mux {R} i (f : Multiplexer -> calls -> Multiplexer * list (RequestId * oneshot) * R) Q ca :
  is_Some (ca_muxes ca !! i) ->
  (forall mux ca', calls_ok ca' -> calls_grow ca ca' -> ca_muxes ca' !! i = Some mux ->
     let '(mux', chs, r) := f mux ca' in
     let ca'' := MkCalls (<[i := mux']> (ca_muxes ca')) chs in
     (calls_ok ca'' /\ calls_grow ca' ca'') /\
     forall t, calls_ok t -> calls_grow ca'' t -> Q r t) ->
  wpc (on_mux i f) Q ca.
Proof.
  intros [mux Hi] Hf ca' Hok Hg. destruct (cg_muxes _ _ Hg _ _ Hi) as (mux1 & Hi1 & _). rewrite Hi1.
  specialize (Hf mux1 ca' Hok Hg Hi1). destruct (f mux1 ca') as [[mux' chs] r].
  destruct Hf as [[Hok' Hg'] HQ]. eexists _, r. split_and!; [done..|]. by apply wp_ret.
Qed.

Lemma calls_untouched ca i mux mux' :
  calls_ok ca -> ca_muxes ca !! i = Some mux -> mx_peer_id mux' = mx_peer_id mux ->
  mx_pending mux' = mx_pending mux ->
  let ca' := MkCalls (<[i := mux']> (ca_muxes ca)) (ca_channels ca) in
  calls_ok ca' /\ calls_grow ca ca'.
Proof.
  intros Hok Hi Hp Hpend. apply (calls_update ca i mux); [done..| | | |]; rewrite ?Hpend.
  - intros r c Hc. split; [|by left]. apply (ok_pending _ Hok i). by exists mux.
  - intros c r Hc. by left.
  - done.
  - intros c r o Hc. left. by eapply lookup_lt_Some.
Qed.

Lemma next_request_id_spec i ca :
  is_Some (ca_muxes ca !! i) -> wpc (next_request_id i) (fun _ _ => True) ca.
Proof.
  intros Hi. apply wp_on_mux; [done|]. intros mux ca' Hok Hg Hmux. split; [|done].
  by apply (calls_untouched ca' i mux).
Qed.

(** The sender of one request is used or dropped. *)
Lemma settle_one ca i mux r c o :
  calls_ok ca -> ca_muxes ca !! i = Some mux -> mx_pending mux !! r = Some c -> o <> Waiting ->
  (forall resp, o = Delivered resp -> bsr_req_id resp = r) ->
  let ca' := MkCalls (<[i := MkMultiplexer (mx_peer_id mux) (mx_req_id_counter mux)
    (delete r (mx_pending mux))]> (ca_muxes ca)) (set_channel c o (ca_channels ca)) in
  calls_ok ca' /\ calls_grow ca ca'.
Proof.
  intros Hok Hi Hr Ho Hd. assert (Hc : ca_channels ca !! c = Some (r, Waiting)).
  { apply (ok_pending _ Hok i). by exists mux. }
  apply (calls_update ca i mux); [done..| | | |]; cbn [mx_pending].
  - intros r' c' [Hne Hr']%lookup_delete_Some. split; [|by left]. rewrite set_channel_lookup.
    assert (Hc' : ca_channels ca !! c' = Some (r', Waiting)).
    { apply (ok_pending _ Hok i). by exists mux. }
    rewrite decide_False; [done|]. intros ->. congruence.
  - intros c' r' Hr'. destruct (decide (r' = r)) as [-> |Hne]; [right|left; by rewrite lookup_delete_ne].
    simplify_eq. exists o. split_and!; [|done..]. by rewrite set_channel_lookup, decide_True, Hc.
  - intros c' r' o' Hc' Hno. rewrite set_channel_lookup. destruct (decide (c' = c)) as [-> |]; [|done].
    congruence.
  - intros c' r' o' Hc'. left. rewrite set_channel_lookup in Hc'. case_decide.
    + destruct (ca_channels ca !! c') eqn:He; [|done]. by eapply lookup_lt_Some.
    + by eapply lookup_lt_Some.
Qed.

Lemma cancel_pending_spec i r ca :
  is_Some (ca_muxes ca !! i) -> wpc (cancel_pending i r) (fun _ _ => True) ca.
Proof.
  intros Hi. apply wp_on_mux; [done|]. intros mux ca' Hok Hg Hmux. split; [|done].
  destruct (mx_pending mux !! r) as [c|] eqn:Hr; cbn [drop_sender]; [by apply settle_one|].
  rewrite delete_id by done. by apply (calls_untouched ca' i mux).
Qed.

Lemma try_cancel_pending_spec unlocked i r ca :
  is_Some (ca_muxes ca !! i) -> wpc (try_cancel_pending unlocked i r) (fun _ _ => True) ca.
Proof.
  intros Hi. destruct unlocked; [|by apply wp_ret].
  by eapply wp_map; [apply _|apply cancel_pending_spec|].
Qed.

Lemma resolve_pending_spec i resp ca :
  is_Some (ca_muxes ca !! i) -> wpc (resolve_pending i resp) (fun _ _ => True) ca.
Proof.
  intros Hi. apply wp_on_mux; [done|]. intros mux ca' Hok Hg Hmux.
  destruct (mx_pending mux !! bsr_req_id resp) as [c|] eqn:Hr; (split; [|done]).
  - apply settle_one; [done..|]. by intros ? [= <-].
  - by apply (calls_untouched ca' i mux).
Qed.

(** When all the senders are dropped, nobody waits on this multiplexer. *)
Lemma cancel_all_spec i ca :
  is_Some (ca_muxes ca !! i) -> wpc (cancel_all_pending i) (fun _ _ => True) ca.
Proof.
  intros Hi. apply wp_on_mux; [done|]. intros mux ca' Hok Hg Hmux. split; [|done].
  apply (calls_update ca' i mux); [done..| | | |]; cbn [mx_pending].
  - intros r c. by rewrite lookup_empty.
  - intros c r Hr. right. exists Dropped. split_and!; [|done|done].
    destruct (drop_all_lookup (mx_pending mux) (ca_channels ca') c) as (_ & -> & _); [|by eexists].
    rewrite (ok_pending _ Hok i r c); [done|by exists mux].
  - intros c r o Hc Hno. destruct (drop_all_lookup (mx_pending mux) (ca_channels ca') c) as (_ & _ & ->);
      [done|]. intros r' Hr'. assert (Hw : ca_channels ca' !! c = Some (r', Waiting)).
    { apply (ok_pending _ Hok i). by exists mux. }
    congruence.
  - intros c r o Hc. left.
    destruct (drop_all_lookup (mx_pending mux) (ca_channels ca') c) as ([Hs|Hs] & _); rewrite Hs in Hc.
    + by eapply lookup_lt_Some.
    + destruct (ca_channels ca' !! c) eqn:He; [|done]. by eapply lookup_lt_Some.
Qed.

Lemma register_pending_spec i r ca :
  is_Some (ca_muxes ca !! i) ->
  wpc (register_pending i r) (fun c t => exists o, ca_channels t !! c = Some (r, o)) ca.
Proof.
  intros Hi. apply wp_on_mux; [done|]. intros mux ca' Hok Hg Hmux. cbv zeta.
  set (chs := drop_sender (mx_pending mux !! r) (ca_channels ca')).
  assert (Hlen : length chs = length (ca_channels ca')).
  { unfold chs, drop_sender, set_channel. repeat (case_match; try done). by rewrite length_insert. }
  assert (Hchs : forall d, (d < length (ca_channels ca'))%nat -> mx_pending mux !! r <> Some d ->
    chs !! d = ca_channels ca' !! d).
  { intros d _ Hno. unfold chs, drop_sender. destruct (mx_pending mux !! r) as [c|]; [|done].
    rewrite set_channel_lookup. case_decide; congruence. }
  split; [apply (calls_update ca' i mux); [done..| | | |]; cbn [mx_pending]|].
  - intros r' c' [[<- <-]|[Hne Hr']]%lookup_insert_Some.
    + split; [|by right]. rewrite <- Hlen. by apply list_lookup_middle.
    + assert (Hw : ca_channels ca' !! c' = Some (r', Waiting)).
      { apply (ok_pending _ Hok i). by exists mux. }
      split; [|by left]. rewrite lookup_app_l by (rewrite Hlen; by eapply lookup_lt_Some).
      rewrite Hchs; [done|by eapply lookup_lt_Some|]. intros Hr. assert (Hw' : ca_channels ca' !! c' = Some (r, Waiting)).
      { apply (ok_pending _ Hok i). by exists mux. }
      congruence.
  - intros c r' Hr'. destruct (decide (r' = r)) as [-> |Hne]; [right|left; by rewrite lookup_insert_ne].
    assert (Hw : ca_channels ca' !! c = Some (r, Waiting)).
    { apply (ok_pending _ Hok i). by exists mux. }
    exists Dropped. split_and!; [|done..]. rewrite lookup_app_l by (rewrite Hlen; by eapply lookup_lt_Some).
    unfold chs. rewrite Hr'. cbn [drop_sender]. by rewrite set_channel_lookup, decide_True, Hw.
  - intros c r' o Hc Hno. pose proof (lookup_lt_Some _ _ _ Hc) as Hlt.
    rewrite lookup_app_l by lia. rewrite Hchs; [done|done|]. intros Hr.
    assert (Hw : ca_channels ca' !! c = Some (r, Waiting)).
    { apply (ok_pending _ Hok i). by exists mux. }
    congruence.
  - intros c r' o [Hc|[Hge Hc]]%lookup_app_Some.
    + left. rewrite <- Hlen. by eapply lookup_lt_Some.
    + right. rewrite Hlen in *. destruct (c - length (ca_channels ca'))%nat eqn:Hd; [|done].
      simpl in Hc. simplify_eq. split; [done|]. replace c with (length (ca_channels ca')) by lia.
      by rewrite lookup_insert_eq.
  - intros t Ht Hgt. destruct (cg_channels _ _ Hgt (length (ca_channels ca')) r Waiting) as (o & Ho & _).
    { cbn [ca_channels]. rewrite <- Hlen. by apply list_lookup_middle. }
    by exists o.
Qed.

(** [resp] was put into a channel of the request [r], which it answers. *)
Definition delivered (ca : calls) (r : RequestId) (resp : BatchSyncResponse) : Prop :=
  bsr_req_id resp = r /\ exists c, ca_channels ca !! c = Some (r, Delivered resp).

Lemma delivered_grows ca ca' r resp : calls_grow ca ca' -> delivered ca r resp -> delivered ca' r resp.
Proof.
  intros Hg [Hr [c Hc]]. split; [done|]. exists c.
  destruct (cg_channels _ _ Hg _ _ _ Hc) as (o & Ho & He). by rewrite <- (He ltac:(done)).
Qed.

(** What a receiver gets was delivered for its request. *)
Lemma wait_response_spec polls c r ca :
  (exists o, ca_channels ca !! c = Some (r, o)) ->
  wpc (wait_response polls c) (fun o t => forall resp, o = Delivered resp -> delivered t r resp) ca.
Proof.
  revert ca. induction polls as [|polls IH]; intros ca [o Ho]; [by apply wp_ret|].
  cbn [wait_response]. apply wp_bind; [apply _|]. intros ca' Hok Hg.
  destruct (cg_channels _ _ Hg _ _ _ Ho) as (o' & Ho' & _). rewrite Ho'. eexists _, o'.
  split_and!; [done..|]. apply wp_ret. intros t Ht Hgt. destruct o' as [|resp|].
  - apply IH. destruct (cg_channels _ _ Hgt _ _ _ Ho') as (o2 & Ho2 & _). by exists o2.
  - apply wp_ret. intros u Hu Hgu ? [= <-]. apply (delivered_grows ca'); [by etrans|].
    split; [by apply (ok_delivered _ Hok c)|by exists c].
  - by apply wp_ret.
Qed.
