(* ===== verification/Node.v ===== *)
(** The shared state of a node.

    What [Subduction] and [SyncHandler] share behind [Arc]s: the cache of resident trees,
    the storage and the policy of the powerbox, the open connections, the subscriptions of
    peers, the two maps of message counters, and the transport. Each field has its own
    lock; [on_storage], [on_policy], [on_cache] and [on_net] run a task of a part on the
    whole, and [on_field] is one critical section of a field. *)

From Stdlib Require Import Strings.Byte NArith Lia.
From stdpp Require Import base gmap sorting list relations.
From S2P Require Import Prelude.
From S2P Require Import Codec.
From S2P Require Import Types.
From S2P Require Import LooseCommit.
From S2P Require Import Fragment.
From S2P Require Import Traversal.
From S2P Require Import Sedimentree.
From S2P Require Import Minimize.
From S2P Require Import Minimized.
From S2P Require Import Fingerprints.
From S2P Require Import Signed.
From S2P Require Import Message.
From S2P Require Import Authenticated.
From S2P Require Import Tasks.
From S2P Require Import ShardedMap.
From S2P Require Import BoundedShardedMap.
From S2P Require Import Storage.
From S2P Require Import Multiplexer.

(** ** Connections *)

(** [Connection::send] and [Connection::disconnect], on the state of the transport. *)
Class Connection (Net Conn SendErr : Type) : Type := {
  send : Conn -> SyncMessage -> task Net (result SendErr unit);
  disconnect : Conn -> task Net (result SendErr unit)
}.

(** The messages that a transport was given to send. *)
Class Sent (Net Conn : Type) : Type := net_sent : Net -> list (Conn * SyncMessage).

Definition net_only {Net Conn} `{!Sent Net Conn} (good : Conn * SyncMessage -> Prop) (net : Net) :
  Prop := Forall good (net_sent net).
Definition net_grows {Net Conn} `{!Sent Net Conn} : relation Net :=
  fun net net' => net_sent net ⊆ net_sent net'.
#[export] Instance net_grows_preorder {Net Conn} `{!Sent Net Conn} :
  PreOrder (net_grows (Net:=Net) (Conn:=Conn)).
Proof. split; [by intros x m|]. intros x y z Hxy Hyz m Hm. by apply Hyz, Hxy. Qed.

(** What a transport promises: it was given the messages that were sent and no others,
    whatever became of them, and it reports failures as errors. *)
Class ConnectionLaws (Net Conn SendErr : Type) `{!Connection Net Conn SendErr}
    `{!Sent Net Conn} : Prop := {
  send_law (good : Conn * SyncMessage -> Prop) conn msg net :
    net_only good net -> good (conn, msg) ->
    wp (net_only good) net_grows (send conn msg)
      (fun _ net' => (conn, msg) ∈ net_sent net') net;
  disconnect_law (good : Conn * SyncMessage -> Prop) conn net :
    net_only good net ->
    wp (net_only good) net_grows (disconnect conn) (fun _ _ => True) net
}.

(** [managed::CallError] *)
Inductive CallError (SendErr : Type) : Type :=
| CallSend (e : SendErr)
| CallResponseDropped
| CallTimeout.
Arguments CallSend {_} _.
Arguments CallResponseDropped {_}.
Arguments CallTimeout {_}.

(** [IoError]; a connection has one type of errors. *)
Inductive IoError (E SendErr : Type) : Type :=
| IoStorage (e : E)
| IoConnSend (e : SendErr)
| IoConnRecv (e : SendErr)
| IoConnCall (e : CallError SendErr)
| IoBlobMismatch (e : BlobMismatch).
Arguments IoStorage {_ _} _.
Arguments IoConnSend {_ _} _.
Arguments IoConnRecv {_ _} _.
Arguments IoConnCall {_ _} _.
Arguments IoBlobMismatch {_ _} _.

(** [.await.map_err(f)] *)
Definition tmap_err {S E F A} (f : E -> F) (m : task S (result E A)) : task S (result F A) :=
  await r := m in Ret (map_err f r).

Lemma wp_tmap_err {S E F A} (Inv : S -> Prop) (G : relation S) `{!PreOrder G} (f : E -> F)
    (m : task S (result E A)) (Q : A -> S -> Prop) s :
  wp Inv G m (fun r t => forall a, r = Ok a -> Q a t) s ->
  wp Inv G (tmap_err f m) (fun r t => forall a, r = Ok a -> Q a t) s.
Proof.
  intros Hm. eapply wp_map; [done|exact Hm|]. intros r t _ _ Hr a Ha%map_err_ok. by apply Hr.
Qed.

(** ** The state *)

(** [manager::Command] *)
Inductive Command (C : Type) : Type :=
| CmdAdd (conn : C) (peer_id : PeerId)
| CmdReAdd (conn_id : N) (conn : C) (peer_id : PeerId)
| CmdRemoveById (conn_id : N)
| CmdRemove (conn : C).
Arguments CmdAdd {_} _ _.
Arguments CmdReAdd {_} _ _ _.
Arguments CmdRemoveById {_} _.
Arguments CmdRemove {_} _.

(** [sync::FanOut]: the acknowledgement and the pushes that a message leaves to be sent. *)
Record FanOut (Conn : Type) : Type := MkFanOut {
  fo_ack : option (Authenticated Conn * SyncMessage);
  fo_pushes : list (Authenticated Conn * SyncMessage)
}.
Arguments MkFanOut {_} _ _.
Arguments fo_ack {_} _.
Arguments fo_pushes {_} _.

(** What was handed to the executor and has not started. *)
Inductive Spawned (Conn : Type) : Type :=
| SpawnedPushes (pushes : list (Authenticated Conn * SyncMessage))
| SpawnedFanOut (fanout : FanOut Conn).
Arguments SpawnedPushes {_} _.
Arguments SpawnedFanOut {_} _.

(** The multiplexers of each peer; the channel to the connection manager: what was sent, and
    whether it is open; and the sends that were spawned. *)
Record Links (Conn : Type) : Type := MkLinks {
  lk_calls : calls;
  lk_multiplexers : gmap PeerId (list nat);
  lk_commands : list (Command (Authenticated Conn));
  lk_open : bool;
  lk_spawned : list (Spawned Conn)
}.
Arguments MkLinks {_} _ _ _ _ _.
Arguments lk_calls {_} _.
Arguments lk_multiplexers {_} _.
Arguments lk_commands {_} _.
Arguments lk_open {_} _.
Arguments lk_spawned {_} _.

Definition no_links {Conn} : Links Conn := MkLinks no_calls ∅ [] true [].

Definition set_calls {Conn} (ca : calls) (l : Links Conn) : Links Conn :=
  MkLinks ca (lk_multiplexers l) (lk_commands l) (lk_open l) (lk_spawned l).
Definition set_multiplexers {Conn} (x : gmap PeerId (list nat)) (l : Links Conn) : Links Conn :=
  MkLinks (lk_calls l) x (lk_commands l) (lk_open l) (lk_spawned l).
Definition set_commands {Conn} (x : list (Command (Authenticated Conn))) (l : Links Conn) : Links Conn :=
  MkLinks (lk_calls l) (lk_multiplexers l) x (lk_open l) (lk_spawned l).
Definition set_spawned {Conn} (x : list (Spawned Conn)) (l : Links Conn) : Links Conn :=
  MkLinks (lk_calls l) (lk_multiplexers l) (lk_commands l) (lk_open l) x.

Notation Cache := (BoundedShardedMap SedimentreeId MinimizedSedimentree) (only parsing).

Record Node (Sto Pol Net Conn : Type) : Type := MkNode {
  nd_cache : Cache;
  nd_storage : Sto;
  nd_policy : Pol;
  nd_net : Net;
  nd_connections : gmap PeerId (list (Authenticated Conn));
  nd_subscriptions : gmap SedimentreeId (gset PeerId);
  nd_send_counter : gmap PeerId N;
  nd_recv_counter : gmap PeerId N;
  (** the calls of [RemoteHeadsObserver::on_remote_heads], in order *)
  nd_observed : list (SedimentreeId * PeerId * RemoteHeads);
  nd_outgoing : gmap PeerId (gset SedimentreeId);
  nd_links : Links Conn
}.
Arguments MkNode {_ _ _ _} _ _ _ _ _ _ _ _ _ _ _.
Arguments nd_cache {_ _ _ _} _.
Arguments nd_storage {_ _ _ _} _.
Arguments nd_policy {_ _ _ _} _.
Arguments nd_net {_ _ _ _} _.
Arguments nd_connections {_ _ _ _} _.
Arguments nd_subscriptions {_ _ _ _} _.
Arguments nd_send_counter {_ _ _ _} _.
Arguments nd_recv_counter {_ _ _ _} _.
Arguments nd_observed {_ _ _ _} _.
Arguments nd_outgoing {_ _ _ _} _.
Arguments nd_links {_ _ _ _} _.

Section fields.
Context {Sto Pol Net Conn : Type}.
Notation node := (Node Sto Pol Net Conn).
Implicit Type s : node.

Definition set_cache (c : Cache) s : node :=
  MkNode c (nd_storage s) (nd_policy s) (nd_net s) (nd_connections s) (nd_subscriptions s)
    (nd_send_counter s) (nd_recv_counter s) (nd_observed s) (nd_outgoing s) (nd_links s).
Definition set_storage (x : Sto) s : node :=
  MkNode (nd_cache s) x (nd_policy s) (nd_net s) (nd_connections s) (nd_subscriptions s)
    (nd_send_counter s) (nd_recv_counter s) (nd_observed s) (nd_outgoing s) (nd_links s).
Definition set_policy (x : Pol) s : node :=
  MkNode (nd_cache s) (nd_storage s) x (nd_net s) (nd_connections s) (nd_subscriptions s)
    (nd_send_counter s) (nd_recv_counter s) (nd_observed s) (nd_outgoing s) (nd_links s).
Definition set_net (x : Net) s : node :=
  MkNode (nd_cache s) (nd_storage s) (nd_policy s) x (nd_connections s) (nd_subscriptions s)
    (nd_send_counter s) (nd_recv_counter s) (nd_observed s) (nd_outgoing s) (nd_links s).
Definition set_connections (x : gmap PeerId (list (Authenticated Conn))) s : node :=
  MkNode (nd_cache s) (nd_storage s) (nd_policy s) (nd_net s) x (nd_subscriptions s)
    (nd_send_counter s) (nd_recv_counter s) (nd_observed s) (nd_outgoing s) (nd_links s).
Definition set_subscriptions (x : gmap SedimentreeId (gset PeerId)) s : node :=
  MkNode (nd_cache s) (nd_storage s) (nd_policy s) (nd_net s) (nd_connections s) x
    (nd_send_counter s) (nd_recv_counter s) (nd_observed s) (nd_outgoing s) (nd_links s).
Definition set_send_counter (x : gmap PeerId N) s : node :=
  MkNode (nd_cache s) (nd_storage s) (nd_policy s) (nd_net s) (nd_connections s)
    (nd_subscriptions s) x (nd_recv_counter s) (nd_observed s) (nd_outgoing s) (nd_links s).
Definition set_recv_counter (x : gmap PeerId N) s : node :=
  MkNode (nd_cache s) (nd_storage s) (nd_policy s) (nd_net s) (nd_connections s)
    (nd_subscriptions s) (nd_send_counter s) x (nd_observed s) (nd_outgoing s) (nd_links s).
Definition set_observed (x : list (SedimentreeId * PeerId * RemoteHeads)) s : node :=
  MkNode (nd_cache s) (nd_storage s) (nd_policy s) (nd_net s) (nd_connections s)
    (nd_subscriptions s) (nd_send_counter s) (nd_recv_counter s) x (nd_outgoing s) (nd_links s).
Definition set_outgoing (x : gmap PeerId (gset SedimentreeId)) s : node :=
  MkNode (nd_cache s) (nd_storage s) (nd_policy s) (nd_net s) (nd_connections s)
    (nd_subscriptions s) (nd_send_counter s) (nd_recv_counter s) (nd_observed s) x (nd_links s).
Definition set_links (x : Links Conn) s : node :=
  MkNode (nd_cache s) (nd_storage s) (nd_policy s) (nd_net s) (nd_connections s)
    (nd_subscriptions s) (nd_send_counter s) (nd_recv_counter s) (nd_observed s) (nd_outgoing s)
    x.

Definition on_cache {R} (m : task Cache R) : task node R := zoom nd_cache set_cache m.
Definition on_storage {R} (m : task Sto R) : task node R := zoom nd_storage set_storage m.
Definition on_policy {R} (m : task Pol R) : task node R := zoom nd_policy set_policy m.
Definition on_net {R} (m : task Net R) : task node R := zoom nd_net set_net m.
Definition on_calls {R} (m : task calls R) : task node R :=
  zoom (fun s => lk_calls (nd_links s)) (fun ca s => set_links (set_calls ca (nd_links s)) s) m.

(** A critical section of one field. *)
Definition on_field {F R} (get : node -> F) (set : F -> node -> node) (f : F -> F * R) :
  task node R :=
  act (fun s => let '(x, r) := f (get s) in Some (set x s, r)).

(** [spawner.spawn(..)] *)
Definition spawn (job : Spawned Conn) : task node unit :=
  on_field nd_links set_links (fun links => (set_spawned (lk_spawned links ++ [job]) links, tt)).
End fields.
