(* ===== verification/Ingest.v ===== *)
(** Storing items and keeping the cache of resident trees.

    [subduction_core/src/subduction/ingest.rs]: the tasks that a node runs to take in
    commits and fragments, its own or a peer's. Storage is the source of truth and is
    written first; the cache is loaded from it on a miss, with no lock held, so between
    any two sections another task may have stored, loaded, minimised or evicted. *)

From Stdlib Require Import Strings.Byte NArith Lia.
From stdpp Require Import base gmap sorting list relations.
From S2P Require Import Prelude.
From S2P Require Import Codec.
From S2P Require Import Types.
From S2P Require Import LooseCommit.
From S2P Require Import Fragment.
From S2P Require Import Traversal.
From S2P Require Import Sedimentree.
From S2P Require Import Minimize.
From S2P Require Import Minimized.
From S2P Require Import Fingerprints.
From S2P Require Import Signed.
From S2P Require Import Message.
From S2P Require Import Tasks.
From S2P Require Import ShardedMap.
From S2P Require Import BoundedShardedMap.
From S2P Require Import Storage.
From S2P Require Import Node.

(** Items that were new to the local tree, in wire form. *)
Record Ingested : Type := MkIngested {
  ing_commits : list (Signed LooseCommit * Blob);
  ing_fragments : list (Signed Fragment * Blob)
}.

Definition Ingested_default : Ingested := MkIngested [] [].
Definition Ingested_commit (signed : Signed LooseCommit) (blob : Blob) : Ingested :=
  MkIngested [(signed, blob)] [].
Definition Ingested_fragment (signed : Signed Fragment) (blob : Blob) : Ingested :=
  MkIngested [] [(signed, blob)].
Definition Ingested_is_empty (self : Ingested) : bool :=
  bool_decide (ing_commits self = []) && bool_decide (ing_fragments self = []).

(** A panic, if there is no value. *)
Definition or_panic {S A} (o : option A) : task S A :=
  act (fun s => match o with Some a => Some (s, a) | None => None end).

Section loading.
Context `{HashIter, Blake3, Bijou64} {Sto E : Type} `{!Storage Sto E}.

(** The full history, not minimised; [None] if there is nothing. *)
Definition tree_of (loose_commits : list LooseCommit) (fragments : list Fragment) :
  option MinimizedSedimentree :=
  if bool_decide (loose_commits = []) && bool_decide (fragments = []) then None
  else Some (Minimized.new (Sedimentree_new fragments loose_commits)).

Definition load_tree (id : SedimentreeId) :
  task Sto (result E (option MinimizedSedimentree)) :=
  await? loose_commits := local_load_loose_commit_metas id in
  await? fragments := local_load_fragment_metas id in
  Ret (Ok (tree_of loose_commits fragments)).

Definition load_tree_via_putter (putter : Putter) :
  task Sto (result E (option MinimizedSedimentree)) :=
  let fetcher := as_fetcher putter in
  await? loose_commits := fetcher_load_loose_commit_metas fetcher in
  await? fragments := fetcher_load_fragment_metas fetcher in
  Ret (Ok (tree_of loose_commits fragments)).

(** The first blob with that digest, among the commits, then among the fragments. *)
Definition get_blob (id : SedimentreeId) (digest : Digest Blob) :
  task Sto (result E (option Blob)) :=
  await? commits := local_load_loose_commits id in
  match head (filter (fun v => bm_digest (lc_blob_meta (vm_payload v)) = digest) commits) with
  | Some verified => Ret (Ok (Some (vm_blob verified)))
  | None =>
      await? fragments := local_load_fragments id in
      match head (filter (fun v => bm_digest (fs_blob_meta (fr_summary (vm_payload v))) = digest)
                    fragments) with
      | Some verified => Ret (Ok (Some (vm_blob verified)))
      | None => Ret (Ok None)
      end
  end.
End loading.

(** [items.filter(|v| seen.insert(head(v)))]: the items with a head not seen before. *)
Fixpoint filter_unseen {T} `{!Item T} (seen : gset CommitId) (items : list (VerifiedMeta T)) :
  list (VerifiedMeta T) :=
  match items with
  | [] => []
  | v :: items' =>
      let h := item_head (vm_payload v) in
      if bool_decide (h ∈ seen) then filter_unseen seen items'
      else v :: filter_unseen ({[h]} ∪ seen) items'
  end.

Section ingest.
Context `{HashIter, SipHash24, Ed25519, Blake3, Bijou64}.
Context {Sto E Pol Df Dp Net Conn SendErr : Type} `{!Storage Sto E} `{!StoragePolicy Pol Df Dp}.
Context (shards : nat) (depth_metric : DepthMetric).
Notation node := (Node Sto Pol Net Conn).

(** [sedimentrees.with_hydrated_ref(..)], [sedimentrees.with_entry_hydrated(..)] *)
Definition tree_hydrated_ref {R} (id : SedimentreeId)
    (load : task Sto (result E (option MinimizedSedimentree)))
    (inspect : MinimizedSedimentree -> R) : task node (result E (option R)) :=
  Bounded.with_hydrated_ref shards nd_cache set_cache id (on_storage load) inspect.

Definition tree_entry_hydrated {R} (id : SedimentreeId)
    (load : task Sto (result E (option MinimizedSedimentree)))
    (mutate : MinimizedSedimentree -> option (MinimizedSedimentree * R)) :
  task node (result E R) :=
  Bounded.with_entry_hydrated shards nd_cache set_cache Minimized.default id
    (on_storage load) mutate.

Definition insert_commit_locally (putter : Putter) (verified_meta : VerifiedMeta LooseCommit) :
  task node (result E bool) :=
  let id := pt_sedimentree_id putter in
  let commit := vm_payload verified_meta in
  let head := lc_head commit in
  await? was_added := tree_hydrated_ref id (load_tree_via_putter putter)
    (fun tree => negb (has_loose_commit (ms_tree tree) head)) in
  await? _ := on_storage (putter_save_commit putter verified_meta) in
  await? _ := tree_entry_hydrated id (load_tree_via_putter putter)
    (fun tree => Some ((Minimized.add_commit tree commit).1, tt)) in
  Ret (Ok (default true was_added)).

Definition insert_fragment_locally (putter : Putter) (verified_meta : VerifiedMeta Fragment) :
  task node (result E bool) :=
  let id := pt_sedimentree_id putter in
  let fragment := vm_payload verified_meta in
  let head := fr_head fragment in
  await? was_added := tree_hydrated_ref id (load_tree_via_putter putter)
    (fun tree => negb (has_fragment (ms_tree tree) head)) in
  await? _ := on_storage (putter_save_fragment putter verified_meta) in
  await? _ := tree_entry_hydrated id (load_tree_via_putter putter)
    (fun tree => Some ((Minimized.add_fragment tree fragment).1, tt)) in
  Ret (Ok (default true was_added)).

Definition minimize_tree (id : SedimentreeId) : task node unit :=
  await _ := on_cache (Bounded.with_entry shards id (fun tree =>
    tree ← Minimized.ensure_minimized depth_metric tree; Some (tree, tt))) in
  Ret tt.

Definition get_or_hydrate (id : SedimentreeId) : task node (result E (option Sedimentree)) :=
  await hit := on_cache (Bounded.with_entry shards id (Minimized.minimized depth_metric)) in
  match hit with
  | Some tree => Ret (Ok (Some tree))
  | None =>
      await? loose_commits := on_storage (local_load_loose_commit_metas id) in
      await? fragments := on_storage (local_load_fragment_metas id) in
      if bool_decide (loose_commits = []) && bool_decide (fragments = []) then
        await? registered := on_storage (local_contains_sedimentree_id id) in
        if (registered : bool) then
          await _ := on_cache (Bounded.get_or_insert_with shards id
            (Minimized.already_minimal Sedimentree_empty)) in
          Ret (Ok (Some Sedimentree_empty))
        else Ret (Ok None)
      else
        await hydrated := or_panic (minimize depth_metric (Sedimentree_new fragments loose_commits)) in
        await _ := on_cache (Bounded.get_or_insert_with shards id
          (Minimized.already_minimal hydrated)) in
        Ret (Ok (Some hydrated))
  end.

Definition heads_or_hydrate (id : SedimentreeId) : task node (result E (option (list CommitId))) :=
  await hit := on_cache (Bounded.with_entry shards id (Minimized.heads depth_metric)) in
  match hit with
  | Some heads => Ret (Ok (Some heads))
  | None =>
      await? tree := get_or_hydrate id in
      Ret (Ok (heads_assuming_minimal <$> tree))
  end.

(** *** A batch sync response *)

(** One step of the loops over the items of the diff: verify, ask the policy once per
    author, and group by author. *)
Definition sort_item {T} `{!Schema T, !EncodeFields T, !DecodeFields T, !HasBlobMeta T}
    (from : PeerId) (id : SedimentreeId)
    (st : gmap PeerId Putter * gmap PeerId (list (VerifiedMeta T)))
    (item : Signed T * Blob) :
  task node (gmap PeerId Putter * gmap PeerId (list (VerifiedMeta T))) :=
  let '(putter_cache, by_author) := st in
  let '(signed, blob) := item in
  match try_from_signed signed with
  | Err _ => Ret st
  | Ok verified =>
      match VerifiedMeta_new verified blob with
      | Err _ => Ret st
      | Ok verified_meta =>
          let author := verified_author verified_meta in
          let push cache :=
            (cache, <[author := default [] (by_author !! author) ++ [verified_meta]]> by_author) in
          match putter_cache !! author with
          | Some _ => Ret (push putter_cache)
          | None =>
              await r := on_policy (get_putter from author id) in
              match r with
              | Ok p => Ret (push (<[author := p]> putter_cache))
              | Err _ => Ret st
              end
          end
      end
  end.

Definition sort_items {T} `{!Schema T, !EncodeFields T, !DecodeFields T, !HasBlobMeta T}
    (from : PeerId) (id : SedimentreeId) (putter_cache : gmap PeerId Putter)
    (items : list (Signed T * Blob)) :
  task node (gmap PeerId Putter * gmap PeerId (list (VerifiedMeta T))) :=
  tfor (sort_item from id) (putter_cache, ∅) items.

(** The heads among [items] that the tree has. *)
Definition heads_in {T} `{!Item T} (has : CommitId -> bool) (items : list (VerifiedMeta T)) :
  gset CommitId :=
  list_to_set (filter (fun h => has h = true) ((fun v => item_head (vm_payload v)) <$> items)).

Definition to_wire {T} (v : VerifiedMeta T) : Signed T * Blob := (vm_signed v, vm_blob v).

(** The batch of one author: judge what is new, store, then add to the resident tree. *)
Definition ingest_author (id : SedimentreeId) (putter : Putter)
    (commits : list (VerifiedMeta LooseCommit)) (fragments : list (VerifiedMeta Fragment))
    (ingested : Ingested) : task node (result (IoError E SendErr) Ingested) :=
  await? seen := tmap_err IoStorage (tree_hydrated_ref id (load_tree_via_putter putter)
    (fun tree => (heads_in (has_loose_commit (ms_tree tree)) commits,
                  heads_in (has_fragment (ms_tree tree)) fragments))) in
  let '(seen_commits, seen_fragments) := default (∅, ∅) seen in
  let ingested := MkIngested
    (ing_commits ingested ++ (to_wire <$> filter_unseen seen_commits commits))
    (ing_fragments ingested ++ (to_wire <$> filter_unseen seen_fragments fragments)) in
  let commit_payloads := vm_payload <$> commits in
  let fragment_payloads := vm_payload <$> fragments in
  await? _ := tmap_err IoStorage (on_storage (putter_save_batch putter commits fragments)) in
  await? _ := tfold (fun _ commit => tmap_err IoStorage
    (tree_entry_hydrated id (load_tree id)
       (fun tree => let '(t, added) := Minimized.add_commit tree commit in Some (t, added))))
    false commit_payloads in
  await? _ := tfold (fun _ fragment => tmap_err IoStorage
    (tree_entry_hydrated id (load_tree id)
       (fun tree => let '(t, added) := Minimized.add_fragment tree fragment in Some (t, added))))
    false fragment_payloads in
  Ret (Ok ingested).

Definition recv_batch_sync_response (from : PeerId) (id : SedimentreeId) (diff : SyncDiff) :
  task node (result (IoError E SendErr) Ingested) :=
  await '(putter_cache, commits_by_author) := sort_items from id ∅ (sd_missing_commits diff) in
  await '(putter_cache, fragments_by_author) :=
    sort_items from id putter_cache (sd_missing_fragments diff) in
  let all_authors : gset PeerId :=
    list_to_set (hash_keys commits_by_author ++ hash_keys fragments_by_author) in
  tfold (fun ingested author_id =>
      match putter_cache !! author_id with
      | None => Ret (Ok ingested)
      | Some putter =>
          ingest_author id putter (default [] (commits_by_author !! author_id))
            (default [] (fragments_by_author !! author_id)) ingested
      end) Ingested_default (hashset_iter all_authors).
End ingest.
