(* ===== verification/IngestSpec.v ===== *)
(** What the ingestion tasks of [Ingest.v] guarantee.

    [node_inv] is the invariant of the shared state: the cache is within its bound, every
    resident tree is a valid lazily minimised tree, and storage backs it: each of its items
    has been stored ([backed]). [node_grows] is what any task may do to the state: storage
    grows, and if the cache is unbounded, a resident tree stays and only evolves by its
    own operations. The triples hold for any backend that keeps the contract of
    [StorageLaws] and any policy, under any interleaving. *)

From Stdlib Require Import Strings.Byte NArith Lia.
From stdpp Require Import base gmap sorting list relations.
From S2P Require Import Prelude.
From S2P Require Import Codec.
From S2P Require Import Types.
From S2P Require Import LooseCommit.
From S2P Require Import Fragment.
From S2P Require Import Traversal.
From S2P Require Import Sedimentree.
From S2P Require Import Minimize.
From S2P Require Import Minimized.
From S2P Require Import Fingerprints.
From S2P Require Import Signed.
From S2P Require Import Message.
From S2P Require Import Tasks.
From S2P Require Import ShardedMap.
From S2P Require Import BoundedShardedMap.
From S2P Require Import Storage.
From S2P Require Import Multiplexer.
From S2P Require Import Node.
From S2P Require Import Ingest.

(** ** Backed trees *)

Section backed.
Context `{HashIter, Blake3, Bijou64} {Sto E : Type} `{!Storage Sto E} `{!StorageLaws Sto E}.

(** Each item of the tree is stored, up to the digest of its content. *)
Definition backed (sto : Sto) (id : SedimentreeId) (t : Sedimentree) : Prop :=
  (forall k c, st_commits t !! k = Some c -> saved st_commit sto id c) /\
  (forall k f, st_fragments t !! k = Some f -> saved st_fragment sto id f).

Lemma backed_grows sto sto' id t : st_grows sto sto' -> backed sto id t -> backed sto' id t.
Proof.
  intros Hg [Hc Hf]. split; intros.
  - eapply saved_commit_grows; eauto.
  - eapply saved_fragment_grows; eauto.
Qed.

Lemma backed_empty sto id : backed sto id Sedimentree_empty.
Proof. split; intros k x Hx; simpl in Hx; by rewrite lookup_empty in Hx. Qed.

Lemma insert_or_tiebreak_cases {V} `{!Schema V, !EncodeFields V} (mp : gmap CommitId V) k v j w :
  insert_or_tiebreak mp k v !! j = Some w -> mp !! j = Some w \/ w = v.
Proof.
  rewrite insert_or_tiebreak_lookup. destruct (decide (j = k)) as [-> |]; [|by left].
  destruct (mp !! k) as [e|] eqn:He; intros [= <-]; [|by right].
  destruct (tie_cases e v) as [-> | ->]; [by left|by right].
Qed.

Lemma backed_add_commit sto id t c :
  backed sto id t -> saved st_commit sto id c -> backed sto id (Sedimentree.add_commit t c).1.
Proof.
  intros [Hc Hf] Hs. rewrite add_commit_eq. split; simpl; [|done]. intros k x Hx.
  apply insert_or_tiebreak_cases in Hx as [Hx| ->]; eauto.
Qed.

Lemma backed_add_fragment sto id t f :
  backed sto id t -> saved st_fragment sto id f -> backed sto id (Sedimentree.add_fragment t f).1.
Proof.
  intros [Hc Hf] Hs. rewrite add_fragment_eq. split; simpl; [done|]. intros k x Hx.
  apply insert_or_tiebreak_cases in Hx as [Hx| ->]; eauto.
Qed.
End backed.

(** ** Authentic items *)

Section authentic.
Context `{Ed25519, Blake3, Bijou64} {T : Type}.
Context `{!Schema T, !EncodeFields T, !DecodeFields T, !HasBlobMeta T}.

(** The signature is by the author and covers the payload, and the blob is the one that
    the payload names. *)
Definition checked (v : VerifiedMeta T) : Prop :=
  exists verified, try_from_signed (vm_signed v) = Ok verified /\
    VerifiedMeta_new verified (vm_blob v) = Ok v.

Lemma checked_meta_ok (v : VerifiedMeta T) : checked v -> meta_ok v.
Proof. intros (verified & Ht & Hn). by eapply verified_meta_ok. Qed.

(** The node's own item, or one that was checked and that the policy approved. *)
Definition authentic (approved : PeerId -> PeerId -> SedimentreeId -> Prop)
    (own : SedimentreeId -> VerifiedMeta T -> Prop) (id : SedimentreeId) (v : VerifiedMeta T) : Prop :=
  own id v \/ (checked v /\ exists peer, approved peer (verified_author v) id).
End authentic.

(** ** The invariant and the steps of a node *)

Section ingest_spec.
Context `{HashIter, SipHash24Range, Ed25519, Blake3, Bijou64}.
Context {Sto E Pol Df Dp Net Conn SendErr : Type} `{!Storage Sto E} `{!StorageLaws Sto E}.
Context `{!StoragePolicy Pol Df Dp} `{!Sent Net Conn}.
Context (shards : nat) (Hshards : (0 < shards)%nat) (Hmax : N.of_nat shards <= u64_max).
Context (m : DepthMetric).
Context (good_c : SedimentreeId -> VerifiedMeta LooseCommit -> Prop).
Context (good_f : SedimentreeId -> VerifiedMeta Fragment -> Prop).
Notation node := (Node Sto Pol Net Conn).
Notation only := (st_only good_c good_f).
Implicit Types (s t : node) (ms : MinimizedSedimentree) (id : SedimentreeId).

(** What else holds of the node, of the parts that ingestion does not change. *)
Context (rest_ok : node -> Prop).
Context (Hrest_cache : forall c s, rest_ok s -> rest_ok (set_cache c s)).
Context (Hrest_storage : forall x s, rest_ok s -> rest_ok (set_storage x s)).
Context (Hrest_policy : forall x s, rest_ok s -> rest_ok (set_policy x s)).

(** The resident trees. *)
Definition resident s : gmap SedimentreeId MinimizedSedimentree := Bounded.cached (nd_cache s).

(** A value that may be resident. *)
Definition tree_ok s id ms : Prop := Minimized.valid m ms /\ backed (nd_storage s) id (ms_tree ms).

Record node_inv s : Prop := {
  ni_cache : Bounded.ok shards (nd_cache s);
  ni_storage : only (nd_storage s);
  ni_trees id ms : resident s !! id = Some ms -> tree_ok s id ms;
  ni_rest : rest_ok s
}.

(** Nothing is evicted. *)
Definition unbounded s : Prop := bs_cap (nd_cache s) = None.

(** The parts besides cache and storage: no counter is forgotten, no message taken back, no
    call lost. *)
Record side_grows s t : Prop := {
  sg_counters : dom (nd_send_counter s) ⊆ dom (nd_send_counter t);
  sg_net : net_grows (nd_net s) (nd_net t);
  sg_calls : calls_grow (lk_calls (nd_links s)) (lk_calls (nd_links t))
}.

#[export] Instance side_grows_preorder : PreOrder side_grows.
Proof.
  split; [done|]. intros s t u [? ? ?] [? ? ?]. split; by etrans.
Qed.

Lemma side_same s t :
  nd_send_counter t = nd_send_counter s -> nd_net t = nd_net s -> nd_links t = nd_links s ->
  side_grows s t.
Proof. intros Hc Hn Hl. by split; rewrite ?Hc, ?Hn, ?Hl. Qed.

Record node_grows s t : Prop := {
  ng_storage : st_grows (nd_storage s) (nd_storage t);
  ng_cap : bs_cap (nd_cache t) = bs_cap (nd_cache s);
  ng_trees id ms : unbounded s -> resident s !! id = Some ms ->
    exists ms', resident t !! id = Some ms' /\ rtc (Minimized.step m) ms ms';
  ng_side : side_grows s t
}.

#[export] Instance node_grows_preorder : PreOrder node_grows.
Proof.
  split.
  - intros s. split; [done..| |done]. intros id ms _ Hms. by exists ms.
  - intros s t u [Hs Hc Ht Hn] [Hs' Hc' Ht' Hn']. split; [by etrans|congruence| |by etrans].
    intros id ms Hu Hms. destruct (Ht id ms Hu Hms) as (ms1 & Hms1 & Hr).
    destruct (Ht' id ms1) as (ms2 & Hms2 & Hr'); [unfold unbounded in *; congruence|done|].
    exists ms2. split; [done|by etrans].
Qed.

Lemma tree_ok_grows s t id ms :
  st_grows (nd_storage s) (nd_storage t) -> tree_ok s id ms -> tree_ok t id ms.
Proof. intros Hg [Hv Hb]. split; [done|by eapply backed_grows]. Qed.

Notation wpn := (wp node_inv node_grows).

(** *** Rules for the parts *)

Lemma wp_storage {R} (op : task Sto R) Q s :
  wp only st_grows op Q (nd_storage s) -> wpn (on_storage op) (fun r t => Q r (nd_storage t)) s.
Proof.
  apply wp_zoom; [done|by intros ? []|by intros ? ? []|].
  intros x t [Hc Hs Ht Hr] Hx Hg. split; split; try done; simpl; auto.
  - intros id ms Hms. eapply (tree_ok_grows t); [done|by apply Ht].
  - intros id ms _ Hms. by exists ms.
Qed.

(** A section that leaves cache and storage as they are. *)
Lemma wp_section {R} (f : node -> node * R) (Q : R -> node -> Prop) s :
  (forall t, node_inv t -> node_grows s t ->
     let '(t', r) := f t in
     nd_cache t' = nd_cache t /\ nd_storage t' = nd_storage t /\ rest_ok t' /\ side_grows t t' /\
     forall u, node_inv u -> node_grows t' u -> Q r u) ->
  wpn (act (fun t => Some (f t))) Q s.
Proof.
  intros HQ t Ht Hg. specialize (HQ t Ht Hg). destruct (f t) as [t' r].
  destruct HQ as (Hc & Hs & Hr & Hside & Hend). exists t', r. split; [done|].
  destruct Ht as [? ? Htr _]. split_and!; [| |exact Hend].
  - split; unfold resident, tree_ok in *; rewrite ?Hc, ?Hs; done.
  - split; unfold resident, unbounded in *; rewrite ?Hc, ?Hs; try done.
    intros id ms _ Hms. by exists ms.
Qed.

(** A part that only [rest_ok] may mention. *)
Lemma wp_part {T R} (get : node -> T) (set : T -> node -> node) (InvT : T -> Prop) (GT : relation T)
    (op : task T R) (Q : R -> T -> Prop) s :
  (forall x t, get (set x t) = x) ->
  (forall x t, nd_cache (set x t) = nd_cache t) -> (forall x t, nd_storage (set x t) = nd_storage t) ->
  (forall t, rest_ok t -> InvT (get t)) -> (forall s t, side_grows s t -> GT (get s) (get t)) ->
  (forall x t, InvT x -> GT (get t) x -> rest_ok t -> rest_ok (set x t) /\ side_grows t (set x t)) ->
  wp InvT GT op Q (get s) ->
  wpn (zoom get set op) (fun r t => Q r (get t)) s.
Proof.
  intros Hgs Hc Hs Hi HG Hset.
  apply wp_zoom; [done|by intros ? [_ _ _ ?]; auto|by intros ? ? []; auto|].
  intros x t [? ? Ht Hr] Hx HGx. destruct (Hset x t Hx HGx Hr) as [Hr' Hsg].
  split; split; unfold resident, unbounded, tree_ok in *; rewrite ?Hc, ?Hs; try done.
  intros id ms _ Hms. by exists ms.
Qed.

Lemma wp_field {F R} (get : node -> F) (set : F -> node -> node) (f : F -> F * R)
    (Q : R -> node -> Prop) s :
  (forall x t, nd_cache (set x t) = nd_cache t) -> (forall x t, nd_storage (set x t) = nd_storage t) ->
  (forall t, node_inv t -> node_grows s t ->
     rest_ok (set (f (get t)).1 t) /\ side_grows t (set (f (get t)).1 t) /\
     forall u, node_inv u -> node_grows (set (f (get t)).1 t) u -> Q (f (get t)).2 u) ->
  wpn (on_field get set f) Q s.
Proof.
  intros Hc Hs HQ.
  assert (Hwp : wpn (act (fun t => Some (let '(x, r) := f (get t) in (set x t, r)))) Q s).
  { apply wp_section. intros t Ht Hg. specialize (HQ t Ht Hg). destruct (f (get t)) as [x r].
    by rewrite Hc, Hs. }
  intros t Ht Hg. destruct (Hwp t Ht Hg) as (t' & r & Hf & Hrest). exists t', r. split; [|done].
  by destruct (f (get t)).
Qed.

Lemma wp_policy {R} (op : task Pol R) (Q : R -> Prop) s :
  wp (fun _ => True) (fun _ _ => True) op (fun r _ => Q r) (nd_policy s) ->
  wpn (on_policy op) (fun r _ => Q r) s.
Proof.
  intros Hop. apply (wp_part nd_policy set_policy (fun _ => True) (fun _ _ => True) _
    (fun r _ => Q r)); auto. intros x t _ _ Hr. split; [auto|by apply side_same].
Qed.

(** An operation of the cache, which leaves [o] under its key. *)
Lemma wp_cache {R} id op (g : option MinimizedSedimentree -> option (option MinimizedSedimentree * R))
    (Q : R -> node -> Prop) s :
  Bounded.op shards id op g ->
  (forall s', node_inv s' -> node_grows s s' ->
     exists o r, g (resident s' !! id) = Some (o, r) /\
       (forall ms, o = Some ms -> tree_ok s' id ms) /\
       (forall ms, resident s' !! id = Some ms ->
          exists ms', o = Some ms' /\ rtc (Minimized.step m) ms ms') /\
       forall t, node_inv t -> node_grows s' t ->
         (unbounded t -> forall ms, o = Some ms ->
            exists ms', resident t !! id = Some ms' /\ rtc (Minimized.step m) ms ms') ->
         Q r t) ->
  wpn (on_cache op) Q s.
Proof.
  intros Hop HQ. eapply (Bounded.wp_op shards Hshards Hmax);
    [apply _|by intros t []| |exact Hop|].
  { intros c t [Hc Hs Ht Hr] Hok Hcap Hcd. split; split; unfold resident in *; simpl;
      rewrite ?Hcd; try done; auto. intros i ms _ Hms. by exists ms. }
  intros s' Hs' Hg. destruct (HQ s' Hs' Hg) as (o & r & Hgo & Hnew & Hold & Hend).
  exists o, r. split; [done|]. intros c [Hok Hcap Hkey Hother].
  pose proof Hs' as [Hc Hst Ht Hrest].
  assert (Hg' : node_grows s' (set_cache c s')).
  { split; [done..| |done]. intros i ms Hu Hms. destruct (decide (i = id)) as [-> |Hne].
    - destruct (Hold ms Hms) as (ms' & -> & Hr). by exists ms'.
    - destruct (Hother i Hne) as [Hi|[[? Hi] _]]; [|by rewrite Hu in Hi].
      exists ms. split; [by unfold resident in *; simpl; rewrite Hi|done]. }
  split_and!; [|done|].
  - split; simpl; [done..| |by auto]. intros i ms Hms. unfold resident in Hms; simpl in Hms.
    destruct (decide (i = id)) as [-> |Hne]; [apply Hnew; congruence|].
    destruct (Hother i Hne) as [Hi|[_ Hi]]; [|congruence]. apply Ht. unfold resident. congruence.
  - intros t Ht' Hgt. apply Hend; [done|by etrans|]. intros Hu ms ->.
    apply (ng_trees _ _ Hgt); [|done]. unfold unbounded in *. rewrite <- Hu. symmetry. apply Hgt.
Qed.

(** *** Loading *)

(** What a load that began at [x0] and ended at [x] found. *)
Definition tree_loaded (x0 x : Sto) id (o : option MinimizedSedimentree) : Prop :=
  match o with
  | None => (forall v, ~ st_commit x0 id v) /\ (forall v, ~ st_fragment x0 id v)
  | Some ms =>
      Minimized.valid m ms /\ backed x id (ms_tree ms) /\
      (forall v, st_commit x0 id v -> is_Some (st_commits (ms_tree ms) !! lc_head (vm_payload v))) /\
      (forall v, st_fragment x0 id v -> is_Some (st_fragments (ms_tree ms) !! fr_head (vm_payload v)))
  end.

Lemma new_has {V} `{!Schema V, !EncodeFields V} (f : V -> CommitId) l v :
  f v ∈ f <$> l -> is_Some (foldl (fun mp w => insert_or_tiebreak mp (f w) w) ∅ l !! f v).
Proof.
  intros (w & Hf & Hw)%list_elem_of_fmap. pose proof (foldl_insert_lookup f l (f v)) as Hl.
  destruct (_ !! f v); [by eexists|]. by destruct (Hl w Hw).
Qed.

Lemma new_only {V} `{!Schema V, !EncodeFields V} (f : V -> CommitId) l k v :
  foldl (fun mp w => insert_or_tiebreak mp (f w) w) ∅ l !! k = Some v -> v ∈ l.
Proof.
  intros Hv. pose proof (foldl_insert_lookup f l k) as Hl. rewrite Hv in Hl. by destruct Hl.
Qed.

(** The tree of what two loads returned. *)
Lemma tree_of_loaded x0 x id cs fs :
  (forall c, c ∈ cs -> exists v, st_commit x id v /\ vm_payload v = c) ->
  loads_all st_commit x0 id (item_head <$> cs) ->
  (forall f, f ∈ fs -> exists v, st_fragment x id v /\ vm_payload v = f) ->
  loads_all st_fragment x0 id (item_head <$> fs) ->
  tree_loaded x0 x id (tree_of cs fs) /\
  tree_loaded x0 x id (Some (Minimized.new (Sedimentree_new fs cs))).
Proof.
  intros Hc Hac Hf Haf.
  assert (Hsome : tree_loaded x0 x id (Some (Minimized.new (Sedimentree_new fs cs)))).
  { split_and!; [by split; [apply keyed_new|]| | |]; simpl.
    - split; simpl; intros k y Hy%new_only;
        [destruct (Hc y Hy) as (v & ? & <-)|destruct (Hf y Hy) as (v & ? & <-)]; by exists v.
    - intros v Hv. by apply (new_has lc_head), Hac.
    - intros v Hv. by apply (new_has fr_head), Haf. }
  split; [|done]. unfold tree_of. destruct (_ && _) eqn:Hb; [|done].
  apply andb_true_iff in Hb as [->%bool_decide_eq_true ->%bool_decide_eq_true].
  split; intros v Hv; [apply Hac in Hv|apply Haf in Hv]; by apply not_elem_of_nil in Hv.
Qed.

(** The two loads, and what is made of them. *)
Lemma wp_load_metas {R} id (k : list LooseCommit -> list Fragment -> task Sto (result E R)) Q x :
  only x ->
  (forall cs fs x', only x' -> st_grows x x' ->
     (forall c, c ∈ cs -> exists v, st_commit x' id v /\ vm_payload v = c) ->
     loads_all st_commit x id (item_head <$> cs) ->
     (forall f, f ∈ fs -> exists v, st_fragment x' id v /\ vm_payload v = f) ->
     loads_all st_fragment x id (item_head <$> fs) ->
     wp only st_grows (k cs fs) Q x') ->
  (forall e x', only x' -> Q (Err e) x') ->
  wp only st_grows
    (await? cs := local_load_loose_commit_metas id in
     await? fs := local_load_fragment_metas id in k cs fs) Q x.
Proof.
  intros Hx Hk He. apply wp_bind_ok; [apply _|].
  eapply wp_mono; [apply _|by apply (law_metas _ _ _ _ _ _ _ (st_commit_laws good_c good_f))|].
  intros [cs|e] x1 Hx1 Hg1 Hcs; [|by apply wp_ret; auto].
  destruct Hcs as [Hc Hac]. apply wp_bind_ok; [apply _|].
  eapply wp_mono; [apply _|by apply (law_metas _ _ _ _ _ _ _ (st_fragment_laws good_c good_f))|].
  intros [fs|e] x2 Hx2 Hg2 Hfs; [|by apply wp_ret; auto].
  destruct Hfs as [Hf Haf]. apply Hk; [done|by etrans| |done|done|].
  - intros c Hin. destruct (Hc c Hin) as (v & Hv & ?). exists v. split; [|done]. by apply Hg2.
  - intros v Hv. apply Haf. by apply Hg1.
Qed.

Lemma load_tree_spec id x :
  only x -> wp only st_grows (load_tree id) (fun r x' => forall o, r = Ok o -> tree_loaded x x' id o) x.
Proof.
  intros Hx. apply wp_load_metas; [done| |done].
  intros cs fs x' Hx' Hg Hc Hac Hf Haf. apply wp_ret. intros x2 Hx2 Hg2 o [= <-].
  apply tree_of_loaded; [|done| |done].
  - intros c Hin. destruct (Hc c Hin) as (v & Hv & ?). exists v. split; [|done]. by apply Hg2.
  - intros f Hin. destruct (Hf f Hin) as (v & Hv & ?). exists v. split; [|done]. by apply Hg2.
Qed.

Lemma load_tree_via_putter_eq id : load_tree_via_putter (Putter_new id) = load_tree (Sto:=Sto) id.
Proof. done. Qed.

(** *** Reading and writing the resident tree *)

Lemma unbounded_back s t : node_grows s t -> unbounded t -> unbounded s.
Proof. unfold unbounded. intros [_ <- _ _]. done. Qed.

Lemma tree_ok_default s id : tree_ok s id Minimized.default.
Proof. split; [apply Minimized.init_valid; constructor|apply backed_empty]. Qed.

(** A load as a task of the node. *)
Definition loads id (load : task Sto (result E (option MinimizedSedimentree))) : Prop :=
  forall x, only x -> wp only st_grows load (fun r x' => forall o, r = Ok o -> tree_loaded x x' id o) x.

Lemma wp_load id load Q s :
  loads id load -> node_inv s ->
  (forall r t, node_inv t -> node_grows s t ->
     (forall o, r = Ok o -> tree_loaded (nd_storage s) (nd_storage t) id o) -> Q r t) ->
  wpn (on_storage load) Q s.
Proof.
  intros Hl Hs HQ. eapply wp_mono; [apply _|apply wp_storage, Hl, Hs|]. simpl. auto.
Qed.

Lemma loaded_ok x s id ms : tree_loaded x (nd_storage s) id (Some ms) -> tree_ok s id ms.
Proof. by intros (? & ? & _). Qed.

(** The reader sees a value that is, or becomes, resident, and which is of the stored
    items. *)
Lemma tree_hydrated_ref_spec {R} id load (inspect : MinimizedSedimentree -> R) s :
  loads id load -> node_inv s ->
  wpn (tree_hydrated_ref shards id load inspect)
    (fun r t => forall b, r = Ok (Some b) -> exists ms, b = inspect ms /\ tree_ok t id ms) s.
Proof.
  intros Hl Hs. unfold tree_hydrated_ref, Bounded.with_hydrated_ref. apply wp_bind; [apply _|].
  eapply wp_cache; [apply Bounded.inspect_hit_op|]. intros s1 Hs1 Hg1.
  eexists _, _. split; [done|]. split_and!; [by apply ni_trees|by intros ms ->; exists ms|].
  intros t Ht Hgt _. destruct (resident s1 !! id) as [ms|] eqn:Hms;
    cbn [fmap option_fmap option_map].
  - apply wp_ret. intros u Hu Hgu b [= <-]. exists ms. split; [done|].
    eapply tree_ok_grows; [etrans; [apply Hgt|apply Hgu]|]. by apply Hs1.
  - apply wp_bind_ok; [apply _|]. apply (wp_load id); [done..|].
    intros [[loaded|]|e] t1 Ht1 Hgt1 Hld; [|by apply wp_ret..].
    specialize (Hld _ eq_refl). apply wp_bind; [apply _|].
    eapply wp_cache; [apply Bounded.inspect_install_op|]. intros t2 Ht2 Hgt2.
    assert (Hok : tree_ok t2 id (default loaded (resident t2 !! id))).
    { destruct (resident t2 !! id) as [ms|] eqn:Hms2; [by apply Ht2|].
      eapply (tree_ok_grows t1); [apply Hgt2|by eapply loaded_ok]. }
    eexists _, _. split; [done|]. split_and!; [by intros ms [= <-]|by intros ms ->; exists ms|].
    intros u Hu Hgu _. apply wp_ret. intros w Hw Hgw b [= <-]. eexists. split; [done|].
    eapply tree_ok_grows; [etrans; [apply Hgu|apply Hgw]|done].
Qed.

(** The writer changes the resident tree, or one loaded for it, by a step that storage
    backs. *)
Lemma tree_entry_hydrated_spec {R} id load
    (mutate : MinimizedSedimentree -> option (MinimizedSedimentree * R)) s :
  loads id load -> node_inv s ->
  (forall t ms, node_grows s t -> tree_ok t id ms -> exists ms' r,
     mutate ms = Some (ms', r) /\ rtc (Minimized.step m) ms ms' /\ tree_ok t id ms') ->
  wpn (tree_entry_hydrated shards id load mutate)
    (fun r t => forall b, r = Ok b -> unbounded t -> exists ms ms' ms'',
       mutate ms = Some (ms', b) /\ resident t !! id = Some ms'' /\
       rtc (Minimized.step m) ms' ms'') s.
Proof.
  intros Hl Hs Hmut. unfold tree_entry_hydrated, Bounded.with_entry_hydrated.
  apply wp_bind; [apply _|]. eapply wp_cache; [apply Bounded.with_entry_op|]. intros s1 Hs1 Hg1.
  destruct (resident s1 !! id) as [ms|] eqn:Hms; cbn [Bounded.on_value].
  - destruct (Hmut s1 ms Hg1 (ni_trees _ Hs1 _ _ Hms)) as (ms' & r & Hm & Hst & Hok).
    rewrite Hm. cbn [mbind option_bind]. eexists _, _. split; [done|].
    split_and!; [by intros ? [= <-]| |].
    + intros ? [= <-]. by exists ms'.
    + intros t Ht Hgt Hres. apply wp_ret. intros u Hu Hgu b [= <-] Hub.
      destruct (Hres (unbounded_back _ _ Hgu Hub) ms' eq_refl) as (ms1 & Hr1 & Hs').
      destruct (ng_trees _ _ Hgu _ _ (unbounded_back _ _ Hgu Hub) Hr1) as (ms2 & Hr2 & Hs2).
      exists ms, ms', ms2. split_and!; [done..|by etrans].
  - eexists _, _. split; [done|]. split_and!; [done..|]. intros t Ht Hgt _.
    apply wp_bind_ok; [apply _|]. apply (wp_load id); [done..|].
    intros [loaded|e] t1 Ht1 Hgt1 Hld; [|by apply wp_ret].
    specialize (Hld _ eq_refl). apply wp_bind; [apply _|].
    eapply wp_cache; [apply Bounded.mutate_install_op|]. intros t2 Ht2 Hgt2.
    set (ms := default (default Minimized.default loaded) (resident t2 !! id)).
    destruct (Hmut t2 ms) as (ms' & r & Hm & Hst & Hok); [by do 3 (etrans; [done|])| |].
    { unfold ms. destruct (resident t2 !! id) as [ms2|] eqn:Hms2; [by apply Ht2|].
      destruct loaded as [l|]; [|apply tree_ok_default].
      eapply (tree_ok_grows t1); [apply Hgt2|by eapply loaded_ok]. }
    cbv beta. fold ms. rewrite Hm. cbn [mbind option_bind]. eexists _, _. split; [done|].
    split_and!; [by intros ? [= <-]| |].
    + intros ms0 Hms0. exists ms'. split; [done|]. unfold ms in Hst. by rewrite Hms0 in Hst.
    + intros u Hu Hgu Hres. apply wp_ret. intros w Hw Hgw b [= <-] Hub.
      destruct (Hres (unbounded_back _ _ Hgw Hub) ms' eq_refl) as (ms1 & Hr1 & Hs').
      destruct (ng_trees _ _ Hgw _ _ (unbounded_back _ _ Hgw Hub) Hr1) as (ms2 & Hr2 & Hs2).
      exists ms, ms', ms2. split_and!; [done..|by etrans].
Qed.

(** *** Inserting one item *)

(** The resident tree came from one that the item was added to. *)
Definition absorbed_commit t id (c : LooseCommit) : Prop :=
  exists ms0 ms, resident t !! id = Some ms /\
    rtc (Minimized.step m) (Minimized.add_commit ms0 c).1 ms.
Definition absorbed_fragment t id (f : Fragment) : Prop :=
  exists ms0 ms, resident t !! id = Some ms /\
    rtc (Minimized.step m) (Minimized.add_fragment ms0 f).1 ms.

Lemma add_commit_ok t id ms c :
  tree_ok t id ms -> saved st_commit (nd_storage t) id c ->
  tree_ok t id (Minimized.add_commit ms c).1.
Proof.
  intros [Hv Hb] Hs. split; [by eapply Minimized.step_valid; [constructor|]|].
  pose proof (backed_add_commit _ _ _ c Hb Hs) as Hb'. unfold Minimized.add_commit.
  by destruct (Sedimentree.add_commit (ms_tree ms) c).
Qed.

Lemma add_fragment_ok t id ms f :
  tree_ok t id ms -> saved st_fragment (nd_storage t) id f ->
  tree_ok t id (Minimized.add_fragment ms f).1.
Proof.
  intros [Hv Hb] Hs. split; [by eapply Minimized.step_valid; [constructor|]|].
  pose proof (backed_add_fragment _ _ _ f Hb Hs) as Hb'. unfold Minimized.add_fragment.
  by destruct (Sedimentree.add_fragment (ms_tree ms) f).
Qed.

Lemma loads_tree id : loads id (load_tree id).
Proof. intros x. apply load_tree_spec. Qed.

Lemma enter_commit_spec {R} id c (mutate : MinimizedSedimentree -> option (MinimizedSedimentree * R)) s :
  (forall ms, exists r, mutate ms = Some ((Minimized.add_commit ms c).1, r)) ->
  node_inv s -> saved st_commit (nd_storage s) id c ->
  wpn (tree_entry_hydrated shards id (load_tree id) mutate)
    (fun r t => forall b, r = Ok b -> unbounded t -> absorbed_commit t id c) s.
Proof.
  intros Hmut Hs Hc. eapply wp_mono; [apply _|apply tree_entry_hydrated_spec|].
  - apply loads_tree.
  - done.
  - intros t ms Hg Hok. destruct (Hmut ms) as [r Hr]. eexists _, r.
    split_and!; [done|apply rtc_once; constructor|]. apply add_commit_ok; [done|].
    by eapply saved_commit_grows; [apply Hg|].
  - intros o t Ht Hg Hq b Hb Hu. destruct (Hq b Hb Hu) as (ms & ms' & ms'' & Hm & Hr & Hst).
    exists ms, ms''. split; [done|]. destruct (Hmut ms). by simplify_eq.
Qed.

Lemma enter_fragment_spec {R} id f (mutate : MinimizedSedimentree -> option (MinimizedSedimentree * R)) s :
  (forall ms, exists r, mutate ms = Some ((Minimized.add_fragment ms f).1, r)) ->
  node_inv s -> saved st_fragment (nd_storage s) id f ->
  wpn (tree_entry_hydrated shards id (load_tree id) mutate)
    (fun r t => forall b, r = Ok b -> unbounded t -> absorbed_fragment t id f) s.
Proof.
  intros Hmut Hs Hc. eapply wp_mono; [apply _|apply tree_entry_hydrated_spec|].
  - apply loads_tree.
  - done.
  - intros t ms Hg Hok. destruct (Hmut ms) as [r Hr]. eexists _, r.
    split_and!; [done|apply rtc_once; constructor|]. apply add_fragment_ok; [done|].
    by eapply saved_fragment_grows; [apply Hg|].
  - intros o t Ht Hg Hq b Hb Hu. destruct (Hq b Hb Hu) as (ms & ms' & ms'' & Hm & Hr & Hst).
    exists ms, ms''. split; [done|]. destruct (Hmut ms). by simplify_eq.
Qed.

(** What a completed insertion leaves, from then on. *)
Definition commit_inserted t id (c : LooseCommit) : Prop :=
  id ∈ st_ids (nd_storage t) /\ saved st_commit (nd_storage t) id c /\
  (unbounded t -> absorbed_commit t id c).
Definition fragment_inserted t id (f : Fragment) : Prop :=
  id ∈ st_ids (nd_storage t) /\ saved st_fragment (nd_storage t) id f /\
  (unbounded t -> absorbed_fragment t id f).

Lemma absorbed_commit_grows s t id c :
  node_grows s t -> unbounded t -> absorbed_commit s id c -> absorbed_commit t id c.
Proof.
  intros Hg Hu (ms0 & ms & Hr & Hst).
  destruct (ng_trees _ _ Hg _ _ (unbounded_back _ _ Hg Hu) Hr) as (ms' & Hr' & Hst').
  exists ms0, ms'. split; [done|by etrans].
Qed.

Lemma absorbed_fragment_grows s t id f :
  node_grows s t -> unbounded t -> absorbed_fragment s id f -> absorbed_fragment t id f.
Proof.
  intros Hg Hu (ms0 & ms & Hr & Hst).
  destruct (ng_trees _ _ Hg _ _ (unbounded_back _ _ Hg Hu) Hr) as (ms' & Hr' & Hst').
  exists ms0, ms'. split; [done|by etrans].
Qed.

Lemma commit_inserted_grows s t id c :
  node_grows s t -> commit_inserted s id c -> commit_inserted t id c.
Proof.
  intros Hg (Hi & Hs & Ha). split_and!.
  - by apply (ng_storage _ _ Hg).
  - eapply saved_commit_grows; [apply Hg|done].
  - intros Hu. eapply absorbed_commit_grows; eauto using unbounded_back.
Qed.

Lemma fragment_inserted_grows s t id f :
  node_grows s t -> fragment_inserted s id f -> fragment_inserted t id f.
Proof.
  intros Hg (Hi & Hs & Ha). split_and!.
  - by apply (ng_storage _ _ Hg).
  - eapply saved_fragment_grows; [apply Hg|done].
  - intros Hu. eapply absorbed_fragment_grows; eauto using unbounded_back.
Qed.

Lemma insert_commit_locally_spec id v s :
  node_inv s -> meta_ok v -> good_c id v ->
  wpn (insert_commit_locally shards (Putter_new id) v)
    (fun r t => forall b, r = Ok b -> commit_inserted t id (vm_payload v)) s.
Proof.
  intros Hs Hv Hgood. unfold insert_commit_locally. cbn [pt_sedimentree_id].
  rewrite load_tree_via_putter_eq. apply wp_bind_ok; [apply _|].
  eapply wp_mono; [apply _|by apply tree_hydrated_ref_spec; [apply loads_tree|]|].
  intros [was_added|e] s1 Hs1 Hg1 _; [|by apply wp_ret].
  apply wp_bind_ok; [apply _|]. eapply wp_mono; [apply _|apply wp_storage|].
  { by apply (law_save _ _ _ _ _ _ _ (st_commit_laws good_c good_f)); [apply Hs1|..]. }
  intros [[]|e] s2 Hs2 Hg2 Hsaved; [|by apply wp_ret].
  destruct (Hsaved eq_refl) as [Hid Hsv]. apply wp_bind_ok; [apply _|].
  eapply wp_mono; [apply _|apply (enter_commit_spec id (vm_payload v)); [by eexists|done..]|].
  intros [[]|e] s3 Hs3 Hg3 Hab; [|by apply wp_ret]. apply wp_ret. intros t Ht Hgt b [= <-].
  apply (commit_inserted_grows s3); [done|]. split_and!; [by apply (ng_storage _ _ Hg3)| |].
  - eapply saved_commit_grows; [apply Hg3|done].
  - by apply (Hab tt).
Qed.

Lemma insert_fragment_locally_spec id v s :
  node_inv s -> meta_ok v -> good_f id v ->
  wpn (insert_fragment_locally shards (Putter_new id) v)
    (fun r t => forall b, r = Ok b -> fragment_inserted t id (vm_payload v)) s.
Proof.
  intros Hs Hv Hgood. unfold insert_fragment_locally. cbn [pt_sedimentree_id].
  rewrite load_tree_via_putter_eq. apply wp_bind_ok; [apply _|].
  eapply wp_mono; [apply _|by apply tree_hydrated_ref_spec; [apply loads_tree|]|].
  intros [was_added|e] s1 Hs1 Hg1 _; [|by apply wp_ret].
  apply wp_bind_ok; [apply _|]. eapply wp_mono; [apply _|apply wp_storage|].
  { by apply (law_save _ _ _ _ _ _ _ (st_fragment_laws good_c good_f)); [apply Hs1|..]. }
  intros [[]|e] s2 Hs2 Hg2 Hsaved; [|by apply wp_ret].
  destruct (Hsaved eq_refl) as [Hid Hsv]. apply wp_bind_ok; [apply _|].
  eapply wp_mono; [apply _|apply (enter_fragment_spec id (vm_payload v)); [by eexists|done..]|].
  intros [[]|e] s3 Hs3 Hg3 Hab; [|by apply wp_ret]. apply wp_ret. intros t Ht Hgt b [= <-].
  apply (fragment_inserted_grows s3); [done|]. split_and!; [by apply (ng_storage _ _ Hg3)| |].
  - eapply saved_fragment_grows; [apply Hg3|done].
  - by apply (Hab tt).
Qed.

(** *** Reading *)

(** The result of a minimisation. *)
Definition minimal (tr : Sedimentree) : Prop :=
  exists full, keyed full /\ minimize m full = Some tr.

Lemma backed_minimize x id tr tr' :
  keyed tr -> minimize m tr = Some tr' -> backed x id tr -> backed x id tr'.
Proof.
  intros Hk Hm [Hc Hf]. destruct (minimize_entries m tr Hk) as (t' & Hm' & _ & Hf' & Hc').
  simplify_eq. split; intros k y Hy; [apply Hc' in Hy as [Hy _]|apply Hf' in Hy as [Hy _]]; eauto.
Qed.

Lemma ensure_minimized_ok t id ms :
  tree_ok t id ms ->
  exists ms', Minimized.ensure_minimized m ms = Some ms' /\ tree_ok t id ms' /\
    minimal (ms_tree ms').
Proof.
  intros [[Hk Hcl] Hb]. pose proof (Minimized.ensure_minimized_spec m ms Hk) as He.
  destruct (ms_dirty ms) eqn:Hd.
  - destruct He as (t' & Hm & ->). eexists. split; [done|]. split_and!; simpl; [|by exists (ms_tree ms)].
    split; [split; simpl; [by eapply minimize_keyed|by exists (ms_tree ms)]|].
    by eapply backed_minimize.
  - exists ms. split; [done|]. split_and!; [|by apply Hcl]. by split; [split; [|rewrite Hd]|].
Qed.

Lemma minimize_tree_spec id s : node_inv s -> wpn (minimize_tree shards m id) (fun _ _ => True) s.
Proof.
  intros Hs. unfold minimize_tree. apply wp_bind; [apply _|].
  eapply wp_cache; [apply Bounded.with_entry_op|]. intros s1 Hs1 Hg1.
  destruct (resident s1 !! id) as [ms|] eqn:Hms; cbn [Bounded.on_value].
  - destruct (ensure_minimized_ok s1 id ms) as (ms' & He & Hok & _); [by apply Hs1|].
    rewrite He. cbn [mbind option_bind]. eexists _, _. split; [done|].
    split_and!; [by intros ? [= <-]| |by intros; apply wp_ret].
    intros ? [= <-]. exists ms'. split; [done|]. by apply rtc_once, Minimized.step_ensure.
  - eexists _, _. split; [done|]. split_and!; [done..|]. intros. by apply wp_ret.
Qed.

(** [tr] is the minimised tree of the stored items: of those that are stored at [x], and at
    least one for each identity that was stored at [x0]. *)
Definition hydrates (x0 x : Sto) id (tr : Sedimentree) : Prop :=
  exists full, tree_loaded x0 x id (Some (Minimized.new full)) /\ minimize m full = Some tr.

Lemma tree_loaded_grows x0 x x' id o :
  st_grows x x' -> tree_loaded x0 x id o -> tree_loaded x0 x' id o.
Proof.
  intros Hg. destruct o as [ms|]; [|done]. intros (Hv & Hb & Hc & Hf).
  split_and!; [done|by eapply backed_grows|done..].
Qed.

Lemma tree_loaded_before x0 x0' x id o :
  st_grows x0 x0' -> tree_loaded x0' x id o -> tree_loaded x0 x id o.
Proof.
  intros (_ & Hc & Hf). destruct o as [ms|]; cbn [tree_loaded].
  - intros (Hv & Hb & Hc' & Hf'). split_and!; [done..| |]; intros v Hx; [apply Hc', Hc, Hx|apply Hf', Hf, Hx].
  - intros [Hc' Hf']. split; intros v Hx; [eapply Hc', Hc, Hx|eapply Hf', Hf, Hx].
Qed.

Lemma hydrates_ok x0 t id tr :
  hydrates x0 (nd_storage t) id tr -> minimal tr /\ tree_ok t id (Minimized.already_minimal tr).
Proof.
  intros (full & (Hv & Hb & _) & Hm). pose proof (Minimized.valid_keyed _ _ Hv) as Hk.
  simpl in *. assert (Hmin : minimal tr) by (by exists full). split; [done|].
  split; [split; [by eapply minimize_keyed|done]|by eapply backed_minimize].
Qed.

Definition stays_resident s id : Prop := unbounded s /\ is_Some (resident s !! id).

Lemma stays_resident_grows s t id :
  node_grows s t -> stays_resident s id -> stays_resident t id.
Proof.
  intros Hg [Hu [ms Hms]]. destruct (ng_trees _ _ Hg _ _ Hu Hms) as (ms' & Hms' & _).
  split; [|by eexists]. unfold unbounded in *. rewrite <- Hu. apply Hg.
Qed.

(** What a read returned: the resident tree at some moment of it, minimised, or the stored
    tree if there may have been none. *)
Definition tree_read s t id (tr : Sedimentree) : Prop :=
  minimal tr /\ backed (nd_storage t) id tr /\
  ((exists s1 ms ms', node_grows s s1 /\ node_grows s1 t /\ resident s1 !! id = Some ms /\
      Minimized.ensure_minimized m ms = Some ms' /\ ms_tree ms' = tr) \/
   (hydrates (nd_storage s) (nd_storage t) id tr /\ ~ stays_resident s id)).

(** Nothing was known of the tree. *)
Definition unknown (x : Sto) id : Prop :=
  (forall v, ~ st_commit x id v) /\ (forall v, ~ st_fragment x id v) /\ id ∉ st_ids x.

Lemma tree_read_before s s' t id tr :
  node_grows s s' -> tree_read s' t id tr -> tree_read s t id tr.
Proof.
  intros Hg (Hm & Hb & Hr). split_and!; [done..|]. destruct Hr as [(s1 & ms & ms' & ? & ?)|Hr].
  - left. exists s1, ms, ms'. split; [by etrans|done].
  - right. destruct Hr as [(full & Hl & ?) Hno]. split.
    + exists full. split; [|done]. eapply tree_loaded_before; [apply Hg|done].
    + intros Hst. by apply Hno, (stays_resident_grows s).
Qed.

Lemma unknown_before x x' id : st_grows x x' -> unknown x' id -> unknown x id.
Proof.
  intros (Hi & Hc & Hf) (Hnc & Hnf & Hni). split_and!.
  - intros v Hv. by eapply Hnc, Hc.
  - intros v Hv. by eapply Hnf, Hf.
  - intros Hin. by apply Hni, Hi.
Qed.

(** A hit: [f] minimises the resident tree and computes [r] from it. *)
Lemma wp_minimized_hit {R} id (f : MinimizedSedimentree -> option (MinimizedSedimentree * R))
    (P : Sedimentree -> R -> Prop) (Q : option R -> node -> Prop) s :
  (forall ms ms', Minimized.ensure_minimized m ms = Some ms' ->
     exists r, f ms = Some (ms', r) /\ P (ms_tree ms') r) ->
  node_inv s ->
  (forall r s1 ms ms' t, node_inv t -> node_inv s1 -> node_grows s s1 -> node_grows s1 t ->
     resident s1 !! id = Some ms -> Minimized.ensure_minimized m ms = Some ms' ->
     P (ms_tree ms') r -> minimal (ms_tree ms') -> backed (nd_storage s1) id (ms_tree ms') ->
     Q (Some r) t) ->
  (forall s1 t, node_inv s1 -> node_inv t -> node_grows s s1 -> node_grows s1 t ->
     resident s1 !! id = None -> Q None t) ->
  wpn (on_cache (Bounded.with_entry shards id f)) Q s.
Proof.
  intros Hf Hs Hhit Hmiss. eapply wp_cache; [apply Bounded.with_entry_op|]. intros s1 Hs1 Hg1.
  destruct (resident s1 !! id) as [ms|] eqn:Hms; cbn [Bounded.on_value].
  - destruct (ensure_minimized_ok s1 id ms) as (ms' & He & Hok & Hmin); [by apply Hs1|].
    destruct (Hf ms ms' He) as (r & -> & HP). cbn [mbind option_bind]. eexists _, _.
    split; [done|]. split_and!; [by intros ? [= <-]| |].
    + intros ? [= <-]. exists ms'. split; [done|]. by apply rtc_once, Minimized.step_ensure.
    + intros t Ht Hgt _. eapply (Hhit r s1); try done. apply Hok.
  - eexists _, _. split; [done|]. split_and!; [done..|]. intros t Ht Hgt _. by eapply (Hmiss s1).
Qed.

(** A tree that was resident at a moment of the read. *)
Lemma hit_tree_read s s1 t id ms ms' :
  node_grows s s1 -> node_grows s1 t -> resident s1 !! id = Some ms ->
  Minimized.ensure_minimized m ms = Some ms' -> minimal (ms_tree ms') ->
  backed (nd_storage s1) id (ms_tree ms') -> tree_read s t id (ms_tree ms').
Proof.
  intros Hg1 Hgt Hms He Hmin Hb. split_and!; [done| |left; by exists s1, ms, ms'].
  eapply backed_grows; [by apply ng_storage|done].
Qed.

Lemma install_read_spec {R} (r : R) x0 id tr s :
  node_inv s -> hydrates x0 (nd_storage s) id tr ->
  wpn (await _ := on_cache (Bounded.get_or_insert_with shards id (Minimized.already_minimal tr)) in
       Ret r) (fun r' t => r' = r /\ node_grows s t) s.
Proof.
  intros Hs Hh. apply wp_bind; [apply _|].
  eapply wp_cache; [apply Bounded.get_or_insert_with_op|]. intros s1 Hs1 Hg1.
  eexists _, _. split; [done|]. split_and!.
  - intros ms [= <-]. destruct (resident s1 !! id) as [ms|] eqn:Hms; simpl; [by apply Hs1|].
    eapply (tree_ok_grows s); [apply Hg1|]. by eapply hydrates_ok.
  - intros ms ->. by exists ms.
  - intros t Ht Hgt _. apply wp_ret. intros u Hu Hgu. split; [done|].
    by do 2 (etrans; [done|]).
Qed.

Lemma wp_or_panic {A} (o : option A) (a : A) (Q : A -> node -> Prop) s :
  o = Some a -> (forall t, node_inv t -> node_grows s t -> Q a t) -> wpn (or_panic o) Q s.
Proof.
  intros -> HQ. apply wp_act. intros t Ht Hg. exists t, a. split_and!; [done..|].
  intros u Hu Hgu. apply HQ; [done|by etrans].
Qed.

(** The two loads of a node, and what is made of them. *)
Lemma wp_node_metas {R} id (k : list LooseCommit -> list Fragment -> task node (result E R)) Q s :
  node_inv s ->
  (forall cs fs t, node_inv t -> node_grows s t ->
     tree_loaded (nd_storage s) (nd_storage t) id (tree_of cs fs) ->
     tree_loaded (nd_storage s) (nd_storage t) id (Some (Minimized.new (Sedimentree_new fs cs))) ->
     wpn (k cs fs) Q t) ->
  (forall e t, node_inv t -> read_failed st_grows st_fails e (nd_storage s) (nd_storage t) -> Q (Err e) t) ->
  wpn (await? cs := on_storage (local_load_loose_commit_metas id) in
       await? fs := on_storage (local_load_fragment_metas id) in k cs fs) Q s.
Proof.
  intros Hs Hk He. apply wp_bind_ok; [apply _|].
  eapply wp_mono; [apply _|apply wp_storage|].
  { apply (law_metas _ _ _ _ _ _ _ (st_commit_laws good_c good_f)), Hs. }
  intros [cs|e] s1 Hs1 Hg1 Hcs.
  2:{ apply wp_ret. intros t Ht Hg. apply He; [done|].
      by eapply read_failed_grows; [apply _|reflexivity|exact Hcs|apply Hg]. }
  destruct Hcs as [Hc Hac]. apply wp_bind_ok; [apply _|].
  eapply wp_mono; [apply _|apply wp_storage|].
  { apply (law_metas _ _ _ _ _ _ _ (st_fragment_laws good_c good_f)), Hs1. }
  intros [fs|e] s2 Hs2 Hg2 Hfs.
  2:{ apply wp_ret. intros t Ht Hg. apply He; [done|].
      by eapply read_failed_grows; [apply _|apply Hg1|exact Hfs|apply Hg]. }
  destruct Hfs as [Hf Haf].
  destruct (tree_of_loaded (nd_storage s) (nd_storage s2) id cs fs) as [H1' H2'].
  - intros c Hin. destruct (Hc c Hin) as (v & Hv & ?). exists v. split; [|done].
    by apply (ng_storage _ _ Hg2).
  - done.
  - done.
  - intros v Hv. apply Haf. by apply (ng_storage _ _ Hg1).
  - apply Hk; [done|by etrans|done..].
Qed.

Lemma tree_of_None cs fs :
  bool_decide (cs = []) && bool_decide (fs = []) = true ->
  tree_of cs fs = None /\ Sedimentree_new fs cs = Sedimentree_empty.
Proof.
  intros Hb. unfold tree_of. rewrite Hb.
  by apply andb_true_iff in Hb as [->%bool_decide_eq_true ->%bool_decide_eq_true].
Qed.

Lemma get_or_hydrate_spec id s :
  node_inv s ->
  wpn (get_or_hydrate shards m id)
    (fun r t => (forall tr, r = Ok (Some tr) -> tree_read s t id tr) /\
                (r = Ok None -> unknown (nd_storage s) id) /\
                (forall e, r = Err e -> read_failed st_grows st_fails e (nd_storage s) (nd_storage t))) s.
Proof.
  intros Hs. unfold get_or_hydrate. apply wp_bind; [apply _|].
  apply (wp_minimized_hit id _ (fun tr r => r = tr)); [|done| |].
  - intros ms ms' He. unfold Minimized.minimized. rewrite He. by eexists.
  - intros tr s1 ms ms' t Ht Hs1 Hg1 Hgt Hms He -> Hmin Hb. apply wp_ret. intros u Hu Hgu.
    split; [|done]. intros ? [= <-]. by eapply (hit_tree_read s s1); [..|etrans|done|done|done|].
  - intros s1 t Hs1 Ht Hg1 Hgt Hmiss.
    assert (Hno : ~ stays_resident s id).
    { intros Hst. destruct (stays_resident_grows _ _ _ Hg1 Hst) as [_ [ms Hms]]. congruence. }
    apply wp_node_metas; [done| |].
    2:{ intros e t' Ht' Hfail. split_and!; [done..|]. intros ? [= <-].
        eapply read_failed_grows; [apply _| |exact Hfail|reflexivity]. etrans; [apply Hg1|apply Hgt]. }
    intros cs fs t1 Ht1 Hgt1 Hnone Hsome.
    assert (Hg : node_grows s t1) by (by do 2 (etrans; [done|])).
    assert (Hst : st_grows (nd_storage s) (nd_storage t)) by (etrans; [apply Hg1|apply Hgt]).
    apply (tree_loaded_before _ _ _ _ _ Hst) in Hnone, Hsome.
    destruct (minimize_entries m (Sedimentree_new fs cs)) as (tr & Hm & _); [apply keyed_new|].
    assert (Hh : hydrates (nd_storage s) (nd_storage t1) id tr) by (by eexists).
    assert (Hread : forall R (r : R) t2, node_inv t2 -> node_grows t1 t2 ->
      wpn (await _ := on_cache (Bounded.get_or_insert_with shards id (Minimized.already_minimal tr)) in
           Ret r) (fun r' u => r' = r /\ tree_read s u id tr) t2).
    { intros R r t2 Ht2 Hg2.
      assert (Hread : forall u, node_grows t2 u -> hydrates (nd_storage s) (nd_storage u) id tr).
      { intros u Hgu. destruct Hh as (full & Hl & Hm'). exists full. split; [|done].
        eapply tree_loaded_grows; [|done]. etrans; [apply Hg2|apply Hgu]. }
      eapply wp_mono; [apply _|by eapply install_read_spec; [|apply Hread]|].
      intros r' u Hu _ [-> Hgu]. split; [done|]. specialize (Hread u Hgu).
      destruct (hydrates_ok _ _ _ _ Hread) as [Hmin [_ Hb]]. split_and!; [done..|]. by right. }
    destruct (_ && _) eqn:Hbd.
    + apply tree_of_None in Hbd as [Hto Hnew]. rewrite Hto in Hnone.
      rewrite Hnew, Minimized.minimize_empty in Hm. injection Hm as <-.
      apply wp_bind_ok; [apply _|]. eapply wp_mono; [apply _|apply wp_storage|].
      { apply (st_contains good_c good_f), Ht1. }
      intros [[]|e] t2 Ht2 Hgt2 Hreg.
      3:{ apply wp_ret. intros u Hu Hgu. split_and!; [done..|]. intros ? [= <-].
          eapply read_failed_grows; [apply _|apply Hg|exact Hreg|apply Hgu]. }
      * eapply wp_mono; [apply _|by apply Hread|]. intros r u _ _ [-> Hr].
        split_and!; [|done..]. by intros ? [= <-].
      * destruct Hreg as [_ Hreg']. apply wp_ret. intros u Hu Hgu. split_and!; [done| |done].
        intros _. destruct Hnone. split_and!; [done..|]. intros Hin.
        apply Hreg'; [done|]. by apply (ng_storage _ _ Hg).
    + apply wp_bind; [apply _|]. apply (wp_or_panic _ tr); [done|]. intros t2 Ht2 Hg2.
      eapply wp_mono; [apply _|by apply Hread|]. intros r u _ _ [-> Hr].
      split; [|done]. by intros ? [= <-].
Qed.

Lemma heads_or_hydrate_spec id s :
  node_inv s ->
  wpn (heads_or_hydrate shards m id)
    (fun r t => (forall hs, r = Ok (Some hs) ->
                   exists tr, hs = heads_assuming_minimal tr /\ tree_read s t id tr) /\
                (r = Ok None -> unknown (nd_storage s) id)) s.
Proof.
  intros Hs. unfold heads_or_hydrate. apply wp_bind; [apply _|].
  apply (wp_minimized_hit id _ (fun tr r => r = heads_assuming_minimal tr)); [|done| |].
  - intros ms ms' He. unfold Minimized.heads. rewrite He. by eexists.
  - intros hs s1 ms ms' t Ht Hs1 Hg1 Hgt Hms He -> Hmin Hb. apply wp_ret. intros u Hu Hgu.
    split; [|done]. intros ? [= <-]. exists (ms_tree ms'). split; [done|].
    by eapply (hit_tree_read s s1); [..|etrans|done|done|done|].
  - intros s1 t Hs1 Ht Hg1 Hgt _. assert (Hg : node_grows s t) by (by etrans).
    apply wp_bind_ok; [apply _|].
    eapply wp_mono; [apply _|by apply wp_from_then_on; [apply _|apply get_or_hydrate_spec]|].
    intros [o|e] t1 Ht1 Hg1' Hr; apply wp_ret; [|done]. intros u Hu Hgu.
    destruct (Hr u Hu Hgu) as [Hsome Hnone]. split.
    + intros hs Hhs. destruct o as [tr|]; [|done]. injection Hhs as <-. exists tr.
      split; [done|]. by eapply tree_read_before; [|apply Hsome].
    + intros Hn. destruct o; [done|]. eapply unknown_before; [apply Hg|by apply Hnone].
Qed.

(** *** A batch sync response *)

(** What the policy's leave means, and that it is enough for an item that was checked. *)
Context (approved : PeerId -> PeerId -> SedimentreeId -> Prop).
Context (Happroved : forall peer author id p,
  wp (fun _ => True) (fun _ _ => True) (authorize_put (P:=Pol) peer author id)
    (fun r _ => r = Ok tt -> approved peer author id) p).
Context (Hgood_c : forall peer id v, checked v -> approved peer (verified_author v) id -> good_c id v).
Context (Hgood_f : forall peer id v, checked v -> approved peer (verified_author v) id -> good_f id v).

(** The policy never refuses. *)
Definition grants (peer author : PeerId) id : Prop :=
  forall p, wp (fun _ => True) (fun _ _ => True) (authorize_put (P:=Pol) peer author id)
    (fun r _ => r = Ok tt) p.

Section sorting.
Context {T : Type} `{!Schema T, !EncodeFields T, !DecodeFields T, !HasBlobMeta T}.
Context (from : PeerId) (id : SedimentreeId).

(** The item is well signed, and is what arrived. *)
Definition from_wire (v : VerifiedMeta T) (item : Signed T * Blob) : Prop :=
  checked v /\ to_wire v = item.

Definition putters_ok (cache : gmap PeerId Putter) : Prop :=
  forall a p, cache !! a = Some p -> p = Putter_new id /\ approved from a id.

(** After the items of [seen]: what is grouped is checked and has a putter, and what is
    well signed, by an author whom the policy grants, is grouped. *)
Record grouped (cache0 : gmap PeerId Putter) (seen : list (Signed T * Blob))
    (st : gmap PeerId Putter * gmap PeerId (list (VerifiedMeta T))) : Prop := {
  gr_putters : putters_ok st.1;
  gr_keeps : cache0 ⊆ st.1;
  gr_items a l v : st.2 !! a = Some l -> v ∈ l ->
    is_Some (st.1 !! a) /\ verified_author v = a /\ exists item, item ∈ seen /\ from_wire v item;
  gr_complete v item : item ∈ seen -> from_wire v item -> grants from (verified_author v) id ->
    exists l, st.2 !! verified_author v = Some l /\ v ∈ l
}.

Lemma from_wire_unique v signed blob verified vm :
  try_from_signed signed = Ok verified -> VerifiedMeta_new verified blob = Ok vm ->
  from_wire v (signed, blob) -> v = vm.
Proof.
  intros Ht Hn [(verified' & Ht' & Hn') [= <- <-]]. congruence.
Qed.

(** An item that is dropped: it is not well signed, or not granted. *)
Lemma grouped_drop cache0 seen st item :
  grouped cache0 seen st ->
  (forall v, from_wire v item -> ~ grants from (verified_author v) id) ->
  grouped cache0 (seen ++ [item]) st.
Proof.
  intros [Hp Hk Hi Hc] Hdrop. split; [done..| |].
  - intros a l v Ha Hv. destruct (Hi a l v Ha Hv) as (? & ? & it & ? & ?).
    split_and!; [done..|]. exists it. split; [|done]. apply elem_of_app. by left.
  - intros v it [Hin| ->%list_elem_of_singleton]%elem_of_app Hw Hg; [by eapply Hc|].
    by destruct (Hdrop v Hw).
Qed.

Lemma grouped_push cache0 seen cache cache' by_author item v :
  grouped cache0 seen (cache, by_author) -> from_wire v item ->
  cache ⊆ cache' -> putters_ok cache' -> is_Some (cache' !! verified_author v) ->
  grouped cache0 (seen ++ [item])
    (cache', <[verified_author v := default [] (by_author !! verified_author v) ++ [v]]> by_author).
Proof.
  intros [Hp Hk Hi Hc] Hw Hsub Hp' Ha. split; cbn [fst snd] in *; [done|by etrans| |].
  - intros a l w. destruct (decide (a = verified_author v)) as [-> |Hne].
    + rewrite lookup_insert_eq. intros [= <-] [Hin| ->%list_elem_of_singleton]%elem_of_app.
      * destruct (by_author !! verified_author v) as [l|] eqn:Hl; [|by apply not_elem_of_nil in Hin].
        destruct (Hi _ l w Hl Hin) as (_ & ? & it & ? & ?). split_and!; [done..|]. exists it.
        split; [|done]. apply elem_of_app. by left.
      * split_and!; [done..|]. exists item. split; [|done]. apply elem_of_app. right. by left.
    + rewrite lookup_insert_ne by done. intros Hl Hin.
      destruct (Hi a l w Hl Hin) as ([p Hpa] & ? & it & ? & ?). split_and!.
      * exists p. by eapply lookup_weaken.
      * done.
      * exists it. split; [|done]. apply elem_of_app. by left.
  - intros w it Hin Hww Hg. destruct (decide (verified_author w = verified_author v)) as [He|Hne].
    + rewrite He, lookup_insert_eq. eexists. split; [done|]. apply elem_of_app.
      apply elem_of_app in Hin as [Hin| ->%list_elem_of_singleton].
      * left. destruct (Hc w it Hin Hww Hg) as (l & Hl & Hw'). rewrite <- He, Hl. done.
      * right. destruct item as [signed blob]. destruct Hw as [(vs & Ht & Hn) [= <- <-]].
        rewrite (from_wire_unique w _ _ _ _ Ht Hn Hww). by left.
    + rewrite lookup_insert_ne by done. apply elem_of_app in Hin as [Hin| ->%list_elem_of_singleton].
      * by eapply Hc.
      * destruct item as [signed blob]. destruct Hw as [(vs & Ht & Hn) [= <- <-]].
        by rewrite (from_wire_unique w _ _ _ _ Ht Hn Hww) in Hne.
Qed.

Lemma get_putter_spec author s :
  wpn (on_policy (get_putter from author id))
    (fun r _ => match r with
       | Ok p => p = Putter_new id /\ approved from author id
       | Err _ => ~ grants from author id
       end) s.
Proof.
  assert (PreOrder (fun _ _ : Pol => True)) by (by split).
  apply (wp_policy _ (fun r => match r with
    | Ok p => p = Putter_new id /\ approved from author id
    | Err _ => ~ grants from author id
    end)).
  unfold get_putter. apply wp_bind_ok; [done|].
  eapply wp_mono; [done|eapply (wp_and_impl _ _ _ _ (grants from author id)); [apply Happroved|]|].
  - intros Hg. apply Hg.
  - intros [[]|e] p _ _ [Ha Hg]; apply wp_ret; intros _ _ _; [by split; [|apply Ha]|].
    intros Hgr. by apply Hg in Hgr.
Qed.

Lemma sort_item_spec cache0 seen st item s :
  grouped cache0 seen st ->
  wpn (sort_item from id st item) (fun st' _ => grouped cache0 (seen ++ [item]) st') s.
Proof.
  intros Hgr. destruct st as [cache by_author], item as [signed blob]. unfold sort_item.
  destruct (try_from_signed signed) as [verified|] eqn:Ht.
  2:{ apply wp_ret. intros _ _ _. apply grouped_drop; [done|].
      intros v [(vs & Ht' & _) [= <- <-]]. congruence. }
  destruct (VerifiedMeta_new verified blob) as [v|] eqn:Hn.
  2:{ apply wp_ret. intros _ _ _. apply grouped_drop; [done|].
      intros v [(vs & Ht' & Hn') [= <- <-]]. congruence. }
  destruct (verified_meta_ok _ _ _ _ Ht Hn) as (_ & <- & <-).
  assert (Hw : from_wire v (to_wire v)) by (split; [by exists verified|done]).
  destruct (cache !! verified_author v) as [p|] eqn:Hp.
  - apply wp_ret. intros _ _ _. eapply grouped_push; [done..|by apply Hgr|by eexists].
  - apply wp_bind; [apply _|]. eapply wp_mono; [apply _|apply get_putter_spec|].
    intros [p|e] t _ _ Hr; apply wp_ret; intros _ _ _.
    + destruct Hr as [-> Ha]. eapply grouped_push; [done..|by apply insert_subseteq| |].
      * intros a p. rewrite lookup_insert_Some. intros [[<- <-]|[_ Ha']]; [done|].
        by apply Hgr in Ha'.
      * rewrite lookup_insert_eq. by eexists.
    + apply grouped_drop; [done|]. intros w Hww.
      by rewrite (from_wire_unique w _ _ _ _ Ht Hn Hww).
Qed.

Lemma sort_items_spec cache items s :
  node_inv s -> putters_ok cache ->
  wpn (sort_items from id cache items) (fun st _ => grouped cache items st) s.
Proof.
  intros Hs Hp. apply (wp_tfor node_inv node_grows (sort_item from id) (grouped cache) [] items);
    [|done|].
  - intros seen st item t _ _ Hst. by apply sort_item_spec.
  - split; cbn [fst snd]; [done..| |]; intros *; [by rewrite lookup_empty|].
    by intros Hin%not_elem_of_nil.
Qed.
End sorting.

Lemma filter_unseen_in {T} `{!Item T} seen (items : list (VerifiedMeta T)) v :
  v ∈ filter_unseen seen items -> v ∈ items.
Proof.
  revert seen. induction items as [|w items IH]; intros seen; simpl; [done|].
  case_bool_decide; [by intros Hv%IH; right|].
  intros [-> |Hv%IH]%elem_of_cons; [left|by right].
Qed.

(** Adding the items of a batch, one by one. *)
Lemma enter_all_spec {T} (items : list T) (body : T -> task node (result E bool))
    (P : node -> T -> Prop) s :
  (forall s t x, P s x -> node_grows s t -> unbounded t -> P t x) ->
  (forall x t, x ∈ items -> node_inv t -> node_grows s t ->
     wpn (body x) (fun r u => forall b, r = Ok b -> unbounded u -> P u x) t) ->
  node_inv s ->
  wpn (tfold (fun _ x => tmap_err (F := IoError E SendErr) IoStorage (body x)) false items)
    (fun r t => forall b, r = Ok b -> unbounded t -> forall x, x ∈ items -> P t x) s.
Proof.
  intros Hstable Hbody Hs.
  pose proof (wp_tfold node_inv node_grows
    (fun _ x => tmap_err (F := IoError E SendErr) IoStorage (body x))
    (fun seen _ t => node_grows s t /\ (unbounded t -> forall x, x ∈ seen -> P t x))
    [] items false s) as Hloop.
  eapply wp_mono; [apply _|apply Hloop; [| |done|]|].
  - intros seen b t t' [Hgt Hseen] _ Hg. split; [by etrans|]. intros Hu x Hx.
    eapply Hstable; [|done|done]. apply Hseen; [by eapply unbounded_back|done].
  - intros seen b x t Hx Ht [Hgt Hseen]. apply wp_tmap_err; [apply _|].
    eapply wp_mono; [apply _|by apply Hbody|]. intros r t' Ht' Hg Hr b' ->.
    split; [by etrans|]. intros Hu y.
    intros [Hy| ->%list_elem_of_singleton]%elem_of_app; [|by eapply Hr].
    eapply Hstable; [|done|done]. apply Hseen; [by eapply unbounded_back|done].
  - split; [done|]. by intros _ x Hx%not_elem_of_nil.
  - intros r t _ _ Hr b ->. by apply (Hr b eq_refl).
Qed.

(** What the batch of an author leaves. *)
Definition batch_inserted t id (cs : list (VerifiedMeta LooseCommit))
    (fs : list (VerifiedMeta Fragment)) : Prop :=
  (forall v, v ∈ cs -> commit_inserted t id (vm_payload v)) /\
  (forall v, v ∈ fs -> fragment_inserted t id (vm_payload v)).

Lemma ingest_author_spec id cs fs ing s :
  node_inv s ->
  (forall v, v ∈ cs -> meta_ok v /\ good_c id v) -> (forall v, v ∈ fs -> meta_ok v /\ good_f id v) ->
  wpn (ingest_author (SendErr := SendErr) shards id (Putter_new id) cs fs ing)
    (fun r t => forall ing', r = Ok ing' -> batch_inserted t id cs fs /\
       exists seen_c seen_f,
         ing_commits ing' = ing_commits ing ++ (to_wire <$> filter_unseen seen_c cs) /\
         ing_fragments ing' = ing_fragments ing ++ (to_wire <$> filter_unseen seen_f fs)) s.
Proof.
  intros Hs Hcs Hfs. unfold ingest_author. rewrite load_tree_via_putter_eq.
  apply wp_bind_ok; [apply _|].
  eapply wp_mono; [apply _|apply wp_tmap_err; [apply _|]|].
  { eapply wp_mono; [apply _|apply tree_hydrated_ref_spec; [apply loads_tree|done]|].
    intros r t _ _ _ a _. exact I. }
  intros [seen|e] s1 Hs1 Hg1 _; [|by apply wp_ret].
  destruct (default (∅, ∅) seen) as [seen_c seen_f]. apply wp_bind_ok; [apply _|].
  eapply wp_mono; [apply _|apply (wp_tmap_err _ _ _ _ (fun _ t => id ∈ st_ids (nd_storage t) /\
    (forall v, v ∈ cs -> saved st_commit (nd_storage t) id (vm_payload v)) /\
    (forall v, v ∈ fs -> saved st_fragment (nd_storage t) id (vm_payload v))))|].
  { eapply wp_mono; [apply _|apply wp_storage|].
    - by apply (st_save_batch good_c good_f); [apply Hs1|..].
    - intros r t _ _ Hr k Hk. by destruct (Hr k Hk). }
  intros [k|e] s2 Hs2 Hg2 Hsaved; [|by apply wp_ret].
  destruct (Hsaved k eq_refl) as (Hid & Hsc & Hsf). clear Hsaved. apply wp_bind_ok; [apply _|].
  eapply wp_mono; [apply _|apply (enter_all_spec _ _ (fun t c => absorbed_commit t id c))|].
  { intros t t' c Hab Hg Hu. by eapply absorbed_commit_grows. }
  { intros c t (v & -> & Hv)%list_elem_of_fmap Ht Hg. apply enter_commit_spec; [|done|].
    - intros ms. destruct (Minimized.add_commit ms (vm_payload v)). by eexists.
    - eapply saved_commit_grows; [apply Hg|by apply Hsc]. }
  { done. }
  intros [b|e] s3 Hs3 Hg3 Hab; [|by apply wp_ret]. specialize (Hab b eq_refl).
  apply wp_bind_ok; [apply _|].
  eapply wp_mono; [apply _|apply (enter_all_spec _ _ (fun t f => absorbed_fragment t id f))|].
  { intros t t' f Haf Hg Hu. by eapply absorbed_fragment_grows. }
  { intros f t (v & -> & Hv)%list_elem_of_fmap Ht Hg. apply enter_fragment_spec; [|done|].
    - intros ms. destruct (Minimized.add_fragment ms (vm_payload v)). by eexists.
    - eapply saved_fragment_grows; [|by apply Hsf]. etrans; [apply Hg3|apply Hg]. }
  { done. }
  intros [b'|e] s4 Hs4 Hg4 Haf; [|by apply wp_ret]. specialize (Haf b' eq_refl).
  apply wp_ret. intros t Ht Hgt ing' [= <-]. split; [|by exists seen_c, seen_f].
  assert (Hg : node_grows s2 s4) by (by etrans). split; intros v Hv.
  - apply (commit_inserted_grows s4); [done|]. split_and!; [by apply (ng_storage _ _ Hg)| |].
    + eapply saved_commit_grows; [apply Hg|by apply Hsc].
    + intros Hu. apply (absorbed_commit_grows s3); [done|done|]. apply Hab; [by eapply unbounded_back|].
      by apply list_elem_of_fmap_2.
  - apply (fragment_inserted_grows s4); [done|]. split_and!; [by apply (ng_storage _ _ Hg)| |].
    + eapply saved_fragment_grows; [apply Hg|by apply Hsf].
    + intros Hu. apply Haf; [done|]. by apply list_elem_of_fmap_2.
Qed.

(** A response that was taken in. *)
Record response_ingested t (from : PeerId) id (diff : SyncDiff) (ing : Ingested) : Prop := {
  ri_commits v item : item ∈ sd_missing_commits diff -> from_wire v item ->
    grants from (verified_author v) id -> commit_inserted t id (vm_payload v);
  ri_fragments v item : item ∈ sd_missing_fragments diff -> from_wire v item ->
    grants from (verified_author v) id -> fragment_inserted t id (vm_payload v);
  ri_new_commits item : item ∈ ing_commits ing -> item ∈ sd_missing_commits diff /\
    exists v, from_wire v item /\ approved from (verified_author v) id /\
      commit_inserted t id (vm_payload v);
  ri_new_fragments item : item ∈ ing_fragments ing -> item ∈ sd_missing_fragments diff /\
    exists v, from_wire v item /\ approved from (verified_author v) id /\
      fragment_inserted t id (vm_payload v)
}.

(** What is in a group. *)
Lemma grouped_in {T} `{!Schema T, !EncodeFields T, !DecodeFields T, !HasBlobMeta T}
    from id cache0 items (st : gmap PeerId Putter * gmap PeerId (list (VerifiedMeta T))) a v :
  grouped from id cache0 items st -> v ∈ default [] (st.2 !! a) ->
  verified_author v = a /\ from_wire v (to_wire v) /\ to_wire v ∈ items /\ approved from a id /\
  meta_ok v.
Proof.
  intros Hgr Hv. destruct (st.2 !! a) as [l|] eqn:Hl; [|by apply not_elem_of_nil in Hv].
  destruct (gr_items _ _ _ _ _ Hgr a l v Hl Hv) as ([p Hp] & Ha & it & Hin & Hw).
  destruct (gr_putters _ _ _ _ _ Hgr a p Hp) as [_ Hap]. pose proof Hw as [(vs & Ht & Hn) <-].
  split_and!; [done..|]. by eapply verified_meta_ok.
Qed.

Lemma grouped_putter {T} `{!Schema T, !EncodeFields T, !DecodeFields T, !HasBlobMeta T}
    from id cache0 items (st : gmap PeerId Putter * gmap PeerId (list (VerifiedMeta T))) a v :
  grouped from id cache0 items st -> v ∈ default [] (st.2 !! a) -> is_Some (st.1 !! a).
Proof.
  intros Hgr Hv. destruct (st.2 !! a) as [l|] eqn:Hl; [|by apply not_elem_of_nil in Hv].
  by destruct (gr_items _ _ _ _ _ Hgr a l v Hl Hv).
Qed.

(** Both groups of a response. *)
Section response.
Context (from : PeerId) (id : SedimentreeId) (diff : SyncDiff).
Context (cache1 cache : gmap PeerId Putter).
Context (by_c : gmap PeerId (list (VerifiedMeta LooseCommit))).
Context (by_f : gmap PeerId (list (VerifiedMeta Fragment))).
Context (Hgc : grouped from id ∅ (sd_missing_commits diff) (cache1, by_c)).
Context (Hgf : grouped from id cache1 (sd_missing_fragments diff) (cache, by_f)).

Definition author_done t a : Prop :=
  batch_inserted t id (default [] (by_c !! a)) (default [] (by_f !! a)).

(** The new items are among the grouped ones. *)
Definition new_from_groups (ing : Ingested) : Prop :=
  (forall item, item ∈ ing_commits ing ->
     exists a v, is_Some (by_c !! a) /\ v ∈ default [] (by_c !! a) /\ to_wire v = item) /\
  (forall item, item ∈ ing_fragments ing ->
     exists a v, is_Some (by_f !! a) /\ v ∈ default [] (by_f !! a) /\ to_wire v = item).

Lemma author_done_grows t t' a : node_grows t t' -> author_done t a -> author_done t' a.
Proof.
  intros Hg [Hc Hf]. split; intros v Hv.
  - by eapply commit_inserted_grows; [|apply Hc].
  - by eapply fragment_inserted_grows; [|apply Hf].
Qed.

Lemma author_spec ing a s :
  node_inv s -> new_from_groups ing ->
  wpn (match cache !! a with
       | None => Ret (Ok ing)
       | Some putter =>
           ingest_author (SendErr := SendErr) shards id putter (default [] (by_c !! a))
             (default [] (by_f !! a)) ing
       end)
    (fun r t => forall ing', r = Ok ing' -> new_from_groups ing' /\ author_done t a) s.
Proof.
  intros Hs [Hnc Hnf]. destruct (cache !! a) as [putter|] eqn:Hp.
  - destruct (gr_putters _ _ _ _ _ Hgf a putter Hp) as [-> _].
    eapply wp_mono; [apply _|apply ingest_author_spec; [done|..]|].
    + intros v Hv. destruct (grouped_in _ _ _ _ _ _ _ Hgc Hv) as (Ha & [Hck _] & _ & Hap & Hok).
      split; [done|]. eapply Hgood_c; [done|]. by rewrite Ha.
    + intros v Hv. destruct (grouped_in _ _ _ _ _ _ _ Hgf Hv) as (Ha & [Hck _] & _ & Hap & Hok).
      split; [done|]. eapply Hgood_f; [done|]. by rewrite Ha.
    + intros r t _ _ Hr ing' ->. destruct (Hr ing' eq_refl) as (Hb & sc & sf & Hc & Hf).
      split; [|done]. unfold new_from_groups. rewrite Hc, Hf. split; intros item.
      * intros [Hi|(v & -> & Hv%filter_unseen_in)%list_elem_of_fmap]%elem_of_app; [by apply Hnc|].
        exists a, v. split_and!; [|done..]. destruct (by_c !! a); [by eexists|].
        by apply not_elem_of_nil in Hv.
      * intros [Hi|(v & -> & Hv%filter_unseen_in)%list_elem_of_fmap]%elem_of_app; [by apply Hnf|].
        exists a, v. split_and!; [|done..]. destruct (by_f !! a); [by eexists|].
        by apply not_elem_of_nil in Hv.
  - apply wp_ret. intros t _ _ ing' [= <-]. split; [done|]. split; intros v Hv.
    + destruct (grouped_putter _ _ _ _ _ _ _ Hgc Hv) as [p Hp']. cbn [fst] in Hp'.
      pose proof (lookup_weaken _ _ _ _ Hp' (gr_keeps _ _ _ _ _ Hgf)). cbn [fst] in *. congruence.
    + destruct (grouped_putter _ _ _ _ _ _ _ Hgf Hv) as [p Hp']. cbn [fst] in Hp'. congruence.
Qed.

Lemma all_authors_done t ing :
  new_from_groups ing ->
  (forall a, is_Some (by_c !! a) \/ is_Some (by_f !! a) -> author_done t a) ->
  response_ingested t from id diff ing.
Proof.
  intros [Hnc Hnf] Hall. split.
  - intros v item Hin Hw Hg. destruct (gr_complete _ _ _ _ _ Hgc v item Hin Hw Hg) as (l & Hl & Hv).
    cbn [snd] in Hl. destruct (Hall (verified_author v)) as [Hc _]; [left; by eexists|].
    apply Hc. by rewrite Hl.
  - intros v item Hin Hw Hg. destruct (gr_complete _ _ _ _ _ Hgf v item Hin Hw Hg) as (l & Hl & Hv).
    cbn [snd] in Hl. destruct (Hall (verified_author v)) as [_ Hf]; [right; by eexists|].
    apply Hf. by rewrite Hl.
  - intros item Hi. destruct (Hnc item Hi) as (a & v & Ha & Hv & <-).
    destruct (grouped_in _ _ _ _ _ _ _ Hgc Hv) as (<- & Hw & Hin & Hap & _).
    split; [done|]. exists v. split_and!; [done..|]. by apply (Hall (verified_author v)); [left|].
  - intros item Hi. destruct (Hnf item Hi) as (a & v & Ha & Hv & <-).
    destruct (grouped_in _ _ _ _ _ _ _ Hgf Hv) as (<- & Hw & Hin & Hap & _).
    split; [done|]. exists v. split_and!; [done..|]. by apply (Hall (verified_author v)); [right|].
Qed.
End response.

Lemma recv_batch_sync_response_spec from id diff s :
  node_inv s ->
  wpn (recv_batch_sync_response (SendErr := SendErr) shards from id diff)
    (fun r t => forall ing, r = Ok ing -> response_ingested t from id diff ing) s.
Proof.
  intros Hs. unfold recv_batch_sync_response. apply wp_bind; [apply _|].
  eapply wp_mono; [apply _|apply (sort_items_spec from id ∅); [done|]|].
  { intros a p. by rewrite lookup_empty. }
  intros [cache1 by_c] s1 Hs1 Hg1 Hgc. apply wp_bind; [apply _|].
  eapply wp_mono; [apply _|apply sort_items_spec; [done|apply Hgc]|].
  intros [cache by_f] s2 Hs2 Hg2 Hgf.
  eapply wp_mono; [apply _|eapply (wp_tfold node_inv node_grows _ (fun seen ing t =>
    new_from_groups by_c by_f ing /\ forall a, a ∈ seen -> author_done id by_c by_f t a) [])|].
  - intros seen ing t t' [Hfg Hseen] _ Hg. split; [done|]. intros a Ha.
    eapply author_done_grows; eauto.
  - intros seen ing a t _ Ht [Hfg Hseen]. cbv beta.
    eapply wp_mono; [apply _|by eapply author_spec|]. intros r t' Ht' Hg Hr ing' ->.
    destruct (Hr ing' eq_refl) as [Hfg' Hd]. split; [done|].
    intros b [Hb| ->%list_elem_of_singleton]%elem_of_app; [|done].
    eapply author_done_grows; eauto.
  - done.
  - split; [|by intros a Ha%not_elem_of_nil]. by split; intros item Hi%not_elem_of_nil.
  - intros r t _ _ Hr ing ->. destruct (Hr ing eq_refl) as [Hfg Hd].
    eapply all_authors_done; [done..|]. intros a Ha. apply Hd. simpl.
    apply elem_of_hashset_iter, elem_of_list_to_set, elem_of_app.
    by destruct Ha; [left|right]; apply elem_of_hash_keys.
Qed.
End ingest_spec.
