(* ===== verification/IngestPool.v ===== *)
(** The ingestion tasks of a node, run together.

    A [request] is a call of one of the tasks of [Ingest.v]. A pool runs any number of
    them, interleaved at every critical section, and new ones arrive at any time. The
    theorems hold for any backend that keeps the contract of [StorageLaws], and for any
    policy. The last part shows, by schedules that are executed, what a bound on the
    number of resident trees costs, and how a covered commit is taken for a new one. *)

From Stdlib Require Import Strings.Byte NArith Lia.
From stdpp Require Import base gmap sorting list relations.
From S2P Require Import Prelude.
From S2P Require Import Codec.
From S2P Require Import Types.
From S2P Require Import LooseCommit.
From S2P Require Import Fragment.
From S2P Require Import Traversal.
From S2P Require Import Sedimentree.
From S2P Require Import Minimize.
From S2P Require Import Minimized.
From S2P Require Import Fingerprints.
From S2P Require Import Signed.
From S2P Require Import Message.
From S2P Require Import Tasks.
From S2P Require Import ShardedMap.
From S2P Require Import BoundedShardedMap.
From S2P Require Import Storage.
From S2P Require Import MemoryStorage.
From S2P Require Import Node.
From S2P Require Import Ingest.
From S2P Require Import IngestSpec.

(** ** Requests *)

Inductive request : Type :=
| InsertCommit (id : SedimentreeId) (v : VerifiedMeta LooseCommit)
| InsertFragment (id : SedimentreeId) (v : VerifiedMeta Fragment)
| BatchResponse (from : PeerId) (id : SedimentreeId) (diff : SyncDiff)
| MinimizeTree (id : SedimentreeId)
| ReadTree (id : SedimentreeId)
| ReadHeads (id : SedimentreeId).

Inductive reply (E SendErr : Type) : Type :=
| Inserted (r : result E bool)
| Response (r : result (IoError E SendErr) Ingested)
| Tree (r : result E (option Sedimentree))
| Heads (r : result E (option (list CommitId)))
| Done.
Arguments Inserted {_ _} _.
Arguments Response {_ _} _.
Arguments Tree {_ _} _.
Arguments Heads {_ _} _.
Arguments Done {_ _}.

Section pool.
Context `{HashIter, SipHash24Range, Ed25519, Blake3, Bijou64}.
Context {Sto E Pol Df Dp Net Conn SendErr : Type} `{!Storage Sto E} `{!StorageLaws Sto E}.
Context `{!StoragePolicy Pol Df Dp} `{!Sent Net Conn}.
Context (shards : nat) (m : DepthMetric).
Notation node := (Node Sto Pol Net Conn).
Notation answer := (request * reply E SendErr)%type.

(** Which call a request is. *)
Definition serve (q : request) : task node answer :=
  match q with
  | InsertCommit id v =>
      await r := insert_commit_locally shards (local_putter id) v in Ret (q, Inserted r)
  | InsertFragment id v =>
      await r := insert_fragment_locally shards (local_putter id) v in Ret (q, Inserted r)
  | BatchResponse from id diff =>
      await r := recv_batch_sync_response shards from id diff in Ret (q, Response r)
  | MinimizeTree id => await _ := minimize_tree shards m id in Ret (q, Done)
  | ReadTree id => await r := get_or_hydrate shards m id in Ret (q, Tree r)
  | ReadHeads id => await r := heads_or_hydrate shards m id in Ret (q, Heads r)
  end.

(** The items that the node puts in itself, and what the policy's leave means. *)
Context (own_c : SedimentreeId -> VerifiedMeta LooseCommit -> Prop).
Context (own_f : SedimentreeId -> VerifiedMeta Fragment -> Prop).
Context (approved : PeerId -> PeerId -> SedimentreeId -> Prop).

Definition allowed (q : request) : Prop :=
  match q with
  | InsertCommit id v => meta_ok v /\ own_c id v
  | InsertFragment id v => meta_ok v /\ own_f id v
  | _ => True
  end.

Definition served (t : task node answer) : Prop := exists q, allowed q /\ t = serve q.

(** The policy says yes only to what is approved. *)
Definition policy_sound : Prop :=
  forall peer author id p,
    wp (fun _ => True) (fun _ _ => True) (authorize_put (P:=Pol) peer author id)
      (fun r _ => r = Ok tt -> approved peer author id) p.

Notation inv := (node_inv shards m (authentic approved own_c) (authentic approved own_f) (fun _ => True)).
Notation grows := (node_grows m).

(** What a write promises from its return on, and what a read tells about a state before
    its call and a state after its return. *)
Definition write_promise (t : node) (a : answer) : Prop :=
  match a with
  | (InsertCommit id v, Inserted (Ok _)) => commit_inserted m t id (vm_payload v)
  | (InsertFragment id v, Inserted (Ok _)) => fragment_inserted m t id (vm_payload v)
  | (BatchResponse from id diff, Response (Ok ing)) =>
      response_ingested (Df:=Df) (Dp:=Dp) m approved t from id diff ing
  | _ => True
  end.

Definition read_promise (s t : node) (a : answer) : Prop :=
  match a with
  | (ReadTree id, Tree (Ok (Some tr))) => tree_read m s t id tr
  | (ReadTree id, Tree (Ok None)) => unknown (nd_storage s) id
  | (ReadHeads id, Heads (Ok (Some hs))) =>
      exists tr, hs = heads_assuming_minimal tr /\ tree_read m s t id tr
  | (ReadHeads id, Heads (Ok None)) => unknown (nd_storage s) id
  | _ => True
  end.

Context (Hshards : (0 < shards)%nat) (Hmax : N.of_nat shards <= u64_max).

Lemma read_promise_before s s' t a : grows s s' -> read_promise s' t a -> read_promise s t a.
Proof.
  intros Hg. destruct a as [[] [| |[[tr|]|]|[[hs|]|]|]]; simpl; try done.
  - by apply tree_read_before.
  - apply unknown_before, Hg.
  - intros (tr & -> & Hr). exists tr. split; [done|]. by eapply tree_read_before.
  - apply unknown_before, Hg.
Qed.

(** What else holds of the node. *)
Section rest.
Context (rest_ok : node -> Prop).
Context (Hrest_cache : forall c s, rest_ok s -> rest_ok (set_cache c s)).
Context (Hrest_storage : forall x s, rest_ok s -> rest_ok (set_storage x s)).
Context (Hrest_policy : forall x s, rest_ok s -> rest_ok (set_policy x s)).
Notation inv_rest := (node_inv shards m (authentic approved own_c) (authentic approved own_f) rest_ok).

Lemma serve_spec q s :
  policy_sound -> allowed q -> inv_rest s ->
  wp inv_rest grows (serve q) (fun a t => write_promise t a /\ read_promise s t a) s.
Proof.
  intros Hpol Hq Hs. destruct q; cbn [allowed serve] in *; destruct_and?.
  - eapply wp_map; [apply _|by apply insert_commit_locally_spec; [..|left]|].
    intros [b|e] t _ _ Hr; [|done]. by split; [apply (Hr b)|].
  - eapply wp_map; [apply _|by apply insert_fragment_locally_spec; [..|left]|].
    intros [b|e] t _ _ Hr; [|done]. by split; [apply (Hr b)|].
  - eapply wp_map; [apply _|eapply (recv_batch_sync_response_spec shards Hshards Hmax m _ _ _);
      [done..|exact Hpol| | |done]|].
    + intros peer i v Hc Ha. right. eauto.
    + intros peer i v Hc Ha. right. eauto.
    + intros [ing|e] t _ _ Hr; [|done]. by split; [apply (Hr ing)|].
  - eapply wp_map; [apply _|by apply minimize_tree_spec|]. done.
  - eapply wp_map; [apply _|by apply get_or_hydrate_spec|].
    intros [[tr|]|e] t _ _ (Hsome & Hnone & _); split; cbn [write_promise read_promise]; try done; auto.
  - eapply wp_map; [apply _|by apply heads_or_hydrate_spec|].
    intros [[tr|]|e] t _ _ [Hsome Hnone]; split; cbn [write_promise read_promise]; try done; auto.
Qed.
End rest.

(** What holds of a pool that was started in [s]. *)
Lemma pool_of_requests s ts t ts' :
  policy_sound -> inv s -> (forall x, x ∈ ts -> served x) ->
  rtc (pool_step served) (s, ts) (t, ts') ->
  inv t /\ grows s t /\
  (forall B (f : node -> option (node * B)) k, Act f k ∈ ts' -> is_Some (f t)) /\
  (forall a, Ret a ∈ ts' -> write_promise t a /\ read_promise s t a).
Proof.
  intros Hpol Hs Hts Hrtc.
  assert (Hwp : forall x u, served x -> inv u /\ grows s u ->
    wp (fun t => inv t /\ grows s t) grows x
      (fun a t => write_promise t a /\ read_promise s t a) u).
  { intros x u (q & Hq & ->) [Hu Hg]. apply wp_keeps; [by intros ? ? ? ?; etrans|].
    eapply wp_mono; [apply _|by apply serve_spec|]. intros a t' _ _ [Hw Hr]. split; [done|].
    by eapply read_promise_before. }
  destruct (pool_sound _ _ served _ _ _ Hwp Hrtc) as ([Ht Hg] & _ & Hts').
  { by split. }
  { intros x Hx. by apply Hwp; [apply Hts|split]. }
  split_and!; [done..| |].
  - intros B f k Hin. exact (wp_no_panic _ _ f k _ t (conj Ht Hg) (Hts' _ Hin)).
  - intros a Hin. exact (wp_returned _ _ a _ t (conj Ht Hg) (Hts' _ Hin)).
Qed.

(** A node that runs any number of ingestion tasks, its own and for peers' batches, in
    any interleaving and over any backend that keeps the storage contract: no task panics,
    storage only grows, every item in it is the node's own or carries its author's
    signature, the blob it names and the policy's leave, and every resident tree is a valid
    lazily minimised tree of stored items. *)
Theorem ingest_pool_safe s ts t ts' :
  policy_sound -> inv s -> (forall x, x ∈ ts -> served x) ->
  rtc (pool_step served) (s, ts) (t, ts') ->
  (forall B (f : node -> option (node * B)) k, Act f k ∈ ts' -> is_Some (f t)) /\
  st_grows (nd_storage s) (nd_storage t) /\
  (forall id v, st_commit (nd_storage t) id v -> authentic approved own_c id v) /\
  (forall id v, st_fragment (nd_storage t) id v -> authentic approved own_f id v) /\
  (forall id ms, resident t !! id = Some ms ->
     Minimized.valid m ms /\ backed (nd_storage t) id (ms_tree ms)).
Proof.
  intros Hpol Hs Hts Hrtc.
  destruct (pool_of_requests s ts t ts' Hpol Hs Hts Hrtc) as ([_ (_ & Hc & Hf) Htr] & Hg & Hact & _).
  split_and!; [done|apply Hg|done..].
Qed.

(** What a task has returned holds from then on, whatever the others do: an inserted
    item is registered and stored, and if the cache is unbounded the resident tree is one
    that the item was added to; of a peer's batch, every well signed item of an author whom
    the policy grants is inserted so, and every item reported as new is one of the batch
    that was checked, approved and inserted. *)
Theorem ingest_pool_writes s ts t ts' a :
  policy_sound -> inv s -> (forall x, x ∈ ts -> served x) ->
  rtc (pool_step served) (s, ts) (t, ts') -> Ret a ∈ ts' -> write_promise t a.
Proof.
  intros Hpol Hs Hts Hrtc Ha.
  destruct (pool_of_requests s ts t ts' Hpol Hs Hts Hrtc) as (_ & _ & _ & Hret).
  by apply Hret.
Qed.

(** C15: What a read returns: [None] only if nothing of the tree was stored or registered
    when the pool was started; else a minimised tree of stored items, which is either the
    resident tree at some moment, or made of storage, with every identity that was stored
    at the start. With an unbounded cache a read sees the writes before it: if the resident
    tree had an item added at the start, the read returns what a tree with that addition
    has become. *)
Theorem ingest_pool_reads s ts t ts' a :
  policy_sound -> inv s -> (forall x, x ∈ ts -> served x) ->
  rtc (pool_step served) (s, ts) (t, ts') -> Ret a ∈ ts' ->
  read_promise s t a /\
  (forall id tr c, a = (ReadTree id, Tree (Ok (Some tr))) -> unbounded s ->
     absorbed_commit m s id c ->
     exists ms0 ms ms', rtc (Minimized.step m) (Minimized.add_commit ms0 c).1 ms /\
       Minimized.ensure_minimized m ms = Some ms' /\ tr = ms_tree ms').
Proof.
  intros Hpol Hs Hts Hrtc Ha.
  destruct (pool_of_requests s ts t ts' Hpol Hs Hts Hrtc) as (_ & _ & _ & Hret).
  destruct (Hret a Ha) as [_ Hr]. split; [done|]. intros id tr c -> Hu Hab.
  destruct Hr as (_ & _ & [(s1 & ms & ms' & Hg1 & _ & Hms & He & <-)|[_ Hno]]).
  - destruct (absorbed_commit_grows m s s1 id c Hg1) as (ms0 & ms1 & Hms1 & Hst); [|done|].
    { unfold unbounded in *. rewrite <- Hu. apply Hg1. }
    simplify_eq. by exists ms0, ms, ms'.
  - destruct Hno. split; [done|]. destruct Hab as (ms0 & ms & Hms & _). by eexists.
Qed.
End pool.

(** ** Examples *)

#[local] Existing Instance Sharded.siphash_sum.
#[local] Existing Instance Sharded.siphash_sum_range.
#[local] Existing Instance hash_iter_by_encoding.
#[local] Existing Instance ed25519_checksum.
#[local] Existing Instance bijou_fixed8.
#[local] Existing Instance blake3_head.

(** A node with an in-memory backend, the open policy and no transport. *)
#[local] Instance nothing_sent : Sent unit unit := fun _ => [].
Definition sample_node (cache : Cache) : Node MemoryStorage unit unit unit :=
  MkNode cache Memory.new tt tt ∅ ∅ ∅ ∅ [] ∅ no_links.

Definition sample_serve : request -> task (Node MemoryStorage unit unit unit)
    (request * reply DecodeError unit) :=
  serve 1 CountLeadingZeroBytes.

Definition sample_insert : request := InsertCommit sample_id (sample_meta x02 ∅).

(** The node's own item is the one of [sample_insert]; the open policy approves all. *)
Definition sample_own (id : SedimentreeId) (v : VerifiedMeta LooseCommit) : Prop :=
  id = sample_id /\ v = sample_meta x02 ∅.
Definition no_own (id : SedimentreeId) (v : VerifiedMeta Fragment) : Prop := False.
Definition any_approved (peer author : PeerId) (id : SedimentreeId) : Prop := True.

Lemma sample_policy_sound : policy_sound (Pol:=unit) any_approved.
Proof. by intros peer author id p. Qed.

Lemma sample_node_inv good_c good_f cache :
  Bounded.ok 1 cache -> Bounded.cached cache = ∅ ->
  node_inv 1 CountLeadingZeroBytes good_c good_f (fun _ => True) (sample_node cache).
Proof.
  intros Hok Hc. split; [done|apply Memory_new_only| |done]. intros id ms Hms.
  unfold resident in Hms. cbn [sample_node nd_cache] in Hms. by rewrite Hc, lookup_empty in Hms.
Qed.

Definition sample_start : Node MemoryStorage unit unit unit :=
  sample_node (Bounded.with_key 1 0 0).

(** The insertion and then a read, each alone. *)
Definition sample_requests : list request := [sample_insert; ReadTree sample_id].
Definition sample_order : list nat := replicate 12 0%nat ++ replicate 2 1%nat.
Definition sample_end :=
  default (sample_start, [])
    (schedule sample_order (sample_start, sample_serve <$> sample_requests)).

Notation sample_served :=
  (served (Sto:=MemoryStorage) (E:=DecodeError) (Pol:=unit) (Net:=unit) (Conn:=unit)
     (SendErr:=unit) 1 CountLeadingZeroBytes sample_own no_own).

Lemma sample_reached :
  rtc (pool_step sample_served) (sample_start, sample_serve <$> sample_requests)
    (sample_end.1, sample_end.2).
Proof.
  rewrite <- surjective_pairing. apply (schedule_runs _ sample_order). vm_compute. reflexivity.
Qed.

Lemma sample_requests_served x : x ∈ sample_serve <$> sample_requests -> sample_served x.
Proof.
  intros (q & -> & Hq)%list_elem_of_fmap. exists q. split; [|done].
  apply elem_of_cons in Hq as [-> |Hq]; [|by apply list_elem_of_singleton in Hq as ->].
  split; [exact sample_meta_ok|done].
Qed.

Lemma sample_start_inv good_c good_f :
  node_inv 1 CountLeadingZeroBytes good_c good_f (fun _ => True) sample_start.
Proof.
  apply sample_node_inv; [apply Bounded.with_key_ok|]. apply Bounded.cached_with_key.
Qed.

Lemma ingest_pool_safe_witness :
  length sample_end.2 = 2%nat /\
  forall id v, stored_in (mem_commits (nd_storage sample_end.1)) id v ->
    authentic any_approved sample_own id v.
Proof.
  split; [vm_compute; reflexivity|]. exact (proj1 (proj2 (proj2 (ingest_pool_safe 1 CountLeadingZeroBytes sample_own no_own
    any_approved ltac:(lia) ltac:(unfold u64_max; simpl; lia) sample_start
    (sample_serve <$> sample_requests) sample_end.1 sample_end.2 sample_policy_sound
    (sample_start_inv _ _) sample_requests_served sample_reached)))).
Defined.

Lemma sample_inserted : Ret (sample_insert, Inserted (Ok true)) ∈ sample_end.2.
Proof. apply list_elem_of_lookup. exists 0%nat. vm_compute. reflexivity. Qed.

Lemma ingest_pool_writes_witness :
  commit_inserted CountLeadingZeroBytes sample_end.1 sample_id (vm_payload (sample_meta x02 ∅)).
Proof.
  exact (ingest_pool_writes 1 CountLeadingZeroBytes sample_own no_own
    any_approved ltac:(lia) ltac:(unfold u64_max; simpl; lia) sample_start
    (sample_serve <$> sample_requests) sample_end.1 sample_end.2 _ sample_policy_sound
    (sample_start_inv _ _) sample_requests_served sample_reached sample_inserted).
Defined.

Definition sample_read : Sedimentree := Sedimentree_new [] [vm_payload (sample_meta x02 ∅)].

Lemma sample_read_returned :
  Ret (ReadTree sample_id, Tree (Ok (Some sample_read))) ∈ sample_end.2.
Proof. apply list_elem_of_lookup. exists 1%nat. vm_compute. reflexivity. Qed.

Lemma ingest_pool_reads_witness :
  tree_read CountLeadingZeroBytes sample_start sample_end.1 sample_id sample_read.
Proof.
  exact (proj1 (ingest_pool_reads 1 CountLeadingZeroBytes sample_own no_own
    any_approved ltac:(lia) ltac:(unfold u64_max; simpl; lia) sample_start
    (sample_serve <$> sample_requests) sample_end.1 sample_end.2 _ sample_policy_sound
    (sample_start_inv _ _) sample_requests_served sample_reached sample_read_returned)).
Defined.

(** *** A bounded cache *)

(** Room for one tree, three requests on one tree and two on another. *)
Definition other_id : SedimentreeId := array_pad 32 [x02].
Definition small_start : Node MemoryStorage unit unit unit :=
  sample_node (Bounded.with_capacity 1 1 (Bounded.with_key 1 0 0)).
Definition second_commit : VerifiedMeta LooseCommit := sample_meta x03 {[array_pad 32 [x02]]}.
Definition small_requests : list request :=
  [sample_insert; InsertCommit other_id (sample_meta x02 ∅); ReadTree sample_id;
   InsertCommit sample_id second_commit; ReadTree other_id].

(** The first read has loaded the tree when the second insertion begins; the tree is then
    evicted, and installed by the first read. *)
Definition small_order : list nat :=
  replicate 12 0%nat ++ replicate 12 1%nat ++ replicate 6 2%nat ++ replicate 10 3%nat ++
  replicate 7 4%nat ++ [2%nat].
Definition small_end :=
  default (small_start, []) (schedule small_order (small_start, sample_serve <$> small_requests)).

Definition returned {S A} (t : task S A) : bool := match t with Ret _ => true | Act _ _ => false end.

(** C36: With a bounded cache a completed insertion can be lost to readers: there is an
    interleaving after which every task has returned, the insertion of a commit with
    [Ok true], and the commit is in storage, and yet reading the tree returns one without
    it, from the cache. *)
Theorem bounded_cache_stale_read :
  rtc (pool_step (fun _ => False)) (small_start, sample_serve <$> small_requests) small_end /\
  forallb returned small_end.2 = true /\
  Ret (InsertCommit sample_id second_commit, Inserted (Ok true)) ∈ small_end.2 /\
  match run (load_loose_commit_metas sample_id) (nd_storage small_end.1) with
  | Some (_, Ok commits) => bool_decide (vm_payload second_commit ∈ commits)
  | _ => false
  end = true /\
  match run (get_or_hydrate 1 CountLeadingZeroBytes sample_id) small_end.1 with
  | Some (_, Ok (Some tree)) => negb (has_loose_commit tree (lc_head (vm_payload second_commit)))
  | _ => false
  end = true.
Proof.
  split; [|split; [|split; [|split]]].
  - apply (schedule_runs _ small_order). vm_compute. reflexivity.
  - vm_compute. reflexivity.
  - apply list_elem_of_lookup. exists 3%nat. vm_compute. reflexivity.
  - vm_compute. reflexivity.
  - vm_compute. reflexivity.
Qed.

(** *** Items taken for new, items of other trees *)

(** A commit, and a fragment that covers it. *)
Definition covered_commit : VerifiedMeta LooseCommit :=
  VerifiedMeta_seal (T := LooseCommit) (toy_signer x01)
    ((sample_id, array_pad 32 [x00; x07], ∅) : @Args LooseCommit _) (VerifiedBlobMeta_new [x05]).
Definition covering_fragment : VerifiedMeta Fragment :=
  VerifiedMeta_seal (T := Fragment) (toy_signer x01)
    ((sample_id, array_pad 32 [x00; x00; x05], ∅, [array_pad 32 [x00; x07]]) : @Args Fragment _)
    (VerifiedBlobMeta_new [x05]).

(** [insert_commit_locally] judges by the minimised tree: a commit that is stored, but
    that minimisation has dropped since a fragment covers it, is reported as newly added
    each time it arrives after a minimisation. *)
Theorem covered_commit_new_again :
  snd <$> run (await a := sample_serve (InsertFragment sample_id covering_fragment) in
               await b := sample_serve (InsertCommit sample_id covered_commit) in
               await c := sample_serve (MinimizeTree sample_id) in
               await d := sample_serve (InsertCommit sample_id covered_commit) in
               Ret [a.2; b.2; c.2; d.2]) sample_start =
  Some [Inserted (Ok true); Inserted (Ok true); Done; Inserted (Ok true)].
Proof. vm_compute. reflexivity. Qed.

Definition sent_diff (v : VerifiedMeta LooseCommit) : SyncDiff :=
  MkSyncDiff [to_wire v] [] (MkRequestedData [] []).

(** The tree that a signed commit names is not compared with the tree that it arrives
    for: a peer's response for one tree, with a commit that its author signed for another,
    is taken in. The commit is stored under the tree of the response and reported as new,
    to be forwarded. *)
Theorem commit_of_other_tree_ingested :
  lc_sedimentree_id (vm_payload (sample_meta x02 ∅)) <> other_id /\
  match run (recv_batch_sync_response (SendErr:=unit) 1 (array_pad 32 [x09]) other_id
               (sent_diff (sample_meta x02 ∅))) sample_start with
  | Some (t, Ok ingested) =>
      bool_decide (ing_commits ingested = [to_wire (sample_meta x02 ∅)]) &&
      match run (load_loose_commit_metas other_id) (nd_storage t) with
      | Some (_, Ok commits) => bool_decide (vm_payload (sample_meta x02 ∅) ∈ commits)
      | _ => false
      end
  | _ => false
  end = true.
Proof. split; [by vm_compute|]. vm_compute. reflexivity. Qed.
