(* ===== verification/Peers.v ===== *)
(** The peers of a node: message counters, reported heads, subscriptions and pushes.

    [peer/counter.rs]: the counter that stamps the messages to a peer; [remote_heads.rs]: the
    filter of stale heads in front of the observer; [subduction/peers.rs]: who is subscribed
    to which tree, and the push frames for those of them whom the policy lets fetch it. *)

From Stdlib Require Import Strings.Byte NArith Lia.
From stdpp Require Import base gmap sorting list relations.
From S2P Require Import Prelude.
From S2P Require Import Codec.
From S2P Require Import Types.
From S2P Require Import LooseCommit.
From S2P Require Import Fragment.
From S2P Require Import Traversal.
From S2P Require Import Sedimentree.
From S2P Require Import Signed.
From S2P Require Import Message.
From S2P Require Import Authenticated.
From S2P Require Import Tasks.
From S2P Require Import Storage.
From S2P Require Import Node.
From S2P Require Import Ingest.

Section peers.
Context `{HashIter} {Sto Pol Df Dp Net Conn SendErr : Type}.
Context `{!StoragePolicy Pol Df Dp} `{!Connection Net Conn SendErr}.
Notation node := (Node Sto Pol Net Conn).

(** ** Counters *)

(** [seed()], evaluated once per peer at its first stamp. *)
Context (seed : PeerId -> N).

(** The entry of the peer, which is never removed. *)
Definition counter_entry (peer : PeerId) : task node unit :=
  on_field nd_send_counter set_send_counter (fun counters => (or_insert peer (seed peer) counters, tt)).

(** [counter.fetch_add(1)] wraps around. *)
Definition fetch_add (peer : PeerId) : task node N :=
  act (fun s =>
    match nd_send_counter s !! peer with
    | Some c => Some (set_send_counter (<[peer := as_u64 (c + 1)]> (nd_send_counter s)) s, c)
    | None => None
    end).

(** [PeerCounter::next]; the sum wraps around as in a release build. *)
Definition next (peer : PeerId) : task node N :=
  await _ := counter_entry peer in
  await c := fetch_add peer in
  Ret (as_u64 (c + 1)).

(** [PeerCounter::peek] *)
Definition peek (peer : PeerId) : task node (option N) :=
  reads_state (fun s => nd_send_counter s !! peer).

(** ** Reported heads *)

(** [FilteredHeadsNotifier::notify]; [unlocked] is whether [try_lock] gets the lock. The
    observer is called after the lock is released. *)
Definition notify (unlocked : bool) (id : SedimentreeId) (peer : PeerId) (heads : RemoteHeads) :
  task node unit :=
  if unlocked then
    await fresh := on_field nd_recv_counter set_recv_counter (fun counters =>
      let last := default 0 (counters !! peer) in
      if rh_counter heads <=? last then (<[peer := last]> counters, false)
      else (<[peer := rh_counter heads]> counters, true)) in
    if (fresh : bool) then
      on_field nd_observed set_observed (fun calls => (calls ++ [(id, peer, heads)], tt))
    else Ret tt
  else Ret tt.

(** ** Subscriptions *)

Definition add_subscription (peer_id : PeerId) (sedimentree_id : SedimentreeId) : task node unit :=
  on_field nd_subscriptions set_subscriptions (fun subscriptions =>
    (<[sedimentree_id := {[peer_id]} ∪ default ∅ (subscriptions !! sedimentree_id)]> subscriptions,
     tt)).

Definition remove_peer_from_subscriptions (peer_id : PeerId) : task node unit :=
  on_field nd_subscriptions set_subscriptions (fun subscriptions =>
    (filter (fun '(_, peers) => peers <> ∅)
       ((fun peers : gset PeerId => peers ∖ {[peer_id]}) <$> subscriptions), tt)).

(** The connections of these peers. *)
Definition conns_of (peers : list PeerId) (s : node) : list (Authenticated Conn) :=
  mbind (M:=list) (fun pid => default [] (nd_connections s !! pid)) peers.

(** The connections of the subscribers that may fetch the tree, except those of
    [exclude_peer]. *)
Definition get_authorized_subscriber_conns (sedimentree_id : SedimentreeId)
    (exclude_peer : PeerId) : task node (list (Authenticated Conn)) :=
  await subscriber_ids := reads_state (fun s : node =>
    match nd_subscriptions s !! sedimentree_id with
    | Some peers => hashset_iter peers
    | None => []
    end) in
  if bool_decide (subscriber_ids = []) then Ret []
  else
    await authorized_peers := tfor (fun authorized peer_id =>
        if bool_decide (peer_id = exclude_peer) then Ret authorized
        else
          await can_fetch := on_policy (filter_authorized_fetch peer_id [sedimentree_id]) in
          Ret (if bool_decide (can_fetch = []) then authorized else authorized ++ [peer_id]))
      [] subscriber_ids in
    reads_state (conns_of authorized_peers).

(** ** Pushes *)

Notation Pushes := (list (Authenticated Conn * SyncMessage)) (only parsing).

(** One frame for each connection and item, stamped in order. *)
Definition build_pushes (id : SedimentreeId) (heads : list CommitId)
    (conns : list (Authenticated Conn)) (ingested : Ingested) : task node Pushes :=
  tfor (fun out conn =>
      let peer_id := au_peer_id conn in
      await out := tfor (fun (out : Pushes) '(commit, blob) =>
          await counter := next peer_id in
          Ret (out ++ [(conn, SM_LooseCommit id commit blob (MkRemoteHeads counter heads))]))
        out (ing_commits ingested) in
      tfor (fun (out : Pushes) '(fragment, blob) =>
          await counter := next peer_id in
          Ret (out ++ [(conn, SM_Fragment id fragment blob (MkRemoteHeads counter heads))]))
        out (ing_fragments ingested))
    [] conns.

(** The frames of one peer, until one fails. *)
Fixpoint send_frames (frames : Pushes) : task node unit :=
  match frames with
  | [] => Ret tt
  | (conn, msg) :: frames' =>
      await r := on_net (send (au_inner conn) msg) in
      match r with
      | Ok _ => send_frames frames'
      | Err _ => Ret tt
      end
  end.

(** The frames of each peer in order; peers are independent of each other. *)
Definition send_pushes (pushes : Pushes) : task node unit :=
  let by_peer : gmap PeerId Pushes :=
    foldl (fun by_peer '(conn, msg) =>
        <[au_peer_id conn := default [] (by_peer !! au_peer_id conn) ++ [(conn, msg)]]> by_peer)
      ∅ pushes in
  tfor (fun _ frames => send_frames frames) tt (hash_values by_peer).
End peers.

(** The peers other than [originator] that this node has dialed. *)
Definition upstream_peers (peers : list (PeerId * list Direction)) (originator : PeerId) :
  list PeerId :=
  omap (fun '(peer, dirs) =>
      if existsb (fun d => bool_decide (d = Dialed)) dirs then Some peer else None)
    (filter (fun '(peer, _) => peer <> originator) peers).
