(* ===== verification/PeersSpec.v ===== *)
(** What the stamps of messages and the filter of reported heads promise, when tasks that use
    them interleave and when they do not. *)

From Stdlib Require Import Strings.Byte NArith Lia Sorted.
From stdpp Require Import base gmap sorting list relations.
From S2P Require Import Prelude.
From S2P Require Import Codec.
From S2P Require Import Types.
From S2P Require Import Traversal.
From S2P Require Import Signed.
From S2P Require Import Message.
From S2P Require Import Tasks.
From S2P Require Import Storage.
From S2P Require Import Node.
From S2P Require Import Peers.

(** ** Closed pools, by the step of one task *)

Definition advance {S A} (x : task S A) (s : S) : option (S * task S A) :=
  match x with
  | Ret _ => None
  | Act f k => match f s with Some (s', b) => Some (s', k b) | None => None end
  end.

Lemma closed_step {S A} (c c' : S * list (task S A)) :
  pool_step (fun _ => False) c c' ->
  exists i x s' x', c.2 !! i = Some x /\ advance x c.1 = Some (s', x') /\ c' = (s', <[i := x']> c.2).
Proof.
  intros [s s' ts i B f k b Hi Hf|]; [|done]. exists i, (Act f k), s', (k b). simpl. by rewrite Hf.
Qed.

(** The tasks that have not returned. *)
Definition running {S A} (x : task S A) : nat := match x with Ret _ => 0 | Act _ _ => 1 end.
Definition unfinished {S A} (ts : list (task S A)) : nat := sum_list_with running ts.

Lemma unfinished_insert {S A} (ts : list (task S A)) i x x' :
  ts !! i = Some x -> (unfinished (<[i := x']> ts) + running x = unfinished ts + running x')%nat.
Proof.
  intros Hi. unfold unfinished. rewrite insert_take_drop by (by eapply lookup_lt_Some).
  rewrite <- (take_drop_middle ts i x Hi) at 3. rewrite !sum_list_with_app. simpl. lia.
Qed.

Lemma unfinished_le {S A} (ts : list (task S A)) : (unfinished ts <= length ts)%nat.
Proof. induction ts as [|[] ts IH]; simpl; lia. Qed.

Section stamps.
Context {Sto Pol Net Conn : Type} (seed : PeerId -> N).
Notation node := (Node Sto Pol Net Conn).
Notation next := (next (Sto:=Sto) (Pol:=Pol) (Net:=Net) (Conn:=Conn) seed).
Implicit Types (s t : node) (p : PeerId) (peers : list PeerId).

(** ** Stamps *)

(** The last stamp that a peer was given, or where its stamps start. *)
Definition last_stamp s p : N := default (seed p) (nd_send_counter s !! p).

(** [next] after its first section. *)
Definition next_tail p : task node N := await c := fetch_add p in Ret (as_u64 (c + 1)).

(** How far the [i]-th of the tasks is, which stamps the peer [p] above [lo]. *)
Definition stamp_at (lo : N) s p (x : task node N) : Prop :=
  (x = next p /\ lo <= last_stamp s p) \/
  (x = next_tail p /\ is_Some (nd_send_counter s !! p) /\ lo <= last_stamp s p) \/
  (exists n, x = Ret n /\ lo < n <= last_stamp s p).

Record stamping (lo : nat -> N) peers s (ts : list (task node N)) : Prop := {
  st_length : length ts = length peers;
  st_at i p x : peers !! i = Some p -> ts !! i = Some x -> stamp_at (lo i) s p x;
  st_unique i j p n : peers !! i = Some p -> peers !! j = Some p ->
    ts !! i = Some (Ret n) -> ts !! j = Some (Ret n) -> i = j;
  st_bound p : last_stamp s p + N.of_nat (unfinished ts) <= u64_max
}.

Lemma advance_next p s s' x :
  advance (next p) s = Some (s', x) ->
  x = next_tail p /\ is_Some (nd_send_counter s' !! p) /\ (forall q, last_stamp s' q = last_stamp s q) /\
  (forall q, is_Some (nd_send_counter s !! q) -> is_Some (nd_send_counter s' !! q)).
Proof.
  cbn. intros [= <- <-]. split; [done|]. unfold last_stamp. cbn [nd_send_counter set_send_counter].
  unfold or_insert. destruct (nd_send_counter s !! p) as [c|] eqn:Hp; [by split_and!|]. split_and!.
  - by rewrite lookup_insert_eq.
  - intros q. destruct (decide (q = p)) as [-> |Hne]; [by rewrite lookup_insert_eq, Hp|].
    by rewrite lookup_insert_ne.
  - intros q. destruct (decide (q = p)) as [-> |Hne]; [by rewrite lookup_insert_eq|].
    by rewrite lookup_insert_ne.
Qed.

Lemma advance_tail p s s' x :
  last_stamp s p + 1 <= u64_max -> is_Some (nd_send_counter s !! p) ->
  advance (next_tail p) s = Some (s', x) ->
  x = Ret (last_stamp s p + 1) /\ last_stamp s' p = last_stamp s p + 1 /\
  (forall q, q <> p -> last_stamp s' q = last_stamp s q) /\
  (forall q, is_Some (nd_send_counter s !! q) -> is_Some (nd_send_counter s' !! q)).
Proof.
  intros Hlt [c Hc]. unfold last_stamp in *. rewrite Hc in *. cbn. rewrite Hc. intros [= <- <-].
  cbn [nd_send_counter set_send_counter]. simpl in Hlt.
  assert (Hu : as_u64 (c + 1) = c + 1) by (apply N.mod_small; unfold u64_max in *; lia).
  rewrite Hu. split_and!; [done|by rewrite lookup_insert_eq| |].
  - intros q Hne. by rewrite lookup_insert_ne.
  - intros q [d Hd]. destruct (decide (q = p)) as [-> |Hne]; [by rewrite lookup_insert_eq|].
    by rewrite lookup_insert_ne, Hd.
Qed.

Lemma stamp_at_weaken lo s s' p x :
  (is_Some (nd_send_counter s !! p) -> is_Some (nd_send_counter s' !! p)) ->
  last_stamp s p <= last_stamp s' p -> stamp_at lo s p x -> stamp_at lo s' p x.
Proof.
  intros Hin Hle [[-> ?]|[(-> & ? & ?)|(n & -> & ?)]].
  - left. split; [done|lia].
  - right. left. split_and!; [done|by apply Hin|lia].
  - right. right. exists n. split; [done|lia].
Qed.

(** One task moved, to [x'], and its peer's stamp with it if it returned. *)
Lemma stamping_move lo peers s s' ts i p x x' :
  stamping lo peers s ts -> peers !! i = Some p -> ts !! i = Some x -> running x = 1%nat ->
  stamp_at (lo i) s' p x' ->
  (forall q, is_Some (nd_send_counter s !! q) -> is_Some (nd_send_counter s' !! q)) ->
  (forall q, last_stamp s' q =
     if decide (q = p) then last_stamp s p + N.of_nat (1 - running x') else last_stamp s q) ->
  (forall n, x' = Ret n -> last_stamp s p < n) ->
  stamping lo peers s' (<[i := x']> ts).
Proof.
  intros [Hlen Hat Huniq Hbound] Hp Hx Hrun Hx' Hin Hlast Hnew.
  assert (Hle : forall q, last_stamp s q <= last_stamp s' q).
  { intros q. rewrite Hlast. case_decide; [subst; lia|done]. }
  pose proof (unfinished_insert ts i x x' Hx) as Hun.
  assert (Hr' : (running x' <= 1)%nat) by (by destruct x'; simpl; lia).
  assert (Hother : forall j y, <[i := x']> ts !! j = Some y -> j = i /\ y = x' \/ j <> i /\ ts !! j = Some y).
  { intros j y Hj. destruct (decide (j = i)) as [-> |Hne].
    - rewrite list_lookup_insert_eq in Hj by (by eapply lookup_lt_Some). left. by simplify_eq.
    - rewrite list_lookup_insert_ne in Hj by done. by right. }
  assert (Hold : forall j n, peers !! j = Some p -> j <> i -> ts !! j = Some (Ret n) -> x' <> Ret n).
  { intros j n Hj Hne Hjn ->. specialize (Hnew n eq_refl).
    destruct (Hat j p _ Hj Hjn) as [[He _]|[(He & _)|(n' & [= <-] & ?)]]; [done|done|lia]. }
  split.
  - by rewrite length_insert.
  - intros j q y Hq [[-> ->]|[Hne Hj]]%Hother; [by simplify_eq|].
    eapply stamp_at_weaken; [apply Hin|apply Hle|by apply Hat].
  - intros j k q n Hj Hk [[-> H1]|[Hj1 H1]]%Hother [[-> H2]|[Hk1 H2]]%Hother; [done|..|by eapply Huniq].
    + simplify_eq. by destruct (Hold k n Hk Hk1 H2).
    + simplify_eq. by destruct (Hold j n Hj Hj1 H1).
  - intros q. specialize (Hbound q). rewrite Hlast. case_decide; [subst q|]; lia.
Qed.

Lemma stamping_step lo peers s ts s' ts' :
  stamping lo peers s ts -> pool_step (fun _ => False) (s, ts) (s', ts') -> stamping lo peers s' ts'.
Proof.
  intros Hst Hstep. destruct (closed_step _ _ Hstep) as (i & x & t & x' & Hi & Hadv & [= -> ->]).
  simpl in Hi, Hadv. assert (is_Some (peers !! i)) as [p Hp].
  { apply lookup_lt_is_Some. rewrite <- (st_length _ _ _ _ Hst). by eapply lookup_lt_Some. }
  destruct (st_at _ _ _ _ Hst i p x Hp Hi) as [[-> Hlo]|[(-> & Hin & Hlo)|(n & -> & _)]]; [| |done].
  - destruct (advance_next _ _ _ _ Hadv) as (-> & Hin & Hsame & Hmono).
    apply (stamping_move lo peers s t ts i p (next p)); try done.
    + right. left. by rewrite Hsame.
    + intros q. rewrite Hsame. simpl. case_decide; [subst; lia|done].
  - pose proof (st_bound _ _ _ _ Hst p) as Hb.
    pose proof (unfinished_insert ts i _ (Ret 0) Hi) as Hun. simpl in Hun.
    destruct (advance_tail p s t x') as (-> & Hnew & Hsame & Hmono); [lia|done..|].
    apply (stamping_move lo peers s t ts i p (next_tail p)); try done.
    + right. right. eexists. split; [done|]. lia.
    + intros q. case_decide as Hq; [subst q; rewrite Hnew; simpl; lia|by apply Hsame].
    + intros n [= <-]. lia.
Qed.

Lemma stamping_run lo peers c c' :
  rtc (pool_step (fun _ => False)) c c' -> stamping lo peers c.1 c.2 -> stamping lo peers c'.1 c'.2.
Proof.
  induction 1 as [c|[s ts] [s' ts'] c' Hstep _ IH]; [done|]. intros Hst. apply IH. by eapply stamping_step.
Qed.

Lemma stamping_start peers s :
  (forall p, last_stamp s p + N.of_nat (length peers) <= u64_max) ->
  stamping (fun i => default 0 (last_stamp s <$> peers !! i)) peers s (next <$> peers).
Proof.
  intros Hb. split.
  - by rewrite length_fmap.
  - intros i p x Hp. rewrite list_lookup_fmap, Hp. intros [= <-]. left. done.
  - intros i j p n Hi _ Hn. by rewrite list_lookup_fmap, Hi in Hn.
  - intros p. specialize (Hb p). pose proof (unfinished_le (next <$> peers)) as Hle.
    rewrite length_fmap in Hle. lia.
Qed.

(** The tasks that still run take stamps above those of now. *)
Lemma stamping_restart lo peers s ts :
  stamping lo peers s ts ->
  stamping (fun i => match ts !! i, peers !! i with
                     | Some (Act _ _), Some p => last_stamp s p
                     | _, _ => lo i
                     end) peers s ts.
Proof.
  intros [Hlen Hat Huniq Hb]. split; [done| |done..]. intros i p x Hp Hx. rewrite Hx, Hp.
  destruct (Hat i p x Hp Hx) as [[-> ?]|[(-> & ? & ?)|(n & -> & ?)]].
  - by left.
  - by right; left.
  - right. right. by exists n.
Qed.

(** C17: any number of tasks stamp messages to any peers, interleaved in any way. No two of
    them get the same stamp for one peer; all of a peer's stamps are above the last one it
    was given before; and a task that has not returned yet gets one above those of all
    tasks that have: stamps increase strictly in the order of the calls. The counters are
    64 bits wide; below that bound nothing wraps around. *)
Theorem stamps_increase peers s t ts t' ts' :
  (forall p, last_stamp s p + N.of_nat (length peers) <= u64_max) ->
  rtc (pool_step (fun _ => False)) (s, next <$> peers) (t, ts) ->
  rtc (pool_step (fun _ => False)) (t, ts) (t', ts') ->
  (forall i j p n, peers !! i = Some p -> peers !! j = Some p ->
     ts !! i = Some (Ret n) -> ts !! j = Some (Ret n) -> i = j) /\
  (forall i p n, peers !! i = Some p -> ts !! i = Some (Ret n) -> last_stamp s p < n <= u64_max) /\
  (forall i j p n n', peers !! i = Some p -> peers !! j = Some p ->
     ts !! i = Some (Ret n) -> (forall k, ts !! j <> Some (Ret k)) -> ts' !! j = Some (Ret n') -> n < n').
Proof.
  intros Hb Hrun Hrun'. pose proof (stamping_run _ _ _ _ Hrun (stamping_start peers s Hb)) as Hst.
  simpl in Hst. pose proof (stamping_run _ _ _ _ Hrun' (stamping_restart _ _ _ _ Hst)) as Hst'.
  simpl in Hst'. split_and!; [apply Hst| |].
  - intros i p n Hp Hn. pose proof (st_bound _ _ _ _ Hst p) as Hbp.
    destruct (st_at _ _ _ _ Hst _ _ _ Hp Hn) as [[He _]|[(He & _)|(n0 & [= <-] & Hlo)]]; [done..|].
    rewrite Hp in Hlo. simpl in Hlo. lia.
  - intros i j p n n' Hi Hj Hn Hno Hn'.
    destruct (st_at _ _ _ _ Hst _ _ _ Hi Hn) as [[He _]|[(He & _)|(n0 & [= <-] & Hlo)]]; [done..|].
    destruct (st_at _ _ _ _ Hst' _ _ _ Hj Hn') as [[He _]|[(He & _)|(n1 & [= <-] & Hlo')]]; [done..|].
    assert (is_Some (ts !! j)) as [x Hx].
    { apply lookup_lt_is_Some. rewrite (st_length _ _ _ _ Hst). by eapply lookup_lt_Some. }
    rewrite Hx, Hj in Hlo'. destruct x as [k|]; [by destruct (Hno k)|]. lia.
Qed.
End stamps.

(** ** Reported heads *)

Section reported.
Context {Sto Pol Net Conn : Type}.
Notation node := (Node Sto Pol Net Conn).
Notation notify := (notify (Sto:=Sto) (Pol:=Pol) (Net:=Net) (Conn:=Conn)).
Notation report := (SedimentreeId * PeerId * RemoteHeads)%type.
Implicit Types (s t : node) (p : PeerId) (reports : list report).

(** The stamp of the last heads of a peer that were passed on. *)
Definition last_seen s p : N := default 0 (nd_recv_counter s !! p).

(** The stamps of the reports of one peer. *)
Definition stamps_of p reports : list N :=
  omap (fun '(_, q, heads) => if decide (q = p) then Some (rh_counter heads) else None) reports.

(** [notify] for one report after another, each with the outcome of [try_lock]. *)
Definition notify_each (calls : list (bool * report)) : task node unit :=
  tfor (fun _ '(unlocked, (id, peer, heads)) => notify unlocked id peer heads) tt calls.

(** The reports that got the lock. *)
Definition unblocked (calls : list (bool * report)) : list report :=
  omap (fun '(unlocked, r) => if (unlocked : bool) then Some r else None) calls.

Lemma run_notify unlocked id p heads s :
  let fresh := unlocked && (last_seen s p <? rh_counter heads) in
  exists t, run (notify unlocked id p heads) s = Some (t, tt) /\
    nd_observed t = nd_observed s ++ (if fresh then [(id, p, heads)] else []) /\
    forall q, last_seen t q = if fresh && bool_decide (q = p) then rh_counter heads else last_seen s q.
Proof.
  destruct unlocked; cbn [andb]; [|exists s; by rewrite app_nil_r].
  unfold notify, last_seen. cbn. destruct (rh_counter heads <=? _) eqn:Hle; cbn.
  - apply N.leb_le in Hle as Hlt. rewrite (proj2 (N.ltb_ge _ _) Hlt). eexists. split; [done|]. cbn.
    rewrite app_nil_r. split; [done|]. intros q. destruct (decide (q = p)) as [-> |Hne].
    + by rewrite lookup_insert_eq.
    + by rewrite lookup_insert_ne.
  - apply N.leb_gt in Hle. rewrite (proj2 (N.ltb_lt _ _) Hle). eexists. split; [done|]. cbn.
    split; [done|]. intros q. case_bool_decide as Hq; [subst q; by rewrite lookup_insert_eq|].
    by rewrite lookup_insert_ne.
Qed.

Lemma foldr_max_init a c l : foldr N.max (N.max a c) l = N.max c (foldr N.max a l).
Proof. induction l as [|x l IH]; simpl; lia. Qed.

Lemma foldr_max_ge a l : a <= foldr N.max a l.
Proof. induction l as [|x l IH]; simpl; lia. Qed.

Lemma last_cons_init {A} (x d : A) l : List.last (x :: l) d = List.last l x.
Proof. revert x d. induction l as [|y l IH]; intros x d; [done|].
  transitivity (List.last l y); [exact (IH y d)|symmetry; exact (IH y x)].
Qed.

Lemma StronglySorted_below a b l :
  a < b -> StronglySorted N.lt (b :: l) -> StronglySorted N.lt (a :: b :: l).
Proof.
  intros Hab Hs. constructor; [done|]. apply StronglySorted_inv in Hs as [_ Hb]. constructor; [done|].
  eapply Forall_impl; [exact Hb|]. intros x Hx. simpl in Hx. lia.
Qed.

Lemma stamps_of_cons p id q heads reports :
  stamps_of p ((id, q, heads) :: reports) =
  (if bool_decide (p = q) then [rh_counter heads] else []) ++ stamps_of p reports.
Proof.
  unfold stamps_of. cbn [omap list_omap]. case_bool_decide; case_decide; naive_solver.
Qed.

(** The first of the reports, and the others from there on. *)
Lemma notify_first (unlocked : bool) id p heads calls s s1 t new q :
  let fresh := unlocked && (last_seen s p <? rh_counter heads) in
  (forall q, last_seen s1 q = if fresh && bool_decide (q = p) then rh_counter heads else last_seen s q) ->
  StronglySorted N.lt (last_seen s1 q :: stamps_of q new) /\
  last_seen t q = List.last (stamps_of q new) (last_seen s1 q) /\
  last_seen t q = foldr N.max (last_seen s1 q) (stamps_of q (unblocked calls)) ->
  let new' := (if fresh then [(id, p, heads)] else []) ++ new in
  StronglySorted N.lt (last_seen s q :: stamps_of q new') /\
  last_seen t q = List.last (stamps_of q new') (last_seen s q) /\
  last_seen t q =
    foldr N.max (last_seen s q) (stamps_of q (unblocked ((unlocked, (id, p, heads)) :: calls))).
Proof.
  intros fresh Hs1 (Hsort & Hlast & Hmax). rewrite Hs1 in *.
  assert (Hadm : unblocked ((unlocked, (id, p, heads)) :: calls) =
    (if unlocked then [(id, p, heads)] else []) ++ unblocked calls) by (by destruct unlocked).
  rewrite Hadm. subst fresh. destruct unlocked; cbn [andb] in *; [|done].
  destruct (N.ltb_spec (last_seen s p) (rh_counter heads)) as [Hlt|Hge]; cbn [andb app] in *;
    rewrite !stamps_of_cons; case_bool_decide as Hq; cbn [app foldr]; try done.
  - subst q. split_and!; [by apply StronglySorted_below|by rewrite last_cons_init|].
    rewrite Hmax, <- foldr_max_init. f_equal. lia.
  - subst q. split_and!; [done..|]. pose proof (foldr_max_ge (last_seen s p) (stamps_of p (unblocked calls))).
    lia.
Qed.

(** C31: of reports that come one after another, the observer is told some of those that got
    the lock, in their order; for each peer their stamps increase strictly, from above the
    last one seen before, and the last one seen afterwards is the greatest of them all: so
    what is dropped is exactly what is not newer than something already passed on. *)
Theorem notify_in_order calls s :
  exists t new, run (notify_each calls) s = Some (t, tt) /\
    nd_observed t = nd_observed s ++ new /\ new `sublist_of` unblocked calls /\
    forall p, StronglySorted N.lt (last_seen s p :: stamps_of p new) /\
      last_seen t p = List.last (stamps_of p new) (last_seen s p) /\
      last_seen t p = foldr N.max (last_seen s p) (stamps_of p (unblocked calls)).
Proof.
  revert s. induction calls as [|[unlocked [[id p] heads]] calls IH]; intros s.
  { exists s, []. rewrite app_nil_r. split_and!; [done..|]. intros p. by repeat constructor. }
  unfold notify_each. cbn [tfor]. rewrite run_bind.
  destruct (run_notify unlocked id p heads s) as (s1 & -> & Hobs & Hseen).
  destruct (IH s1) as (t & new & Hrun & Hobs' & Hsub & Hall). exists t, (
    (if unlocked && (last_seen s p <? rh_counter heads) then [(id, p, heads)] else []) ++ new).
  split_and!; [done|by rewrite Hobs', Hobs, <- app_assoc| |].
  - destruct unlocked; cbn [andb unblocked omap list_omap]; [|done].
    destruct (_ <? _); cbn [app]; [by apply sublist_skip|by apply sublist_cons].
  - intros q. by apply (notify_first unlocked id p heads calls s s1).
Qed.

(** C35: reports that come at the same time may be passed on in the wrong order: the lock of
    the filter is released before the observer is told. Two reports of one peer, both newer
    than anything seen: the one with the lower stamp passes the filter first and reaches the
    observer last, so the observer ends with the older heads of the two. *)
Theorem notify_reorders s id p heads heads' :
  let old := MkRemoteHeads (last_seen s p + 1) heads in
  let new := MkRemoteHeads (last_seen s p + 2) heads' in
  exists t, schedule [0; 1; 1; 0]%nat (s, [notify true id p old; notify true id p new]) =
      Some (t, [Ret tt; Ret tt]) /\
    nd_observed t = nd_observed s ++ [(id, p, new); (id, p, old)].
Proof.
  cbv zeta. unfold last_seen. cbn.
  set (last := default 0 (nd_recv_counter s !! p)).
  rewrite (proj2 (N.leb_gt (last + 1) last) ltac:(lia)). cbn.
  rewrite lookup_insert_eq. cbn. rewrite (proj2 (N.leb_gt (last + 2) (last + 1)) ltac:(lia)). cbn.
  eexists. split; [done|]. cbn. by rewrite <- app_assoc.
Qed.
End reported.

(** ** Examples *)

Notation bare_node := (Node unit unit unit unit).
Definition bare_start : bare_node :=
  MkNode (BoundedShardedMap.Bounded.with_key 1 0 0) tt tt tt ∅ ∅ ∅ ∅ [] ∅ no_links.
Definition some_peers : list PeerId := [array_pad 32 [x01]; array_pad 32 [x01]; array_pad 32 [x02]].
Definition bare_tasks : list (task bare_node N) := next (fun _ => 41) <$> some_peers.

(** Two of three messages are to one peer; the second overtakes the first. *)
Definition stamped_halfway := default (bare_start, []) (schedule [0; 1; 1]%nat (bare_start, bare_tasks)).
Definition stamped := default (bare_start, []) (schedule [0; 2; 2]%nat stamped_halfway).

Lemma stamps_increase_witness :
  stamped_halfway.2 !! 1%nat = Some (Ret 42) /\ stamped.2 !! 0%nat = Some (Ret 43) /\ 42 < 43.
Proof.
  assert (Hrun : rtc (pool_step (fun _ => False)) (bare_start, bare_tasks) stamped_halfway).
  { apply (schedule_runs _ [0; 1; 1]%nat). vm_compute. reflexivity. }
  assert (Hrun' : rtc (pool_step (fun _ => False)) stamped_halfway stamped).
  { apply (schedule_runs _ [0; 2; 2]%nat). vm_compute. reflexivity. }
  rewrite (surjective_pairing stamped_halfway) in Hrun, Hrun'. rewrite (surjective_pairing stamped) in Hrun'.
  split; [vm_compute; reflexivity|]. split; [vm_compute; reflexivity|].
  eapply (proj2 (proj2 (stamps_increase (fun _ => 41) some_peers bare_start _ _ _ _ ltac:(by vm_compute) Hrun Hrun'))
    1%nat 0%nat (array_pad 32 [x01])); [reflexivity|reflexivity|vm_compute; reflexivity| |vm_compute; reflexivity].
  intros k Hk. assert (Hr : running <$> stamped_halfway.2 !! 0%nat = Some 1%nat) by (vm_compute; reflexivity).
  rewrite Hk in Hr. discriminate Hr.
Defined.
