(* ===== verification/SyncHandler.v ===== *)
(** The handler of sync messages, [subduction_core/src/handler/sync.rs].

    [dispatch] is what a node does with a message of an authenticated peer: it stores pushed
    items, answers batch sync requests from the resident tree or from storage, takes in
    responses, and keeps the subscriptions; what is new goes to the subscribers in a
    [FanOut], which [handle] hands to the executor. Reads and sends that the code joins are
    made one after the other. *)

From Stdlib Require Import Strings.Byte NArith Lia.
From stdpp Require Import base gmap sorting list relations.
From S2P Require Import Prelude.
From S2P Require Import Codec.
From S2P Require Import Types.
From S2P Require Import LooseCommit.
From S2P Require Import Fragment.
From S2P Require Import Traversal.
From S2P Require Import Sedimentree.
From S2P Require Import Minimize.
From S2P Require Import Minimized.
From S2P Require Import Fingerprints.
From S2P Require Import Signed.
From S2P Require Import Message.
From S2P Require Import Authenticated.
From S2P Require Import Tasks.
From S2P Require Import ShardedMap.
From S2P Require Import BoundedShardedMap.
From S2P Require Import Storage.
From S2P Require Import Node.
From S2P Require Import Ingest.
From S2P Require Import Peers.

(** ** The difference that a responder computes *)

Record ResponderDiff : Type := MkResponderDiff {
  rs_total_items : nat;
  rs_heads : list CommitId;
  rs_local_commit_ids : list CommitId;
  rs_local_fragment_ids : list CommitId;
  rs_requesting_commit_fingerprints : list Fingerprint;
  rs_requesting_fragment_fingerprints : list Fingerprint
}.

Definition ResponderDiff_new `{HashIter, SipHash24} (minimal : Sedimentree)
    (their_fingerprints : FingerprintSummary) : option ResponderDiff :=
  diff ← diff_remote_fingerprints minimal their_fingerprints;
  Some (MkResponderDiff
    (size (st_commits minimal) + size (st_fragments minimal))
    (heads_assuming_minimal minimal)
    (local_only_commits diff).*1
    (local_only_fragments diff).*1
    (remote_only_commit_fingerprints diff)
    (remote_only_fragment_fingerprints diff)).

Definition POINT_READ_CHUNK : nat := 32.
Definition SCAN_FRACTION_DENOMINATOR : nat := 4.
Definition SCAN_CROSSOVER_FLOOR : nat := 32.

(** [slice.chunks(n)] *)
Fixpoint chunks_fuel {A} (fuel n : nat) (l : list A) : list (list A) :=
  match fuel, l with
  | S fuel', _ :: _ => take n l :: chunks_fuel fuel' n (drop n l)
  | _, _ => []
  end.
Definition chunks {A} (n : nat) (l : list A) : list (list A) := chunks_fuel (length l) n l.

(** [for vm in items { if wanted(head) { by_id.entry(head).or_insert(vm); } }] *)
Definition first_by_head {T} `{!Item T} (wanted : CommitId -> bool) (items : list (VerifiedMeta T)) :
  gmap CommitId (VerifiedMeta T) :=
  foldl (fun by_id vm =>
      let head := item_head (vm_payload vm) in
      if wanted head then or_insert head vm by_id else by_id) ∅ items.

Section handler.
Context `{HashIter, SipHash24, Ed25519, Blake3, Bijou64}.
Context {Sto E Pol Df Dp Net Conn SendErr : Type} `{!Storage Sto E} `{!StoragePolicy Pol Df Dp}.
Context `{!Connection Net Conn SendErr}.
Context (shards : nat) (depth_metric : DepthMetric) (seed : PeerId -> N).
Notation node := (Node Sto Pol Net Conn).
Notation io := (IoError E SendErr).

(** A failed send is logged. *)
Definition FanOut_run (self : FanOut Conn) : task node unit :=
  await _ := match fo_ack self with
             | Some (conn, msg) => await _ := on_net (send (au_inner conn) msg) in Ret tt
             | None => Ret tt
             end in
  tfor (fun _ '(conn, msg) => await _ := on_net (send (au_inner conn) msg) in Ret tt)
    tt (fo_pushes self).

(** ** Heads *)

Definition heads_for (id : SedimentreeId) : task node (list CommitId) :=
  await r := heads_or_hydrate shards depth_metric id in
  Ret (match r with Ok heads => default [] heads | Err _ => [] end).

(** ** Subscriptions *)

(** The loop body of [remove_subscriptions]. *)
Definition unsubscribe (peer_id : PeerId) (subscriptions : gmap SedimentreeId (gset PeerId))
    (id : SedimentreeId) : gmap SedimentreeId (gset PeerId) :=
  match subscriptions !! id with
  | Some peer_set =>
      let peer_set := peer_set ∖ {[peer_id]} in
      if bool_decide (peer_set = ∅) then delete id subscriptions
      else <[id := peer_set]> subscriptions
  | None => subscriptions
  end.

Definition remove_subscriptions (peer_id : PeerId) (ids : list SedimentreeId) : task node unit :=
  on_field nd_subscriptions set_subscriptions (fun subscriptions =>
    (foldl (unsubscribe peer_id) subscriptions ids, tt)).

(** ** Pushed items *)

(** The frames with one item, for each connection. *)
Definition build_item_pushes (message : RemoteHeads -> SyncMessage) (heads : list CommitId)
    (conns : list (Authenticated Conn)) : task node (list (Authenticated Conn * SyncMessage)) :=
  tfor (fun pushes conn =>
      await counter := next seed (au_peer_id conn) in
      Ret (pushes ++ [(conn, message (MkRemoteHeads counter heads))])) [] conns.

Definition build_loose_commit_pushes (id : SedimentreeId) (commit : Signed LooseCommit)
    (blob : Blob) (heads : list CommitId) (conns : list (Authenticated Conn)) :=
  build_item_pushes (SM_LooseCommit id commit blob) heads conns.

Definition build_fragment_pushes (id : SedimentreeId) (fragment : Signed Fragment)
    (blob : Blob) (heads : list CommitId) (conns : list (Authenticated Conn)) :=
  build_item_pushes (SM_Fragment id fragment blob) heads conns.

(** The acknowledgement and the pushes for an item that was new. *)
Definition fan_out_new (from : PeerId) (id : SedimentreeId) (conn : Authenticated Conn)
    (build : list CommitId -> list (Authenticated Conn) ->
             task node (list (Authenticated Conn * SyncMessage))) :
  task node (result io (option (FanOut Conn))) :=
  await heads := heads_for id in
  await counter := next seed from in
  let ack_msg := SM_HeadsUpdate id (MkRemoteHeads counter heads) in
  await conns := get_authorized_subscriber_conns id from in
  await pushes := build heads conns in
  Ret (Ok (Some (MkFanOut (Some (conn, ack_msg)) pushes))).

Definition recv_commit (from : PeerId) (id : SedimentreeId) (signed_commit : Signed LooseCommit)
    (blob : Blob) (conn : Authenticated Conn) : task node (result io (option (FanOut Conn))) :=
  match try_from_signed signed_commit with
  | Err _ => Ret (Ok None)
  | Ok verified =>
      let author := sg_issuer (vs_signed verified) in
      await r := on_policy (get_putter from author id) in
      match r with
      | Err _ => Ret (Ok None)
      | Ok putter =>
          let signed_for_wire := vs_signed verified in
          match VerifiedMeta_new verified blob with
          | Err _ => Ret (Ok None)
          | Ok verified_meta =>
              await? was_new := tmap_err IoStorage (insert_commit_locally shards putter verified_meta) in
              if (was_new : bool) then
                fan_out_new from id conn (build_loose_commit_pushes id signed_for_wire blob)
              else Ret (Ok None)
          end
      end
  end.

Definition recv_fragment (from : PeerId) (id : SedimentreeId) (signed_fragment : Signed Fragment)
    (blob : Blob) (conn : Authenticated Conn) : task node (result io (option (FanOut Conn))) :=
  match try_from_signed signed_fragment with
  | Err _ => Ret (Ok None)
  | Ok verified =>
      let author := sg_issuer (vs_signed verified) in
      await r := on_policy (get_putter from author id) in
      match r with
      | Err _ => Ret (Ok None)
      | Ok putter =>
          let signed_for_wire := vs_signed verified in
          match VerifiedMeta_new verified blob with
          | Err _ => Ret (Ok None)
          | Ok verified_meta =>
              await? was_new := tmap_err IoStorage (insert_fragment_locally shards putter verified_meta) in
              if (was_new : bool) then
                fan_out_new from id conn (build_fragment_pushes id signed_for_wire blob)
              else Ret (Ok None)
          end
      end
  end.

(** ** Batch sync requests *)

(** One scan of a table, if something of it is wanted. *)
Definition scan {T} `{!Item T} (load : task Sto (result E (list (VerifiedMeta T))))
    (ids : list CommitId) : task node (result io (gmap CommitId (VerifiedMeta T))) :=
  let wanted : gset CommitId := list_to_set ids in
  if bool_decide (wanted = ∅) then Ret (Ok ∅)
  else
    await? items := tmap_err IoStorage (on_storage load) in
    Ret (Ok (first_by_head (fun head => bool_decide (head ∈ wanted)) items)).

(** The items that were found, up to the first error. *)
Fixpoint push_found {T} (found : list (Signed T * Blob))
    (results : list (result E (option (VerifiedMeta T)))) : result io (list (Signed T * Blob)) :=
  match results with
  | [] => Ok found
  | Err e :: _ => Err (IoStorage e)
  | Ok (Some verified) :: results' => push_found (found ++ [to_wire verified]) results'
  | Ok None :: results' => push_found found results'
  end.

Definition point_reads {T} (load : CommitId -> task Sto (result E (option (VerifiedMeta T))))
    (ids : list CommitId) : task node (result io (list (Signed T * Blob))) :=
  tfold (fun found chunk =>
      await results := tfor (fun results i =>
          await r := on_storage (load i) in Ret (results ++ [r])) [] chunk in
      Ret (push_found found results))
    [] (chunks POINT_READ_CHUNK ids).

Notation Answer := (ResponderDiff * list (Signed LooseCommit * Blob) *
                    list (Signed Fragment * Blob))%type (only parsing).

(** The tree is resident: point reads, or a scan if much is wanted. *)
Definition answer_resident (fetcher : Fetcher) (diff : ResponderDiff) : task node (result io Answer) :=
  let missing := (length (rs_local_commit_ids diff) + length (rs_local_fragment_ids diff))%nat in
  let crossover := Nat.max (rs_total_items diff / SCAN_FRACTION_DENOMINATOR) SCAN_CROSSOVER_FLOOR in
  if (crossover <? missing)%nat then
    await? commit_by_id := scan (fetcher_load_loose_commits fetcher) (rs_local_commit_ids diff) in
    await? fragment_by_id := scan (fetcher_load_fragments fetcher) (rs_local_fragment_ids diff) in
    Ret (Ok (diff, to_wire <$> hash_values commit_by_id, to_wire <$> hash_values fragment_by_id))
  else
    await? commits := point_reads (fetcher_load_loose_commit fetcher) (rs_local_commit_ids diff) in
    await? fragments := point_reads (fetcher_load_fragment fetcher) (rs_local_fragment_ids diff) in
    Ret (Ok (diff, commits, fragments)).

(** It is not: load all, install the tree, and pick from what was loaded. *)
Definition answer_missing (id : SedimentreeId) (their_fingerprints : FingerprintSummary)
    (fetcher : Fetcher) : task node (result io Answer) :=
  await? verified_commits := tmap_err IoStorage (on_storage (fetcher_load_loose_commits fetcher)) in
  await? verified_fragments := tmap_err IoStorage (on_storage (fetcher_load_fragments fetcher)) in
  let commit_by_id := first_by_head (fun _ => true) verified_commits in
  let fragment_by_id := first_by_head (fun _ => true) verified_fragments in
  let loose_commits := vm_payload <$> hash_values commit_by_id in
  let fragments := vm_payload <$> hash_values fragment_by_id in
  await sedimentree :=
    (if bool_decide (loose_commits = []) && bool_decide (fragments = []) then
       Ret (Minimized.already_minimal Sedimentree_empty)
     else
       await built := or_panic (minimize depth_metric (Sedimentree_new fragments loose_commits)) in
       on_cache (Bounded.get_or_insert_with shards id (Minimized.already_minimal built))) in
  await diff := or_panic (
    '(_, minimal) ← Minimized.minimized depth_metric sedimentree;
    ResponderDiff_new minimal their_fingerprints) in
  Ret (Ok (diff, to_wire <$> omap (fun i => commit_by_id !! i) (rs_local_commit_ids diff),
           to_wire <$> omap (fun i => fragment_by_id !! i) (rs_local_fragment_ids diff))).

Definition answer_request (id : SedimentreeId) (their_fingerprints : FingerprintSummary)
    (fetcher : Fetcher) : task node (result io Answer) :=
  await cached := on_cache (Bounded.with_entry shards id (fun tree =>
    '(tree, minimal) ← Minimized.minimized depth_metric tree;
    diff ← ResponderDiff_new minimal their_fingerprints;
    Some (tree, diff))) in
  match cached with
  | Some diff => answer_resident fetcher diff
  | None => answer_missing id their_fingerprints fetcher
  end.

Definition recv_batch_sync_request (id : SedimentreeId) (their_fingerprints : FingerprintSummary)
    (req_id : RequestId) (conn : Authenticated Conn) : task node (result io unit) :=
  let peer_id := au_peer_id conn in
  await r := on_policy (get_fetcher peer_id id) in
  match r with
  | Err _ =>
      await _ := on_net (send (au_inner conn) (SM_BatchSyncResponse
        (MkBatchSyncResponse req_id id SR_Unauthorized (MkRemoteHeads 0 [])))) in
      Ret (Ok tt)
  | Ok fetcher =>
      await? '(diff, their_missing_commits, their_missing_fragments) :=
        answer_request id their_fingerprints fetcher in
      await counter := next seed peer_id in
      let responder_heads := MkRemoteHeads counter (rs_heads diff) in
      let sync_diff := MkSyncDiff their_missing_commits their_missing_fragments
        (MkRequestedData (rs_requesting_commit_fingerprints diff)
           (rs_requesting_fragment_fingerprints diff)) in
      await _ := on_net (send (au_inner conn) (SM_BatchSyncResponse
        (MkBatchSyncResponse req_id id (SR_Ok sync_diff) responder_heads))) in
      Ret (Ok tt)
  end.

(** ** Batch sync responses *)

Definition handle_batch_sync_response (from : PeerId) (id : SedimentreeId) (diff : SyncDiff) :
  task node (result io (option (FanOut Conn))) :=
  await? ingested := recv_batch_sync_response shards from id diff in
  await _ := minimize_tree shards depth_metric id in
  if Ingested_is_empty ingested then Ret (Ok None)
  else
    await conns := get_authorized_subscriber_conns id from in
    match conns with
    | [] => Ret (Ok None)
    | _ =>
        await heads := heads_for id in
        await pushes := build_pushes seed id heads conns ingested in
        Ret (Ok (Some (MkFanOut None pushes)))
    end.

(** ** Dispatch *)

(** [unlocked] is whether the notifier gets its lock. *)
Definition dispatch (unlocked : bool) (conn : Authenticated Conn) (message : SyncMessage) :
  task node (result io (option (FanOut Conn))) :=
  let from := au_peer_id conn in
  match message with
  | SM_LooseCommit id commit blob sender_heads =>
      await _ := notify unlocked id from sender_heads in
      recv_commit from id commit blob conn
  | SM_Fragment id fragment blob sender_heads =>
      await _ := notify unlocked id from sender_heads in
      recv_fragment from id fragment blob conn
  | SM_BatchSyncRequest req =>
      await _ := (if bsq_subscribe req then add_subscription from (bsq_id req) else Ret tt) in
      await? _ := recv_batch_sync_request (bsq_id req) (bsq_fingerprint_summary req)
                    (bsq_req_id req) conn in
      Ret (Ok None)
  | SM_BatchSyncResponse resp =>
      match bsr_result resp with
      | SR_Ok diff => handle_batch_sync_response from (bsr_id resp) diff
      | SR_NotFound | SR_Unauthorized => Ret (Ok None)
      end
  | SM_RemoveSubscriptions ids =>
      await _ := remove_subscriptions from ids in
      Ret (Ok None)
  | SM_DataRequestRejected _ => Ret (Ok None)
  | SM_HeadsUpdate id heads =>
      await _ := notify unlocked id from heads in
      Ret (Ok None)
  end.

Definition handle (unlocked : bool) (conn : Authenticated Conn) (message : SyncMessage) :
  task node (result io unit) :=
  await? fanout := dispatch unlocked conn message in
  match fanout with
  | Some fanout => await _ := spawn (SpawnedFanOut fanout) in Ret (Ok tt)
  | None => Ret (Ok tt)
  end.
End handler.
