(* ===== verification/ResponderSpec.v ===== *)
(** What a responder to a batch sync request reads.

    The items that the requestor lacks come from point reads, from a scan, or from the load
    that fills the cache; [item_answer] is what each of these ways guarantees, whatever the
    other tasks do meanwhile. *)

From Stdlib Require Import Strings.Byte NArith Lia.
From stdpp Require Import base gmap sorting list relations.
From S2P Require Import Prelude.
From S2P Require Import Codec.
From S2P Require Import Types.
From S2P Require Import LooseCommit.
From S2P Require Import Fragment.
From S2P Require Import Traversal.
From S2P Require Import Sedimentree.
From S2P Require Import Minimize.
From S2P Require Import Minimized.
From S2P Require Import Fingerprints.
From S2P Require Import Signed.
From S2P Require Import Message.
From S2P Require Import Tasks.
From S2P Require Import ShardedMap.
From S2P Require Import BoundedShardedMap.
From S2P Require Import Storage.
From S2P Require Import Node.
From S2P Require Import Ingest.
From S2P Require Import IngestSpec.
From S2P Require Import SyncHandler.

(** ** Lists *)

Lemma chunks_concat {A} n (l : list A) : (0 < n)%nat -> concat (chunks n l) = l.
Proof.
  intros Hn. unfold chunks. remember (length l) as fuel eqn:Hf.
  assert (Hle : (length l <= fuel)%nat) by lia. clear Hf. revert l Hle.
  induction fuel as [|fuel IH]; intros [|x l] Hle; [done|simpl in Hle; lia|done|].
  cbn [chunks_fuel concat]. rewrite IH; [apply take_drop|].
  rewrite length_drop. simpl in *. lia.
Qed.

Lemma first_by_head_lookup {T} `{!Item T} wanted (items : list (VerifiedMeta T)) i :
  match first_by_head wanted items !! i with
  | Some v => v ∈ items /\ item_head (vm_payload v) = i /\ wanted i = true
  | None => forall v, v ∈ items -> item_head (vm_payload v) = i -> wanted i = false
  end.
Proof.
  induction items as [|v items IH] using rev_ind.
  { unfold first_by_head. cbn [foldl]. rewrite lookup_empty. by intros v Hv%not_elem_of_nil. }
  unfold first_by_head in *. rewrite foldl_app. cbn [foldl].
  set (mp := foldl _ ∅ items) in *. clearbody mp.
  assert (Hkeep : match mp !! i with
    | Some w => w ∈ items ++ [v] /\ item_head (vm_payload w) = i /\ wanted i = true
    | None => forall w, w ∈ items -> item_head (vm_payload w) = i -> wanted i = false
    end).
  { destruct (mp !! i); [|done]. destruct IH as (? & ? & ?). split_and!; [|done..].
    apply elem_of_app. by left. }
  destruct (wanted (item_head (vm_payload v))) eqn:Hw; unfold or_insert;
    [destruct (mp !! item_head (vm_payload v)) eqn:Hm|].
  - destruct (mp !! i) eqn:Hi; [done|]. intros w [Hin| ->%list_elem_of_singleton]%elem_of_app; [by apply Hkeep|].
    intros <-. congruence.
  - destruct (decide (i = item_head (vm_payload v))) as [-> |Hne].
    + rewrite lookup_insert_eq. split_and!; [|done..]. apply elem_of_app. right. by left.
    + rewrite lookup_insert_ne by done. destruct (mp !! i); [done|].
      intros w [Hin| ->%list_elem_of_singleton]%elem_of_app Heq; [eauto|congruence].
  - destruct (mp !! i); [done|]. intros w [Hin| ->%list_elem_of_singleton]%elem_of_app Heq; [eauto|].
    by subst i.
Qed.

Section responder.
Context `{HashIter, SipHash24Range, Ed25519, Blake3, Bijou64}.
Context {Sto E Pol Df Dp Net Conn SendErr : Type} `{!Storage Sto E} `{!StorageLaws Sto E}.
Context `{!StoragePolicy Pol Df Dp} `{!Sent Net Conn}.
Context (shards : nat) (Hshards : (0 < shards)%nat) (Hmax : N.of_nat shards <= u64_max).
Context (m : DepthMetric).
Context (good_c : SedimentreeId -> VerifiedMeta LooseCommit -> Prop).
Context (good_f : SedimentreeId -> VerifiedMeta Fragment -> Prop).
Notation node := (Node Sto Pol Net Conn).
Notation io := (IoError E SendErr).
Notation only := (st_only good_c good_f).
Implicit Types (s t : node) (id : SedimentreeId).
Context (rest_ok : node -> Prop).
Context (Hrest_cache : forall c s, rest_ok s -> rest_ok (set_cache c s)).
Context (Hrest_storage : forall x s, rest_ok s -> rest_ok (set_storage x s)).
Notation inv := (node_inv shards m good_c good_f rest_ok).
Notation grows := (node_grows m).
Notation wpn := (wp inv grows).

(** ** Items of one kind *)

Section kind.
Context {T : Type} `{!Schema T, !EncodeFields T, !DecodeFields T, !Item T}.
Context (stored : Sto -> SedimentreeId -> VerifiedMeta T -> Prop).
Context (good : SedimentreeId -> VerifiedMeta T -> Prop) (ops : item_ops Sto E T).
Context (Hlaws : item_laws only st_grows st_fails st_ids stored good ops).
Context (Hgrow : forall x x' id v, st_grows x x' -> stored x id v -> stored x' id v).
Notation head_of v := (item_head (vm_payload v)).

(** At most one item for each of [ids], each of them stored, and one for each of [ids] that
    was stored at [x0]. *)
Definition item_answer (x0 x : Sto) id (ids : list CommitId) (l : list (Signed T * Blob)) : Prop :=
  exists vs, l = to_wire <$> vs /\ NoDup ((fun v => head_of v) <$> vs) /\
    (forall v, v ∈ vs -> meta_ok v /\ stored x id v /\ head_of v ∈ ids) /\
    (forall v, stored x0 id v -> head_of v ∈ ids -> head_of v ∈ (fun v => head_of v) <$> vs).

Lemma item_answer_weaken x0 x0' x x' id ids l :
  st_grows x0 x0' -> st_grows x x' -> item_answer x0' x id ids l -> item_answer x0 x' id ids l.
Proof.
  intros H0' Hx (vs & -> & Hnd & Hin & Hall). exists vs. split_and!; [done..| |by eauto].
  intros v Hv. destruct (Hin v Hv) as (? & ? & ?). split_and!; eauto.
Qed.

(** The values of a map by head. *)
Lemma by_head_answer x0 x id ids (mp : gmap CommitId (VerifiedMeta T)) :
  (forall i v, mp !! i = Some v -> head_of v = i /\ meta_ok v /\ stored x id v /\ i ∈ ids) ->
  (forall v, stored x0 id v -> head_of v ∈ ids -> is_Some (mp !! head_of v)) ->
  item_answer x0 x id ids (to_wire <$> hash_values mp).
Proof.
  intros Hin Hall. exists (hash_values mp). split_and!; [done| | |].
  - apply NoDup_hash_values_keys. intros i v Hv. by destruct (Hin i v Hv).
  - intros v (i & Hv)%elem_of_hash_values. by destruct (Hin i v Hv) as (<- & ? & ? & ?).
  - intros v Hv Hi. destruct (Hall v Hv Hi) as [w Hw]. apply list_elem_of_fmap. exists w.
    split; [by destruct (Hin _ _ Hw)|]. apply elem_of_hash_values. by eexists.
Qed.

(** A load of all the items, from a storage that is at least [x0]. *)
Lemma loaded_answer x0 x1 x id ids wanted l :
  st_grows x0 x1 -> (forall i, wanted i = true -> i ∈ ids) ->
  (forall i, i ∈ ids -> wanted i = true) ->
  (forall v, v ∈ l -> meta_ok v /\ stored x id v) ->
  loads_all stored x1 id ((fun v => head_of v) <$> l) ->
  item_answer x0 x id ids (to_wire <$> hash_values (first_by_head wanted l)).
Proof.
  intros Hg Hw1 Hw2 Hl Hall. apply by_head_answer.
  - intros i v Hv. pose proof (first_by_head_lookup wanted l i) as Hf. rewrite Hv in Hf.
    destruct Hf as (Hin & <- & Hw). destruct (Hl v Hin). split_and!; auto.
  - intros v Hv Hi. pose proof (first_by_head_lookup wanted l (head_of v)) as Hf.
    destruct (_ !! head_of v); [by eexists|].
    assert (Hin : head_of v ∈ (fun v => head_of v) <$> l) by (apply Hall; eauto).
    apply list_elem_of_fmap in Hin as (w & Hvw & Hin). symmetry in Hvw.
    specialize (Hf w Hin Hvw). rewrite Hw2 in Hf by done. discriminate.
Qed.

(** What a load of all the items returned. *)
Definition loaded (x0 x : Sto) id (l : list (VerifiedMeta T)) : Prop :=
  (forall v, v ∈ l -> meta_ok v /\ stored x id v) /\
  loads_all stored x0 id ((fun v => head_of v) <$> l).

Lemma loaded_weaken x0 x0' x x' id l :
  st_grows x0 x0' -> st_grows x x' -> loaded x0' x id l -> loaded x0 x' id l.
Proof.
  intros H0' Hx [Hin Hall]. split; [|intros v Hv; by eauto].
  intros v Hv. destruct (Hin v Hv). eauto.
Qed.

Lemma load_all_spec id s :
  inv s -> wpn (tmap_err IoStorage (on_storage (load_items ops id)) : task node (result io _))
    (fun r t => forall l, r = Ok l -> loaded (nd_storage s) (nd_storage t) id l) s.
Proof.
  intros Hs. apply (wp_tmap_err _ _ _ _ (fun l t => loaded (nd_storage s) (nd_storage t) id l)).
  eapply wp_mono; [apply _|apply (wp_storage _ _ _ _ _ Hrest_storage)|].
  - apply (law_load _ _ _ _ _ _ _ Hlaws), Hs.
  - intros r t _ _ Hr l ->. exact Hr.
Qed.

(** The payloads of one item for each head. *)
Lemma by_head_payloads x0 x id l :
  loaded x0 x id l ->
  let payloads := vm_payload <$> hash_values (first_by_head (fun _ => true) l) in
  (forall c, c ∈ payloads -> exists v, stored x id v /\ vm_payload v = c) /\
  loads_all stored x0 id (item_head <$> payloads).
Proof.
  intros [Hin Hall]. cbv zeta. split.
  - intros c (v & -> & [i Hv]%elem_of_hash_values)%list_elem_of_fmap.
    pose proof (first_by_head_lookup (fun _ => true) l i) as Hf. rewrite Hv in Hf.
    exists v. split; [|done]. by apply Hin, Hf.
  - intros v Hv. specialize (Hall v Hv). apply list_elem_of_fmap in Hall as (w & Hvw & Hw).
    pose proof (first_by_head_lookup (fun _ => true) l (head_of v)) as Hf.
    destruct (_ !! head_of v) as [u|] eqn:Hu; [|by specialize (Hf w Hw (eq_sym Hvw))].
    destruct Hf as (_ & <- & _). apply list_elem_of_fmap_2, list_elem_of_fmap_2, elem_of_hash_values.
    by exists (head_of v).
Qed.

(** The wanted ones of a full load. *)
Lemma picked_answer x0 x id ids l :
  NoDup ids -> loaded x0 x id l ->
  item_answer x0 x id ids
    (to_wire <$> omap (fun i => first_by_head (fun _ => true) l !! i) ids).
Proof.
  intros Hnd [Hin Hall].
  assert (Hfound : forall i v, first_by_head (fun _ => true) l !! i = Some v -> v ∈ l /\ head_of v = i).
  { intros i v Hv. pose proof (first_by_head_lookup (fun _ => true) l i) as Hf. rewrite Hv in Hf. tauto. }
  exists (omap (fun i => first_by_head (fun _ => true) l !! i) ids). split_and!; [done|..].
  - eapply sublist_NoDup; [done|]. clear Hnd. induction ids as [|i ids IH]; [done|]. csimpl.
    destruct (_ !! i) as [v|] eqn:Hv; [|by constructor]. apply Hfound in Hv as [_ <-].
    by constructor.
  - intros v (i & Hi & Hv)%list_elem_of_omap. apply Hfound in Hv as [Hv <-].
    by destruct (Hin v Hv).
  - intros v Hv Hi. specialize (Hall v Hv). apply list_elem_of_fmap in Hall as (w & Hvw & Hw).
    pose proof (first_by_head_lookup (fun _ => true) l (head_of v)) as Hf.
    destruct (_ !! head_of v) as [u|] eqn:Hu; [|by specialize (Hf w Hw (eq_sym Hvw))].
    destruct Hf as (_ & Hh & _). rewrite <- Hh. apply (list_elem_of_fmap_2 (fun v => head_of v)).
    apply list_elem_of_omap. by exists (head_of v).
Qed.

Lemma scan_spec id ids s :
  inv s -> wpn (scan (SendErr:=SendErr) (load_items ops id) ids)
    (fun r t => forall mp, r = Ok mp ->
       item_answer (nd_storage s) (nd_storage t) id ids (to_wire <$> hash_values mp)) s.
Proof.
  intros Hs. unfold scan. case_bool_decide as Hnil.
  { apply wp_ret. intros t _ _ mp [= <-]. apply by_head_answer; [intros i v; by rewrite lookup_empty|].
    intros v _ Hi. exfalso. assert (head_of v ∈ (list_to_set ids : gset CommitId)) as Hin
      by (by apply elem_of_list_to_set). by rewrite Hnil in Hin. }
  apply wp_bind_ok; [apply _|].
  eapply wp_mono; [apply _|by apply load_all_spec|].
  intros [l|e] t Ht Hg Hl; [|by apply wp_ret]. destruct (Hl l eq_refl) as [Hin Hall].
  apply wp_ret. intros u Hu Hgu mp [= <-].
  eapply (item_answer_weaken (nd_storage s)); [done|apply Hgu|].
  eapply loaded_answer; [done| | |done|done].
  - intros i Hi%bool_decide_eq_true. by apply elem_of_list_to_set in Hi.
  - intros i Hi. apply bool_decide_eq_true. by apply elem_of_list_to_set.
Qed.

(** One result of a point read. *)
Definition read_one (x0 x : Sto) id (i : CommitId) (r : result E (option (VerifiedMeta T))) : Prop :=
  (forall v, r = Ok (Some v) -> meta_ok v /\ stored x id v /\ head_of v = i) /\
  (r = Ok None -> forall v, stored x0 id v -> head_of v <> i).

Lemma read_one_weaken x0 x0' x x' id i r :
  st_grows x0 x0' -> st_grows x x' -> read_one x0' x id i r -> read_one x0 x' id i r.
Proof.
  intros H0' Hx [Hsome Hnone]. split.
  - intros v Hv. destruct (Hsome v Hv) as (? & ? & ?). split_and!; eauto.
  - intros Hr v Hv. eauto.
Qed.

Lemma push_found_spec x0 x id (found found' : list (Signed T * Blob)) chunk results :
  push_found (SendErr:=SendErr) found results = Ok found' ->
  Forall2 (read_one x0 x id) chunk results ->
  exists vs, found' = found ++ (to_wire <$> vs) /\
    (forall v, v ∈ vs -> meta_ok v /\ stored x id v) /\
    ((fun v => head_of v) <$> vs) `sublist_of` chunk /\
    (forall v, stored x0 id v -> head_of v ∈ chunk -> head_of v ∈ (fun v => head_of v) <$> vs).
Proof.
  intros Hp Hf. revert found Hp. induction Hf as [|i r chunk results [Hsome Hnone] _ IH];
    intros found Hp; cbn [push_found] in Hp.
  { injection Hp as <-. exists []. rewrite app_nil_r. split_and!; [done| |done|];
      intros v Hv; [by apply not_elem_of_nil in Hv|done]. }
  destruct r as [[w|]|e]; [| |done].
  - destruct (IH _ Hp) as (vs & -> & Hin & Hsub & Hall). destruct (Hsome w eq_refl) as (? & ? & <-).
    exists (w :: vs). csimpl. rewrite <- app_assoc. split_and!; [done| |by constructor|].
    + intros v [-> |Hv]%elem_of_cons; auto.
    + intros v Hv [Hi|Hi]%elem_of_cons; [rewrite Hi; left|right; auto].
  - destruct (IH _ Hp) as (vs & -> & Hin & Hsub & Hall). exists vs.
    split_and!; [done..|by constructor|].
    intros v Hv [Hi|Hi]%elem_of_cons; [by destruct (Hnone eq_refl v Hv)|auto].
Qed.

(** The reads of one chunk. *)
Lemma read_chunk_spec id chunk s :
  inv s ->
  wpn (tfor (fun results i => await r := on_storage (load_item ops id i) in Ret (results ++ [r]))
         [] chunk)
    (fun results t => Forall2 (read_one (nd_storage s) (nd_storage t) id) chunk results) s.
Proof.
  intros Hs. pose proof (wp_tfor_state inv grows
    (fun results i => await r := on_storage (load_item ops id i) in Ret (results ++ [r]))
    (fun seen results t => grows s t /\
       Forall2 (read_one (nd_storage s) (nd_storage t) id) seen results) [] chunk [] s) as Hloop.
  eapply wp_mono; [apply _|apply Hloop; [| |done|by split]|].
  - intros seen results t u [Hgt Hf] _ Hg. split; [by etrans|]. eapply Forall2_impl; [done|].
    intros i r. apply read_one_weaken; [done|apply Hg].
  - intros seen results i t _ Ht [Hgt Hf].
    eapply wp_map; [apply _|apply (wp_storage _ _ _ _ _ Hrest_storage)|].
    + apply (law_load_one _ _ _ _ _ _ _ Hlaws), Ht.
    + intros r u _ Hgu Hr. split; [by etrans|]. apply Forall2_app.
      * eapply Forall2_impl; [done|]. intros j r'. apply read_one_weaken; [done|apply Hgu].
      * constructor; [|constructor]. eapply read_one_weaken; [apply Hgt|done|].
        by destruct r as [[v|]|e]; (split; [intros w Hw|intros Hw]); try done; injection Hw as <-.
  - by intros results t _ _ [_ Hf].
Qed.

Lemma point_reads_spec id ids s :
  inv s -> NoDup ids ->
  wpn (point_reads (SendErr:=SendErr) (load_item ops id) ids)
    (fun r t => forall l, r = Ok l ->
       item_answer (nd_storage s) (nd_storage t) id ids l) s.
Proof.
  intros Hs Hnd. unfold point_reads.
  eapply wp_mono; [apply _|eapply (wp_tfold inv grows _ (fun seen found t => grows s t /\
    (NoDup (concat seen) -> item_answer (nd_storage s) (nd_storage t) id (concat seen) found)) [])|].
  - intros seen found t u [Hgt Ha] _ Hg. split; [by etrans|]. intros Hc.
    eapply item_answer_weaken; [done|apply Hg|auto].
  - intros seen found chunk t _ Ht [Hgt Ha]. apply wp_bind; [apply _|].
    eapply wp_mono; [apply _|by apply read_chunk_spec|]. intros results u Hu Hgu Hf.
    apply wp_ret. intros w Hw Hgw found' Hp. split; [by do 2 (etrans; [done|])|].
    rewrite concat_app. cbn [concat]. rewrite app_nil_r. intros [Hn1 [Hdisj Hn2]]%NoDup_app.
    destruct (Ha Hn1) as (vs & -> & Hvn & Hvin & Hvall).
    destruct (push_found_spec _ _ _ _ _ _ _ Hp Hf) as (ws & -> & Hwin & Hsub & Hwall).
    assert (Hg1 : st_grows (nd_storage t) (nd_storage w)) by (etrans; [apply Hgu|apply Hgw]).
    assert (Hg2 : st_grows (nd_storage u) (nd_storage w)) by apply Hgw.
    exists (vs ++ ws). rewrite !fmap_app. split_and!; [done| | |].
    + apply NoDup_app. split_and!; [done| |by exact (sublist_NoDup _ _ Hn2 Hsub)].
      intros h (v & -> & Hv)%list_elem_of_fmap Hh. eapply Hdisj; [by apply Hvin|].
      by eapply elem_of_sublist.
    + intros v [Hv|Hv]%elem_of_app.
      * destruct (Hvin v Hv) as (? & ? & ?). split_and!; eauto. apply elem_of_app. by left.
      * destruct (Hwin v Hv) as [? ?]. split_and!; eauto. apply elem_of_app. right.
        eapply elem_of_sublist; [|done]. apply list_elem_of_fmap. by exists v.
    + intros v Hv [Hi|Hi]%elem_of_app; apply elem_of_app; [left; by apply Hvall|right].
      apply Hwall; [|done]. eapply Hgrow; [apply Hgt|done].
  - done.
  - split; [done|]. intros _. exists []. split_and!; [done|constructor| |done].
    by intros v Hv%not_elem_of_nil.
  - cbn [app]. intros r t _ _ Hr l Hl. destruct (Hr l Hl) as [_ Ha].
    rewrite chunks_concat in Ha by (unfold POINT_READ_CHUNK; lia). by apply Ha.
Qed.
End kind.

(** ** The answer *)

Lemma prune_covered_sublist tr remote raw l :
  prune_covered tr remote raw = Some l -> l `sublist_of` raw.
Proof.
  unfold prune_covered. case_bool_decide; [by intros [= <-]|].
  destruct (worklist _ _ _ _ _ _ _) as [[covered u]|]; [|done]. intros [= <-]. apply sublist_filter.
Qed.

Lemma NoDup_filter_keys {V} (P : CommitId * V -> Prop) `{forall x, Decision (P x)} (mp : gmap CommitId V) :
  NoDup (filter P (hash_iter mp)).*1.
Proof.
  eapply sublist_NoDup; [apply (NoDup_hash_keys mp)|]. by apply fmap_sublist, sublist_filter.
Qed.

Lemma ResponderDiff_new_spec tr fps :
  exists d, ResponderDiff_new tr fps = Some d /\ NoDup (rs_local_commit_ids d) /\
    NoDup (rs_local_fragment_ids d).
Proof.
  unfold ResponderDiff_new, diff_remote_fingerprints.
  destruct (prune_covered_spec tr fps (filter (fun '(_, c) =>
    Fingerprint_new (fps_seed fps) (lc_head c) ∉ commit_fingerprints fps) (hash_iter (st_commits tr))))
    as (l & Hl & _). rewrite Hl. cbn [mbind option_bind]. eexists. split; [done|].
  cbn [rs_local_commit_ids rs_local_fragment_ids local_only_commits local_only_fragments]. split.
  - eapply sublist_NoDup; [|apply fmap_sublist, (prune_covered_sublist _ _ _ _ Hl)].
    apply NoDup_filter_keys.
  - apply NoDup_filter_keys.
Qed.

Lemma st_commit_grow x x' id v : st_grows x x' -> st_commit x id v -> st_commit x' id v.
Proof. intros (_ & Hc & _). apply Hc. Qed.
Lemma st_fragment_grow x x' id v : st_grows x x' -> st_fragment x id v -> st_fragment x' id v.
Proof. intros (_ & _ & Hf). apply Hf. Qed.

(** The answer is the difference of a tree that a read could have returned, with the items
    that the requestor lacks. *)
Definition answer_ok s t id (fps : FingerprintSummary)
    (a : ResponderDiff * list (Signed LooseCommit * Blob) * list (Signed Fragment * Blob)) : Prop :=
  let '(diff, commits, fragments) := a in
  (exists tr, tree_read m s t id tr /\ ResponderDiff_new tr fps = Some diff) /\
  item_answer st_commit (nd_storage s) (nd_storage t) id (rs_local_commit_ids diff) commits /\
  item_answer st_fragment (nd_storage s) (nd_storage t) id (rs_local_fragment_ids diff) fragments.

Lemma answer_ok_before s s' t id fps a :
  grows s s' -> answer_ok s' t id fps a -> answer_ok s t id fps a.
Proof.
  destruct a as [[d cs] fs]. intros Hg ((tr & Hr & Hd) & Hc & Hf). split_and!.
  - exists tr. split; [by eapply tree_read_before|done].
  - eapply (item_answer_weaken _ st_commit_grow); [apply Hg|done|exact Hc].
  - eapply (item_answer_weaken _ st_fragment_grow); [apply Hg|done|exact Hf].
Qed.

Notation fragments_law := (st_fragment_laws good_c good_f).
Notation commits_law := (st_commit_laws good_c good_f).

Lemma answer_resident_spec id diff s :
  inv s -> NoDup (rs_local_commit_ids diff) -> NoDup (rs_local_fragment_ids diff) ->
  wpn (answer_resident (SendErr:=SendErr) (Fetcher_new id) diff)
    (fun r t => forall a, r = Ok a -> a.1.1 = diff /\
       item_answer st_commit (nd_storage s) (nd_storage t) id (rs_local_commit_ids diff) a.1.2 /\
       item_answer st_fragment (nd_storage s) (nd_storage t) id (rs_local_fragment_ids diff) a.2) s.
Proof.
  intros Hs Hnc Hnf. unfold answer_resident. destruct (_ <? _)%nat.
  - apply wp_bind_ok; [apply _|].
    eapply wp_mono; [apply _|by apply (scan_spec st_commit good_c _ commits_law st_commit_grow)|].
    intros [cm|e] t Ht Hg Hc; [|by apply wp_ret]. specialize (Hc cm eq_refl).
    apply wp_bind_ok; [apply _|].
    eapply wp_mono; [apply _|by apply (scan_spec st_fragment good_f _ fragments_law st_fragment_grow)|].
    intros [fm|e] u Hu Hgu Hf; [|by apply wp_ret]. specialize (Hf fm eq_refl).
    apply wp_ret. intros w Hw Hgw a [= <-]. split_and!; [done|..].
    + eapply (item_answer_weaken _ st_commit_grow); [done| |exact Hc]. etrans; [apply Hgu|apply Hgw].
    + eapply (item_answer_weaken _ st_fragment_grow); [apply Hg|apply Hgw|exact Hf].
  - apply wp_bind_ok; [apply _|].
    eapply wp_mono; [apply _|by apply (point_reads_spec st_commit good_c _ commits_law st_commit_grow)|].
    intros [cm|e] t Ht Hg Hc; [|by apply wp_ret]. specialize (Hc cm eq_refl).
    apply wp_bind_ok; [apply _|].
    eapply wp_mono; [apply _|by apply (point_reads_spec st_fragment good_f _ fragments_law st_fragment_grow)|].
    intros [fm|e] u Hu Hgu Hf; [|by apply wp_ret]. specialize (Hf fm eq_refl).
    apply wp_ret. intros w Hw Hgw a [= <-]. split_and!; [done|..].
    + eapply (item_answer_weaken _ st_commit_grow); [done| |exact Hc]. etrans; [apply Hgu|apply Hgw].
    + eapply (item_answer_weaken _ st_fragment_grow); [apply Hg|apply Hgw|exact Hf].
Qed.

(** The tree that a responder builds and installs, or the one that it finds installed. *)
Lemma install_or_adopt_spec id tr s0 s :
  inv s -> grows s0 s -> hydrates m (nd_storage s0) (nd_storage s) id tr -> ~ stays_resident s0 id ->
  wpn (on_cache (Bounded.get_or_insert_with shards id (Minimized.already_minimal tr)))
    (fun ms t => exists ms', Minimized.ensure_minimized m ms = Some ms' /\
       tree_read m s0 t id (ms_tree ms')) s.
Proof.
  intros Hs Hg0 Hh Hno. eapply wp_cache; [done..|apply Bounded.get_or_insert_with_op|].
  intros s1 Hs1 Hg1. eexists _, _. split; [done|].
  assert (Hh1 : hydrates m (nd_storage s0) (nd_storage s1) id tr).
  { destruct Hh as (full & Hl & Hm). exists full. split; [|done].
    eapply tree_loaded_grows; [apply Hg1|done]. }
  destruct (hydrates_ok _ _ _ _ _ Hh1) as [Hmin Hok]. split_and!.
  - intros ms [= <-]. by destruct (resident s1 !! id) as [ms|] eqn:Hms; [apply Hs1|].
  - intros ms ->. by exists ms.
  - intros t Ht Hgt _. destruct (resident s1 !! id) as [ms|] eqn:Hms; cbn [default].
    + destruct (ensure_minimized_ok m s1 id ms) as (ms' & He & [_ Hb] & Hmin'); [by apply Hs1|].
      exists ms'. split; [done|]. eapply (hit_tree_read m s0 s1); [by etrans|done..].
    + eexists. split; [done|]. cbn [ms_tree Minimized.already_minimal].
      split_and!; [done|eapply backed_grows; [apply Hgt|apply Hok]|right]. split; [|done].
      destruct Hh1 as (full & Hl & Hm). exists full. split; [|done].
      eapply tree_loaded_grows; [apply Hgt|done].
Qed.

(** The tree of a full load, empty or installed. *)
Lemma responder_tree_spec id cs fs s0 s :
  inv s -> grows s0 s -> ~ stays_resident s0 id ->
  tree_loaded m (nd_storage s0) (nd_storage s) id (Some (Minimized.new (Sedimentree_new fs cs))) ->
  wpn (if bool_decide (cs = []) && bool_decide (fs = []) then
         Ret (Minimized.already_minimal Sedimentree_empty)
       else
         await built := or_panic (minimize m (Sedimentree_new fs cs)) in
         on_cache (Bounded.get_or_insert_with shards id (Minimized.already_minimal built)))
    (fun ms t => exists ms', Minimized.ensure_minimized m ms = Some ms' /\
       tree_read m s0 t id (ms_tree ms')) s.
Proof.
  intros Hs Hg Hno Hl. destruct (minimize_entries m (Sedimentree_new fs cs)) as (tr & Hm & _);
    [apply keyed_new|].
  assert (Hh : forall t, grows s t -> hydrates m (nd_storage s0) (nd_storage t) id tr).
  { intros t Ht. eexists. split; [|done]. eapply tree_loaded_grows; [apply Ht|done]. }
  destruct (_ && _) eqn:Hb.
  - apply tree_of_None in Hb as [_ Hnew]. rewrite Hnew, Minimized.minimize_empty in Hm.
    injection Hm as <-. apply wp_ret. intros t Ht Hgt. eexists. split; [done|].
    destruct (hydrates_ok _ _ _ _ _ (Hh t Hgt)) as [Hmin [_ Hb]]. split_and!; [done..|].
    right. by split; [apply Hh|].
  - apply wp_bind; [apply _|]. apply (wp_or_panic _ _ _ _ _ _ tr); [done|]. intros t Ht Hgt.
    apply install_or_adopt_spec; [done|by etrans|by apply Hh|done].
Qed.

Lemma answer_missing_spec id fps s0 s :
  inv s -> grows s0 s -> ~ stays_resident s0 id ->
  wpn (answer_missing shards m (SendErr:=SendErr) id fps (Fetcher_new id))
    (fun r t => forall a, r = Ok a -> answer_ok s0 t id fps a) s.
Proof.
  intros Hs Hg0 Hno. unfold answer_missing. apply wp_bind_ok; [apply _|].
  eapply wp_mono; [apply _|by apply (load_all_spec st_commit good_c _ commits_law)|].
  intros [cs|e] s1 Hs1 Hg1 Hc; [|by apply wp_ret]. specialize (Hc cs eq_refl).
  apply wp_bind_ok; [apply _|].
  eapply wp_mono; [apply _|by apply (load_all_spec st_fragment good_f _ fragments_law)|].
  intros [fs|e] s2 Hs2 Hg2 Hf; [|by apply wp_ret]. specialize (Hf fs eq_refl).
  assert (Hg02 : grows s0 s2) by (by do 2 (etrans; [done|])).
  assert (Hlc : forall t, grows s2 t -> loaded st_commit (nd_storage s0) (nd_storage t) id cs).
  { intros t Ht. eapply (loaded_weaken _ st_commit_grow); [apply Hg0| |exact Hc].
    etrans; [apply Hg2|apply Ht]. }
  assert (Hlf : forall t, grows s2 t -> loaded st_fragment (nd_storage s0) (nd_storage t) id fs).
  { intros t Ht. eapply (loaded_weaken _ st_fragment_grow); [|apply Ht|exact Hf].
    etrans; [apply Hg0|apply Hg1]. }
  apply wp_bind; [apply _|]. eapply wp_mono; [apply _|apply wp_from_then_on; [apply _|];
    eapply (responder_tree_spec id _ _ s0)|].
  - done.
  - done.
  - done.
  - destruct (by_head_payloads _ _ _ _ _ (Hlc s2 (reflexivity _))) as [Hc1 Hc2].
    destruct (by_head_payloads _ _ _ _ _ (Hlf s2 (reflexivity _))) as [Hf1 Hf2].
    by apply tree_of_loaded.
  - intros ms s3 Hs3 Hg3 Hms. destruct (Hms s3 Hs3 (reflexivity _)) as (ms' & He & _).
    destruct (ResponderDiff_new_spec (ms_tree ms') fps) as (d & Hd & Hnc & Hnf).
    apply wp_bind; [apply _|]. apply (wp_or_panic _ _ _ _ _ _ d).
    { unfold Minimized.minimized. rewrite He. cbn [mbind option_bind]. exact Hd. }
    intros s4 Hs4 Hg4. apply wp_ret. intros t Ht Hgt a [= <-].
    destruct (Hms t Ht) as (ms2 & He2 & Hr); [by etrans|]. simplify_eq.
    split_and!; [by eexists|apply picked_answer; [done|]..];
      [apply Hlc|apply Hlf]; by do 2 (etrans; [done|]).
Qed.

Lemma answer_request_spec id fps s :
  inv s ->
  wpn (answer_request shards m (SendErr:=SendErr) id fps (Fetcher_new id))
    (fun r t => forall a, r = Ok a -> answer_ok s t id fps a) s.
Proof.
  intros Hs. unfold answer_request. apply wp_bind; [apply _|].
  apply (wp_minimized_hit shards Hshards Hmax m good_c good_f rest_ok Hrest_cache id _
    (fun tr d => ResponderDiff_new tr fps = Some d)); [|done| |].
  - intros ms ms' He. destruct (ResponderDiff_new_spec (ms_tree ms') fps) as (d & Hd & _).
    exists d. split; [|done]. unfold Minimized.minimized. rewrite He.
    cbn [mbind option_bind]. by rewrite Hd.
  - intros d s1 ms ms' t Ht Hs1 Hg1 Hgt Hms He Hd Hmin Hb.
    destruct (ResponderDiff_new_spec (ms_tree ms') fps) as (d' & Hd' & Hnc & Hnf). simplify_eq.
    eapply wp_mono; [apply _|by apply answer_resident_spec|].
    intros r u Hu Hgu Hr [[d' cs] fs] Ha. destruct (Hr _ Ha) as (Hdd & Hc & Hf). cbn in Hdd. subst d'.
    assert (Hst : st_grows (nd_storage s) (nd_storage t)) by (etrans; [apply Hg1|apply Hgt]).
    split_and!.
    + exists (ms_tree ms'). split; [|done].
      by eapply (hit_tree_read m s s1); [..|etrans|done|done|done|].
    + by eapply (item_answer_weaken _ st_commit_grow).
    + by eapply (item_answer_weaken _ st_fragment_grow).
  - intros s1 t Hs1 Ht Hg1 Hgt Hmiss. apply answer_missing_spec; [done|by etrans|].
    intros Hst. destruct (stays_resident_grows _ _ _ _ Hg1 Hst) as [_ [ms Hms]]. congruence.
Qed.
End responder.
