(* ===== verification/SyncHandlerSpec.v ===== *)
(** What the handler of sync messages guarantees.

    The invariant is that of ingestion, and in addition: every message that the transport was
    given may be received by the peer that it was sent to ([may_receive]), an open connection
    is filed under the peer that has proved to be at its other end, and no tree has an empty
    set of subscribers. *)

From Stdlib Require Import Strings.Byte NArith Lia.
From stdpp Require Import base gmap sorting list relations.
From S2P Require Import Prelude.
From S2P Require Import Codec.
From S2P Require Import Types.
From S2P Require Import LooseCommit.
From S2P Require Import Fragment.
From S2P Require Import Traversal.
From S2P Require Import Sedimentree.
From S2P Require Import Minimize.
From S2P Require Import Minimized.
From S2P Require Import Fingerprints.
From S2P Require Import Signed.
From S2P Require Import Message.
From S2P Require Import Authenticated.
From S2P Require Import Tasks.
From S2P Require Import ShardedMap.
From S2P Require Import BoundedShardedMap.
From S2P Require Import Storage.
From S2P Require Import Multiplexer.
From S2P Require Import Node.
From S2P Require Import Ingest.
From S2P Require Import IngestSpec.
From S2P Require Import Peers.
From S2P Require Import SyncHandler.
From S2P Require Import ResponderSpec.

Section handler_spec.
Context `{HashIter, SipHash24Range, Ed25519, Blake3, Bijou64}.
Context {Sto E Pol Df Dp Net Conn SendErr : Type} `{!Storage Sto E} `{!StorageLaws Sto E}.
Context `{!StoragePolicy Pol Df Dp} `{!Connection Net Conn SendErr}.
Context `{!Sent Net Conn} `{!ConnectionLaws Net Conn SendErr}.
Context (shards : nat) (Hshards : (0 < shards)%nat) (Hmax : N.of_nat shards <= u64_max).
Context (m : DepthMetric) (seed : PeerId -> N).
Notation node := (Node Sto Pol Net Conn).
Notation io := (IoError E SendErr).
Implicit Types (s t : node) (id : SedimentreeId) (conn : Authenticated Conn).

(** The node's own items; what the policy has approved; who is at the end of a connection. *)
Context (own_c : SedimentreeId -> VerifiedMeta LooseCommit -> Prop).
Context (own_f : SedimentreeId -> VerifiedMeta Fragment -> Prop).
Context (put_approved : PeerId -> PeerId -> SedimentreeId -> Prop).
Context (fetch_approved : PeerId -> SedimentreeId -> Prop).
Context (proved : Conn -> PeerId -> Prop).

Notation good_c := (authentic put_approved own_c).
Notation good_f := (authentic put_approved own_f).

(** The policy says yes only to what is approved. *)
Record policy_laws : Prop := {
  pl_put peer author id p :
    wp (fun _ => True) (fun _ _ => True) (authorize_put (P:=Pol) peer author id)
      (fun r _ => r = Ok tt -> put_approved peer author id) p;
  pl_fetch peer id p :
    wp (fun _ => True) (fun _ _ => True) (authorize_fetch (P:=Pol) peer id)
      (fun r _ => r = Ok tt -> fetch_approved peer id) p;
  pl_filter peer ids p :
    wp (fun _ => True) (fun _ _ => True) (filter_authorized_fetch (P:=Pol) peer ids)
      (fun l _ => forall id, id ∈ l -> id ∈ ids /\ fetch_approved peer id) p
}.

(** Items of a tree go to a peer that may fetch it, and are authentic; heads alone, to one
    that may fetch or has been let put; a refusal says nothing about the tree. *)
Definition may_receive (peer : PeerId) (msg : SyncMessage) : Prop :=
  match msg with
  | SM_LooseCommit id commit blob _ =>
      fetch_approved peer id /\ exists v, to_wire v = (commit, blob) /\ good_c id v
  | SM_Fragment id fragment blob _ =>
      fetch_approved peer id /\ exists v, to_wire v = (fragment, blob) /\ good_f id v
  | SM_BatchSyncResponse resp =>
      match bsr_result resp with
      | SR_Ok diff =>
          fetch_approved peer (bsr_id resp) /\
          (forall item, item ∈ sd_missing_commits diff ->
             exists v, to_wire v = item /\ good_c (bsr_id resp) v) /\
          (forall item, item ∈ sd_missing_fragments diff ->
             exists v, to_wire v = item /\ good_f (bsr_id resp) v)
      | SR_Unauthorized => bsr_responder_heads resp = MkRemoteHeads 0 []
      | SR_NotFound => False
      end
  | SM_HeadsUpdate id _ => exists author, put_approved peer author id
  | SM_BatchSyncRequest req =>
      exists tr seed, minimal m tr /\
        bsq_fingerprint_summary req = fr_summary_of (fingerprint_resolver tr seed)
  | SM_DataRequestRejected _ => True
  | SM_RemoveSubscriptions _ => False
  end.

Definition good_sent (x : Conn * SyncMessage) : Prop :=
  exists peer, proved x.1 peer /\ may_receive peer x.2.

Definition proved_conn (conn : Authenticated Conn) : Prop := proved (au_inner conn) (au_peer_id conn).

Definition good_push (p : Authenticated Conn * SyncMessage) : Prop :=
  proved_conn p.1 /\ may_receive (au_peer_id p.1) p.2.

Definition good_job (job : Spawned Conn) : Prop :=
  match job with
  | SpawnedPushes pushes => Forall good_push pushes
  | SpawnedFanOut fo => (forall p, fo_ack fo = Some p -> good_push p) /\ Forall good_push (fo_pushes fo)
  end.

Record peers_ok s : Prop := {
  po_net : net_only good_sent (nd_net s);
  po_conns peer conns conn : nd_connections s !! peer = Some conns -> conn ∈ conns ->
    au_peer_id conn = peer /\ proved_conn conn;
  po_nonempty peer : nd_connections s !! peer <> Some [];
  po_subs id peers : nd_subscriptions s !! id = Some peers -> peers <> ∅;
  po_calls : calls_ok (lk_calls (nd_links s));
  po_muxes peer muxes : lk_multiplexers (nd_links s) !! peer = Some muxes ->
    muxes <> [] /\ Forall (fun i => is_Some (ca_muxes (lk_calls (nd_links s)) !! i)) muxes;
  po_linked : dom (lk_multiplexers (nd_links s)) = dom (nd_connections s);
  po_spawned : Forall good_job (lk_spawned (nd_links s))
}.

Notation inv := (node_inv shards m good_c good_f peers_ok).
Notation grows := (node_grows m).
Notation wpn := (wp inv grows).

Lemma peers_ok_cache c s : peers_ok s -> peers_ok (set_cache c s).
Proof. by intros []. Qed.
Lemma peers_ok_storage x s : peers_ok s -> peers_ok (set_storage x s).
Proof. by intros []. Qed.
Lemma peers_ok_policy x s : peers_ok s -> peers_ok (set_policy x s).
Proof. by intros []. Qed.
#[local] Hint Resolve peers_ok_cache peers_ok_storage peers_ok_policy : core.

(** ** Counters, heads and subscriptions *)

Lemma counters_grow s t (counters : gmap PeerId N) :
  dom (nd_send_counter s) ⊆ dom counters -> side_grows s (set_send_counter counters s).
Proof. by split. Qed.

Lemma next_spec peer s : wpn (next seed peer) (fun _ _ => True) s.
Proof.
  unfold next. apply wp_bind; [apply _|]. apply wp_field; [done..|]. intros t Ht Hg. split_and!.
  - by destruct Ht as [_ _ _ []].
  - apply counters_grow; [done|]. cbn [fst]. unfold or_insert.
    destruct (nd_send_counter t !! peer); [done|]. rewrite dom_insert_L. set_solver.
  - intros u Hu Hgu. apply wp_bind; [apply _|]. intros w Hw Hgw.
    assert (is_Some (nd_send_counter w !! peer)) as [c Hc].
    { apply elem_of_dom, (sg_counters _ _ (ng_side _ _ _ Hgw)), (sg_counters _ _ (ng_side _ _ _ Hgu)).
      cbn [fst set_send_counter nd_send_counter]. unfold or_insert.
      destruct (nd_send_counter t !! peer) eqn:Hp; apply elem_of_dom; [by rewrite Hp|].
      rewrite lookup_insert_eq. by eexists. }
    rewrite Hc. eexists _, c. split; [done|]. pose proof Hw as [? ? Htr Hr]. split_and!.
    + by split; [..|destruct Hr].
    + split; [done..|by intros id ms _ Hms; exists ms|]. apply counters_grow; [done|].
      rewrite dom_insert_L. set_solver.
    + by apply wp_ret.
Qed.

Lemma notify_spec unlocked id peer heads s : wpn (notify unlocked id peer heads) (fun _ _ => True) s.
Proof.
  unfold notify. destruct unlocked; [|by apply wp_ret]. apply wp_bind; [apply _|].
  apply wp_field; [done..|]. intros t Ht Hg.
  split_and!; [by destruct Ht as [_ _ _ []]|by apply side_same|].
  intros u Hu _. destruct (if _ <=? _ then _ else _) as [x []]; [|by apply wp_ret].
  apply wp_field; [done..|]. intros w Hw _.
  split_and!; [by destruct Hw as [_ _ _ []]|by apply side_same|done].
Qed.

(** The subscriptions, as long as no tree has an empty set of subscribers. *)
Lemma peers_ok_subs x s :
  (forall id peers, x !! id = Some peers -> peers <> ∅) -> peers_ok s -> peers_ok (set_subscriptions x s).
Proof. by intros Hx []. Qed.

Lemma add_subscription_spec peer id s : wpn (add_subscription peer id) (fun _ _ => True) s.
Proof.
  apply wp_field; [done..|]. intros t Ht Hg. split_and!; [|by apply side_same|done].
  apply peers_ok_subs; [|apply Ht]. intros j ps. cbn [fst].
  rewrite lookup_insert_Some. intros [[<- <-]|[_ Hj]]; [set_solver|by eapply (po_subs _ (ni_rest _ _ _ _ _ _ Ht))].
Qed.

Lemma unsubscribe_ok peer (subs : gmap SedimentreeId (gset PeerId)) ids :
  (forall j ps, subs !! j = Some ps -> ps <> ∅) ->
  forall j ps, foldl (unsubscribe peer) subs ids !! j = Some ps -> ps <> ∅.
Proof.
  revert subs. induction ids as [|i ids IH]; intros subs Hs; [done|]. simpl. apply IH.
  intros j ps. unfold unsubscribe. destruct (subs !! i) as [ps0|]; [|by apply Hs].
  case_bool_decide.
  - rewrite lookup_delete_Some. intros [_ Hj]. by eapply Hs.
  - rewrite lookup_insert_Some. intros [[<- <-]|[_ Hj]]; [done|by eapply Hs].
Qed.

Lemma remove_subscriptions_spec peer ids s :
  wpn (remove_subscriptions peer ids) (fun _ _ => True) s.
Proof.
  apply wp_field; [done..|]. intros t Ht Hg. split_and!; [|by apply side_same|done].
  apply peers_ok_subs; [|apply Ht]. apply unsubscribe_ok. apply (po_subs _ (ni_rest _ _ _ _ _ _ Ht)).
Qed.

Context (Hpol : policy_laws).

(** Connections at whose other end is a peer that may fetch the tree. *)
Definition may_push id conn : Prop := proved_conn conn /\ fetch_approved (au_peer_id conn) id.

Lemma get_authorized_subscriber_conns_spec id exclude s :
  inv s -> wpn (get_authorized_subscriber_conns id exclude)
    (fun conns _ => forall conn, conn ∈ conns -> may_push id conn) s.
Proof.
  intros Hs. unfold get_authorized_subscriber_conns. apply wp_bind; [apply _|].
  apply wp_reads; [apply _|]. intros s1 _ _ t Ht _. case_bool_decide.
  { apply wp_ret. by intros _ _ _ conn Hc%not_elem_of_nil. }
  apply wp_bind; [apply _|].
  eapply wp_mono; [apply _|apply (wp_tfor inv grows _
    (fun _ peers => forall p, p ∈ peers -> fetch_approved p id) []); [|done|]|].
  - intros seen peers p u _ _ Hps. case_bool_decide; [by apply wp_ret|].
    eapply wp_map; [apply _|apply (wp_policy _ _ _ _ _ peers_ok_policy _
      (fun l => forall i, i ∈ l -> i ∈ [id] /\ fetch_approved p i)), pl_filter, Hpol|].
    intros l u1 _ _ Hl. case_bool_decide as Hnil; [done|].
    intros q [Hq| ->%list_elem_of_singleton]%elem_of_app; [by apply Hps|].
    destruct l as [|i l]; [done|]. destruct (Hl i) as [->%list_elem_of_singleton ?]; [left|done].
  - by intros p Hp%not_elem_of_nil.
  - intros peers u Hu _ Hps. apply wp_reads; [apply _|]. intros w Hw _ _ _ _ conn Hc.
    unfold conns_of in Hc. apply list_elem_of_bind in Hc as (p & Hc & Hp).
    destruct (nd_connections w !! p) as [cs|] eqn:Hcs; [|by apply not_elem_of_nil in Hc].
    destruct (po_conns _ (ni_rest _ _ _ _ _ _ Hw) _ _ _ Hcs Hc) as [Heq Hpr].
    split; [done|]. rewrite Heq. by apply Hps.
Qed.

(** ** Sending *)

Notation given t p := ((au_inner p.1, p.2) ∈ net_sent (nd_net t)).

Lemma send_spec conn msg s :
  inv s -> good_push (conn, msg) ->
  wpn (on_net (send (au_inner conn) msg)) (fun _ t => given t (conn, msg)) s.
Proof.
  intros Hs [Hp Hm]. apply (wp_part _ _ _ _ _ nd_net set_net (net_only good_sent) net_grows
    _ (fun _ net => (au_inner conn, msg) ∈ net_sent net)); try done.
  - by intros t [].
  - by intros t u [].
  - intros x t Hx Hg []. by split.
  - apply (send_law good_sent); [apply Hs|]. by exists (au_peer_id conn).
Qed.

Lemma given_grows s t (p : Authenticated Conn * SyncMessage) : grows s t -> given s p -> given t p.
Proof. intros Hg. apply (sg_net _ _ (ng_side _ _ _ Hg)). Qed.

Lemma FanOut_run_spec (fo : FanOut Conn) s :
  inv s -> (forall p, fo_ack fo = Some p -> good_push p) -> Forall good_push (fo_pushes fo) ->
  wpn (FanOut_run fo)
    (fun _ t => forall p, fo_ack fo = Some p \/ p ∈ fo_pushes fo -> given t p) s.
Proof.
  intros Hs Hack Hpush. unfold FanOut_run. apply wp_bind; [apply _|].
  apply (wp_mono inv grows _ (fun _ t => forall p, fo_ack fo = Some p -> given t p)).
  - destruct (fo_ack fo) as [[conn msg]|]; [|by apply wp_ret].
    eapply wp_map; [apply _|by apply send_spec; auto|]. by intros r t _ _ Ht p [= <-].
  - intros _ t Ht _ Ha. eapply wp_mono; [apply _|apply (wp_tfor_state inv grows _
      (fun seen _ u => grows t u /\ forall p, p ∈ seen -> given u p) []); [| |done|]|].
    + intros seen _ u w [Hg Hseen] _ Hgw. split; [by etrans|]. intros p Hp.
      eapply given_grows; eauto.
    + intros seen _ [conn msg] u Hin Hu [Hg Hseen]. rewrite Forall_forall in Hpush.
      eapply wp_map; [apply _|by apply send_spec; auto|]. intros r w _ Hgw Hw. split; [by etrans|].
      intros p [Hp| ->%list_elem_of_singleton]%elem_of_app; [|done]. eapply given_grows; eauto.
    + split; [done|]. by intros p Hp%not_elem_of_nil.
    + intros _ u _ _ [Hg Hall] p [Hp|Hp]; [|by apply Hall]. eapply given_grows; eauto.
Qed.

Lemma send_frames_spec (frames : list (Authenticated Conn * SyncMessage)) s :
  inv s -> Forall good_push frames -> wpn (send_frames frames) (fun _ _ => True) s.
Proof.
  intros Hs Hf. revert s Hs. induction Hf as [|[conn msg] frames Hm _ IH]; intros s Hs;
    [by apply wp_ret|]. cbn [send_frames]. apply wp_bind; [apply _|].
  eapply wp_mono; [apply _|by apply send_spec|]. intros [[]|e] t Ht _ _; [by apply IH|by apply wp_ret].
Qed.

(** ** Building *)

(** Building the frames for one connection after the other. *)
Lemma build_item_pushes_spec message heads conns s :
  inv s -> (forall conn h, conn ∈ conns -> good_push (conn, message h)) ->
  wpn (build_item_pushes seed message heads conns) (fun ps _ => Forall good_push ps) s.
Proof.
  intros Hs Hgood. apply (wp_tfor inv grows _ (fun _ ps => Forall good_push ps) []); [|done..].
  intros _ ps conn t Hin Ht Hps. eapply wp_map; [apply _|apply next_spec|].
  intros c _ _ _ _. apply Forall_app. split; [done|]. constructor; [|done]. by apply Hgood.
Qed.

Lemma build_pushes_spec id heads conns ing s :
  inv s -> (forall conn, conn ∈ conns -> may_push id conn) ->
  (forall item, item ∈ ing_commits ing -> exists v, to_wire v = item /\ good_c id v) ->
  (forall item, item ∈ ing_fragments ing -> exists v, to_wire v = item /\ good_f id v) ->
  wpn (build_pushes seed id heads conns ing) (fun ps _ => Forall good_push ps) s.
Proof.
  intros Hs Hc Hic Hif. apply (wp_tfor inv grows _ (fun _ ps => Forall good_push ps) []); [|done..].
  intros _ ps conn t Hin Ht Hps. destruct (Hc conn Hin) as [Hp Hf]. apply wp_bind; [apply _|].
  eapply wp_mono; [apply _|apply (wp_tfor inv grows _ (fun _ ps => Forall good_push ps) []); [|done..]|].
  - intros _ ps' [commit blob] u Hi Hu Hps'. eapply wp_map; [apply _|apply next_spec|].
    intros c _ _ _ _. apply Forall_app. split; [done|]. constructor; [|done].
    split; [done|]. split; [done|by apply Hic].
  - intros ps' u Hu _ Hps'.
    apply (wp_tfor inv grows _ (fun _ ps => Forall good_push ps) []); [|done..].
    intros _ ps'' [fragment blob] w Hi Hw Hps''. eapply wp_map; [apply _|apply next_spec|].
    intros c _ _ _ _. apply Forall_app. split; [done|]. constructor; [|done].
    split; [done|]. split; [done|by apply Hif].
Qed.

(** ** Pushed items *)

Lemma heads_for_spec id s :
  inv s -> wpn (heads_for shards m id)
    (fun heads t => heads = [] \/
       exists tr, heads = heads_assuming_minimal tr /\ tree_read m s t id tr) s.
Proof.
  intros Hs. eapply wp_map; [apply _|by apply heads_or_hydrate_spec; auto|].
  intros [[heads|]|e] t _ _ [Hsome _]; [right; by apply Hsome|by left..].
Qed.

Lemma side_relinked s s' x :
  nd_send_counter s' = nd_send_counter s -> nd_net s' = nd_net s ->
  lk_calls x = lk_calls (nd_links s) -> side_grows s (set_links x s').
Proof. intros Hc Hn Hl. split; cbn; by rewrite ?Hc, ?Hn, ?Hl. Qed.

Lemma spawned_spec {R} (f : Links Conn -> Links Conn * R) (P : R -> Prop) s :
  (forall links, Forall good_job (lk_spawned links) ->
     exists l, (f links).1 = set_spawned l links /\ Forall good_job l /\ P (f links).2) ->
  wpn (on_field nd_links set_links f) (fun r _ => P r) s.
Proof.
  intros Hf. apply wp_field; [done..|]. intros t Ht Hg.
  pose proof (ni_rest _ _ _ _ _ _ Ht) as [Hnet Hconns Hne Hsubs Hcalls Hmux Hlink Hsp].
  destruct (Hf _ Hsp) as (l & -> & Hsp' & HP).
  split_and!; [|by apply side_relinked|done]. by split.
Qed.

Lemma spawn_spec job s : good_job job -> wpn (spawn job) (fun _ _ => True) s.
Proof.
  intros Hj. apply (spawned_spec _ (fun _ => True)).
  intros links Hl. eexists. split_and!; [done| |done]. apply Forall_app. by split; [|constructor].
Qed.

(** What a handler leaves to be sent. *)
Definition good_fan_out (r : result io (option (FanOut Conn))) : Prop :=
  forall fo, r = Ok (Some fo) -> good_job (SpawnedFanOut fo).

Lemma good_fan_out_none : good_fan_out (Ok None).
Proof. by intros fo [=]. Qed.
Lemma good_fan_out_err e : good_fan_out (Err e).
Proof. by intros fo [=]. Qed.
#[local] Hint Resolve good_fan_out_none good_fan_out_err : core.

Lemma fan_out_new_spec id conn author build s :
  inv s -> proved_conn conn -> put_approved (au_peer_id conn) author id ->
  (forall heads conns t, inv t -> (forall c, c ∈ conns -> may_push id c) ->
     wpn (build heads conns) (fun ps _ => Forall good_push ps) t) ->
  wpn (fan_out_new shards m seed (au_peer_id conn) id conn build) (fun r _ => good_fan_out r) s.
Proof.
  intros Hs Hp Ha Hbuild. unfold fan_out_new. apply wp_bind; [apply _|].
  eapply wp_mono; [apply _|by apply heads_for_spec|]. intros heads s1 Hs1 _ _.
  apply wp_bind; [apply _|]. eapply wp_mono; [apply _|apply next_spec|]. intros c s2 Hs2 _ _.
  apply wp_bind; [apply _|].
  eapply wp_mono; [apply _|by apply get_authorized_subscriber_conns_spec|].
  intros conns s3 Hs3 _ Hconns. eapply wp_map; [apply _|by apply Hbuild|].
  intros ps t _ _ Hps fo [= <-]. split; [|done]. intros p [= <-]. split; [done|]. by exists author.
Qed.

(** The policy never refuses the peer the tree. *)
Definition fetch_grants (peer : PeerId) id : Prop :=
  forall p, wp (fun _ => True) (fun _ _ => True) (authorize_fetch (P:=Pol) peer id)
    (fun r _ => r = Ok tt) p.

Lemma put_spec author id peer s :
  wpn (on_policy (get_putter peer author id))
    (fun r _ => match r with
       | Ok p => p = Putter_new id /\ put_approved peer author id
       | Err _ => ~ grants (Pol:=Pol) peer author id
       end) s.
Proof. apply get_putter_spec; [auto|apply Hpol]. Qed.

Lemma fetch_spec peer id s :
  wpn (on_policy (get_fetcher peer id))
    (fun r _ => match r with
       | Ok f => f = Fetcher_new id /\ fetch_approved peer id
       | Err _ => ~ fetch_grants peer id
       end) s.
Proof.
  assert (PreOrder (fun _ _ : Pol => True)) by (by split).
  apply (wp_policy _ _ _ _ _ peers_ok_policy _ (fun r => match r with
    | Ok f => f = Fetcher_new id /\ fetch_approved peer id
    | Err _ => ~ fetch_grants peer id
    end)).
  unfold get_fetcher. apply wp_bind_ok; [done|].
  eapply wp_mono; [done|eapply (wp_and_impl _ _ _ _ (fetch_grants peer id)); [apply Hpol|]|].
  - intros Hg. apply Hg.
  - intros [[]|e] p _ _ [Ha Hg]; apply wp_ret; intros _ _ _; [by split; [|apply Ha]|].
    intros Hgr. by apply Hg in Hgr.
Qed.

Section pushed.
Context {T : Type} `{!Schema T, !EncodeFields T, !DecodeFields T, !HasBlobMeta T}.

(** An item that was verified on arrival. *)
Lemma received_meta (signed : Signed T) verified blob v :
  try_from_signed signed = Ok verified -> VerifiedMeta_new verified blob = Ok v ->
  meta_ok v /\ from_wire v (signed, blob) /\ verified_author v = sg_issuer (vs_signed verified) /\
  vs_signed verified = signed.
Proof.
  intros Ht Hn. destruct (verified_meta_ok _ _ _ _ Ht Hn) as (Hok & Hs & Hb).
  assert (Hvs : vs_signed verified = signed).
  { unfold VerifiedMeta_new in Hn. case_bool_decide; [|done]. by injection Hn as <-. }
  split_and!; [done| |unfold verified_author; congruence|done]. split.
  - exists verified. by rewrite Hs, Hb.
  - unfold to_wire. by rewrite Hs, Hb.
Qed.

(** One that was not. *)
Lemma not_received (signed : Signed T) blob v :
  from_wire v (signed, blob) ->
  exists verified, try_from_signed signed = Ok verified /\ VerifiedMeta_new verified blob = Ok v.
Proof. intros [(verified & Ht & Hn) [= <- <-]]. by exists verified. Qed.

Context (good : SedimentreeId -> VerifiedMeta T -> Prop) (inserted : node -> SedimentreeId -> T -> Prop).
Context (insert : Putter -> VerifiedMeta T -> task node (result E bool)).
Context (message : SedimentreeId -> Signed T -> Blob -> RemoteHeads -> SyncMessage).
Context (Hgood : forall peer id v, checked v -> put_approved peer (verified_author v) id -> good id v).
Context (Hinsert : forall id v s, inv s -> meta_ok v -> good id v ->
  wpn (insert (Putter_new id) v) (fun r t => forall b, r = Ok b -> inserted t id (vm_payload v)) s).
Context (Hmessage : forall peer id v h, fetch_approved peer id -> good id v ->
  may_receive peer (message id (vm_signed v) (vm_blob v) h)).

(** [recv_commit] and [recv_fragment]. *)
Lemma recv_item_spec id (signed : Signed T) blob conn s :
  inv s -> proved_conn conn ->
  wpn (match try_from_signed signed with
       | Err _ => Ret (Ok None)
       | Ok verified =>
           await r := on_policy (get_putter (au_peer_id conn) (sg_issuer (vs_signed verified)) id) in
           match r with
           | Err _ => Ret (Ok None)
           | Ok putter =>
               match VerifiedMeta_new verified blob with
               | Err _ => Ret (Ok None)
               | Ok verified_meta =>
                   await? was_new := tmap_err IoStorage (insert putter verified_meta) in
                   if (was_new : bool) then
                     fan_out_new shards m seed (au_peer_id conn) id conn
                       (build_item_pushes seed (message id (vs_signed verified) blob))
                   else Ret (Ok None)
               end
           end
       end : task node (result io (option (FanOut Conn))))
    (fun r t => good_fan_out r /\
       forall o v, r = Ok o -> from_wire v (signed, blob) ->
         grants (Pol:=Pol) (au_peer_id conn) (verified_author v) id -> inserted t id (vm_payload v)) s.
Proof.
  intros Hs Hp. destruct (try_from_signed signed) as [verified|] eqn:Ht.
  2:{ apply wp_ret. intros t _ _. split; [done|].
      intros o v _ (vs & Ht' & _)%not_received. congruence. }
  apply wp_bind; [apply _|]. eapply wp_mono; [apply _|apply put_spec|].
  intros [p|e] s1 Hs1 _ Hput.
  2:{ apply wp_ret. intros t _ _. split; [done|]. intros o v _ (vs & Ht' & Hn')%not_received Hg.
      destruct Hput. destruct (received_meta _ _ _ _ Ht' Hn') as (_ & _ & Ha & _).
      rewrite Ht in Ht'. injection Ht' as <-. by rewrite <- Ha. }
  destruct Hput as [-> Ha]. destruct (VerifiedMeta_new verified blob) as [v|] eqn:Hn.
  2:{ apply wp_ret. intros t _ _. split; [done|].
      intros o v _ (vs & Ht' & Hn')%not_received. congruence. }
  destruct (received_meta _ _ _ _ Ht Hn) as (Hok & Hw & Hau & ->). rewrite <- Hau in Ha.
  assert (Hv : good id v) by (eapply Hgood; [apply Hw|done]). pose proof Hw as [_ [= <- <-]].
  apply wp_bind_ok; [apply _|]. eapply wp_mono; [apply _|apply wp_from_then_on; [apply _|];
    by apply (wp_tmap_err _ _ _ _ (fun _ t => inserted t id (vm_payload v))), Hinsert|].
  intros [b|e] s2 Hs2 _ Hi; [|by apply wp_ret].
  apply (wp_mono inv grows _ (fun r t => good_fan_out r)).
  - destruct b; [|by apply wp_ret]. eapply fan_out_new_spec; [done..|].
    intros heads conns t Hinv Hc. apply build_item_pushes_spec; [done|].
    intros c h Hin. destruct (Hc c Hin) as [Hpc Hf]. split; [done|]. by apply Hmessage.
  - intros r t Hinv Hg Hr. split; [done|]. intros o w _ Hw' _.
    rewrite (from_wire_unique _ _ _ _ _ Ht Hn Hw'). by apply (Hi t Hinv Hg b).
Qed.
End pushed.

Lemma recv_commit_spec id signed blob conn s :
  inv s -> proved_conn conn ->
  wpn (recv_commit shards m seed (au_peer_id conn) id signed blob conn)
    (fun r t => good_fan_out r /\
       forall o v, r = Ok o -> from_wire v (signed, blob) ->
         grants (Pol:=Pol) (au_peer_id conn) (verified_author v) id ->
         commit_inserted m t id (vm_payload v)) s.
Proof.
  apply (recv_item_spec good_c (commit_inserted m) (insert_commit_locally shards) SM_LooseCommit).
  - intros peer i v Hc Ha. right. eauto.
  - intros i v t. apply insert_commit_locally_spec; auto.
  - intros peer i v h Hf Hg. split; [done|]. by exists v.
Qed.

Lemma recv_fragment_spec id signed blob conn s :
  inv s -> proved_conn conn ->
  wpn (recv_fragment shards m seed (au_peer_id conn) id signed blob conn)
    (fun r t => good_fan_out r /\
       forall o v, r = Ok o -> from_wire v (signed, blob) ->
         grants (Pol:=Pol) (au_peer_id conn) (verified_author v) id ->
         fragment_inserted m t id (vm_payload v)) s.
Proof.
  apply (recv_item_spec good_f (fragment_inserted m) (insert_fragment_locally shards) SM_Fragment).
  - intros peer i v Hc Ha. right. eauto.
  - intros i v t. apply insert_fragment_locally_spec; auto.
  - intros peer i v h Hf Hg. split; [done|]. by exists v.
Qed.

(** ** Batches *)

(** The answer to a request, which reads between [s] and [t]. *)
Definition answers s t conn (req : BatchSyncRequest) (resp : BatchSyncResponse) : Prop :=
  bsr_req_id resp = bsq_req_id req /\ bsr_id resp = bsq_id req /\
  match bsr_result resp with
  | SR_Ok diff =>
      exists rd, rh_heads (bsr_responder_heads resp) = rs_heads rd /\
        sd_requesting diff = MkRequestedData (rs_requesting_commit_fingerprints rd)
          (rs_requesting_fragment_fingerprints rd) /\
        answer_ok m s t (bsq_id req) (bsq_fingerprint_summary req)
          (rd, sd_missing_commits diff, sd_missing_fragments diff)
  | SR_NotFound => False
  | SR_Unauthorized => ~ fetch_grants (au_peer_id conn) (bsq_id req)
  end.

Lemma recv_batch_sync_request_spec req conn s :
  inv s -> proved_conn conn ->
  wpn (recv_batch_sync_request shards m seed (bsq_id req) (bsq_fingerprint_summary req)
         (bsq_req_id req) conn : task node (result io unit))
    (fun r t => r = Ok tt ->
       exists resp, given t (conn, SM_BatchSyncResponse resp) /\ answers s t conn req resp) s.
Proof.
  intros Hs Hp. unfold recv_batch_sync_request. apply wp_bind; [apply _|].
  eapply wp_mono; [apply _|apply fetch_spec|]. intros [f|e] s1 Hs1 Hg1 Hf.
  2:{ eapply wp_map; [apply _|apply send_spec; [done|by split]|].
      intros r t _ _ Hgiven _. eexists. split; [exact Hgiven|]. by split_and!. }
  destruct Hf as [-> Hf]. apply wp_bind_ok; [apply _|].
  eapply wp_mono; [apply _|apply wp_from_then_on; [apply _|]; by apply answer_request_spec; auto|].
  intros [[[d cs] fs]|e] s2 Hs2 Hg2 Ha; [|by apply wp_ret].
  apply wp_bind; [apply _|]. eapply wp_mono; [apply _|apply next_spec|]. intros c s3 Hs3 Hg3 _.
  eapply wp_map; [apply _|apply send_spec; [done|]|].
  - destruct (Ha s3 Hs3 Hg3 _ eq_refl) as (_ & (vs & -> & _ & Hc & _) & (ws & -> & _ & Hw & _)).
    destruct Hs3 as [_ (_ & Hoc & Hof) _ _].
    split; [done|]. split_and!; [done|..]; intros item (v & -> & Hv)%list_elem_of_fmap;
      exists v; (split; [done|]); [by apply Hoc, Hc|by apply Hof, Hw].
  - intros r t Ht Hgt Hgiven _. eexists. split; [exact Hgiven|]. split_and!; [done..|]. exists d.
    split_and!; [done..|]. eapply answer_ok_before; [exact Hg1|]. apply Ha; [done|by etrans|done].
Qed.

Lemma handle_batch_sync_response_spec id diff conn s :
  inv s ->
  wpn (handle_batch_sync_response shards m seed (au_peer_id conn) id diff)
    (fun r t => good_fan_out r /\ (forall o, r = Ok o -> exists ing,
       response_ingested (Df:=Df) (Dp:=Dp) m put_approved t (au_peer_id conn) id diff ing)) s.
Proof.
  intros Hs. unfold handle_batch_sync_response. apply wp_bind_ok; [apply _|].
  eapply wp_mono; [apply _|apply wp_from_then_on; [apply _|];
    eapply (recv_batch_sync_response_spec shards Hshards Hmax m good_c good_f);
    [auto..|exact (pl_put Hpol)| | |done]|].
  { intros peer i v Hc Ha. right. eauto. }
  { intros peer i v Hc Ha. right. eauto. }
  intros [ing|e] s1 Hs1 Hg1 Hr; [|by apply wp_ret].
  apply (wp_mono inv grows _ (fun r _ => good_fan_out r)).
  2:{ intros r t Ht Hg Hgood. split; [done|]. intros o _. exists ing. by apply Hr. }
  apply wp_bind; [apply _|]. eapply wp_mono; [apply _|by apply minimize_tree_spec; auto|].
  intros _ s2 Hs2 Hg2 _. destruct (Ingested_is_empty ing); [by apply wp_ret|].
  apply wp_bind; [apply _|].
  eapply wp_mono; [apply _|by apply get_authorized_subscriber_conns_spec|].
  intros conns s3 Hs3 _ Hconns. destruct conns as [|c conns]; [by apply wp_ret|].
  apply wp_bind; [apply _|]. eapply wp_mono; [apply _|by apply heads_for_spec|].
  intros heads s4 Hs4 _ _. eapply wp_map; [apply _|apply build_pushes_spec; [done..| |]|].
  - intros item Hi. destruct (ri_new_commits _ _ _ _ _ _ _ (Hr s1 Hs1 (reflexivity _) ing eq_refl) item Hi)
      as (_ & v & [Hc <-] & Ha & _). exists v. split; [done|]. right. eauto.
  - intros item Hi. destruct (ri_new_fragments _ _ _ _ _ _ _ (Hr s1 Hs1 (reflexivity _) ing eq_refl) item Hi)
      as (_ & v & [Hc <-] & Ha & _). exists v. split; [done|]. right. eauto.
  - intros ps t _ _ Hps fo [= <-]. by split.
Qed.

(** ** Messages *)

(** What has been done when a message of [conn], handled from [s] on, was handled at [t]. *)
Definition handled s t conn (message : SyncMessage) : Prop :=
  let from := au_peer_id conn in
  match message with
  | SM_LooseCommit id commit blob _ =>
      forall v, from_wire v (commit, blob) -> grants (Pol:=Pol) from (verified_author v) id ->
        commit_inserted m t id (vm_payload v)
  | SM_Fragment id fragment blob _ =>
      forall v, from_wire v (fragment, blob) -> grants (Pol:=Pol) from (verified_author v) id ->
        fragment_inserted m t id (vm_payload v)
  | SM_BatchSyncRequest req =>
      exists resp, given t (conn, SM_BatchSyncResponse resp) /\ answers s t conn req resp
  | SM_BatchSyncResponse resp =>
      forall diff, bsr_result resp = SR_Ok diff -> exists ing,
        response_ingested (Df:=Df) (Dp:=Dp) m put_approved t from (bsr_id resp) diff ing
  | _ => True
  end.

Lemma handled_before s s' t conn msg : grows s s' -> handled s' t conn msg -> handled s t conn msg.
Proof.
  intros Hg. destruct msg; try done. intros (resp & Hr & Ha & Hb & Hres). exists resp. unfold answers.
  split_and!; [done..|]. destruct (bsr_result resp) as [diff| |]; [|done..].
  destruct Hres as (rd & Hh & Hq & Hok). exists rd. split_and!; [done..|].
  by eapply answer_ok_before.
Qed.

Lemma dispatch_spec unlocked conn msg s :
  inv s -> proved_conn conn ->
  wpn (dispatch shards m seed unlocked conn msg)
    (fun r t => good_fan_out r /\ (forall o, r = Ok o -> handled s t conn msg)) s.
Proof.
  intros Hs Hp. destruct msg; cbn [dispatch].
  - apply wp_bind; [apply _|]. eapply wp_mono; [apply _|apply notify_spec|]. intros _ s1 Hs1 Hg1 _.
    eapply wp_mono; [apply _|by apply recv_commit_spec|]. intros r t _ _ [Hf Hi].
    split; [done|]. intros o -> v. by eapply Hi.
  - apply wp_bind; [apply _|]. eapply wp_mono; [apply _|apply notify_spec|]. intros _ s1 Hs1 Hg1 _.
    eapply wp_mono; [apply _|by apply recv_fragment_spec|]. intros r t _ _ [Hf Hi].
    split; [done|]. intros o -> v. by eapply Hi.
  - apply wp_bind; [apply _|]. apply (wp_mono inv grows _ (fun _ _ => True)).
    { destruct (bsq_subscribe req); [apply add_subscription_spec|by apply wp_ret]. }
    intros _ s1 Hs1 Hg1 _. apply wp_bind_ok; [apply _|].
    eapply wp_mono; [apply _|apply wp_from_then_on; [apply _|];
      by apply recv_batch_sync_request_spec|].
    intros [[]|e] s2 Hs2 Hg2 Hr; apply wp_ret; [|done]. intros t Ht Hgt. split; [done|].
    intros o _. eapply (handled_before s s1); [done|]. by apply Hr.
  - destruct (bsr_result resp) as [diff| |] eqn:Hres.
    + eapply wp_mono; [apply _|by apply handle_batch_sync_response_spec|].
      intros r t _ _ [Hf Hi]. split; [done|]. intros o Ho d Hd.
      assert (d = diff) as -> by congruence. by eapply Hi.
    + apply wp_ret. intros t _ _. split; [done|]. intros o _ d Hd. congruence.
    + apply wp_ret. intros t _ _. split; [done|]. intros o _ d Hd. congruence.
  - eapply wp_map; [apply _|apply remove_subscriptions_spec|]. done.
  - by apply wp_ret.
  - eapply wp_map; [apply _|apply notify_spec|]. done.
Qed.

Lemma handle_spec unlocked conn msg s :
  inv s -> proved_conn conn ->
  wpn (handle shards m seed unlocked conn msg)
    (fun r t => r = Ok tt -> handled s t conn msg) s.
Proof.
  intros Hs Hp. unfold handle. apply wp_bind_ok; [apply _|].
  eapply wp_mono; [apply _|apply wp_from_then_on; [apply _|]; by apply dispatch_spec|].
  intros [[fo|]|e] s1 Hs1 Hg1 Hr; [| |by apply wp_ret].
  - destruct (Hr s1 Hs1 (reflexivity _)) as [Hf _].
    eapply wp_map; [apply _|by apply spawn_spec, Hf|]. intros _ t Ht Hg _ _.
    by eapply (proj2 (Hr t Ht Hg)).
  - apply wp_ret. intros t Ht Hg _. by eapply (proj2 (Hr t Ht Hg)).
Qed.
End handler_spec.
