(* ===== verification/Registry.v ===== *)
(** The connections of a node, from [subduction_core/src/subduction.rs]: which connections and
    multiplexers each peer has, how they come and go, and how a response finds its call.

    The guard of the connections is held while the multiplexers and the claims of a peer are
    changed with them, so such a change is one section here. What follows the release of the
    guard is a section of its own. *)

From Stdlib Require Import NArith Lia.
From stdpp Require Import base gmap sorting list relations.
From S2P Require Import Prelude.
From S2P Require Import Codec.
From S2P Require Import Types.
From S2P Require Import Traversal.
From S2P Require Import Signed.
From S2P Require Import Message.
From S2P Require Import Authenticated.
From S2P Require Import Tasks.
From S2P Require Import Storage.
From S2P Require Import Multiplexer.
From S2P Require Import Node.
From S2P Require Import Peers.

(** ** Removal from a [NonEmpty] *)

Inductive RemoveResult (T : Type) : Type :=
| RR_NotFound (l : list T)
| RR_Removed (l : list T)
| RR_WasLast (x : T).
Arguments RR_NotFound {_} _.
Arguments RR_Removed {_} _.
Arguments RR_WasLast {_} _.

(** [NonEmptyExt::remove_item], on the head and the tail. *)
Definition remove_item {T} (eqb : T -> T -> bool) (value : T) (self : list T) : RemoveResult T :=
  match self with
  | [] => RR_NotFound []
  | head :: tail =>
      if eqb head value then
        match last tail with
        | Some new_head => RR_Removed (new_head :: take (length tail - 1) tail)
        | None => RR_WasLast head
        end
      else
        match list_find (fun x => eqb x value = true) tail with
        | Some (pos, _) => RR_Removed (head :: delete pos tail)
        | None => RR_NotFound self
        end
  end.

Inductive AddConnectionError (D : Type) : Type :=
| ConnectionDisallowed (e : D)
| SendToClosedChannel.
Arguments ConnectionDisallowed {_} _.
Arguments SendToClosedChannel {_}.

Section registry.
Context `{HashIter}.
Context {Sto Pol D Net Conn SendErr : Type} `{!EqDecision Conn}.
Context `{!ConnectionPolicy Pol D} `{!Connection Net Conn SendErr}.
Notation node := (Node Sto Pol Net Conn).
Implicit Types (s : node) (conn : Authenticated Conn) (peer_id : PeerId).

(** ** Coming *)

(** The section of [register_connection]; [nonce] is the random start of the request ids. *)
Definition register_section (nonce : N) conn s : node * bool :=
  let peer_id := au_peer_id conn in
  let peer_conns := nd_connections s !! peer_id in
  if existsb (fun c => same_transport c conn) (default [] peer_conns) then (s, false)
  else
    let connections := <[peer_id := default [] peer_conns ++ [conn]]> (nd_connections s) in
    (* [clear_stale_outgoing_claims] when the peer was absent *)
    let outgoing :=
      match peer_conns with Some _ => nd_outgoing s | None => delete peer_id (nd_outgoing s) end in
    let links := nd_links s in
    let mux := length (ca_muxes (lk_calls links)) in
    let links :=
      set_calls (MkCalls (ca_muxes (lk_calls links) ++ [Multiplexer_new peer_id nonce])
                   (ca_channels (lk_calls links)))
        (set_multiplexers (<[peer_id := default [] (lk_multiplexers links !! peer_id) ++ [mux]]>
           (lk_multiplexers links)) links) in
    (set_links links (set_outgoing outgoing (set_connections connections s)), true).

Definition register_connection (nonce : N) conn : task node bool :=
  act (fun s => Some (register_section nonce conn s)).

(** [manager_channel.send(command)] *)
Definition send_command (cmd : Command (Authenticated Conn)) : task node (result unit unit) :=
  on_field nd_links set_links (fun links =>
    if lk_open links then
      (set_commands (lk_commands links ++ [cmd]) links, Ok tt)
    else (links, Err tt)).

(** ** Going *)

(** The connection is taken out; with the last one of its peer go the multiplexers, which are
    returned. [None] if it was not there. *)
Definition take_connection conn s : node * option (option (list nat)) :=
  let peer_id := au_peer_id conn in
  match nd_connections s !! peer_id with
  | None => (s, None)
  | Some peer_conns =>
      match remove_item same_transport conn peer_conns with
      | RR_Removed remaining =>
          (set_connections (<[peer_id := remaining]> (nd_connections s)) s, Some None)
      | RR_WasLast _ =>
          let links := nd_links s in
          (set_links (set_multiplexers (delete peer_id (lk_multiplexers links)) links)
             (set_connections (delete peer_id (nd_connections s)) s),
           Some (Some (default [] (lk_multiplexers links !! peer_id))))
      | RR_NotFound _ => (s, None)
      end
  end.

Definition cancel_detached_muxes (muxes : list nat) : task node unit :=
  tfor (fun _ mux => on_calls (cancel_all_pending mux)) tt muxes.

Definition teardown_peer peer_id (muxes : list nat) : task node unit :=
  await _ := cancel_detached_muxes muxes in
  await _ := remove_peer_from_subscriptions peer_id in
  on_field nd_outgoing set_outgoing (fun outgoing => (delete peer_id outgoing, tt)).

Definition remove_connection conn : task node (option bool) :=
  await detached := act (fun s => Some (take_connection conn s)) in
  match detached with
  | None => Ret None
  | Some None => Ret (Some false)
  | Some (Some muxes) =>
      await _ := teardown_peer (au_peer_id conn) muxes in
      Ret (Some true)
  end.

Definition disconnect_connection conn : task node (result SendErr bool) :=
  await detached := act (fun s => Some (take_connection conn s)) in
  match detached with
  | None => Ret (Ok false)
  | Some detached =>
      await _ := match detached with
                 | Some muxes => teardown_peer (au_peer_id conn) muxes
                 | None => Ret tt
                 end in
      await? _ := on_net (disconnect (au_inner conn)) in
      Ret (Ok true)
  end.

(** The disconnections, up to the first that fails. *)
Definition disconnect_each (conns : list (Authenticated Conn)) : task node (result SendErr unit) :=
  tfold (fun _ conn => on_net (disconnect (au_inner conn))) tt conns.

Definition disconnect_all : task node (result SendErr unit) :=
  await '(conns, muxes) := act (fun s : node =>
    let links := nd_links s in
    Some (set_links (set_multiplexers ∅ links) (set_connections ∅ s),
          (concat (hash_values (nd_connections s)), concat (hash_values (lk_multiplexers links))))) in
  await _ := cancel_detached_muxes muxes in
  await _ := on_field nd_subscriptions set_subscriptions (fun _ => (∅, tt)) in
  disconnect_each conns.

Definition disconnect_from_peer peer_id : task node (result SendErr bool) :=
  await removed := act (fun s : node =>
    Some (match nd_connections s !! peer_id with
          | Some conns =>
              let links := nd_links s in
              (set_links (set_multiplexers (delete peer_id (lk_multiplexers links)) links)
                 (set_connections (delete peer_id (nd_connections s)) s),
               Some (conns, default [] (lk_multiplexers links !! peer_id)))
          | None => (s, None)
          end)) in
  match removed with
  | Some (conns, muxes) =>
      await _ := teardown_peer peer_id muxes in
      await? _ := disconnect_each conns in
      Ret (Ok true)
  | None => Ret (Ok false)
  end.

(** ** Adding *)

Definition add_connection (nonce : N) conn : task node (result (AddConnectionError D) bool) :=
  let peer_id := au_peer_id conn in
  await? _ := tmap_err ConnectionDisallowed (on_policy (authorize_connect peer_id)) in
  await fresh := register_connection nonce conn in
  if (fresh : bool) then
    await sent := send_command (CmdAdd conn peer_id) in
    match sent with
    | Err _ =>
        await _ := remove_connection conn in
        Ret (Err SendToClosedChannel)
    | Ok _ => Ret (Ok true)
    end
  else Ret (Ok false).

Definition on_reconnect_success (nonce conn_id : N) conn : task node (result unit unit) :=
  await inserted := register_connection nonce conn in
  await sent := send_command (CmdReAdd conn_id conn (au_peer_id conn)) in
  match sent with
  | Err _ =>
      await _ := (if (inserted : bool) then
                    await _ := remove_connection conn in Ret tt
                  else Ret tt) in
      Ret (Err tt)
  | Ok _ => Ret (Ok tt)
  end.

(** ** Reading *)

Definition all_connections : task node (list (Authenticated Conn)) :=
  reads_state (fun s => concat (hash_values (nd_connections s))).

(** The first multiplexer of the peer. *)
Definition first_mux peer_id : task node (option nat) :=
  reads_state (fun s : node =>
    match lk_multiplexers (nd_links s) !! peer_id with
    | Some muxes => head muxes
    | None => None
    end).

(** ** The events of the listener *)

(** A response is offered to the multiplexers of its peer until one has a call for it. *)
Fixpoint offer_response (resp : BatchSyncResponse) (muxes : list nat) : task node bool :=
  match muxes with
  | [] => Ret false
  | mux :: muxes' =>
      await consumed := on_calls (resolve_pending mux resp) in
      if (consumed : bool) then Ret true else offer_response resp muxes'
  end.

Definition route_response conn (resp : BatchSyncResponse) : task node bool :=
  await muxes := reads_state (fun s : node =>
    default [] (lk_multiplexers (nd_links s) !! au_peer_id conn)) in
  offer_response resp muxes.
End registry.
