(* ===== verification/RegistrySpec.v ===== *)
(** What the registry of connections keeps: the invariant of [SyncHandlerSpec], in which a
    peer has connections exactly if it has multiplexers. *)

From Stdlib Require Import Strings.Byte NArith Lia.
From stdpp Require Import base gmap sorting list relations.
From S2P Require Import Prelude.
From S2P Require Import Codec.
From S2P Require Import Types.
From S2P Require Import LooseCommit.
From S2P Require Import Fragment.
From S2P Require Import Traversal.
From S2P Require Import Sedimentree.
From S2P Require Import Minimize.
From S2P Require Import Minimized.
From S2P Require Import Signed.
From S2P Require Import Message.
From S2P Require Import Authenticated.
From S2P Require Import Tasks.
From S2P Require Import ShardedMap.
From S2P Require Import BoundedShardedMap.
From S2P Require Import Storage.
From S2P Require Import Multiplexer.
From S2P Require Import Node.
From S2P Require Import Ingest.
From S2P Require Import IngestSpec.
From S2P Require Import Peers.
From S2P Require Import SyncHandler.
From S2P Require Import SyncHandlerSpec.
From S2P Require Import Registry.

(** ** Removal *)

Lemma elem_of_concat {A} (x : A) ls : x ∈ concat ls <-> exists l, x ∈ l /\ l ∈ ls.
Proof.
  rewrite list_elem_of_In, in_concat. setoid_rewrite list_elem_of_In. naive_solver.
Qed.

Lemma remove_item_spec {T} (eqb : T -> T -> bool) v l :
  match remove_item eqb v l with
  | RR_NotFound l' => l' = l /\ forall x, x ∈ l -> eqb x v = false
  | RR_Removed l' => exists x, eqb x v = true /\ l ≡ₚ x :: l' /\ l' <> []
  | RR_WasLast x => l = [x] /\ eqb x v = true
  end.
Proof.
  destruct l as [|h tail]; cbn [remove_item]; [split; [done|]; by intros x Hx%not_elem_of_nil|].
  destruct (eqb h v) eqn:Hh.
  - destruct (last tail) as [nh|] eqn:Hl.
    + exists h. split_and!; [done| |done]. constructor. apply last_Some in Hl as [l' ->].
      rewrite length_app, Nat.add_sub, take_app_length. apply Permutation_app_comm.
    + apply last_None in Hl as ->. done.
  - destruct (list_find _ tail) as [[pos x]|] eqn:Hf.
    + apply list_find_Some in Hf as (Hx & He & _). exists x. split_and!; [done| |done].
      etrans; [constructor; by apply (delete_Permutation tail pos x)|]. apply Permutation_swap.
    + split; [done|]. intros x [-> |Hx]%elem_of_cons; [done|].
      apply list_find_None in Hf. rewrite Forall_forall in Hf. specialize (Hf x Hx).
      by destruct (eqb x v).
Qed.

Section registry_spec.
Context `{HashIter, SipHash24Range, Ed25519, Blake3, Bijou64}.
Context {Sto E Pol D Df Dp Net Conn SendErr : Type} `{!Storage Sto E} `{!StorageLaws Sto E}.
Context `{!EqDecision Conn}.
Context `{!StoragePolicy Pol Df Dp} `{!ConnectionPolicy Pol D} `{!Connection Net Conn SendErr}.
Context `{!Sent Net Conn} `{!ConnectionLaws Net Conn SendErr}.
Context (shards : nat) (m : DepthMetric).
Context (own_c : SedimentreeId -> VerifiedMeta LooseCommit -> Prop).
Context (own_f : SedimentreeId -> VerifiedMeta Fragment -> Prop).
Context (put_approved : PeerId -> PeerId -> SedimentreeId -> Prop).
Context (fetch_approved : PeerId -> SedimentreeId -> Prop).
Context (proved : Conn -> PeerId -> Prop).
Notation node := (Node Sto Pol Net Conn).
Implicit Types (s t : node) (conn : Authenticated Conn).
Notation ok := (peers_ok m own_c own_f put_approved fetch_approved proved).
Notation inv := (node_inv shards m (authentic put_approved own_c) (authentic put_approved own_f) ok).
Notation grows := (node_grows m).
Notation wpn := (wp inv grows).

(** ** Calls *)

Lemma wp_calls {R} (op : task calls R) Q s :
  wp calls_ok calls_grow op Q (lk_calls (nd_links s)) ->
  wpn (on_calls op) (fun r t => Q r (lk_calls (nd_links t))) s.
Proof.
  apply (wp_part _ _ _ _ _ (fun s => lk_calls (nd_links s))
    (fun ca s => set_links (set_calls ca (nd_links s)) s) calls_ok calls_grow _ Q); try done.
  - by intros t [].
  - by intros t u [].
  - intros ca t Hca Hg [? ? ? ? ? Hm ? ?]. split; [|by split].
    split; try done. cbn. intros peer muxes Hp. destruct (Hm peer muxes Hp) as [Hne Hall].
    split; [done|]. eapply Forall_impl; [done|]. intros i [mux Hi].
    destruct (cg_muxes _ _ Hg _ _ Hi) as (mux' & Hi' & _). by exists mux'.
Qed.

(** A multiplexer that exists. *)
Definition is_mux s (i : nat) : Prop := is_Some (ca_muxes (lk_calls (nd_links s)) !! i).

Lemma is_mux_grows s t i : grows s t -> is_mux s i -> is_mux t i.
Proof.
  intros Hg [mux Hi]. destruct (cg_muxes _ _ (sg_calls _ _ (ng_side _ _ _ Hg)) _ _ Hi) as (mux' & Hi' & _).
  by exists mux'.
Qed.

Lemma peer_muxes s peer muxes : inv s ->
  lk_multiplexers (nd_links s) !! peer = Some muxes -> Forall (is_mux s) muxes.
Proof. intros Hs Hp. by destruct (po_muxes _ _ _ _ _ _ _ (ni_rest _ _ _ _ _ _ Hs) _ _ Hp). Qed.

Lemma cancel_detached_muxes_spec muxes s :
  inv s -> Forall (is_mux s) muxes -> wpn (cancel_detached_muxes muxes) (fun _ _ => True) s.
Proof.
  intros Hs Hm. eapply wp_mono; [apply _|apply (wp_tfor_state inv grows _ (fun _ _ t => grows s t) []); [| |done|done]|done].
  - intros _ _ t u Hg _ Hgu. by etrans.
  - intros _ _ i t Hin Ht Hg. eapply wp_mono; [apply _|apply wp_calls, cancel_all_spec|].
    + rewrite Forall_forall in Hm. by eapply is_mux_grows, Hm.
    + intros _ u _ Hgu _. by etrans.
Qed.

(** ** Coming and going *)

Lemma calls_ok_new ca mux :
  mx_pending mux = ∅ -> calls_ok ca ->
  let ca' := MkCalls (ca_muxes ca ++ [mux]) (ca_channels ca) in calls_ok ca' /\ calls_grow ca ca'.
Proof.
  intros Hmux [Hw Hp Ho Hd].
  assert (Hback : forall i r c, pends (MkCalls (ca_muxes ca ++ [mux]) (ca_channels ca)) i r c -> pends ca i r c).
  { intros i r c (mx & [Hi|[_ Hi]]%lookup_app_Some & Hc); [by exists mx|].
    apply list_lookup_singleton_Some in Hi as [_ <-]. by rewrite Hmux, lookup_empty in Hc. }
  split; split; cbn [ca_channels ca_muxes]; try done; eauto.
  - intros c r Hc. destruct (Hw c r Hc) as (i & mx & Hi & Hr). exists i, mx. split; [|done].
    apply lookup_app_Some. by left.
  - intros i mx Hi. exists mx. split; [|done]. apply lookup_app_Some. by left.
Qed.

Lemma register_connection_spec nonce conn s :
  proved_conn proved conn -> wpn (register_connection nonce conn) (fun _ _ => True) s.
Proof.
  intros Hp. apply wp_section. intros t Ht Hg. unfold register_section.
  destruct (existsb _ _) eqn:Hex; [split_and!; [done..|apply Ht|done|done]|].
  pose proof (ni_rest _ _ _ _ _ _ Ht) as [Hnet Hconns Hne Hsubs Hcalls Hmux Hlink Hsp].
  destruct (calls_ok_new (lk_calls (nd_links t)) (Multiplexer_new (au_peer_id conn) nonce) eq_refl Hcalls)
    as [Hcalls' Hcg].
  split_and!; [done..| |by split|done]. split; cbn [nd_net nd_connections nd_subscriptions nd_links
    set_links set_outgoing set_connections set_calls set_multiplexers lk_calls lk_multiplexers lk_spawned]; try done.
  - intros peer conns c. rewrite lookup_insert_Some. intros [[<- <-]|[_ Hc]]; [|by eapply Hconns].
    intros [Hin| ->%list_elem_of_singleton]%elem_of_app; [|done].
    destruct (nd_connections t !! au_peer_id conn) as [l|] eqn:Hl; [by eapply Hconns|].
    by apply not_elem_of_nil in Hin.
  - intros peer. rewrite lookup_insert_Some. intros [[_ He]|[_ He]]; [|by apply (Hne peer)].
    by apply app_nil in He as [_ [=]].
  - intros peer muxes. rewrite lookup_insert_Some. intros [[<- <-]|[_ Hp']].
    + split; [by intros [_ [=]]%app_nil|]. apply Forall_app. split.
      * destruct (lk_multiplexers (nd_links t) !! au_peer_id conn) as [l|] eqn:Hl; [|done].
        destruct (Hmux _ _ Hl) as [_ Hall]. eapply Forall_impl; [done|]. intros i [mx Hi]. exists mx.
        apply lookup_app_Some. by left.
      * constructor; [|done]. eexists. by apply list_lookup_middle.
    + destruct (Hmux _ _ Hp') as [? Hall]. split; [done|]. eapply Forall_impl; [done|].
      intros i [mx Hi]. exists mx. apply lookup_app_Some. by left.
  - by rewrite !dom_insert_L, Hlink.
Qed.

Lemma send_command_spec cmd s : wpn (send_command cmd) (fun _ _ => True) s.
Proof.
  apply wp_field; [done..|]. intros t Ht Hg.
  pose proof (ni_rest _ _ _ _ _ _ Ht) as [Hnet Hconns Hne Hsubs Hcalls Hmux Hlink Hsp].
  destruct (lk_open (nd_links t)); split_and!; try done; by split.
Qed.

(** The registry without a peer. *)
Lemma peers_ok_forget peer s :
  ok s -> ok (set_links (set_multiplexers (delete peer (lk_multiplexers (nd_links s))) (nd_links s))
                (set_connections (delete peer (nd_connections s)) s)).
Proof.
  intros [Hnet Hconns Hne Hsubs Hcalls Hmux Hlink Hsp]. split; try done; cbn.
  - intros p conns c [_ Hp]%lookup_delete_Some. by eapply Hconns.
  - intros p [_ Hp]%lookup_delete_Some. by apply (Hne p).
  - intros p muxes [_ Hp]%lookup_delete_Some. by eapply Hmux.
  - by rewrite !dom_delete_L, Hlink.
Qed.

Lemma take_connection_spec conn s :
  wpn (act (fun s => Some (take_connection conn s)))
    (fun r t => forall muxes, r = Some (Some muxes) -> Forall (is_mux t) muxes) s.
Proof.
  apply wp_section. intros t Ht Hg. unfold take_connection.
  destruct (nd_connections t !! au_peer_id conn) as [conns|] eqn:Hc;
    [|split_and!; [done..|apply Ht|done|by intros u _ _ ? [=]]].
  pose proof (remove_item_spec same_transport conn conns) as Hri.
  destruct (remove_item same_transport conn conns) as [l|l|x].
  - split_and!; [done..|apply Ht|done|by intros u _ _ ? [=]].
  - destruct Hri as (x & _ & Hperm & Hl).
    pose proof (ni_rest _ _ _ _ _ _ Ht) as [Hnet Hconns Hne Hsubs Hcalls Hmux Hlink Hsp].
    split_and!; [done..| |by apply side_same|by intros u _ _ ? [=]]. split; try done; cbn.
    + intros p cs c. rewrite lookup_insert_Some. intros [[<- <-]|[_ Hp]]; [|by eapply Hconns].
      intros Hin. apply (Hconns _ conns); [done|]. rewrite Hperm. by right.
    + intros p. rewrite lookup_insert_Some. intros [[_ ->]|[_ Hp]]; [done|by apply (Hne p)].
    + rewrite dom_insert_L, Hlink. symmetry. apply subseteq_union_1_L.
      apply singleton_subseteq_l, elem_of_dom. by exists conns.
  - split_and!; [done..|apply peers_ok_forget, Ht|by apply side_relinked|].
    intros u Hu Hgu muxes [= <-].
    destruct (lk_multiplexers (nd_links t) !! au_peer_id conn) as [muxes|] eqn:Hm; [|constructor].
    eapply Forall_impl; [exact (peer_muxes t _ _ Ht Hm)|]. intros i Hi. eapply is_mux_grows; [done|exact Hi].
Qed.

Lemma remove_peer_from_subscriptions_spec peer s :
  wpn (remove_peer_from_subscriptions peer) (fun _ _ => True) s.
Proof.
  apply wp_field; [done..|]. intros t Ht Hg. split_and!; [|by apply side_same|done].
  apply peers_ok_subs; [|apply Ht]. intros id peers [_ Hp]%map_lookup_filter_Some. exact Hp.
Qed.

Lemma outgoing_spec {R} (f : gmap PeerId (gset SedimentreeId) -> gmap PeerId (gset SedimentreeId) * R) s :
  wpn (on_field nd_outgoing set_outgoing f) (fun _ _ => True) s.
Proof.
  apply wp_field; [done..|]. intros t Ht Hg. split_and!; [|by apply side_same|done].
  by destruct (ni_rest _ _ _ _ _ _ Ht).
Qed.

Lemma teardown_peer_spec peer muxes s :
  inv s -> Forall (is_mux s) muxes -> wpn (teardown_peer peer muxes) (fun _ _ => True) s.
Proof.
  intros Hs Hm. unfold teardown_peer. apply wp_bind; [apply _|].
  eapply wp_mono; [apply _|by apply cancel_detached_muxes_spec|]. intros _ t Ht _ _.
  apply wp_bind; [apply _|]. eapply wp_mono; [apply _|apply remove_peer_from_subscriptions_spec|].
  intros _ u Hu _ _. apply outgoing_spec.
Qed.

Lemma remove_connection_spec conn s : wpn (remove_connection conn) (fun _ _ => True) s.
Proof.
  unfold remove_connection. apply wp_bind; [apply _|].
  eapply wp_mono; [apply _|apply take_connection_spec|]. intros [[muxes|]|] t Ht _ Hm; [|by apply wp_ret..].
  eapply wp_map; [apply _|apply teardown_peer_spec; [done|by apply Hm]|done].
Qed.

Lemma disconnect_spec conn s : inv s -> wpn (on_net (disconnect (au_inner conn))) (fun _ _ => True) s.
Proof.
  intros Hs. eapply wp_mono; [apply _|apply (wp_part _ _ _ _ _ nd_net set_net
    (net_only (good_sent m own_c own_f put_approved fetch_approved proved)) net_grows); try done|done].
  - by intros t [].
  - by intros t u [].
  - intros x t Hx Hg []. by split.
  - apply disconnect_law, Hs.
Qed.

Lemma disconnect_each_spec conns s : inv s -> wpn (disconnect_each conns) (fun _ _ => True) s.
Proof.
  intros Hs. eapply wp_mono; [apply _|apply (wp_tfold inv grows _ (fun _ _ _ => True) [] conns tt s); [done| |done|done]|done].
  intros _ [] conn t _ Ht _. eapply wp_mono; [apply _|by apply disconnect_spec|done].
Qed.

Lemma disconnect_connection_spec conn s :
  wpn (disconnect_connection (SendErr:=SendErr) conn) (fun _ _ => True) s.
Proof.
  unfold disconnect_connection. apply wp_bind; [apply _|].
  eapply wp_mono; [apply _|apply take_connection_spec|]. intros [d|] t Ht _ Hm; [|by apply wp_ret].
  apply wp_bind; [apply _|]. apply (wp_mono inv grows _ (fun _ _ => True)).
  - destruct d as [muxes|]; [|by apply wp_ret]. by apply teardown_peer_spec; [|apply Hm].
  - intros _ u Hu _ _. apply wp_bind_ok; [apply _|]. eapply wp_mono; [apply _|by apply disconnect_spec|].
    by intros [] w _ _ _; apply wp_ret.
Qed.

Lemma disconnect_all_spec s : wpn (disconnect_all (SendErr:=SendErr)) (fun _ _ => True) s.
Proof.
  unfold disconnect_all. apply wp_bind; [apply _|].
  eapply wp_mono; [apply _|apply (wp_section _ _ _ _ _ (fun s : node =>
    (set_links (set_multiplexers ∅ (nd_links s)) (set_connections ∅ s),
     (concat (hash_values (nd_connections s)), concat (hash_values (lk_multiplexers (nd_links s))))))
    (fun r t => Forall (is_mux t) r.2))|].
  - intros t Ht Hg. pose proof (ni_rest _ _ _ _ _ _ Ht) as [Hnet Hconns Hne Hsubs Hcalls Hmux Hlink Hsp].
    split_and!; [done..| |by apply side_relinked|].
    + split; try done; cbn; intros p *; by rewrite lookup_empty.
    + intros u Hu Hgu. cbn [snd]. rewrite Forall_forall. intros i (l & Hi & [p Hl]%elem_of_hash_values)%elem_of_concat.
      eapply is_mux_grows; [done|]. pose proof (peer_muxes _ _ _ Ht Hl) as Hall.
      rewrite Forall_forall in Hall. exact (Hall i Hi).
  - intros [conns muxes] t Ht _ Hm. apply wp_bind; [apply _|].
    eapply wp_mono; [apply _|by apply cancel_detached_muxes_spec|]. intros _ u Hu _ _.
    apply wp_bind; [apply _|]. eapply wp_mono; [apply _|apply (wp_field _ _ _ _ _ nd_subscriptions
      set_subscriptions _ (fun _ _ => True)); [done..|]|].
    + intros w Hw _. split_and!; [|by apply side_same|done]. apply peers_ok_subs; [|apply Hw].
      intros id peers. cbn. by rewrite lookup_empty.
    + intros _ w Hw _ _. by apply disconnect_each_spec.
Qed.

Lemma disconnect_from_peer_spec peer s :
  wpn (disconnect_from_peer (SendErr:=SendErr) peer) (fun _ _ => True) s.
Proof.
  unfold disconnect_from_peer. apply wp_bind; [apply _|].
  eapply wp_mono; [apply _|apply (wp_section _ _ _ _ _ (fun s : node =>
    match nd_connections s !! peer with
    | Some conns =>
        (set_links (set_multiplexers (delete peer (lk_multiplexers (nd_links s))) (nd_links s))
           (set_connections (delete peer (nd_connections s)) s),
         Some (conns, default [] (lk_multiplexers (nd_links s) !! peer)))
    | None => (s, None)
    end) (fun r t => forall conns muxes, r = Some (conns, muxes) -> Forall (is_mux t) muxes))|].
  - intros t Ht Hg. destruct (nd_connections t !! peer) as [conns|];
      [|split_and!; [done..|apply Ht|done|by intros u _ _ ? ? [=]]].
    split_and!; [done..|apply peers_ok_forget, Ht|by apply side_relinked|].
    intros u Hu Hgu ? ? [= _ <-].
    destruct (lk_multiplexers (nd_links t) !! peer) as [muxes|] eqn:Hm; [|constructor].
    eapply Forall_impl; [exact (peer_muxes t _ _ Ht Hm)|]. intros i Hi. eapply is_mux_grows; [done|exact Hi].
  - intros [[conns muxes]|] t Ht _ Hm; [|by apply wp_ret]. apply wp_bind; [apply _|].
    eapply wp_mono; [apply _|apply teardown_peer_spec; [done|by eapply Hm]|]. intros _ u Hu _ _.
    apply wp_bind_ok; [apply _|]. eapply wp_mono; [apply _|by apply disconnect_each_spec|].
    by intros [] w _ _ _; apply wp_ret.
Qed.

(** ** Adding *)

Context (Hconnect : forall peer p,
  wp (fun _ => True) (fun _ _ => True) (authorize_connect (P:=Pol) peer) (fun _ _ => True) p).

Lemma add_connection_spec nonce conn s :
  proved_conn proved conn -> wpn (add_connection (D:=D) nonce conn) (fun _ _ => True) s.
Proof.
  intros Hp. unfold add_connection. apply wp_bind_ok; [apply _|].
  eapply wp_mono; [apply _|apply (wp_tmap_err _ _ _ _ (fun _ _ => True))|].
  { eapply wp_mono; [apply _|apply (wp_policy _ _ _ _ _ (peers_ok_policy _ _ _ _ _ _) _ (fun _ => True)),
      Hconnect|done]. }
  intros [[]|e] t Ht _ _; [|by apply wp_ret]. apply wp_bind; [apply _|].
  eapply wp_mono; [apply _|by apply register_connection_spec|]. intros [] u Hu _ _; [|by apply wp_ret].
  apply wp_bind; [apply _|]. eapply wp_mono; [apply _|apply send_command_spec|].
  intros [[]|e] w Hw _ _; [by apply wp_ret|]. by eapply wp_map; [apply _|apply remove_connection_spec|].
Qed.

Lemma on_reconnect_success_spec nonce conn_id conn s :
  proved_conn proved conn -> wpn (on_reconnect_success nonce conn_id conn) (fun _ _ => True) s.
Proof.
  intros Hp. unfold on_reconnect_success. apply wp_bind; [apply _|].
  eapply wp_mono; [apply _|by apply register_connection_spec|]. intros fresh u Hu _ _.
  apply wp_bind; [apply _|]. eapply wp_mono; [apply _|apply send_command_spec|].
  intros [[]|e] w Hw _ _; [by apply wp_ret|]. apply wp_bind; [apply _|].
  apply (wp_mono inv grows _ (fun _ _ => True)); [|by intros; apply wp_ret].
  destruct fresh; [|by apply wp_ret]. by eapply wp_map; [apply _|apply remove_connection_spec|].
Qed.

(** ** Responses *)

Lemma offer_response_spec resp muxes s :
  inv s -> Forall (is_mux s) muxes -> wpn (offer_response resp muxes) (fun _ _ => True) s.
Proof.
  intros Hs Hm. revert s Hs Hm. induction muxes as [|i muxes IH]; intros s Hs Hm; [by apply wp_ret|].
  apply Forall_cons in Hm as [Hi Hm]. cbn [offer_response]. apply wp_bind; [apply _|].
  eapply wp_mono; [apply _|by apply wp_calls, resolve_pending_spec|].
  intros [] t Ht Hg _; [by apply wp_ret|]. apply IH; [done|].
  eapply Forall_impl; [done|]. intros j. by apply is_mux_grows.
Qed.

Lemma route_response_spec conn resp s : wpn (route_response conn resp) (fun _ _ => True) s.
Proof.
  unfold route_response. apply wp_bind; [apply _|]. apply wp_reads; [apply _|].
  intros t Ht _ u Hu Hg. apply offer_response_spec; [done|].
  destruct (lk_multiplexers (nd_links t) !! au_peer_id conn) as [muxes|] eqn:Hm; [|constructor].
  eapply Forall_impl; [exact (peer_muxes t _ _ Ht Hm)|]. intros i. by apply is_mux_grows.
Qed.
End registry_spec.
