(* ===== verification/Engine.v ===== *)
(** The operations of a node, from [subduction_core/src/subduction.rs] and
    [connection/managed.rs]: local writes, pushes to subscribers, and the sync rounds that it
    starts itself.

    What comes from outside is an argument: random numbers, when a deadline fires and whether
    a [try_lock] gets its lock, in a [chance]. A deadline is a number of sections: a call with
    no deadline behaves, as far as it has come, like one whose deadline is late enough.
    Futures that the code joins run one after the other. *)

From Stdlib Require Import Strings.Byte NArith Lia.
From stdpp Require Import base gmap sorting list relations.
From S2P Require Import Prelude.
From S2P Require Import Codec.
From S2P Require Import Types.
From S2P Require Import LooseCommit.
From S2P Require Import Fragment.
From S2P Require Import Traversal.
From S2P Require Import Sedimentree.
From S2P Require Import Minimize.
From S2P Require Import Minimized.
From S2P Require Import Fingerprints.
From S2P Require Import Signed.
From S2P Require Import Message.
From S2P Require Import Authenticated.
From S2P Require Import Tasks.
From S2P Require Import ShardedMap.
From S2P Require Import BoundedShardedMap.
From S2P Require Import Storage.
From S2P Require Import Multiplexer.
From S2P Require Import Node.
From S2P Require Import Ingest.
From S2P Require Import Peers.
From S2P Require Import SyncHandler.
From S2P Require Import Registry.

Record FragmentRequested : Type := MkFragmentRequested {
  fq_head : CommitId;
  fq_depth : Depth
}.

(** Only the errors that a local write can return. *)
Inductive WriteError (E SendErr : Type) : Type :=
| WriteIo (e : IoError E SendErr)
| WriteMissingBlob (digest : Digest Blob).
Arguments WriteIo {_ _} _.
Arguments WriteMissingBlob {_ _} _.

Inductive SendRequestedDataError (E SendErr : Type) : Type :=
| RequestedIo (e : IoError E SendErr)
| RequestedUnauthorized (peer : PeerId) (id : SedimentreeId).
Arguments RequestedIo {_ _} _.
Arguments RequestedUnauthorized {_ _} _ _.

Record SendCount : Type := MkSendCount { sc_commits : nat; sc_fragments : nat }.

Record SyncStats : Type := MkSyncStats {
  ss_commits_received : nat;
  ss_fragments_received : nat;
  ss_commits_sent : nat;
  ss_fragments_sent : nat;
  ss_remote_heads : RemoteHeads
}.

Definition SyncStats_new : SyncStats := MkSyncStats 0 0 0 0 (MkRemoteHeads 0 []).

(** [FragmentBatchItem] *)
Record FragmentBatchItem : Type := MkFragmentBatchItem {
  fb_head : CommitId;
  fb_boundary : gset CommitId;
  fb_checkpoints : list CommitId;
  fb_blob : Blob
}.

(** What one round trip meets. *)
Record chance : Type := MkChance {
  ch_seed : FingerprintSeed;
  ch_deadline : nat;
  ch_guard_unlocked : bool;
  ch_notifier_unlocked : bool
}.

Section engine.
Context `{HashIter, SipHash24, Ed25519, Blake3, Bijou64}.
Context {Sto E Pol Df Dp Net Conn SendErr : Type} `{!Storage Sto E} `{!StoragePolicy Pol Df Dp}.
Context `{!Connection Net Conn SendErr}.
Context (shards : nat) (depth_metric : DepthMetric) (seed : PeerId -> N) (signer : Signer).
Notation node := (Node Sto Pol Net Conn).
Notation io := (IoError E SendErr).
Notation write_error := (WriteError E SendErr).
Implicit Types (id : SedimentreeId) (conn : Authenticated Conn).

(** ** Calls *)

(** [ManagedConnection::call]; the guard of the pending entry is dropped armed when the send
    failed or the deadline fired. *)
Definition call (deadline : nat) (unlocked : bool) (mux : nat) conn (req : BatchSyncRequest) :
  task node (result (CallError SendErr) BatchSyncResponse) :=
  let req_id := bsq_req_id req in
  await rx := on_calls (register_pending mux req_id) in
  await waited := within deadline (
    await sent := on_net (send (au_inner conn) (SM_BatchSyncRequest req)) in
    match sent with
    | Err e => Ret (Err (CallSend e))
    | Ok _ => await o := on_calls (wait_response deadline rx) in Ret (Ok o)
    end) in
  match waited with
  | Some (Ok (Delivered resp)) => Ret (Ok resp)
  | Some (Ok Dropped) => Ret (Err CallResponseDropped)
  | Some (Err send_err) =>
      await _ := on_calls (try_cancel_pending unlocked mux req_id) in Ret (Err send_err)
  | Some (Ok Waiting) | None =>
      await _ := on_calls (try_cancel_pending unlocked mux req_id) in Ret (Err CallTimeout)
  end.

(** ** Pushes *)

(** The executor starts what was spawned first. *)
Definition run_spawned : task node unit :=
  await job := on_field nd_links set_links (fun links =>
    match lk_spawned links with
    | job :: rest => (set_spawned rest links, Some job)
    | [] => (links, None)
    end) in
  match job with
  | Some (SpawnedPushes pushes) => send_pushes pushes
  | Some (SpawnedFanOut fanout) => FanOut_run fanout
  | None => Ret tt
  end.

Definition push_to_subscribers id (origin : PeerId) (ingested : Ingested) : task node unit :=
  if Ingested_is_empty ingested then Ret tt
  else
    await conns := get_authorized_subscriber_conns id origin in
    match conns with
    | [] => Ret tt
    | _ =>
        await heads := heads_for shards depth_metric id in
        await pushes := build_pushes seed id heads conns ingested in
        spawn (SpawnedPushes pushes)
    end.

(** ** Local writes *)

Definition with_tree_hydrated {R} id (mutate : MinimizedSedimentree -> MinimizedSedimentree * R) :
  task node (result io R) :=
  tmap_err IoStorage (tree_entry_hydrated shards id (load_tree id) (fun tree => Some (mutate tree))).

Definition requested_fragment (commit_head : CommitId) : option FragmentRequested :=
  let depth := depth_metric commit_head in
  if is_boundary depth then Some (MkFragmentRequested commit_head depth) else None.

Definition seal_commit id (head : CommitId) (parents : gset CommitId) (blob : Blob) :
  VerifiedMeta LooseCommit :=
  VerifiedMeta_seal (T := LooseCommit) signer ((id, head, parents) : @Args LooseCommit _)
    (VerifiedBlobMeta_new blob).

Definition seal_fragment id (head : CommitId) (boundary : gset CommitId)
    (checkpoints : list CommitId) (blob : Blob) : VerifiedMeta Fragment :=
  VerifiedMeta_seal (T := Fragment) signer ((id, head, boundary, checkpoints) : @Args Fragment _)
    (VerifiedBlobMeta_new blob).

Definition store_commit id (head : CommitId) (parents : gset CommitId) (blob : Blob) :
  task node (result write_error (option FragmentRequested)) :=
  let verified_meta := seal_commit id head parents blob in
  let commit_head := lc_head (vm_payload verified_meta) in
  await? _ := tmap_err (fun e => WriteIo (IoStorage e))
    (insert_commit_locally shards (local_putter id) verified_meta) in
  await _ := minimize_tree shards depth_metric id in
  Ret (Ok (requested_fragment commit_head)).

Definition add_commit id (head : CommitId) (parents : gset CommitId) (blob : Blob) :
  task node (result write_error (option FragmentRequested)) :=
  let verified_meta := seal_commit id head parents blob in
  let commit_head := lc_head (vm_payload verified_meta) in
  await? _ := tmap_err (fun e => WriteIo (IoStorage e))
    (insert_commit_locally shards (local_putter id) verified_meta) in
  await _ := minimize_tree shards depth_metric id in
  await _ := push_to_subscribers id (verifying_key signer)
    (Ingested_commit (vm_signed verified_meta) (vm_blob verified_meta)) in
  Ret (Ok (requested_fragment commit_head)).

Definition store_fragment id (head : CommitId) (boundary : gset CommitId)
    (checkpoints : list CommitId) (blob : Blob) : task node (result write_error unit) :=
  await? _ := tmap_err (fun e => WriteIo (IoStorage e))
    (insert_fragment_locally shards (local_putter id) (seal_fragment id head boundary checkpoints blob)) in
  await _ := minimize_tree shards depth_metric id in
  Ret (Ok tt).

Definition add_fragment id (head : CommitId) (boundary : gset CommitId)
    (checkpoints : list CommitId) (blob : Blob) : task node (result write_error unit) :=
  let verified_meta := seal_fragment id head boundary checkpoints blob in
  await? _ := tmap_err (fun e => WriteIo (IoStorage e))
    (insert_fragment_locally shards (local_putter id) verified_meta) in
  await _ := minimize_tree shards depth_metric id in
  await _ := push_to_subscribers id (verifying_key signer)
    (Ingested_fragment (vm_signed verified_meta) (vm_blob verified_meta)) in
  Ret (Ok tt).

(** The tail of the batch writes: one [save_batch], one change of the tree. *)
Definition store_batch id (commits : list (VerifiedMeta LooseCommit))
    (fragments : list (VerifiedMeta Fragment)) : task node (result write_error unit) :=
  let commit_payloads := vm_payload <$> commits in
  let fragment_payloads := vm_payload <$> fragments in
  await? _ := tmap_err (fun e => WriteIo (IoStorage e))
    (on_storage (putter_save_batch (local_putter id) commits fragments)) in
  await? _ := tmap_err WriteIo (with_tree_hydrated id (fun tree =>
    let tree := foldl (fun tree commit => (Minimized.add_commit tree commit).1) tree commit_payloads in
    let tree := foldl (fun tree fragment => (Minimized.add_fragment tree fragment).1) tree
      fragment_payloads in
    (tree, tt))) in
  await _ := minimize_tree shards depth_metric id in
  Ret (Ok tt).

Definition store_commits_batch id (commits : list (CommitId * gset CommitId * Blob)) :
  task node (result write_error unit) :=
  match commits with
  | [] => Ret (Ok tt)
  | _ => store_batch id
      ((fun '(head, parents, blob) => seal_commit id head parents blob) <$> commits) []
  end.

Definition store_fragments_batch id (fragments : list FragmentBatchItem) :
  task node (result write_error unit) :=
  match fragments with
  | [] => Ret (Ok tt)
  | _ => store_batch id [] ((fun f =>
      seal_fragment id (fb_head f) (fb_boundary f) (fb_checkpoints f) (fb_blob f)) <$> fragments)
  end.

(** The payloads are signed and paired with their blobs, up to the first mismatch. *)
Fixpoint seal_built {T} `{!Schema T, !EncodeFields T, !HasBlobMeta T} (items : list (T * Blob)) :
  result BlobMismatch (list (VerifiedMeta T)) :=
  match items with
  | [] => Ok []
  | (payload, blob) :: items' =>
      let? v := VerifiedMeta_new (seal signer payload) blob in
      let? vs := seal_built items' in
      Ok (v :: vs)
  end.

Definition store_built_batch id (commits : list (LooseCommit * Blob))
    (fragments : list (Fragment * Blob)) : task node (result write_error unit) :=
  match commits, fragments with
  | [], [] => Ret (Ok tt)
  | _, _ =>
      match seal_built commits, seal_built fragments with
      | Ok verified_commits, Ok verified_fragments => store_batch id verified_commits verified_fragments
      | Err e, _ | _, Err e => Ret (Err (WriteIo (IoBlobMismatch e)))
      end
  end.

Definition insert_sedimentree_locally (putter : Putter) (verified_commits : list (VerifiedMeta LooseCommit))
    (verified_fragments : list (VerifiedMeta Fragment)) : task node (result E unit) :=
  let id := pt_sedimentree_id putter in
  let loose_commits := vm_payload <$> verified_commits in
  let fragments := vm_payload <$> verified_fragments in
  await? _ := on_storage (putter_save_batch putter verified_commits verified_fragments) in
  let sedimentree := Sedimentree_new fragments loose_commits in
  tree_entry_hydrated shards id (load_tree id) (fun tree => Some (Minimized.merge tree sedimentree, tt)).

(** Each payload with the blob that it names. *)
Fixpoint seal_with_blobs {T} `{!Schema T, !EncodeFields T, !HasBlobMeta T}
    (blobs_by_digest : gmap (Digest Blob) Blob) (items : list T) :
  result write_error (list (VerifiedMeta T)) :=
  match items with
  | [] => Ok []
  | payload :: items' =>
      let blob_digest := bm_digest (blob_meta payload) in
      match blobs_by_digest !! blob_digest with
      | None => Err (WriteMissingBlob blob_digest)
      | Some blob =>
          let? v := map_err (fun e => WriteIo (IoBlobMismatch e)) (VerifiedMeta_new (seal signer payload) blob) in
          let? vs := seal_with_blobs blobs_by_digest items' in
          Ok (v :: vs)
      end
  end.

Definition store_sedimentree id (sedimentree : Sedimentree) (blobs : list Blob) :
  task node (result write_error unit) :=
  let blobs_by_digest : gmap (Digest Blob) Blob :=
    foldl (fun by_digest b => <[hash_raw b := b]> by_digest) ∅ blobs in
  match seal_with_blobs blobs_by_digest (hash_values (st_commits sedimentree)) with
  | Err e => Ret (Err e)
  | Ok verified_commits =>
      match seal_with_blobs blobs_by_digest (hash_values (st_fragments sedimentree)) with
      | Err e => Ret (Err e)
      | Ok verified_fragments =>
          tmap_err (fun e => WriteIo (IoStorage e))
            (insert_sedimentree_locally (local_putter id) verified_commits verified_fragments)
      end
  end.

(** ** Requested data *)

(** The wanted items, from one load of the table; of several with one head the first for
    commits, the last for fragments. *)
Definition last_by_head {T} `{!Item T} (items : list (VerifiedMeta T)) : gmap CommitId (VerifiedMeta T) :=
  foldl (fun by_id vm => <[item_head (vm_payload vm) := vm]> by_id) ∅ items.

Definition load_requested {T} (ids : list CommitId) (by_head : list (VerifiedMeta T) -> gmap CommitId (VerifiedMeta T))
    (load : task Sto (result E (list (VerifiedMeta T)))) :
  task node (result (SendRequestedDataError E SendErr) (gmap CommitId (VerifiedMeta T))) :=
  if bool_decide (ids = []) then Ret (Ok ∅)
  else
    await? items := tmap_err (fun e => RequestedIo (IoStorage e)) (on_storage load) in
    Ret (Ok (by_head items)).

(** The messages with the items that were found, stamped in order. *)
Definition requested_messages {T} (peer : PeerId) (heads : list CommitId)
    (message : Signed T -> Blob -> RemoteHeads -> SyncMessage)
    (by_id : gmap CommitId (VerifiedMeta T)) (ids : list CommitId) : task node (list SyncMessage) :=
  tfor (fun msgs i =>
      match by_id !! i with
      | Some verified =>
          await counter := next seed peer in
          Ret (msgs ++ [message (vm_signed verified) (vm_blob verified) (MkRemoteHeads counter heads)])
      | None => Ret msgs
      end) [] ids.

(** How many of the messages were sent. *)
Definition send_counting conn (msgs : list SyncMessage) : task node nat :=
  tfor (fun n msg =>
      await r := on_net (send (au_inner conn) msg) in
      Ret (match r with Ok _ => S n | Err _ => n end)) O msgs.

Definition send_requested_data conn id (resolver : FingerprintResolver) (requesting : RequestedData) :
  task node (result (SendRequestedDataError E SendErr) SendCount) :=
  if requested_is_empty requesting then Ret (Ok (MkSendCount 0 0))
  else
    let peer_id := au_peer_id conn in
    await r := on_policy (get_fetcher peer_id id) in
    match r with
    | Err _ => Ret (Err (RequestedUnauthorized peer_id id))
    | Ok fetcher =>
        await? tree := tmap_err (fun e => RequestedIo (IoStorage e))
          (get_or_hydrate shards depth_metric id) in
        await heads := match tree with
                       | Some tree => or_panic (heads depth_metric tree)
                       | None => Ret []
                       end in
        let requested_commit_ids := omap (resolve_commit resolver) (rd_commit_fingerprints requesting) in
        let requested_fragment_ids :=
          omap (resolve_fragment resolver) (rd_fragment_fingerprints requesting) in
        await? commit_by_id := load_requested requested_commit_ids
          (first_by_head (fun _ => true)) (fetcher_load_loose_commits fetcher) in
        await? fragment_by_id := load_requested requested_fragment_ids
          last_by_head (fetcher_load_fragments fetcher) in
        await commit_msgs := requested_messages peer_id heads (SM_LooseCommit id) commit_by_id
          requested_commit_ids in
        await fragment_msgs := requested_messages peer_id heads (SM_Fragment id) fragment_by_id
          requested_fragment_ids in
        await commits_sent := send_counting conn commit_msgs in
        await fragments_sent := send_counting conn fragment_msgs in
        Ret (Ok (MkSendCount commits_sent fragments_sent))
    end.

(** ** Sync rounds *)

Definition track_outgoing_subscription (peer_id : PeerId) id : task node unit :=
  on_field nd_outgoing set_outgoing (fun outgoing =>
    (<[peer_id := {[id]} ∪ default ∅ (outgoing !! peer_id)]> outgoing, tt)).

(** [Subduction::recv_batch_sync_response] *)
Definition ingest_response (from : PeerId) id (diff : SyncDiff) : task node (result io unit) :=
  await? ingested := recv_batch_sync_response shards from id diff in
  await _ := minimize_tree shards depth_metric id in
  await _ := push_to_subscribers id from ingested in
  Ret (Ok tt).

(** [SyncResult::Ok(diff)] from [peer]: ingest, push on, and send what was asked for.
    [sync_with_all_peers] tells the peer when the policy refuses that; [sync_with_peer] does
    not. *)
Definition exchange (reject : bool) (peer : PeerId) conn id (resolver : FingerprintResolver)
    (diff : SyncDiff) (stats : SyncStats) : task node (result io SyncStats) :=
  await? _ := ingest_response peer id
    (MkSyncDiff (sd_missing_commits diff) (sd_missing_fragments diff) (MkRequestedData [] [])) in
  let received := MkSyncStats
    (ss_commits_received stats + length (sd_missing_commits diff))
    (ss_fragments_received stats + length (sd_missing_fragments diff))
    (ss_commits_sent stats) (ss_fragments_sent stats) (ss_remote_heads stats) in
  if requested_is_empty (sd_requesting diff) then Ret (Ok received)
  else
    await r := send_requested_data conn id resolver (sd_requesting diff) in
    match r with
    | Ok sent =>
        Ret (Ok (MkSyncStats (ss_commits_received received) (ss_fragments_received received)
          (ss_commits_sent received + sc_commits sent) (ss_fragments_sent received + sc_fragments sent)
          (ss_remote_heads received)))
    | Err (RequestedUnauthorized _ _) =>
        await _ := (if reject then
                      await _ := on_net (send (au_inner conn) (SM_DataRequestRejected id)) in Ret tt
                    else Ret tt) in
        Ret (Ok received)
    | Err (RequestedIo _) => Ret (Ok received)
    end.

Notation ConnErrs := (list (Authenticated Conn * CallError SendErr)) (only parsing).

(** One connection after the other, until one syncs. [tree] is where the tree comes from. *)
Fixpoint sync_over_conns (reject : bool) (tree : task node (result io Sedimentree))
    (chances : nat -> chance) (peer : PeerId) id (subscribe : bool) (conns : list (Authenticated Conn))
    (stats : SyncStats) (conn_errs : ConnErrs) : task node (result io (bool * SyncStats * ConnErrs)) :=
  match conns with
  | [] => Ret (Ok (false, stats, conn_errs))
  | conn :: conns' =>
      let ch := chances (length conns') in
      let continue := sync_over_conns reject tree chances peer id subscribe conns' in
      await? tree := tree in
      let resolver := fingerprint_resolver tree (ch_seed ch) in
      await mux := first_mux peer in
      match mux with
      | None => continue stats (conn_errs ++ [(conn, CallResponseDropped)])
      | Some mux =>
          await req_id := on_calls (next_request_id mux) in
          await result := call (ch_deadline ch) (ch_guard_unlocked ch) mux conn
            (MkBatchSyncRequest id req_id (fr_summary_of resolver) subscribe) in
          match result with
          | Err e => continue stats (conn_errs ++ [(conn, e)])
          | Ok resp =>
              await _ := notify (ch_notifier_unlocked ch) id peer (bsr_responder_heads resp) in
              let stats := MkSyncStats (ss_commits_received stats) (ss_fragments_received stats)
                (ss_commits_sent stats) (ss_fragments_sent stats) (bsr_responder_heads resp) in
              match bsr_result resp with
              | SR_NotFound | SR_Unauthorized => continue stats conn_errs
              | SR_Ok diff =>
                  await? stats := exchange reject peer conn id resolver diff stats in
                  await _ := (if subscribe then
                                await _ := track_outgoing_subscription peer id in
                                add_subscription peer id
                              else Ret tt) in
                  Ret (Ok (true, stats, conn_errs))
              end
          end
      end
  end.

(** A tree that does not exist syncs as an empty one. *)
Definition tree_for_sync id : task node (result io Sedimentree) :=
  await? tree := tmap_err IoStorage (get_or_hydrate shards depth_metric id) in
  Ret (Ok (default Sedimentree_empty tree)).

Definition sync_with_peer (chances : nat -> chance) (to_ask : PeerId) id (subscribe : bool) :
  task node (result io (bool * SyncStats * ConnErrs)) :=
  await peer_conns := reads_state (fun s : node => default [] (nd_connections s !! to_ask)) in
  sync_over_conns false (tree_for_sync id) chances to_ask id subscribe peer_conns SyncStats_new [].

(** The tree is hydrated once; the failure of a peer is logged. *)
Definition sync_with_all_peers (chances : PeerId -> nat -> chance) id (subscribe : bool) :
  task node (result io (gmap PeerId (bool * SyncStats * ConnErrs))) :=
  await peers := reads_state (fun s : node => hash_iter (nd_connections s)) in
  await? shared_tree := tree_for_sync id in
  await out := tfor (fun out '(peer_id, peer_conns) =>
      await r := sync_over_conns true (Ret (Ok shared_tree)) (chances peer_id) peer_id id subscribe
        peer_conns SyncStats_new [] in
      Ret (match r with Ok entry => <[peer_id := entry]> out | Err _ => out end)) ∅ peers in
  Ret (Ok out).

(** *** All trees *)

Definition sedimentree_ids : task node (list SedimentreeId) :=
  await r := on_storage local_load_all_sedimentree_ids in
  match r with
  | Ok ids => Ret (hashset_iter ids)
  | Err _ => on_cache (Bounded.into_keys shards)
  end.

(** [stats.commits_received += step_stats.commits_received] and so on. *)
Definition SyncStats_add (stats step : SyncStats) : SyncStats :=
  MkSyncStats (ss_commits_received stats + ss_commits_received step)
    (ss_fragments_received stats + ss_fragments_received step)
    (ss_commits_sent stats + ss_commits_sent step)
    (ss_fragments_sent stats + ss_fragments_sent step) (ss_remote_heads stats).

Notation FullSync := (bool * (SyncStats * ConnErrs * list (SedimentreeId * io)))%type (only parsing).

Definition full_sync_with_all_peers (chances : SedimentreeId -> PeerId -> nat -> chance) : task node FullSync :=
  await tree_ids := sedimentree_ids in
  tfor (fun '(had_success, (stats, call_errs, io_errs)) id =>
      await r := sync_with_all_peers (chances id) id true in
      Ret (match r with
           | Ok all_results =>
               let steps := hash_values all_results in
               (had_success || existsb (fun e => e.1.1) steps,
                (foldl (fun stats e => SyncStats_add stats e.1.2) stats steps,
                 call_errs ++ concat ((fun e => e.2) <$> steps), io_errs))
           | Err e => (had_success, (stats, call_errs, io_errs ++ [(id, e)]))
           end)) (false, (SyncStats_new, [], [])) tree_ids.

Definition full_sync_with_peer (chances : SedimentreeId -> nat -> chance) (peer_id : PeerId) (subscribe : bool) :
  task node FullSync :=
  await tree_ids := sedimentree_ids in
  tfor (fun '(had_success, (stats, call_errs, io_errs)) id =>
      await r := sync_with_peer (chances id) peer_id id subscribe in
      Ret (match r with
           | Ok (success, step_stats, step_errs) =>
               (had_success || success, (SyncStats_add stats step_stats, call_errs ++ step_errs, io_errs))
           | Err e => (had_success, (stats, call_errs, io_errs ++ [(id, e)]))
           end)) (false, (SyncStats_new, [], [])) tree_ids.

(** The writes that also sync. *)
Definition then_sync (chances : PeerId -> nat -> chance) id (write : task node (result write_error unit)) :
  task node (result write_error (gmap PeerId (bool * SyncStats * ConnErrs))) :=
  await? _ := write in
  tmap_err WriteIo (sync_with_all_peers chances id true).

Definition add_sedimentree chances id (sedimentree : Sedimentree) (blobs : list Blob) :=
  then_sync chances id (store_sedimentree id sedimentree blobs).

Definition add_built_batch chances id (commits : list (LooseCommit * Blob))
    (fragments : list (Fragment * Blob)) :=
  match commits, fragments with
  | [], [] => Ret (Ok ∅)
  | _, _ => then_sync chances id (store_built_batch id commits fragments)
  end.

Definition add_commits_batch chances id (commits : list (CommitId * gset CommitId * Blob)) :=
  match commits with
  | [] => Ret (Ok ∅)
  | _ => then_sync chances id (store_commits_batch id commits)
  end.

Definition add_fragments_batch chances id (fragments : list FragmentBatchItem) :=
  match fragments with
  | [] => Ret (Ok ∅)
  | _ => then_sync chances id (store_fragments_batch id fragments)
  end.

(** ** Subscriptions upstream *)

(** The claims for [id] at [peers] that were not there yet are made. *)
Definition claim_section id (peers : list PeerId) (outgoing : gmap PeerId (gset SedimentreeId)) :
  gmap PeerId (gset SedimentreeId) * list PeerId :=
  foldl (fun '(outgoing, claimed) peer =>
      let ids := default ∅ (outgoing !! peer) in
      (<[peer := {[id]} ∪ ids]> outgoing,
       if bool_decide (id ∈ ids) then claimed else claimed ++ [peer]))
    (outgoing, []) peers.

Definition drop_claim id (peer : PeerId) (outgoing : gmap PeerId (gset SedimentreeId)) :
  gmap PeerId (gset SedimentreeId) :=
  match outgoing !! peer with
  | Some ids =>
      let ids := ids ∖ {[id]} in
      if bool_decide (ids = ∅) then delete peer outgoing else <[peer := ids]> outgoing
  | None => outgoing
  end.

Definition propagate_subscription (chances : PeerId -> nat -> chance) id (originator : PeerId) :
  task node unit :=
  await peers := reads_state (fun s : node => upstream_peers
    (map (fun pc => (pc.1, map au_direction pc.2)) (hash_iter (nd_connections s))) originator) in
  match peers with
  | [] => Ret tt
  | _ =>
      await to_propagate := on_field nd_outgoing set_outgoing (claim_section id peers) in
      tfor (fun _ peer =>
          await r := sync_with_peer (chances peer) peer id true in
          match r with
          | Ok (true, _, _) => Ret tt
          | _ => on_field nd_outgoing set_outgoing (fun outgoing => (drop_claim id peer outgoing, tt))
          end) tt to_propagate
  end.

(** [Async::dispatch_task] for the sync handler, and the propagation that it spawns after a
    request to subscribe. *)
Definition dispatch_task (unlocked : bool) conn (msg : SyncMessage) :
  task node (result io unit * option (SedimentreeId * PeerId)) :=
  await result := handle shards depth_metric seed unlocked conn msg in
  Ret (result, match result, try_as_subscribe_request msg with
               | Ok _, Some id => Some (id, au_peer_id conn)
               | _, _ => None
               end).

Definition propagation_task (chances : PeerId -> nat -> chance) id (originator : PeerId) : task node unit :=
  await allowed := on_policy (authorize_fetch originator id) in
  match allowed with
  | Ok _ => propagate_subscription chances id originator
  | Err _ => Ret tt
  end.

(** ** Blobs and removal *)

Definition get_blobs id : task node (result E (option (list Blob))) :=
  await? commits := on_storage (local_load_loose_commits id) in
  await? fragments := on_storage (local_load_fragments id) in
  Ret (Ok (match (vm_blob <$> commits) ++ (vm_blob <$> fragments) with
           | [] => None
           | results => Some results
           end)).

(** One connection after the other, up to the first call that fails. The response names the
    tree that is ingested. *)
Fixpoint fetch_over_conns (tree : Sedimentree) (chances : nat -> chance) id (conns : list (Authenticated Conn)) :
  task node (result io unit) :=
  match conns with
  | [] => Ret (Ok tt)
  | conn :: conns' =>
      let ch := chances (length conns') in
      let continue := fetch_over_conns tree chances id conns' in
      let peer_id := au_peer_id conn in
      let resolver := fingerprint_resolver tree (ch_seed ch) in
      await mux := first_mux peer_id in
      match mux with
      | None => continue
      | Some mux =>
          await req_id := on_calls (next_request_id mux) in
          await? resp := tmap_err IoConnCall (call (ch_deadline ch) (ch_guard_unlocked ch) mux conn
            (MkBatchSyncRequest id req_id (fr_summary_of resolver) false)) in
          match bsr_result resp with
          | SR_NotFound | SR_Unauthorized => continue
          | SR_Ok diff =>
              await _ := (if requested_is_empty (sd_requesting diff) then Ret tt
                          else
                            await r := send_requested_data conn (bsr_id resp) resolver (sd_requesting diff) in
                            match r with
                            | Err (RequestedUnauthorized _ _) =>
                                await _ := on_net (send (au_inner conn) (SM_DataRequestRejected (bsr_id resp))) in
                                Ret tt
                            | _ => Ret tt
                            end) in
              await _ := ingest_response peer_id (bsr_id resp) diff in
              continue
          end
      end
  end.

Definition fetch_blobs (chances : nat -> chance) id : task node (result io (option (list Blob))) :=
  await? maybe_blobs := tmap_err IoStorage (get_blobs id) in
  match maybe_blobs with
  | Some blobs => Ret (Ok (Some blobs))
  | None =>
      await? tree := tmap_err IoStorage (get_or_hydrate shards depth_metric id) in
      await? _ := match tree with
                  | Some tree =>
                      await conns := all_connections in
                      fetch_over_conns tree chances id conns
                  | None => Ret (Ok tt)
                  end in
      tmap_err IoStorage (get_blobs id)
  end.

Definition remove_sedimentree id : task node (result io unit) :=
  await _ := on_cache (Bounded.remove shards id) in
  let destroyer := local_destroyer id in
  await? _ := tmap_err IoStorage (on_storage (destroyer_delete_loose_commits destroyer)) in
  await? _ := tmap_err IoStorage (on_storage (destroyer_delete_fragments destroyer)) in
  tmap_err IoStorage (on_storage (destroyer_delete_sedimentree_id destroyer)).
End engine.
