(* ===== verification/EngineSpec.v ===== *)
(** What the operations of a node guarantee: they keep the invariant of [SyncHandlerSpec],
    whatever runs at the same time, and have done what they say when they return. *)

From Stdlib Require Import Strings.Byte NArith Lia.
From stdpp Require Import base gmap sorting list relations.
From S2P Require Import Prelude.
From S2P Require Import Codec.
From S2P Require Import Types.
From S2P Require Import LooseCommit.
From S2P Require Import Fragment.
From S2P Require Import Traversal.
From S2P Require Import Sedimentree.
From S2P Require Import Minimize.
From S2P Require Import Minimized.
From S2P Require Import Fingerprints.
From S2P Require Import Signed.
From S2P Require Import Message.
From S2P Require Import Authenticated.
From S2P Require Import Tasks.
From S2P Require Import ShardedMap.
From S2P Require Import BoundedShardedMap.
From S2P Require Import Storage.
From S2P Require Import Multiplexer.
From S2P Require Import Node.
From S2P Require Import Ingest.
From S2P Require Import IngestSpec.
From S2P Require Import Peers.
From S2P Require Import SyncHandler.
From S2P Require Import ResponderSpec.
From S2P Require Import SyncHandlerSpec.
From S2P Require Import Registry.
From S2P Require Import RegistrySpec.
From S2P Require Import Engine.

Section engine_spec.
Context `{HashIter, SipHash24Range, Ed25519, Blake3, Bijou64}.
Context {Sto E Pol Df Dp Net Conn SendErr : Type} `{!Storage Sto E} `{!StorageLaws Sto E}.
Context `{!StoragePolicy Pol Df Dp} `{!Connection Net Conn SendErr}.
Context `{!Sent Net Conn} `{!ConnectionLaws Net Conn SendErr}.
Context (shards : nat) (Hshards : (0 < shards)%nat) (Hmax : N.of_nat shards <= u64_max).
Context (m : DepthMetric) (seed : PeerId -> N) (signer : Signer).
Context (own_c : SedimentreeId -> VerifiedMeta LooseCommit -> Prop).
Context (own_f : SedimentreeId -> VerifiedMeta Fragment -> Prop).
Context (put_approved : PeerId -> PeerId -> SedimentreeId -> Prop).
Context (fetch_approved : PeerId -> SedimentreeId -> Prop).
Context (proved : Conn -> PeerId -> Prop).
Context (Hpol : policy_laws (Pol:=Pol) put_approved fetch_approved).
Notation node := (Node Sto Pol Net Conn).
Notation io := (IoError E SendErr).
Implicit Types (s t : node) (id : SedimentreeId) (conn : Authenticated Conn).
Notation good_c := (authentic put_approved own_c).
Notation good_f := (authentic put_approved own_f).
Notation ok := (peers_ok m own_c own_f put_approved fetch_approved proved).
Notation inv := (node_inv shards m good_c good_f ok).
Notation grows := (node_grows m).
Notation wpn := (wp inv grows).
Notation good_push := (good_push m own_c own_f put_approved fetch_approved proved).
Notation good_job := (good_job m own_c own_f put_approved fetch_approved proved).
Notation given t p := ((au_inner p.1, p.2) ∈ net_sent (nd_net t)).
#[local] Hint Resolve peers_ok_cache peers_ok_storage peers_ok_policy : core.

(** ** Calls *)

(** [conn] was given the request and [resp] was delivered for it. *)
Definition answered t conn (req : BatchSyncRequest) (resp : BatchSyncResponse) : Prop :=
  given t (conn, SM_BatchSyncRequest req) /\ delivered (lk_calls (nd_links t)) (bsq_req_id req) resp.

Lemma answered_grows s t conn req resp : grows s t -> answered s conn req resp -> answered t conn req resp.
Proof.
  intros Hg [Hgiven Hd]. split; [by eapply given_grows|].
  eapply delivered_grows; [|done]. by destruct (ng_side _ _ _ Hg).
Qed.

(** A call that returns a response was given it. *)
Lemma call_spec deadline unlocked mux conn req s :
  inv s -> is_mux s mux -> good_push (conn, SM_BatchSyncRequest req) ->
  wpn (call deadline unlocked mux conn req)
    (fun r t => forall resp, r = Ok resp -> answered t conn req resp) s.
Proof.
  intros Hs Hm Hp. unfold call. apply wp_bind; [apply _|].
  eapply wp_mono; [apply _|by apply wp_calls, register_pending_spec|]. intros rx s1 Hs1 Hg1 Hrx.
  assert (Hcancel : forall (e : CallError SendErr) t, grows s1 t ->
    wpn (await _ := on_calls (try_cancel_pending unlocked mux (bsq_req_id req)) in Ret (Err e))
      (fun r t => forall resp, r = Ok resp -> answered t conn req resp) t).
  { intros e t Hgt. eapply wp_map; [apply _|apply wp_calls, try_cancel_pending_spec|done].
    eapply is_mux_grows; [|exact Hm]. by etrans. }
  apply wp_bind; [apply _|]. eapply wp_mono; [apply _|apply (wp_within inv grows _ _ (fun r t =>
    forall resp, r = Ok (Delivered resp) -> answered t conn req resp))|].
  - apply wp_bind; [apply _|]. eapply wp_mono; [apply _|eapply send_spec; [done..|exact Hp]|].
    intros [[]|e] s2 Hs2 Hg2 Hgiven; [|by apply wp_ret].
    eapply wp_map; [apply _|apply wp_calls, (wait_response_spec _ _ (bsq_req_id req))|].
    + destruct Hrx as [o Ho].
      destruct (cg_channels _ _ (sg_calls _ _ (ng_side _ _ _ Hg2)) _ _ _ Ho) as (o' & Ho' & _). by exists o'.
    + intros o t _ Hg Hd resp [= ->]. split; [by eapply given_grows|]. by apply Hd.
  - intros waited t Ht Hgt Hw. destruct waited as [[[|resp|]|e]|]; try by apply Hcancel.
    + apply wp_ret. intros u _ Hgu ? [= <-]. by eapply answered_grows, (Hw _ eq_refl).
    + by apply wp_ret.
Qed.

(** ** Pushes *)

(** The frames of a peer are frames of the list. *)
Lemma send_pushes_spec pushes s :
  inv s -> Forall good_push pushes -> wpn (send_pushes pushes) (fun _ _ => True) s.
Proof.
  intros Hs Hp. unfold send_pushes.
  apply (wp_tfor inv grows _ (fun _ _ => True) []); [|done..].
  intros _ _ frames t Hin Ht _. eapply send_frames_spec; [done..|].
  apply elem_of_hash_values in Hin as [peer Hf]. revert peer frames Hf. clear -Hp.
  match goal with |- forall peer frames, foldl ?f _ _ !! _ = _ -> _ => set (step := f) end.
  assert (Hgen : forall (by_peer : gmap PeerId (list (Authenticated Conn * SyncMessage))),
    (forall peer frames, by_peer !! peer = Some frames -> Forall good_push frames) ->
    forall peer frames, foldl step by_peer pushes !! peer = Some frames -> Forall good_push frames).
  { induction Hp as [|[conn msg] pushes Hm _ IH]; intros by_peer Hb; [done|]. cbn [foldl]. apply IH.
    intros peer frames. unfold step. rewrite lookup_insert_Some. intros [[<- <-]|[_ Hf]]; [|by eapply Hb].
    apply Forall_app. split; [|by constructor].
    destruct (by_peer !! au_peer_id conn) eqn:He; [by eapply Hb|constructor]. }
  apply Hgen. intros peer frames. by rewrite lookup_empty.
Qed.

Lemma run_spawned_spec s : wpn (run_spawned (SendErr:=SendErr)) (fun _ _ => True) s.
Proof.
  unfold run_spawned. apply wp_bind; [apply _|].
  eapply wp_mono; [apply _|apply (spawned_spec shards m own_c own_f put_approved fetch_approved proved _ (fun o => forall job, o = Some job -> good_job job))|].
  - intros [c mu co op [|job rest]] Hl; [by exists []|]. apply Forall_cons in Hl as [Hj Hrest].
    exists rest. split_and!; [done..|]. by intros ? [= <-].
  - intros [[pushes|fo]|] t Ht _ Hj; [| |by apply wp_ret]; specialize (Hj _ eq_refl).
    + by apply send_pushes_spec.
    + destruct Hj. eapply wp_mono; [apply _|by eapply FanOut_run_spec|done].
Qed.

Definition good_items id (ing : Ingested) : Prop :=
  (forall item, item ∈ ing_commits ing -> exists v, to_wire v = item /\ good_c id v) /\
  (forall item, item ∈ ing_fragments ing -> exists v, to_wire v = item /\ good_f id v).

Lemma push_to_subscribers_spec id origin ing s :
  inv s -> good_items id ing ->
  wpn (push_to_subscribers shards m seed id origin ing) (fun _ _ => True) s.
Proof.
  intros Hs [Hc Hf]. unfold push_to_subscribers. destruct (Ingested_is_empty ing); [by apply wp_ret|].
  apply wp_bind; [apply _|].
  eapply wp_mono; [apply _|eapply get_authorized_subscriber_conns_spec; [exact Hpol|done]|].
  intros conns s1 Hs1 _ Hconns. destruct conns as [|c conns]; [by apply wp_ret|].
  apply wp_bind; [apply _|]. eapply wp_mono; [apply _|by apply heads_for_spec|].
  intros heads s2 Hs2 _ _. apply wp_bind; [apply _|].
  eapply wp_mono; [apply _|by apply build_pushes_spec|].
  intros pushes s3 Hs3 _ Hp. by eapply spawn_spec.
Qed.

(** ** Local writes *)

(** What the node writes itself can be read back, and is the node's own. *)
Definition mine_c id (v : VerifiedMeta LooseCommit) : Prop := meta_ok v /\ own_c id v.
Definition mine_f id (v : VerifiedMeta Fragment) : Prop := meta_ok v /\ own_f id v.

(** A write that enters its item and then does something else. *)
Lemma written_spec {A R} (insert : task node (result E A))
    (after : task node (result (WriteError E SendErr) R)) (r : R) (Q : node -> Prop) s :
  wpn insert (fun r t => forall b, r = Ok b -> Q t) s ->
  (forall t u, Q t -> grows t u -> Q u) ->
  (forall t, inv t -> wpn after (fun r' _ => r' = Ok r) t) ->
  wpn (await? _ := tmap_err (fun e => WriteIo (IoStorage e)) insert in after)
    (fun r' t => forall b, r' = Ok b -> b = r /\ Q t) s.
Proof.
  intros Hins Hst Haft. apply wp_bind_ok; [apply _|].
  eapply wp_mono; [apply _|apply (wp_tmap_err _ _ _ _ (fun _ t => Q t)), Hins|].
  intros [b|e] s1 Hs1 Hg1 HQ; [|by apply wp_ret].
  eapply wp_mono; [apply _|by apply Haft|]. intros _ t _ Hg -> o [= <-].
  split; [done|]. eapply Hst; [|done]. by apply (HQ b).
Qed.

Lemma commit_locally_spec id v s :
  inv s -> mine_c id v ->
  wpn (insert_commit_locally shards (local_putter id) v)
    (fun r t => forall b, r = Ok b -> commit_inserted m t id (vm_payload v)) s.
Proof. intros Hs [Hv Hown]. apply insert_commit_locally_spec; auto. by left. Qed.

Lemma fragment_locally_spec id v s :
  inv s -> mine_f id v ->
  wpn (insert_fragment_locally shards (local_putter id) v)
    (fun r t => forall b, r = Ok b -> fragment_inserted m t id (vm_payload v)) s.
Proof. intros Hs [Hv Hown]. apply insert_fragment_locally_spec; auto. by left. Qed.

Lemma minimized_spec {R} id (r : R) s :
  inv s -> wpn (await _ := minimize_tree shards m id in Ret (Ok r))
    (fun r' _ => r' = Ok (E:=WriteError E SendErr) r) s.
Proof. intros Hs. by eapply wp_map; [apply _|apply minimize_tree_spec; auto|]. Qed.

Lemma pushed_spec {R} id origin ing (r : R) s :
  inv s -> good_items id ing ->
  wpn (await _ := minimize_tree shards m id in
       await _ := push_to_subscribers shards m seed id origin ing in Ret (Ok r))
    (fun r' _ => r' = Ok (E:=WriteError E SendErr) r) s.
Proof.
  intros Hs Hing. apply wp_bind; [apply _|].
  eapply wp_mono; [apply _|apply minimize_tree_spec; auto|]. intros _ t Ht _ _.
  by eapply wp_map; [apply _|apply push_to_subscribers_spec|].
Qed.

Lemma store_commit_spec id head parents blob s :
  let v := seal_commit signer id head parents blob in
  inv s -> mine_c id v ->
  wpn (store_commit (SendErr:=SendErr) shards m signer id head parents blob)
    (fun r t => forall o, r = Ok o -> o = requested_fragment m head /\ commit_inserted m t id (vm_payload v)) s.
Proof.
  intros v Hs Hv. apply (written_spec _ _ _ (fun t => commit_inserted m t id (vm_payload v))).
  - by apply commit_locally_spec.
  - intros t u Ht Hg. by eapply commit_inserted_grows.
  - intros t Ht. by apply minimized_spec.
Qed.

Lemma add_commit_spec id head parents blob s :
  let v := seal_commit signer id head parents blob in
  inv s -> mine_c id v ->
  wpn (add_commit (SendErr:=SendErr) shards m seed signer id head parents blob)
    (fun r t => forall o, r = Ok o -> o = requested_fragment m head /\ commit_inserted m t id (vm_payload v)) s.
Proof.
  intros v Hs Hv. apply (written_spec _ _ _ (fun t => commit_inserted m t id (vm_payload v))).
  - by apply commit_locally_spec.
  - intros t u Ht Hg. by eapply commit_inserted_grows.
  - intros t Ht. apply pushed_spec; [done|]. split; [|by intros item Hi%not_elem_of_nil].
    intros item ->%list_elem_of_singleton. exists v. split; [done|]. left. apply Hv.
Qed.

Lemma store_fragment_spec id head boundary checkpoints blob s :
  let v := seal_fragment signer id head boundary checkpoints blob in
  inv s -> mine_f id v ->
  wpn (store_fragment (SendErr:=SendErr) shards m signer id head boundary checkpoints blob)
    (fun r t => forall o, r = Ok o -> o = tt /\ fragment_inserted m t id (vm_payload v)) s.
Proof.
  intros v Hs Hv. apply (written_spec _ _ _ (fun t => fragment_inserted m t id (vm_payload v))).
  - by apply fragment_locally_spec.
  - intros t u Ht Hg. by eapply fragment_inserted_grows.
  - intros t Ht. by apply minimized_spec.
Qed.

Lemma add_fragment_spec id head boundary checkpoints blob s :
  let v := seal_fragment signer id head boundary checkpoints blob in
  inv s -> mine_f id v ->
  wpn (add_fragment (SendErr:=SendErr) shards m seed signer id head boundary checkpoints blob)
    (fun r t => forall o, r = Ok o -> o = tt /\ fragment_inserted m t id (vm_payload v)) s.
Proof.
  intros v Hs Hv. apply (written_spec _ _ _ (fun t => fragment_inserted m t id (vm_payload v))).
  - by apply fragment_locally_spec.
  - intros t u Ht Hg. by eapply fragment_inserted_grows.
  - intros t Ht. apply pushed_spec; [done|]. split; [by intros item Hi%not_elem_of_nil|].
    intros item ->%list_elem_of_singleton. exists v. split; [done|]. left. apply Hv.
Qed.

(** *** Batches *)

Definition batch_saved t id (cs : list (VerifiedMeta LooseCommit)) (fs : list (VerifiedMeta Fragment)) : Prop :=
  id ∈ st_ids (nd_storage t) /\
  (forall v, v ∈ cs -> saved st_commit (nd_storage t) id (vm_payload v)) /\
  (forall v, v ∈ fs -> saved st_fragment (nd_storage t) id (vm_payload v)).

Lemma batch_saved_grows s t id cs fs : grows s t -> batch_saved s id cs fs -> batch_saved t id cs fs.
Proof.
  intros Hg (Hid & Hc & Hf). split_and!.
  - by apply (ng_storage _ _ _ Hg).
  - intros v Hv. eapply saved_commit_grows; [apply Hg|by apply Hc].
  - intros v Hv. eapply saved_fragment_grows; [apply Hg|by apply Hf].
Qed.

Lemma save_local_spec id cs fs s :
  inv s -> (forall v, v ∈ cs -> mine_c id v) -> (forall v, v ∈ fs -> mine_f id v) ->
  wpn (on_storage (putter_save_batch (local_putter id) cs fs))
    (fun r t => forall k, r = Ok k -> batch_saved t id cs fs) s.
Proof.
  intros Hs Hcs Hfs. eapply wp_mono; [apply _|apply wp_storage; auto; apply (st_save_batch good_c good_f)|].
  - apply Hs.
  - intros v Hv. destruct (Hcs v Hv). split; [done|by left].
  - intros v Hv. destruct (Hfs v Hv). split; [done|by left].
  - intros r t _ _ Hr k Hk. by destruct (Hr k Hk).
Qed.

(** A change of the tree by steps that storage backs. *)
Lemma entered_spec id (mutate : MinimizedSedimentree -> MinimizedSedimentree) s :
  inv s ->
  (forall ms, rtc (Minimized.step m) ms (mutate ms)) ->
  (forall t ms, grows s t -> tree_ok m t id ms -> tree_ok m t id (mutate ms)) ->
  wpn (tree_entry_hydrated shards id (load_tree id) (fun tree => Some (mutate tree, tt)))
    (fun r t => forall b, r = Ok b -> unbounded t -> exists ms ms',
       resident t !! id = Some ms' /\ rtc (Minimized.step m) (mutate ms) ms') s.
Proof.
  intros Hs Hst Hok. eapply wp_mono; [apply _|apply tree_entry_hydrated_spec; auto|].
  - apply loads_tree.
  - intros t ms Hg Ht. exists (mutate ms), tt. by split_and!; [|apply Hst|apply Hok].
  - intros r t _ _ Hr b Hb Hu. destruct (Hr b Hb Hu) as (ms & ms' & ms'' & [= <- <-] & Hres & Hrtc). by exists ms, ms''.
Qed.

Lemma adds_steps {T} (add : MinimizedSedimentree -> T -> MinimizedSedimentree) (l : list T) ms :
  (forall ms x, Minimized.step m ms (add ms x)) ->
  rtc (Minimized.step m) ms (foldl add ms l) /\
  forall x, x ∈ l -> exists ms0, rtc (Minimized.step m) (add ms0 x) (foldl add ms l).
Proof.
  intros Hadd. revert ms. induction l as [|x l IH]; intros ms; cbn [foldl].
  { split; [done|]. by intros x Hx%not_elem_of_nil. }
  destruct (IH (add ms x)) as [Hrtc Hall]. split; [by eapply rtc_l|].
  intros y [-> |Hy]%elem_of_cons; [by exists ms|by apply Hall].
Qed.

Lemma adds_ok {T} (add : MinimizedSedimentree -> T -> MinimizedSedimentree) t id (l : list T) ms :
  (forall ms x, x ∈ l -> tree_ok m t id ms -> tree_ok m t id (add ms x)) ->
  tree_ok m t id ms -> tree_ok m t id (foldl add ms l).
Proof.
  revert ms. induction l as [|x l IH]; intros ms Hadd Hok; [done|]. cbn [foldl].
  apply IH; [|apply Hadd; [by left|done]]. intros ms' y Hy. apply Hadd. by right.
Qed.

(** The tree with the items of a batch. *)
Definition with_batch (cs : list (VerifiedMeta LooseCommit)) (fs : list (VerifiedMeta Fragment)) ms :
  MinimizedSedimentree :=
  foldl (fun ms fragment => (Minimized.add_fragment ms fragment).1)
    (foldl (fun ms commit => (Minimized.add_commit ms commit).1) ms (vm_payload <$> cs))
    (vm_payload <$> fs).

Lemma with_batch_ok t id cs fs ms :
  batch_saved t id cs fs -> tree_ok m t id ms -> tree_ok m t id (with_batch cs fs ms).
Proof.
  intros (_ & Hc & Hf) Hms. apply adds_ok; [|apply adds_ok; [|done]].
  - intros ms' f (v & -> & Hv)%list_elem_of_fmap Hms'. apply add_fragment_ok; auto.
  - intros ms' c (v & -> & Hv)%list_elem_of_fmap Hms'. apply add_commit_ok; auto.
Qed.

(** Entering a batch adds each of its items at some point. *)
Lemma with_batch_steps cs fs ms :
  rtc (Minimized.step m) ms (with_batch cs fs ms) /\
  (forall v, v ∈ cs -> exists ms0,
     rtc (Minimized.step m) (Minimized.add_commit ms0 (vm_payload v)).1 (with_batch cs fs ms)) /\
  (forall v, v ∈ fs -> exists ms0,
     rtc (Minimized.step m) (Minimized.add_fragment ms0 (vm_payload v)).1 (with_batch cs fs ms)).
Proof.
  destruct (adds_steps (fun ms commit => (Minimized.add_commit ms commit).1) (vm_payload <$> cs) ms)
    as [Hc Hcs]; [constructor|].
  destruct (adds_steps (fun ms fragment => (Minimized.add_fragment ms fragment).1) (vm_payload <$> fs)
    (foldl (fun ms commit => (Minimized.add_commit ms commit).1) ms (vm_payload <$> cs)))
    as [Hf Hfs]; [constructor|].
  split_and!; [by etrans| |].
  - intros v Hv. destruct (Hcs (vm_payload v)) as [ms0 Hms0]; [by apply list_elem_of_fmap_2|].
    exists ms0. by etrans.
  - intros v Hv. destruct (Hfs (vm_payload v)) as [ms0 Hms0]; [by apply list_elem_of_fmap_2|]. by exists ms0.
Qed.

Lemma with_batch_inserted t id cs fs :
  batch_saved t id cs fs ->
  (unbounded t -> exists ms ms', resident t !! id = Some ms' /\
     rtc (Minimized.step m) (with_batch cs fs ms) ms') ->
  batch_inserted m t id cs fs.
Proof.
  intros (Hid & Hc & Hf) Hent.
  split; intros v Hv; (split_and!; [done|by auto|]); intros Hu;
    destruct (Hent Hu) as (ms & ms' & Hres & Hrtc), (with_batch_steps cs fs ms) as (_ & Hcs & Hfs).
  - destruct (Hcs v Hv) as [ms0 Hms0]. exists ms0, ms'. split; [done|by etrans].
  - destruct (Hfs v Hv) as [ms0 Hms0]. exists ms0, ms'. split; [done|by etrans].
Qed.

Lemma batch_inserted_grows s t id cs fs :
  grows s t -> batch_inserted m s id cs fs -> batch_inserted m t id cs fs.
Proof.
  intros Hg [Hc Hf]. split; intros v Hv.
  - by eapply commit_inserted_grows, Hc.
  - by eapply fragment_inserted_grows, Hf.
Qed.

Lemma store_batch_spec id cs fs s :
  inv s -> (forall v, v ∈ cs -> mine_c id v) -> (forall v, v ∈ fs -> mine_f id v) ->
  wpn (store_batch (SendErr:=SendErr) shards m id cs fs)
    (fun r t => forall o, r = Ok o -> batch_inserted m t id cs fs) s.
Proof.
  intros Hs Hcs Hfs. unfold store_batch. apply wp_bind_ok; [apply _|].
  eapply wp_mono; [apply _|apply (wp_tmap_err _ _ _ _ (fun _ t => batch_saved t id cs fs)), save_local_spec; done|].
  intros [k|e] s1 Hs1 Hg1 Hsaved; [|by apply wp_ret]. specialize (Hsaved k eq_refl).
  apply wp_bind_ok; [apply _|]. eapply wp_mono; [apply _|
    do 2 apply (wp_tmap_err _ _ _ _ (fun _ t => batch_inserted m t id cs fs));
    eapply wp_mono; [apply _|apply (entered_spec id (with_batch cs fs))|]|].
  - done.
  - intros ms. apply with_batch_steps.
  - intros t ms Hg Hok. apply with_batch_ok; [by eapply batch_saved_grows|done].
  - intros r t Ht Hg Hent k' Hk. apply with_batch_inserted; [by eapply batch_saved_grows|by eapply Hent].
  - intros [[]|e] s2 Hs2 Hg2 Hent; [|by apply wp_ret].
    eapply wp_map; [apply _|apply minimize_tree_spec; auto|]. intros _ t _ Hg _ [] _.
    by eapply batch_inserted_grows, Hent.
Qed.
Definition all_mine id (cs : list (VerifiedMeta LooseCommit)) (fs : list (VerifiedMeta Fragment)) : Prop :=
  (forall v, v ∈ cs -> mine_c id v) /\ (forall v, v ∈ fs -> mine_f id v).

(** What a batch write made of its input. *)
Definition sealed_commits id (commits : list (CommitId * gset CommitId * Blob)) : list (VerifiedMeta LooseCommit) :=
  (fun '(head, parents, blob) => seal_commit signer id head parents blob) <$> commits.
Definition sealed_fragments id (fragments : list FragmentBatchItem) : list (VerifiedMeta Fragment) :=
  (fun f => seal_fragment signer id (fb_head f) (fb_boundary f) (fb_checkpoints f) (fb_blob f)) <$> fragments.

Lemma store_commits_batch_spec id commits s :
  inv s -> all_mine id (sealed_commits id commits) [] ->
  wpn (store_commits_batch (SendErr:=SendErr) shards m signer id commits)
    (fun r t => forall o, r = Ok o -> batch_inserted m t id (sealed_commits id commits) []) s.
Proof.
  intros Hs [Hc Hf]. unfold store_commits_batch. destruct commits as [|c commits].
  - apply wp_ret. intros t _ _ o _. by split; intros v Hv%not_elem_of_nil.
  - by apply store_batch_spec.
Qed.

Lemma store_fragments_batch_spec id fragments s :
  inv s -> all_mine id [] (sealed_fragments id fragments) ->
  wpn (store_fragments_batch (SendErr:=SendErr) shards m signer id fragments)
    (fun r t => forall o, r = Ok o -> batch_inserted m t id [] (sealed_fragments id fragments)) s.
Proof.
  intros Hs [Hc Hf]. unfold store_fragments_batch. destruct fragments as [|f fragments].
  - apply wp_ret. intros t _ _ o _. by split; intros v Hv%not_elem_of_nil.
  - by apply store_batch_spec.
Qed.

Lemma store_built_batch_spec id commits fragments s :
  inv s ->
  (forall cs fs, seal_built signer commits = Ok cs -> seal_built signer fragments = Ok fs -> all_mine id cs fs) ->
  wpn (store_built_batch (SendErr:=SendErr) shards m signer id commits fragments)
    (fun r t => forall o, r = Ok o -> exists cs fs, seal_built signer commits = Ok cs /\
       seal_built signer fragments = Ok fs /\ batch_inserted m t id cs fs) s.
Proof.
  intros Hs Hmine.
  assert (Hall : wpn match seal_built signer commits, seal_built signer fragments with
      | Ok verified_commits, Ok verified_fragments =>
          store_batch (SendErr:=SendErr) shards m id verified_commits verified_fragments
      | Err e, _ | _, Err e => Ret (Err (WriteIo (IoBlobMismatch e)))
      end (fun r t => forall o, r = Ok o -> exists cs fs, seal_built signer commits = Ok cs /\
       seal_built signer fragments = Ok fs /\ batch_inserted m t id cs fs) s).
  { destruct (seal_built signer commits) as [cs|e] eqn:Hc, (seal_built signer fragments) as [fs|e'] eqn:Hf;
      try by apply wp_ret.
    destruct (Hmine cs fs eq_refl eq_refl) as [Hmc Hmf].
    eapply wp_mono; [apply _|by apply store_batch_spec|]. intros r t _ _ Hr o Ho. exists cs, fs. eauto. }
  unfold store_built_batch. destruct commits as [|c commits], fragments as [|f fragments]; try exact Hall.
  apply wp_ret. intros t _ _ o _. exists [], []. split_and!; [done..|].
  by split; intros v Hv%not_elem_of_nil.
Qed.

(** *** A whole tree *)

Lemma backed_merge x id a cs fs :
  backed x id a ->
  (forall c, c ∈ cs -> saved st_commit x id c) -> (forall f, f ∈ fs -> saved st_fragment x id f) ->
  backed x id (merge a (Sedimentree_new fs cs)).
Proof.
  intros [Hac Haf] Hc Hf. rewrite merge_tie_maps. split; cbn; intros k v; rewrite lookup_tie_maps.
  - destruct (st_commits a !! k) as [v1|] eqn:Hv1,
      (foldl _ ∅ cs !! k) as [v2|] eqn:Hv2; intros [= <-]; try eauto.
    + destruct (tie_cases v1 v2) as [-> | ->]; [by eauto|]. by eapply Hc, new_only.
    + by eapply Hc, new_only.
  - destruct (st_fragments a !! k) as [v1|] eqn:Hv1,
      (foldl _ ∅ fs !! k) as [v2|] eqn:Hv2; intros [= <-]; try eauto.
    + destruct (tie_cases v1 v2) as [-> | ->]; [by eauto|]. by eapply Hf, new_only.
    + by eapply Hf, new_only.
Qed.

(** The resident tree came from one that the items were merged into. *)
Definition batch_merged t id (cs : list (VerifiedMeta LooseCommit)) (fs : list (VerifiedMeta Fragment)) : Prop :=
  batch_saved t id cs fs /\
  (unbounded t -> exists ms ms', resident t !! id = Some ms' /\
     rtc (Minimized.step m) (Minimized.merge ms (Sedimentree_new (vm_payload <$> fs) (vm_payload <$> cs))) ms').

Lemma batch_merged_grows s t id cs fs : grows s t -> batch_merged s id cs fs -> batch_merged t id cs fs.
Proof.
  intros Hg [Hsv Hm]. split; [by eapply batch_saved_grows|]. intros Hu.
  destruct (Hm (unbounded_back _ _ _ Hg Hu)) as (ms & ms' & Hres & Hrtc).
  destruct (ng_trees _ _ _ Hg _ _ (unbounded_back _ _ _ Hg Hu) Hres) as (ms2 & Hres2 & Hrtc2).
  exists ms, ms2. split; [done|by etrans].
Qed.

Lemma insert_sedimentree_locally_spec id cs fs s :
  inv s -> all_mine id cs fs ->
  wpn (insert_sedimentree_locally shards (local_putter id) cs fs)
    (fun r t => forall o, r = Ok o -> batch_merged t id cs fs) s.
Proof.
  intros Hs [Hcs Hfs]. unfold insert_sedimentree_locally. apply wp_bind_ok; [apply _|].
  eapply wp_mono; [apply _|by apply save_local_spec|].
  intros [k|e] s1 Hs1 Hg1 Hsaved; [|by apply wp_ret]. specialize (Hsaved k eq_refl).
  eapply wp_mono; [apply _|eapply (entered_spec id (fun ms => Minimized.merge ms _)); [done|..]|].
  - intros ms. apply rtc_once, Minimized.step_merge, keyed_new.
  - intros t ms Hg [Hv Hb]. destruct (batch_saved_grows _ _ _ _ _ Hg Hsaved) as (_ & Hc & Hf). split.
    + by eapply Minimized.step_valid; [apply Minimized.step_merge, keyed_new|].
    + apply backed_merge; [done|..]; intros x (v & -> & Hv')%list_elem_of_fmap; auto.
  - intros r t _ Hg Hr b Hb. split; [by eapply batch_saved_grows|]. by apply (Hr b).
Qed.

Definition blobs_of (blobs : list Blob) : gmap (Digest Blob) Blob :=
  foldl (fun by_digest b => <[hash_raw b := b]> by_digest) ∅ blobs.

Lemma store_sedimentree_spec id tr blobs s :
  inv s ->
  let sealed cs fs := seal_with_blobs (E:=E) (SendErr:=SendErr) signer (blobs_of blobs) (hash_values (st_commits tr)) = Ok cs /\
    seal_with_blobs (E:=E) (SendErr:=SendErr) signer (blobs_of blobs) (hash_values (st_fragments tr)) = Ok fs in
  (forall cs fs, sealed cs fs -> all_mine id cs fs) ->
  wpn (store_sedimentree (SendErr:=SendErr) shards signer id tr blobs)
    (fun r t => forall o, r = Ok o -> exists cs fs, sealed cs fs /\ batch_merged t id cs fs) s.
Proof.
  intros Hs sealed Hmine. unfold store_sedimentree. fold (blobs_of blobs). cbv zeta.
  destruct (seal_with_blobs signer (blobs_of blobs) (hash_values (st_commits tr))) as [cs|e] eqn:Hc;
    [|by apply wp_ret].
  destruct (seal_with_blobs signer (blobs_of blobs) (hash_values (st_fragments tr))) as [fs|e] eqn:Hf;
    [|by apply wp_ret].
  apply (wp_tmap_err _ _ _ _ (fun _ t => exists cs fs, sealed cs fs /\ batch_merged t id cs fs)).
  eapply wp_mono; [apply _|by apply insert_sedimentree_locally_spec, Hmine|].
  intros r t _ _ Hr o Ho. exists cs, fs. split; [done|]. by eapply Hr.
Qed.

(** ** Requested data *)

(** The error is that of a read of the storage between [s] and [t]. *)
Definition io_failed s t (err : SendRequestedDataError E SendErr) : Prop :=
  exists e, err = RequestedIo (IoStorage e) /\
    read_failed st_grows st_fails e (nd_storage s) (nd_storage t).

Lemma io_failed_grows s0 s t t' err :
  grows s0 s -> io_failed s t err -> grows t t' -> io_failed s0 t' err.
Proof.
  intros Hs (e & -> & Hf) Ht. exists e. split; [done|].
  eapply read_failed_grows; [apply _|apply Hs|exact Hf|apply Ht].
Qed.

(** Only storage fails here. *)
Lemma wp_requested_io {A} (op : task node (result E A)) (Q : A -> node -> Prop) s :
  wpn op (fun r t => match r with
                     | Ok a => Q a t
                     | Err e => read_failed st_grows st_fails e (nd_storage s) (nd_storage t)
                     end) s ->
  wpn (tmap_err (fun e => RequestedIo (SendErr:=SendErr) (IoStorage e)) op)
    (fun r t => match r with Ok a => Q a t | Err e => io_failed s t e end) s.
Proof.
  intros Hop. eapply wp_map; [apply _|exact Hop|]. intros [a|e] t _ _ Hr; [done|by exists e].
Qed.

Section requested.
Context {T : Type} `{!Schema T, !EncodeFields T, !DecodeFields T, !Item T}.
Context (stored : Sto -> SedimentreeId -> VerifiedMeta T -> Prop).
Context (good : SedimentreeId -> VerifiedMeta T -> Prop) (ops : item_ops Sto E T).
Context (Hlaws : item_laws (st_only good_c good_f) st_grows st_fails st_ids stored good ops).
Context (Hgrow : forall x x' id v, st_grows x x' -> stored x id v -> stored x' id v).
Context (message : Signed T -> Blob -> RemoteHeads -> SyncMessage).
Notation head_of v := (item_head (vm_payload v)).

(** Stored items by their head, one for each of [ids] that was stored at [x0]. *)
Definition requested_map (x0 x : Sto) id (ids : list CommitId) (mp : gmap CommitId (VerifiedMeta T)) : Prop :=
  (forall i v, mp !! i = Some v -> head_of v = i /\ stored x id v) /\
  (forall v, stored x0 id v -> head_of v ∈ ids -> is_Some (mp !! head_of v)).

(** A choice of one item for each head that a list has. *)
Definition picks (by_head : list (VerifiedMeta T) -> gmap CommitId (VerifiedMeta T)) : Prop :=
  forall l i, match by_head l !! i with
              | Some v => v ∈ l /\ head_of v = i
              | None => forall v, v ∈ l -> head_of v <> i
              end.

Lemma load_requested_spec id ids by_head s :
  picks by_head -> inv s ->
  wpn (load_requested (SendErr:=SendErr) ids by_head (load_items ops id))
    (fun r t => match r with
       | Ok mp => requested_map (nd_storage s) (nd_storage t) id ids mp
       | Err e => io_failed s t e
       end) s.
Proof.
  intros Hby Hs. unfold load_requested. case_bool_decide as Hids.
  - apply wp_ret. intros t _ _. subst ids. split; [|by intros v _ Hv%not_elem_of_nil].
    intros i v. by rewrite lookup_empty.
  - apply wp_bind_ok; [apply _|]. eapply wp_mono; [apply _|apply (wp_requested_io _ (fun l t =>
      (forall v, v ∈ l -> stored (nd_storage t) id v) /\
      loads_all stored (nd_storage s) id ((fun v => head_of v) <$> l)));
      eapply wp_mono; [apply _|apply wp_storage; auto; apply (law_load _ _ _ _ _ _ _ Hlaws), Hs|]|].
    + intros [l|e] t _ _ Hr; [|done]. destruct Hr as [Hin Hall]. split; [|done]. intros v Hv. by apply Hin.
    + intros [l|e] s1 Hs1 Hg1 Hl.
      2:{ apply wp_ret. intros t _ Hg. by apply (io_failed_grows s s s1). }
      destruct Hl as [Hin Hall].
      apply wp_ret. intros t Ht Hg. split.
      * intros i v Hv. specialize (Hby l i). rewrite Hv in Hby. destruct Hby as [Hv' <-].
        split; [done|]. eapply Hgrow; [apply Hg|]. by apply Hin.
      * intros v Hv _. specialize (Hall v Hv). apply list_elem_of_fmap in Hall as (w & Hvw & Hw).
        specialize (Hby l (head_of v)). destruct (by_head l !! head_of v); [by eexists|].
        by destruct (Hby w Hw).
Qed.

(** A message for each of the wanted items that are in the map, and no others. *)
Definition messages_of (mp : gmap CommitId (VerifiedMeta T)) (ids : list CommitId) (msgs : list SyncMessage) : Prop :=
  (forall msg, msg ∈ msgs -> exists i v rh, mp !! i = Some v /\ msg = message (vm_signed v) (vm_blob v) rh) /\
  (forall i v, i ∈ ids -> mp !! i = Some v -> exists rh, message (vm_signed v) (vm_blob v) rh ∈ msgs) /\
  (length msgs <= length ids)%nat.

Lemma messages_of_app mp ids ids' msgs msgs' :
  messages_of mp ids msgs -> messages_of mp ids' msgs' -> messages_of mp (ids ++ ids') (msgs ++ msgs').
Proof.
  intros (Ha & Ha' & Hl) (Hb & Hb' & Hl'). split_and!; [| |rewrite !length_app; lia].
  - intros msg [Hm|Hm]%elem_of_app; eauto.
  - intros i v [Hi|Hi]%elem_of_app Hv; [destruct (Ha' i v Hi Hv) as [rh Hrh]|destruct (Hb' i v Hi Hv) as [rh Hrh]];
      exists rh; apply elem_of_app; auto.
Qed.

Lemma requested_messages_spec peer heads mp ids s :
  inv s ->
  wpn (requested_messages seed peer heads message mp ids) (fun msgs _ => messages_of mp ids msgs) s.
Proof.
  intros Hs. unfold requested_messages.
  apply (wp_tfor inv grows _ (fun seen msgs => messages_of mp seen msgs) []); [|done|].
  - intros seen msgs i t _ Ht Hseen. destruct (mp !! i) as [v|] eqn:Hi.
    + eapply wp_map; [apply _|by apply next_spec|]. intros counter t' _ _ _.
      apply messages_of_app; [done|]. split_and!; [| |done].
      * intros msg ->%list_elem_of_singleton. by eexists i, v, _.
      * intros j w ->%list_elem_of_singleton. rewrite Hi. intros [= <-]. eexists. by left.
    + apply wp_ret. intros t' _ _. rewrite <-(app_nil_r msgs). apply messages_of_app; [done|].
      split_and!; [by intros msg Hm%not_elem_of_nil| |cbn; lia].
      intros j w ->%list_elem_of_singleton. by rewrite Hi.
  - split_and!; [by intros msg Hm%not_elem_of_nil| |done]. by intros i v Hi%not_elem_of_nil.
Qed.

(** Each wanted item that was stored has been given to the connection. *)
Definition requested_sent s t conn id (ids : list CommitId) : Prop :=
  forall v, stored (nd_storage s) id v -> head_of v ∈ ids -> exists v' rh,
    stored (nd_storage t) id v' /\ head_of v' = head_of v /\
    given t (conn, message (vm_signed v') (vm_blob v') rh).

Lemma messages_sent s s1 t conn id ids mp msgs :
  requested_map (nd_storage s) (nd_storage s1) id ids mp -> messages_of mp ids msgs -> grows s1 t ->
  (forall msg, msg ∈ msgs -> given t (conn, msg)) -> requested_sent s t conn id ids.
Proof.
  intros [Hin Hall] (_ & Hmsgs & _) Hg Hsent v Hv Hi. destruct (Hall v Hv Hi) as [w Hw].
  destruct (Hmsgs _ w Hi Hw) as [rh Hrh]. destruct (Hin _ w Hw) as [Hh Hst].
  exists w, rh. split_and!; [|done|by apply Hsent]. eapply Hgrow; [apply Hg|done].
Qed.
End requested.

Lemma send_counting_spec conn msgs s :
  inv s -> (forall msg, msg ∈ msgs -> good_push (conn, msg)) ->
  wpn (send_counting conn msgs)
    (fun n t => (n <= length msgs)%nat /\ forall msg, msg ∈ msgs -> given t (conn, msg)) s.
Proof.
  intros Hs Hp. unfold send_counting.
  apply (wp_tfor_state inv grows _ (fun seen n t =>
    (n <= length seen)%nat /\ forall msg, msg ∈ seen -> given t (conn, msg)) []).
  - intros seen n t t' [Hn Hseen] _ Hg. split; [done|]. intros msg Hm. eapply given_grows; eauto.
  - intros seen n msg t Hm Ht [Hn Hseen].
    eapply wp_map; [apply _|eapply send_spec; [done..|by apply Hp]|]. intros r t' _ Hg Hr. split.
    + rewrite length_app. cbn. destruct r; lia.
    + intros msg' [Hm'| ->%list_elem_of_singleton]%elem_of_app; [|done]. eapply given_grows; eauto.
  - done.
  - split; [cbn; lia|]. by intros msg Hm%not_elem_of_nil.
Qed.

Lemma first_by_head_picks {T} `{!Item T} : picks (T:=T) (first_by_head (fun _ => true)).
Proof.
  intros l i. pose proof (first_by_head_lookup (fun _ => true) l i) as Hf.
  destruct (_ !! i); [by destruct Hf as (? & ? & _)|]. intros v Hv Hi. by specialize (Hf v Hv Hi).
Qed.

Lemma last_by_head_picks {T} `{!Item T} : picks (T:=T) last_by_head.
Proof.
  intros l i. unfold last_by_head. induction l as [|v l IH] using rev_ind.
  { cbn [foldl]. rewrite lookup_empty. by intros v Hv%not_elem_of_nil. }
  rewrite foldl_app. cbn [foldl]. set (mp := foldl _ ∅ l) in *. clearbody mp.
  destruct (decide (i = item_head (vm_payload v))) as [-> |Hne].
  - rewrite lookup_insert_eq. split; [|done]. apply elem_of_app. right. by left.
  - rewrite lookup_insert_ne by done. destruct (mp !! i).
    + destruct IH. split; [|done]. apply elem_of_app. by left.
    + intros w [Hw| ->%list_elem_of_singleton]%elem_of_app; [by apply IH|done].
Qed.

Lemma minimal_keyed tr : minimal m tr -> keyed tr.
Proof. intros (full & Hk & Hmin). exact (minimize_keyed m full tr Hk Hmin). Qed.

Lemma heads_total tr : minimal m tr -> exists hs, heads m tr = Some hs.
Proof.
  intros Hm. unfold heads. destruct (minimize_entries m tr (minimal_keyed tr Hm)) as (tr' & -> & _). by eexists.
Qed.

Lemma requested_map_weaken {T} `{!Item T} (stored : Sto -> SedimentreeId -> VerifiedMeta T -> Prop)
    x0 x0' x x' id ids mp :
  (forall x x' id v, st_grows x x' -> stored x id v -> stored x' id v) ->
  st_grows x0 x0' -> st_grows x x' ->
  requested_map stored x0' x id ids mp -> requested_map stored x0 x' id ids mp.
Proof.
  intros Hst H0' Hx [Hin Hall]. split; [|by eauto]. intros i v Hv. destruct (Hin i v Hv). eauto.
Qed.

(** What [send_requested_data] has done when it succeeds, or why it did not: the policy
    refused the peer, or a read of the storage failed meanwhile. *)
Definition data_sent s t conn id (resolver : FingerprintResolver) (requesting : RequestedData)
    (r : result (SendRequestedDataError E SendErr) SendCount) : Prop :=
  match r with
  | Ok n =>
      (sc_commits n <= length (rd_commit_fingerprints requesting))%nat /\
      (sc_fragments n <= length (rd_fragment_fingerprints requesting))%nat /\
      requested_sent st_commit (SM_LooseCommit id) s t conn id
        (omap (resolve_commit resolver) (rd_commit_fingerprints requesting)) /\
      requested_sent st_fragment (SM_Fragment id) s t conn id
        (omap (resolve_fragment resolver) (rd_fragment_fingerprints requesting))
  | Err (RequestedUnauthorized _ _) => ~ fetch_grants (Pol:=Pol) (au_peer_id conn) id
  | Err (RequestedIo io) => io_failed s t (RequestedIo io)
  end.

Lemma messages_good_c id conn x0 x mp ids msgs :
  proved_conn proved conn -> fetch_approved (au_peer_id conn) id -> st_only good_c good_f x ->
  requested_map st_commit x0 x id ids mp -> messages_of (SM_LooseCommit id) mp ids msgs ->
  forall msg, msg ∈ msgs -> good_push (conn, msg).
Proof.
  intros Hp Hf (_ & Hc & _) [Hmp _] (Hmsgs & _ & _) msg Hm. destruct (Hmsgs msg Hm) as (i & v & rh & Hv & ->).
  split; [done|]. split; [done|]. exists v. split; [done|]. by eapply Hc, Hmp.
Qed.

Lemma messages_good_f id conn x0 x mp ids msgs :
  proved_conn proved conn -> fetch_approved (au_peer_id conn) id -> st_only good_c good_f x ->
  requested_map st_fragment x0 x id ids mp -> messages_of (SM_Fragment id) mp ids msgs ->
  forall msg, msg ∈ msgs -> good_push (conn, msg).
Proof.
  intros Hp Hf (_ & _ & Hg) [Hmp _] (Hmsgs & _ & _) msg Hm. destruct (Hmsgs msg Hm) as (i & v & rh & Hv & ->).
  split; [done|]. split; [done|]. exists v. split; [done|]. by eapply Hg, Hmp.
Qed.

(** The tail of [send_requested_data]. *)
Lemma send_loaded_spec conn id heads commit_ids fragment_ids commit_by_id fragment_by_id s0 s :
  inv s -> proved_conn proved conn -> fetch_approved (au_peer_id conn) id ->
  requested_map st_commit (nd_storage s0) (nd_storage s) id commit_ids commit_by_id ->
  requested_map st_fragment (nd_storage s0) (nd_storage s) id fragment_ids fragment_by_id ->
  wpn (await commit_msgs := requested_messages seed (au_peer_id conn) heads (SM_LooseCommit id)
         commit_by_id commit_ids in
       await fragment_msgs := requested_messages seed (au_peer_id conn) heads (SM_Fragment id)
         fragment_by_id fragment_ids in
       await commits_sent := send_counting conn commit_msgs in
       await fragments_sent := send_counting conn fragment_msgs in
       Ret (Ok (E:=SendRequestedDataError E SendErr) (MkSendCount commits_sent fragments_sent)))
    (fun r t => exists n, r = Ok n /\ (sc_commits n <= length commit_ids)%nat /\
                (sc_fragments n <= length fragment_ids)%nat /\
                requested_sent st_commit (SM_LooseCommit id) s0 t conn id commit_ids /\
                requested_sent st_fragment (SM_Fragment id) s0 t conn id fragment_ids) s.
Proof.
  intros Hs Hp Hf Hc Hfr. apply wp_bind; [apply _|].
  eapply wp_mono; [apply _|by apply requested_messages_spec|]. intros msgs_c s1 Hs1 Hg1 Hmc.
  apply wp_bind; [apply _|].
  eapply wp_mono; [apply _|by apply requested_messages_spec|]. intros msgs_f s2 Hs2 Hg2 Hmf.
  apply wp_bind; [apply _|]. eapply wp_mono; [apply _|apply send_counting_spec; [done|]|].
  { by eapply messages_good_c; [..|exact (ni_storage _ _ _ _ _ _ Hs)| |]. }
  intros n s3 Hs3 Hg3 [Hn Hsc]. eapply wp_map; [apply _|apply send_counting_spec; [done|]|].
  { by eapply messages_good_f; [..|exact (ni_storage _ _ _ _ _ _ Hs)| |]. }
  intros n' t Ht Hg [Hn' Hsf]. assert (grows s t) by (do 3 (etrans; [done|]); done).
  destruct Hmc as (Hmc1 & Hmc2 & Hlc), Hmf as (Hmf1 & Hmf2 & Hlf).
  eexists. split_and!; [done|cbn; lia..| |].
  - eapply messages_sent; [apply st_commit_grow|exact Hc|by split_and!|done|]. intros msg Hm. by eapply given_grows, Hsc.
  - by eapply messages_sent; [apply st_fragment_grow|exact Hfr|by split_and!|..].
Qed.

Lemma data_sent_empty s t conn id resolver requesting :
  requested_is_empty requesting = true ->
  data_sent s t conn id resolver requesting (Ok (MkSendCount 0 0)).
Proof.
  destruct requesting as [cs fs].
  intros [Hc%bool_decide_eq_true Hf%bool_decide_eq_true]%andb_true_iff. cbn in Hc, Hf. subst.
  by split_and!; [done..| |]; intros v _ Hv%not_elem_of_nil.
Qed.

Lemma length_omap_le {A B} (f : A -> option B) l : (length (omap f l) <= length l)%nat.
Proof. induction l as [|x l IH]; cbn; [done|]. destruct (f x); cbn; lia. Qed.

(** A failed read ends [send_requested_data]. *)
Lemma wp_io_failed s0 s1 s2 err conn id resolver requesting :
  grows s0 s1 -> io_failed s1 s2 err ->
  wpn (Ret (Err err)) (fun r t => data_sent s0 t conn id resolver requesting r) s2.
Proof.
  intros Hg Hf. apply wp_ret. intros t _ Ht.
  pose proof (io_failed_grows s0 s1 s2 t err Hg Hf Ht) as (e & -> & Hr). by exists e.
Qed.

Lemma send_requested_data_spec conn id resolver requesting s :
  inv s -> proved_conn proved conn ->
  wpn (send_requested_data shards m seed conn id resolver requesting)
    (fun r t => data_sent s t conn id resolver requesting r) s.
Proof.
  intros Hs Hp. unfold send_requested_data. destruct (requested_is_empty requesting) eqn:Hemp.
  { apply wp_ret. intros t _ _. by apply data_sent_empty. }
  apply wp_bind; [apply _|]. eapply wp_mono; [apply _|by apply fetch_spec|].
  intros [f|e] s1 Hs1 Hg1 Hf; [|by apply wp_ret]. destruct Hf as [-> Hf].
  apply wp_bind_ok; [apply _|].
  eapply wp_mono; [apply _|apply (wp_requested_io _ (fun o _ => forall tr, o = Some tr -> minimal m tr));
    eapply wp_mono; [apply _|by apply get_or_hydrate_spec; auto|]|].
  { intros [o|e] t _ _ (Hr & _ & He); [|by apply He]. intros tr ->. by destruct (Hr tr eq_refl). }
  intros [tree|e] s2 Hs2 Hg2 Htr; [|by eapply wp_io_failed].
  apply wp_bind; [apply _|]. eapply (wp_mono inv grows _ (fun _ _ => True)).
  { destruct tree as [tr|]; [|by apply wp_ret]. destruct (heads_total tr (Htr tr eq_refl)) as [hs Hhs].
    by eapply wp_or_panic. }
  intros hs s3 Hs3 Hg3 _. apply wp_bind_ok; [apply _|].
  eapply wp_mono; [apply _|by eapply (load_requested_spec st_commit good_c);
    [apply st_commit_laws|apply st_commit_grow|apply first_by_head_picks|]|].
  assert (Hg : grows s s3) by (do 2 (etrans; [done|]); done).
  intros [cs|e] s4 Hs4 Hg4 Hc; [|by eapply wp_io_failed]. apply wp_bind_ok; [apply _|].
  eapply wp_mono; [apply _|by eapply (load_requested_spec st_fragment good_f);
    [apply st_fragment_laws|apply st_fragment_grow|apply last_by_head_picks|]|].
  assert (Hg' : grows s s4) by (by etrans).
  intros [fs|e] s5 Hs5 Hg5 Hfr; [|by eapply wp_io_failed].
  eapply wp_mono; [apply _|apply (send_loaded_spec conn id hs _ _ cs fs s); try done|].
  - eapply requested_map_weaken; [apply st_commit_grow|apply Hg|apply Hg5|exact Hc].
  - eapply requested_map_weaken; [apply st_fragment_grow| |reflexivity|exact Hfr].
    apply Hg'.
  - intros r t _ _ (n & -> & Hnc & Hnf & ? & ?).
    pose proof (length_omap_le (resolve_commit resolver) (rd_commit_fingerprints requesting)).
    pose proof (length_omap_le (resolve_fragment resolver) (rd_fragment_fingerprints requesting)).
    split_and!; [lia..|done|done].
Qed.
End engine_spec.
