(* ===== verification/SyncSpec.v ===== *)
(** What the sync rounds of a node have done when they succeed, and that they keep the
    invariant of [SyncHandlerSpec]. *)

From Stdlib Require Import Strings.Byte NArith Lia.
From stdpp Require Import base gmap sorting list relations.
From S2P Require Import Prelude.
From S2P Require Import Codec.
From S2P Require Import Types.
From S2P Require Import LooseCommit.
From S2P Require Import Fragment.
From S2P Require Import Traversal.
From S2P Require Import Sedimentree.
From S2P Require Import Minimize.
From S2P Require Import Minimized.
From S2P Require Import Fingerprints.
From S2P Require Import Signed.
From S2P Require Import Message.
From S2P Require Import Authenticated.
From S2P Require Import Tasks.
From S2P Require Import ShardedMap.
From S2P Require Import BoundedShardedMap.
From S2P Require Import Storage.
From S2P Require Import Multiplexer.
From S2P Require Import Node.
From S2P Require Import Ingest.
From S2P Require Import IngestSpec.
From S2P Require Import Peers.
From S2P Require Import SyncHandler.
From S2P Require Import ResponderSpec.
From S2P Require Import SyncHandlerSpec.
From S2P Require Import Registry.
From S2P Require Import RegistrySpec.
From S2P Require Import Engine.
From S2P Require Import EngineSpec.

Section sync_spec.
Context `{HashIter, SipHash24Range, Ed25519, Blake3, Bijou64}.
Context {Sto E Pol Df Dp Net Conn SendErr : Type} `{!Storage Sto E} `{!StorageLaws Sto E}.
Context `{!StoragePolicy Pol Df Dp} `{!Connection Net Conn SendErr}.
Context `{!Sent Net Conn} `{!ConnectionLaws Net Conn SendErr}.
Context (shards : nat) (Hshards : (0 < shards)%nat) (Hmax : N.of_nat shards <= u64_max).
Context (m : DepthMetric) (seed : PeerId -> N) (signer : Signer).
Context (own_c : SedimentreeId -> VerifiedMeta LooseCommit -> Prop).
Context (own_f : SedimentreeId -> VerifiedMeta Fragment -> Prop).
Context (put_approved : PeerId -> PeerId -> SedimentreeId -> Prop).
Context (fetch_approved : PeerId -> SedimentreeId -> Prop).
Context (proved : Conn -> PeerId -> Prop).
Context (Hpol : policy_laws (Pol:=Pol) put_approved fetch_approved).
Notation node := (Node Sto Pol Net Conn).
Notation io := (IoError E SendErr).
Implicit Types (s t : node) (id : SedimentreeId) (conn : Authenticated Conn).
Notation good_c := (authentic put_approved own_c).
Notation good_f := (authentic put_approved own_f).
Notation ok := (peers_ok m own_c own_f put_approved fetch_approved proved).
Notation inv := (node_inv shards m good_c good_f ok).
Notation grows := (node_grows m).
Notation wpn := (wp inv grows).
Notation good_push := (good_push m own_c own_f put_approved fetch_approved proved).
Notation good_items := (good_items own_c own_f put_approved).
Notation given t p := ((au_inner p.1, p.2) ∈ net_sent (nd_net t)).
#[local] Hint Resolve peers_ok_cache peers_ok_storage peers_ok_policy : core.

(** ** Sync rounds *)

(** The counts [stats'] are [stats] and what was sent of the requested data, all of it unless
    the policy refused the peer or a read of the storage failed meanwhile. *)
Definition served s t conn id (resolver : FingerprintResolver) (requesting : RequestedData)
    (stats stats' : SyncStats) : Prop :=
  exists r : result (SendRequestedDataError E SendErr) SendCount,
    data_sent s t conn id resolver requesting r /\
    stats' = match r with
             | Ok sent => MkSyncStats (ss_commits_received stats) (ss_fragments_received stats)
                 (ss_commits_sent stats + sc_commits sent) (ss_fragments_sent stats + sc_fragments sent)
                 (ss_remote_heads stats)
             | Err _ => stats
             end.

(** What the exchange after a response [diff] from [peer] has done. *)
Definition exchanged s t (peer : PeerId) conn id (resolver : FingerprintResolver) (diff : SyncDiff)
    (stats stats' : SyncStats) : Prop :=
  (exists ing, response_ingested (Df:=Df) (Dp:=Dp) m put_approved t peer id
     (MkSyncDiff (sd_missing_commits diff) (sd_missing_fragments diff) (MkRequestedData [] [])) ing) /\
  served s t conn id resolver (sd_requesting diff)
    (MkSyncStats (ss_commits_received stats + length (sd_missing_commits diff))
       (ss_fragments_received stats + length (sd_missing_fragments diff))
       (ss_commits_sent stats) (ss_fragments_sent stats) (ss_remote_heads stats)) stats'.

Lemma served_before s s' t conn id resolver requesting stats stats' :
  grows s s' -> served s' t conn id resolver requesting stats stats' ->
  served s t conn id resolver requesting stats stats'.
Proof.
  intros Hg (r & Hr & ->). exists r. split; [|done]. destruct r as [n|[io|]]; [| |done].
  2:{ by eapply io_failed_grows; [apply Hg|exact Hr|]. }
  destruct Hr as (Hnc & Hnf & Hc & Hf). split_and!; [done|done|intros v Hv..].
  - apply Hc. eapply st_commit_grow; [apply Hg|done].
  - apply Hf. eapply st_fragment_grow; [apply Hg|done].
Qed.

(** The part of [exchange] that answers a request for data. *)
Lemma serve_requested_spec (reject : bool) conn id resolver requesting stats s :
  inv s -> proved_conn proved conn ->
  wpn (if requested_is_empty requesting then Ret (Ok stats)
       else
         await r := send_requested_data shards m seed conn id resolver requesting in
         match r with
         | Ok sent =>
             Ret (Ok (MkSyncStats (ss_commits_received stats) (ss_fragments_received stats)
               (ss_commits_sent stats + sc_commits sent) (ss_fragments_sent stats + sc_fragments sent)
               (ss_remote_heads stats)))
         | Err (RequestedUnauthorized _ _) =>
             await _ := (if reject then
                           await _ := on_net (send (au_inner conn) (SM_DataRequestRejected id)) in Ret tt
                         else Ret tt) in
             Ret (Ok stats)
         | Err (RequestedIo _) => Ret (Ok stats)
         end)
    (fun r t => forall stats', r = Ok (E:=io) stats' -> served s t conn id resolver requesting stats stats') s.
Proof.
  intros Hs Hp. destruct (requested_is_empty requesting) eqn:Hemp.
  { apply wp_ret. intros t _ _ ? [= <-]. exists (Ok (MkSendCount 0 0)). split; [by apply data_sent_empty|].
    destruct stats. cbn. by rewrite !Nat.add_0_r. }
  apply wp_bind; [apply _|].
  eapply wp_mono; [apply _|by apply wp_from_then_on; [apply _|]; apply send_requested_data_spec|].
  intros [sent|[e|p i]] s1 Hs1 Hg1 Hr.
  - apply wp_ret. intros t Ht Hg ? [= <-]. eexists (Ok sent). split; [|done]. by apply Hr.
  - apply wp_ret. intros t Ht Hg ? [= <-]. eexists (Err _). split; [|done]. by apply Hr.
  - eapply (wp_map inv grows _ _ (fun _ _ => True)).
    + destruct reject; [|by apply wp_ret].
      by eapply wp_map; [apply _|eapply send_spec; [done..|by split]|].
    + intros _ t Ht Hg _ ? [= <-]. eexists (Err _). split; [|done]. by apply Hr.
Qed.

Lemma ingested_good_items t peer id diff ing :
  response_ingested (Df:=Df) (Dp:=Dp) m put_approved t peer id diff ing -> good_items id ing.
Proof.
  intros Hr. split; intros item Hi.
  - destruct (ri_new_commits _ _ _ _ _ _ _ Hr item Hi) as (_ & v & [Hc <-] & Ha & _).
    exists v. split; [done|]. right. eauto.
  - destruct (ri_new_fragments _ _ _ _ _ _ _ Hr item Hi) as (_ & v & [Hc <-] & Ha & _).
    exists v. split; [done|]. right. eauto.
Qed.

Lemma ingest_response_spec from id diff s :
  inv s ->
  wpn (ingest_response (SendErr:=SendErr) shards m seed from id diff)
    (fun r t => r = Ok tt -> exists ing, response_ingested (Df:=Df) (Dp:=Dp) m put_approved t from id diff ing) s.
Proof.
  intros Hs. unfold ingest_response. apply wp_bind_ok; [apply _|].
  eapply wp_mono; [apply _|apply wp_from_then_on; [apply _|]|].
  { eapply (recv_batch_sync_response_spec shards Hshards Hmax m good_c good_f);
      [auto..|exact (pl_put _ _ Hpol)| | |done]; intros p i v Hc Ha; right; eauto. }
  intros [ing|e] s1 Hs1 Hg1 Hr; [|by apply wp_ret].
  apply wp_bind; [apply _|]. eapply wp_mono; [apply _|by apply minimize_tree_spec; auto|].
  intros _ s2 Hs2 Hg2 _. eapply wp_map; [apply _|apply push_to_subscribers_spec; [done..|]|].
  { eapply ingested_good_items, Hr; [exact Hs1|reflexivity|done]. }
  intros _ t Ht Hg3 _ _. exists ing. eapply Hr; [done|by etrans|done].
Qed.

Lemma exchange_spec reject peer conn id resolver diff stats s :
  inv s -> proved_conn proved conn ->
  wpn (exchange shards m seed reject peer conn id resolver diff stats)
    (fun r t => forall stats', r = Ok stats' -> exchanged s t peer conn id resolver diff stats stats') s.
Proof.
  intros Hs Hp. unfold exchange. apply wp_bind_ok; [apply _|].
  eapply wp_mono; [apply _|by apply wp_from_then_on; [apply _|]; apply ingest_response_spec|].
  intros [[]|e] s1 Hs1 Hg1 Hr; [|by apply wp_ret].
  eapply wp_mono; [apply _|by apply serve_requested_spec|].
  intros r t Ht Hgt Hsv stats' ->. split; [|by eapply served_before, Hsv].
  by eapply Hr.
Qed.

(** The node's tree, as it was read at some point between [s] and [t]; it is empty if nothing
    was known of it. *)
Definition own_tree s t id (tr : Sedimentree) : Prop :=
  minimal m tr /\ (tree_read m s t id tr \/ (tr = Sedimentree_empty /\ unknown (nd_storage s) id)).

Lemma own_tree_before s s' t id tr : grows s s' -> own_tree s' t id tr -> own_tree s t id tr.
Proof.
  intros Hg [Hm [Hr|[He Hu]]]; (split; [done|]); [left|right].
  - by eapply tree_read_before.
  - split; [done|]. eapply unknown_before; [apply Hg|done].
Qed.

Lemma own_tree_after s t t' id tr : grows t t' -> own_tree s t id tr -> own_tree s t' id tr.
Proof.
  intros Hg [Hm [(_ & Hb & Hr)|Hu]]; (split; [done|]); [left|by right]. split_and!; [done| |].
  - eapply backed_grows; [apply Hg|done].
  - destruct Hr as [(s1 & ms & ms' & H1' & H2' & Hres & He & Htr)|[(full & Hl & He) Hn]]; [left|right].
    + exists s1, ms, ms'. split_and!; [done| |done..]. by etrans.
    + split; [|done]. exists full. split; [|done]. eapply tree_loaded_grows; [apply Hg|done].
Qed.

(** The counts at the start of a round, with the heads of its response. *)
Definition fresh_stats (heads : RemoteHeads) : SyncStats := MkSyncStats 0 0 0 0 heads.

(** A round over [conn] succeeded: it was asked for [id] with a summary of the node's tree,
    what it answered was ingested, and what it asked for was served. The counts are those of
    this round alone. *)
Definition synced s t (peer : PeerId) id (stats : SyncStats) : Prop :=
  exists conn req resp diff tr fp_seed,
    au_peer_id conn = peer /\ bsq_id req = id /\ own_tree s t id tr /\
    bsq_fingerprint_summary req = fr_summary_of (fingerprint_resolver tr fp_seed) /\
    answered t conn req resp /\ bsr_result resp = SR_Ok diff /\
    exchanged s t peer conn id (fingerprint_resolver tr fp_seed) diff
      (fresh_stats (bsr_responder_heads resp)) stats.

Lemma synced_before s s' t peer id stats : grows s s' -> synced s' t peer id stats -> synced s t peer id stats.
Proof.
  intros Hg (conn & req & resp & diff & tr & sd & ? & ? & Htr & ? & ? & ? & Hi & Hsv).
  exists conn, req, resp, diff, tr, sd. split_and!; [done|done| |done..|].
  - by eapply own_tree_before.
  - split; [done|]. by eapply served_before.
Qed.

Definition reaches (peer : PeerId) conn : Prop := au_peer_id conn = peer /\ proved_conn proved conn.

Notation sync_post s peer id := (fun r t => forall stats errs,
  r = Ok (E:=io) (true, stats, errs) -> synced s t peer id stats) (only parsing).

(** What follows a response. *)
Lemma after_response_spec reject peer conn id resolver diff stats subscribe
    (errs : list (Authenticated Conn * CallError SendErr)) s :
  inv s -> proved_conn proved conn ->
  wpn (await? stats := exchange shards m seed reject peer conn id resolver diff stats in
       await _ := (if subscribe : bool then
                     await _ := track_outgoing_subscription peer id in add_subscription peer id
                   else Ret tt) in
       Ret (Ok (true, stats, errs)))
    (fun r t => forall stats' errs', r = Ok (true, stats', errs') ->
       exchanged s t peer conn id resolver diff stats stats') s.
Proof.
  intros Hs Hp. apply wp_bind_ok; [apply _|].
  eapply wp_mono; [apply _|by apply wp_from_then_on; [apply _|]; apply exchange_spec|].
  intros [stats1|e] s1 Hs1 Hg1 Hr; [|by apply wp_ret].
  eapply (wp_map inv grows _ _ (fun _ _ => True)).
  - destruct subscribe; [|by apply wp_ret]. apply wp_bind; [apply _|].
    eapply wp_mono; [apply _|by apply outgoing_spec|]. intros _ t _ _ _. by apply add_subscription_spec.
  - intros _ t Ht Hg _ stats' errs' [= <- _]. by apply Hr.
Qed.

(** A call with the summary of a minimal tree. *)
Lemma request_spec deadline unlocked mux conn id req_id tr fp_seed subscribe s :
  inv s -> is_mux s mux -> proved_conn proved conn -> minimal m tr ->
  let req := MkBatchSyncRequest id req_id (fr_summary_of (fingerprint_resolver tr fp_seed)) subscribe in
  wpn (call deadline unlocked mux conn req)
    (fun r t => forall resp, r = Ok resp -> answered t conn req resp) s.
Proof.
  intros Hs Hm Hp Htr req. eapply call_spec; [done..|]. split; [done|]. by exists tr, fp_seed.
Qed.

(** Nothing is counted before a response is accepted. *)
Definition unsent (stats : SyncStats) : Prop := stats = fresh_stats (ss_remote_heads stats).

Lemma sync_over_conns_spec reject tree chances peer id subscribe conns stats errs s0 s0' s :
  (forall s, inv s -> grows s0' s -> wpn tree (fun r t => forall tr, r = Ok tr -> own_tree s0 t id tr) s) ->
  grows s0 s0' -> inv s -> grows s0' s -> Forall (reaches peer) conns -> unsent stats ->
  wpn (sync_over_conns shards m seed reject tree chances peer id subscribe conns stats errs)
    (sync_post s0 peer id) s.
Proof.
  intros Htree Hg00. revert stats errs s.
  induction conns as [|conn conns IH]; intros stats errs s Hs Hg0 Hc Hfresh.
  { apply wp_ret. by intros t _ _ stats' errs' [=]. }
  apply Forall_cons in Hc as [[Hpeer Hp] Hc]. cbn [sync_over_conns].
  set (ch := chances (length conns)). apply wp_bind_ok; [apply _|].
  eapply wp_mono; [apply _|by apply Htree|]. intros [tr|e] s1 Hs1 Hg1 Htr; [|by apply wp_ret].
  specialize (Htr tr eq_refl). set (resolver := fingerprint_resolver tr (ch_seed ch)).
  apply wp_bind; [apply _|]. apply wp_reads; [apply _|]. intros s2 Hs2 Hg2 s3 Hs3 Hg3.
  assert (Hg : grows s0' s3) by (do 3 (etrans; [done|]); done).
  destruct (lk_multiplexers (nd_links s2) !! peer) as [[|mux muxes]|] eqn:Hmx; cbn [head]; [by apply IH| |by apply IH].
  assert (Hmux : is_mux s3 mux).
  { eapply is_mux_grows; [exact Hg3|]. eapply peer_muxes in Hmx; [|exact Hs2]. by apply Forall_cons in Hmx as [? _]. }
  apply wp_bind; [apply _|]. eapply wp_mono; [apply _|by apply wp_calls, next_request_id_spec|].
  intros req_id s4 Hs4 Hg4 _. apply wp_bind; [apply _|].
  set (req := MkBatchSyncRequest id req_id (fr_summary_of resolver) subscribe).
  eapply wp_mono; [apply _|apply request_spec; [done| |done|by destruct Htr]|].
  { by eapply is_mux_grows. }
  intros [resp|e] s5 Hs5 Hg5 Hcall; [|apply IH; [done|by do 2 (etrans; [done|])|done..]].
  apply wp_bind; [apply _|]. eapply wp_mono; [apply _|by apply notify_spec|]. intros _ s6 Hs6 Hg6 _.
  unfold unsent in Hfresh. rewrite Hfresh. cbn [ss_commits_received ss_fragments_received ss_commits_sent
    ss_fragments_sent fresh_stats]. fold (fresh_stats (bsr_responder_heads resp)).
  assert (Hg' : grows s3 s6) by (do 2 (etrans; [done|]); done).
  destruct (bsr_result resp) as [diff| |] eqn:Hres; [|apply IH; [done|by etrans|done..]..].
  eapply wp_mono; [apply _|by apply after_response_spec|].
  intros r t Ht Hgt Hr stats' errs' ->. destruct (Hr _ _ eq_refl) as [Hi Hsv].
  exists conn, req, resp, diff, tr, (ch_seed ch). split_and!; [done..| |done| |done|].
  - eapply (own_tree_after _ s1); [|done]. do 3 (etrans; [done|]). done.
  - eapply answered_grows; [|by apply Hcall]. by etrans.
  - split; [exact Hi|]. eapply served_before; [|exact Hsv]. do 2 (etrans; [done|]). done.
Qed.

Lemma minimal_empty : minimal m Sedimentree_empty.
Proof. exists Sedimentree_empty. split; [apply keyed_empty|apply Minimized.minimize_empty]. Qed.

Lemma tree_for_sync_spec id s0 s :
  inv s -> grows s0 s ->
  wpn (tree_for_sync (SendErr:=SendErr) shards m id) (fun r t => forall tr, r = Ok tr -> own_tree s0 t id tr) s.
Proof.
  intros Hs Hg0. unfold tree_for_sync. apply wp_bind_ok; [apply _|].
  eapply wp_mono; [apply _|apply (wp_tmap_err _ _ _ _ (fun o t => own_tree s0 t id (default Sedimentree_empty o)));
    eapply wp_mono; [apply _|by apply get_or_hydrate_spec; auto|]|].
  - intros r t _ _ (Hsome & Hnone & _) o Ho. eapply own_tree_before; [exact Hg0|]. destruct o as [tr|].
    + pose proof (Hsome tr Ho) as Hr. split; [by destruct Hr|by left].
    + split; [apply minimal_empty|]. right. by split; [|apply Hnone].
  - intros [o|e] s1 _ _ Ho; [|by apply wp_ret]. apply wp_ret. intros t _ Hg tr [= <-].
    eapply own_tree_after; [exact Hg|]. by apply Ho.
Qed.

Lemma connections_reach s peer :
  inv s -> Forall (reaches peer) (default [] (nd_connections s !! peer)).
Proof.
  intros Hs. apply Forall_forall. intros conn Hc. destruct (nd_connections s !! peer) as [conns|] eqn:Hp.
  - by apply (po_conns _ _ _ _ _ _ _ (ni_rest _ _ _ _ _ _ Hs) peer conns).
  - by apply not_elem_of_nil in Hc.
Qed.

Lemma sync_with_peer_spec chances to_ask id subscribe s :
  inv s -> wpn (sync_with_peer shards m seed chances to_ask id subscribe) (sync_post s to_ask id) s.
Proof.
  intros Hs. unfold sync_with_peer. apply wp_bind; [apply _|]. apply wp_reads; [apply _|].
  intros s1 Hs1 Hg1 s2 Hs2 Hg2.
  apply (sync_over_conns_spec _ _ _ _ _ _ _ _ _ s s); [by intros; apply tree_for_sync_spec|done..|by etrans|by apply connections_reach|done].
Qed.

(** Each peer that is reported as synced was. *)
Definition all_synced s t id (out : gmap PeerId (bool * SyncStats * list (Authenticated Conn * CallError SendErr))) : Prop :=
  forall peer stats errs, out !! peer = Some (true, stats, errs) -> synced s t peer id stats.

Lemma sync_with_all_peers_spec chances id subscribe s :
  inv s ->
  wpn (sync_with_all_peers shards m seed chances id subscribe)
    (fun r t => forall out, r = Ok out -> all_synced s t id out) s.
Proof.
  intros Hs. unfold sync_with_all_peers. apply wp_bind; [apply _|]. apply wp_reads; [apply _|].
  intros s1 Hs1 Hg1 s2 Hs2 Hg2. apply wp_bind_ok; [apply _|].
  eapply wp_mono; [apply _|apply (tree_for_sync_spec id s); [done|by etrans]|].
  intros [tr|e] s3 Hs3 Hg3 Htr; [|by apply wp_ret]. specialize (Htr tr eq_refl).
  assert (Hg : grows s s3) by (do 2 (etrans; [done|]); done).
  eapply wp_map; [apply _|apply (wp_tfor_state inv grows _ (fun _ out t => grows s3 t /\
    forall u, inv u -> grows t u -> all_synced s u id out) [])|].
  - intros seen out t t' [Hgt Hout] _ Hg'. split; [by etrans|]. intros u Hu Hgu. apply Hout; [done|by etrans].
  - intros seen out [peer conns] t Hin Ht [Hgt Hout].
    eapply wp_map; [apply _|apply wp_from_then_on; [apply _|];
      apply (sync_over_conns_spec true (Ret (Ok tr)) (chances peer) peer id subscribe conns SyncStats_new [] s s3);
      [|done|done|done| |done]|].
    + intros u Hu Hgu. apply wp_ret. intros w _ Hgw ? [= <-]. eapply own_tree_after; [|done]. by etrans.
    + pose proof (connections_reach s1 peer Hs1) as Hall. apply elem_of_hash_iter in Hin. by rewrite Hin in Hall.
    + intros r t' Ht' Hg' Hr. split; [by etrans|]. intros u Hu Hgu p stats errs Hl.
      destruct r as [[[b st] es]|e]; [|by eapply Hout; [done|by etrans|]].
      apply lookup_insert_Some in Hl as [[<- [= -> -> ->]]|[_ Hl]]; [|by eapply Hout; [done|by etrans|]].
      by eapply (Hr u).
  - done.
  - split; [done|]. intros u _ _ p stats errs. by rewrite lookup_empty.
  - intros out t Ht _ [_ Hout] ? [= <-]. by apply Hout.
Qed.

Lemma synced_all_before s s' t id out : grows s s' -> all_synced s' t id out -> all_synced s t id out.
Proof. intros Hg Hout peer stats errs Hl. by eapply synced_before, Hout. Qed.

(** A write and then a round with each peer. *)
Lemma then_sync_spec chances id write (Q : node -> Prop) s :
  wpn write (fun r t => forall o, r = Ok o -> Q t) s ->
  wpn (then_sync shards m seed chances id write)
    (fun r t => forall out, r = Ok out -> Q t /\ all_synced s t id out) s.
Proof.
  intros Hw. unfold then_sync. apply wp_bind_ok; [apply _|].
  eapply wp_mono; [apply _|apply wp_from_then_on; [apply _|exact Hw]|].
  intros [[]|e] s1 Hs1 Hg1 HQ; [|by apply wp_ret].
  eapply (wp_tmap_err _ _ _ _ (fun out t => Q t /\ all_synced s t id out)).
  eapply wp_mono; [apply _|by apply sync_with_all_peers_spec|].
  intros r t Ht Hg Hout out Ho. split; [by apply (HQ t Ht Hg tt)|]. by eapply synced_all_before, Hout.
Qed.

Lemma add_sedimentree_spec chances id tr blobs s :
  inv s ->
  let sealed cs fs :=
    seal_with_blobs (E:=E) (SendErr:=SendErr) signer (blobs_of blobs) (hash_values (st_commits tr)) = Ok cs /\
    seal_with_blobs (E:=E) (SendErr:=SendErr) signer (blobs_of blobs) (hash_values (st_fragments tr)) = Ok fs in
  (forall cs fs, sealed cs fs -> all_mine own_c own_f id cs fs) ->
  wpn (add_sedimentree shards m seed signer chances id tr blobs)
    (fun r t => forall out, r = Ok out ->
       (exists cs fs, sealed cs fs /\ batch_merged m t id cs fs) /\ all_synced s t id out) s.
Proof.
  intros Hs sealed Hmine.
  apply (then_sync_spec _ _ _ (fun t => exists cs fs, sealed cs fs /\ batch_merged m t id cs fs)).
  by apply store_sedimentree_spec.
Qed.

Lemma nothing_synced s t id : all_synced s t id ∅.
Proof. intros peer stats errs. by rewrite lookup_empty. Qed.

Lemma add_commits_batch_spec chances id commits s :
  inv s -> all_mine own_c own_f id (sealed_commits signer id commits) [] ->
  wpn (add_commits_batch shards m seed signer chances id commits)
    (fun r t => forall out, r = Ok out ->
       batch_inserted m t id (sealed_commits signer id commits) [] /\ all_synced s t id out) s.
Proof.
  intros Hs Hmine. unfold add_commits_batch. destruct commits as [|c commits].
  - apply wp_ret. intros t _ _ out [= <-]. split; [by split; intros v Hv%not_elem_of_nil|apply nothing_synced].
  - apply (then_sync_spec _ _ _ (fun t => batch_inserted m t id (sealed_commits signer id (c :: commits)) [])).
    by eapply store_commits_batch_spec.
Qed.

Lemma add_fragments_batch_spec chances id fragments s :
  inv s -> all_mine own_c own_f id [] (sealed_fragments signer id fragments) ->
  wpn (add_fragments_batch shards m seed signer chances id fragments)
    (fun r t => forall out, r = Ok out ->
       batch_inserted m t id [] (sealed_fragments signer id fragments) /\ all_synced s t id out) s.
Proof.
  intros Hs Hmine. unfold add_fragments_batch. destruct fragments as [|f fragments].
  - apply wp_ret. intros t _ _ out [= <-]. split; [by split; intros v Hv%not_elem_of_nil|apply nothing_synced].
  - apply (then_sync_spec _ _ _ (fun t => batch_inserted m t id [] (sealed_fragments signer id (f :: fragments)))).
    by eapply store_fragments_batch_spec.
Qed.

Lemma add_built_batch_spec chances id commits fragments s :
  inv s ->
  (forall cs fs, seal_built signer commits = Ok cs -> seal_built signer fragments = Ok fs ->
     all_mine own_c own_f id cs fs) ->
  wpn (add_built_batch shards m seed signer chances id commits fragments)
    (fun r t => forall out, r = Ok out ->
       (exists cs fs, seal_built signer commits = Ok cs /\ seal_built signer fragments = Ok fs /\
          batch_inserted m t id cs fs) /\ all_synced s t id out) s.
Proof.
  intros Hs Hmine.
  assert (Hall : wpn (then_sync shards m seed chances id
      (store_built_batch (SendErr:=SendErr) shards m signer id commits fragments))
    (fun r t => forall out, r = Ok out ->
       (exists cs fs, seal_built signer commits = Ok cs /\ seal_built signer fragments = Ok fs /\
          batch_inserted m t id cs fs) /\ all_synced s t id out) s).
  { eapply (then_sync_spec _ _ _ (fun t => exists cs fs, _ /\ _ /\ batch_inserted m t id cs fs)).
    by eapply store_built_batch_spec. }
  unfold add_built_batch. destruct commits as [|c commits], fragments as [|f fragments]; try exact Hall.
  apply wp_ret. intros t _ _ out [= <-]. split; [|apply nothing_synced].
  exists [], []. split_and!; [done..|]. by split; intros v Hv%not_elem_of_nil.
Qed.

(** ** Subscriptions upstream *)

Lemma propagate_subscription_spec chances id originator s :
  inv s -> wpn (propagate_subscription shards m seed chances id originator) (fun _ _ => True) s.
Proof.
  intros Hs. unfold propagate_subscription. apply wp_bind; [apply _|]. apply wp_reads; [apply _|].
  intros s1 _ _ s2 Hs2 _. destruct (upstream_peers _ _) as [|p ps]; [by apply wp_ret|].
  apply wp_bind; [apply _|]. eapply wp_mono; [apply _|by apply outgoing_spec|]. intros peers s3 Hs3 _ _.
  apply (wp_tfor inv grows _ (fun _ _ => True) []); [|done..]. intros _ _ peer t _ Ht _.
  apply wp_bind; [apply _|]. eapply wp_mono; [apply _|by apply sync_with_peer_spec|].
  intros [[[[] st] es]|e] u _ _ _; [by apply wp_ret|by apply outgoing_spec..].
Qed.

Lemma propagation_task_spec chances id originator s :
  wpn (propagation_task shards m seed chances id originator) (fun _ _ => True) s.
Proof.
  unfold propagation_task. apply wp_bind; [apply _|].
  eapply (wp_mono inv grows _ (fun _ _ => True)).
  - apply (wp_policy _ _ _ _ _ (peers_ok_policy _ _ _ _ _ _) _ (fun _ => True)).
    eapply wp_mono; [by split|apply (pl_fetch _ _ Hpol)|done].
  - intros [[]|e] t Ht _ _; [by apply propagate_subscription_spec|by apply wp_ret].
Qed.

Lemma dispatch_task_spec unlocked conn msg s :
  inv s -> proved_conn proved conn ->
  wpn (dispatch_task shards m seed unlocked conn msg)
    (fun r t => r.1 = Ok tt -> handled (Pol:=Pol) (Df:=Df) (Dp:=Dp) m put_approved s t conn msg) s.
Proof.
  intros Hs Hp. eapply wp_map; [apply _|by eapply handle_spec|].
  intros r t _ _ Hr. by apply Hr.
Qed.

(** ** All trees *)

Lemma sedimentree_ids_spec s : inv s -> wpn (sedimentree_ids shards) (fun _ _ => True) s.
Proof.
  intros Hs. unfold sedimentree_ids. apply wp_bind; [apply _|].
  eapply wp_mono; [apply _|apply wp_storage; auto; apply (st_load_ids good_c good_f), Hs|].
  intros [ids|e] t Ht _ _; [by apply wp_ret|].
  apply (wp_read_only _ (fun t => Bounded.ok shards (nd_cache t)) _ _); [by intros u []|].
  apply (read_only_zoom _ (Bounded.ok shards)); [by intros []|done|].
  apply (read_only_zoom _ (fun c => length (sm_shards c) = shards)); [by intros []|by intros c [[]]|].
  apply read_only_tfor. intros keys i Hi. apply read_only_bind; [|done]. split; [|done].
  intros c Hc. apply elem_of_seq in Hi.
  destruct (lookup_lt_is_Some_2 (sm_shards c) i) as [shard Hsh]; [lia|].
  rewrite Hsh. cbn. eexists. rewrite list_insert_id by done. by destruct c.
Qed.

Definition some_synced s t : Prop := exists peer id stats, synced s t peer id stats.

(** A round for each tree: if the result says so, one of them synced. *)
Lemma full_sync_loop {A} (body : bool * A -> SedimentreeId -> task node (bool * A)) ids acc s :
  (forall acc id s, inv s ->
     wpn (body acc id) (fun acc' t => acc'.1 = true -> acc.1 = true \/ some_synced s t) s) ->
  inv s -> acc.1 = false ->
  wpn (tfor body acc ids) (fun r t => r.1 = true -> some_synced s t) s.
Proof.
  intros Hbody Hs Hacc.
  eapply wp_mono; [apply _|apply (wp_tfor_state inv grows _ (fun _ acc t => grows s t /\
    forall u, inv u -> grows t u -> acc.1 = true -> some_synced s u) [])|].
  - intros seen b t t' [Hgt Hb] _ Hg'. split; [by etrans|]. intros u Hu Hgu. apply Hb; [done|by etrans].
  - intros seen b id t _ Ht [Hgt Hb].
    eapply wp_mono; [apply _|apply wp_from_then_on; [apply _|by apply Hbody]|].
    intros r t' Ht' Hg' Hr. split; [by etrans|]. intros u Hu Hgu Hok.
    destruct (Hr u Hu Hgu Hok) as [Hb'|(peer & i & st & Hsy)]; [apply Hb; [done|by etrans|done]|].
    exists peer, i, st. by eapply synced_before.
  - done.
  - split; [done|]. by rewrite Hacc.
  - intros r t Ht _ [_ Hr]. by apply Hr.
Qed.

Lemma full_sync_with_peer_spec chances peer subscribe s :
  inv s ->
  wpn (full_sync_with_peer shards m seed chances peer subscribe) (fun r t => r.1 = true -> some_synced s t) s.
Proof.
  intros Hs. unfold full_sync_with_peer. apply wp_bind; [apply _|].
  eapply wp_mono; [apply _|by apply sedimentree_ids_spec|]. intros ids s1 Hs1 Hg1 _.
  eapply wp_mono; [apply _|apply full_sync_loop; [|done..]|].
  - intros [b [[st ce] ie]] id t Ht. eapply wp_map; [apply _|by apply sync_with_peer_spec|].
    intros [[[b' st'] es]|e] u _ _ Hr; cbn [fst]; [|by left].
    intros [Hb| ->]%orb_true_iff; [by left|right]. exists peer, id, st'. by eapply Hr.
  - intros r t _ _ Hr Ht. destruct (Hr Ht) as (p & i & st & Hsy). exists p, i, st. by eapply synced_before.
Qed.

Lemma full_sync_with_all_peers_spec chances s :
  inv s ->
  wpn (full_sync_with_all_peers shards m seed chances) (fun r t => r.1 = true -> some_synced s t) s.
Proof.
  intros Hs. unfold full_sync_with_all_peers. apply wp_bind; [apply _|].
  eapply wp_mono; [apply _|by apply sedimentree_ids_spec|]. intros ids s1 Hs1 Hg1 _.
  eapply wp_mono; [apply _|apply full_sync_loop; [|done..]|].
  - intros [b [[st ce] ie]] id t Ht. eapply wp_map; [apply _|by apply sync_with_all_peers_spec|].
    intros [out|e] u _ _ Hr; cbn [fst]; [|by left].
    intros [Hb|([[b' st'] es] & Hin & Hb)%existsb_exists]%orb_true_iff; [by left|right].
    apply list_elem_of_In, elem_of_hash_values in Hin as [peer Hp]. cbn in Hb. subst b'.
    exists peer, id, st'. by eapply Hr.
  - intros r t _ _ Hr Ht. destruct (Hr Ht) as (p & i & st & Hsy). exists p, i, st. by eapply synced_before.
Qed.

(** ** Blobs *)

(** The blobs of the stored items: of those stored at [t], and one at least for each identity
    that was stored at [s]; [None] if there are none. *)
Definition blobs_read s t id (o : option (list Blob)) : Prop :=
  let blobs := default [] o in
  o <> Some [] /\
  (forall b, b ∈ blobs -> (exists v, st_commit (nd_storage t) id v /\ vm_blob v = b) \/
     exists v, st_fragment (nd_storage t) id v /\ vm_blob v = b) /\
  (forall v, st_commit (nd_storage s) id v -> exists v', st_commit (nd_storage t) id v' /\
     lc_head (vm_payload v') = lc_head (vm_payload v) /\ vm_blob v' ∈ blobs) /\
  (forall v, st_fragment (nd_storage s) id v -> exists v', st_fragment (nd_storage t) id v' /\
     fr_head (vm_payload v') = fr_head (vm_payload v) /\ vm_blob v' ∈ blobs).

Lemma blobs_read_before s s' t id o : grows s s' -> blobs_read s' t id o -> blobs_read s t id o.
Proof.
  intros Hg (Hne & Hin & Hc & Hf). split_and!; [done..| |]; intros v Hv.
  - apply Hc. eapply st_commit_grow; [apply Hg|done].
  - apply Hf. eapply st_fragment_grow; [apply Hg|done].
Qed.

Lemma get_blobs_spec id s :
  inv s -> wpn (get_blobs id) (fun r t => forall o, r = Ok o -> blobs_read s t id o) s.
Proof.
  intros Hs. unfold get_blobs. apply wp_bind_ok; [apply _|].
  eapply wp_mono; [apply _|apply wp_storage; auto;
    apply (law_load _ _ _ _ _ _ _ (st_commit_laws good_c good_f)), Hs|].
  intros [cs|e] s1 Hs1 Hg1 Hc; [|by apply wp_ret]. destruct Hc as [Hcin Hcall].
  apply wp_bind_ok; [apply _|]. eapply wp_mono; [apply _|apply wp_storage; auto;
    apply (law_load _ _ _ _ _ _ _ (st_fragment_laws good_c good_f)), Hs1|].
  intros [fs|e] s2 Hs2 Hg2 Hf; [|by apply wp_ret]. destruct Hf as [Hfin Hfall].
  apply wp_ret. intros t Ht Hg o [= Ho].
  assert (Hb : default [] o = (vm_blob <$> cs) ++ (vm_blob <$> fs) /\ o <> Some []).
  { subst o. by destruct (_ ++ _). }
  destruct Hb as [Hb Hne]. unfold blobs_read. cbv zeta. rewrite Hb. split_and!; [done|..].
  - intros b [(v & -> & Hv)%list_elem_of_fmap|(v & -> & Hv)%list_elem_of_fmap]%elem_of_app; [left|right]; exists v.
    + split; [|done]. eapply st_commit_grow; [apply (ng_storage _ _ _ (transitivity Hg2 Hg))|by apply Hcin].
    + split; [|done]. eapply st_fragment_grow; [apply Hg|by apply Hfin].
  - intros v Hv. specialize (Hcall v Hv). apply list_elem_of_fmap in Hcall as (w & Hh & Hw). exists w.
    split_and!; [|done|apply elem_of_app; left; by apply list_elem_of_fmap_2].
    eapply st_commit_grow; [apply (ng_storage _ _ _ (transitivity Hg2 Hg))|by apply Hcin].
  - intros v Hv. assert (Hv1 : st_fragment (nd_storage s1) id v) by (eapply st_fragment_grow; [apply Hg1|done]).
    specialize (Hfall v Hv1). apply list_elem_of_fmap in Hfall as (w & Hh & Hw). exists w.
    split_and!; [|done|apply elem_of_app; right; by apply list_elem_of_fmap_2].
    eapply st_fragment_grow; [apply Hg|by apply Hfin].
Qed.

(** What is fetched over one connection, before the [rest]. *)
Lemma fetched_spec {R} conn id resolver diff (rest : task node R) Q s :
  inv s -> proved_conn proved conn -> (forall t, inv t -> wpn rest Q t) ->
  wpn (await _ := (if requested_is_empty (sd_requesting diff) then Ret tt
                   else
                     await r := send_requested_data (E:=E) shards m seed conn id resolver (sd_requesting diff) in
                     match r with
                     | Err (RequestedUnauthorized _ _) =>
                         await _ := on_net (send (au_inner conn) (SM_DataRequestRejected id)) in Ret tt
                     | _ => Ret tt
                     end) in
       await _ := ingest_response (SendErr:=SendErr) shards m seed (au_peer_id conn) id diff in rest) Q s.
Proof.
  intros Hs Hp Hrest. apply wp_bind; [apply _|]. apply (wp_mono inv grows _ (fun _ _ => True)).
  - destruct (requested_is_empty (sd_requesting diff)); [by apply wp_ret|]. apply wp_bind; [apply _|].
    eapply wp_mono; [apply _|by eapply send_requested_data_spec|].
    intros [n|[e|p i]] t Ht _ _; [by apply wp_ret..|].
    by eapply wp_map; [apply _|eapply send_spec; [done..|by split]|].
  - intros _ t Ht _ _. apply wp_bind; [apply _|].
    eapply wp_mono; [apply _|by apply ingest_response_spec|]. intros r u Hu _ _. by apply Hrest.
Qed.

Lemma fetch_over_conns_spec tr chances id conns s :
  minimal m tr -> inv s -> Forall (proved_conn proved) conns ->
  wpn (fetch_over_conns shards m seed tr chances id conns) (fun _ _ => True) s.
Proof.
  intros Htr. revert s. induction conns as [|conn conns IH]; intros s Hs Hc; [by apply wp_ret|].
  apply Forall_cons in Hc as [Hp Hc]. cbn [fetch_over_conns].
  apply wp_bind; [apply _|]. apply wp_reads; [apply _|]. intros s1 Hs1 _ s2 Hs2 Hg2.
  destruct (lk_multiplexers (nd_links s1) !! au_peer_id conn) as [[|mux muxes]|] eqn:Hmx; cbn [head];
    [by apply IH| |by apply IH].
  assert (Hmux : is_mux s2 mux).
  { eapply is_mux_grows; [exact Hg2|]. eapply peer_muxes in Hmx; [|exact Hs1]. by apply Forall_cons in Hmx as [? _]. }
  apply wp_bind; [apply _|]. eapply wp_mono; [apply _|by apply wp_calls, next_request_id_spec|].
  intros req_id s3 Hs3 Hg3 _. apply wp_bind_ok; [apply _|].
  eapply wp_mono; [apply _|apply (wp_tmap_err _ _ _ _ (fun _ _ => True));
    eapply wp_mono; [apply _|apply request_spec; [done|by eapply is_mux_grows|done..]|done]|].
  intros [resp|e] s4 Hs4 _ _; [|by apply wp_ret]. destruct (bsr_result resp) as [diff| |]; [|by apply IH..].
  apply fetched_spec; [done..|]. intros t Ht. by apply IH.
Qed.

(** What the node knows afterwards, fetched or not. *)
Lemma fetch_blobs_spec chances id s :
  inv s -> wpn (fetch_blobs shards m seed chances id) (fun r t => forall o, r = Ok o -> blobs_read s t id o) s.
Proof.
  intros Hs. unfold fetch_blobs.
  assert (Hget : forall t, inv t -> grows s t -> wpn (tmap_err IoStorage (get_blobs id) : task node (result io _))
    (fun r u => forall o, r = Ok o -> blobs_read s u id o) t).
  { intros t Ht Hg. apply (wp_tmap_err _ _ _ _ (fun o u => blobs_read s u id o)).
    eapply wp_mono; [apply _|by apply get_blobs_spec|]. intros r u _ _ Hr o Ho. by eapply blobs_read_before, Hr. }
  apply wp_bind_ok; [apply _|].
  eapply wp_mono; [apply _|apply wp_from_then_on; [apply _|by apply Hget]|].
  intros [[bs|]|e] s1 Hs1 Hg1 Hr; [| |by apply wp_ret].
  { apply wp_ret. intros t Ht Hg o [= <-]. by eapply Hr. }
  apply wp_bind_ok; [apply _|].
  eapply wp_mono; [apply _|apply (wp_tmap_err _ _ _ _ (fun o _ => forall tr, o = Some tr -> minimal m tr));
    eapply wp_mono; [apply _|by apply get_or_hydrate_spec; auto|]|].
  { intros r t _ _ [Hm _] o Ho tr ->. by destruct (Hm tr Ho). }
  intros [tree|e] s2 Hs2 Hg2 Htr; [|by apply wp_ret]. specialize (Htr tree eq_refl). apply wp_bind_ok; [apply _|].
  apply (wp_mono inv grows _ (fun _ _ => True)).
  - destruct tree as [tr|]; [|by apply wp_ret]. apply wp_bind; [apply _|]. apply wp_reads; [apply _|].
    intros s3 Hs3 _ s4 Hs4 _. apply fetch_over_conns_spec; [by apply Htr|done|]. apply Forall_forall.
    intros conn (conns & Hc & [peer Hp]%elem_of_hash_values)%elem_of_concat.
    by apply (po_conns _ _ _ _ _ _ _ (ni_rest _ _ _ _ _ _ Hs3) peer conns).
  - intros [[]|e] t Ht Hg _; [|by apply wp_ret]. apply Hget; [done|]. do 2 (etrans; [done|]). done.
Qed.
End sync_spec.
