(* ===== verification/Listener.v ===== *)
(** The listener of a node, from [subduction_core/src/subduction.rs]: the arms of its select
    loop, each one event. Which arm is taken next is up to the channels. *)

From Stdlib Require Import Strings.Byte NArith Lia.
From stdpp Require Import base gmap sorting list relations.
From S2P Require Import Prelude.
From S2P Require Import Codec.
From S2P Require Import Types.
From S2P Require Import LooseCommit.
From S2P Require Import Fragment.
From S2P Require Import Traversal.
From S2P Require Import Sedimentree.
From S2P Require Import Minimize.
From S2P Require Import Minimized.
From S2P Require Import Fingerprints.
From S2P Require Import Signed.
From S2P Require Import Message.
From S2P Require Import Authenticated.
From S2P Require Import Tasks.
From S2P Require Import ShardedMap.
From S2P Require Import BoundedShardedMap.
From S2P Require Import Storage.
From S2P Require Import Multiplexer.
From S2P Require Import Node.
From S2P Require Import Ingest.
From S2P Require Import Peers.
From S2P Require Import SyncHandler.
From S2P Require Import Registry.
From S2P Require Import Engine.

(** [DispatchOutcome] *)
Inductive DispatchOutcome (Conn Err : Type) : Type :=
| DispatchCompleted (conn : Authenticated Conn) (r : result Err unit)
| DispatchAborted.
Arguments DispatchCompleted {_ _} _ _.
Arguments DispatchAborted {_ _}.

Inductive listen_event (Conn Err : Type) : Type :=
| EventDone (outcome : DispatchOutcome Conn Err)
| EventResponse (conn : Authenticated Conn) (msg : SyncMessage)
| EventClosed (conn : Authenticated Conn)
| EventMessage (conn : Authenticated Conn) (msg : SyncMessage).
Arguments EventDone {_ _} _.
Arguments EventResponse {_ _} _ _.
Arguments EventClosed {_ _} _.
Arguments EventMessage {_ _} _ _.

Section listener.
Context `{HashIter, SipHash24, Ed25519, Blake3, Bijou64}.
Context {Sto E Pol Df Dp Net Conn SendErr : Type} `{!Storage Sto E} `{!StoragePolicy Pol Df Dp}.
Context `{!Connection Net Conn SendErr} `{!EqDecision Conn}.
Context (shards : nat) (depth_metric : DepthMetric).
Notation node := (Node Sto Pol Net Conn).
Notation io := (IoError E SendErr).
Implicit Types (id : SedimentreeId) (conn : Authenticated Conn).

(** [on_peer_disconnect] of the sync handler does nothing. A message to be dispatched is
    returned. *)
Definition listen_arm (event : listen_event Conn io) : task node (option (Authenticated Conn * SyncMessage)) :=
  match event with
  | EventDone (DispatchCompleted conn (Err _)) | EventClosed conn =>
      await _ := remove_connection conn in Ret None
  | EventDone _ => Ret None
  | EventResponse conn msg =>
      match try_as_batch_sync_response msg with
      | Some resp => await _ := route_response conn resp in Ret None
      | None => Ret None
      end
  | EventMessage conn msg =>
      match try_as_batch_sync_response msg with
      | Some resp => await _ := route_response conn resp in Ret None
      | None => Ret (Some (conn, msg))
      end
  end.

(** ** Queries *)

Definition get_connection (peer_id : PeerId) : task node (option (Authenticated Conn)) :=
  reads_state (fun s : node =>
    match nd_connections s !! peer_id with Some conns => head conns | None => None end).

Definition get_peer_subscriptions (peer_id : PeerId) : task node (gset SedimentreeId) :=
  reads_state (fun s : node => default ∅ (nd_outgoing s !! peer_id)).

Definition get_subscribers id : task node (gset PeerId) :=
  reads_state (fun s : node => default ∅ (nd_subscriptions s !! id)).

Definition connected_peer_ids : task node (gset PeerId) :=
  reads_state (fun s : node => dom (nd_connections s)).

Definition total_connection_count : task node nat :=
  reads_state (fun s : node => sum_list_with length (hash_values (nd_connections s))).

Definition hydrated_or_log id : task node (option Sedimentree) :=
  await r := get_or_hydrate shards depth_metric id in
  Ret (match r with Ok maybe_tree => maybe_tree | Err _ => None end).

Definition get_commits id : task node (option (list LooseCommit)) :=
  await tree := hydrated_or_log id in
  Ret (match tree with Some tree => Some (hash_values (st_commits tree)) | None => None end).

Definition get_fragments id : task node (option (list Fragment)) :=
  await tree := hydrated_or_log id in
  Ret (match tree with Some tree => Some (hash_values (st_fragments tree)) | None => None end).

Definition get_all_heads : task node (list (SedimentreeId * list CommitId)) :=
  await ids := sedimentree_ids shards in
  tfor (fun out id =>
      await r := heads_or_hydrate shards depth_metric id in
      Ret (match r with
           | Ok (Some heads) => out ++ [(id, heads)]
           | Ok None => out
           | Err _ => out ++ [(id, [])]
           end)) [] ids.
End listener.
