(* ===== verification/NodePool.v ===== *)
(** A node at work: messages of any authenticated peers are handled, connections come and
    go, local writes are made and sync rounds run, all at the same time, in any
    interleaving, and more may start at any time. *)

From Stdlib Require Import Strings.Byte NArith Lia.
From stdpp Require Import base gmap sorting list relations.
From S2P Require Import Prelude.
From S2P Require Import Codec.
From S2P Require Import Types.
From S2P Require Import LooseCommit.
From S2P Require Import Fragment.
From S2P Require Import Traversal.
From S2P Require Import Sedimentree.
From S2P Require Import Minimize.
From S2P Require Import Minimized.
From S2P Require Import Fingerprints.
From S2P Require Import Signed.
From S2P Require Import Message.
From S2P Require Import Authenticated.
From S2P Require Import Tasks.
From S2P Require Import ShardedMap.
From S2P Require Import BoundedShardedMap.
From S2P Require Import Storage.
From S2P Require Import MemoryStorage.
From S2P Require Import Multiplexer.
From S2P Require Import Node.
From S2P Require Import Ingest.
From S2P Require Import IngestSpec.
From S2P Require Import IngestPool.
From S2P Require Import Peers.
From S2P Require Import SyncHandler.
From S2P Require Import ResponderSpec.
From S2P Require Import SyncHandlerSpec.
From S2P Require Import Registry.
From S2P Require Import RegistrySpec.
From S2P Require Import Engine.
From S2P Require Import EngineSpec.
From S2P Require Import SyncSpec.
From S2P Require Import Listener.

(** What a node does. A write with [Some chances] also syncs. *)
Inductive activity (Conn E SendErr : Type) : Type :=
| Dispatch (unlocked : bool) (conn : Authenticated Conn) (msg : SyncMessage)
| Propagate (chances : PeerId -> nat -> chance) (id : SedimentreeId) (originator : PeerId)
| Listen (event : listen_event Conn (IoError E SendErr))
| RunSpawned
| Serve (q : request)
| WriteCommit (push : bool) (id : SedimentreeId) (head : CommitId) (parents : gset CommitId) (blob : Blob)
| WriteFragment (push : bool) (id : SedimentreeId) (head : CommitId) (boundary : gset CommitId)
    (checkpoints : list CommitId) (blob : Blob)
| WriteCommits (sync : option (PeerId -> nat -> chance)) (id : SedimentreeId)
    (commits : list (CommitId * gset CommitId * Blob))
| WriteFragments (sync : option (PeerId -> nat -> chance)) (id : SedimentreeId) (fragments : list FragmentBatchItem)
| WriteBuilt (sync : option (PeerId -> nat -> chance)) (id : SedimentreeId)
    (commits : list (LooseCommit * Blob)) (fragments : list (Fragment * Blob))
| WriteTree (sync : option (PeerId -> nat -> chance)) (id : SedimentreeId) (tree : Sedimentree) (blobs : list Blob)
| SyncPeer (chances : nat -> chance) (peer : PeerId) (id : SedimentreeId) (subscribe : bool)
| SyncAll (chances : PeerId -> nat -> chance) (id : SedimentreeId) (subscribe : bool)
| FullSyncPeer (chances : SedimentreeId -> nat -> chance) (peer : PeerId) (subscribe : bool)
| FullSyncAll (chances : SedimentreeId -> PeerId -> nat -> chance)
| FetchBlobs (chances : nat -> chance) (id : SedimentreeId)
| AddConnection (nonce : N) (conn : Authenticated Conn)
| Reconnected (nonce : N) (conn_id : N) (conn : Authenticated Conn)
| Disconnect (conn : Authenticated Conn)
| DisconnectAll
| DisconnectPeer (peer : PeerId).
Arguments Dispatch {_ _ _} _ _ _.
Arguments Propagate {_ _ _} _ _ _.
Arguments Listen {_ _ _} _.
Arguments RunSpawned {_ _ _}.
Arguments Serve {_ _ _} _.
Arguments WriteCommit {_ _ _} _ _ _ _ _.
Arguments WriteFragment {_ _ _} _ _ _ _ _ _.
Arguments WriteCommits {_ _ _} _ _ _.
Arguments WriteFragments {_ _ _} _ _ _.
Arguments WriteBuilt {_ _ _} _ _ _ _.
Arguments WriteTree {_ _ _} _ _ _ _.
Arguments SyncPeer {_ _ _} _ _ _ _.
Arguments SyncAll {_ _ _} _ _ _.
Arguments FullSyncPeer {_ _ _} _ _ _.
Arguments FullSyncAll {_ _ _} _.
Arguments FetchBlobs {_ _ _} _ _.
Arguments AddConnection {_ _ _} _ _.
Arguments Reconnected {_ _ _} _ _ _.
Arguments Disconnect {_ _ _} _.
Arguments DisconnectAll {_ _ _}.
Arguments DisconnectPeer {_ _ _} _.

(** What is known of its end: whether it succeeded, and what it returned. *)
Inductive outcome (Conn E SendErr : Type) : Type :=
| Finished (ok : bool)
| Replied (a : request * reply E SendErr)
| Requested (fragment : option FragmentRequested)
| Round (stats : SyncStats)
| Rounds (out : gmap PeerId (bool * SyncStats * list (Authenticated Conn * CallError SendErr)))
| Blobs (blobs : option (list Blob)).
Arguments Finished {_ _ _} _.
Arguments Replied {_ _ _} _.
Arguments Requested {_ _ _} _.
Arguments Round {_ _ _} _.
Arguments Rounds {_ _ _} _.
Arguments Blobs {_ _ _} _.

Section pool.
Context `{HashIter, SipHash24Range, Ed25519, Blake3, Bijou64}.
Context {Sto E Pol D Df Dp Net Conn SendErr : Type} `{!Storage Sto E} `{!StorageLaws Sto E}.
Context `{!EqDecision Conn} `{!ConnectionPolicy Pol D}.
Context `{!StoragePolicy Pol Df Dp} `{!Connection Net Conn SendErr}.
Context `{!Sent Net Conn} `{!ConnectionLaws Net Conn SendErr}.
Context (shards : nat) (m : DepthMetric) (seed : PeerId -> N) (signer : Signer).
Notation node := (Node Sto Pol Net Conn).
Notation act := (activity Conn E SendErr).
Notation out := (outcome Conn E SendErr).
Implicit Types (s t : node) (id : SedimentreeId) (conn : Authenticated Conn) (a : act).

Definition is_success {Er A} (r : result Er A) : out := Finished (is_ok r).

Definition when_ok {Er A} (f : A -> out) (r : result Er A) : out :=
  match r with Ok x => f x | Err _ => Finished false end.

Definition round_outcome (r : result (IoError E SendErr) (bool * SyncStats * list (Authenticated Conn * CallError SendErr))) : out :=
  match r with Ok (true, stats, _) => Round stats | _ => Finished false end.

(** The call that an activity is, and its outcome. *)
Definition perform a : task node out :=
  match a with
  | Dispatch unlocked conn msg =>
      await r := dispatch_task shards m seed unlocked conn msg in Ret (is_success r.1)
  | Propagate chances id originator =>
      await _ := propagation_task shards m seed chances id originator in Ret (Finished true)
  | Listen event => await _ := listen_arm event in Ret (Finished true)
  | RunSpawned => await _ := run_spawned in Ret (Finished true)
  | Serve q => await r := serve shards m q in Ret (Replied r)
  | WriteCommit push id head parents blob =>
      await r := (if push then add_commit (SendErr:=SendErr) shards m seed signer id head parents blob
                  else store_commit shards m signer id head parents blob) in
      Ret (when_ok Requested r)
  | WriteFragment push id head boundary checkpoints blob =>
      await r := (if push then add_fragment (SendErr:=SendErr) shards m seed signer id head boundary checkpoints blob
                  else store_fragment shards m signer id head boundary checkpoints blob) in
      Ret (is_success r)
  | WriteCommits (Some chances) id commits =>
      await r := add_commits_batch shards m seed signer chances id commits in Ret (when_ok Rounds r)
  | WriteCommits None id commits =>
      await r := store_commits_batch (SendErr:=SendErr) shards m signer id commits in Ret (is_success r)
  | WriteFragments (Some chances) id fragments =>
      await r := add_fragments_batch shards m seed signer chances id fragments in Ret (when_ok Rounds r)
  | WriteFragments None id fragments =>
      await r := store_fragments_batch (SendErr:=SendErr) shards m signer id fragments in Ret (is_success r)
  | WriteBuilt (Some chances) id commits fragments =>
      await r := add_built_batch shards m seed signer chances id commits fragments in Ret (when_ok Rounds r)
  | WriteBuilt None id commits fragments =>
      await r := store_built_batch (SendErr:=SendErr) shards m signer id commits fragments in Ret (is_success r)
  | WriteTree (Some chances) id tree blobs =>
      await r := add_sedimentree shards m seed signer chances id tree blobs in Ret (when_ok Rounds r)
  | WriteTree None id tree blobs =>
      await r := store_sedimentree (SendErr:=SendErr) shards signer id tree blobs in Ret (is_success r)
  | SyncPeer chances peer id subscribe =>
      await r := sync_with_peer shards m seed chances peer id subscribe in Ret (round_outcome r)
  | SyncAll chances id subscribe =>
      await r := sync_with_all_peers shards m seed chances id subscribe in Ret (when_ok Rounds r)
  | FullSyncPeer chances peer subscribe =>
      await r := full_sync_with_peer shards m seed chances peer subscribe in Ret (Finished r.1)
  | FullSyncAll chances =>
      await r := full_sync_with_all_peers shards m seed chances in Ret (Finished r.1)
  | FetchBlobs chances id =>
      await r := fetch_blobs shards m seed chances id in Ret (when_ok Blobs r)
  | AddConnection nonce conn =>
      await r := add_connection (D:=D) nonce conn in Ret (is_success r)
  | Reconnected nonce conn_id conn =>
      await r := on_reconnect_success nonce conn_id conn in Ret (is_success r)
  | Disconnect conn => await r := disconnect_connection (SendErr:=SendErr) conn in Ret (is_success r)
  | DisconnectAll => await r := disconnect_all (SendErr:=SendErr) in Ret (is_success r)
  | DisconnectPeer peer => await r := disconnect_from_peer (SendErr:=SendErr) peer in Ret (is_success r)
  end.

Context (own_c : SedimentreeId -> VerifiedMeta LooseCommit -> Prop).
Context (own_f : SedimentreeId -> VerifiedMeta Fragment -> Prop).
Context (put_approved : PeerId -> PeerId -> SedimentreeId -> Prop).
Context (fetch_approved : PeerId -> SedimentreeId -> Prop).
Context (proved : Conn -> PeerId -> Prop).

(** What a tree and its blobs are sealed to. *)
Definition sealed_tree (tree : Sedimentree) (blobs : list Blob) cs fs : Prop :=
  seal_with_blobs (E:=E) (SendErr:=SendErr) signer (blobs_of blobs) (hash_values (st_commits tree)) = Ok cs /\
  seal_with_blobs (E:=E) (SendErr:=SendErr) signer (blobs_of blobs) (hash_values (st_fragments tree)) = Ok fs.
Definition sealed_built (commits : list (LooseCommit * Blob)) (fragments : list (Fragment * Blob)) cs fs : Prop :=
  seal_built signer commits = Ok cs /\ seal_built signer fragments = Ok fs.

(** Connections are those whose peer has proved its identity, and what the node writes is
    its own. *)
Definition permitted a : Prop :=
  match a with
  | Dispatch _ conn _ | AddConnection _ conn | Reconnected _ _ conn => proved_conn proved conn
  | Serve q => allowed own_c own_f q
  | WriteCommit _ id head parents blob => mine_c own_c id (seal_commit signer id head parents blob)
  | WriteFragment _ id head boundary checkpoints blob =>
      mine_f own_f id (seal_fragment signer id head boundary checkpoints blob)
  | WriteCommits _ id commits => all_mine own_c own_f id (sealed_commits signer id commits) []
  | WriteFragments _ id fragments => all_mine own_c own_f id [] (sealed_fragments signer id fragments)
  | WriteBuilt _ id commits fragments =>
      forall cs fs, sealed_built commits fragments cs fs -> all_mine own_c own_f id cs fs
  | WriteTree _ id tree blobs =>
      forall cs fs, sealed_tree tree blobs cs fs -> all_mine own_c own_f id cs fs
  | _ => True
  end.

Definition performed (x : task node (act * out)) : Prop :=
  exists a, permitted a /\ x = (await o := perform a in Ret (a, o)).

Notation good_c := (authentic put_approved own_c).
Notation good_f := (authentic put_approved own_f).
Notation ok := (peers_ok m own_c own_f put_approved fetch_approved proved).
Notation inv := (node_inv shards m good_c good_f ok).
Notation grows := (node_grows m).
Notation synced := (synced (E:=E) (Df:=Df) (Dp:=Dp) (SendErr:=SendErr) m put_approved).

(** The policy says yes only to what is approved, and its answers do not fail. *)
Record policies_ok : Prop := {
  pk_storage : policy_laws (Pol:=Pol) put_approved fetch_approved;
  pk_connect peer p :
    wp (fun _ => True) (fun _ _ => True) (authorize_connect (P:=Pol) peer) (fun _ _ => True) p
}.

(** A write that may also have synced. *)
Definition written s t id (Q : Prop) (o : out) : Prop :=
  match o with
  | Finished true => Q
  | Rounds rounds => Q /\ forall peer stats errs,
      rounds !! peer = Some (true, stats, errs) -> synced s t peer id stats
  | _ => True
  end.

(** What an activity that ran from [s] to [t] has done. *)
Definition promise s t (r : act * out) : Prop :=
  match r with
  | (Dispatch _ conn msg, Finished true) => handled (Pol:=Pol) (Df:=Df) (Dp:=Dp) m put_approved s t conn msg
  | (Serve _, Replied a) => write_promise (Df:=Df) (Dp:=Dp) m put_approved t a /\ read_promise m s t a
  | (WriteCommit _ id head parents blob, Requested f) =>
      f = requested_fragment m head /\
      commit_inserted m t id (vm_payload (seal_commit signer id head parents blob))
  | (WriteFragment _ id head boundary checkpoints blob, Finished true) =>
      fragment_inserted m t id (vm_payload (seal_fragment signer id head boundary checkpoints blob))
  | (WriteCommits _ id commits, o) =>
      written s t id (batch_inserted m t id (sealed_commits signer id commits) []) o
  | (WriteFragments _ id fragments, o) =>
      written s t id (batch_inserted m t id [] (sealed_fragments signer id fragments)) o
  | (WriteBuilt _ id commits fragments, o) =>
      written s t id (exists cs fs, sealed_built commits fragments cs fs /\ batch_inserted m t id cs fs) o
  | (WriteTree _ id tree blobs, o) =>
      written s t id (exists cs fs, sealed_tree tree blobs cs fs /\ batch_merged m t id cs fs) o
  | (SyncPeer _ peer id _, Round stats) => synced s t peer id stats
  | (SyncAll _ id _, o) => written s t id True o
  | (FullSyncPeer _ _ _, Finished true) | (FullSyncAll _, Finished true) =>
      exists peer id stats, synced s t peer id stats
  | (FetchBlobs _ id, Blobs o) => blobs_read s t id o
  | _ => True
  end.

Lemma written_before s s' t id Q o : grows s s' -> written s' t id Q o -> written s t id Q o.
Proof.
  intros Hg. destruct o as [[]| | | |rounds|]; try done. intros [HQ Hr]. split; [done|].
  intros peer stats errs Hl. by eapply synced_before, Hr.
Qed.

Lemma promise_before s s' t r : grows s s' -> promise s' t r -> promise s t r.
Proof.
  intros Hg. destruct r as [a o].
  destruct a; try done; try (by apply written_before); destruct o as [[]|rep| |st| |bs]; cbn [promise]; try done.
  - by apply handled_before.
  - intros [Hw Hr]. split; [done|]. by eapply read_promise_before.
  - by apply synced_before.
  - intros (p & i & st & Hs). exists p, i, st. by eapply synced_before.
  - intros (p & i & st & Hs). exists p, i, st. by eapply synced_before.
  - intros Hb. by eapply blobs_read_before.
Qed.

Context (Hshards : (0 < shards)%nat) (Hmax : N.of_nat shards <= u64_max).

Lemma wp_then {A B} (x : task node A) (f : A -> B) Q (P : B -> node -> Prop) s :
  wp inv grows x Q s -> (forall r t, Q r t -> P (f r) t) ->
  wp inv grows (await r := x in Ret (f r)) P s.
Proof. intros Hx HP. eapply wp_map; [apply _|exact Hx|]. intros r t _ _. apply HP. Qed.

Lemma listen_arm_spec (event : listen_event Conn (IoError E SendErr)) s :
  inv s -> wp inv grows (listen_arm event) (fun _ _ => True) s.
Proof.
  intros Hs. assert (Hrem : forall conn, wp inv grows (await _ := remove_connection conn in Ret None)
    (fun (_ : option (Authenticated Conn * SyncMessage)) _ => True) s).
  { intros conn. by eapply wp_then; [eapply remove_connection_spec|]. }
  assert (Hroute : forall conn resp, wp inv grows (await _ := route_response conn resp in Ret None)
    (fun (_ : option (Authenticated Conn * SyncMessage)) _ => True) s).
  { intros conn resp. by eapply wp_then; [eapply route_response_spec|]. }
  destruct event as [[conn [[]|e]|]|conn msg|conn|conn msg]; cbn [listen_arm]; try done; try apply Hrem.
  - destruct (try_as_batch_sync_response msg); [apply Hroute|done].
  - destruct (try_as_batch_sync_response msg); [apply Hroute|done].
Qed.

(** The batch writes, each alone or with a sync. *)
Definition is_batch a : bool :=
  match a with
  | WriteCommits _ _ _ | WriteFragments _ _ _ | WriteBuilt _ _ _ _ | WriteTree _ _ _ _ => true
  | _ => false
  end.

Lemma perform_batch_spec a s :
  policies_ok -> is_batch a = true -> permitted a -> inv s ->
  wp inv grows (perform a) (fun o t => promise s t (a, o)) s.
Proof.
  intros [Hpol Hcon] Hb Ha Hs. destruct a; try discriminate Hb; cbn [perform permitted] in *;
    destruct sync as [chances|].
  - eapply wp_then; [by eapply add_commits_batch_spec|]. intros [o|e] t Hr; [by apply Hr|done].
  - eapply wp_then; [by eapply store_commits_batch_spec|]. intros [o|e] t Hr; [by apply (Hr o)|done].
  - eapply wp_then; [by eapply add_fragments_batch_spec|]. intros [o|e] t Hr; [by apply Hr|done].
  - eapply wp_then; [by eapply store_fragments_batch_spec|]. intros [o|e] t Hr; [by apply (Hr o)|done].
  - eapply wp_then; [eapply add_built_batch_spec; try done; intros cs fs ??; by apply Ha|].
    intros [o|e] t Hr; [|done]. destruct (Hr o eq_refl) as [(cs & fs & ? & ? & ?) Hsy].
    split; [|exact Hsy]. by exists cs, fs.
  - eapply wp_then; [eapply store_built_batch_spec; try done; intros cs fs ??; by apply Ha|].
    intros [o|e] t Hr; [|done]. destruct (Hr o eq_refl) as (cs & fs & ? & ? & ?). by exists cs, fs.
  - eapply wp_then; [by eapply add_sedimentree_spec|]. intros [o|e] t Hr; [by apply Hr|done].
  - eapply wp_then; [by eapply store_sedimentree_spec|]. intros [o|e] t Hr; [by apply (Hr o)|done].
Qed.

Lemma perform_spec a s :
  policies_ok -> permitted a -> inv s -> wp inv grows (perform a) (fun o t => promise s t (a, o)) s.
Proof.
  intros Hpk Ha Hs. destruct (is_batch a) eqn:Hb; [by apply perform_batch_spec|]. destruct Hpk as [Hpol Hcon].
  destruct a; try discriminate Hb; cbn [perform permitted] in *.
  - eapply wp_then; [by eapply dispatch_task_spec|]. intros [[[]|e] o] t Hr; [by apply Hr|done].
  - by eapply wp_then; [by eapply propagation_task_spec|].
  - by eapply wp_then; [by eapply listen_arm_spec|].
  - by eapply wp_then; [by eapply run_spawned_spec|].
  - eapply wp_then; [eapply (serve_spec shards m own_c own_f put_approved Hshards Hmax);
      [apply peers_ok_cache|apply peers_ok_storage|apply peers_ok_policy|exact (pl_put _ _ Hpol)|done..]|done].
  - destruct push.
    + eapply wp_then; [by eapply add_commit_spec|]. intros [f|e] t Hr; [by apply Hr|done].
    + eapply wp_then; [by eapply store_commit_spec|]. intros [f|e] t Hr; [by apply Hr|done].
  - destruct push.
    + eapply wp_then; [by eapply add_fragment_spec|]. intros [f|e] t Hr; [by apply (Hr f)|done].
    + eapply wp_then; [by eapply store_fragment_spec|]. intros [f|e] t Hr; [by apply (Hr f)|done].
  - eapply wp_then; [by eapply sync_with_peer_spec|]. intros [[[[] st] es]|e] t Hr; [by eapply Hr|done..].
  - eapply wp_then; [by eapply sync_with_all_peers_spec|]. intros [o|e] t Hr; [|done].
    split; [done|]. by apply Hr.
  - eapply wp_then; [by eapply full_sync_with_peer_spec|]. intros [[] r] t Hr; [by apply Hr|done].
  - eapply wp_then; [by eapply full_sync_with_all_peers_spec|]. intros [[] r] t Hr; [by apply Hr|done].
  - eapply wp_then; [by eapply fetch_blobs_spec|]. intros [o|e] t Hr; [by apply Hr|done].
  - by eapply wp_then; [by eapply add_connection_spec|].
  - by eapply wp_then; [by eapply on_reconnect_success_spec|].
  - by eapply wp_then; [by eapply disconnect_connection_spec|].
  - by eapply wp_then; [by eapply disconnect_all_spec|].
  - by eapply wp_then; [by eapply disconnect_from_peer_spec|].
Qed.

Lemma pool_of_activities s ts t ts' :
  policies_ok -> inv s -> (forall x, x ∈ ts -> performed x) ->
  rtc (pool_step performed) (s, ts) (t, ts') ->
  inv t /\ grows s t /\
  (forall B (f : node -> option (node * B)) k, Act f k ∈ ts' -> is_Some (f t)) /\
  (forall r, Ret r ∈ ts' -> promise s t r).
Proof.
  intros Hpol Hs Hts Hrtc.
  assert (Hwp : forall x u, performed x -> inv u /\ grows s u ->
    wp (fun t => inv t /\ grows s t) grows x (fun r t => promise s t r) u).
  { intros x u (a & Ha & ->) [Hu Hg]. apply wp_keeps; [by intros ? ? ? ?; etrans|].
    eapply wp_then; [by apply perform_spec|]. intros o t' Hr. by eapply promise_before. }
  destruct (pool_sound _ _ performed _ _ _ Hwp Hrtc) as ([Ht Hg] & _ & Hts').
  { by split. }
  { intros x Hx. by apply Hwp; [apply Hts|split]. }
  split_and!; [done..| |].
  - intros B f k Hin. exact (wp_no_panic _ _ f k _ t (conj Ht Hg) (Hts' _ Hin)).
  - intros r Hin. exact (wp_returned _ _ r _ t (conj Ht Hg) (Hts' _ Hin)).
Qed.

Notation reached s ts t ts' :=
  (rtc (pool_step performed) (s, ts) (t, ts')) (only parsing).

(** C4: Whatever a node does, in any interleaving of messages from authenticated peers,
    connections that come and go, local writes and sync rounds: no operation panics; what
    was given to a connection is something that its peer may receive, items only if the
    policy let the peer fetch the tree and always authentic; storage has only authentic
    items; the resident trees are minimised when they claim to be and consist of stored
    items; each connection is registered under the identity that its peer has proved, and
    a peer has a multiplexer for calls exactly as long as it has a connection. *)
Theorem node_pool_safe s ts t ts' :
  policies_ok -> inv s -> (forall x, x ∈ ts -> performed x) -> reached s ts t ts' ->
  (forall B (f : node -> option (node * B)) k, Act f k ∈ ts' -> is_Some (f t)) /\
  (forall c msg, (c, msg) ∈ net_sent (nd_net t) -> exists peer, proved c peer /\
     may_receive m own_c own_f put_approved fetch_approved peer msg) /\
  (forall id v, st_commit (nd_storage t) id v -> authentic put_approved own_c id v) /\
  (forall id v, st_fragment (nd_storage t) id v -> authentic put_approved own_f id v) /\
  (forall id ms, resident t !! id = Some ms ->
     Minimized.valid m ms /\ backed (nd_storage t) id (ms_tree ms)) /\
  (forall peer conns, nd_connections t !! peer = Some conns ->
     conns <> [] /\ forall conn, conn ∈ conns -> au_peer_id conn = peer /\ proved (au_inner conn) peer) /\
  (forall peer, (exists mux muxes, lk_multiplexers (nd_links t) !! peer = Some (mux :: muxes)) <->
     is_Some (nd_connections t !! peer)).
Proof.
  intros Hpol Hs Hts Hrtc.
  destruct (pool_of_activities s ts t ts' Hpol Hs Hts Hrtc)
    as ([_ (_ & Hc & Hf) Htr [Hnet Hconns Hne _ _ Hmux Hlink _]] & _ & Hact & _).
  split_and!; [done| |done..| |].
  - intros c msg Hin. exact (proj1 (Forall_forall _ _) Hnet _ Hin).
  - intros peer conns Hp. split; [intros ->; by apply (Hne peer)|]. intros conn Hin.
    destruct (Hconns peer conns conn Hp Hin) as [<- Hpr]. by split.
  - intros peer. rewrite <- elem_of_dom, <- Hlink, elem_of_dom. split.
    + intros (mux & muxes & Hp). by eexists.
    + intros [[|mux muxes] Hp]; [by destruct (Hmux peer [] Hp)|]. by exists mux, muxes.
Qed.

(** C7: When the dispatch of a message has returned without an error, the message has been
    handled, whatever ran at the same time: a pushed item that verifies and that the policy
    lets the peer put is stored; a sync request has been answered over its connection, with
    a refusal that the policy justifies or with the difference to a tree that a read could
    have returned, and with stored items, no two of one identity, whose identities are in
    that tree and lacked by the requestor, among them one for each such identity that was
    stored when the pool started; of a sync response, all the items that verify and that
    the policy lets the peer put are stored. What is stored so is in the tree too if the
    cache has no capacity. *)
Theorem node_pool_handles s ts t ts' unlocked conn msg :
  policies_ok -> inv s -> (forall x, x ∈ ts -> performed x) -> reached s ts t ts' ->
  Ret (Dispatch unlocked conn msg, Finished true) ∈ ts' ->
  handled (Pol:=Pol) (Df:=Df) (Dp:=Dp) m put_approved s t conn msg.
Proof.
  intros Hpol Hs Hts Hrtc Ha.
  destruct (pool_of_activities s ts t ts' Hpol Hs Hts Hrtc) as (_ & _ & _ & Hret). exact (Hret _ Ha).
Qed.

(** C8: When a local write has returned without an error, what it sealed is stored, and in
    the tree if the cache has no capacity, whatever ran at the same time, for each of the
    twelve forms of a write: one commit, for which a fragment is requested exactly if its
    depth is a boundary, one fragment, a batch of either, a batch of built items and a
    whole tree, each of them pushed or synced to the peers or not. *)
Theorem node_pool_writes s ts t ts' :
  policies_ok -> inv s -> (forall x, x ∈ ts -> performed x) -> reached s ts t ts' ->
  (forall push id head parents blob fragment,
     Ret (WriteCommit push id head parents blob, Requested fragment) ∈ ts' ->
     fragment = requested_fragment m head /\
     commit_inserted m t id (vm_payload (seal_commit signer id head parents blob))) /\
  (forall push id head boundary checkpoints blob,
     Ret (WriteFragment push id head boundary checkpoints blob, Finished true) ∈ ts' ->
     fragment_inserted m t id (vm_payload (seal_fragment signer id head boundary checkpoints blob))) /\
  (forall sync id commits o, Ret (WriteCommits sync id commits, o) ∈ ts' ->
     written s t id (batch_inserted m t id (sealed_commits signer id commits) []) o) /\
  (forall sync id fragments o, Ret (WriteFragments sync id fragments, o) ∈ ts' ->
     written s t id (batch_inserted m t id [] (sealed_fragments signer id fragments)) o) /\
  (forall sync id commits fragments o, Ret (WriteBuilt sync id commits fragments, o) ∈ ts' ->
     written s t id (exists cs fs, sealed_built commits fragments cs fs /\ batch_inserted m t id cs fs) o) /\
  (forall sync id tree blobs o, Ret (WriteTree sync id tree blobs, o) ∈ ts' ->
     written s t id (exists cs fs, sealed_tree tree blobs cs fs /\ batch_merged m t id cs fs) o).
Proof.
  intros Hpol Hs Hts Hrtc.
  destruct (pool_of_activities s ts t ts' Hpol Hs Hts Hrtc) as (_ & _ & _ & Hret).
  split_and!; intros *; apply Hret.
Qed.

(** C9: When a sync round with a peer reports success, whatever ran at the same time: a
    request with the summary of the node's tree was given to a connection of the peer, a
    response that carries the id of this request was delivered for it, and all items of this
    response that verify and that the policy lets the peer put are stored, and in the tree
    if the cache has no capacity. Further, an item of each identity that the response asked
    for and that was stored when the pool started has been given to the connection, unless
    the policy refuses the fetch to the peer or a read of the storage reported an error in
    the meantime. The reported counts are the items of this response, and no more items
    sent than it asked for; none if they were not served. *)
Theorem node_pool_syncs s ts t ts' :
  policies_ok -> inv s -> (forall x, x ∈ ts -> performed x) -> reached s ts t ts' ->
  (forall chances peer id subscribe stats,
     Ret (SyncPeer chances peer id subscribe, Round stats) ∈ ts' -> synced s t peer id stats) /\
  (forall chances id subscribe rounds peer stats errs,
     Ret (SyncAll chances id subscribe, Rounds rounds) ∈ ts' ->
     rounds !! peer = Some (true, stats, errs) -> synced s t peer id stats).
Proof.
  intros Hpol Hs Hts Hrtc.
  destruct (pool_of_activities s ts t ts' Hpol Hs Hts Hrtc) as (_ & _ & _ & Hret). split.
  - intros chances peer id subscribe stats Ha. exact (Hret _ Ha).
  - intros chances id subscribe rounds peer stats errs Ha. by apply (Hret _ Ha).
Qed.

(** [fetch_blobs] returns the blobs of stored items, and of each item that was stored
    when it began the blob of one with its identity, fetched or not; it returns [None]
    only if nothing was stored then, and it never returns an empty list. *)
Theorem node_pool_fetches s ts t ts' chances id o :
  policies_ok -> inv s -> (forall x, x ∈ ts -> performed x) -> reached s ts t ts' ->
  Ret (FetchBlobs chances id, Blobs o) ∈ ts' -> blobs_read s t id o.
Proof.
  intros Hpol Hs Hts Hrtc Ha.
  destruct (pool_of_activities s ts t ts' Hpol Hs Hts Hrtc) as (_ & _ & _ & Hret). exact (Hret _ Ha).
Qed.
End pool.

(** ** Examples *)

#[local] Existing Instance Sharded.siphash_sum.
#[local] Existing Instance Sharded.siphash_sum_range.
#[local] Existing Instance hash_iter_by_encoding.
#[local] Existing Instance ed25519_checksum.
#[local] Existing Instance bijou_fixed8.
#[local] Existing Instance blake3_head.

(** A transport that keeps what it is given; a connection is the identity of its peer. *)
Definition recorder : Type := list (PeerId * SyncMessage).
#[local] Instance recorder_connection : Connection recorder PeerId unit := {|
  send conn msg := act (fun net => Some (net ++ [(conn, msg)], Ok tt));
  disconnect _ := Ret (Ok tt)
|}.
#[local] Instance recorder_sent : Sent recorder PeerId := fun net => net.
#[local] Instance recorder_laws : ConnectionLaws recorder PeerId unit.
Proof.
  split.
  - intros good conn msg net Hnet Hmsg. apply wp_act. intros net' Hnet' Hg.
    eexists _, _. split; [done|]. split_and!.
    + apply Forall_app. by split; [|constructor].
    + intros x Hx. apply elem_of_app. by left.
    + intros net'' _ Hg'. apply Hg'. apply elem_of_app. right. by left.
  - intros good conn net Hnet. by apply wp_ret.
Qed.

Notation toy_node := (Node MemoryStorage unit recorder PeerId).
Notation toy_activity := (activity PeerId DecodeError unit).
Notation toy_outcome := (outcome PeerId DecodeError unit).

Definition toy_start : toy_node :=
  MkNode (Bounded.with_key 1 0 0) Memory.new tt [] ∅ ∅ ∅ ∅ [] ∅ no_links.
Definition toy_peer : PeerId := verifying_key (toy_signer x02).
Definition toy_conn : Authenticated PeerId := from_handshake toy_peer toy_peer Dialed.
Definition toy_seed : FingerprintSeed := {| key0 := 3; key1 := 5 |}.
Definition toy_chance : chance := MkChance toy_seed 20 true true.
Definition toy_head : CommitId := array_pad 32 [x02].

(** The peer lacks the commit that the node writes, and has one that the node lacks. *)
Definition toy_response : BatchSyncResponse :=
  MkBatchSyncResponse (MkRequestId toy_peer 7) sample_id
    (SR_Ok (MkSyncDiff [to_wire (sample_meta x03 ∅)] []
       (MkRequestedData [Fingerprint_new toy_seed toy_head] [])))
    (MkRemoteHeads 1 []).
Definition toy_request : BatchSyncRequest :=
  MkBatchSyncRequest sample_id (MkRequestId toy_peer 9)
    (fr_summary_of (fingerprint_resolver Sedimentree_empty toy_seed)) false.

Definition toy_activities : list toy_activity :=
  [AddConnection 7 toy_conn;
   WriteCommit false sample_id toy_head ∅ [x02; x05];
   SyncPeer (fun _ => toy_chance) toy_peer sample_id false;
   Listen (EventMessage toy_conn (SM_BatchSyncResponse toy_response));
   Dispatch true toy_conn (SM_BatchSyncRequest toy_request);
   FetchBlobs (fun _ => toy_chance) sample_id].

Definition toy_task (a : toy_activity) : task toy_node (toy_activity * toy_outcome) :=
  await o := perform (D:=Empty_set) 1 CountLeadingZeroBytes (fun _ => 0) (toy_signer x01) a in Ret (a, o).
Definition toy_order : list nat :=
  replicate 2 0%nat ++ replicate 14 1%nat ++ replicate 7 2%nat ++ replicate 2 3%nat ++
  replicate 20 2%nat ++ replicate 7 4%nat ++ replicate 2 5%nat.
Definition toy_end :=
  default (toy_start, []) (schedule toy_order (toy_start, toy_task <$> toy_activities)).

(** The node's own commit; the open policy; a connection proves its name. *)
Definition toy_own (id : SedimentreeId) (v : VerifiedMeta LooseCommit) : Prop :=
  id = sample_id /\ v = sample_meta x02 ∅.
Definition any_fetch (peer : PeerId) (id : SedimentreeId) : Prop := True.
Definition named (conn peer : PeerId) : Prop := conn = peer.

Lemma toy_policies : policies_ok (Pol:=unit) any_approved any_fetch.
Proof. by split; [split|]. Qed.

Lemma toy_start_inv :
  node_inv 1 CountLeadingZeroBytes (authentic any_approved toy_own) (authentic any_approved no_own)
    (peers_ok CountLeadingZeroBytes toy_own no_own any_approved any_fetch named) toy_start.
Proof.
  split; [apply Bounded.with_key_ok|apply Memory_new_only| |].
  - intros id ms Hms. unfold resident in Hms. cbn [toy_start nd_cache] in Hms.
    by rewrite Bounded.cached_with_key, lookup_empty in Hms.
  - split; cbn; try done; try (by intros *; rewrite lookup_empty); try (by constructor).
    apply no_calls_ok.
Qed.

Notation toy_performed :=
  (performed (Sto:=MemoryStorage) (E:=DecodeError) (Pol:=unit) (D:=Empty_set) (Net:=recorder)
     (Conn:=PeerId) (SendErr:=unit) 1 CountLeadingZeroBytes (fun _ => 0) (toy_signer x01)
     toy_own no_own named).

Lemma toy_tasks_performed x : x ∈ toy_task <$> toy_activities -> toy_performed x.
Proof.
  intros (a & -> & Ha)%list_elem_of_fmap. exists a. split; [|done].
  revert a Ha. apply Forall_forall. by repeat constructor.
Qed.

Lemma toy_reached :
  rtc (pool_step toy_performed) (toy_start, toy_task <$> toy_activities) (toy_end.1, toy_end.2).
Proof.
  rewrite <- surjective_pairing. apply (schedule_runs _ toy_order). vm_compute. reflexivity.
Qed.

(** *** The theorems on this run *)

Lemma node_pool_safe_witness :
  length (net_sent (nd_net toy_end.1)) = 3%nat /\
  forall c msg, (c, msg) ∈ net_sent (nd_net toy_end.1) -> exists peer, named c peer /\
    may_receive CountLeadingZeroBytes toy_own no_own any_approved any_fetch peer msg.
Proof.
  split; [vm_compute; reflexivity|].
  exact (proj1 (proj2 (node_pool_safe 1 CountLeadingZeroBytes (fun _ => 0) (toy_signer x01) toy_own no_own
    any_approved any_fetch named ltac:(lia) ltac:(unfold u64_max; simpl; lia) toy_start
    (toy_task <$> toy_activities) toy_end.1 toy_end.2 toy_policies toy_start_inv toy_tasks_performed
    toy_reached))).
Defined.

Lemma toy_handled :
  Ret (Dispatch true toy_conn (SM_BatchSyncRequest toy_request), Finished true) ∈ toy_end.2.
Proof. apply list_elem_of_lookup. exists 4%nat. vm_compute. reflexivity. Qed.

Lemma node_pool_handles_witness :
  handled (Pol:=unit) (Df:=Empty_set) (Dp:=Empty_set) CountLeadingZeroBytes any_approved toy_start
    toy_end.1 toy_conn (SM_BatchSyncRequest toy_request).
Proof.
  exact (node_pool_handles 1 CountLeadingZeroBytes (fun _ => 0) (toy_signer x01) toy_own no_own
    any_approved any_fetch named ltac:(lia) ltac:(unfold u64_max; simpl; lia) toy_start
    (toy_task <$> toy_activities) toy_end.1 toy_end.2 true toy_conn _ toy_policies toy_start_inv
    toy_tasks_performed toy_reached toy_handled).
Defined.

Lemma toy_written :
  Ret (WriteCommit false sample_id toy_head ∅ [x02; x05], Requested None) ∈ toy_end.2.
Proof. apply list_elem_of_lookup. exists 1%nat. vm_compute. reflexivity. Qed.

Lemma node_pool_writes_witness :
  commit_inserted CountLeadingZeroBytes toy_end.1 sample_id (vm_payload (sample_meta x02 ∅)).
Proof.
  exact (proj2 (proj1 (node_pool_writes 1 CountLeadingZeroBytes (fun _ => 0) (toy_signer x01) toy_own no_own
    any_approved any_fetch named ltac:(lia) ltac:(unfold u64_max; simpl; lia) toy_start
    (toy_task <$> toy_activities) toy_end.1 toy_end.2 toy_policies toy_start_inv
    toy_tasks_performed toy_reached) _ _ _ _ _ _ toy_written)).
Defined.

Lemma encode_head (c : LooseCommit) :
  exists pre post, encode c = pre ++ arr_list (lc_head c) ++ post /\ length pre = 36%nat.
Proof.
  unfold encode. cbn [encode_fields LooseCommitCodec.encode_instance].
  rewrite LooseCommitCodec.commit_encode_fields_wire. unfold LooseCommitCodec.wire.
  exists (arr_list (SCHEMA LooseCommit) ++ arr_list (lc_sedimentree_id c)). eexists.
  split; [|by rewrite length_app, !length_array]. rewrite <-app_assoc. reflexivity.
Qed.

Lemma digest_head (c c' : LooseCommit) : Digest_hash c = Digest_hash c' -> lc_head c = lc_head c'.
Proof.
  assert (Hd : forall c : LooseCommit, arr_list (Digest_hash c) = arr_list (lc_head c)).
  { intros x. destruct (encode_head x) as (pre & post & He & Hl). unfold Digest_hash, hash_raw, blake3_hash, blake3_head.
    rewrite He, drop_app_length' by done. rewrite !length_app, Hl, length_array.
    destruct (Nat.ltb_spec (36 + (32 + length post)) 68); [lia|].
    rewrite take_app_length' by (by rewrite length_array). change (take 32 (arr_list (lc_head x) ++ replicate 32 x00) = arr_list (lc_head x)).
    rewrite take_app_length' by (by rewrite length_array). done. }
  intros Hcc. apply array_eq. rewrite <-!Hd. by rewrite Hcc.
Qed.

(** The heads of the stored commits, and no fragment is stored. *)
Definition head_ids : list CommitId := [toy_head; array_pad 32 [x03]].
Definition only_heads (sto : MemoryStorage) : bool :=
  match content (mem_commits sto) !! sample_id with
  | Some es => forallb (fun e => bool_decide (e.2.1.1 ∈ head_ids)) (map_to_list es)
  | None => true
  end && bool_decide (map_to_list (default ∅ (content (mem_fragments sto) !! sample_id)) = []).

Lemma backed_known sto tr x :
  only_heads sto = true -> backed sto sample_id tr -> known tr x ->
  x ∈ head_ids /\ exists k c, st_commits tr !! k = Some c /\ lc_head c = x.
Proof.
  intros [Hc Hf%bool_decide_eq_true]%andb_true_iff [Hbc Hbf] [(k & c & Hk & <-)|(k & f & Hk & _)].
  - split; [|by exists k, c]. destruct (Hbc k c Hk) as (v & (_ & es & d & He & Hd) & <-%digest_head). rewrite He in Hc.
    rewrite forallb_forall in Hc. specialize (Hc (d, entry_of v)).
    apply elem_of_map_to_list, list_elem_of_In in Hd. by apply Hc, bool_decide_eq_true in Hd.
  - destruct (Hbf k f Hk) as (v & (_ & es & d & He & Hd) & _). rewrite He in Hf.
    apply map_to_list_empty_iff in Hf. cbn in Hf. subst es. by rewrite lookup_empty in Hd.
Qed.

Lemma head_ids_distinct x y :
  x ∈ head_ids -> y ∈ head_ids -> Fingerprint_new toy_seed x = Fingerprint_new toy_seed y -> x = y.
Proof.
  assert (Hd : forallb (fun x => forallb (fun y =>
    implb (Fingerprint_new toy_seed x =? Fingerprint_new toy_seed y) (bool_decide (x = y))) head_ids) head_ids = true)
    by (vm_compute; reflexivity).
  intros Hx%list_elem_of_In Hy%list_elem_of_In Hxy. rewrite forallb_forall in Hd.
  specialize (Hd x Hx). rewrite forallb_forall in Hd. specialize (Hd y Hy).
  rewrite Hxy, N.eqb_refl in Hd. by apply bool_decide_eq_true in Hd.
Qed.

Lemma delivered_inj {A} (a a' : A) r r' : (a, Delivered r) = (a', Delivered r') -> r = r'.
Proof. by intros [= _ ->]. Qed.

(** The node has the commit when the round starts. *)
Definition toy_mid :=
  default (toy_start, []) (schedule (replicate 2 0%nat ++ replicate 14 1%nat)
    (toy_start, toy_task <$> take 2 toy_activities)).
Definition toy_round : list toy_activity :=
  [SyncPeer (fun _ => toy_chance) toy_peer sample_id false;
   Listen (EventMessage toy_conn (SM_BatchSyncResponse toy_response))].
Definition toy_served :=
  default (toy_mid.1, []) (schedule (replicate 7 0%nat ++ replicate 2 1%nat ++ replicate 20 0%nat)
    (toy_mid.1, toy_task <$> toy_round)).
Definition toy_asked : BatchSyncRequest :=
  MkBatchSyncRequest sample_id (MkRequestId toy_peer 7)
    (fr_summary_of (fingerprint_resolver (Sedimentree_new [] [vm_payload (sample_meta x02 ∅)]) toy_seed)) false.
Definition toy_stats : SyncStats := MkSyncStats 1 0 1 0 (MkRemoteHeads 1 []).

Lemma toy_mid_inv :
  node_inv 1 CountLeadingZeroBytes (authentic any_approved toy_own) (authentic any_approved no_own)
    (peers_ok CountLeadingZeroBytes toy_own no_own any_approved any_fetch named) toy_mid.1.
Proof.
  apply (pool_of_activities 1 CountLeadingZeroBytes (fun _ => 0) (toy_signer x01) toy_own no_own any_approved
    any_fetch named ltac:(lia) ltac:(unfold u64_max; simpl; lia) toy_start (toy_task <$> take 2 toy_activities)
    toy_mid.1 toy_mid.2 toy_policies toy_start_inv).
  - intros x (a & -> & Ha)%list_elem_of_fmap. apply toy_tasks_performed, list_elem_of_fmap_2.
    apply list_elem_of_lookup in Ha as [i Hi]. apply lookup_take_Some in Hi as [Hi _].
    exact (list_elem_of_lookup_2 _ _ _ Hi).
  - rewrite <- surjective_pairing. apply schedule_runs. vm_compute. reflexivity.
Qed.

Lemma toy_round_performed x : x ∈ toy_task <$> toy_round -> toy_performed x.
Proof.
  intros (a & -> & Ha)%list_elem_of_fmap. exists a. split; [|done].
  revert a Ha. apply Forall_forall. by repeat constructor.
Qed.

Lemma toy_served_reached :
  rtc (pool_step toy_performed) (toy_mid.1, toy_task <$> toy_round) (toy_served.1, toy_served.2).
Proof. rewrite <- surjective_pairing. apply schedule_runs. vm_compute. reflexivity. Qed.

Lemma toy_synced :
  Ret (SyncPeer (fun _ => toy_chance) toy_peer sample_id false, Round toy_stats) ∈ toy_served.2.
Proof. apply list_elem_of_lookup. exists 0%nat. vm_compute. reflexivity. Qed.

Lemma toy_answered conn req resp : answered toy_served.1 conn req resp -> req = toy_asked /\ resp = toy_response.
Proof.
  intros [Hgiven [_ [c Hc]]].
  assert (Hch : ca_channels (lk_calls (nd_links toy_served.1)) = [(MkRequestId toy_peer 7, Delivered toy_response)])
    by (vm_compute; reflexivity).
  rewrite Hch in Hc. apply list_lookup_singleton_Some in Hc as [_ ->%symmetry%delivered_inj]. split; [|reflexivity].
  assert (Hreq : Forall (fun x => match x.2 with SM_BatchSyncRequest r => r = toy_asked | _ => True end)
    (nd_net toy_served.1)) by (vm_compute; repeat constructor).
  rewrite Forall_forall in Hreq. apply Hreq in Hgiven as ->. reflexivity.
Qed.

Lemma toy_stored : st_commit (nd_storage toy_mid.1) sample_id (sample_meta x02 ∅).
Proof.
  assert (Hs : content (mem_commits (nd_storage toy_mid.1)) !! sample_id ≫=
    (fun es => es !! Digest_hash (vm_payload (sample_meta x02 ∅))) = Some (entry_of (sample_meta x02 ∅)))
    by (vm_compute; reflexivity).
  split; [vm_compute; reflexivity|]. apply bind_Some in Hs as (es & Hes & He).
  exists es, (Digest_hash (vm_payload (sample_meta x02 ∅))). exact (conj Hes He).
Qed.

(** The fingerprint that the peer asks for is that of the commit, in the tree of the round. *)
Lemma toy_resolved tr fp_seed :
  own_tree CountLeadingZeroBytes toy_mid.1 toy_served.1 sample_id tr ->
  bsq_fingerprint_summary toy_asked = fr_summary_of (fingerprint_resolver tr fp_seed) ->
  resolve_commit (fingerprint_resolver tr fp_seed) (Fingerprint_new toy_seed toy_head) = Some toy_head.
Proof.
  intros [Hm Hown] Hfp. pose proof (minimal_keyed CountLeadingZeroBytes tr Hm) as Hk.
  assert (fp_seed = toy_seed) as ->.
  { apply (f_equal fps_seed) in Hfp. rewrite !resolver_summary in Hfp. exact (eq_sym Hfp). }
  assert (Honly : only_heads (nd_storage toy_served.1) = true) by (vm_compute; reflexivity).
  assert (Hknown : forall x, known tr x -> x ∈ head_ids /\ exists k c, st_commits tr !! k = Some c /\ lc_head c = x).
  { intros x Hx. destruct Hown as [(_ & Hb & _)|[-> _]]; [exact (backed_known _ _ _ Honly Hb Hx)|].
    destruct Hx as [(k & c & Hk' & _)|(k & f & Hk' & _)]; cbn in Hk'; by rewrite lookup_empty in Hk'. }
  assert (Hin : bool_decide (Fingerprint_new toy_seed toy_head ∈
    commit_fingerprints (bsq_fingerprint_summary toy_asked)) = true) by (vm_compute; reflexivity).
  apply bool_decide_eq_true in Hin. rewrite Hfp, resolver_summary in Hin. apply elem_of_commit_fps in Hin as (i & Hi & Heq).
  destruct (Hknown i Hi) as [Hid (k & c & Hc & Hci)].
  assert (i = toy_head) as -> by (symmetry; apply head_ids_distinct; [by left|done|done]).
  apply (resolve_commit_fp toy_seed tr tr); [|done|].
  - intros x y [Hx|Hx] [Hy|Hy]; apply head_ids_distinct; by apply Hknown.
  - destruct Hk as [_ Hkc]. rewrite <- Hci, (Hkc k c Hc). by exists c.
Qed.

Lemma node_pool_syncs_witness :
  st_commit (nd_storage toy_mid.1) sample_id (sample_meta x02 ∅) /\
  exists conn v rh, au_peer_id conn = toy_peer /\ lc_head (vm_payload v) = toy_head /\
    (au_inner conn, SM_LooseCommit sample_id (vm_signed v) (vm_blob v) rh) ∈ net_sent (nd_net toy_served.1).
Proof.
  split; [exact toy_stored|].
  destruct (proj1 (node_pool_syncs 1 CountLeadingZeroBytes (fun _ => 0) (toy_signer x01) toy_own no_own
    any_approved any_fetch named ltac:(lia) ltac:(unfold u64_max; simpl; lia) toy_mid.1
    (toy_task <$> toy_round) toy_served.1 toy_served.2 toy_policies toy_mid_inv
    toy_round_performed toy_served_reached) _ _ _ _ _ toy_synced)
    as (conn & req & resp & diff & tr & fp_seed & Hp & _ & Hown & Hfp & Hans & Hres & _ & (r & Hr & Hstats)).
  apply toy_answered in Hans as [-> ->]. injection Hres as <-.
  destruct r as [n|e]; [|discriminate Hstats].
  destruct Hr as (_ & _ & Hsent & _). destruct (Hsent (sample_meta x02 ∅) toy_stored) as (v & rh & _ & Hh & Hg).
  { apply list_elem_of_omap. exists (Fingerprint_new toy_seed toy_head). split; [by left|].
    exact (toy_resolved tr fp_seed Hown Hfp). }
  exists conn, v, rh. split; [exact Hp|]. split; [exact Hh|exact Hg].
Defined.

Lemma toy_fetched :
  Ret (FetchBlobs (fun _ => toy_chance) sample_id, Blobs (Some [[x02; x05]; [x03; x05]])) ∈ toy_end.2.
Proof. apply list_elem_of_lookup. exists 5%nat. vm_compute. reflexivity. Qed.

Lemma node_pool_fetches_witness :
  blobs_read toy_start toy_end.1 sample_id (Some [[x02; x05]; [x03; x05]]).
Proof.
  exact (node_pool_fetches 1 CountLeadingZeroBytes (fun _ => 0) (toy_signer x01) toy_own no_own
    any_approved any_fetch named ltac:(lia) ltac:(unfold u64_max; simpl; lia) toy_start
    (toy_task <$> toy_activities) toy_end.1 toy_end.2 _ _ _ toy_policies toy_start_inv
    toy_tasks_performed toy_reached toy_fetched).
Defined.
