(* ===== verification/Teardown.v ===== *)
(** Responses and disconnections, run to the end: which calls they settle, and what they leave
    of a peer. *)

From Stdlib Require Import Strings.Byte NArith Lia.
From stdpp Require Import base gmap sorting list relations.
From S2P Require Import Prelude.
From S2P Require Import Codec.
From S2P Require Import Types.
From S2P Require Import Traversal.
From S2P Require Import Signed.
From S2P Require Import Message.
From S2P Require Import Authenticated.
From S2P Require Import Tasks.
From S2P Require Import Storage.
From S2P Require Import Multiplexer.
From S2P Require Import Node.
From S2P Require Import Peers.
From S2P Require Import Registry.
From S2P Require Import RegistrySpec.
From S2P Require Import MemoryStorage.
From S2P Require Import NodePool.

(** ** Calls *)

Lemma run_resolve i mux resp ca :
  ca_muxes ca !! i = Some mux ->
  run (resolve_pending i resp) ca =
  match mx_pending mux !! bsr_req_id resp with
  | Some c =>
      Some (MkCalls (<[i := MkMultiplexer (mx_peer_id mux) (mx_req_id_counter mux)
                               (delete (bsr_req_id resp) (mx_pending mux))]> (ca_muxes ca))
              (set_channel c (Delivered resp) (ca_channels ca)), true)
  | None => Some (ca, false)
  end.
Proof.
  intros Hi. cbn. rewrite Hi. destruct (mx_pending mux !! bsr_req_id resp); [done|].
  rewrite list_insert_id by done. by destruct ca.
Qed.

(** The receivers of [P] get [o], and the others what they had. *)
Definition settles (P : nat -> Prop) (o : oneshot) (ca ca' : calls) : Prop :=
  forall c r w, ca_channels ca !! c = Some (r, w) ->
    (P c -> ca_channels ca' !! c = Some (r, o)) /\ (~ P c -> ca_channels ca' !! c = Some (r, w)).

Lemma settles_one c o ca muxes :
  settles (eq c) o ca (MkCalls muxes (set_channel c o (ca_channels ca))).
Proof.
  intros d r w Hd. cbn [ca_channels]. rewrite set_channel_lookup. case_decide; rewrite Hd; naive_solver.
Qed.

Lemma settles_trans (P Q R : nat -> Prop) o ca ca' ca'' :
  o <> Waiting -> calls_grow ca ca' -> calls_grow ca' ca'' -> (forall c, R c <-> P c \/ Q c) ->
  settles P o ca ca' -> settles Q o ca' ca'' -> settles R o ca ca''.
Proof.
  intros Ho Hg0 Hg HR HP HQ c r w Hc. destruct (HP c r w Hc) as [Hin Hout]. rewrite HR. split.
  - intros [Hp|Hq].
    + destruct (cg_channels _ _ Hg _ _ _ (Hin Hp)) as (o' & Ho' & He). by rewrite <- (He Ho).
    + destruct (cg_channels _ _ Hg0 _ _ _ Hc) as (o' & Ho' & _). by apply (HQ c r o').
  - intros Hno. apply (HQ c r w); [apply Hout|]; tauto.
Qed.

(** [cancel_all_pending], alone. *)
Lemma run_cancel_all i mux ca :
  calls_ok ca -> ca_muxes ca !! i = Some mux ->
  exists ca', run (cancel_all_pending i) ca = Some (ca', tt) /\ calls_ok ca' /\ calls_grow ca ca' /\
    settles (fun c => exists r, pends ca i r c) Dropped ca ca' /\
    forall j r c, pends ca' j r c <-> j <> i /\ pends ca j r c.
Proof.
  intros Hok Hi. destruct (wp_run calls_ok calls_grow _ _ _ Hok (cancel_all_spec i ca ltac:(by eexists)))
    as (ca' & [] & Hrun & Hok' & Hg & _). exists ca'. split_and!; [done..| |].
  all: cbn in Hrun; rewrite Hi in Hrun; injection Hrun as <-.
  - intros c r w Hc. cbn [ca_channels].
    destruct (drop_all_lookup (mx_pending mux) (ca_channels ca) c) as (_ & Hin & Hout). split.
    + intros (r' & mx & Hmx & Hr'). simplify_eq. rewrite Hin by (by eexists). by rewrite Hc.
    + intros Hno. rewrite Hout; [done|]. intros r' Hr'. destruct Hno. by exists r', mux.
  - intros j r c. unfold pends. cbn [ca_muxes]. split.
    + intros (mx & Hj & Hr). destruct (decide (j = i)) as [-> |Hne].
      * rewrite list_lookup_insert_eq in Hj by (by eapply lookup_lt_Some). by simplify_eq.
      * rewrite list_lookup_insert_ne in Hj by done. split; [done|by exists mx].
    + intros (Hne & mx & Hj & Hr). exists mx. by rewrite list_lookup_insert_ne.
Qed.

Section teardown.
Context `{HashIter}.
Context {Sto Pol Net Conn SendErr : Type} `{!EqDecision Conn}.
Context `{!Connection Net Conn SendErr} `{!Sent Net Conn} `{!ConnectionLaws Net Conn SendErr}.
Notation node := (Node Sto Pol Net Conn).
Implicit Types (s t : node) (conn : Authenticated Conn) (peer : PeerId).

Notation calls_of s := (lk_calls (nd_links s)).

(** The calls are in order, and the multiplexers of the peers exist. *)
Definition links_ok s : Prop :=
  calls_ok (calls_of s) /\
  forall peer muxes i, lk_multiplexers (nd_links s) !! peer = Some muxes -> i ∈ muxes ->
    is_Some (ca_muxes (calls_of s) !! i).

(** The multiplexers of a peer, and the calls that wait on one of a list of them. *)
Definition muxes_of s peer : list nat := default [] (lk_multiplexers (nd_links s) !! peer).
Definition waits_on (muxes : list nat) (ca : calls) (c : nat) : Prop :=
  exists i r, i ∈ muxes /\ pends ca i r c.

Lemma muxes_of_exist s peer i : links_ok s -> i ∈ muxes_of s peer -> is_Some (ca_muxes (calls_of s) !! i).
Proof.
  intros [_ Hm]. unfold muxes_of. destruct (lk_multiplexers (nd_links s) !! peer) as [l|] eqn:Hl; [by eapply Hm|].
  by intros Hi%not_elem_of_nil.
Qed.

Lemma run_on_calls {R} (op : task calls R) s :
  run (on_calls op) s =
  match run op (calls_of s) with
  | Some (ca, r) => Some (set_links (set_calls ca (nd_links s)) s, r)
  | None => None
  end.
Proof.
  apply (run_zoom (fun s : node => calls_of s) (fun ca s => set_links (set_calls ca (nd_links s)) s));
    [done|done|]. by intros [? ? ? ? ? ? ? ? ? ? []].
Qed.

Lemma set_calls_same s : set_links (set_calls (calls_of s) (nd_links s)) s = s.
Proof. by destruct s as [? ? ? ? ? ? ? ? ? ? []]. Qed.

Lemma run_cancel_detached muxes s :
  calls_ok (calls_of s) -> (forall i, i ∈ muxes -> is_Some (ca_muxes (calls_of s) !! i)) ->
  exists ca, run (cancel_detached_muxes muxes) s = Some (set_links (set_calls ca (nd_links s)) s, tt) /\
    calls_ok ca /\ calls_grow (calls_of s) ca /\ settles (waits_on muxes (calls_of s)) Dropped (calls_of s) ca /\
    forall j r c, pends ca j r c <-> j ∉ muxes /\ pends (calls_of s) j r c.
Proof.
  revert s. induction muxes as [|i muxes IH]; intros s Hok Hm.
  { exists (calls_of s). rewrite set_calls_same. split_and!; [done..| |].
    - intros c r w Hc. split; [|done]. intros (i & ? & Hi%not_elem_of_nil & _). done.
    - intros j r c. split; [|by intros []]. intros Hj. split; [apply not_elem_of_nil|done]. }
  destruct (Hm i ltac:(by left)) as [mux Hi].
  destruct (run_cancel_all i mux (calls_of s) Hok Hi) as (ca1 & Hrun1 & Hok1 & Hg1 & Hs1 & Hp1).
  destruct (IH (set_links (set_calls ca1 (nd_links s)) s)) as (ca & Hrun & Hok2 & Hg2 & Hs2 & Hp2); [done| |].
  { intros j Hj. destruct (Hm j ltac:(by right)) as [mx Hmx].
    destruct (cg_muxes _ _ Hg1 _ _ Hmx) as (mx' & Hmx' & _). by exists mx'. }
  exists ca. unfold cancel_detached_muxes in *. cbn [tfor]. rewrite run_bind, run_on_calls, Hrun1, Hrun.
  split_and!; [done|done|by etrans| |].
  - eapply (settles_trans _ _ _ Dropped _ ca1); [done..| |exact Hs1|exact Hs2].
    intros c. unfold waits_on. cbn [nd_links set_links set_calls lk_calls]. setoid_rewrite elem_of_cons.
    setoid_rewrite Hp1. split; [|naive_solver]. intros (j & r & Hj & Hr).
    destruct (decide (j = i)) as [-> |Hne]; [left; by exists r|right; exists j, r; naive_solver].
  - intros j r c. rewrite Hp2, not_elem_of_cons. cbn [nd_links set_links set_calls lk_calls].
    rewrite Hp1. tauto.
Qed.

Lemma run_disconnect conn s :
  exists net r, run (on_net (disconnect (au_inner conn))) s = Some (set_net net s, r).
Proof.
  destruct (wp_run (net_only (fun _ => True)) net_grows _ _ (nd_net s) (Forall_true _ _ (fun _ => I))
    (disconnect_law (fun _ => True) (au_inner conn) (nd_net s) (Forall_true _ _ (fun _ => I))))
    as (net & r & Hrun & _). exists net, r.
  etrans; [apply (run_zoom nd_net set_net); [done|done|by intros []]|]. by rewrite Hrun.
Qed.

Lemma run_disconnect_each conns s :
  exists net r, run (disconnect_each conns) s = Some (set_net net s, r).
Proof.
  revert s. induction conns as [|conn conns IH]; intros s.
  { exists (nd_net s), (Ok tt). by destruct s. }
  unfold disconnect_each in *. cbn [tfold]. rewrite run_bind_ok.
  destruct (run_disconnect conn s) as (net & [[]|e] & ->); [|by eexists _, _].
  destruct (IH (set_net net s)) as (net' & r & ->). by exists net', r.
Qed.

(** Who is subscribed to a tree. *)
Definition subscribed s id : gset PeerId := default ∅ (nd_subscriptions s !! id).

Lemma run_remove_peer peer s :
  exists subs, run (remove_peer_from_subscriptions peer) s = Some (set_subscriptions subs s, tt) /\
    forall id, default ∅ (subs !! id) = subscribed s id ∖ {[peer]} /\ subs !! id <> Some ∅.
Proof.
  eexists. split; [done|]. intros id. unfold subscribed. split.
  - rewrite map_lookup_filter, lookup_fmap. destruct (nd_subscriptions s !! id) as [peers|]; simpl; [|set_solver].
    case_guard; simpl; [done|]. set_solver.
  - intros [_ Hne]%map_lookup_filter_Some. by apply Hne.
Qed.

(** What is left after a peer whose multiplexers were [muxes] is gone. *)
Record peer_gone s peer (muxes : list nat) t : Prop := {
  pg_connections : nd_connections t = delete peer (nd_connections s);
  pg_multiplexers : lk_multiplexers (nd_links t) = delete peer (lk_multiplexers (nd_links s));
  pg_outgoing : nd_outgoing t = delete peer (nd_outgoing s);
  pg_subscriptions id : subscribed t id = subscribed s id ∖ {[peer]} /\ nd_subscriptions t !! id <> Some ∅;
  pg_dropped : settles (waits_on muxes (calls_of s)) Dropped (calls_of s) (calls_of t);
  pg_pending i r c : pends (calls_of t) i r c <-> i ∉ muxes /\ pends (calls_of s) i r c;
  pg_calls : calls_ok (calls_of t);
  pg_kept : nd_send_counter t = nd_send_counter s /\ nd_recv_counter t = nd_recv_counter s /\
    nd_storage t = nd_storage s /\ nd_cache t = nd_cache s
}.

(** A peer without connections and multiplexers. *)
Definition forget_peer peer s : node :=
  set_links (set_multiplexers (delete peer (lk_multiplexers (nd_links s))) (nd_links s))
    (set_connections (delete peer (nd_connections s)) s).

Lemma run_teardown peer s :
  links_ok s ->
  exists t, run (teardown_peer peer (muxes_of s peer)) (forget_peer peer s) = Some (t, tt) /\
    forall net, peer_gone s peer (muxes_of s peer) (set_net net t).
Proof.
  intros Hok. unfold teardown_peer. rewrite run_bind.
  destruct (run_cancel_detached (muxes_of s peer) (forget_peer peer s)) as (ca & -> & Hca & Hg & Hs & Hp).
  { apply Hok. }
  { intros i Hi. exact (muxes_of_exist s peer i Hok Hi). }
  rewrite run_bind. destruct (run_remove_peer peer (set_links (set_calls ca (nd_links (forget_peer peer s)))
    (forget_peer peer s))) as (subs & -> & Hsubs).
  eexists. split; [done|]. intros net. split; try done; cbn; apply Hsubs.
Qed.

(** C19: disconnecting a peer ends, whatever its connections answer, and leaves nothing of it
    but its counters: no connection, no multiplexer, no claim of a subscription in either
    direction. Every call that waited on one of its multiplexers is told that there will be
    no response, every other call is as it was, and the trees are not touched. *)
Theorem disconnect_from_peer_cleans peer conns s :
  links_ok s -> nd_connections s !! peer = Some conns ->
  exists t r, run (disconnect_from_peer peer) s = Some (t, r) /\ peer_gone s peer (muxes_of s peer) t.
Proof.
  intros Hok Hc. unfold disconnect_from_peer. rewrite run_bind. cbn [run act]. rewrite Hc.
  rewrite run_bind. destruct (run_teardown peer s Hok) as (t & Hrun & Hgone).
  unfold forget_peer, muxes_of in Hrun. rewrite Hrun, run_bind_ok.
  destruct (run_disconnect_each conns t) as (net & r & Hr). rewrite Hr.
  destruct r as [[]|e]; eexists _, _; (split; [done|apply Hgone]).
Qed.

(** C20: the closure of a connection that the listener is told of: while the peer has other
    connections only this one goes, and its calls go on waiting, since the multiplexers stay;
    with the last one all of the peer goes as in [disconnect_from_peer]; and a connection
    that is not registered changes nothing. *)
Theorem remove_connection_exact conn s :
  let conns := default [] (nd_connections s !! au_peer_id conn) in
  links_ok s ->
  exists t r, run (remove_connection conn) s = Some (t, r) /\
    match r with
    | None => t = s /\ forall c, c ∈ conns -> same_transport c conn = false
    | Some false => exists c conns', same_transport c conn = true /\ conns ≡ₚ c :: conns' /\ conns' <> [] /\
        t = set_connections (<[au_peer_id conn := conns']> (nd_connections s)) s
    | Some true => exists c, same_transport c conn = true /\ conns = [c] /\
        peer_gone s (au_peer_id conn) (muxes_of s (au_peer_id conn)) t
    end.
Proof.
  intros conns Hok. unfold remove_connection. rewrite run_bind. cbn [run act]. unfold take_connection.
  pose proof (remove_item_spec same_transport conn conns) as Hri. subst conns.
  destruct (nd_connections s !! au_peer_id conn) as [conns|]; cbn [default from_option id] in *.
  2:{ exists s, None. split_and!; [done..|]. by intros c ?%not_elem_of_nil. }
  destruct (remove_item same_transport conn conns) as [l|l|x].
  - exists s, None. by split; [|split; [|apply Hri]].
  - eexists _, (Some false). split; [done|]. destruct Hri as (c & Hc & Hperm & Hne). by exists c, l.
  - rewrite run_bind. destruct (run_teardown (au_peer_id conn) s Hok) as (t & Hrun & Hgone).
    unfold forget_peer, muxes_of in Hrun. rewrite Hrun. exists t, (Some true). split; [done|].
    destruct Hri as [-> Hx]. exists x. split_and!; [done..|]. specialize (Hgone (nd_net t)). by destruct t.
Qed.

(** *** Responses *)

Lemma run_offer resp muxes s :
  calls_ok (calls_of s) -> (forall i, i ∈ muxes -> is_Some (ca_muxes (calls_of s) !! i)) ->
  exists t b, run (offer_response resp muxes) s = Some (t, b) /\
    if (b : bool) then
      exists i c, i ∈ muxes /\ pends (calls_of s) i (bsr_req_id resp) c /\ calls_ok (calls_of t) /\
        settles (eq c) (Delivered resp) (calls_of s) (calls_of t) /\
        t = set_links (set_calls (calls_of t) (nd_links s)) s
    else t = s /\ forall i c, i ∈ muxes -> ~ pends (calls_of s) i (bsr_req_id resp) c.
Proof.
  intros Hok Hm. induction muxes as [|i muxes IH].
  { exists s, false. split_and!; [done..|]. by intros i c ?%not_elem_of_nil. }
  destruct (Hm i ltac:(by left)) as [mux Hi]. cbn [offer_response]. rewrite run_bind, run_on_calls.
  rewrite (run_resolve i mux resp _ Hi).
  destruct (mx_pending mux !! bsr_req_id resp) as [c|] eqn:Hc.
  - eexists _, true. split; [done|]. exists i, c. split_and!; [by left|by exists mux| |apply settles_one|done].
    apply settle_one; [done..|]. by intros ? [= <-].
  - rewrite set_calls_same. destruct IH as (t & b & Hrun & Ht); [intros j Hj; apply Hm; by right|].
    exists t, b. split; [done|]. destruct b.
    + destruct Ht as (j & c & Hj & Ht). exists j, c. split; [by right|done].
    + destruct Ht as [-> Hno]. split; [done|]. intros j c [-> |Hj]%elem_of_cons; [|by apply Hno].
      intros (mx & Hmx & Hr). congruence.
Qed.

(** C18: a response goes to one call, or to none. If a call of its request waits on one of the
    multiplexers of the peer that the connection has proved, exactly one such call gets it,
    and nothing else of the node changes; otherwise it is reported as unclaimed, which makes
    the listener drop it, and nothing changes at all. So a call that waits on none of this
    peer's multiplexers is never answered by it. *)
Theorem route_response_exact conn resp s :
  links_ok s ->
  exists t b, run (route_response conn resp) s = Some (t, b) /\
    (forall c r w, ca_channels (calls_of s) !! c = Some (r, w) ->
       ~ waits_on (muxes_of s (au_peer_id conn)) (calls_of s) c -> ca_channels (calls_of t) !! c = Some (r, w)) /\
    if (b : bool) then
      exists i c, i ∈ muxes_of s (au_peer_id conn) /\ pends (calls_of s) i (bsr_req_id resp) c /\
        calls_ok (calls_of t) /\ settles (eq c) (Delivered resp) (calls_of s) (calls_of t) /\
        t = set_links (set_calls (calls_of t) (nd_links s)) s
    else t = s /\ forall i c, i ∈ muxes_of s (au_peer_id conn) -> ~ pends (calls_of s) i (bsr_req_id resp) c.
Proof.
  intros Hok. unfold route_response. rewrite run_bind. cbn [run act reads_state].
  destruct (run_offer resp (muxes_of s (au_peer_id conn)) s) as (t & b & Hrun & Hb); [apply Hok| |].
  { intros i Hi. by apply (muxes_of_exist s (au_peer_id conn)). }
  exists t, b. split; [done|]. split; [|done]. intros c r w Hc Hno. destruct b; [|by destruct Hb as [-> _]].
  destruct Hb as (i & c' & Hi & Hp & _ & Hs & _). apply (Hs c r w Hc). intros <-. apply Hno. by exists i, (bsr_req_id resp).
Qed.
End teardown.

(** ** Examples *)

#[local] Existing Instances recorder_connection recorder_sent recorder_laws.

(** A peer with one connection, on which a call waits. *)
Definition toy_call : RequestId := MkRequestId toy_peer 7.
Definition toy_calling : toy_node :=
  set_links (MkLinks (MkCalls [MkMultiplexer toy_peer 8 {[toy_call := 0%nat]}] [(toy_call, Waiting)])
      {[toy_peer := [0%nat]]} [CmdAdd toy_conn toy_peer] true [])
    (set_connections {[toy_peer := [toy_conn]]} toy_start).

Lemma toy_pends i r c :
  pends (lk_calls (nd_links toy_calling)) i r c <-> i = 0%nat /\ r = toy_call /\ c = 0%nat.
Proof.
  unfold pends. cbn [toy_calling nd_links set_links lk_calls ca_muxes]. split.
  - intros (mux & Hi & Hr). apply list_lookup_singleton_Some in Hi as [-> <-].
    cbn [mx_pending] in Hr. by apply lookup_singleton_Some in Hr as [<- <-].
  - intros (-> & -> & ->). eexists. split; [done|]. apply lookup_singleton_eq.
Qed.

Lemma toy_links : links_ok toy_calling.
Proof.
  split; [split|].
  - intros c r [-> [= <-]]%list_lookup_singleton_Some. exists 0%nat. by apply toy_pends.
  - by intros i r c (-> & -> & ->)%toy_pends.
  - by intros i j r c (-> & _)%toy_pends (-> & _)%toy_pends.
  - by intros c r resp [-> [=]]%list_lookup_singleton_Some.
  - intros peer muxes i Hm. cbn in Hm. apply lookup_singleton_Some in Hm as [_ <-].
    intros ->%list_elem_of_singleton. by eexists.
Qed.

Lemma disconnect_from_peer_cleans_witness :
  exists t r, run (disconnect_from_peer (SendErr:=unit) toy_peer) toy_calling = Some (t, r) /\
    peer_gone toy_calling toy_peer [0%nat] t.
Proof.
  apply (disconnect_from_peer_cleans toy_peer [toy_conn] toy_calling toy_links). vm_compute. reflexivity.
Defined.

Lemma remove_connection_exact_witness :
  exists t, run (remove_connection toy_conn) toy_calling = Some (t, Some true) /\
    peer_gone toy_calling toy_peer [0%nat] t.
Proof.
  destruct (remove_connection_exact toy_conn toy_calling toy_links) as (t & r & Hrun & Hr).
  assert (Hend : snd <$> run (remove_connection toy_conn) toy_calling = Some (Some true)) by (by vm_compute).
  rewrite Hrun in Hend. injection Hend as ->. destruct Hr as (c & _ & _ & Hgone). by exists t.
Defined.

Definition toy_answer : BatchSyncResponse :=
  MkBatchSyncResponse toy_call sample_id SR_NotFound (MkRemoteHeads 1 []).

Lemma route_response_exact_witness :
  exists t, run (route_response toy_conn toy_answer) toy_calling = Some (t, true) /\
    settles (eq 0%nat) (Delivered toy_answer) (lk_calls (nd_links toy_calling)) (lk_calls (nd_links t)).
Proof.
  destruct (route_response_exact toy_conn toy_answer toy_calling toy_links) as (t & b & Hrun & _ & Hb).
  assert (Hend : snd <$> run (route_response toy_conn toy_answer) toy_calling = Some true) by (by vm_compute).
  rewrite Hrun in Hend. injection Hend as ->. destruct Hb as (i & c & _ & Hc & _ & Hs & _).
  apply toy_pends in Hc as (_ & _ & ->). by exists t.
Defined.
