(* ===== verification/TwoNodes.v ===== *)
(** A sync round between two nodes, each of them at work: what the one answers, the other
    has afterwards. *)

From Stdlib Require Import Strings.Byte NArith Lia.
From stdpp Require Import base gmap sorting list relations.
From S2P Require Import Prelude.
From S2P Require Import Codec.
From S2P Require Import Types.
From S2P Require Import LooseCommit.
From S2P Require Import Fragment.
From S2P Require Import Traversal.
From S2P Require Import Sedimentree.
From S2P Require Import Minimize.
From S2P Require Import Minimized.
From S2P Require Import Fingerprints.
From S2P Require Import Signed.
From S2P Require Import Message.
From S2P Require Import Authenticated.
From S2P Require Import Tasks.
From S2P Require Import ShardedMap.
From S2P Require Import BoundedShardedMap.
From S2P Require Import Storage.
From S2P Require Import MemoryStorage.
From S2P Require Import Multiplexer.
From S2P Require Import Node.
From S2P Require Import Ingest.
From S2P Require Import IngestSpec.
From S2P Require Import IngestPool.
From S2P Require Import Peers.
From S2P Require Import SyncHandler.
From S2P Require Import ResponderSpec.
From S2P Require Import SyncHandlerSpec.
From S2P Require Import Registry.
From S2P Require Import RegistrySpec.
From S2P Require Import Engine.
From S2P Require Import EngineSpec.
From S2P Require Import SyncSpec.
From S2P Require Import Listener.
From S2P Require Import NodePool.

Section two_nodes.
Context `{HashIter, SipHash24Range, Ed25519, Blake3, Bijou64}.
Context {Sto E Pol D Df Dp Net Conn SendErr : Type} `{!Storage Sto E} `{!StorageLaws Sto E}.
Context `{!EqDecision Conn} `{!ConnectionPolicy Pol D}.
Context `{!StoragePolicy Pol Df Dp} `{!Connection Net Conn SendErr}.
Context `{!Sent Net Conn} `{!ConnectionLaws Net Conn SendErr}.
Context (m : DepthMetric).
Notation node := (Node Sto Pol Net Conn).
Implicit Types (s t : node) (id : SedimentreeId).

(** The items of [id] that are stored can be verified. *)
Definition verifiable t id : Prop :=
  (forall v, st_commit (nd_storage t) id v -> checked v) /\
  (forall v, st_fragment (nd_storage t) id v -> checked v).

(** The answer [diff] was computed from [b], with items that were read between [s] and [t]. *)
Definition answered_from s t (req : BatchSyncRequest) (diff : SyncDiff) (b : Sedimentree) : Prop :=
  tree_read m s t (bsq_id req) b /\ exists rd, ResponderDiff_new b (bsq_fingerprint_summary req) = Some rd /\
    item_answer st_commit (nd_storage s) (nd_storage t) (bsq_id req) (rs_local_commit_ids rd)
      (sd_missing_commits diff) /\
    item_answer st_fragment (nd_storage s) (nd_storage t) (bsq_id req) (rs_local_fragment_ids rd)
      (sd_missing_fragments diff).

Lemma answers_from s t conn req resp diff :
  answers (Pol:=Pol) (Df:=Df) (Dp:=Dp) m s t conn req resp -> bsr_result resp = SR_Ok diff ->
  exists b, answered_from s t req diff b.
Proof.
  intros (_ & _ & Hres) Hd. rewrite Hd in Hres. destruct Hres as (rd & _ & _ & (b & Hb & Hrd) & Hc & Hf).
  exists b. split; [done|]. by exists rd.
Qed.

(** The identities of an answer are those that the requestor's tree lacks. *)
Lemma answer_ids req (a b : Sedimentree) seed rd :
  ResponderDiff_new b (bsq_fingerprint_summary req) = Some rd ->
  bsq_fingerprint_summary req = fr_summary_of (fingerprint_resolver a seed) -> keyed a -> keyed b ->
  fingerprints_distinct seed a b ->
  (forall i, i ∈ rs_local_fragment_ids rd <-> is_Some (st_fragments b !! i) /\ st_fragments a !! i = None) /\
  (forall i, i ∈ rs_local_commit_ids rd <-> is_Some (st_commits b !! i) /\ ~ known a i /\
     ~ remote_covers b (fingerprint_summarize a seed) i).
Proof.
  intros Hrd Hfp Ha Hb Hd. destruct (sync_round_entries a b seed Ha Hb Hd) as (d & Hdiff & Hf & _ & Hc & _).
  unfold ResponderDiff_new in Hrd. rewrite Hfp, Hdiff in Hrd. cbn in Hrd. simplify_eq. cbn. split; intros i.
  - rewrite list_elem_of_fmap. split.
    + intros ([k f] & -> & [Hk Hn]%Hf). by split; [eexists|].
    + intros [[f Hk] Hn]. exists (i, f). split; [done|]. by apply Hf.
  - rewrite list_elem_of_fmap. split.
    + intros ([k c] & -> & (Hk & Hn & Hr)%Hc). by split_and!; [eexists|..].
    + intros ([c Hk] & Hn & Hr). exists (i, c). split; [done|]. by apply Hc.
Qed.

(** An item with each identity of the answer that was stored. *)
Lemma item_answer_sent {T} `{!Schema T, !EncodeFields T, !DecodeFields T, !Item T}
    (stored : Sto -> SedimentreeId -> VerifiedMeta T -> Prop) x0 x id ids l v :
  item_answer stored x0 x id ids l -> stored x0 id v -> item_head (vm_payload v) ∈ ids ->
  exists w, stored x id w /\ item_head (vm_payload w) = item_head (vm_payload v) /\ to_wire w ∈ l.
Proof.
  intros (vs & -> & _ & Hin & Hall) Hv Hi. apply Hall in Hi; [|done].
  apply list_elem_of_fmap in Hi as (w & Hh & Hw). destruct (Hin w Hw) as (_ & Hst & _).
  exists w. split_and!; [done..|]. by apply list_elem_of_fmap_2.
Qed.

Context (shards : nat) (Hshards : (0 < shards)%nat) (Hmax : N.of_nat shards <= u64_max).
Context (seed : PeerId -> N) (signer : Signer).
Context (own_c : SedimentreeId -> VerifiedMeta LooseCommit -> Prop).
Context (own_f : SedimentreeId -> VerifiedMeta Fragment -> Prop).
Context (put_approved : PeerId -> PeerId -> SedimentreeId -> Prop).
Context (fetch_approved : PeerId -> SedimentreeId -> Prop).
Context (proved : Conn -> PeerId -> Prop).
Notation done_by := (performed (Sto:=Sto) (E:=E) (Pol:=Pol) (D:=D) (Net:=Net) (Conn:=Conn) (SendErr:=SendErr)
  shards m seed signer own_c own_f proved).

(** C5: A sync round between two nodes, both at work. Node A has synced [id] with [peer]
    while it ran from [s] to [t]; what was delivered for a request to this peer is the
    answer of node B's handler, which read between [s'] and [t']; what B stores verifies,
    and A's policy lets the peer put it. Then a request was given to a connection of the
    peer with the summary, under some seed, of a tree [a] of A, and the response to it that
    was delivered was computed from a tree [b] of B. If no two identities that [a] and [b]
    know share a fingerprint under that seed, A has at [t] an item for each fragment of [b]
    that [a] lacked, and for each commit of [b] that [a] neither knew nor covered with its
    fragments, if B stored it at [s']. The item is stored; it is in A's tree too if A's
    cache has no capacity, that is, if it evicts nothing. *)
Theorem sync_transfers s ts t ts' s' t' chances peer id subscribe stats :
  policies_ok put_approved fetch_approved ->
  node_inv shards m (authentic put_approved own_c) (authentic put_approved own_f)
    (peers_ok m own_c own_f put_approved fetch_approved proved) s ->
  (forall x, x ∈ ts -> done_by x) -> rtc (pool_step done_by) (s, ts) (t, ts') ->
  Ret (SyncPeer chances peer id subscribe, Round stats) ∈ ts' ->
  (forall conn req resp, au_peer_id conn = peer -> answered t conn req resp ->
     exists conn', answers (Pol:=Pol) (Df:=Df) (Dp:=Dp) m s' t' conn' req resp) ->
  verifiable t' id -> (forall author, grants (Pol:=Pol) peer author id) ->
  exists conn req resp diff a b fp_seed,
    au_peer_id conn = peer /\ bsq_id req = id /\ answered t conn req resp /\ bsr_result resp = SR_Ok diff /\
    own_tree m s t id a /\ bsq_fingerprint_summary req = fr_summary_of (fingerprint_resolver a fp_seed) /\
    answered_from s' t' req diff b /\
    (fingerprints_distinct fp_seed a b ->
     (forall v, st_fragment (nd_storage s') id v ->
        is_Some (st_fragments b !! fr_head (vm_payload v)) -> st_fragments a !! fr_head (vm_payload v) = None ->
        exists w, fr_head (vm_payload w) = fr_head (vm_payload v) /\ fragment_inserted m t id (vm_payload w)) /\
     (forall v, st_commit (nd_storage s') id v ->
        is_Some (st_commits b !! lc_head (vm_payload v)) -> ~ known a (lc_head (vm_payload v)) ->
        ~ remote_covers b (fingerprint_summarize a fp_seed) (lc_head (vm_payload v)) ->
        exists w, lc_head (vm_payload w) = lc_head (vm_payload v) /\ commit_inserted m t id (vm_payload w))).
Proof.
  intros Hpol Hs Hts Hrtc Ha Hlink [Hvc Hvf] Hgr.
  destruct (pool_of_activities shards m seed signer own_c own_f put_approved fetch_approved proved Hshards Hmax
    s ts t ts' Hpol Hs Hts Hrtc) as (_ & _ & _ & Hret).
  destruct (Hret _ Ha) as (conn & req & resp & diff & a & fp_seed & Hp & <- & Hown & Hfp & Hans & Hres
    & (ing & Hing) & _).
  destruct (Hlink conn req resp Hp Hans) as [conn' Hanswers].
  destruct (answers_from _ _ _ _ _ _ Hanswers Hres) as [b Hb].
  exists conn, req, resp, diff, a, b, fp_seed. split_and!; [done..|]. intros Hd.
  destruct Hb as [Hb (rd & Hrd & Hc & Hf)].
  destruct (answer_ids req a b fp_seed rd Hrd Hfp (minimal_keyed m a (proj1 Hown)) (minimal_keyed m b (proj1 Hb)) Hd)
    as [Hif Hic]. split.
  - intros v Hv Hbv Hav. destruct (item_answer_sent _ _ _ _ _ _ v Hf Hv) as (w & Hst & Hh & Hin); [by apply Hif|].
    exists w. split; [done|]. eapply (ri_fragments _ _ _ _ _ _ _ Hing w); [exact Hin|by split; [apply Hvf|]|apply Hgr].
  - intros v Hv Hbv Hav Hcov. destruct (item_answer_sent _ _ _ _ _ _ v Hc Hv) as (w & Hst & Hh & Hin); [by apply Hic|].
    exists w. split; [done|]. eapply (ri_commits _ _ _ _ _ _ _ Hing w); [exact Hin|by split; [apply Hvc|]|apply Hgr].
Qed.
End two_nodes.

(** ** Example *)

#[local] Existing Instance Sharded.siphash_sum.
#[local] Existing Instance Sharded.siphash_sum_range.
#[local] Existing Instance hash_iter_by_encoding.
#[local] Existing Instance ed25519_checksum.
#[local] Existing Instance bijou_fixed8.
#[local] Existing Instance blake3_head.
#[local] Existing Instance recorder_connection.
#[local] Existing Instance recorder_sent.
#[local] Existing Instance recorder_laws.

(** Node B writes a commit, and then answers the request of node A. *)
Definition peer_a : PeerId := verifying_key (toy_signer x01).
Definition conn_a : Authenticated PeerId := from_handshake peer_a peer_a Accepted.
Definition own_b (id : SedimentreeId) (v : VerifiedMeta LooseCommit) : Prop :=
  id = sample_id /\ v = sample_meta x03 ∅.
Definition tree_a : Sedimentree := Sedimentree_new [] [vm_payload (sample_meta x02 ∅)].
Definition request_a : BatchSyncRequest :=
  MkBatchSyncRequest sample_id (MkRequestId toy_peer 7)
    (fr_summary_of (fingerprint_resolver tree_a toy_seed)) false.

Definition write_b : list toy_activity :=
  [AddConnection 5 conn_a; WriteCommit false sample_id (array_pad 32 [x03]) ∅ [x03; x05]].
Definition answer_b : list toy_activity := [Dispatch true conn_a (SM_BatchSyncRequest request_a)].
Definition written_b :=
  default (toy_start, [])
    (schedule (replicate 2 0%nat ++ replicate 14 1%nat) (toy_start, toy_task <$> write_b)).
Definition answered_b :=
  default (toy_start, []) (schedule (replicate 6 0%nat) (written_b.1, toy_task <$> answer_b)).
Definition response_b : BatchSyncResponse :=
  match nd_net answered_b.1 with
  | [(_, SM_BatchSyncResponse resp)] => resp
  | _ => toy_response
  end.

(** Node A writes a commit and syncs with B. *)
Definition activities_a : list toy_activity :=
  [AddConnection 7 toy_conn;
   WriteCommit false sample_id toy_head ∅ [x02; x05];
   SyncPeer (fun _ => toy_chance) toy_peer sample_id false;
   Listen (EventMessage toy_conn (SM_BatchSyncResponse response_b))].
Definition order_a : list nat :=
  replicate 2 0%nat ++ replicate 14 1%nat ++ replicate 7 2%nat ++ replicate 2 3%nat ++ replicate 20 2%nat.
Definition end_a :=
  default (toy_start, []) (schedule order_a (toy_start, toy_task <$> activities_a)).

Notation toy_inv own :=
  (node_inv 1 CountLeadingZeroBytes (authentic any_approved own) (authentic any_approved no_own)
     (peers_ok CountLeadingZeroBytes own no_own any_approved any_fetch named)).
Notation toy_pool own :=
  (performed (Sto:=MemoryStorage) (E:=DecodeError) (Pol:=unit) (D:=Empty_set) (Net:=recorder)
     (Conn:=PeerId) (SendErr:=unit) 1 CountLeadingZeroBytes (fun _ => 0) (toy_signer x01) own no_own named).

Lemma toy_inv_start own : toy_inv own toy_start.
Proof.
  destruct toy_start_inv as [Hc _ Ht Hr]. split; [done|apply Memory_new_only|done|].
  destruct Hr as [Hnet Hconns Hne Hsubs Hcalls Hmux Hlink Hsp]. split; [by constructor|done..|by constructor].
Qed.

Lemma response_inj {C} (c c' : C) r r' : (c, SM_BatchSyncResponse r) = (c', SM_BatchSyncResponse r') -> r = r'.
Proof. by intros [= _ ->]. Qed.

(** What node B has done, from the pool's lemma. *)
Lemma toy_pool_of own s acts t ts' :
  toy_inv own s -> Forall (permitted (SendErr:=unit) (E:=DecodeError) (toy_signer x01) own no_own named) acts ->
  rtc (pool_step (toy_pool own)) (s, toy_task <$> acts) (t, ts') ->
  toy_inv own t /\
  (forall r, Ret r ∈ ts' -> promise (Df:=Empty_set) (Dp:=Empty_set) CountLeadingZeroBytes (toy_signer x01) any_approved s t r).
Proof.
  intros Hs Hp Hr.
  assert (Hts : forall x, x ∈ toy_task <$> acts -> toy_pool own x).
  { intros x (a & -> & Ha)%list_elem_of_fmap. exists a. split; [|done]. by eapply Forall_forall in Hp. }
  destruct (pool_of_activities 1 CountLeadingZeroBytes (fun _ => 0) (toy_signer x01) own no_own any_approved
    any_fetch named ltac:(lia) ltac:(unfold u64_max; simpl; lia) s _ t ts' toy_policies Hs Hts Hr)
    as (Ht & _ & _ & Hret). by split.
Qed.

Lemma written_b_ok : toy_inv own_b written_b.1.
Proof.
  apply (toy_pool_of own_b toy_start write_b written_b.1 written_b.2).
  - apply toy_inv_start.
  - repeat constructor.
  - rewrite <- surjective_pairing. apply schedule_runs. vm_compute. reflexivity.
Qed.

Lemma answered_b_ok :
  toy_inv own_b answered_b.1 /\
  answers (Pol:=unit) (Df:=Empty_set) (Dp:=Empty_set) CountLeadingZeroBytes written_b.1 answered_b.1 conn_a
    request_a response_b.
Proof.
  destruct (toy_pool_of own_b written_b.1 answer_b answered_b.1 answered_b.2) as [Hinv Hret].
  - apply written_b_ok.
  - repeat constructor.
  - rewrite <- surjective_pairing. apply schedule_runs. vm_compute. reflexivity.
  - split; [done|]. destruct (Hret (Dispatch true conn_a (SM_BatchSyncRequest request_a), Finished true))
      as (resp & Hgiven & Hans).
    + apply list_elem_of_lookup. exists 0%nat. vm_compute. reflexivity.
    + assert (Hnet : nd_net answered_b.1 = [(peer_a, SM_BatchSyncResponse response_b)]) by (vm_compute; reflexivity).
      unfold net_sent, recorder_sent in Hgiven. rewrite Hnet in Hgiven.
      apply list_elem_of_singleton, response_inj in Hgiven as ->. exact Hans.
Qed.

Lemma verifiable_b : verifiable answered_b.1 sample_id.
Proof.
  destruct answered_b_ok as [[_ (_ & Hc & Hf) _ _] _]. split; intros v Hv.
  - destruct (Hc _ _ Hv) as [[_ ->]|[Hck _]]; [|done]. exists (vm_verified (sample_meta x03 ∅)).
    split; vm_compute; reflexivity.
  - by destruct (Hf _ _ Hv) as [[]|[Hck _]].
Qed.

(** What was delivered to node A is what node B answered. *)
Lemma answered_a conn req resp : answered end_a.1 conn req resp -> req = request_a /\ resp = response_b.
Proof.
  intros [Hgiven [_ [c Hc]]].
  assert (Hch : ca_channels (lk_calls (nd_links end_a.1)) = [(MkRequestId toy_peer 7, Delivered response_b)])
    by (vm_compute; reflexivity).
  rewrite Hch in Hc. apply list_lookup_singleton_Some in Hc as [_ ->%symmetry%delivered_inj]. split; [|reflexivity].
  assert (Hreq : Forall (fun x => match x.2 with SM_BatchSyncRequest r => r = request_a | _ => True end)
    (nd_net end_a.1)) by (vm_compute; repeat constructor).
  rewrite Forall_forall in Hreq. apply Hreq in Hgiven as ->. reflexivity.
Qed.

Lemma linked_ab conn req resp :
  au_peer_id conn = toy_peer -> answered end_a.1 conn req resp ->
  exists conn', answers (Pol:=unit) (Df:=Empty_set) (Dp:=Empty_set) CountLeadingZeroBytes written_b.1
    answered_b.1 conn' req resp.
Proof. intros _ [-> ->]%answered_a. exists conn_a. apply answered_b_ok. Qed.

Definition stats_a : SyncStats := MkSyncStats 1 0 1 0 (bsr_responder_heads response_b).

Lemma synced_a : Ret (SyncPeer (fun _ => toy_chance) toy_peer sample_id false, Round stats_a) ∈ end_a.2.
Proof. apply list_elem_of_lookup. exists 2%nat. vm_compute. reflexivity. Qed.

Lemma reached_a : rtc (pool_step (toy_pool toy_own)) (toy_start, toy_task <$> activities_a) (end_a.1, end_a.2).
Proof. rewrite <- surjective_pairing. apply schedule_runs. vm_compute. reflexivity. Qed.

Lemma activities_a_performed x : x ∈ toy_task <$> activities_a -> toy_pool toy_own x.
Proof.
  intros (a & -> & Ha)%list_elem_of_fmap. exists a. split; [|done].
  revert a Ha. apply Forall_forall. by repeat constructor.
Qed.

(** *** The trees of the round *)

Lemma heads_a : only_heads (nd_storage end_a.1) = true.
Proof. vm_compute. reflexivity. Qed.
Lemma heads_b : only_heads (nd_storage answered_b.1) = true.
Proof. vm_compute. reflexivity. Qed.

Lemma own_tree_known tr x :
  own_tree CountLeadingZeroBytes toy_start end_a.1 sample_id tr -> known tr x -> x ∈ head_ids.
Proof.
  intros [_ [(_ & Hb & _)|[-> _]]] Hk; [exact (proj1 (backed_known _ _ _ heads_a Hb Hk))|].
  destruct Hk as [(k & c & Hk & _)|(k & f & Hk & _)]; cbn in Hk; by rewrite lookup_empty in Hk.
Qed.

Lemma seed_a a fp_seed :
  bsq_fingerprint_summary request_a = fr_summary_of (fingerprint_resolver a fp_seed) -> fp_seed = toy_seed.
Proof. intros Hs. apply (f_equal fps_seed) in Hs. rewrite !resolver_summary in Hs. exact (eq_sym Hs). Qed.

Definition missing_of (resp : BatchSyncResponse) : list (Signed LooseCommit * Blob) :=
  match bsr_result resp with SR_Ok diff => sd_missing_commits diff | _ => [] end.

Lemma missing_b diff : bsr_result response_b = SR_Ok diff -> sd_missing_commits diff = [to_wire (sample_meta x03 ∅)].
Proof.
  intros Hd. assert (Hm : missing_of response_b = [to_wire (sample_meta x03 ∅)]) by (vm_compute; reflexivity).
  rewrite <-Hm. unfold missing_of. by rewrite Hd.
Qed.

(** The commit of node B is among the identities that its answer was made for. *)
Lemma answer_has_head x0 x id ids l :
  item_answer st_commit x0 x id ids l -> l = [to_wire (sample_meta x03 ∅)] -> array_pad 32 [x03] ∈ ids.
Proof.
  intros (vs & -> & _ & Hin & _) Hl. destruct vs as [|v vs]; [discriminate Hl|]. injection Hl as Hs _ _.
  destruct (Hin v ltac:(left)) as (Hok & _ & Hi). unfold meta_ok in Hok. rewrite Hs in Hok.
  assert (Hm : meta_ok (sample_meta x03 ∅)) by (vm_compute; reflexivity).
  unfold meta_ok in Hm. rewrite Hm in Hok. injection Hok as Hp. unfold item_head, LooseCommit_item in Hi.
  rewrite <-Hp in Hi. exact Hi.
Qed.

Lemma stored_b : st_commit (nd_storage written_b.1) sample_id (sample_meta x03 ∅).
Proof.
  assert (Hs : content (mem_commits (nd_storage written_b.1)) !! sample_id ≫=
    (fun es => es !! Digest_hash (vm_payload (sample_meta x03 ∅))) = Some (entry_of (sample_meta x03 ∅)))
    by (vm_compute; reflexivity).
  split; [vm_compute; reflexivity|]. apply bind_Some in Hs as (es & Hes & He).
  exists es, (Digest_hash (vm_payload (sample_meta x03 ∅))). exact (conj Hes He).
Qed.

Lemma sync_transfers_witness :
  unbounded end_a.1 /\
  exists w, lc_head (vm_payload w) = array_pad 32 [x03] /\
    commit_inserted CountLeadingZeroBytes end_a.1 sample_id (vm_payload w).
Proof.
  split; [vm_compute; reflexivity|].
  destruct (sync_transfers CountLeadingZeroBytes 1 ltac:(lia) ltac:(unfold u64_max; simpl; lia) (fun _ => 0)
    (toy_signer x01) toy_own no_own any_approved any_fetch named toy_start (toy_task <$> activities_a) end_a.1
    end_a.2 written_b.1 answered_b.1 (fun _ => toy_chance) toy_peer sample_id false stats_a toy_policies
    (toy_inv_start toy_own) activities_a_performed reached_a synced_a linked_ab verifiable_b
    ltac:(by intros author p))
    as (conn & req & resp & diff & a & b & fp_seed & _ & _ & Hans & Hres & Ha & Hfp & [Hb (rd & Hrd & Hc & _)] & Hitems).
  apply answered_a in Hans as [-> ->]. pose proof (seed_a a fp_seed Hfp) as Hseed. subst fp_seed.
  assert (Hd : fingerprints_distinct toy_seed a b).
  { assert (Hk : forall x, known a x \/ known b x -> x ∈ head_ids).
    { intros x [Hx|Hx]; [exact (own_tree_known a x Ha Hx)|exact (proj1 (backed_known _ _ _ heads_b (proj1 (proj2 Hb)) Hx))]. }
    intros x y Hx Hy. apply head_ids_distinct; by apply Hk. }
  destruct (proj1 (proj2 (answer_ids request_a a b toy_seed rd Hrd Hfp
    (minimal_keyed CountLeadingZeroBytes a (proj1 Ha)) (minimal_keyed CountLeadingZeroBytes b (proj1 Hb)) Hd)
    (array_pad 32 [x03])) (answer_has_head _ _ _ _ _ Hc (missing_b diff Hres))) as (Hin & Hka & Hcov).
  exact (proj2 (Hitems Hd) (sample_meta x03 ∅) stored_b Hin Hka Hcov).
Defined.
