(* ===== verification/EphemeralWire.v ===== *)
(** * Ephemeral messages on the wire

    [subduction_ephemeral/src/]: the signed payload of [message.rs] and the view of its
    header in [payload_header.rs], which is read before the signature is verified; and the
    messages of the protocol, signed payloads and unsigned lists of topics under one schema
    ([message.rs]). *)

From Stdlib Require Import Strings.Byte NArith Lia.
From stdpp Require Import base gmap sorting strings list.
From S2P Require Import Prelude.
From S2P Require Import Codec.
From S2P Require Import Types.
From S2P Require Import LooseCommit.
From S2P Require Import Signed.
From S2P Require Import Reader.
From S2P Require Import NonceCache.

Open Scope N_scope.

(** [topic.rs] *)
Notation Topic := (array 32) (only parsing).

Record EphemeralPayload : Type := MkEphemeralPayload {
  ep_id : Topic;
  ep_nonce : N;
  ep_timestamp : TimestampSeconds;
  ep_payload : list byte
}.

#[export] Instance EphemeralPayload_eq_dec : EqDecision EphemeralPayload.
Proof. solve_decision. Defined.

Record EphemeralPayloadHeader : Type := MkEphemeralPayloadHeader {
  eph_id : Topic;
  eph_nonce : N;
  eph_timestamp : TimestampSeconds;
  eph_payload_len : N
}.

(** ** The payload *)

Module EphemeralCodec.
Definition TAG : byte := x00.
Definition EPHEMERAL_PAYLOAD_MIN_FIELDS_SIZE : N := 32 + 8 + 8 + 1.
Definition EPHEMERAL_PAYLOAD_MIN_SIGNED_SIZE : N := 4 + 1 + 32 + EPHEMERAL_PAYLOAD_MIN_FIELDS_SIZE + 64.

#[global] Instance schema : Schema EphemeralPayload := {|
  PREFIX := SUBDUCTION_PREFIX;
  TYPE_BYTE := "E"%byte;
  VERSION := x00;
  DISCRIMINANT := Some TAG;
  type_name := "subduction_ephemeral::message::EphemeralPayload"
|}.

Section codec.
Context `{Bijou64}.

Definition encode_fields (self : EphemeralPayload) (buf : list byte) : list byte :=
  let buf := encode.array (ep_id self) buf in
  let buf := encode.u64 (ep_nonce self) buf in
  let buf := encode.u64 (ep_timestamp self) buf in
  let buf := encode.bytes (bijou_encode (len (ep_payload self))) buf in
  encode.bytes (ep_payload self) buf.

Definition fields_size (self : EphemeralPayload) : N :=
  32 + 8 + 8 + bijou_encoded_len (len (ep_payload self)) + len (ep_payload self).

(** [EphemeralPayloadHeader::try_decode_with_offset]; [usize] has 64 bits. *)
Definition try_decode_with_offset (buf : list byte) :
  result DecodeError (EphemeralPayloadHeader * N) :=
  let? _ := guard_err (len buf <? EPHEMERAL_PAYLOAD_MIN_FIELDS_SIZE)
              (E_MessageTooShort "EphemeralPayloadHeader" EPHEMERAL_PAYLOAD_MIN_FIELDS_SIZE
                 (len buf)) in
  let offset := 0 in
  let? id := buf_err (decode.array 32 buf offset) in
  let offset := offset + 32 in
  let? nonce := buf_err (decode.u64 buf offset) in
  let offset := offset + 8 in
  let? timestamp := buf_err (decode.u64 buf offset) in
  let offset := offset + 8 in
  let? remaining := ok_or (get_from buf offset)
                      (E_MessageTooShort "EphemeralPayloadHeader payload_len" (offset + 1)
                         (len buf)) in
  let? (payload_len_u64, consumed) := map_err (E_Bijou64 offset) (bijou_decode remaining) in
  let offset := offset + consumed in
  let? payload_len := ok_or (if payload_len_u64 <=? u64_max then Some payload_len_u64 else None)
                        (E_MessageTooShort "EphemeralPayloadHeader payload_len overflow" u64_max
                           (len buf)) in
  let needed := N.min u64_max (offset + payload_len) in
  let? _ := guard_err (len buf <? needed)
              (E_MessageTooShort "EphemeralPayloadHeader payload data" needed (len buf)) in
  Ok (MkEphemeralPayloadHeader id nonce timestamp payload_len, offset).

(** [EphemeralPayloadHeader::try_decode] *)
Definition try_decode_header (buf : list byte) : result DecodeError EphemeralPayloadHeader :=
  let? (header, _) := try_decode_with_offset buf in Ok header.

Definition try_decode_fields (buf : list byte) : result DecodeError (EphemeralPayload * N) :=
  let? (header, payload_start) := try_decode_with_offset buf in
  let payload_end := as_u64 (payload_start + eph_payload_len header) in
  let? payload := ok_or (get_range buf payload_start payload_end)
                    (E_MessageTooShort "EphemeralPayload payload data" payload_end (len buf)) in
  Ok (MkEphemeralPayload (eph_id header) (eph_nonce header) (eph_timestamp header) payload,
      payload_end).

#[global] Instance encode_instance : EncodeFields EphemeralPayload := {|
  Codec.encode_fields := encode_fields;
  Codec.fields_size := fields_size
|}.

#[global] Instance decode_instance : DecodeFields EphemeralPayload := {|
  MIN_SIGNED_SIZE := EPHEMERAL_PAYLOAD_MIN_SIGNED_SIZE;
  Codec.try_decode_fields := try_decode_fields
|}.

(** The values that exist: [u64] fields, and a payload in memory with the rest. *)
Definition encodable (x : EphemeralPayload) : Prop :=
  ep_nonce x <= u64_max /\ ep_timestamp x <= u64_max /\ fields_size x <= u64_max.

(** The encoding as one concatenation. *)
Definition wire (x : EphemeralPayload) : list byte :=
  arr_list (ep_id x) ++ to_be_bytes 8 (ep_nonce x) ++ to_be_bytes 8 (ep_timestamp x)
  ++ bijou_encode (len (ep_payload x)) ++ ep_payload x.

(** What the header of an encoding reads. *)
Definition header_of (x : EphemeralPayload) : EphemeralPayloadHeader :=
  MkEphemeralPayloadHeader (ep_id x) (ep_nonce x) (ep_timestamp x) (len (ep_payload x)).

Lemma ephemeral_encode_wire x buf : encode_fields x buf = buf ++ wire x.
Proof.
  unfold encode_fields, wire, encode.array, encode.u64, encode.bytes. by rewrite <- !app_assoc.
Qed.
End codec.

Section laws.
Context `{Bijou64Laws}.

Lemma encodable_payload x : encodable x -> len (ep_payload x) <= u64_max.
Proof. intros (_ & _ & Hs). unfold fields_size in Hs. lia. Qed.

Lemma ephemeral_wire_len x : encodable x -> len (wire x) = fields_size x.
Proof.
  intros Hx. unfold wire, fields_size.
  rewrite !len_app, len_array, !len_to_be_bytes, bijou_len by (by apply encodable_payload). lia.
Qed.

(** The header, and where the payload is. *)
Lemma ephemeral_header_wire x rest :
  encodable x ->
  let start := 48 + bijou_encoded_len (len (ep_payload x)) in
  try_decode_with_offset (wire x ++ rest) = Ok (header_of x, start) /\
  suffix_at (wire x ++ rest) start (ep_payload x ++ rest).
Proof.
  intros Hx start. pose proof (ephemeral_wire_len x Hx) as Hlen.
  pose proof (encodable_payload x Hx) as Hp. destruct Hx as (Hn & Ht & Hsz).
  pose proof (bijou_len_bounds _ Hp) as Hbl. unfold fields_size in *.
  unfold try_decode_with_offset. set (buf := wire x ++ rest).
  assert (Hbuf : len buf = start + len (ep_payload x) + len rest)
    by (unfold buf, start; rewrite len_app; lia).
  assert (Hs : suffix_at buf 0 buf) by apply suffix_at_start.
  unfold buf at 2, wire in Hs. rewrite <- !app_assoc in Hs.
  rewrite (proj2 (N.ltb_ge _ _))
    by (rewrite Hbuf; unfold start, EPHEMERAL_PAYLOAD_MIN_FIELDS_SIZE; lia).
  cbn [guard_err rbind]. rewrite (decode_array_at _ _ _ _ _ Hs). suffix_step Hs 32.
  cbn [buf_err map_err rbind]. rewrite (decode_u64_at _ _ _ _ Hs Hn). suffix_step Hs 8.
  cbn [buf_err map_err rbind]. rewrite (decode_u64_at _ _ _ _ Hs Ht). suffix_step Hs 8.
  cbn [buf_err map_err rbind]. rewrite (get_from_suffix _ _ _ Hs). cbn [ok_or rbind].
  rewrite (bijou_decode_encode _ _ Hp). cbn [map_err rbind].
  rewrite (proj2 (N.leb_le _ _) Hp). cbn [ok_or rbind].
  eapply (suffix_at_app _ _ _ _ (bijou_encoded_len _)) in Hs; [|by apply bijou_len].
  rewrite (proj2 (N.ltb_ge _ _)) by (rewrite Hbuf; unfold start; lia). by split.
Qed.

Lemma ephemeral_decode_wire x rest :
  encodable x -> try_decode_fields (wire x ++ rest) = Ok (x, fields_size x).
Proof.
  intros Hx. destruct (ephemeral_header_wire x rest Hx) as [Hh Hs].
  unfold try_decode_fields. rewrite Hh. cbn [rbind header_of eph_payload_len].
  assert (Hf : 48 + bijou_encoded_len (len (ep_payload x)) + len (ep_payload x) = fields_size x)
    by (unfold fields_size; lia).
  destruct Hx as (_ & _ & Hsz). unfold as_u64. rewrite N.mod_small by (unfold u64_max in *; lia).
  rewrite (get_range_suffix _ _ _ _ _ Hs eq_refl). cbn [ok_or rbind]. rewrite Hf. by destruct x.
Qed.

Lemma ephemeral_header_canonical buf h start :
  try_decode_with_offset buf = Ok (h, start) ->
  start = 48 + bijou_encoded_len (eph_payload_len h) /\ eph_nonce h <= u64_max /\
  eph_timestamp h <= u64_max /\ eph_payload_len h <= u64_max /\
  exists rest, suffix_at buf start rest /\
    buf = arr_list (eph_id h) ++ to_be_bytes 8 (eph_nonce h) ++ to_be_bytes 8 (eph_timestamp h)
          ++ bijou_encode (eph_payload_len h) ++ rest.
Proof.
  unfold try_decode_with_offset, buf_err. intros Hd.
  assert (exists b0, b0 = buf /\ suffix_at buf 0 b0) as (b0 & Hb0 & Hs)
    by (exists buf; split; [done|apply suffix_at_start]).
  repeat (inv_ok; match goal with x : _ * _ |- _ => destruct x end); inv_ok.
  repeat canon_step.
  match goal with Hs : suffix_at buf _ _ |- _ =>
    pose proof (get_from_suffix _ _ _ Hs) as Hx; rename Hs into Hrem end.
  change (0 + N.of_nat 32 + 8 + 8) with (0 + 32 + 8 + 8) in Hx, Hrem.
  rewrite Hx in H5. injection H5 as <-.
  destruct (bijou_decode_canonical _ _ _ H6) as (Hv & -> & rest & ->).
  rewrite (proj2 (N.leb_le _ _) Hv) in H7. injection H7 as <-. subst h start. cbn.
  split_and!; [lia|done..|]. exists rest. split; [|by rewrite <- Hb0].
  eapply suffix_at_app; [done|by apply bijou_len].
Qed.

Lemma ephemeral_decode_canonical buf x n :
  try_decode_fields buf = Ok (x, n) ->
  encodable x /\ n = fields_size x /\ exists rest, buf = wire x ++ rest.
Proof.
  unfold try_decode_fields. intros Hd. apply rbind_ok in Hd as ([h start] & Hh & Hd).
  destruct (ephemeral_header_canonical _ _ _ Hh) as (-> & Hn & Ht & Hp & s & Hs & ->).
  pose proof (bijou_len_bounds _ Hp) as Hbl. apply rbind_ok in Hd as (payload & Hg & Hd).
  apply ok_or_ok, get_range_Some in Hg as (Hle & _ & Hlen & rest & Hs').
  pose proof (suffix_at_fun _ _ _ _ Hs Hs') as ->. injection Hd as <- <-.
  set (e := 48 + bijou_encoded_len (eph_payload_len h) + eph_payload_len h) in *.
  assert (He : as_u64 e = e).
  { apply N.mod_small. destruct (N.lt_ge_cases e 18446744073709551616) as [|Hge]; [done|].
    unfold as_u64 in Hle. rewrite <- (N.mod_unique e _ 1 (e - 18446744073709551616)) in Hle;
      unfold e, u64_max in *; lia. }
  rewrite He in *. assert (Hl : len payload = eph_payload_len h) by (unfold e in Hlen; lia).
  assert (e <= u64_max) by (unfold as_u64 in He; pose proof (N.mod_lt e 18446744073709551616);
    unfold u64_max; lia).
  unfold encodable, fields_size, wire. cbn [ep_id ep_nonce ep_timestamp ep_payload]. rewrite Hl.
  split_and!; [done..|unfold e in *; lia|unfold e; lia|].
  exists rest. by rewrite <- !app_assoc.
Qed.

#[global] Instance laws : CodecLaws EphemeralPayload encodable.
Proof.
  split; cbn [Codec.encode_fields Codec.fields_size Codec.try_decode_fields encode_instance decode_instance].
  - intros x buf. by rewrite !ephemeral_encode_wire.
  - intros x Hx. rewrite ephemeral_encode_wire. by apply ephemeral_wire_len.
  - intros x rest Hx. rewrite ephemeral_encode_wire. by apply ephemeral_decode_wire.
  - intros buf x n Hd. rewrite ephemeral_encode_wire. by apply ephemeral_decode_canonical.
Qed.

#[global] Instance signed_laws : SignedLaws EphemeralPayload encodable.
Proof.
  split; [apply _|]. intros x Hx. pose proof (bijou_len_bounds _ (encodable_payload x Hx)).
  unfold MIN_SIGNED_SIZE, signed_size. cbn.
  unfold fields_size, EPHEMERAL_PAYLOAD_MIN_SIGNED_SIZE, EPHEMERAL_PAYLOAD_MIN_FIELDS_SIZE. lia.
Qed.

(** The header view agrees with the payload behind it. *)
Lemma header_agrees buf x n :
  try_decode_fields buf = Ok (x, n) -> try_decode_header buf = Ok (header_of x).
Proof.
  intros (Hx & _ & rest & ->)%ephemeral_decode_canonical. unfold try_decode_header.
  by rewrite (proj1 (ephemeral_header_wire x rest Hx)).
Qed.
End laws.
End EphemeralCodec.

(** ** The messages *)

Record NonEmpty (A : Type) : Type := MkNonEmpty { ne_head : A; ne_tail : list A }.
Arguments MkNonEmpty {A}.
Arguments ne_head {A}.
Arguments ne_tail {A}.

#[export] Instance NonEmpty_eq_dec A `{EqDecision A} : EqDecision (NonEmpty A).
Proof. solve_decision. Defined.

Definition ne_list {A} (self : NonEmpty A) : list A := ne_head self :: ne_tail self.

(** [NonEmpty::from_vec] *)
Definition ne_from_vec {A} (l : list A) : option (NonEmpty A) :=
  match l with [] => None | x :: l' => Some (MkNonEmpty x l') end.

Inductive EphemeralMessage : Type :=
| EM_Ephemeral (signed : Signed EphemeralPayload)
| EM_Subscribe (topics : NonEmpty Topic)
| EM_Unsubscribe (topics : NonEmpty Topic)
| EM_SubscribeRejected (topics : NonEmpty Topic).

#[export] Instance EphemeralMessage_eq_dec : EqDecision EphemeralMessage.
Proof. solve_decision. Defined.

Module EphemeralWire.
Definition EPHEMERAL_SCHEMA : array 4 := Array (n:=4) ["S"%byte; "U"%byte; "E"%byte; x00] I.
Definition CONTROL_HEADER_SIZE : N := 4 + 1.

Module tags.
Definition EPHEMERAL : byte := EphemeralCodec.TAG.
Definition SUBSCRIBE : byte := x01.
Definition UNSUBSCRIBE : byte := x02.
Definition SUBSCRIBE_REJECTED : byte := x03.
End tags.

(** [min_sizes], the same for the three. *)
Definition min_size : N := 2 + 32.

(** The count is written [as u16] (a debug build asserts that it fits). *)
Definition encode_topic_list (buf : list byte) (topics : NonEmpty Topic) : list byte :=
  let buf := buf ++ to_be_bytes 2 (as_u16 (len (ne_list topics))) in
  foldl (fun buf topic => buf ++ arr_list topic) buf (ne_list topics).

Definition encode (self : EphemeralMessage) : list byte :=
  match self with
  | EM_Ephemeral signed => sg_bytes signed
  | EM_Subscribe topics =>
      encode_topic_list (arr_list EPHEMERAL_SCHEMA ++ [tags.SUBSCRIBE]) topics
  | EM_Unsubscribe topics =>
      encode_topic_list (arr_list EPHEMERAL_SCHEMA ++ [tags.UNSUBSCRIBE]) topics
  | EM_SubscribeRejected topics =>
      encode_topic_list (arr_list EPHEMERAL_SCHEMA ++ [tags.SUBSCRIBE_REJECTED]) topics
  end.

Definition encoded_size (self : EphemeralMessage) : N :=
  match self with
  | EM_Ephemeral signed => len (sg_bytes signed)
  | EM_Subscribe topics | EM_Unsubscribe topics | EM_SubscribeRejected topics =>
      CONTROL_HEADER_SIZE + 2 + len (ne_list topics) * 32
  end.

Section decode.
Context `{Ed25519, Bijou64}.

Definition read_u16 : reader N := fun buf offset =>
  let? bytes := ok_or (get_range buf offset (offset + 2))
                  (E_MessageTooShort "u16" (offset + 2) (len buf)) in
  Ok (from_be_bytes bytes, offset + 2).

Definition read_array (n : nat) : reader (array n) := fun buf offset =>
  let? bytes := ok_or (get_range buf offset (offset + N.of_nat n) ≫= array_of_list n)
                  (E_MessageTooShort "array" (offset + N.of_nat n) (len buf)) in
  Ok (bytes, offset + N.of_nat n).

Definition decode_topic_list (payload : list byte) : result DecodeError (NonEmpty Topic) :=
  let offset := 0 in
  let? (count, offset) := read_u16 payload offset in
  let? _ := guard_err (count =? 0)
              (E_MessageTooShort "EphemeralTopicList" (2 + 32) (len payload)) in
  let? (first, offset) := read_array 32 payload offset in
  let? (rest, offset) := read_n (read_array 32) (N.to_nat (count - 1)) payload offset in
  let? _ := guard_err (negb (offset =? len payload)) (E_SizeMismatch offset (len payload)) in
  Ok (MkNonEmpty first rest).

(** A message of the three kinds with a list of topics. *)
Definition decode_control (bytes : list byte) (type_name : string)
    (message : NonEmpty Topic -> EphemeralMessage) : result DecodeError EphemeralMessage :=
  let? payload := ok_or (get_from bytes CONTROL_HEADER_SIZE)
                    (E_MessageTooShort "EphemeralMessage control payload"
                       (CONTROL_HEADER_SIZE + 1) (len bytes)) in
  let? _ := guard_err (len payload <? min_size)
              (E_MessageTooShort type_name (CONTROL_HEADER_SIZE + min_size) (len bytes)) in
  let? topics := decode_topic_list payload in
  Ok (message topics).

Definition decode_message (bytes : list byte) : result DecodeError EphemeralMessage :=
  let? _ := guard_err (len bytes <? CONTROL_HEADER_SIZE)
              (E_MessageTooShort "EphemeralMessage" CONTROL_HEADER_SIZE (len bytes)) in
  let? schema := ok_or (get_range bytes 0 4 ≫= array_of_list 4)
                   (E_MessageTooShort "EphemeralMessage schema" 4 (len bytes)) in
  let? _ := guard_err (negb (bool_decide (schema = EPHEMERAL_SCHEMA)))
              (E_InvalidSchema EPHEMERAL_SCHEMA schema) in
  let? tag := ok_or (bytes !! 4%nat)
                (E_MessageTooShort "EphemeralMessage tag" CONTROL_HEADER_SIZE (len bytes)) in
  if bool_decide (tag = tags.EPHEMERAL) then
    let? signed := try_decode bytes in Ok (EM_Ephemeral signed)
  else if bool_decide (tag = tags.SUBSCRIBE) then
    decode_control bytes "EphemeralSubscribe" EM_Subscribe
  else if bool_decide (tag = tags.UNSUBSCRIBE) then
    decode_control bytes "EphemeralUnsubscribe" EM_Unsubscribe
  else if bool_decide (tag = tags.SUBSCRIBE_REJECTED) then
    decode_control bytes "EphemeralSubscribeRejected" EM_SubscribeRejected
  else Err (E_InvalidEnumTag tag "EphemeralMessage").
End decode.

(** *** The readers are those of the codec, but for their errors *)

Section wire.
Context `{Ed25519, Bijou64Laws}.

Lemma read_u16_ok buf off v e :
  read_u16 buf off = Ok (v, e) <-> decode.u16 buf off = Ok v /\ e = off + 2.
Proof.
  unfold read_u16, decode.u16. destruct (get_range buf off (off + 2)); simpl; [|naive_solver].
  naive_solver.
Qed.

Lemma read_array_ok n buf off (a : array n) e :
  read_array n buf off = Ok (a, e) <-> decode.array n buf off = Ok a /\ e = off + N.of_nat n.
Proof.
  unfold read_array, decode.array. destruct (get_range _ _ _ ≫= _); simpl; naive_solver.
Qed.

Lemma read_arrays_ok n count buf off (l : list (array n)) e :
  read_n (read_array n) count buf off = Ok (l, e) <-> decode.arrays n count buf off = Ok (l, e).
Proof.
  revert off l e. induction count as [|count IH]; intros off l e;
    [split; intros [= <- <-]; reflexivity|]. simpl.
  unfold reader_bind, reader_ret. split.
  - intros ([a o] & [Ha ->]%read_array_ok & ([l' e'] & Hl%IH & [= <- <-])%rbind_ok)%rbind_ok.
    by rewrite Ha; simpl; rewrite Hl.
  - intros (a & Ha & ([l' e'] & Hl%IH & [= <- <-])%rbind_ok)%rbind_ok.
    rewrite (proj2 (read_array_ok n buf off a _) (conj Ha eq_refl)). simpl. by rewrite Hl.
Qed.

(** ** Reading back *)

Definition topics_wire (topics : NonEmpty Topic) : list byte :=
  to_be_bytes 2 (len (ne_list topics)) ++ arrays_bytes (ne_list topics).

Lemma encode_topic_list_wire buf topics :
  len (ne_list topics) <= u16_max -> encode_topic_list buf topics = buf ++ topics_wire topics.
Proof.
  intros Hl. unfold encode_topic_list, topics_wire, as_u16.
  rewrite N.mod_small by (unfold u16_max in Hl; lia).
  by rewrite (foldl_encode_array (ne_list topics)), app_assoc.
Qed.

Lemma decode_topic_list_at topics :
  len (ne_list topics) <= u16_max -> decode_topic_list (topics_wire topics) = Ok topics.
Proof.
  intros Hl. unfold decode_topic_list. set (buf := topics_wire topics).
  assert (Hs : suffix_at buf 0 (buf ++ [])) by (rewrite app_nil_r; apply suffix_at_start).
  unfold buf at 2, topics_wire in Hs. rewrite <- app_assoc in Hs.
  rewrite (proj2 (read_u16_ok buf 0 _ _) (conj (decode_u16_at _ _ _ _ Hs Hl) eq_refl)).
  suffix_step Hs 2. cbn [rbind].
  rewrite (proj2 (N.eqb_neq _ _)) by (unfold ne_list; rewrite len_cons; lia). cbn [guard_err rbind].
  unfold ne_list at 1 in Hs. rewrite arrays_bytes_cons, <- app_assoc in Hs.
  rewrite (proj2 (read_array_ok _ buf _ _ _) (conj (decode_array_at _ _ _ _ _ Hs) eq_refl)).
  suffix_step Hs (N.of_nat 32). cbn [rbind].
  replace (N.to_nat (len (ne_list topics) - 1)) with (length (ne_tail topics))
    by (unfold ne_list, len; simpl; lia).
  rewrite (proj2 (read_arrays_ok _ _ buf _ _ _) (decode_arrays_at _ _ _ _ _ Hs)). cbn [rbind].
  eapply (suffix_at_app _ _ _ _ _) in Hs; [|apply len_arrays_bytes].
  pose proof (suffix_at_len _ _ _ Hs) as Hend. unfold len at 3 in Hend. simpl length in Hend.
  rewrite (proj2 (N.eqb_eq _ _)) by lia. cbn. by destruct topics.
Qed.

Lemma decode_topic_list_inv buf topics :
  decode_topic_list buf = Ok topics ->
  len (ne_list topics) <= u16_max /\ buf = topics_wire topics.
Proof.
  unfold decode_topic_list. intros Hd.
  assert (Hs : suffix_at buf 0 buf) by apply suffix_at_start.
  apply rbind_ok in Hd as ([count o] & [Hc ->]%read_u16_ok & Hd).
  destruct (decode_u16_inv _ _ _ _ Hs Hc) as (Hmax & s1 & Hbuf & Hs1).
  apply rbind_ok in Hd as (u & Hz%guard_err_ok%N.eqb_neq & Hd).
  apply rbind_ok in Hd as ([first o] & [Hf ->]%read_array_ok & Hd).
  destruct (decode_array_inv _ _ _ _ _ Hs1 Hf) as (s2 & -> & Hs2).
  apply rbind_ok in Hd as ([rest o] & Hr%read_arrays_ok & Hd).
  destruct (decode_arrays_inv _ _ _ _ _ _ _ Hs2 Hr) as (Hlen & -> & s3 & -> & Hs3).
  apply rbind_ok in Hd as (v & He%guard_err_ok & [= <-]).
  apply negb_false_iff, N.eqb_eq in He. pose proof (suffix_at_len _ _ _ Hs3) as Hend.
  assert (s3 = []) as -> by (destruct s3; [done|]; rewrite len_cons in Hend; lia).
  assert (Hl : len (ne_list (MkNonEmpty first rest)) = count)
    by (unfold ne_list, len; simpl; lia).
  rewrite Hl. split; [done|]. unfold topics_wire. rewrite Hl. rewrite app_nil_r in Hbuf. exact Hbuf.
Qed.

(** What the format can carry. *)
Definition message_ok (m : EphemeralMessage) : Prop :=
  match m with
  | EM_Ephemeral s => exists p, signed_wf (encodable := EphemeralCodec.encodable) s p
  | EM_Subscribe topics | EM_Unsubscribe topics | EM_SubscribeRejected topics =>
      len (ne_list topics) <= u16_max
  end.

Definition tag_of (m : EphemeralMessage) : byte :=
  match m with
  | EM_Ephemeral _ => tags.EPHEMERAL
  | EM_Subscribe _ => tags.SUBSCRIBE
  | EM_Unsubscribe _ => tags.UNSUBSCRIBE
  | EM_SubscribeRejected _ => tags.SUBSCRIBE_REJECTED
  end.

(** Bytes that may follow the message: a signed one is read up to its signature. *)
Definition may_follow (m : EphemeralMessage) (rest : list byte) : Prop :=
  match m with EM_Ephemeral _ => True | _ => rest = [] end.

Lemma ephemeral_header m :
  message_ok m -> exists body, encode m = arr_list EPHEMERAL_SCHEMA ++ [tag_of m] ++ body.
Proof.
  destruct m as [s|ts|ts|ts]; cbn [message_ok encode tag_of]; intros Hm;
    [|by rewrite encode_topic_list_wire, <- app_assoc by done; eexists..].
  destruct Hm as [p [Hb _ _]]. rewrite Hb. unfold signed_message, disc_bytes.
  eexists. rewrite <- !app_assoc. done.
Qed.

Lemma decode_control_at (type_name : string) (message : NonEmpty Topic -> EphemeralMessage)
    bytes topics :
  len (ne_list topics) <= u16_max -> suffix_at bytes 5 (topics_wire topics) ->
  decode_control bytes type_name message = Ok (message topics).
Proof.
  intros Hl Hs. unfold decode_control.
  rewrite (get_from_suffix _ _ _ Hs : get_from bytes CONTROL_HEADER_SIZE = _). cbn [ok_or rbind].
  rewrite (proj2 (N.ltb_ge _ _)).
  - cbn [guard_err rbind]. by rewrite decode_topic_list_at.
  - unfold topics_wire, min_size, ne_list.
    rewrite len_app, len_to_be_bytes, len_arrays_bytes, len_cons. lia.
Qed.

Lemma ephemeral_decode_at m rest :
  message_ok m -> may_follow m rest -> decode_message (encode m ++ rest) = Ok m.
Proof.
  intros Hm Hrest. destruct (ephemeral_header m Hm) as [body Hb]. unfold decode_message.
  set (buf := encode m ++ rest). assert (Hs : suffix_at buf 0 buf) by apply suffix_at_start.
  unfold buf at 2 in Hs. rewrite Hb, <- !app_assoc in Hs.
  pose proof Hs as Hs1. suffix_step Hs1 4. pose proof Hs1 as Hs2. suffix_step Hs2 1.
  pose proof (suffix_at_len _ _ _ Hs2) as Hl.
  rewrite (proj2 (N.ltb_ge _ _)) by (unfold CONTROL_HEADER_SIZE; lia). cbn [guard_err rbind].
  rewrite (get_array_at _ _ 0 4 _ Hs : get_range _ 0 4 ≫= _ = _). cbn [ok_or rbind].
  rewrite bool_decide_true by done. cbn [negb guard_err rbind].
  rewrite (lookup_at _ _ (0 + 4) _ Hs1 : buf !! 4%nat = _). cbn [ok_or rbind].
  destruct m as [s|ts|ts|ts]; cbn [tag_of message_ok may_follow encode] in *;
    [|rewrite encode_topic_list_wire, <- app_assoc in Hb by done;
      apply app_inv_head, app_inv_head in Hb as <-; subst rest; rewrite app_nil_r in Hs2..].
  - destruct Hm as [p Hp]. rewrite bool_decide_true by done. unfold buf, try_decode.
    by rewrite (try_decode_prefix_at _ _ _ Hp).
  - do 1 rewrite bool_decide_false by done. rewrite bool_decide_true by done.
    by apply decode_control_at.
  - do 2 rewrite bool_decide_false by done. rewrite bool_decide_true by done.
    by apply decode_control_at.
  - do 3 rewrite bool_decide_false by done. rewrite bool_decide_true by done.
    by apply decode_control_at.
Qed.

Lemma decode_control_inv type_name message bytes m :
  decode_control bytes type_name message = Ok m ->
  exists topics, m = message topics /\ len (ne_list topics) <= u16_max /\
    get_from bytes CONTROL_HEADER_SIZE = Some (topics_wire topics).
Proof.
  unfold decode_control. intros Hd. apply rbind_ok in Hd as (payload & Hp%ok_or_ok & Hd).
  apply rbind_ok in Hd as (? & _ & Hd). apply rbind_ok in Hd as (topics & Ht & [= <-]).
  apply decode_topic_list_inv in Ht as [Hl ->]. by exists topics.
Qed.

(** The parts of a frame with the schema and this tag. *)
Lemma frame_parts (bytes : list byte) tag schema payload :
  get_range bytes 0 4 ≫= array_of_list 4 = Some schema -> bytes !! 4%nat = Some tag ->
  get_from bytes CONTROL_HEADER_SIZE = Some payload ->
  bytes = arr_list schema ++ [tag] ++ payload.
Proof.
  intros (x & Hx & Ha%array_of_list_Some)%bind_Some Ht Hf. subst x.
  apply get_range_Some in Hx as (_ & _ & _ & rest & [_ Hs]).
  change (drop (N.to_nat 0) bytes) with bytes in Hs. subst bytes.
  unfold get_from in Hf. destruct (_ <=? _); [|done]. injection Hf as <-.
  pose proof (length_array schema) as Hlen.
  change (N.to_nat CONTROL_HEADER_SIZE) with 5%nat.
  rewrite lookup_app_r, Hlen in Ht by lia. destruct rest as [|b rest]; [done|]. injection Ht as ->.
  rewrite drop_app_ge, Hlen by lia. done.
Qed.

(** Whatever decodes is the encoding of the message, and what may follow it. *)
Lemma decode_message_inv bytes m :
  decode_message bytes = Ok m ->
  message_ok m /\ exists rest, bytes = encode m ++ rest /\ may_follow m rest.
Proof.
  unfold decode_message. intros Hd. apply rbind_ok in Hd as (? & _ & Hd).
  apply rbind_ok in Hd as (schema & Hsch%ok_or_ok & Hd).
  apply rbind_ok in Hd as (? & Hv%guard_err_ok%negb_false_iff%bool_decide_eq_true & Hd).
  apply rbind_ok in Hd as (tag & Htag%ok_or_ok & Hd). subst schema.
  case_bool_decide.
  { apply rbind_ok in Hd as (s & Hs & [= <-]). apply rbind_ok in Hs as ([s' n] & Hs & [= <-]).
    destruct (try_decode_prefix_inv (encodable := EphemeralCodec.encodable) _ _ _ Hs)
      as (p & rest & Hw & -> & _). split; [by exists p|]. by exists rest. }
  repeat case_bool_decide; [..|done];
    apply decode_control_inv in Hd as (topics & -> & Hl & Hf);
    (split; [done|]); exists []; (split; [|done]); cbn [encode];
    rewrite app_nil_r, encode_topic_list_wire, <- app_assoc by done; subst tag;
    by apply frame_parts.
Qed.

Lemma len_encode_control buf topics :
  len (encode_topic_list buf topics) = len buf + 2 + len (ne_list topics) * 32.
Proof.
  unfold encode_topic_list. rewrite (foldl_encode_array (ne_list topics)).
  rewrite !len_app, len_to_be_bytes, len_arrays_bytes. lia.
Qed.

Lemma len_encode m : len (encode m) = encoded_size m.
Proof.
  destruct m as [s|ts|ts|ts]; cbn [encode encoded_size]; [done|by rewrite len_encode_control..].
Qed.

(** Too many topics for the count field. *)
Definition oversized (m : EphemeralMessage) : Prop :=
  match m with
  | EM_Ephemeral _ => False
  | EM_Subscribe topics | EM_Unsubscribe topics | EM_SubscribeRejected topics =>
      u16_max < len (ne_list topics)
  end.

Lemma oversized_tag m : oversized m -> encode m !! 4%nat = Some (tag_of m).
Proof.
  destruct m as [s|ts|ts|ts]; cbn [oversized encode tag_of]; intros Hm; [done|..];
    unfold encode_topic_list; by rewrite (foldl_encode_array (ne_list ts)).
Qed.

Lemma oversized_rejected m m' : oversized m -> decode_message (encode m) <> Ok m'.
Proof.
  intros Hm Hd. destruct (decode_message_inv _ _ Hd) as (Hok & rest & He & Hrest).
  pose proof (oversized_tag m Hm) as Ht. destruct (ephemeral_header m' Hok) as [body Hb].
  rewrite He, Hb in Ht. assert (Htag : tag_of m' = tag_of m) by (cbn in Ht; congruence).
  assert (Hl : encoded_size m = encoded_size m' + len rest)
    by (rewrite <- !len_encode, <- len_app; by f_equal).
  destruct m, m'; try done; cbn [oversized message_ok may_follow encoded_size] in *; subst rest;
    rewrite len_nil in Hl; lia.
Qed.
End wire.
End EphemeralWire.

(** ** The claims *)

(** Ephemeral messages and their wire form determine each other. A message whose topics fit the
    count field is written in [encoded_size] bytes, which decode to it; whatever bytes decode
    are the encoding of the message they decode to, with nothing behind a list of topics.
    What follows a signed message is ignored. A longer list of topics, on which only
    a debug build stops, is written too, but no receiver decodes it. *)
Theorem EphemeralMessage_roundtrip `{Ed25519, Bijou64Laws} :
  (forall m rest, EphemeralWire.message_ok m -> EphemeralWire.may_follow m rest ->
     len (EphemeralWire.encode m) = EphemeralWire.encoded_size m /\
     EphemeralWire.decode_message (EphemeralWire.encode m ++ rest) = Ok m) /\
  (forall bytes m, EphemeralWire.decode_message bytes = Ok m ->
     EphemeralWire.message_ok m /\
     exists rest, bytes = EphemeralWire.encode m ++ rest /\ EphemeralWire.may_follow m rest) /\
  (forall m m', EphemeralWire.oversized m ->
     EphemeralWire.decode_message (EphemeralWire.encode m) <> Ok m').
Proof.
  split_and!.
  - intros m rest Hm Hr. split; [apply EphemeralWire.len_encode|].
    by apply EphemeralWire.ephemeral_decode_at.
  - intros bytes m. apply EphemeralWire.decode_message_inv.
  - intros m m'. apply EphemeralWire.oversized_rejected.
Qed.

(** An example payload, and the message that carries it. *)
Definition example_ephemeral : EphemeralPayload :=
  MkEphemeralPayload (array_pad 32 [x07]) 42 1000 [x68; x69].

#[local] Existing Instance ed25519_checksum.
#[local] Existing Instance bijou_fixed8.
#[local] Existing Instance bijou_fixed8_laws.

Lemma EphemeralMessage_roundtrip_witness :
  let m := EM_Ephemeral (vs_signed (seal (toy_signer x05) example_ephemeral)) in
  let topics := EM_Subscribe (MkNonEmpty (array_pad 32 [x07]) [array_pad 32 [x08]]) in
  EphemeralWire.decode_message (EphemeralWire.encode m ++ [xff]) = Ok m /\
  EphemeralWire.decode_message (EphemeralWire.encode topics) = Ok topics.
Proof.
  destruct EphemeralMessage_roundtrip as [Hat _]. split.
  - apply Hat; [|done]. eexists.
    apply (seal_wf (encodable := EphemeralCodec.encodable) (toy_signer x05)).
    split_and!; vm_compute; discriminate.
  - rewrite <- (app_nil_r (EphemeralWire.encode _)). apply Hat; [vm_compute; discriminate|done].
Defined.
