(* ===== verification/EphemeralNonceCache.v ===== *)
(** * The nonce cache of ephemeral messages

    [subduction_ephemeral/src/nonce_cache.rs]: two time buckets of nonces for each sender and
    topic. The specification is the ledger of the nonces that were accepted, with their times;
    the cache is a bounded view of it. *)

From Stdlib Require Import Strings.Byte NArith Lia.
From stdpp Require Import base gmap sorting strings list.
From S2P Require Import Prelude.
From S2P Require Import Types.
From S2P Require Import NonceCache.
From S2P Require Import HandshakeWire.

Open Scope N_scope.

Notation Topic := (array 32) (only parsing).

Record NonceBucket : Type := MkNonceBucket {
  nb_nonces : gset N;
  nb_rotated_at : TimestampSeconds
}.

Definition NonceBucket_new (now : TimestampSeconds) : NonceBucket := MkNonceBucket ∅ now.

(** The buckets of a key are [current] and [previous]. *)
Record EphemeralNonceCache : Type := MkEphemeralNonceCache {
  windows : gmap (PeerId * Topic) (NonceBucket * NonceBucket);
  window_duration : Duration
}.

Definition EphemeralNonceCache_new (window_duration : Duration) : EphemeralNonceCache :=
  MkEphemeralNonceCache ∅ window_duration.

Definition contains (self : EphemeralNonceCache) (sender : PeerId) (topic : Topic) (nonce : N) : bool :=
  match windows self !! (sender, topic) with
  | None => false
  | Some (current, previous) =>
      bool_decide (nonce ∈ nb_nonces current) || bool_decide (nonce ∈ nb_nonces previous)
  end.

(** [Duration::MAX] and [Duration::saturating_mul] *)
Definition DURATION_MAX : Duration := u64_max * 1000000000 + 999999999.
Definition saturating_mul (d : Duration) (rhs : N) : Duration := N.min DURATION_MAX (d * rhs).

Definition gc_buckets (current previous : NonceBucket) (now : TimestampSeconds)
    (window_duration : Duration) : NonceBucket * NonceBucket :=
  let age := abs_diff (nb_rotated_at current) now in
  if saturating_mul window_duration 2 <? age then (NonceBucket_new now, NonceBucket_new now)
  else if window_duration <? age then (NonceBucket_new now, current)
  else (current, previous).

Definition check_and_insert (self : EphemeralNonceCache) (sender : PeerId) (topic : Topic)
    (nonce : N) (now : TimestampSeconds) : EphemeralNonceCache * bool :=
  let key := (sender, topic) in
  let '(current, previous) :=
    default (NonceBucket_new now, NonceBucket_new now) (windows self !! key) in
  let '(current, previous) := gc_buckets current previous now (window_duration self) in
  if bool_decide (nonce ∈ nb_nonces current) || bool_decide (nonce ∈ nb_nonces previous) then
    (MkEphemeralNonceCache (<[key := (current, previous)]> (windows self)) (window_duration self),
     false)
  else
    let current := MkNonceBucket ({[nonce]} ∪ nb_nonces current) (nb_rotated_at current) in
    (MkEphemeralNonceCache (<[key := (current, previous)]> (windows self)) (window_duration self),
     true).

Definition remove_peer (self : EphemeralNonceCache) (peer : PeerId) : EphemeralNonceCache :=
  MkEphemeralNonceCache (filter (fun '((p, _), _) => p <> peer) (windows self))
    (window_duration self).

(** ** The ledger *)

(** The nonces accepted from senders that were not removed since, with the time of each. *)
Definition ledger : Type := list (PeerId * Topic * N * TimestampSeconds).

Inductive cache_op : Type :=
| CheckNonce (sender : PeerId) (topic : Topic) (nonce : N) (now : TimestampSeconds)
| RemovePeer (peer : PeerId).

(** One operation of the cache, and its entry in the ledger. *)
Definition cache_step (c : EphemeralNonceCache * ledger) (op : cache_op) :
  EphemeralNonceCache * ledger :=
  match op with
  | CheckNonce sender topic nonce now =>
      let '(cache, fresh) := check_and_insert c.1 sender topic nonce now in
      (cache, if fresh then c.2 ++ [(sender, topic, nonce, now)] else c.2)
  | RemovePeer peer => (remove_peer c.1 peer, filter (fun '(p, _, _, _) => p <> peer) c.2)
  end.

(** The clock does not run backwards, from [last] on. *)
Fixpoint clock_forward (last : TimestampSeconds) (ops : list cache_op) : Prop :=
  match ops with
  | [] => True
  | CheckNonce _ _ _ now :: ops' => last <= now <= u64_max /\ clock_forward now ops'
  | RemovePeer _ :: ops' => clock_forward last ops'
  end.

Fixpoint last_time (last : TimestampSeconds) (ops : list cache_op) : TimestampSeconds :=
  match ops with
  | [] => last
  | CheckNonce _ _ _ now :: ops' => last_time now ops'
  | RemovePeer _ :: ops' => last_time last ops'
  end.

(** ** The invariant *)

Section retention.
Context (w : Duration).
Implicit Types (L : ledger) (k : PeerId * Topic) (cur prev : NonceBucket).

Definition entry L k n t : Prop := (k, n, t) ∈ L.

(** How the buckets of a key stand to the entries of the key: nothing is in them that is not in
    the ledger, and what has left them is older than a window. *)
Record buckets_ok (entries : N -> TimestampSeconds -> Prop) cur prev (last : TimestampSeconds) :
  Prop := {
  bo_last : nb_rotated_at cur <= last;
  bo_cur n : n ∈ nb_nonces cur -> exists t, entries n t /\ nb_rotated_at cur <= t;
  bo_prev n : n ∈ nb_nonces prev ->
    exists t, entries n t /\ Duration.from_secs (nb_rotated_at cur) <= Duration.from_secs t + 2 * w;
  bo_recent n t : entries n t ->
    t <= last /\ Duration.from_secs t <= Duration.from_secs (nb_rotated_at cur) + w;
  bo_in_cur n t : entries n t -> nb_rotated_at cur <= t -> n ∈ nb_nonces cur;
  bo_in_prev n t : entries n t -> t < nb_rotated_at cur ->
    n ∈ nb_nonces prev \/ Duration.from_secs t + w < Duration.from_secs (nb_rotated_at cur)
}.

Lemma buckets_new now : buckets_ok (fun _ _ => False) (NonceBucket_new now) (NonceBucket_new now) now.
Proof. split; cbn; try done; set_solver. Qed.

Lemma age_forward r now : r <= now -> abs_diff r now = Duration.from_secs (now - r).
Proof.
  intros Hle. unfold abs_diff, Duration.from_secs. destruct (N.ltb_spec r now); f_equal; lia.
Qed.

Lemma buckets_gc entries cur prev last now :
  buckets_ok entries cur prev last -> last <= now <= u64_max ->
  let '(cur', prev') := gc_buckets cur prev now w in
  buckets_ok entries cur' prev' now /\
  Duration.from_secs now <= Duration.from_secs (nb_rotated_at cur') + w.
Proof.
  intros [Hlast Hcur Hprev Hrec Hin Hout] Hnow. unfold gc_buckets.
  rewrite age_forward by lia. unfold saturating_mul, Duration.from_secs in *.
  assert (Hmax : (now - nb_rotated_at cur) * 1000000000 <= DURATION_MAX)
    by (unfold DURATION_MAX; lia).
  destruct (N.ltb_spec (N.min DURATION_MAX (w * 2)) ((now - nb_rotated_at cur) * 1000000000)).
  { split; [|cbn; lia].
    split; cbn [NonceBucket_new nb_nonces nb_rotated_at]; unfold Duration.from_secs.
    - lia.
    - intros n. by rewrite elem_of_empty.
    - intros n. by rewrite elem_of_empty.
    - intros n t He. specialize (Hrec n t He). lia.
    - intros n t He Hle. specialize (Hrec n t He). exfalso. lia.
    - intros n t He Hlt. specialize (Hrec n t He). right. lia. }
  destruct (N.ltb_spec w ((now - nb_rotated_at cur) * 1000000000)).
  - split; [|cbn; lia].
    split; cbn [NonceBucket_new nb_nonces nb_rotated_at]; unfold Duration.from_secs.
    + lia.
    + intros n. by rewrite elem_of_empty.
    + intros n (t & He & Hle)%Hcur. exists t. split; [done|lia].
    + intros n t He. specialize (Hrec n t He). lia.
    + intros n t He Hle. specialize (Hrec n t He). exfalso. lia.
    + intros n t He Hlt. specialize (Hrec n t He).
      destruct (N.le_gt_cases (nb_rotated_at cur) t); [left; by eapply Hin|right; lia].
  - split; [|lia]. split; [lia|done|done| |done|done].
    intros n t He. specialize (Hrec n t He). unfold Duration.from_secs. lia.
Qed.

(** What the buckets answer, after the rotation at [now]. *)
Lemma buckets_answer entries cur prev now n :
  buckets_ok entries cur prev now ->
  Duration.from_secs now <= Duration.from_secs (nb_rotated_at cur) + w ->
  if bool_decide (n ∈ nb_nonces cur) || bool_decide (n ∈ nb_nonces prev)
  then exists t, entries n t /\ Duration.from_secs now <= Duration.from_secs t + 3 * w
  else forall t, entries n t -> Duration.from_secs t + w < Duration.from_secs now.
Proof.
  intros [Hlast Hcur Hprev Hrec Hin Hout] Hage. unfold Duration.from_secs in *.
  destruct (decide (n ∈ nb_nonces cur)) as [Hc|Hc].
  { rewrite bool_decide_true by done. destruct (Hcur n Hc) as (t & He & Hle).
    exists t. split; [done|]. lia. }
  rewrite bool_decide_false by done. destruct (decide (n ∈ nb_nonces prev)) as [Hp|Hp].
  { rewrite bool_decide_true by done. destruct (Hprev n Hp) as (t & He & Hle).
    exists t. split; [done|]. lia. }
  rewrite bool_decide_false by done. simpl. intros t He.
  destruct (N.le_gt_cases (nb_rotated_at cur) t) as [Hle|Hlt]; [by destruct Hc; eapply Hin|].
  destruct (Hout n t He Hlt) as [|]; [done|]. lia.
Qed.

(** A fresh nonce goes into the current bucket. *)
Lemma buckets_insert entries cur prev now n :
  buckets_ok entries cur prev now ->
  Duration.from_secs now <= Duration.from_secs (nb_rotated_at cur) + w ->
  buckets_ok (fun m t => entries m t \/ m = n /\ t = now)
    (MkNonceBucket ({[n]} ∪ nb_nonces cur) (nb_rotated_at cur)) prev now.
Proof.
  intros [Hlast Hcur Hprev Hrec Hin Hout] Hage. split; cbn.
  - done.
  - intros m [->%elem_of_singleton|Hm]%elem_of_union; [by eauto|].
    destruct (Hcur m Hm) as (t & He & Hle). eauto.
  - intros m (t & He & Hle)%Hprev. eauto.
  - intros m t [He|[-> ->]]; [by eauto|]. done.
  - intros m t [He|[-> ->]] Hle; [|set_solver]. apply elem_of_union_r. by eapply Hin.
  - intros m t [He|[-> ->]] Hlt; [by eapply Hout|lia].
Qed.

Lemma buckets_later entries cur prev last now :
  buckets_ok entries cur prev last -> last <= now -> buckets_ok entries cur prev now.
Proof.
  intros [Hlast Hcur Hprev Hrec Hin Hout] Hle. split; [lia|done|done| |done|done].
  intros n t He. specialize (Hrec n t He). lia.
Qed.

Lemma buckets_ext entries entries' cur prev last :
  (forall n t, entries n t <-> entries' n t) ->
  buckets_ok entries cur prev last -> buckets_ok entries' cur prev last.
Proof.
  intros He [Hlast Hcur Hprev Hrec Hin Hout]. split; [done|..].
  - intros n (t & Ht & ?)%Hcur. exists t. by rewrite <- He.
  - intros n (t & Ht & ?)%Hprev. exists t. by rewrite <- He.
  - intros n t Ht%He. by eapply Hrec.
  - intros n t Ht%He. by eapply Hin.
  - intros n t Ht%He. by eapply Hout.
Qed.

Record cache_ok (c : EphemeralNonceCache) L (last : TimestampSeconds) : Prop := {
  co_window : window_duration c = w;
  co_some k cur prev : windows c !! k = Some (cur, prev) -> buckets_ok (entry L k) cur prev last;
  co_none k n t : windows c !! k = None -> ~ entry L k n t
}.

Lemma cache_new last : cache_ok (EphemeralNonceCache_new w) [] last.
Proof.
  split; cbn; [done|by intros k cur prev; rewrite lookup_empty|]. intros k n t _. unfold entry. set_solver.
Qed.

(** The buckets of a key, new ones if it has none, after the rotation at [now]. *)
Lemma cache_rotated c L last sender topic now :
  cache_ok c L last -> last <= now <= u64_max ->
  let '(cur, prev) := default (NonceBucket_new now, NonceBucket_new now) (windows c !! (sender, topic)) in
  let '(cur', prev') := gc_buckets cur prev now (window_duration c) in
  buckets_ok (entry L (sender, topic)) cur' prev' now /\
  Duration.from_secs now <= Duration.from_secs (nb_rotated_at cur') + w.
Proof.
  intros [Hw Hsome Hnone] Hnow. rewrite Hw.
  destruct (windows c !! (sender, topic)) as [[cur prev]|] eqn:Hk; simpl.
  - by apply (buckets_gc _ _ _ last), Hnow; apply Hsome.
  - apply (buckets_gc _ _ _ now); [|lia].
    apply (buckets_ext (fun _ _ => False)); [|apply buckets_new].
    intros n t. split; [done|]. by apply Hnone.
Qed.

(** The entries of a key behind one step. *)
Lemma cache_updated c L last k cur prev L' now :
  cache_ok c L last -> last <= now ->
  (forall k' n t, k' <> k -> entry L' k' n t <-> entry L k' n t) ->
  buckets_ok (entry L' k) cur prev now ->
  cache_ok (MkEphemeralNonceCache (<[k := (cur, prev)]> (windows c)) (window_duration c)) L' now.
Proof.
  intros [Hw Hsome Hnone] Hle Hother Hk. split; cbn; [done|..].
  - intros k' cur' prev'. destruct (decide (k' = k)) as [-> |Hne].
    + rewrite lookup_insert_eq. by intros [= <- <-].
    + rewrite lookup_insert_ne by done. intros Hk'. apply (buckets_later _ _ _ last); [|done].
      apply (buckets_ext (entry L k')); [|by apply Hsome]. intros n t. by rewrite Hother.
  - intros k' n t. destruct (decide (k' = k)) as [-> |Hne]; [by rewrite lookup_insert_eq|].
    rewrite lookup_insert_ne by done. intros Hk' He. rewrite Hother in He by done.
    by eapply Hnone.
Qed.

Lemma entry_snoc L k n t k' n' t' :
  entry (L ++ [(k, n, t)]) k' n' t' <-> entry L k' n' t' \/ (k' = k /\ n' = n /\ t' = t).
Proof. unfold entry. rewrite elem_of_app, list_elem_of_singleton. naive_solver. Qed.

(** One check: the answer, and the invariant behind it. *)
Lemma check_spec c L last sender topic n now :
  cache_ok c L last -> last <= now <= u64_max ->
  let '(c', fresh) := check_and_insert c sender topic n now in
  cache_ok c' (if fresh then L ++ [(sender, topic, n, now)] else L) now /\
  if fresh
  then forall t, entry L (sender, topic) n t -> Duration.from_secs t + w < Duration.from_secs now
  else exists t, entry L (sender, topic) n t /\ Duration.from_secs now <= Duration.from_secs t + 3 * w.
Proof.
  intros Hc Hnow. pose proof (cache_rotated _ _ _ sender topic _ Hc Hnow) as Hrot.
  unfold check_and_insert.
  destruct (default _ (windows c !! (sender, topic))) as [cur0 prev0].
  destruct (gc_buckets cur0 prev0 now (window_duration c)) as [cur prev].
  destruct Hrot as [Hb Hage]. pose proof (buckets_answer _ _ _ _ n Hb Hage) as Hans.
  destruct (bool_decide _ || bool_decide _); split; try done.
  - by eapply cache_updated; [done|lia|done|].
  - eapply cache_updated; [done|lia|..].
    + intros k' n' t' Hne. rewrite entry_snoc. naive_solver.
    + eapply buckets_ext; [|by apply buckets_insert].
      intros n' t'. rewrite entry_snoc. naive_solver.
Qed.

Lemma remove_spec c L last peer :
  cache_ok c L last ->
  cache_ok (remove_peer c peer) (filter (fun '(p, _, _, _) => p <> peer) L) last.
Proof.
  intros [Hw Hsome Hnone].
  assert (Hent : forall k n t, entry (filter (fun '(p, _, _, _) => p <> peer) L) k n t <->
                               k.1 <> peer /\ entry L k n t).
  { intros [p to] n t. unfold entry. rewrite list_elem_of_filter. done. }
  split; cbn; [done|..].
  - intros [p to] cur prev [Hk Hp]%map_lookup_filter_Some.
    apply (buckets_ext (entry L (p, to))); [|by apply Hsome]. intros n t. rewrite Hent. naive_solver.
  - intros [p to] n t [Hk|Hk]%map_lookup_filter_None; rewrite Hent; intros [Hp He]; [by eapply Hnone|].
    destruct (windows c !! (p, to)) as [b|] eqn:Hb; [by apply (Hk b)|by eapply Hnone].
Qed.

Lemma cache_run c L last ops :
  cache_ok c L last -> clock_forward last ops ->
  let '(c', L') := foldl cache_step (c, L) ops in cache_ok c' L' (last_time last ops).
Proof.
  revert c L last. induction ops as [|[sender topic n now|peer] ops IH]; intros c L last Hc Hops;
    [done|..]; simpl in *.
  - pose proof (check_spec _ _ _ sender topic n now Hc (proj1 Hops)) as Hs.
    destruct (check_and_insert c sender topic n now) as [c' fresh]. apply IH; [|apply Hops].
    by destruct fresh; apply Hs.
  - apply IH; [|done]. by apply remove_spec.
Qed.

Lemma cache_later c L last now : cache_ok c L last -> last <= now -> cache_ok c L now.
Proof.
  intros [Hw Hsome Hnone] Hle. split; [done| |done]. intros k cur prev Hk.
  apply (buckets_later _ _ _ last); [by apply Hsome|done].
Qed.

(** The read-only probe. *)
Lemma contains_spec c L last sender topic n :
  cache_ok c L last ->
  if contains c sender topic n then exists t, entry L (sender, topic) n t
  else forall t, entry L (sender, topic) n t -> Duration.from_secs t + w < Duration.from_secs last.
Proof.
  intros [Hw Hsome Hnone]. unfold contains.
  destruct (windows c !! (sender, topic)) as [[cur prev]|] eqn:Hk.
  - destruct (Hsome _ _ _ Hk) as [Hlast Hcur Hprev Hrec Hin Hout].
    destruct (decide (n ∈ nb_nonces cur)) as [Hc|Hc].
    { rewrite bool_decide_true by done. destruct (Hcur n Hc) as (t & He & _). by exists t. }
    rewrite bool_decide_false by done. destruct (decide (n ∈ nb_nonces prev)) as [Hp|Hp].
    { rewrite bool_decide_true by done. destruct (Hprev n Hp) as (t & He & _). by exists t. }
    rewrite bool_decide_false by done. simpl. intros t He.
    destruct (N.le_gt_cases (nb_rotated_at cur) t) as [Hle|Hlt]; [by destruct Hc; eapply Hin|].
    destruct (Hout n t He Hlt) as [|]; [done|]. unfold Duration.from_secs in *. lia.
  - intros t He. by destruct (Hnone _ _ _ Hk He).
Qed.
End retention.

(** ** The claim *)

(** After any history of checks and removals with a clock that does not run backwards, the cache
    answers for the ledger of accepted nonces. A nonce it accepts was not accepted from this
    sender on this topic within the last window; a nonce it refuses was, at most three windows
    ago. The probe that does not write agrees: what it reports was accepted, and what it does
    not report was not accepted within the last window. *)
Theorem EphemeralNonceCache_retention (w : Duration) (ops : list cache_op) sender topic nonce now :
  clock_forward 0 ops -> last_time 0 ops <= now <= u64_max ->
  let '(cache, accepted) := foldl cache_step (EphemeralNonceCache_new w, []) ops in
  (if (check_and_insert cache sender topic nonce now).2
   then forall t, (sender, topic, nonce, t) ∈ accepted ->
          Duration.from_secs t + w < Duration.from_secs now
   else exists t, (sender, topic, nonce, t) ∈ accepted /\
          Duration.from_secs now <= Duration.from_secs t + 3 * w) /\
  (if contains cache sender topic nonce
   then exists t, (sender, topic, nonce, t) ∈ accepted
   else forall t, (sender, topic, nonce, t) ∈ accepted ->
          Duration.from_secs t + w < Duration.from_secs now).
Proof.
  intros Hops Hnow. pose proof (cache_run w _ _ 0 ops (cache_new w 0) Hops) as Hrun.
  destruct (foldl cache_step _ ops) as [cache accepted]. split.
  - pose proof (check_spec w _ _ _ sender topic nonce now Hrun Hnow) as Hs.
    destruct (check_and_insert cache sender topic nonce now) as [c' fresh]. apply Hs.
  - pose proof (contains_spec w _ _ _ sender topic nonce Hrun) as Hc.
    destruct (contains cache sender topic nonce); [done|]. intros t He.
    specialize (Hc t He). unfold Duration.from_secs in *. lia.
Qed.

(** A window of thirty seconds. The nonce 7 is refused ninety seconds after it was accepted,
    when the only other check came after sixty. *)
Definition slow_history : list cache_op :=
  [CheckNonce (array_pad 32 [x01]) (array_pad 32 [x02]) 7 0;
   CheckNonce (array_pad 32 [x01]) (array_pad 32 [x02]) 8 60].

(** The nonce 7 is accepted again after thirty-one seconds. *)
Definition fast_history : list cache_op :=
  [CheckNonce (array_pad 32 [x01]) (array_pad 32 [x02]) 6 0;
   CheckNonce (array_pad 32 [x01]) (array_pad 32 [x02]) 7 30;
   CheckNonce (array_pad 32 [x01]) (array_pad 32 [x02]) 8 31].

Lemma EphemeralNonceCache_retention_witness :
  let check ops now :=
    (check_and_insert (foldl cache_step (EphemeralNonceCache_new (Duration.from_secs 30), []) ops).1
       (array_pad 32 [x01]) (array_pad 32 [x02]) 7 now).2 in
  check slow_history 90 = false /\ check fast_history 62 = true /\
  forall t, (array_pad 32 [x01], array_pad 32 [x02], 7, t) ∈
      (foldl cache_step (EphemeralNonceCache_new (Duration.from_secs 30), []) fast_history).2 ->
    Duration.from_secs t + Duration.from_secs 30 < Duration.from_secs 62.
Proof.
  cbv zeta. set (new := (EphemeralNonceCache_new (Duration.from_secs 30), [])).
  assert (Hf : (check_and_insert (foldl cache_step new fast_history).1
                  (array_pad 32 [x01]) (array_pad 32 [x02]) 7 62).2 = true) by (vm_compute; reflexivity).
  split; [vm_compute; reflexivity|]. split; [exact Hf|].
  pose proof (EphemeralNonceCache_retention (Duration.from_secs 30) fast_history
                (array_pad 32 [x01]) (array_pad 32 [x02]) 7 62) as Hr. fold new in Hr.
  destruct (foldl cache_step new fast_history) as [cache accepted].
  cbn [fst snd] in *. rewrite Hf in Hr. apply Hr; [|cbn; unfold u64_max; lia].
  cbn; unfold u64_max; lia.
Defined.
