(* ===== verification/Ownership.v ===== *)
(** Tasks that own resources.

    A guard of Rust is a value that exactly one task holds until it is dropped. [owp] adds such
    values to the reasoning about [task]s: the invariant [I s held] speaks of the state and of
    the multiset [held] of all the guards that the tasks hold together, and a task may change
    only the guards of its own, whatever the others hold ([frame]). [pool_owned] is the
    soundness for a pool of any number of tasks. *)

From Stdlib Require Import NArith Lia.
From stdpp Require Import base gmap gmultiset list relations.
From S2P Require Import Prelude.
From S2P Require Import Tasks.

Section ownership.
Context {S : Type} (I : S -> gmultiset nat -> Prop).
Implicit Types (own frame : gmultiset nat).

Fixpoint owp {A} (m : task S A) own (Q : A -> gmultiset nat -> Prop) : Prop :=
  match m with
  | Ret a => Q a own
  | Act f k =>
      forall s frame, I s (own ⊎ frame) ->
        exists s' b own', f s = Some (s', b) /\ I s' (own' ⊎ frame) /\ owp (k b) own' Q
  end.

Lemma owp_mono {A} (m : task S A) own (Q Q' : A -> gmultiset nat -> Prop) :
  owp m own Q -> (forall a o, Q a o -> Q' a o) -> owp m own Q'.
Proof.
  revert own. induction m as [a|B f k IH]; simpl; intros own Hm HQ; [by apply HQ|].
  intros s frame Hs. destruct (Hm s frame Hs) as (s' & b & own' & ? & ? & ?).
  exists s', b, own'. eauto.
Qed.

Lemma owp_bind {A B} (m : task S A) (k : A -> task S B) own Q :
  owp m own (fun a o => owp (k a) o Q) -> owp (tbind m k) own Q.
Proof.
  revert own. induction m as [a|C f g IH]; simpl; intros own Hm; [done|].
  intros s frame Hs. destruct (Hm s frame Hs) as (s' & c & own' & ? & ? & ?).
  exists s', c, own'. eauto.
Qed.

Lemma owp_act {B} (f : S -> option (S * B)) own (Q : B -> gmultiset nat -> Prop) :
  (forall s frame, I s (own ⊎ frame) ->
     exists s' b own', f s = Some (s', b) /\ I s' (own' ⊎ frame) /\ Q b own') ->
  owp (act f) own Q.
Proof. done. Qed.

(** A section that only reads. *)
Lemma owp_reads {B} (f : S -> B) own (Q : B -> gmultiset nat -> Prop) :
  (forall s frame, I s (own ⊎ frame) -> Q (f s) own) -> owp (reads_state f) own Q.
Proof.
  intros HQ. apply owp_act. intros s frame Hs. exists s, (f s), own. split_and!; [done..|].
  by eapply HQ.
Qed.

Lemma owp_tfor {A B} (body : B -> A -> task S B) (J : list A -> B -> gmultiset nat -> Prop)
    seen l b own :
  (forall seen b x own, x ∈ l -> J seen b own ->
     owp (body b x) own (fun b' own' => J (seen ++ [x]) b' own')) ->
  J seen b own -> owp (tfor body b l) own (fun b' own' => J (seen ++ l) b' own').
Proof.
  revert seen b own. induction l as [|x l IH]; intros seen b own Hbody Hb.
  - simpl. by rewrite app_nil_r.
  - simpl. apply owp_bind. eapply owp_mono; [apply Hbody; [left|done]|].
    intros b' own' Hb'. simpl in Hb'. rewrite (cons_middle x seen l), app_assoc.
    apply IH; [|done]. intros seen' b'' y o Hy. apply Hbody. by right.
Qed.

End ownership.

(** Tasks without guards: each section keeps [ok], and the result satisfies [Q]. *)
Definition yields {T A} (ok : T -> Prop) (m : task T A) (Q : A -> Prop) : Prop :=
  owp (fun t _ => ok t) m ∅ (fun a _ => Q a).

Section zoom.
Context {S T : Type} (I : S -> gmultiset nat -> Prop) (get : S -> T) (set : T -> S -> S).
Context (ok : T -> Prop).
Context (get_ok : forall s held, I s held -> ok (get s)).
Context (set_ok : forall s held t, I s held -> ok t -> I (set t s) held).

(** A task of a part of the state that no guard is about. *)
Lemma owp_zoom {A} (m : task T A) (Q : A -> Prop) own own0 :
  owp (fun t _ => ok t) m own0 (fun a _ => Q a) ->
  owp I (zoom get set m) own (fun a own' => Q a /\ own' = own).
Proof using get_ok set_ok.
  revert own0. induction m as [a|B f k IH]; simpl; intros own0 Hm; [done|].
  intros s frame Hs. destruct (Hm (get s) ∅) as (t & b & own' & Hf & Ht & Hk); [by eapply get_ok|].
  rewrite Hf. exists (set t s), b, own. split_and!; [done|by apply set_ok|]. by eapply IH.
Qed.
End zoom.

(** ** Pools *)

(** Any number of tasks arrive. *)
Lemma pool_arrive {S A} (spawned : task S A -> Prop) s ts l :
  Forall spawned l -> rtc (pool_step spawned) (s, ts) (s, ts ++ l).
Proof.
  intros Hl. revert ts. induction Hl as [|t l Ht _ IH]; intros ts; [by rewrite app_nil_r|].
  rewrite cons_middle, app_assoc. eapply rtc_l; [by apply pool_spawn|]. apply IH.
Qed.

Section pool.
Context {S A : Type} (I : S -> gmultiset nat -> Prop) (spawned : task S A -> Prop).
Context (Q : A -> Prop).

(** What the tasks hold together. *)
Definition total (owns : list (gmultiset nat)) : gmultiset nat := foldr (⊎) ∅ owns.

(** Each task of the pool is verified with the guards that it holds. *)
Definition pool_ok (c : S * list (task S A)) : Prop :=
  exists owns, Forall2 (fun t own => owp I t own (fun a own' => Q a /\ own' = ∅)) c.2 owns /\
    I c.1 (total owns).

Lemma total_insert owns i own own' :
  owns !! i = Some own ->
  exists frame, total owns = own ⊎ frame /\ total (<[i := own']> owns) = own' ⊎ frame.
Proof.
  revert i. induction owns as [|o owns IH]; intros [|i] Hi; simplify_eq/=.
  - by exists (total owns).
  - destruct (IH i Hi) as (frame & -> & ->). exists (o ⊎ frame).
    split; multiset_solver.
Qed.

Lemma total_snoc owns : total (owns ++ [∅]) = total owns.
Proof.
  induction owns as [|o owns IH]; simpl; [multiset_solver|]. by rewrite IH.
Qed.

Lemma pool_ok_step c c' :
  (forall t, spawned t -> owp I t ∅ (fun a own' => Q a /\ own' = ∅)) ->
  pool_step spawned c c' -> pool_ok c -> pool_ok c'.
Proof.
  intros Hsp [s s' ts i B f k b Hi Hf|s ts t Ht] (owns & Hall & HI); simpl in *.
  - destruct (Forall2_lookup_l _ _ _ _ _ Hall Hi) as (own & Hown & Hwp). simpl in Hwp.
    destruct (total_insert owns i own ∅ Hown) as (frame & Htot & _).
    rewrite Htot in HI. destruct (Hwp s frame HI) as (t' & b' & own' & Hf' & HI' & Hk).
    rewrite Hf in Hf'. injection Hf' as <- <-.
    exists (<[i := own']> owns). split; [by apply Forall2_insert|].
    destruct (total_insert owns i own own' Hown) as (frame' & Htot' & ->).
    assert (frame' = frame) as -> by (apply (inj (disj_union own)); by rewrite <- Htot, <- Htot').
    done.
  - exists (owns ++ [∅]). rewrite total_snoc. split; [|done].
    apply Forall2_app; [done|]. constructor; [by apply Hsp|done].
Qed.

Lemma pool_owned c c' :
  (forall t, spawned t -> owp I t ∅ (fun a own' => Q a /\ own' = ∅)) ->
  rtc (pool_step spawned) c c' -> pool_ok c -> pool_ok c'.
Proof. intros Hsp. induction 1; eauto using pool_ok_step. Qed.

(** No section of a verified task panics. *)
Lemma pool_ok_safe c B (f : S -> option (S * B)) k :
  pool_ok c -> Act f k ∈ c.2 -> is_Some (f c.1).
Proof.
  intros (owns & Hall & HI) [i Hi]%list_elem_of_lookup.
  destruct (Forall2_lookup_l _ _ _ _ _ Hall Hi) as (own & Hown & Hwp). simpl in Hwp.
  destruct (total_insert owns i own ∅ Hown) as (frame & Htot & _). rewrite Htot in HI.
  destruct (Hwp _ _ HI) as (s' & b & ? & -> & _). done.
Qed.

Lemma pool_ok_empty s : I s ∅ -> pool_ok (s, []).
Proof. intros HI. exists []. by split; [constructor|]. Qed.
End pool.
