(* ===== verification/EphemeralHandler.v ===== *)
(** * The ephemeral message handler

    [subduction_ephemeral/src/handler.rs]: subscriptions of peers and of the node itself,
    publication, the receipt and relay of signed messages, and the budget of unfinished sends
    per peer. The maps are behind locks of their own; a counter of the budget is shared by the
    map of the peers and by every guard that was claimed from it, so counters live in a store
    and the map and the guards hold their addresses. *)

From Stdlib Require Import Strings.Byte NArith Lia.
From stdpp Require Import base gmap gmultiset sorting strings list.
From S2P Require Import Prelude.
From S2P Require Import Codec.
From S2P Require Import Types.
From S2P Require Import Traversal.
From S2P Require Import Signed.
From S2P Require Import NonceCache.
From S2P Require Import HandshakeWire.
From S2P Require Import Authenticated.
From S2P Require Import Tasks.
From S2P Require Import EphemeralWire.
From S2P Require Import EphemeralNonceCache.

Open Scope N_scope.

Definition MAX_INFLIGHT_EPHEMERAL_SENDS_PER_PEER : N := 64.

(** ** What the handler is given *)

(** [policy.rs] *)
Class EphemeralPolicy (Pol Ds Dp : Type) : Type := {
  authorize_subscribe : PeerId -> Topic -> task Pol (result Ds unit);
  authorize_publish : PeerId -> Topic -> task Pol (result Dp unit);
  filter_authorized_subscribers : Topic -> list PeerId -> task Pol (list PeerId)
}.

(** [Connection<EphemeralMessage>::send] *)
Class EphemeralConnection (Net Conn SendErr : Type) : Type :=
  send : Authenticated Conn -> EphemeralMessage -> task Net (result SendErr unit).

(** [config.rs] *)
Record EphemeralConfig : Type := MkEphemeralConfig {
  max_payload_size : N;
  channel_capacity : N;
  nonce_window_duration : Duration;
  max_message_age : Duration
}.

Definition EphemeralConfig_default : EphemeralConfig :=
  MkEphemeralConfig 65536 1024 (Duration.from_secs 30) (Duration.from_secs 30).

Record EphemeralEvent : Type := MkEphemeralEvent {
  ev_id : Topic;
  ev_sender : PeerId;
  ev_nonce : N;
  ev_payload : list byte
}.

#[export] Instance EphemeralEvent_eq_dec : EqDecision EphemeralEvent.
Proof. solve_decision. Defined.

(** A bounded channel: the events that it took, how many of them were received, and whether
    the receiver exists. *)
Record Channel : Type := MkChannel {
  ch_sent : list EphemeralEvent;
  ch_received : nat;
  ch_open : bool
}.

Definition try_send (capacity : N) (event : EphemeralEvent) (ch : Channel) : Channel * bool :=
  if ch_open ch && (len (drop (ch_received ch) (ch_sent ch)) <? capacity)
  then (MkChannel (ch_sent ch ++ [event]) (ch_received ch) (ch_open ch), true)
  else (ch, false).

(** ** The state *)

(** The address of a counter. *)
Notation InflightGuard := nat (only parsing).

Record EphemeralFanOut (Conn : Type) : Type := MkEphemeralFanOut {
  ef_message : EphemeralMessage;
  ef_targets : list (Authenticated Conn * InflightGuard)
}.
Arguments MkEphemeralFanOut {_} _ _.
Arguments ef_message {_} _.
Arguments ef_targets {_} _.

(** The budget: a counter for each connected peer, and the store of all counters. *)
Record Inflight : Type := MkInflight {
  inflight_sends : gmap PeerId nat;
  counters : list N
}.

Record EphemeralHandler (Pol Net Conn : Type) : Type := MkEphemeralHandler {
  ephemeral_subscriptions : gmap Topic (gset PeerId);
  outgoing_subscriptions : gset Topic;
  connections : gmap PeerId (list (Authenticated Conn));
  policy : Pol;
  net : Net;
  callback : Channel;
  clock : TimestampSeconds;
  nonce_cache : EphemeralNonceCache;
  inflight : Inflight;
  (** what was handed to the executor and has not started *)
  spawned : list (EphemeralFanOut Conn)
}.
Arguments MkEphemeralHandler {_ _ _} _ _ _ _ _ _ _ _ _ _.
Arguments ephemeral_subscriptions {_ _ _} _.
Arguments outgoing_subscriptions {_ _ _} _.
Arguments connections {_ _ _} _.
Arguments policy {_ _ _} _.
Arguments net {_ _ _} _.
Arguments callback {_ _ _} _.
Arguments clock {_ _ _} _.
Arguments nonce_cache {_ _ _} _.
Arguments inflight {_ _ _} _.
Arguments spawned {_ _ _} _.

(** [EphemeralHandler::new] *)
Definition EphemeralHandler_new {Pol Net Conn} (config : EphemeralConfig)
    (connections : gmap PeerId (list (Authenticated Conn))) (policy : Pol) (net : Net)
    (clock : TimestampSeconds) : EphemeralHandler Pol Net Conn :=
  MkEphemeralHandler ∅ ∅ connections policy net (MkChannel [] 0 true) clock
    (EphemeralNonceCache_new (nonce_window_duration config)) (MkInflight ∅ []) [].

Section fields.
Context {Pol Net Conn : Type}.
Notation state := (EphemeralHandler Pol Net Conn).
Implicit Type s : state.

Definition set_ephemeral_subscriptions x s : state :=
  MkEphemeralHandler x (outgoing_subscriptions s) (connections s) (policy s) (net s) (callback s)
    (clock s) (nonce_cache s) (inflight s) (spawned s).
Definition set_outgoing_subscriptions x s : state :=
  MkEphemeralHandler (ephemeral_subscriptions s) x (connections s) (policy s) (net s) (callback s)
    (clock s) (nonce_cache s) (inflight s) (spawned s).
Definition set_connections x s : state :=
  MkEphemeralHandler (ephemeral_subscriptions s) (outgoing_subscriptions s) x (policy s) (net s)
    (callback s) (clock s) (nonce_cache s) (inflight s) (spawned s).
Definition set_policy x s : state :=
  MkEphemeralHandler (ephemeral_subscriptions s) (outgoing_subscriptions s) (connections s) x
    (net s) (callback s) (clock s) (nonce_cache s) (inflight s) (spawned s).
Definition set_net x s : state :=
  MkEphemeralHandler (ephemeral_subscriptions s) (outgoing_subscriptions s) (connections s)
    (policy s) x (callback s) (clock s) (nonce_cache s) (inflight s) (spawned s).
Definition set_callback x s : state :=
  MkEphemeralHandler (ephemeral_subscriptions s) (outgoing_subscriptions s) (connections s)
    (policy s) (net s) x (clock s) (nonce_cache s) (inflight s) (spawned s).
Definition set_clock x s : state :=
  MkEphemeralHandler (ephemeral_subscriptions s) (outgoing_subscriptions s) (connections s)
    (policy s) (net s) (callback s) x (nonce_cache s) (inflight s) (spawned s).
Definition set_nonce_cache x s : state :=
  MkEphemeralHandler (ephemeral_subscriptions s) (outgoing_subscriptions s) (connections s)
    (policy s) (net s) (callback s) (clock s) x (inflight s) (spawned s).
Definition set_inflight x s : state :=
  MkEphemeralHandler (ephemeral_subscriptions s) (outgoing_subscriptions s) (connections s)
    (policy s) (net s) (callback s) (clock s) (nonce_cache s) x (spawned s).
Definition set_spawned x s : state :=
  MkEphemeralHandler (ephemeral_subscriptions s) (outgoing_subscriptions s) (connections s)
    (policy s) (net s) (callback s) (clock s) (nonce_cache s) (inflight s) x.

(** A critical section of one field. *)
Definition with_field {F R} (get : state -> F) (set : F -> state -> state) (f : F -> F * R) :
  task state R :=
  act (fun s => let '(x, r) := f (get s) in Some (set x s, r)).

Definition on_policy {R} (m : task Pol R) : task state R := zoom policy set_policy m.
Definition on_net {R} (m : task Net R) : task state R := zoom net set_net m.
End fields.

Section handler.
Context `{HashIter, Ed25519, Bijou64} {Pol Ds Dp Net Conn SendErr : Type}.
Context `{!EphemeralPolicy Pol Ds Dp} `{!EphemeralConnection Net Conn SendErr}.
Context (config : EphemeralConfig).
Notation state := (EphemeralHandler Pol Net Conn).

(** ** The budget of sends *)

(** The counter of the peer, which is made if it has none. *)
Definition counter_of (peer : PeerId) (x : Inflight) : nat * Inflight :=
  match inflight_sends x !! peer with
  | Some addr => (addr, x)
  | None => (length (counters x),
             MkInflight (<[peer := length (counters x)]> (inflight_sends x)) (counters x ++ [0]))
  end.

(** [InflightGuard::admit] on the counter of the peer, for one target of a fan-out. The map stays
    locked for all the targets, and guards may be dropped between them. *)
Definition InflightGuard_admit (peer : PeerId) : task state (option InflightGuard) :=
  act (fun s =>
    let '(addr, x) := counter_of peer (inflight s) in
    match counters x !! addr with
    | Some n =>
        if n <? MAX_INFLIGHT_EPHEMERAL_SENDS_PER_PEER
        then Some (set_inflight (MkInflight (inflight_sends x) (<[addr := n + 1]> (counters x))) s,
                   Some addr)
        else Some (set_inflight x s, None)
    | None => None
    end).

(** [Drop for InflightGuard]: [fetch_sub] wraps around. *)
Definition drop_guard (guard : InflightGuard) : task state unit :=
  act (fun s =>
    let x := inflight s in
    match counters x !! guard with
    | Some n =>
        Some (set_inflight (MkInflight (inflight_sends x)
                (<[guard := as_u64 (n + u64_max)]> (counters x))) s, tt)
    | None => None
    end).

Definition admit_fan_out (message : EphemeralMessage) (targets : list (Authenticated Conn)) :
  task state (option (EphemeralFanOut Conn)) :=
  await admitted := tfor (fun admitted conn =>
      await guard := InflightGuard_admit (au_peer_id conn) in
      Ret (match guard with Some guard => admitted ++ [(conn, guard)] | None => admitted end))
    [] targets in
  match admitted with
  | [] => Ret None
  | _ => Ret (Some (MkEphemeralFanOut message admitted))
  end.

(** [EphemeralFanOut::run]; each guard is dropped when its own send is over. *)
Definition run_fan_out (fan_out : EphemeralFanOut Conn) : task state unit :=
  tfor (fun _ '(conn, guard) =>
      await _ := on_net (send conn (ef_message fan_out)) in
      drop_guard guard)
    tt (ef_targets fan_out).

(** A fan-out that is dropped before it runs. *)
Definition drop_fan_out (fan_out : EphemeralFanOut Conn) : task state unit :=
  tfor (fun _ '(_, guard) => drop_guard guard) tt (ef_targets fan_out).

(** The executor takes a spawned fan-out, to run it or to drop it. *)
Definition take_spawned (i : nat) : task state (option (EphemeralFanOut Conn)) :=
  with_field spawned set_spawned (fun l => (delete i l, l !! i)).

Definition run_spawned (i : nat) (runs : bool) : task state unit :=
  await job := take_spawned i in
  match job with
  | Some fan_out => if runs then run_fan_out fan_out else drop_fan_out fan_out
  | None => Ret tt
  end.

(** ** The application's side *)

(** The connections of these peers. *)
Definition conns_of (peers : list PeerId) (s : state) : list (Authenticated Conn) :=
  mbind (M:=list) (fun peer => default [] (connections s !! peer)) peers.

Definition publish (msg : EphemeralMessage) : task state unit :=
  match msg with
  | EM_Ephemeral signed =>
      match EphemeralCodec.try_decode_header (fields_bytes signed) with
      | Err _ => Ret tt
      | Ok header =>
          let id := eph_id header in
          let nonce := eph_nonce header in
          let issuer := sg_issuer signed in
          if max_payload_size config <? eph_payload_len header then Ret tt
          else
            await now := reads_state (fun s : state => clock s) in
            await fresh := with_field nonce_cache set_nonce_cache (fun cache =>
              check_and_insert cache issuer id nonce now) in
            if negb fresh then Ret tt
            else
              await target_peers := reads_state (fun s : state =>
                default ∅ (ephemeral_subscriptions s !! id)) in
              await is_outgoing := reads_state (fun s : state =>
                bool_decide (id ∈ outgoing_subscriptions s)) in
              await target_peers :=
                (if is_outgoing
                 then reads_state (fun s : state => target_peers ∪ list_to_set (hash_keys (connections s)))
                 else Ret target_peers) in
              if bool_decide (target_peers = ∅) then Ret tt
              else
                await authorized_peers :=
                  on_policy (filter_authorized_subscribers id (hashset_iter target_peers)) in
                if bool_decide (authorized_peers = []) then Ret tt
                else
                  await targets := reads_state (conns_of authorized_peers) in
                  await fan_out := admit_fan_out msg targets in
                  match fan_out with
                  | Some fan_out => run_fan_out fan_out
                  | None => Ret tt
                  end
      end
  | _ => Ret tt
  end.

(** The sends of [send_to_all_peers] and [subscribe_peer], whose errors are logged. *)
Definition send_all (msg : EphemeralMessage) (targets : list (Authenticated Conn)) : task state unit :=
  tfor (fun _ conn => await _ := on_net (send conn msg) in Ret tt) tt targets.

Definition send_to_all_peers (msg : EphemeralMessage) : task state unit :=
  await targets := reads_state (fun s : state => concat (hash_values (connections s))) in
  send_all msg targets.

Definition subscribe (topics : NonEmpty Topic) : task state unit :=
  await _ := with_field outgoing_subscriptions set_outgoing_subscriptions (fun outgoing =>
    (foldl (fun outgoing topic => {[topic]} ∪ outgoing) outgoing (ne_list topics), tt)) in
  send_to_all_peers (EM_Subscribe topics).

Definition unsubscribe (topics : NonEmpty Topic) : task state unit :=
  await _ := with_field outgoing_subscriptions set_outgoing_subscriptions (fun outgoing =>
    (foldl (fun outgoing topic => outgoing ∖ {[topic]}) outgoing (ne_list topics), tt)) in
  send_to_all_peers (EM_Unsubscribe topics).

Definition subscribe_peer (peer_id : PeerId) : task state unit :=
  await topics := reads_state (fun s : state => hashset_iter (outgoing_subscriptions s)) in
  match ne_from_vec topics with
  | None => Ret tt
  | Some topics =>
      await targets := reads_state (fun s : state => default [] (connections s !! peer_id)) in
      send_all (EM_Subscribe topics) targets
  end.

(** ** Inbound messages *)

Definition recv_ephemeral (conn : Authenticated Conn) (message : EphemeralMessage) :
  task state (option (EphemeralFanOut Conn)) :=
  match message with
  | EM_Ephemeral signed =>
      let relay := au_peer_id conn in
      let sender := sg_issuer signed in
      match EphemeralCodec.try_decode_header (fields_bytes signed) with
      | Err _ => Ret None
      | Ok header =>
          if max_payload_size config <? eph_payload_len header then Ret None
          else
            await now := reads_state (fun s : state => clock s) in
            if max_message_age config <? abs_diff now (eph_timestamp header) then Ret None
            else
              await seen := reads_state (fun s : state =>
                contains (nonce_cache s) sender (eph_id header) (eph_nonce header)) in
              if (seen : bool) then Ret None
              else
                match try_from_signed signed with
                | Err _ => Ret None
                | Ok verified =>
                    let ep := vs_payload verified in
                    let id := ep_id ep in
                    let nonce := ep_nonce ep in
                    await fresh := with_field nonce_cache set_nonce_cache (fun cache =>
                      check_and_insert cache sender id nonce now) in
                    if negb fresh then Ret None
                    else
                      await allowed := on_policy (authorize_publish sender id) in
                      match allowed with
                      | Err _ => Ret None
                      | Ok _ =>
                          let event := MkEphemeralEvent id sender nonce (ep_payload ep) in
                          await _ := with_field callback set_callback
                                       (try_send (channel_capacity config) event) in
                          await subscriber_peers := reads_state (fun s : state =>
                            match ephemeral_subscriptions s !! id with
                            | Some peers =>
                                filter (fun p => p <> relay /\ p <> sender) (hashset_iter peers)
                            | None => []
                            end) in
                          if bool_decide (subscriber_peers = []) then Ret None
                          else
                            await authorized_peers :=
                              on_policy (filter_authorized_subscribers id subscriber_peers) in
                            await targets := reads_state (conns_of authorized_peers) in
                            admit_fan_out message targets
                      end
                end
      end
  | _ => Ret None
  end.

Definition recv_subscribe (conn : Authenticated Conn) (topics : NonEmpty Topic) : task state unit :=
  let peer := au_peer_id conn in
  await '(authorized, rejected) := tfor (fun '(authorized, rejected) topic =>
      await allowed := on_policy (authorize_subscribe peer topic) in
      Ret (match allowed with
           | Err _ => (authorized, rejected ++ [topic])
           | Ok _ => (authorized ++ [topic], rejected)
           end))
    ([], []) (ne_list topics) in
  await _ :=
    match authorized with
    | [] => Ret tt
    | _ => with_field ephemeral_subscriptions set_ephemeral_subscriptions (fun subs =>
             (foldl (fun subs topic => <[topic := {[peer]} ∪ default ∅ (subs !! topic)]> subs)
                subs authorized, tt))
    end in
  match ne_from_vec rejected with
  | Some rejected => await _ := on_net (send conn (EM_SubscribeRejected rejected)) in Ret tt
  | None => Ret tt
  end.

(** One topic of [recv_unsubscribe]. *)
Definition leave (peer : PeerId) (subs : gmap Topic (gset PeerId)) (topic : Topic) :
  gmap Topic (gset PeerId) :=
  match subs !! topic with
  | Some peers =>
      let peers := peers ∖ {[peer]} in
      if bool_decide (peers = ∅) then delete topic subs else <[topic := peers]> subs
  | None => subs
  end.

Definition recv_unsubscribe (conn : Authenticated Conn) (topics : NonEmpty Topic) : task state unit :=
  with_field ephemeral_subscriptions set_ephemeral_subscriptions (fun subs =>
    (foldl (leave (au_peer_id conn)) subs (ne_list topics), tt)).

(** The result of [dispatch] is never an error, and is not wrapped here. *)
Definition dispatch (conn : Authenticated Conn) (message : EphemeralMessage) :
  task state (option (EphemeralFanOut Conn)) :=
  match message with
  | EM_Ephemeral _ => recv_ephemeral conn message
  | EM_Subscribe topics => await _ := recv_subscribe conn topics in Ret None
  | EM_Unsubscribe topics => await _ := recv_unsubscribe conn topics in Ret None
  | EM_SubscribeRejected _ => Ret None
  end.

(** [Handler::handle]; the sends of a fan-out are spawned. *)
Definition handle (conn : Authenticated Conn) (message : EphemeralMessage) : task state unit :=
  await fan_out := dispatch conn message in
  match fan_out with
  | Some fan_out =>
      with_field spawned set_spawned (fun l => (l ++ [fan_out], tt))
  | None => Ret tt
  end.

Definition on_peer_disconnect (peer : PeerId) : task state unit :=
  await _ := with_field ephemeral_subscriptions set_ephemeral_subscriptions (fun subs =>
    (filter (fun '(_, peers) => peers <> ∅)
       ((fun peers : gset PeerId => peers ∖ {[peer]}) <$> subs), tt)) in
  await _ := with_field nonce_cache set_nonce_cache (fun cache => (remove_peer cache peer, tt)) in
  with_field inflight set_inflight (fun x =>
    (MkInflight (delete peer (inflight_sends x)) (counters x), tt)).
End handler.
