(* ===== verification/EphemeralSpec.v ===== *)
(** * What the ephemeral handler promises

    For tasks of the handler that interleave in any way: only genuine messages of authorised
    senders are delivered, only authorised subscribers are sent to, and the budget of unfinished
    sends is kept. *)

From Stdlib Require Import Strings.Byte NArith Lia.
From stdpp Require Import base gmap gmultiset sorting strings list relations.
From S2P Require Import Prelude.
From S2P Require Import Codec.
From S2P Require Import Types.
From S2P Require Import Traversal.
From S2P Require Import Signed.
From S2P Require Import NonceCache.
From S2P Require Import HandshakeWire.
From S2P Require Import Authenticated.
From S2P Require Import Tasks.
From S2P Require Import Ownership.
From S2P Require Import EphemeralWire.
From S2P Require Import EphemeralNonceCache.
From S2P Require Import EphemeralHandler.

Open Scope N_scope.

(** ** The parts the handler is given *)

Class EphemeralPolicyLaws (Pol Ds Dp : Type) `{!EphemeralPolicy Pol Ds Dp}
    (may_subscribe may_publish : PeerId -> Topic -> Prop) : Prop := {
  subscribe_law peer topic :
    yields (fun _ => True) (authorize_subscribe peer topic)
      (fun r => is_ok r = true -> may_subscribe peer topic);
  publish_law peer topic :
    yields (fun _ => True) (authorize_publish peer topic)
      (fun r => is_ok r = true -> may_publish peer topic);
  filter_law topic peers :
    yields (fun _ => True) (filter_authorized_subscribers topic peers)
      (fun l => l ⊆ peers /\ Forall (fun p => may_subscribe p topic) l)
}.

(** What a transport was given to send, and nothing else. *)
Class EphemeralConnectionLaws (Net Conn SendErr : Type) `{!EphemeralConnection Net Conn SendErr}
    (net_sent : Net -> list (Authenticated Conn * EphemeralMessage)) : Prop :=
  send_law (good : Authenticated Conn * EphemeralMessage -> Prop) conn msg :
    good (conn, msg) ->
    yields (fun net => Forall good (net_sent net)) (send conn msg) (fun _ => True).

(** ** The budget *)

Definition guards_of {Conn} (targets : list (Authenticated Conn * InflightGuard)) : gmultiset nat :=
  list_to_set_disj targets.*2.

Definition spawned_guards {Conn} (jobs : list (EphemeralFanOut Conn)) : gmultiset nat :=
  guards_of (mbind (M:=list) ef_targets jobs).

(** Every counter counts the guards on it. *)
Record budget_ok (x : Inflight) (guards : gmultiset nat) : Prop := {
  bu_count a n : counters x !! a = Some n ->
    n = N.of_nat (multiplicity a guards) /\ n <= MAX_INFLIGHT_EPHEMERAL_SENDS_PER_PEER;
  bu_guard a : a ∈ guards -> (a < length (counters x))%nat;
  bu_map p a : inflight_sends x !! p = Some a -> (a < length (counters x))%nat
}.

Lemma budget_new : budget_ok (MkInflight ∅ []) ∅.
Proof.
  split; cbn [counters inflight_sends]; [by intros a n; rewrite lookup_nil|multiset_solver|by intros p a; rewrite lookup_empty].
Qed.

Lemma budget_counter x guards peer addr x' :
  budget_ok x guards -> counter_of peer x = (addr, x') ->
  budget_ok x' guards /\ (addr < length (counters x'))%nat.
Proof.
  intros Hb. unfold counter_of. destruct (inflight_sends x !! peer) as [a|] eqn:Hp.
  { intros [= <- <-]. split; [done|]. by eapply bu_map. }
  intros [= <- <-]. cbn. rewrite length_app. simpl. split; [|lia]. split; cbn [counters inflight_sends].
  - intros a n [Ha|[Hge Ha]]%lookup_app_Some; [by eapply bu_count|].
    apply list_lookup_singleton_Some in Ha as [Ha <-]. split; [|done].
    destruct (decide (a ∈ guards)) as [Hin|Hin]; [apply (bu_guard _ _ Hb) in Hin; lia|].
    by apply not_elem_of_multiplicity in Hin as ->.
  - intros a Ha. rewrite length_app. apply (bu_guard _ _ Hb) in Ha. simpl. lia.
  - intros p a. rewrite length_app. simpl. destruct (decide (p = peer)) as [-> |Hne].
    + rewrite lookup_insert_eq. intros [= <-]. lia.
    + rewrite lookup_insert_ne by done. intros Ha. apply (bu_map _ _ Hb) in Ha. lia.
Qed.

Lemma budget_admit x guards a n :
  budget_ok x guards -> counters x !! a = Some n -> n < MAX_INFLIGHT_EPHEMERAL_SENDS_PER_PEER ->
  budget_ok (MkInflight (inflight_sends x) (<[a := n + 1]> (counters x))) ({[+ a +]} ⊎ guards).
Proof.
  intros Hb Ha Hn. assert (Hlen : (a < length (counters x))%nat) by (by eapply lookup_lt_Some).
  split; cbn [counters inflight_sends]; [|rewrite length_insert..].
  - intros b m. destruct (decide (b = a)) as [-> |Hne].
    + rewrite list_lookup_insert_eq by done. intros [= <-].
      destruct (bu_count _ _ Hb a n Ha) as [Heq _].
      rewrite multiplicity_disj_union, multiplicity_singleton_eq. lia.
    + rewrite list_lookup_insert_ne by done. intros Hm.
      rewrite multiplicity_disj_union, multiplicity_singleton_ne by done. by eapply bu_count.
  - intros b. rewrite gmultiset_elem_of_disj_union, gmultiset_elem_of_singleton.
    intros [-> |Hin]; [done|by eapply bu_guard].
  - intros p b. by eapply bu_map.
Qed.

Lemma budget_drop x guards a :
  budget_ok x ({[+ a +]} ⊎ guards) ->
  exists n, counters x !! a = Some n /\
    budget_ok (MkInflight (inflight_sends x) (<[a := as_u64 (n + u64_max)]> (counters x))) guards.
Proof.
  intros Hb. assert (Hlen : (a < length (counters x))%nat) by (eapply bu_guard; [done|]; multiset_solver).
  destruct (lookup_lt_is_Some_2 _ _ Hlen) as [n Hn]. exists n. split; [done|].
  destruct (bu_count _ _ Hb a n Hn) as [Heq Hmax].
  rewrite multiplicity_disj_union, multiplicity_singleton_eq in Heq.
  assert (Hsub : as_u64 (n + u64_max) = n - 1).
  { unfold as_u64, u64_max, MAX_INFLIGHT_EPHEMERAL_SENDS_PER_PEER in *. symmetry.
    apply (N.mod_unique _ _ 1); lia. }
  rewrite Hsub. split; cbn [counters inflight_sends]; [|rewrite length_insert..].
  - intros b m. destruct (decide (b = a)) as [-> |Hne].
    + rewrite list_lookup_insert_eq by done. intros [= <-]. lia.
    + rewrite list_lookup_insert_ne by done. intros Hm. destruct (bu_count _ _ Hb b m Hm) as [-> ?].
      by rewrite multiplicity_disj_union, multiplicity_singleton_ne in * by done.
  - intros b Hin. eapply bu_guard; [done|]. multiset_solver.
  - intros p b. by eapply bu_map.
Qed.

Lemma budget_forget x guards peer :
  budget_ok x guards -> budget_ok (MkInflight (delete peer (inflight_sends x)) (counters x)) guards.
Proof.
  intros Hb. split; cbn [counters inflight_sends]; [apply Hb|apply Hb|]. intros p a [_ Ha]%lookup_delete_Some. by eapply bu_map.
Qed.

(** ** The invariant *)

Section spec.
Context `{HashIter, Ed25519, Bijou64Laws} {Pol Ds Dp Net Conn SendErr : Type}.
Context `{!EphemeralPolicy Pol Ds Dp} `{!EphemeralConnection Net Conn SendErr}.
Context {may_subscribe may_publish : PeerId -> Topic -> Prop}.
Context {net_sent : Net -> list (Authenticated Conn * EphemeralMessage)}.
Context `{!EphemeralPolicyLaws Pol Ds Dp may_subscribe may_publish}.
Context `{!EphemeralConnectionLaws Net Conn SendErr net_sent}.
Context (config : EphemeralConfig) (published : Signed EphemeralPayload -> Prop).
Notation state := (EphemeralHandler Pol Net Conn).
Implicit Types (s : state) (own held : gmultiset nat).

(** The event of a message that its sender signed, and may publish. *)
Definition genuine (event : EphemeralEvent) : Prop :=
  exists signed payload,
    try_from_signed signed = Ok (VerifiedSignature_from_parts signed payload) /\
    event = MkEphemeralEvent (ep_id payload) (sg_issuer signed) (ep_nonce payload) (ep_payload payload) /\
    len (ep_payload payload) <= max_payload_size config /\
    may_publish (sg_issuer signed) (ep_id payload).

(** To whom a signed message may go: to a peer that may subscribe to its topic, and if it was not
    published here, only with a good signature of a sender that may publish, and not to them. *)
Definition good (sent : Authenticated Conn * EphemeralMessage) : Prop :=
  match sent.2 with
  | EM_Ephemeral signed =>
      exists header, EphemeralCodec.try_decode_header (fields_bytes signed) = Ok header /\
        eph_payload_len header <= max_payload_size config /\
        may_subscribe (au_peer_id sent.1) (eph_id header) /\
        (published signed \/
         (is_ok (try_from_signed signed) = true /\ may_publish (sg_issuer signed) (eph_id header) /\
          au_peer_id sent.1 <> sg_issuer signed))
  | _ => True
  end.

Definition targets_good (message : EphemeralMessage) (targets : list (Authenticated Conn)) : Prop :=
  Forall (fun conn => good (conn, message)) targets.

Definition subscriptions_ok (subs : gmap Topic (gset PeerId)) : Prop :=
  forall topic peers, subs !! topic = Some peers -> forall p, p ∈ peers -> may_subscribe p topic.

Definition connections_ok (conns : gmap PeerId (list (Authenticated Conn))) : Prop :=
  forall p l, conns !! p = Some l -> forall c, c ∈ l -> au_peer_id c = p.

Definition channel_ok (ch : Channel) : Prop :=
  Forall genuine (ch_sent ch) /\ len (drop (ch_received ch) (ch_sent ch)) <= channel_capacity config.

Record handler_ok s held : Prop := {
  ho_subscriptions : subscriptions_ok (ephemeral_subscriptions s);
  ho_connections : connections_ok (connections s);
  ho_net : Forall good (net_sent (net s));
  ho_callback : channel_ok (callback s);
  ho_spawned : Forall (fun job => targets_good (ef_message job) (ef_targets job).*1) (spawned s);
  ho_budget : budget_ok (inflight s) (held ⊎ spawned_guards (spawned s))
}.

Notation owp := (owp handler_ok).

(** ** Sections *)

(** A section on a field that no guard is about. *)
Lemma field_spec {F R} (get : state -> F) set (f : F -> F * R) own (Q : R -> Prop) :
  (forall s held, handler_ok s held ->
     handler_ok (set (f (get s)).1 s) held /\ Q (f (get s)).2) ->
  owp (with_field get set f) own (fun r own' => Q r /\ own' = own).
Proof.
  intros Hf. apply owp_act. intros s frame Hs. destruct (Hf _ _ Hs) as [Hok HQ].
  destruct (f (get s)) as [x r]. by exists (set x s), r, own.
Qed.

(** The setters and the parts of the invariant they do not touch. *)
Local Ltac kept Hs :=
  split; cbn [ephemeral_subscriptions connections net callback inflight spawned
    set_ephemeral_subscriptions set_outgoing_subscriptions set_connections set_policy set_net
    set_callback set_clock set_nonce_cache set_inflight set_spawned]; try apply Hs; try done.

Lemma policy_spec {R} (m : task Pol R) own (Q : R -> Prop) :
  yields (fun _ => True) m Q -> owp (on_policy m) own (fun r own' => Q r /\ own' = own).
Proof. intros Hm. apply (owp_zoom _ _ _ (fun _ => True) (fun _ _ _ => I)) with (own0 := ∅); [|exact Hm].
  intros s held t Hs _. kept Hs. Qed.

Lemma ephemeral_send_spec conn msg own :
  good (conn, msg) -> owp (on_net (send conn msg)) own (fun _ own' => own' = own).
Proof.
  intros Hg. eapply (owp_mono _ _ _ (fun _ o => True /\ o = own)); [|by intros r o [_ ->]].
  eapply (owp_zoom _ _ _ (fun net => Forall good (net_sent net)));
    [by intros s held []| |by apply send_law]. intros s held t Hs Ht. kept Hs.
Qed.

Lemma clock_read own : owp (reads_state (fun s : state => clock s)) own (fun _ own' => own' = own).
Proof. by apply owp_reads. Qed.

Lemma cache_spec {R} (f : EphemeralNonceCache -> EphemeralNonceCache * R) own :
  owp (with_field nonce_cache set_nonce_cache f) own (fun _ own' => own' = own).
Proof.
  eapply owp_mono; [apply (field_spec _ _ _ _ (fun _ => True))|by intros r o [_ ->]].
  intros s held Hs. split; [kept Hs|done].
Qed.

(** ** The budget of sends *)

Lemma admit_spec peer own :
  owp (InflightGuard_admit peer) own (fun g own' =>
    own' = match g with Some a => {[+ a +]} ⊎ own | None => own end).
Proof.
  apply owp_act. intros s frame Hs. destruct (counter_of peer (inflight s)) as [addr x] eqn:Hx.
  destruct (budget_counter _ _ _ _ _ (ho_budget _ _ Hs) Hx) as [Hb Hlt].
  destruct (lookup_lt_is_Some_2 _ _ Hlt) as [n Hn]. rewrite Hn.
  destruct (N.ltb_spec n MAX_INFLIGHT_EPHEMERAL_SENDS_PER_PEER) as [Hlt'|Hge].
  - eexists _, (Some addr), ({[+ addr +]} ⊎ own). split_and!; [done| |done]. kept Hs.
    rewrite <- !(assoc_L (⊎)). apply (budget_admit x); [|done..].
    by rewrite (assoc_L (⊎)).
  - exists (set_inflight x s), None, own. split_and!; [done| |done]. kept Hs.
Qed.

Lemma drop_guard_spec a own :
  owp (drop_guard a) ({[+ a +]} ⊎ own) (fun _ own' => own' = own).
Proof.
  apply owp_act. intros s frame Hs. pose proof (ho_budget _ _ Hs) as Hb.
  rewrite <- !(assoc_L (⊎)) in Hb. destruct (budget_drop _ _ _ Hb) as (n & Hn & Hb'). cbv zeta. rewrite Hn.
  eexists _, tt, own. split_and!; [done| |done]. kept Hs. by rewrite <- (assoc_L (⊎)).
Qed.

Lemma guards_of_cons conn (a : InflightGuard) (targets : list (Authenticated Conn * InflightGuard)) :
  guards_of ((conn, a) :: targets) = {[+ a +]} ⊎ guards_of targets.
Proof. done. Qed.

Lemma guards_of_app (l k : list (Authenticated Conn * InflightGuard)) :
  guards_of (l ++ k) = guards_of l ⊎ guards_of k.
Proof. unfold guards_of. by rewrite fmap_app, list_to_set_disj_app. Qed.

Lemma admit_fan_out_spec message targets :
  targets_good message targets ->
  owp (admit_fan_out message targets) ∅ (fun o own' =>
    match o with
    | Some f => own' = guards_of (ef_targets f) /\ targets_good (ef_message f) (ef_targets f).*1
    | None => own' = ∅
    end).
Proof.
  intros Hg. unfold admit_fan_out. apply owp_bind.
  eapply owp_mono; [apply (owp_tfor _ _ (fun _ admitted own =>
    own = guards_of admitted /\ targets_good message admitted.*1) [])|].
  - intros seen admitted conn own Hin [-> Hadm]. apply owp_bind.
    eapply owp_mono; [apply admit_spec|]. intros [a|] own' ->; simpl; [|done].
    rewrite guards_of_app, guards_of_cons, fmap_app. split; [multiset_solver|].
    apply Forall_app. split; [done|]. constructor; [|done]. by apply (proj1 (Forall_forall _ _) Hg).
  - by split; [|constructor].
  - intros [|x admitted] own' [-> Hadm]; [done|]. done.
Qed.

Lemma run_fan_out_spec fan_out :
  targets_good (ef_message fan_out) (ef_targets fan_out).*1 ->
  owp (run_fan_out fan_out) (guards_of (ef_targets fan_out)) (fun _ own' => own' = ∅).
Proof.
  unfold run_fan_out. generalize (ef_targets fan_out) as targets.
  induction targets as [|[conn a] targets IH]; intros Hg; [done|].
  apply Forall_cons in Hg as [Hc Hg]. rewrite guards_of_cons. cbn [tfor]. apply owp_bind, owp_bind.
  eapply owp_mono; [by apply ephemeral_send_spec|]. intros r own' ->.
  eapply owp_mono; [apply drop_guard_spec|]. intros [] own' ->. by apply IH.
Qed.

Lemma drop_fan_out_spec fan_out :
  owp (drop_fan_out fan_out) (guards_of (ef_targets fan_out)) (fun _ own' => own' = ∅).
Proof.
  unfold drop_fan_out. generalize (ef_targets fan_out) as targets.
  induction targets as [|[conn a] targets IH]; [done|].
  rewrite guards_of_cons. cbn [tfor]. apply owp_bind.
  eapply owp_mono; [apply drop_guard_spec|]. intros [] own' ->. exact IH.
Qed.

(** A fan-out goes to the executor with its guards. *)
Lemma ephemeral_spawn_spec fan_out :
  targets_good (ef_message fan_out) (ef_targets fan_out).*1 ->
  owp (with_field spawned set_spawned (fun l => (l ++ [fan_out], tt)))
    (guards_of (ef_targets fan_out)) (fun _ own' => own' = ∅).
Proof.
  intros Hg. apply owp_act. intros s frame Hs. eexists _, tt, ∅. split_and!; [done| |done]. kept Hs.
  - apply Forall_app. split; [apply Hs|by constructor].
  - pose proof (ho_budget _ _ Hs) as Hb. unfold spawned_guards in *.
    rewrite bind_app, guards_of_app. simpl. rewrite app_nil_r.
    replace (∅ ⊎ frame ⊎ _) with
      (guards_of (ef_targets fan_out) ⊎ frame ⊎ guards_of (spawned s ≫= ef_targets)); [done|].
    multiset_solver.
Qed.

Lemma ephemeral_run_spawned_spec i runs : owp (run_spawned i runs) ∅ (fun _ own' => own' = ∅).
Proof.
  unfold run_spawned. apply owp_bind, owp_act. intros s frame Hs. simpl.
  destruct (spawned s !! i) as [job|] eqn:Hi.
  - exists (set_spawned (delete i (spawned s)) s), (Some job), (guards_of (ef_targets job)).
    split_and!; [done| |].
    + pose proof (ho_spawned _ _ Hs) as Hg. pose proof (ho_budget _ _ Hs) as Hb.
      rewrite <- (take_drop_middle _ _ _ Hi) in Hb, Hg.
      apply Forall_app in Hg as [Hg1 [Hg2 Hg3]%Forall_cons].
      kept Hs; rewrite delete_take_drop; [by apply Forall_app|]. unfold spawned_guards in *.
      rewrite bind_app, bind_cons, !guards_of_app in Hb. rewrite bind_app, guards_of_app.
      match type of Hb with budget_ok _ ?m =>
        replace (guards_of (ef_targets job) ⊎ frame ⊎ _) with m by multiset_solver end. done.
    + pose proof (ho_spawned _ _ Hs) as Hg. eapply Forall_lookup_1 in Hg; [|done].
      destruct runs; [by apply run_fan_out_spec|by apply drop_fan_out_spec].
  - exists (set_spawned (delete i (spawned s)) s), None, ∅. split_and!; [done| |done].
    apply lookup_ge_None in Hi. rewrite delete_take_drop, take_ge, drop_ge, app_nil_r by lia.
    by destruct s.
Qed.

(** ** The operations *)

Local Tactic Notation "awaits" uconstr(lem) := apply owp_bind; eapply owp_mono; [apply lem|].

Lemma reads_any {R} (f : state -> R) own : owp (reads_state f) own (fun _ own' => own' = own).
Proof. by apply owp_reads. Qed.

Lemma conns_of_spec peers own :
  owp (reads_state (conns_of peers)) own (fun targets own' =>
    own' = own /\ Forall (fun c => au_peer_id c ∈ peers) targets).
Proof.
  apply owp_reads. intros s frame Hs. split; [done|]. apply Forall_forall. intros c Hc.
  unfold conns_of in Hc. apply list_elem_of_bind in Hc as (p & Hc & Hp).
  destruct (connections s !! p) as [l|] eqn:Hl; [|by apply not_elem_of_nil in Hc].
  by rewrite (ho_connections _ _ Hs p l Hl c Hc).
Qed.

(** The targets of a fan-out to these peers. *)
Lemma targets_good_intro message (peers : list PeerId) targets :
  Forall (fun c => au_peer_id c ∈ peers) targets ->
  (forall c, au_peer_id c ∈ peers -> good (c, message)) -> targets_good message targets.
Proof. intros Ht Hg. eapply Forall_impl; [exact Ht|]. exact Hg. Qed.

Lemma publish_spec msg :
  (forall signed, msg = EM_Ephemeral signed -> published signed) ->
  owp (publish config msg) ∅ (fun _ own' => own' = ∅).
Proof.
  intros Hpub. destruct msg as [signed|ts|ts|ts]; [|done..]. specialize (Hpub _ eq_refl).
  unfold publish. destruct (EphemeralCodec.try_decode_header _) as [header|e] eqn:Hh; [|done].
  destruct (N.ltb_spec (max_payload_size config) (eph_payload_len header)) as [|Hsize]; [done|].
  awaits clock_read. intros now own' ->. awaits cache_spec. intros [] own' ->; [|done]. cbn [negb].
  awaits reads_any. intros peers own' ->. awaits reads_any. intros outgoing own' ->.
  apply owp_bind. eapply (owp_mono _ _ _ (fun _ own' => own' = ∅));
    [by destruct outgoing; [apply reads_any|]|]. intros target_peers own' ->.
  case_bool_decide; [done|]. awaits (policy_spec _ _ _ (filter_law _ _)).
  intros authorized own' [[_ Hauth] ->]. case_bool_decide; [done|].
  awaits conns_of_spec. intros targets own' [-> Ht]. rewrite Forall_forall in Hauth.
  awaits (admit_fan_out_spec (EM_Ephemeral signed)).
  { eapply targets_good_intro; [exact Ht|]. intros c Hc. exists header.
    split_and!; [done..|by apply Hauth|by left]. }
  intros [f|] own' Hf; [|done]. destruct Hf as [-> Hg]. by apply run_fan_out_spec.
Qed.

Lemma send_all_spec msg targets own :
  targets_good msg targets -> owp (send_all msg targets) own (fun _ own' => own' = own).
Proof.
  intros Hg. apply (owp_tfor _ _ (fun _ _ own' => own' = own) []); [|done].
  intros seen [] c own' Hc ->. apply owp_bind. eapply owp_mono; [apply ephemeral_send_spec|done].
  by apply (proj1 (Forall_forall _ _) Hg).
Qed.

Lemma control_good msg targets :
  (forall signed, msg <> EM_Ephemeral signed) -> targets_good msg targets.
Proof.
  intros Hm. apply Forall_forall. intros c _. unfold good. destruct msg; try done. by destruct (Hm signed).
Qed.

Lemma send_to_all_peers_spec msg own :
  (forall signed, msg <> EM_Ephemeral signed) ->
  owp (send_to_all_peers msg) own (fun _ own' => own' = own).
Proof.
  intros Hm. awaits reads_any. intros targets own' ->. by apply send_all_spec, control_good.
Qed.

Lemma ephemeral_outgoing_spec f own :
  owp (with_field outgoing_subscriptions set_outgoing_subscriptions (fun x => (f x, tt))) own
    (fun _ own' => own' = own).
Proof.
  eapply owp_mono; [apply (field_spec _ _ _ _ (fun _ => True))|by intros r o [_ ->]].
  intros s held Hs. split; [kept Hs|done].
Qed.

Lemma subscribe_spec topics : owp (subscribe topics) ∅ (fun _ own' => own' = ∅).
Proof. awaits ephemeral_outgoing_spec. intros [] own' ->. by apply send_to_all_peers_spec. Qed.

Lemma unsubscribe_spec topics : owp (unsubscribe topics) ∅ (fun _ own' => own' = ∅).
Proof. awaits ephemeral_outgoing_spec. intros [] own' ->. by apply send_to_all_peers_spec. Qed.

Lemma subscribe_peer_spec peer : owp (subscribe_peer peer) ∅ (fun _ own' => own' = ∅).
Proof.
  awaits reads_any. intros topics own' ->. destruct (ne_from_vec topics); [|done].
  awaits reads_any. intros targets own' ->. by apply send_all_spec, control_good.
Qed.

Lemma subscriptions_field {R} (f : gmap Topic (gset PeerId) -> gmap Topic (gset PeerId) * R) own :
  (forall subs, subscriptions_ok subs -> subscriptions_ok (f subs).1) ->
  owp (with_field ephemeral_subscriptions set_ephemeral_subscriptions f) own
    (fun _ own' => own' = own).
Proof.
  intros Hf. eapply owp_mono; [apply (field_spec _ _ _ _ (fun _ => True))|by intros r o [_ ->]].
  intros s held Hs. split; [|done]. kept Hs. by apply Hf, Hs.
Qed.

Lemma try_send_ok event ch :
  channel_ok ch -> genuine event -> channel_ok (try_send (channel_capacity config) event ch).1.
Proof.
  intros [Hg Hlen] He. unfold try_send.
  destruct (ch_open ch); [|done]. destruct (N.ltb_spec (len (drop (ch_received ch) (ch_sent ch)))
    (channel_capacity config)) as [Hlt|]; [|done]. split; cbn.
  - apply Forall_app. split; [done|by constructor].
  - unfold len in *. rewrite length_drop in *. rewrite length_app. simpl. lia.
Qed.

Lemma recv_ephemeral_spec conn message :
  owp (recv_ephemeral config conn message) ∅ (fun o own' =>
    match o with
    | Some f => own' = guards_of (ef_targets f) /\ targets_good (ef_message f) (ef_targets f).*1
    | None => own' = ∅
    end).
Proof.
  destruct message as [signed|ts|ts|ts]; [|done..]. unfold recv_ephemeral.
  destruct (EphemeralCodec.try_decode_header _) as [header|e] eqn:Hh; [|done].
  destruct (N.ltb_spec (max_payload_size config) (eph_payload_len header)) as [|Hsize]; [done|].
  awaits clock_read. intros now own' ->. destruct (_ <? _); [done|].
  awaits reads_any. intros [] own' ->; [done|].
  destruct (try_from_signed signed) as [[signed' ep]|e] eqn:Hv; [|done].
  assert (signed' = signed /\ header = EphemeralCodec.header_of ep) as [-> ->].
  { unfold try_from_signed in Hv. apply rbind_ok in Hv as (? & _ & Hv).
    apply rbind_ok in Hv as ([p n] & Hp%map_err_ok & [= -> ->]). split; [done|].
    pose proof (EphemeralCodec.header_agrees _ _ _ Hp). congruence. }
  cbn [vs_payload]. awaits cache_spec. intros [] own' ->; [|done]. cbn [negb].
  awaits (policy_spec _ _ _ (publish_law _ _)). intros [[]|e] own' [Hpub ->]; [|done].
  specialize (Hpub eq_refl). apply owp_bind. eapply (owp_mono _ _ _ (fun _ own' => True /\ own' = ∅)).
  { apply (field_spec _ _ _ _ (fun _ => True)). intros s held Hs. split; [|done]. kept Hs.
    apply try_send_ok; [apply Hs|]. by exists signed, ep. }
  intros ok own' [_ ->]. apply owp_bind. eapply (owp_mono _ _ _ (fun peers own' =>
    own' = ∅ /\ forall p, p ∈ peers -> p <> sg_issuer signed)).
  { apply owp_reads. intros s frame Hs. split; [done|]. intros p.
    destruct (ephemeral_subscriptions s !! _); [|by intros []%not_elem_of_nil].
    rewrite list_elem_of_filter. tauto. }
  intros peers own' [-> Hne]. case_bool_decide; [done|].
  awaits (policy_spec _ _ _ (filter_law _ _)). intros authorized own' [[Hsub Hauth] ->].
  awaits conns_of_spec. intros targets own' [-> Ht]. rewrite Forall_forall in Hauth.
  apply admit_fan_out_spec. eapply targets_good_intro; [exact Ht|]. intros c Hc.
  eexists. split_and!; [exact Hh|done|by apply Hauth|]. right. cbn [snd fst]. rewrite Hv.
  split_and!; [done..|]. by apply Hne, Hsub.
Qed.

Lemma subscribed_ok peer topics subs :
  subscriptions_ok subs -> Forall (may_subscribe peer) topics ->
  subscriptions_ok (foldl (fun subs topic => <[topic := {[peer]} ∪ default ∅ (subs !! topic)]> subs)
                      subs topics).
Proof.
  revert subs. induction topics as [|t topics IH]; intros subs Hs Ht; [done|]. simpl.
  apply Forall_cons in Ht as [Ht Hts]. apply IH; [|done]. intros topic peers.
  destruct (decide (topic = t)) as [-> |Hne]; [|rewrite lookup_insert_ne by done; apply Hs].
  rewrite lookup_insert_eq. intros [= <-] p [->%elem_of_singleton|Hp]%elem_of_union; [done|].
  destruct (subs !! t) as [ps|] eqn:Hps; [by eapply Hs|by apply elem_of_empty in Hp].
Qed.

Lemma left_ok peer topics subs :
  subscriptions_ok subs -> subscriptions_ok (foldl (leave peer) subs topics).
Proof.
  revert subs. induction topics as [|t topics IH]; intros subs Hs; [done|]. simpl. apply IH.
  unfold leave. destruct (subs !! t) as [ps|] eqn:Hps; [|done]. case_bool_decide.
  - intros topic peers [_ Hl]%lookup_delete_Some. by eapply Hs.
  - intros topic peers. destruct (decide (topic = t)) as [-> |Hne].
    + rewrite lookup_insert_eq. intros [= <-] p Hp. apply (Hs t ps Hps). set_solver.
    + rewrite lookup_insert_ne by done. by eapply Hs.
Qed.

Lemma recv_subscribe_spec conn topics : owp (recv_subscribe conn topics) ∅ (fun _ own' => own' = ∅).
Proof.
  unfold recv_subscribe. apply owp_bind.
  eapply owp_mono; [apply (owp_tfor _ _ (fun _ (r : list Topic * list Topic) own =>
    own = ∅ /\ Forall (may_subscribe (au_peer_id conn)) r.1) [])|].
  - intros seen [authorized rejected] topic own _ [-> Ha]. apply owp_bind.
    eapply owp_mono; [apply (policy_spec _ _ _ (subscribe_law _ _))|].
    intros [[]|e] own' [Hs ->]; (split; [done|]); cbn [fst] in *; [|done].
    apply Forall_app. split; [done|]. constructor; [by apply Hs|done].
  - by split; [|constructor].
  - intros [authorized rejected] own' [-> Ha]. cbn [fst] in Ha.
    apply owp_bind. eapply (owp_mono _ _ _ (fun _ own' => own' = ∅)).
    { destruct authorized as [|t ts]; [done|]. apply subscriptions_field. intros subs Hs.
      by apply subscribed_ok. }
    intros [] own' ->. destruct (ne_from_vec rejected); [|done].
    awaits ephemeral_send_spec; [done|]. by intros r own' ->.
Qed.

Lemma ephemeral_handle_spec conn message : owp (handle config conn message) ∅ (fun _ own' => own' = ∅).
Proof.
  unfold handle, dispatch. apply owp_bind. destruct message as [signed|ts|ts|ts].
  - eapply owp_mono; [apply recv_ephemeral_spec|]. intros [f|] own' Hf; [|done].
    destruct Hf as [-> Hg]. by apply ephemeral_spawn_spec.
  - awaits recv_subscribe_spec. by intros [] own' ->.
  - awaits subscriptions_field; [|by intros [] own' ->]. intros subs. apply left_ok.
  - done.
Qed.

Lemma on_peer_disconnect_spec peer : owp (on_peer_disconnect peer) ∅ (fun _ own' => own' = ∅).
Proof.
  unfold on_peer_disconnect. awaits subscriptions_field.
  { intros subs Hs topic peers [Hl _]%map_lookup_filter_Some.
    apply lookup_fmap_Some in Hl as (ps & <- & Hps). intros p Hp. apply (Hs topic ps Hps). set_solver. }
  intros [] own' ->. awaits cache_spec. intros [] own' ->.
  eapply owp_mono; [apply (field_spec _ _ _ _ (fun _ => True))|by intros r o [_ ->]].
  intros s held Hs. split; [|done]. kept Hs. by apply budget_forget, Hs.
Qed.

(** ** All operations, interleaved *)

(** What may run: the calls of the handler and of its executor, and around it the clock, the
    registry of connections, and the application, which receives events and drops the receiver. *)
Inductive job : Type :=
| JHandle (conn : Authenticated Conn) (message : EphemeralMessage)
| JPublish (msg : EphemeralMessage)
| JSubscribe (topics : NonEmpty Topic)
| JUnsubscribe (topics : NonEmpty Topic)
| JSubscribePeer (peer : PeerId)
| JDisconnected (peer : PeerId)
| JSpawned (i : nat) (runs : bool)
| JClock (now : TimestampSeconds)
| JConnections (conns : gmap PeerId (list (Authenticated Conn)))
| JReceive
| JCloseReceiver.

Definition serve (j : job) : task state unit :=
  match j with
  | JHandle conn message => handle config conn message
  | JPublish msg => publish config msg
  | JSubscribe topics => subscribe topics
  | JUnsubscribe topics => unsubscribe topics
  | JSubscribePeer peer => subscribe_peer peer
  | JDisconnected peer => on_peer_disconnect peer
  | JSpawned i runs => run_spawned i runs
  | JClock now => with_field clock set_clock (fun _ => (now, tt))
  | JConnections conns => with_field connections set_connections (fun _ => (conns, tt))
  | JReceive => with_field callback set_callback (fun ch =>
      (MkChannel (ch_sent ch) (S (ch_received ch) `min` length (ch_sent ch)) (ch_open ch), tt))
  | JCloseReceiver => with_field callback set_callback (fun ch =>
      (MkChannel (ch_sent ch) (ch_received ch) false, tt))
  end.

(** The application publishes its own messages; a connection is registered under its peer. *)
Definition admissible (j : job) : Prop :=
  match j with
  | JPublish (EM_Ephemeral signed) => published signed
  | JConnections conns => connections_ok conns
  | _ => True
  end.

Definition jobs (t : task state unit) : Prop := exists j, admissible j /\ t = serve j.

Lemma callback_field f own :
  (forall ch, channel_ok ch -> channel_ok (f ch)) ->
  owp (with_field callback set_callback (fun ch => (f ch, tt))) own (fun _ own' => own' = own).
Proof.
  intros Hf. eapply owp_mono; [apply (field_spec _ _ _ _ (fun _ => True))|by intros r o [_ ->]].
  intros s held Hs. split; [|done]. kept Hs. by apply Hf, Hs.
Qed.

Lemma ephemeral_serve_spec j : admissible j -> owp (serve j) ∅ (fun _ own' => own' = ∅).
Proof.
  intros Hj. destruct j as [conn m|m|ts|ts|p|p|i runs|now|conns| |]; cbn [serve].
  - apply ephemeral_handle_spec.
  - apply publish_spec. intros signed ->. exact Hj.
  - apply subscribe_spec.
  - apply unsubscribe_spec.
  - apply subscribe_peer_spec.
  - apply on_peer_disconnect_spec.
  - apply ephemeral_run_spawned_spec.
  - eapply owp_mono; [apply (field_spec _ _ _ _ (fun _ => True))|by intros r o [_ ->]].
    intros s held Hs. split; [kept Hs|done].
  - eapply owp_mono; [apply (field_spec _ _ _ _ (fun _ => True))|by intros r o [_ ->]].
    intros s held Hs. split; [kept Hs|done].
  - apply callback_field. intros ch [Hg Hlen]. split; cbn [ch_sent ch_received]; [done|].
    unfold len in *. rewrite length_drop in *. lia.
  - by apply callback_field.
Qed.

Lemma jobs_owned t : jobs t -> owp t ∅ (fun _ own' => True /\ own' = ∅).
Proof. intros (j & Hj & ->). eapply owp_mono; [by apply ephemeral_serve_spec|done]. Qed.

Lemma handler_new conns pol net0 now :
  connections_ok conns -> net_sent net0 = [] ->
  handler_ok (EphemeralHandler_new config conns pol net0 now) ∅.
Proof.
  intros Hc Hn. split; cbn; [by intros t ps; rewrite lookup_empty|done| | |done|].
  - by rewrite Hn.
  - split; cbn; [constructor|]. unfold len. simpl. lia.
  - exact budget_new.
Qed.

Lemma handler_reachable conns pol net0 now s ts :
  connections_ok conns -> net_sent net0 = [] ->
  rtc (pool_step jobs) (EphemeralHandler_new config conns pol net0 now, []) (s, ts) ->
  pool_ok handler_ok (fun _ => True) (s, ts).
Proof.
  intros Hc Hn Hr. eapply pool_owned; [|exact Hr|]; [exact jobs_owned|].
  by apply pool_ok_empty, handler_new.
Qed.

(** C37: Whatever calls of the handler interleave, and however: no task panics. Every event that the
    application was offered is one whose sender signed it and may publish on its topic, within
    the size limit, and no more than the capacity are waiting. Every signed message that was
    handed to a connection went to a peer that may subscribe to its topic, and was published
    here or carries a good signature of a sender that may publish, to whom it did not go back.
    Only peers that may subscribe are subscribed. *)
Theorem ephemeral_pool_safe conns pol net0 now s ts :
  connections_ok conns -> net_sent net0 = [] ->
  rtc (pool_step jobs) (EphemeralHandler_new config conns pol net0 now, []) (s, ts) ->
  (forall event, event ∈ ch_sent (callback s) -> genuine event) /\
  len (drop (ch_received (callback s)) (ch_sent (callback s))) <= channel_capacity config /\
  (forall sent, sent ∈ net_sent (net s) -> good sent) /\
  subscriptions_ok (ephemeral_subscriptions s) /\
  (forall B (f : state -> option (state * B)) k, Act f k ∈ ts -> is_Some (f s)).
Proof.
  intros Hc Hn Hr. pose proof (handler_reachable _ _ _ _ _ _ Hc Hn Hr) as Hok.
  assert (Hs : exists held, handler_ok s held) by (by destruct Hok as (owns & _ & Hs); eexists).
  destruct Hs as [held [Hsub _ Hnet [Hgen Hlen] _ _]]. rewrite Forall_forall in Hgen. rewrite Forall_forall in Hnet.
  split_and!; [done..|]. intros B f k. by eapply (pool_ok_safe _ _ (s, ts)).
Qed.

(** The budget of unfinished sends. However the calls interleave, and whether the executor runs
    the fan-outs it was given or drops them, no counter exceeds the cap, each counts at least
    the sends that wait to be started, and the counter of a peer exists. When every task has
    returned and nothing waits, all counters are zero: no guard leaks and none is dropped
    twice. *)
Theorem ephemeral_budget conns pol net0 now s ts :
  connections_ok conns -> net_sent net0 = [] ->
  rtc (pool_step jobs) (EphemeralHandler_new config conns pol net0 now, []) (s, ts) ->
  (forall a n, counters (inflight s) !! a = Some n ->
     N.of_nat (multiplicity a (spawned_guards (spawned s))) <= n /\
     n <= MAX_INFLIGHT_EPHEMERAL_SENDS_PER_PEER) /\
  (forall p a, inflight_sends (inflight s) !! p = Some a -> is_Some (counters (inflight s) !! a)) /\
  ((forall t, t ∈ ts -> t = Ret tt) -> spawned s = [] ->
   Forall (fun n => n = 0) (counters (inflight s))).
Proof.
  intros Hc Hn Hr. destruct (handler_reachable _ _ _ _ _ _ Hc Hn Hr) as (owns & Hall & Hs).
  pose proof (ho_budget _ _ Hs) as Hb. cbn [fst snd] in *. split_and!.
  - intros a n Ha. destruct (bu_count _ _ Hb a n Ha) as [-> Hmax]. split; [|done].
    rewrite multiplicity_disj_union. lia.
  - intros p a Hp. by apply lookup_lt_is_Some, (bu_map _ _ Hb p).
  - intros Hret Hsp. rewrite Hsp in Hb.
    assert (Hzero : total owns = ∅).
    { clear Hs Hb Hr. induction Hall as [|t own ts' owns' Ht _ IH]; [done|]. simpl.
      rewrite IH by (intros t' Ht'; apply Hret; by right).
      rewrite (Hret t) in Ht by left. destruct Ht as [_ ->]. multiset_solver. }
    rewrite Hzero in Hb. apply Forall_lookup. intros a n Ha.
    destruct (bu_count _ _ Hb a n Ha) as [-> _]. done.
Qed.
End spec.

(** ** An example node

    The open policy, and a transport that records what it is given to send. *)

Definition open_policy : EphemeralPolicy unit unit unit := {|
  authorize_subscribe _ _ := Ret (Ok tt);
  authorize_publish _ _ := Ret (Ok tt);
  filter_authorized_subscribers _ peers := Ret peers
|}.

Lemma open_policy_laws :
  @EphemeralPolicyLaws unit unit unit open_policy (fun _ _ => True) (fun _ _ => True).
Proof.
  split; cbn; try done. intros topic peers. split; [done|]. by apply Forall_true.
Qed.

Notation Recorded := (list (Authenticated unit * EphemeralMessage)) (only parsing).

Definition recorder : EphemeralConnection Recorded unit unit :=
  fun conn msg => act (fun sent => Some (sent ++ [(conn, msg)], Ok tt)).

Lemma recorder_laws : @EphemeralConnectionLaws Recorded unit unit recorder (fun sent => sent).
Proof.
  intros good conn msg Hg. apply owp_act. intros sent frame Hs.
  eexists _, _, ∅. split_and!; [done| |done]. apply Forall_app. split; [done|by constructor].
Qed.

#[export] Existing Instance hash_iter_by_encoding.
#[export] Existing Instance ed25519_checksum.
#[export] Existing Instance bijou_fixed8.
#[export] Existing Instance bijou_fixed8_laws.
#[export] Existing Instance open_policy.
#[export] Existing Instance open_policy_laws.
#[export] Existing Instance recorder.
#[export] Existing Instance recorder_laws.

Definition reader_conn : Authenticated unit := from_handshake tt (array_pad 32 [x0a]) Accepted.
Definition relay_conn : Authenticated unit := from_handshake tt (array_pad 32 [x0b]) Dialed.
Definition example_topic : Topic := array_pad 32 [x07].

(** A message of the signer [x05], with a nonce and a time. *)
Definition signed_at (nonce : N) (timestamp : TimestampSeconds) : Signed EphemeralPayload :=
  vs_signed (seal (toy_signer x05) (MkEphemeralPayload example_topic nonce timestamp [x68; x69])).

Definition example_start : EphemeralHandler unit Recorded unit :=
  EphemeralHandler_new EphemeralConfig_default
    {[au_peer_id reader_conn := [reader_conn]; au_peer_id relay_conn := [relay_conn]]} tt [] 1000.

(** A reader subscribes, a relay brings a message, and the executor runs the fan-out. *)
Definition example_jobs : list (job (Conn:=unit)) :=
  [JHandle reader_conn (EM_Subscribe (MkNonEmpty example_topic []));
   JHandle relay_conn (EM_Ephemeral (signed_at 42 1000));
   JSpawned 0 true].

Definition example_tasks : list (task (EphemeralHandler unit Recorded unit) unit) :=
  serve EphemeralConfig_default <$> example_jobs.

Definition example_order : list nat := replicate 1 0%nat ++ replicate 8 1%nat ++ replicate 3 2%nat.

Definition example_end : EphemeralHandler unit Recorded unit * list (task (EphemeralHandler unit Recorded unit) unit) :=
  default (example_start, []) (schedule example_order (example_start, example_tasks)).

Lemma example_runs :
  rtc (pool_step (jobs EphemeralConfig_default (fun _ => True))) (example_start, []) example_end.
Proof.
  transitivity (example_start, example_tasks).
  - apply (pool_arrive _ _ []). unfold example_tasks, example_jobs.
    cbn [fmap list_fmap]. do 3 (apply Forall_cons; split; [by eexists; split; [|reflexivity]|]).
    by apply Forall_nil.
  - unfold example_end. apply schedule_runs. vm_compute. reflexivity.
Qed.

Lemma example_connections : connections_ok (connections example_start).
Proof.
  intros p l. unfold example_start. cbn [connections EphemeralHandler_new].
  rewrite lookup_insert_Some, lookup_singleton_Some.
  intros [[<- <-]|[_ [<- <-]]] c ->%list_elem_of_singleton; done.
Qed.

Lemma ephemeral_pool_safe_witness :
  (exists event, ch_sent (callback example_end.1) = [event] /\
     genuine (may_publish := fun _ _ => True) EphemeralConfig_default event) /\
  net example_end.1 = [(reader_conn, EM_Ephemeral (signed_at 42 1000))].
Proof.
  split; [|vm_compute; reflexivity].
  destruct (ephemeral_pool_safe (net_sent := fun sent => sent) (may_subscribe := fun _ _ => True)
    (may_publish := fun _ _ => True) EphemeralConfig_default (fun _ => True) (connections example_start)
    tt [] 1000 example_end.1 example_end.2 example_connections eq_refl) as [Hgen _].
  { rewrite <- surjective_pairing. exact example_runs. }
  eexists. split; [vm_compute; reflexivity|]. apply Hgen. vm_compute. left.
Defined.

Lemma ephemeral_budget_witness :
  counters (inflight example_end.1) = [0] /\ Forall (fun n => n = 0) (counters (inflight example_end.1)).
Proof.
  split; [vm_compute; reflexivity|].
  destruct (ephemeral_budget (net_sent := fun sent => sent) (may_subscribe := fun _ _ => True)
    (may_publish := fun _ _ => True) EphemeralConfig_default (fun _ => True) (connections example_start)
    tt [] 1000 example_end.1 example_end.2 example_connections eq_refl) as (_ & _ & Hzero).
  { rewrite <- surjective_pairing. exact example_runs. }
  apply Hzero; [|vm_compute; reflexivity].
  assert (He : example_end.2 = replicate 3 (Ret tt)) by (vm_compute; reflexivity).
  intros t. rewrite He. intros Ht. by apply elem_of_replicate in Ht as [-> _].
Defined.
