(* ===== verification/EphemeralReplay.v ===== *)
(** * Replays of ephemeral messages

    A handler that serves one call after another, with a clock that does not run backwards. How
    long a message counts as seen depends on the window of the nonce cache, and how long it is
    acceptable on the limit of its age; a message is delivered once when the window covers the
    time in which it is acceptable, and with the default configuration it does not. *)

From Stdlib Require Import Strings.Byte NArith Lia.
From stdpp Require Import base gmap gmultiset sorting strings list relations.
From S2P Require Import Prelude.
From S2P Require Import Codec.
From S2P Require Import Types.
From S2P Require Import Traversal.
From S2P Require Import Signed.
From S2P Require Import NonceCache.
From S2P Require Import HandshakeWire.
From S2P Require Import Authenticated.
From S2P Require Import Tasks.
From S2P Require Import Ownership.
From S2P Require Import EphemeralWire.
From S2P Require Import EphemeralNonceCache.
From S2P Require Import EphemeralHandler.
From S2P Require Import EphemeralSpec.

Open Scope N_scope.

Section replay.
Context `{HashIter, Ed25519, Bijou64Laws} {Pol Ds Dp Net Conn SendErr : Type}.
Context `{!EphemeralPolicy Pol Ds Dp} `{!EphemeralConnection Net Conn SendErr}.
Context (config : EphemeralConfig).
Notation state := (EphemeralHandler Pol Net Conn).
Notation job := (job (Conn:=Conn)).
Implicit Types (s : state) (m : EphemeralMessage).

(** ** Histories *)

(** The calls, one after another; [None] if one of them panics. *)
Fixpoint sequentially (h : list job) (s : state) : option state :=
  match h with
  | [] => Some s
  | j :: h' => match run (serve config j) s with Some (s', _) => sequentially h' s' | None => None end
  end.

(** The clock does not run backwards from [last] on. *)
Fixpoint forward (last : TimestampSeconds) (h : list job) : Prop :=
  match h with
  | [] => True
  | JClock now :: h' => last <= now <= u64_max /\ forward now h'
  | _ :: h' => forward last h'
  end.

(** ** How a call changes the cache *)

Definition op_at (now : TimestampSeconds) (gone : list PeerId) (op : cache_op) : Prop :=
  match op with CheckNonce _ _ _ t => t = now | RemovePeer p => p ∈ gone end.

(** By checks at this time, and by the removal of these peers. *)
Record evolves (gone : list PeerId) s s' : Prop := {
  ev_clock : clock s' = clock s;
  ev_cache : exists ops, Forall (op_at (clock s) gone) ops /\
    forall L, exists L', foldl cache_step (nonce_cache s, L) ops = (nonce_cache s', L')
}.

Lemma evolves_same gone s s' :
  clock s' = clock s -> nonce_cache s' = nonce_cache s -> evolves gone s s'.
Proof. intros Hc Hn. split; [done|]. exists []. split; [done|]. intros L. exists L. by rewrite Hn. Qed.

Lemma evolves_trans gone s s' s'' : evolves gone s s' -> evolves gone s' s'' -> evolves gone s s''.
Proof.
  intros [Hc (ops & Ho & Hf)] [Hc' (ops' & Ho' & Hf')]. split; [congruence|].
  exists (ops ++ ops'). rewrite Hc in Ho'. split; [by apply Forall_app|]. intros L.
  destruct (Hf L) as [L1 E1]. destruct (Hf' L1) as [L2 E2]. exists L2. by rewrite foldl_app, E1, E2.
Qed.

(** A task that, started at [now], changes the cache so. *)
Definition tev (now : TimestampSeconds) (gone : list PeerId) {A} (t : task state A) : Prop :=
  forall s s' a, clock s = now -> run t s = Some (s', a) -> evolves gone s s'.

Section tev.
Context (now : TimestampSeconds) (gone : list PeerId).
Notation tev := (tev now gone).

Lemma tev_ret {A} (a : A) : tev (Ret a).
Proof. intros s s' b _ [= <- <-]. by apply evolves_same. Qed.

Lemma tev_bind {A B} (t : task state A) (k : A -> task state B) :
  tev t -> (forall a, tev (k a)) -> tev (tbind t k).
Proof.
  intros Ht Hk s s' b Hs. rewrite run_bind. destruct (run t s) as [[s1 a]|] eqn:E; [|done].
  intros Hr. pose proof (Ht _ _ _ Hs E) as He. eapply evolves_trans; [exact He|].
  eapply Hk; [|exact Hr]. by rewrite (ev_clock _ _ _ He).
Qed.

Lemma tev_reads {A} (f : state -> A) : tev (reads_state f).
Proof. intros s s' a _ [= <- <-]. by apply evolves_same. Qed.

(** Who asks for the time gets it. *)
Lemma tev_clock {B} (k : TimestampSeconds -> task state B) :
  tev (k now) -> tev (tbind (reads_state (fun s : state => clock s)) k).
Proof. intros Hk s s' b Hs Hr. eapply Hk; [exact Hs|]. simpl in Hr. by rewrite Hs in Hr. Qed.

Lemma tev_act {A} (f : state -> option (state * A)) :
  (forall s s' a, f s = Some (s', a) -> clock s' = clock s /\ nonce_cache s' = nonce_cache s) ->
  tev (act f).
Proof.
  intros Hf s s' a _. simpl. destruct (f s) as [[s1 b]|] eqn:E; [|done]. intros [= <- <-].
  destruct (Hf _ _ _ E). by apply evolves_same.
Qed.

Lemma tev_field {F R} (get : state -> F) set (f : F -> F * R) :
  (forall x s, clock (set x s) = clock s /\ nonce_cache (set x s) = nonce_cache s) ->
  tev (with_field get set f).
Proof.
  intros Hset. apply tev_act. intros s s' a. destruct (f (get s)) as [x r]. intros [= <- <-].
  apply Hset.
Qed.

Lemma tev_zoom {T R} (get : state -> T) set (t : task T R) :
  (forall x s, clock (set x s) = clock s /\ nonce_cache (set x s) = nonce_cache s) ->
  tev (zoom get set t).
Proof.
  intros Hset s s' a Hs Hr. apply evolves_same; revert s s' a Hr Hs;
    induction t as [b|B f k IH]; simpl; intros s s' a Hr Hs; try (by injection Hr as <- _);
    (destruct (f (get s)) as [[x b]|]; [|done]); rewrite (IH _ _ _ _ Hr); try apply Hset;
    by rewrite <- Hs; apply Hset.
Qed.

Lemma tev_policy {R} (t : task Pol R) : tev (on_policy t).
Proof. by apply tev_zoom. Qed.

Lemma tev_net {R} (t : task Net R) : tev (on_net t).
Proof. by apply tev_zoom. Qed.

Lemma tev_tfor {A B} (body : B -> A -> task state B) l b :
  (forall b x, tev (body b x)) -> tev (tfor body b l).
Proof.
  intros Hb. revert b. induction l as [|x l IH]; intros b; [apply tev_ret|]. simpl.
  apply tev_bind; [apply Hb|apply IH].
Qed.

Lemma tev_check sender topic nonce :
  tev (with_field nonce_cache set_nonce_cache (fun cache => check_and_insert cache sender topic nonce now)).
Proof.
  intros s s' a Hs. simpl. destruct (check_and_insert _ _ _ _ _) as [c r] eqn:E. intros [= <- <-].
  split; [done|]. exists [CheckNonce sender topic nonce now]. split; [by constructor|].
  intros L. simpl. rewrite E. by eexists.
Qed.

Lemma tev_remove peer :
  peer ∈ gone ->
  tev (with_field nonce_cache set_nonce_cache (fun cache => (remove_peer cache peer, tt))).
Proof.
  intros Hp s s' a Hs [= <- <-]. split; [done|]. exists [RemovePeer peer]. split; [by constructor|].
  intros L. by eexists.
Qed.
End tev.

Create HintDb tev.
#[local] Hint Resolve tev_ret tev_reads tev_policy tev_net tev_check tev_remove : tev.
#[local] Hint Extern 1 (tev _ _ (with_field _ _ _)) => apply tev_field; done : tev.
#[local] Hint Extern 2 (tev _ _ (tbind _ _)) => apply tev_bind; [|intros] : tev.
#[local] Hint Extern 2 (tev _ _ (tfor _ _ _)) => apply tev_tfor; intros : tev.
#[local] Hint Extern 3 (tev _ _ (match ?x with _ => _ end)) => destruct x : tev.

Lemma tev_drop_guard now gone a : tev now gone (drop_guard a).
Proof.
  apply tev_act. intros s s' r. cbv zeta. destruct (counters (inflight s) !! a); [|done].
  by intros [= <- <-].
Qed.

Lemma tev_admit now gone p : tev now gone (InflightGuard_admit p).
Proof.
  apply tev_act. intros s s' r. destruct (counter_of p (inflight s)) as [a x].
  destruct (counters x !! a); [|done]. destruct (_ <? _); by intros [= <- <-].
Qed.
#[local] Hint Resolve tev_drop_guard tev_admit : tev.

Lemma tev_admit_fan_out now gone m targets : tev now gone (admit_fan_out m targets).
Proof. unfold admit_fan_out. auto 10 with tev. Qed.

Lemma tev_run_fan_out now gone f : tev now gone (run_fan_out f).
Proof. unfold run_fan_out. auto 10 with tev. Qed.
#[local] Hint Resolve tev_admit_fan_out tev_run_fan_out : tev.

(** The calls before which no clock is set. *)
Definition removes (j : job) : list PeerId := match j with JDisconnected p => [p] | _ => [] end.
Definition sets_clock (j : job) : bool := match j with JClock _ => true | _ => false end.

Lemma tev_publish now gone m : tev now gone (publish config m).
Proof.
  unfold publish. destruct m as [signed|ts|ts|ts]; [|apply tev_ret..].
  destruct (EphemeralCodec.try_decode_header _); [|apply tev_ret].
  destruct (_ <? _); [apply tev_ret|]. apply tev_clock. auto 30 with tev.
Qed.

Lemma tev_recv_ephemeral now gone conn m : tev now gone (recv_ephemeral config conn m).
Proof.
  unfold recv_ephemeral. destruct m as [signed|ts|ts|ts]; [|apply tev_ret..].
  destruct (EphemeralCodec.try_decode_header _); [|apply tev_ret].
  destruct (_ <? _); [apply tev_ret|]. apply tev_clock. auto 30 with tev.
Qed.
#[local] Hint Resolve tev_recv_ephemeral : tev.

Lemma serve_evolves j s s' a :
  sets_clock j = false -> run (serve config j) s = Some (s', a) -> evolves (removes j) s s'.
Proof.
  intros Hj. assert (tev (clock s) (removes j) (serve config j)) as Ht; [|by apply Ht].
  destruct j as [conn m|m|ts|ts|p|p|i runs|now|conns| |]; cbn [serve removes]; [| |..|done| | |].
  - unfold handle. apply tev_bind; [|by intros []; auto with tev].
    unfold dispatch. destruct m; [apply tev_recv_ephemeral|..|apply tev_ret].
    + apply tev_bind; [|auto with tev]. unfold recv_subscribe.
      apply tev_bind; [|by intros []; auto 20 with tev].
      apply tev_tfor. intros [authorized rejected] topic. auto with tev.
    + unfold recv_unsubscribe. auto 20 with tev.
  - apply tev_publish.
  - unfold subscribe, send_to_all_peers, send_all. auto 10 with tev.
  - unfold unsubscribe, send_to_all_peers, send_all. auto 10 with tev.
  - unfold subscribe_peer, send_all. auto 10 with tev.
  - assert (p ∈ [p]) by left. unfold on_peer_disconnect. auto 10 with tev.
  - unfold run_spawned, take_spawned, drop_fan_out. auto 20 with tev.
  - auto with tev.
  - auto with tev.
  - auto with tev.
Qed.

(** ** The ledger of a history *)

Notation w := (nonce_window_duration config).

(** The cache answers for a ledger that has these entries. *)
Definition answers s (entries : ledger) : Prop :=
  exists L, cache_ok w (nonce_cache s) L (clock s) /\ entries ⊆ L /\ clock s <= u64_max.

Lemma ops_forward now gone ops :
  now <= u64_max -> Forall (op_at now gone) ops -> clock_forward now ops /\ last_time now ops = now.
Proof.
  intros Hmax. induction 1 as [|[sender topic n t|p] ops Hop _ IH]; [done|..]; simpl in *; [subst t|];
    split_and!; try apply IH; done || lia.
Qed.

Lemma ledger_kept gone now ops c L (x : PeerId * Topic * N * TimestampSeconds) :
  Forall (op_at now gone) ops -> x.1.1.1 ∉ gone -> x ∈ L -> x ∈ (foldl cache_step (c, L) ops).2.
Proof.
  intros Hops Hx. revert c L. induction Hops as [|[sender topic n t|p] ops Hop _ IH]; intros c L Hin;
    [done|..]; simpl in *.
  - destruct (check_and_insert c sender topic n t) as [c' []]; apply IH; set_solver.
  - apply IH. destruct x as [[[q to] n] t]. apply list_elem_of_filter. split; [|done].
    intros ->. by apply Hx.
Qed.

Lemma evolves_answers gone s s' entries :
  evolves gone s s' -> Forall (fun x => x.1.1.1 ∉ gone) entries -> answers s entries -> answers s' entries.
Proof.
  intros [Hc (ops & Hops & Hf)] Hent (L & Hok & Hin & Hmax).
  destruct (Hf L) as [L' E]. exists L'. rewrite Hc. split_and!; [| |done].
  - destruct (ops_forward _ _ _ Hmax Hops) as [Hfwd Hlast].
    pose proof (cache_run w _ _ _ ops Hok Hfwd) as Hrun. by rewrite E, Hlast in Hrun.
  - intros x Hx. rewrite Forall_forall in Hent.
    pose proof (ledger_kept _ _ ops (nonce_cache s) L x Hops (Hent x Hx) (Hin x Hx)) as Hk.
    by rewrite E in Hk.
Qed.

Lemma sequentially_answers h s s' entries :
  sequentially h s = Some s' -> forward (clock s) h ->
  (forall p, JDisconnected p ∈ h -> Forall (fun x => x.1.1.1 <> p) entries) ->
  answers s entries -> answers s' entries /\ clock s <= clock s'.
Proof.
  revert s. induction h as [|j h IH]; intros s Hrun Hfwd Hgone Hans; simpl in Hrun; [by simplify_eq|].
  destruct (run (serve config j) s) as [[s1 a]|] eqn:Hj; [|done].
  assert (Hstep : answers s1 entries /\ clock s <= clock s1 /\ forward (clock s1) h).
  { destruct (sets_clock j) eqn:Hc.
    - destruct j; try done. simpl in Hfwd, Hj. injection Hj as <- <-. cbn. split_and!; [|apply Hfwd..].
      destruct Hans as (L & Hok & Hin & _). exists L. split_and!; [|done|apply Hfwd].
      cbn. eapply cache_later; [done|apply Hfwd].
    - pose proof (serve_evolves _ _ _ _ Hc Hj) as He. rewrite (ev_clock _ _ _ He).
      split_and!; [|done|by destruct j]. eapply evolves_answers; [done| |done].
      destruct j; cbn [removes]; try (by apply Forall_true; set_solver).
      eapply Forall_impl; [apply (Hgone peer); left|]. simpl. set_solver. }
  destruct Hstep as (Ha & Hle & Hf).
  destruct (IH s1 Hrun Hf) as [Ha' Hle']; [|done|split; [done|lia]].
  intros p Hp. apply Hgone. by right.
Qed.

(** ** Receiving a message *)

Lemma run_reads {A B} (f : state -> A) (k : A -> task state B) s :
  run (tbind (reads_state f) k) s = run (k (f s)) s.
Proof. done. Qed.

Lemma run_field {F R B} (get : state -> F) set (f : F -> F * R) (k : R -> task state B) s :
  run (tbind (with_field get set f) k) s = let '(x, r) := f (get s) in run (k r) (set x s).
Proof. simpl. by destruct (f (get s)). Qed.

(** A message that changes what the application was offered was acceptable now, and its nonce was
    fresh. *)
Lemma handle_accepts conn signed s s1 a :
  run (handle config conn (EM_Ephemeral signed)) s = Some (s1, a) ->
  ch_sent (callback s1) <> ch_sent (callback s) ->
  exists header c (rest : task state unit),
    EphemeralCodec.try_decode_header (fields_bytes signed) = Ok header /\
    abs_diff (clock s) (eph_timestamp header) <= max_message_age config /\
    check_and_insert (nonce_cache s) (sg_issuer signed) (eph_id header) (eph_nonce header) (clock s)
      = (c, true) /\
    tev (clock s) [] rest /\ run rest (set_nonce_cache c s) = Some (s1, a).
Proof.
  intros Hr Hne. unfold handle, dispatch, recv_ephemeral in Hr. rewrite run_bind in Hr.
  destruct (EphemeralCodec.try_decode_header _) as [header|e] eqn:Hh; [|by injection Hr as <- <-].
  destruct (_ <? _) in Hr; [by injection Hr as <- <-|]. rewrite run_reads in Hr.
  destruct (N.ltb_spec (max_message_age config) (abs_diff (clock s) (eph_timestamp header)))
    as [|Hage]; [by injection Hr as <- <-|]. rewrite run_reads in Hr.
  destruct (contains _ _ _ _); [by injection Hr as <- <-|].
  destruct (try_from_signed signed) as [[signed' ep]|e] eqn:Hv; [|by injection Hr as <- <-].
  assert (header = EphemeralCodec.header_of ep) as ->.
  { unfold try_from_signed in Hv. apply rbind_ok in Hv as (? & _ & Hv).
    apply rbind_ok in Hv as ([p n] & Hp%map_err_ok & [= -> ->]).
    pose proof (EphemeralCodec.header_agrees _ _ _ Hp). congruence. }
  cbn [vs_payload] in Hr. rewrite run_field in Hr.
  destruct (check_and_insert _ _ _ _ _) as [c fresh] eqn:Hc.
  destruct fresh; [|by injection Hr as <- <-]. cbn [negb] in Hr.
  rewrite <- run_bind in Hr. eexists _, c, _. split_and!; [done..| |exact Hr].
  auto 30 with tev.
Qed.

(** A message that is too old, or whose nonce is in the cache, leaves everything as it is. *)
Lemma handle_ignores conn signed header s :
  EphemeralCodec.try_decode_header (fields_bytes signed) = Ok header ->
  max_message_age config < abs_diff (clock s) (eph_timestamp header) \/
  contains (nonce_cache s) (sg_issuer signed) (eph_id header) (eph_nonce header) = true ->
  run (handle config conn (EM_Ephemeral signed)) s = Some (s, tt).
Proof.
  intros Hh Hold. unfold handle, dispatch, recv_ephemeral. rewrite run_bind, Hh.
  destruct (_ <? _); [done|]. rewrite run_reads.
  destruct (N.ltb_spec (max_message_age config) (abs_diff (clock s) (eph_timestamp header)))
    as [|Hage]; [done|]. destruct Hold as [?|Hc]; [lia|]. by rewrite run_reads, Hc.
Qed.

Lemma new_answers conns pol net0 now :
  now <= u64_max -> answers (EphemeralHandler_new config conns pol net0 now) [].
Proof. intros Hn. exists []. split_and!; [apply cache_new|done|done]. Qed.

(** Two acceptable times of one message are at most twice the age limit apart. *)
Lemma acceptable_span t1 t2 ts (age : Duration) :
  t1 <= t2 -> abs_diff t1 ts <= age -> abs_diff t2 ts <= age ->
  Duration.from_secs t2 <= Duration.from_secs t1 + 2 * age.
Proof.
  unfold abs_diff, Duration.from_secs. destruct (N.ltb_spec t1 ts), (N.ltb_spec t2 ts); lia.
Qed.

(** C39: Where the window of the nonce cache is at least twice the limit of a message's age, no
    message is delivered twice by a handler that serves one call after another. After any
    history, a message reaches the application; calls of all kinds follow, the clock does not
    run backwards, and the message's sender does not disconnect. Whoever brings the message
    again, the handler ignores it: its state, with all it was going to send or deliver, stays
    what it was. *)
Theorem ephemeral_no_replay conns pol net0 now h1 h2 conn1 conn2 signed s1 s2 s3 :
  2 * max_message_age config <= nonce_window_duration config ->
  now <= u64_max -> forward now h1 ->
  sequentially h1 (EphemeralHandler_new config conns pol net0 now) = Some s1 ->
  run (handle config conn1 (EM_Ephemeral signed)) s1 = Some (s2, tt) ->
  ch_sent (callback s2) <> ch_sent (callback s1) ->
  forward (clock s2) h2 -> JDisconnected (sg_issuer signed) ∉ h2 ->
  sequentially h2 s2 = Some s3 ->
  run (handle config conn2 (EM_Ephemeral signed)) s3 = Some (s3, tt).
Proof.
  intros Hwin Hnow Hf1 Hh1 Hr Hne Hf2 Hgone Hh2.
  destruct (handle_accepts _ _ _ _ _ Hr Hne) as (header & c & rest & Hh & Hage & Hc & Hrest & Hrun).
  set (x := (sg_issuer signed, eph_id header, eph_nonce header, clock s1)).
  assert (Ha1 : answers s1 []).
  { eapply (sequentially_answers h1); [exact Hh1|done|done|by apply new_answers]. }
  assert (Hac : answers (set_nonce_cache c s1) [x]).
  { destruct Ha1 as (L & Hok & _ & Hmax). exists (L ++ [x]).
    pose proof (check_spec w _ _ _ (sg_issuer signed) (eph_id header) (eph_nonce header)
      (clock s1) Hok (conj (N.le_refl _) Hmax)) as Hs. rewrite Hc in Hs.
    split_and!; [apply Hs| |done]. set_solver. }
  pose proof (Hrest (set_nonce_cache c s1) _ _ eq_refl Hrun) as Hev.
  assert (Ha2 : answers s2 [x]).
  { eapply evolves_answers; [exact Hev| |exact Hac]. repeat constructor. set_solver. }
  destruct (sequentially_answers h2 s2 s3 [x] Hh2 Hf2) as [(L & Hok & Hin & _) Hle]; [|done|].
  { intros p Hp. repeat constructor. intros <-. by apply Hgone. }
  rewrite (ev_clock _ _ _ Hev) in Hle. cbn [clock set_nonce_cache] in Hle.
  apply (handle_ignores _ _ header); [done|].
  destruct (N.le_gt_cases (abs_diff (clock s3) (eph_timestamp header)) (max_message_age config))
    as [Hage'|]; [|by left].
  right. pose proof (contains_spec w _ _ _ (sg_issuer signed) (eph_id header) (eph_nonce header) Hok) as Hcon.
  destruct (contains _ _ _ _); [done|]. exfalso. specialize (Hcon (clock s1) (Hin x ltac:(left))).
  pose proof (acceptable_span _ _ _ _ Hle Hage Hage'). lia.
Qed.
End replay.

(** ** Two configurations *)

(** A message that is dated thirty seconds ahead arrives at 1000, between others of its sender. *)
Definition before : list (job (Conn:=unit)) :=
  [JHandle relay_conn (EM_Ephemeral (signed_at 1 970)); JClock 1000].
Definition ahead : EphemeralMessage := EM_Ephemeral (signed_at 42 1030).
Definition after : list (job (Conn:=unit)) :=
  [JClock 1001; JHandle relay_conn (EM_Ephemeral (signed_at 2 1001));
   JClock 1032; JHandle relay_conn (EM_Ephemeral (signed_at 3 1032))].

Definition start_with (config : EphemeralConfig) : EphemeralHandler unit Recorded unit :=
  EphemeralHandler_new config {[au_peer_id relay_conn := [relay_conn]]} tt [] 970.

Definition wide_window : EphemeralConfig :=
  MkEphemeralConfig 65536 1024 (Duration.from_secs 60) (Duration.from_secs 30).

(** The nonces of the events after a history. *)
Definition delivered (config : EphemeralConfig) (h : list (job (Conn:=unit))) : option (list N) :=
  (fun s => ev_nonce <$> ch_sent (callback s)) <$> sequentially config h (start_with config).

(** With the default configuration, a message is delivered twice. It is dated thirty seconds
    ahead of the receiver's clock, which is still acceptable, and the sender sends others
    before and after it. Thirty-two seconds later the cache has rotated twice and has lost its
    nonce, while its age is two seconds. The clock runs forward and nobody disconnects. *)
Theorem ephemeral_replay_default :
  let h := before ++ [JHandle relay_conn ahead] ++ after ++ [JHandle relay_conn ahead] in
  forward 970 h /\ (forall p, JDisconnected p ∉ h) /\
  delivered EphemeralConfig_default h = Some [1; 42; 2; 3; 42] /\
  delivered wide_window h = Some [1; 42; 2; 3].
Proof.
  split; [cbn; unfold u64_max; lia|]. split; [|split; vm_compute; reflexivity].
  intros p Hp. unfold before, after in Hp. simpl in Hp.
  by repeat (apply elem_of_cons in Hp as [Hp|Hp]; [done|]); apply not_elem_of_nil in Hp.
Qed.

Lemma after_stays p : JDisconnected p ∉ after.
Proof.
  intros Hp. unfold after in Hp.
  by repeat (apply elem_of_cons in Hp as [Hp|Hp]; [done|]); apply not_elem_of_nil in Hp.
Qed.

Lemma before_forward : forward 970 before.
Proof. cbn. unfold u64_max. lia. Qed.
Lemma after_forward : forward 1000 after.
Proof. cbn. unfold u64_max. lia. Qed.

(** With the wide window: what the handler has offered before and after the message, and the
    clock then, if all the calls go through. *)
Definition observed : option (nat * nat * N) :=
  s1 ← sequentially wide_window before (start_with wide_window);
  '(s2, _) ← run (handle wide_window relay_conn ahead) s1;
  _ ← sequentially wide_window after s2;
  Some (length (ch_sent (callback s1)), length (ch_sent (callback s2)), clock s2).

Lemma ephemeral_no_replay_witness :
  exists s1 s2 s3,
    sequentially wide_window before (start_with wide_window) = Some s1 /\
    run (handle wide_window relay_conn ahead) s1 = Some (s2, tt) /\
    ch_sent (callback s2) <> ch_sent (callback s1) /\
    sequentially wide_window after s2 = Some s3 /\
    run (handle wide_window reader_conn ahead) s3 = Some (s3, tt).
Proof.
  assert (Ho : observed = Some (1%nat, 2%nat, 1000)) by (vm_compute; reflexivity). unfold observed in Ho.
  apply bind_Some in Ho as (s1 & H1 & Ho). apply bind_Some in Ho as ([s2 []] & H2 & Ho).
  apply bind_Some in Ho as (s3 & H3 & Ho). injection Ho as Hl1 Hl2 Hc.
  assert (Hne : ch_sent (callback s2) <> ch_sent (callback s1)) by congruence.
  exists s1, s2, s3. split_and!; [exact H1|exact H2|exact Hne|exact H3|].
  refine (ephemeral_no_replay wide_window {[au_peer_id relay_conn := [relay_conn]]} tt [] 970
           before after relay_conn reader_conn (signed_at 42 1030) s1 s2 s3 _ _ before_forward H1 H2 Hne
           _ (after_stays _) H3).
  - vm_compute. discriminate.
  - vm_compute. discriminate.
  - rewrite Hc. exact after_forward.
Defined.
